(* ===== verification/_CoqProject ===== *)
-Q . S2P
Prelude.v
Intervals.v
BTreeMap.v
IntervalTree.v
IntervalTreeProps.v
PartialMap.v
Result.v
Records.v
OpLinear.v
Keys.v
Processing.v
Batches.v
OpUnion.v
OpUnionReplay.v
OpGrouped.v
OpGroupedProps.v
OpAggregate.v
OpAggregateProps.v
OpTopK.v
OpTopKProps.v
OpJoin.v
OpJoinProps.v
Array2.v
Tournament.v
TournamentProps.v
Replication.v
ReplicationProps.v
MySqlTime.v
Crates.v
KeyedState.v
KeyedStateProps.v
SingleState.v
SingleStateProps.v
MemoryState.v
MemoryStateProps.v
MemoryLookup.v
StateTheorems.v
Base.v
BaseProps.v
BaseTheorems.v
Timestamp.v
Effects.v
Payload.v
PacketFilter.v
Sharder.v
SharderProps.v
Egress.v
InsertionOrder.v
Eviction.v
ReaderMap.v
ReaderMapProps.v
ReaderMapContents.v
Backlog.v
Reader.v
ReaderProps.v
ReaderLookup.v
ReaderTheorems.v
Hashing.v
ReplayPaths.v
Domain.v
WaitingProps.v
DomainProps.v
OpPaginate.v
OpPaginateProps.v
OpLatest.v
NodeProcess.v
Operators.v
DomainFlow.v
DomainReplay.v
NodeProcessProps.v
DomainFlowProps.v
NodeLaws.v
FlowTheorems.v
Results.v
ResultsProps.v
ReadQuery.v
ReadQueryProps.v
Values.v
ValuesProps.v
Expressions.v
