(* ===== verification/Prelude.v ===== *)
(** * ReadySet dataflow core: a verification development

    ReadySet is a cache for MySQL and PostgreSQL.  It keeps the results of queries
    up to date as the tables change: a query is a graph of operators, the writes of
    the upstream database enter at base nodes as batches of signed records, every
    operator turns the batch of its parent into a batch of its own, and reader nodes
    at the end serve lookups.  State is partial: a key of a node's state is filled
    or a hole; a lookup of a hole asks for a replay of the key (an upquery), and an
    eviction makes a filled key a hole again.  The graph is cut into domains, which
    may be sharded; egress nodes and sharders send packets between them.

    The development translates the Rust sources of this core to executable
    definitions and proves that its parts keep what they promise to each other.

    ** The files, and what they model

    - This file: total orders and the tactic [ord_lia] that decides them, stable
      sorting, lemmas on lists.  [Result] and [Effects]:
      [ReadySetResult] with panics as a third outcome, and methods that mutate their
      receiver and may stop at an error.  [BTreeMap], [Hashing] and [Crates]: the
      containers of the standard library, and the third-party ones as classes with
      their documented laws and an instance each.
    - Ranges of keys: [Intervals] ([readyset-util/src/intervals.rs]), [IntervalTree]
      and [IntervalTreeProps] ([merging-interval-tree]), [PartialMap]
      ([partial-map]).
    - Data that flows: [Records] ([readyset-common/src/records.rs]), [Keys]
      ([KeyComparison] of [readyset-client/src/view.rs]), [Batches], [Processing]
      ([readyset-dataflow/src/processing.rs]), [Payload]
      ([readyset-dataflow/src/payload.rs]), [Timestamp]
      ([readyset-client/src/consistency.rs]).
    - Operators ([readyset-dataflow/src/ops/]): [OpLinear] (identity, filter,
      project), [OpUnion] and [OpUnionReplay], [OpJoin] and [OpJoinProps],
      [OpGrouped], [OpGroupedProps], [OpAggregate] and [OpAggregateProps] (COUNT,
      SUM, AVG, MIN, MAX, GROUP_CONCAT), [OpTopK] and [OpTopKProps],
      [OpPaginate] and [OpPaginateProps], [OpLatest], and [Operators], the enum that
      dispatches to them ([ops/mod.rs]).
    - State of a node ([dataflow-state/src/]): [KeyedState], [SingleState],
      [MemoryState] with their [...Props], [MemoryLookup] and [StateTheorems].
    - Base nodes ([readyset-dataflow/src/node/special/base.rs]): [Base],
      [BaseProps], [BaseTheorems].
    - Readers ([reader-map], [readyset-dataflow/src/backlog/],
      [node/special/reader.rs]): [InsertionOrder], [Eviction],
      [ReaderMap], [ReaderMapProps], [ReaderMapContents], [Backlog], [Reader],
      [ReaderProps], [ReaderLookup], [ReaderTheorems].
    - Packets between domains ([node/special/packet_filter.rs], [sharder.rs],
      [egress.rs]): [PacketFilter], [Sharder] and [SharderProps], [Egress].
    - Domains ([readyset-dataflow/src/domain/]): [ReplayPaths], [Domain], [WaitingProps], [DomainProps],
      the handling of packets in [DomainFlow] and [DomainReplay], and
      the nodes ([readyset-dataflow/src/node/]) in [NodeProcess] and
      [NodeProcessProps].  [DomainFlowProps] states what a node promises to a domain,
      [NodeLaws] proves it of the operators and the readers, [FlowTheorems] composes them.
    - The read path: [Results] and [ResultsProps]
      ([readyset-client/src/view/results.rs] and the operations after a lookup of
      [dataflow-expression/src/post_lookup.rs]), [ReadQuery] and [ReadQueryProps]
      ([readyset-server/src/worker/readers.rs] and [SingleReadHandle] of
      [readyset-dataflow/src/backlog/mod.rs]).
    - Replication ([readyset-client/src/replication.rs], [replicators]):
      [Replication], [ReplicationProps].
    - Smaller crates: [Array2] ([array2]), [Tournament] and [TournamentProps]
      ([tournament-kway]), [MySqlTime] ([mysql-time]).
    - Values and expressions: [Values] and [ValuesProps] ([readyset-data]: [DfValue],
      collations, timestamps), [Expressions] ([dataflow-expression]: evaluation, LIKE,
      builtin functions on strings).

    ** How the model corresponds to the code

    A struct is a record with the same fields, an enum an inductive type with the
    same constructors; definitions keep the names of the functions, with a prefix
    where two types have a method of the same name ([ms_insert] is
    [MemoryState::insert], [ss_insert_row] is [SingleState::insert_row]).  A method
    that mutates its receiver returns the new receiver; where it may fail halfway
    and the change made so far matters, it is an [eff].  A panic ([unwrap], an index
    out of bounds, [unreachable!], an underflow of an unsigned integer in a build
    with overflow checks) is [Panic], an error [Err].  Integers are [Z] or [nat]
    with the wrap-around or the bound written out where the width matters.

    A [HashMap] that is iterated is an association list in the order of iteration,
    which is arbitrary; one that is only looked up is a [gmap].  The [BTreeMap] of the
    replays that a union buffers, whose comparison is no order
    ([buffered_replay_key_order]), is an association list by equality of keys; the
    theorem on partial replays is about one buffered replay, where the two agree.  References and
    [Rc]s are the values they point to.  For the dataflow SQL values are a type with
    the class [DfVal] (a total order, equality and NULL); their arithmetic is the
    class [DfArith].  [ValuesProps] shows which values of [DfValue] have such an order
    ([values_ordered], and the instance [cval_val]), and which do not.  Expressions,
    lookups into a parent's state, hashes, random numbers, memory sizes and clocks are
    arguments of the definitions that use them.  [Expressions] takes the conversions
    between types, the operators on JSON and the functions on dates as arguments, and
    the crate [regex] as a class with its documented behaviour and an instance.

    ** What the theorems show

    - Incremental maintenance: the output batch of an operator takes its view of
      the old input to its view of the new one ([grouped_maintains] for every
      operation with [GroupedLaws], [join_left_maintains], [join_right_maintains],
      [topk_group_maintains], [bag_union_maintains], [filter_maintains],
      [project_maintains],
      [paginate_maintains], [latest_maintains]).
    - Base nodes: a batch of table operations has the effect of the operations one
      at a time if none of them fails ([base_batch_maintains]), and so has the state it is written to
      ([base_write_reaches_state]).
    - State: an index holds exactly the rows of its filled keys; writes, replays,
      lookups and evictions keep it so ([memory_process_records],
      [memory_lookup_correct], [memory_range_lookup_correct], [memory_replay_fills], [memory_evict_keys]).
    - Readers: in every reachable state a lookup returns the rows of the view or
      the holes among the keys ([reader_serves_view]), and after their replay the
      same lookup hits ([reader_upquery_completes]); publication is atomic
      ([reader_map_publish]).
    - Partial replays: a missing key is asked for once and every replay that missed
      is redone exactly once ([replay_misses_asked_once],
      [redo_asked_again_once]); unions and domains release exactly what was waited
      for ([union_partial_replay], [prune_points_exact]); a full replay ends, and
      the nodes below then hold the views of all that was buffered
      ([full_replay_completes]).
    - Domains: an update that enters a domain goes through all nodes below, and
      afterwards every state and every reader holds the view of the new rows, when
      every operator maintains its own view without missing, the states are full and
      the nodes form a tree ([dispatch_maintains]).  An eviction is spread over the
      largest nodes ([eviction_spread]).
    - The read path: in every reachable state of a reader a query is answered with
      the rows of the view that it asks for, in the order and within the limits asked
      for, or a replay of exactly the missing keys is asked for
      ([query_answers_view]), after which the query that waits is answered
      ([blocked_query_completes]); aggregates are over the rows of all keys
      ([results_answer], [results_aggregate]).
    - Between domains: no update of a key that the destination holds is dropped, if
      keys are points or ranges of one column and each index evicts its own
      ([egress_keeps_held], [filter_keeps_held]), every record reaches its shard
      ([sharder_splits], [sharder_evicts]).
    - Values and expressions: equality, order and hashing fit together on typed
      columns ([values_ordered]), and the operators of SQL agree with them
      ([comparisons_typed], [greatest_is_max]); a LIKE pattern compiles and matches
      what is documented ([like_matches_spec]); the value of an expression depends
      on the columns that it reads ([eval_columns]).
    - Data structures: the interval tree, the partial map and the reader map
      implement sets and partial functions; the tournament is a merge and ends;
      offsets and times round-trip through their encodings.
    - Where the code does not do what its comments say, a theorem shows an input
      ([remapped_batch_eviction_lost], [order_after_limit],
      [union_replay_untranslated], [unique_misses_by_record], [full_reader_drops_hits],
      [paginate_cancelled_row], [latest_same_key],
      [prune_range_keeps_rows], [left_join_interleaved_keys],
      [avg_replay_counts_twice], [sync_with_loses_timestamp],
      [pass_through_unequal], [or_null_asymmetric], [like_newline_unmatched] and
      others).

    ** Fuel

    Loops are structural recursions over the collection they consume where that is
    what the code does.  Fuel appears where it is not, and every time the theorems
    show that it is enough: the iteration of the interval tree's difference, whose
    fuel is the number of endpoints; binary search with [S (length l)] steps, more
    than the halvings; the rounds of the tournament ([build_rest], [replay], bounded
    by the number of games) and its draining, bounded by the number of elements;
    the digits of a decimal number; the chunks of an array's cells;
      an update goes down at most as many levels as the graph has below its node, which
      is the fuel of [dispatch]; the iterators of a response take the number of rows
      and eight more.  Fuel of the replays and evictions of a domain bounds the length
      of chains of lookups through nodes without state, of evictions that cause
      evictions and of rounds of packets that a domain sends to itself, which the
      code does not bound either.  Running out of
    fuel is a panic in the model, which the theorems on these functions exclude.

    ** Not modelled

    Persistent state is a layer over RocksDB.  The conversions between SQL types, the
    parsing, printing and serialization of values, the operators on JSON, the functions
    on dates, the lowering of expressions, the parser, rewrites and query planning, the controller and its migrations, the protocol
    servers, the connectors to the upstream databases and everything that is
    asynchronous I/O, metrics or logging are outside this development; the data
    they pass to the core appears as arguments.  Of a domain, the RPC requests that
    set up its nodes, the thread that replays a whole state in chunks and the
    metrics are not modelled.  Memory accounting is modelled for readers,
    not for in-memory state.  Assertions of debug builds are not
    modelled, except that the sets of rows of a response are sorted. *)

From stdpp Require Export base decidable option list gmap sorting.
From Stdlib Require Export ZArith Lia.

(** ** Total orders

    [Ord] is Rust's [Ord] trait as the sources rely on it: [cmp] is a total
    order whose equality is [==]. *)
Class Ord (K : Type) := {
  cmp : K → K → comparison;
  cmp_eq_iff (x y : K) : cmp x y = Eq ↔ x = y;
  cmp_antisym (x y : K) : cmp y x = CompOpp (cmp x y);
  cmp_lt_trans (x y z : K) : cmp x y = Lt → cmp y z = Lt → cmp x z = Lt;
}.

#[global] Arguments cmp : simpl never.

Declare Scope ord_scope.
Delimit Scope ord_scope with ord.
Notation "x ≺ y" := (cmp x y = Lt) (at level 70) : ord_scope.
Notation "x ≼ y" := (cmp x y ≠ Gt) (at level 70) : ord_scope.
Open Scope ord_scope.

(** [Ordering::is_lt], [is_le], [is_gt], [is_ge] and [then]. *)
Definition is_lt (c : comparison) : bool := match c with Lt => true | _ => false end.
Definition is_le (c : comparison) : bool := match c with Gt => false | _ => true end.
Definition is_gt (c : comparison) : bool := match c with Gt => true | _ => false end.
Definition is_ge (c : comparison) : bool := match c with Lt => false | _ => true end.
Definition is_eq (c : comparison) : bool := match c with Eq => true | _ => false end.
Definition then_cmp (c d : comparison) : comparison := match c with Eq => d | _ => c end.

Section ord.
Context `{Ord K}.
Implicit Types x y z : K.

Lemma cmp_refl x : cmp x x = Eq.
Proof. by apply cmp_eq_iff. Qed.

Lemma cmp_gt_iff x y : cmp x y = Gt ↔ cmp y x = Lt.
Proof. rewrite (cmp_antisym y x). destruct (cmp y x); simpl; split; congruence. Qed.

#[export] Instance ord_eq_dec : EqDecision K | 100.
Proof.
  intros x y. destruct (cmp x y) eqn:E.
  - left. by apply cmp_eq_iff.
  - right. intros ->. rewrite cmp_refl in E. congruence.
  - right. intros ->. rewrite cmp_refl in E. congruence.
Defined.

(** The rank of [x] among [l]: any finite set of elements of a total order
    embeds into the integers, which is what lets [lia] decide goals about
    [cmp] (tactic [ord_lia]). *)
Definition rank (l : list K) (x : K) : Z :=
  Z.of_nat (length (filter (λ y, cmp y x = Lt) l)).

Lemma rank_mono_le l x y : cmp x y = Lt → (rank l x <= rank l y)%Z.
Proof.
  intros Hxy. unfold rank. induction l as [|z l IH]; [done|].
  rewrite !filter_cons. repeat case_decide; simpl; try lia.
  exfalso. eauto using cmp_lt_trans.
Qed.

Lemma rank_mono l x y : x ∈ l → cmp x y = Lt → (rank l x < rank l y)%Z.
Proof.
  intros Hin Hxy. induction l as [|z l IH]; [by apply not_elem_of_nil in Hin|].
  pose proof (rank_mono_le l x y Hxy) as Hle. unfold rank in *.
  rewrite !filter_cons. apply elem_of_cons in Hin as [->|Hin].
  - rewrite decide_False by (by rewrite cmp_refl). rewrite decide_True by done.
    simpl. lia.
  - specialize (IH Hin). repeat case_decide; simpl; try lia.
    exfalso. eauto using cmp_lt_trans.
Qed.

Lemma rank_spec (l : list K) :
  ∃ r : K → Z, ∀ x y, x ∈ l → y ∈ l → cmp x y = (r x ?= r y)%Z.
Proof.
  exists (rank l). intros x y Hx Hy. destruct (cmp x y) eqn:E.
  - apply cmp_eq_iff in E as ->. by rewrite Z.compare_refl.
  - symmetry. apply Z.compare_lt_iff. eauto using rank_mono.
  - symmetry. apply Z.compare_gt_iff. apply rank_mono; [done|].
    by apply cmp_gt_iff.
Qed.
End ord.

(** [ord_lia] decides goals built from comparisons of a total order: it embeds
    the compared elements into [Z] by their rank and calls [lia]. *)
Ltac ord_atoms K acc :=
  match goal with
  | H : context [@cmp K ?O ?x ?y] |- _ =>
      lazymatch acc with
      | context [cons x _] => fail
      | _ => ord_atoms K constr:(cons x acc)
      end
  | H : context [@cmp K ?O ?x ?y] |- _ =>
      lazymatch acc with
      | context [cons y _] => fail
      | _ => ord_atoms K constr:(cons y acc)
      end
  | |- context [@cmp K ?O ?x ?y] =>
      lazymatch acc with
      | context [cons x _] => fail
      | _ => ord_atoms K constr:(cons x acc)
      end
  | |- context [@cmp K ?O ?x ?y] =>
      lazymatch acc with
      | context [cons y _] => fail
      | _ => ord_atoms K constr:(cons y acc)
      end
  | _ => acc
  end.

Lemma elem_of_here {A} (x : A) l : x ∈ x :: l.
Proof. apply elem_of_cons; by left. Qed.
Lemma elem_of_further {A} (x y : A) l : x ∈ l → x ∈ y :: l.
Proof. intros. apply elem_of_cons; by right. Qed.

Ltac ord_mem := repeat first [apply elem_of_here | apply elem_of_further].

Ltac ord_embed K :=
  let l := ord_atoms K (@nil K) in
  let r := fresh "r" in
  let Hr := fresh "Hr" in
  destruct (rank_spec l) as [r Hr];
  repeat match goal with
  | H : context [@cmp K _ ?x ?y] |- _ =>
      rewrite (Hr x y) in H by ord_mem
  | |- context [@cmp K _ ?x ?y] => rewrite (Hr x y) by ord_mem
  end;
  clear Hr.

Ltac ord_prepare :=
  repeat match goal with
  | H : ¬ (@eq ?K ?x ?y) |- _ =>
      let O := constr:(_ : Ord K) in
      rewrite <-(@cmp_eq_iff K O) in H
  | |- @eq ?K ?x ?y =>
      let O := constr:(_ : Ord K) in
      apply (@cmp_eq_iff K O)
  | |- ¬ (@eq ?K ?x ?y) =>
      let O := constr:(_ : Ord K) in
      rewrite <-(@cmp_eq_iff K O)
  end.

Ltac ord_lia :=
  intros; subst; ord_prepare;
  repeat match goal with
  | H : context [@cmp ?K _ ?x ?y] |- _ => ord_embed K
  | |- context [@cmp ?K _ ?x ?y] => ord_embed K
  end;
  unfold is_lt, is_le, is_gt, is_ge, is_eq, then_cmp in *;
  repeat match goal with
  | H : context [match (?a ?= ?b)%Z with _ => _ end] |- _ =>
      destruct (Z.compare_spec a b)
  | |- context [match (?a ?= ?b)%Z with _ => _ end] =>
      destruct (Z.compare_spec a b)
  end;
  rewrite ?Z.compare_lt_iff, ?Z.compare_gt_iff, ?Z.compare_eq_iff in *;
  first [congruence | lia].

(** *** Instances: integers, lexicographic vectors *)
#[export] Instance Z_ord : Ord Z.
Proof.
  refine {| cmp := Z.compare |}.
  - apply Z.compare_eq_iff.
  - intros x y. apply Z.compare_antisym.
  - intros x y z. rewrite !Z.compare_lt_iff. lia.
Defined.

#[export] Instance nat_ord : Ord nat.
Proof.
  refine {| cmp := Nat.compare |}.
  - apply Nat.compare_eq_iff.
  - intros x y. apply Nat.compare_antisym.
  - intros x y z. rewrite !Nat.compare_lt_iff. lia.
Defined.

(** [Ord for Vec<T>]: lexicographic, a strict prefix being smaller. *)
Fixpoint lex_cmp {K} `{Ord K} (xs ys : list K) : comparison :=
  match xs, ys with
  | [], [] => Eq
  | [], _ :: _ => Lt
  | _ :: _, [] => Gt
  | x :: xs', y :: ys' => then_cmp (cmp x y) (lex_cmp xs' ys')
  end.

Lemma lex_cmp_lt_trans {K} `{Ord K} (xs ys zs : list K) :
  lex_cmp xs ys = Lt → lex_cmp ys zs = Lt → lex_cmp xs zs = Lt.
Proof.
  revert ys zs; induction xs as [|x xs IH]; intros [|y ys] [|z zs]; simpl; try done.
  destruct (cmp x y) eqn:E1; destruct (cmp y z) eqn:E2; simpl; try done.
  - intros ??. assert (cmp x z = Eq) as -> by ord_lia. simpl; eauto.
  - intros ??. assert (cmp x z = Lt) as -> by ord_lia. done.
  - intros ??. assert (cmp x z = Lt) as -> by ord_lia. done.
  - intros ??. assert (cmp x z = Lt) as -> by ord_lia. done.
Qed.

#[export] Instance list_ord {K} `{Ord K} : Ord (list K).
Proof.
  refine {| cmp := lex_cmp |}.
  - intros xs; induction xs as [|x xs IH]; intros [|y ys]; simpl; try done.
    destruct (cmp x y) eqn:E; simpl.
    + rewrite IH. apply cmp_eq_iff in E as ->. split; congruence.
    + split; [done|]. intros [= -> ->]. by rewrite cmp_refl in E.
    + split; [done|]. intros [= -> ->]. by rewrite cmp_refl in E.
  - intros xs; induction xs as [|x xs IH]; intros [|y ys]; simpl; try done.
    rewrite (cmp_antisym x y), IH. by destruct (cmp x y).
  - exact lex_cmp_lt_trans.
Defined.

(** ** Sorting

    Rust's [slice::sort_by] is a stable sort; with a total preorder its result
    is the one the stable insertion sort below computes. *)
Fixpoint insert_by {A} (c : A → A → comparison) (x : A) (l : list A) : list A :=
  match l with
  | [] => [x]
  | y :: l' => if is_le (c x y) then x :: l else y :: insert_by c x l'
  end.
Definition sort_by {A} (c : A → A → comparison) : list A → list A :=
  foldr (insert_by c) [].

Section sort.
Context {A : Type} (c : A → A → comparison).

Lemma insert_by_perm x l : insert_by c x l ≡ₚ x :: l.
Proof.
  induction l as [|y l IH]; simpl; [done|]. destruct (is_le _); [done|].
  rewrite IH. apply Permutation_swap.
Qed.

Lemma sort_by_perm l : sort_by c l ≡ₚ l.
Proof.
  induction l as [|x l IH]; simpl; [done|]. by rewrite insert_by_perm, IH.
Qed.

Context (c_total : ∀ x y, c x y = Gt → c y x ≠ Gt).
Context (c_trans : ∀ x y z, c x y ≠ Gt → c y z ≠ Gt → c x z ≠ Gt).

Lemma insert_by_sorted x l :
  StronglySorted (λ a b, c a b ≠ Gt) l → StronglySorted (λ a b, c a b ≠ Gt) (insert_by c x l).
Proof using c_total c_trans.
  induction 1 as [|y l Hs IH Hy]; simpl; [by repeat constructor|].
  destruct (c x y) eqn:E; simpl.
  1,2: constructor; [by constructor|]; constructor; [congruence|];
    eapply Forall_impl; [exact Hy|]; simpl; intros z Hz;
    eapply c_trans; [|exact Hz]; congruence.
  constructor; [done|]. rewrite insert_by_perm. constructor; [|done]. by apply c_total.
Qed.

Lemma sort_by_sorted l : StronglySorted (λ a b, c a b ≠ Gt) (sort_by c l).
Proof using c_total c_trans.
  induction l; simpl; [constructor|]. by apply insert_by_sorted.
Qed.

(** Stability: a class of elements that compare as equal keeps its order. *)
Lemma insert_by_stable (P : A → Prop) `{∀ x, Decision (P x)} x l :
  (∀ y, P x → P y → c x y ≠ Gt) →
  filter P (insert_by c x l) = filter P (x :: l).
Proof.
  intros Hc. induction l as [|y l IH]; simpl; [done|]. destruct (c x y) eqn:E; simpl; [done|done|].
  rewrite filter_cons, IH, !filter_cons. repeat case_decide; try done.
  exfalso. by apply (Hc y).
Qed.
Lemma sort_by_stable (P : A → Prop) `{∀ x, Decision (P x)} l :
  (∀ x y, P x → P y → c x y ≠ Gt) → filter P (sort_by c l) = filter P l.
Proof.
  intros Hc. induction l as [|x l IH]; simpl; [done|].
  rewrite insert_by_stable by (intros; by apply Hc). rewrite !filter_cons. by rewrite IH.
Qed.
End sort.

(** Sorting only depends on the order of the elements of the list. *)
Lemma sort_by_ext {A} (P : A → Prop) (c c' : A → A → comparison) l :
  (∀ x y, P x → P y → c x y = c' x y) → Forall P l → sort_by c l = sort_by c' l.
Proof.
  intros Hc. induction 1 as [|x l Hx Hl IH]; simpl; [done|]. rewrite IH.
  assert (Forall P (sort_by c' l)) as Hs by (by rewrite sort_by_perm).
  clear IH.
  induction Hs as [|y l' Hy Hl' IHl]; simpl; [done|]. by rewrite Hc, IHl.
Qed.

(** Closes goals over booleans once every boolean has been destructed: feeds
    the trivial premises of implications and looks for a contradiction. *)
Ltac bool_done :=
  simpl; repeat match goal with
  | H : ?a = ?a → _ |- _ => specialize (H eq_refl)
  end; done.

(** ** Lists *)
Lemma filter_all {A} (P : A → Prop) `{∀ x, Decision (P x)} l : Forall P l → filter P l = l.
Proof. induction 1; [done|]. rewrite filter_cons_True by done. by f_equal. Qed.

Lemma filter_none {A} (P : A → Prop) `{∀ x, Decision (P x)} l :
  Forall (λ x, ¬ P x) l → filter P l = [].
Proof. induction 1; [done|]. by rewrite filter_cons_False. Qed.

Lemma Forall_filter_keep {A} (P Q : A → Prop) `{∀ x, Decision (P x)} (l : list A) :
  Forall Q l → Forall Q (filter P l).
Proof. rewrite !Forall_forall. intros HQ x [_ Hx]%list_elem_of_filter. by apply HQ. Qed.

Lemma filter_ext_elem {A} (P Q : A → Prop) `{∀ x, Decision (P x)} `{∀ x, Decision (Q x)} (l : list A) :
  (∀ x, x ∈ l → (P x ↔ Q x)) → filter P l = filter Q l.
Proof.
  induction l as [|x l IH]; intros Hpq; [done|]. rewrite !filter_cons.
  rewrite IH by (intros; apply Hpq; by apply elem_of_further).
  specialize (Hpq x (elem_of_here x l)). repeat case_decide; tauto.
Qed.
