(* ===== verification/Intervals.v ===== *)
(** * Intervals: bounds and ranges

    Models [readyset-util/src/intervals.rs]: Rust's [Bound] and [RangeBounds]
    pairs, and the free functions that compare, cover, intersect and subtract
    ranges.  The meaning of a range is the set of points it contains
    ([in_range], which is [RangeBounds::contains]); the theorems relate every
    function to that set. *)
From S2P Require Import Prelude.

(** [std::ops::Bound]. *)
Inductive Bound (K : Type) :=
  | Included (x : K)
  | Excluded (x : K)
  | Unbounded.
Arguments Included {K}.
Arguments Excluded {K}.
Arguments Unbounded {K}.

(** [BoundPair<T>]; every [RangeBounds] value is used through its two bounds. *)
Definition BoundPair (K : Type) : Type := Bound K * Bound K.

#[export] Instance Bound_eq_dec `{EqDecision K} : EqDecision (Bound K).
Proof. solve_decision. Defined.

Definition Bound_map {A B} (f : A → B) (b : Bound A) : Bound B :=
  match b with
  | Included x => Included (f x)
  | Excluded x => Excluded (f x)
  | Unbounded => Unbounded
  end.

Definition into_bound_endpoint {A} (bound : Bound A) : option A :=
  match bound with
  | Unbounded => None
  | Included x => Some x
  | Excluded x => Some x
  end.

Section intervals.
Context `{Ord K}.
Implicit Types (x y p : K) (b : Bound K) (r : BoundPair K).

(** [RangeBounds::contains], one bound at a time. *)
Definition above_start b p : bool :=
  match b with
  | Included x => is_le (cmp x p)
  | Excluded x => is_lt (cmp x p)
  | Unbounded => true
  end.
Definition below_end b p : bool :=
  match b with
  | Included y => is_le (cmp p y)
  | Excluded y => is_lt (cmp p y)
  | Unbounded => true
  end.
Definition in_range r p : bool := above_start r.1 p && below_end r.2 p.

Definition is_empty r : bool :=
  match r with
  | (Included x, Excluded y) | (Excluded x, Included y) => is_eq (cmp x y)
  | _ => false
  end.

Definition bound_eq_excl_incl b1 b2 : bool :=
  match b1, b2 with
  | Excluded x, Included y => is_eq (cmp x y)
  | _, _ => false
  end.

(** The two [match]es of [covers], each [false] where the code returns early. *)
Definition covers_start (outer inner : Bound K) : bool :=
  match outer, inner with
  | Excluded x, Included y => negb (is_ge (cmp x y))
  | Excluded x, Excluded y | Included x, (Excluded y | Included y) =>
      negb (is_gt (cmp x y))
  | (Excluded _ | Included _), Unbounded => false
  | Unbounded, _ => true
  end.
Definition covers_end (outer inner : Bound K) : bool :=
  match outer, inner with
  | Excluded x, Included y => negb (is_le (cmp x y))
  | Excluded x, Excluded y | Included x, (Excluded y | Included y) =>
      negb (is_lt (cmp x y))
  | (Excluded _ | Included _), Unbounded => false
  | Unbounded, _ => true
  end.

Definition covers (outer inner : BoundPair K) : bool :=
  if is_empty inner &&
     (bound_eq_excl_incl outer.2 inner.1 || bound_eq_excl_incl inner.2 outer.1)
  then false
  else covers_start outer.1 inner.1 && covers_end outer.2 inner.2.

(** The two [match]es of [overlaps]. *)
Definition start_before_end (s e : Bound K) : bool :=
  match s, e with
  | Included x, Excluded y => negb (is_ge (cmp x y))
  | Excluded x, Included y => negb (is_ge (cmp x y))
  | Excluded x, Excluded y | Included x, Included y => negb (is_gt (cmp x y))
  | _, _ => true
  end.
Definition end_after_start (e s : Bound K) : bool :=
  match e, s with
  | Included x, Excluded y => negb (is_le (cmp x y))
  | Excluded x, Included y => negb (is_le (cmp x y))
  | Excluded x, Excluded y | Included x, Included y => negb (is_lt (cmp x y))
  | _, _ => true
  end.

Definition overlaps r1 r2 : bool :=
  start_before_end r1.1 r2.2 && end_after_start r1.2 r2.1.

(** The encodings [Some((x, 1))], [Some((x, 2))], [None] the comparison
    functions use, and the order of the encoded pairs. *)
Definition enc_start b : option (K * nat) :=
  match b with
  | Included x => Some (x, 1) | Excluded x => Some (x, 2) | Unbounded => None
  end.
Definition enc_end b : option (K * nat) :=
  match b with
  | Included x => Some (x, 2) | Excluded x => Some (x, 1) | Unbounded => None
  end.
Definition cmp_enc (a b : K * nat) : comparison :=
  then_cmp (cmp a.1 b.1) (Nat.compare a.2 b.2).

Definition cmp_startbound b1 b2 : comparison :=
  match enc_start b1, enc_start b2 with
  | None, None => Eq
  | None, Some _ => Lt
  | Some _, None => Gt
  | Some r1, Some r2 => cmp_enc r1 r2
  end.

Definition cmp_endbound b1 b2 : comparison :=
  match enc_end b1, enc_end b2 with
  | None, None => Eq
  | None, Some _ => Gt
  | Some _, None => Lt
  | Some r1, Some r2 => cmp_enc r1 r2
  end.

Definition cmp_start_end b1 b2 : comparison :=
  match enc_start b1, enc_start b2 with
  | Some r1, Some r2 => cmp_enc r1 r2
  | _, _ => Lt
  end.

Definition cmp_end_start b1 b2 : comparison :=
  match enc_end b1, enc_end b2 with
  | Some r1, Some r2 => cmp_enc r1 r2
  | _, _ => Gt
  end.

(** The bound on the other side of a start or end bound. *)
Definition flip_bound b : Bound K :=
  match b with
  | Included x => Excluded x
  | Excluded x => Included x
  | Unbounded => Unbounded
  end.

(** [DifferenceIterator], collected: [Empty], [Unchanged]/[Single], [Double]. *)
Definition difference r1 r2 : list (BoundPair K) :=
  if negb (overlaps r1 r2) then [r1]
  else
    let below :=
      if is_le (cmp_startbound r2.1 r1.1) then None
      else Some (r1.1, flip_bound r2.1) in
    let above :=
      if is_ge (cmp_endbound r2.2 r1.2) then None
      else Some (flip_bound r2.2, r1.2) in
    match below, above with
    | Some b, Some a => [b; a]
    | Some r, None | None, Some r => [r]
    | None, None => []
    end.

(** [std::cmp::max_by] returns its second argument on ties, [min_by] its first. *)
Definition max_by {A} (a b : A) (c : A → A → comparison) : A :=
  if is_le (c a b) then b else a.
Definition min_by {A} (a b : A) (c : A → A → comparison) : A :=
  if is_le (c a b) then a else b.

Definition intersection r1 r2 : option (BoundPair K) :=
  if is_lt (cmp_end_start r1.2 r2.1) || is_lt (cmp_end_start r2.2 r1.1) then None
  else
    let lower := max_by r1.1 r2.1 cmp_startbound in
    let upper := min_by r1.2 r2.2 cmp_endbound in
    if is_gt (cmp_start_end lower upper) then None else Some (lower, upper).

(** Two ranges touch openly when one ends, exclusively, where the other
    starts, exclusively. *)
Definition touches_open b_end b_start : bool :=
  match b_end, b_start with
  | Excluded x, Excluded y => is_eq (cmp x y)
  | _, _ => false
  end.
End intervals.

(** Case analysis on every bound in sight. *)
Ltac destruct_bounds :=
  repeat match goal with
  | r : BoundPair _ |- _ => destruct r
  | b : Bound _ |- _ => destruct b
  end.

Create HintDb intervals.

Section interval_lemmas.
Context `{Ord K}.
Implicit Types (x y p : K) (b : Bound K) (r : BoundPair K).

Lemma covers_start_sound b1 b2 p :
  covers_start b1 b2 = true → above_start b2 p = true → above_start b1 p = true.
Proof. destruct b1, b2; simpl; try done; ord_lia. Qed.

Lemma covers_end_sound b1 b2 p :
  covers_end b1 b2 = true → below_end b2 p = true → below_end b1 p = true.
Proof. destruct b1, b2; simpl; try done; ord_lia. Qed.

Lemma covers_start_trans b1 b2 b3 :
  covers_start b1 b2 = true → covers_start b2 b3 = true → covers_start b1 b3 = true.
Proof. destruct b1, b2, b3; simpl; try done; ord_lia. Qed.

Lemma covers_end_trans b1 b2 b3 :
  covers_end b1 b2 = true → covers_end b2 b3 = true → covers_end b1 b3 = true.
Proof. destruct b1, b2, b3; simpl; try done; ord_lia. Qed.

Lemma end_after_start_sym b1 b2 : end_after_start b1 b2 = start_before_end b2 b1.
Proof. destruct b1, b2; simpl; try done; rewrite (cmp_antisym x0 x); by destruct (cmp x0 x). Qed.

Lemma start_before_end_complete b1 b2 p :
  above_start b1 p = true → below_end b2 p = true → start_before_end b1 b2 = true.
Proof. destruct b1, b2; simpl; try done; ord_lia. Qed.

(** A start bound is at most another exactly when it admits at least as much. *)
Lemma cmp_startbound_le b1 b2 p :
  is_le (cmp_startbound b1 b2) = true → above_start b2 p = true → above_start b1 p = true.
Proof. destruct b1, b2; unfold cmp_startbound; simpl; try done; unfold cmp_enc; simpl; ord_lia. Qed.
Lemma cmp_startbound_gt b1 b2 p :
  is_le (cmp_startbound b1 b2) = false → above_start b1 p = true → above_start b2 p = true.
Proof. destruct b1, b2; unfold cmp_startbound; simpl; try done; unfold cmp_enc; simpl; ord_lia. Qed.
Lemma cmp_endbound_le b1 b2 p :
  is_le (cmp_endbound b1 b2) = true → below_end b1 p = true → below_end b2 p = true.
Proof. destruct b1, b2; unfold cmp_endbound; simpl; try done; unfold cmp_enc; simpl; ord_lia. Qed.
Lemma cmp_endbound_ge b1 b2 p :
  is_ge (cmp_endbound b1 b2) = true → below_end b2 p = true → below_end b1 p = true.
Proof. destruct b1, b2; unfold cmp_endbound; simpl; try done; unfold cmp_enc; simpl; ord_lia. Qed.
Lemma is_ge_le_false (c : comparison) : is_ge c = false → is_le c = true.
Proof. by destruct c. Qed.
Lemma is_le_ge_false (c : comparison) : is_le c = false → is_ge c = true.
Proof. by destruct c. Qed.

Lemma below_flip b p : b ≠ Unbounded → below_end (flip_bound b) p = negb (above_start b p).
Proof.
  destruct b; simpl; try done; intros _; rewrite (cmp_antisym p x); by destruct (cmp p x).
Qed.
Lemma above_flip b p : b ≠ Unbounded → above_start (flip_bound b) p = negb (below_end b p).
Proof.
  destruct b; simpl; try done; intros _; rewrite (cmp_antisym p x); by destruct (cmp p x).
Qed.

(** Where a start bound is not beyond an end bound and the two do not touch
    openly, everything before the start is before the end. *)
Lemma below_start_below_end s e p :
  start_before_end s e = true → touches_open e s = false →
  above_start s p = false → below_end e p = true.
Proof. destruct s, e; simpl; try done; ord_lia. Qed.
Lemma above_end_above_start s e p :
  start_before_end s e = true → touches_open e s = false →
  below_end e p = false → above_start s p = true.
Proof. destruct s, e; simpl; try done; ord_lia. Qed.

Lemma no_start_before_end s e p :
  start_before_end s e = false → above_start s p && below_end e p = false.
Proof. destruct s, e; simpl; try done; ord_lia. Qed.

Lemma end_start_lt_disjoint s e p :
  is_lt (cmp_end_start e s) = true → above_start s p && below_end e p = false.
Proof. destruct s, e; unfold cmp_end_start; simpl; try done; unfold cmp_enc; simpl; ord_lia. Qed.
Lemma start_end_gt_disjoint s e p :
  is_gt (cmp_start_end s e) = true → above_start s p && below_end e p = false.
Proof. destruct s, e; unfold cmp_start_end; simpl; try done; unfold cmp_enc; simpl; ord_lia. Qed.

Lemma max_start_spec b1 b2 p :
  above_start (max_by b1 b2 cmp_startbound) p = above_start b1 p && above_start b2 p.
Proof.
  unfold max_by. destruct (is_le _) eqn:E.
  - pose proof (cmp_startbound_le _ _ p E). destruct (above_start b2 p); [|by rewrite andb_false_r].
    by rewrite H0.
  - pose proof (cmp_startbound_gt _ _ p E). destruct (above_start b1 p); [|done].
    by rewrite H0.
Qed.
Lemma min_end_spec b1 b2 p :
  below_end (min_by b1 b2 cmp_endbound) p = below_end b1 p && below_end b2 p.
Proof.
  unfold min_by. destruct (is_le _) eqn:E.
  - pose proof (cmp_endbound_le _ _ p E). destruct (below_end b1 p); [|done]. by rewrite H0.
  - apply is_le_ge_false in E. pose proof (cmp_endbound_ge _ _ p E).
    destruct (below_end b2 p); [by rewrite H0|by rewrite andb_false_r].
Qed.
End interval_lemmas.

Section interval_theorems.
Context `{Ord K}.
Implicit Types (x y p : K) (b : Bound K) (r : BoundPair K).

(** Ranges that do not overlap share no point. *)
Lemma overlaps_complete r1 r2 p :
  in_range r1 p = true → in_range r2 p = true → overlaps r1 r2 = true.
Proof.
  unfold in_range, overlaps. rewrite !andb_true_iff. intros [??] [??].
  rewrite end_after_start_sym. eauto using start_before_end_complete.
Qed.

Lemma overlaps_comm r1 r2 : overlaps r1 r2 = overlaps r2 r1.
Proof. unfold overlaps. rewrite !end_after_start_sym. apply andb_comm. Qed.

Lemma covers_in_range r1 r2 p :
  covers r1 r2 = true → in_range r2 p = true → in_range r1 p = true.
Proof.
  unfold covers, in_range. destruct (_ && (_ || _)); [done|].
  rewrite !andb_true_iff. intros [??] [??]. eauto using covers_start_sound, covers_end_sound.
Qed.

Lemma cmp_startbound_unbounded b : is_le (cmp_startbound Unbounded b) = true.
Proof. by destruct b. Qed.
Lemma cmp_endbound_unbounded b : is_ge (cmp_endbound Unbounded b) = true.
Proof. by destruct b. Qed.

(** The intervals [covers] accepts are really covered: if [covers outer inner]
    then every point of [inner] is a point of [outer], and [covers] composes. *)
Theorem covers_sound r1 r2 r3 :
  covers r1 r2 = true →
  (∀ p, in_range r2 p = true → in_range r1 p = true) ∧
  (covers r2 r3 = true → is_empty r3 = false → covers r1 r3 = true).
Proof.
  intros H12. split; [intros p; by apply covers_in_range|].
  unfold covers in *. intros H23 ->. simpl.
  destruct (_ && (_ || _)); [done|]. destruct (_ && (_ || _)); [done|].
  rewrite !andb_true_iff in *. destruct H12, H23.
  eauto using covers_start_trans, covers_end_trans.
Qed.

(** [intersection] is set intersection: a point lies in both ranges exactly
    when an intersection is returned and contains it. *)
Theorem intersection_spec r1 r2 p :
  match intersection r1 r2 with
  | Some i => in_range i p
  | None => false
  end = in_range r1 p && in_range r2 p.
Proof.
  unfold intersection, in_range.
  destruct (is_lt (cmp_end_start r1.2 r2.1)) eqn:E1; simpl.
  { apply (end_start_lt_disjoint _ _ p) in E1.
    destruct (above_start r2.1 p), (below_end r1.2 p); try done; by rewrite ?andb_false_r. }
  destruct (is_lt (cmp_end_start r2.2 r1.1)) eqn:E2; simpl.
  { apply (end_start_lt_disjoint _ _ p) in E2.
    destruct (above_start r1.1 p), (below_end r2.2 p); try done; by rewrite ?andb_false_r. }
  pose proof (max_start_spec r1.1 r2.1 p) as Hmax.
  pose proof (min_end_spec r1.2 r2.2 p) as Hmin.
  destruct (is_gt _) eqn:E3.
  - apply (start_end_gt_disjoint _ _ p) in E3. rewrite Hmax, Hmin in E3.
    by destruct (above_start r1.1 p), (above_start r2.1 p), (below_end r1.2 p).
  - simpl. rewrite Hmax, Hmin.
    by destruct (above_start r1.1 p), (above_start r2.1 p), (below_end r1.2 p).
Qed.

(** [difference] is set difference: unless the two ranges touch at an
    endpoint both exclude, a point lies in one of the returned intervals exactly
    when it lies in the first range and not in the second. *)
Theorem difference_spec r1 r2 p :
  touches_open r1.2 r2.1 = false → touches_open r2.2 r1.1 = false →
  existsb (λ r, in_range r p) (difference r1 r2) = in_range r1 p && negb (in_range r2 p).
Proof.
  intros T1 T2. unfold difference. destruct (overlaps r1 r2) eqn:Ho; simpl.
  - unfold overlaps in Ho. rewrite end_after_start_sym, andb_true_iff in Ho. destruct Ho as [O1 O2].
    pose proof (below_start_below_end _ _ p O2 T1) as B1.
    pose proof (above_end_above_start _ _ p O1 T2) as B2.
    destruct (is_le (cmp_startbound _ _)) eqn:E1; destruct (is_ge (cmp_endbound _ _)) eqn:E2; simpl.
    1,2: pose proof (cmp_startbound_le _ _ p E1).
    3,4: assert (r2.1 ≠ Unbounded) by (intros Hu; by rewrite Hu, cmp_startbound_unbounded in E1);
      pose proof (cmp_startbound_gt _ _ p E1).
    1,3: pose proof (cmp_endbound_ge _ _ p E2).
    3,4: assert (r2.2 ≠ Unbounded) by (intros Hu; by rewrite Hu, cmp_endbound_unbounded in E2);
      apply is_ge_le_false in E2; pose proof (cmp_endbound_le _ _ p E2).
    all: unfold in_range; simpl; rewrite ?below_flip, ?above_flip by done.
    all: destruct (above_start r1.1 p), (above_start r2.1 p), (below_end r1.2 p),
      (below_end r2.2 p); bool_done.
  - rewrite orb_false_r. destruct (in_range r1 p) eqn:E1, (in_range r2 p) eqn:E2; try done.
    by rewrite (overlaps_complete _ _ _ E1 E2) in Ho.
Qed.

(** Where the two ranges do touch at an endpoint both exclude, [overlaps]
    reports an overlap although they share no point, and [difference] returns an
    interval containing the shared endpoint, which the first range excludes. *)
Theorem difference_touching_open x :
  let r1 := (Unbounded, Excluded x) in
  let r2 := (Excluded x, Unbounded) in
  overlaps r1 r2 = true ∧ (∀ p, in_range r1 p && in_range r2 p = false) ∧
  difference r1 r2 = [(Unbounded, Included x)] ∧
  in_range r1 x = false ∧ existsb (λ r, in_range r x) (difference r1 r2) = true.
Proof.
  simpl. unfold difference, overlaps, in_range. simpl. rewrite cmp_refl. simpl.
  rewrite cmp_refl. repeat split; try done.
  intros p. rewrite andb_true_r. destruct (cmp p x) eqn:E; simpl; try done. ord_lia.
Qed.
End interval_theorems.

Lemma covers_sound_witness :
  covers (Included 1%Z, Excluded 10%Z) (Included 2%Z, Excluded 8%Z) = true ∧
  in_range (Included 1%Z, Excluded 10%Z) 7%Z = true ∧
  covers (Included 1%Z, Excluded 10%Z) (Included 3%Z, Included 4%Z) = true.
Proof.
  destruct (covers_sound (Included 1%Z, Excluded 10%Z) (Included 2%Z, Excluded 8%Z)
    (Included 3%Z, Included 4%Z)) as [H1 H2]; [reflexivity|].
  split; [reflexivity|]. split; [apply H1; reflexivity | apply H2; reflexivity].
Defined.

Lemma difference_spec_witness :
  existsb (λ r, in_range r 5%Z)
    (difference (Included 1%Z, Excluded 10%Z) (Excluded 3%Z, Included 4%Z)) = true.
Proof.
  rewrite (difference_spec (Included 1%Z, Excluded 10%Z) (Excluded 3%Z, Included 4%Z) 5%Z);
    reflexivity.
Defined.
