(* ===== verification/BTreeMap.v ===== *)
(** * BTreeMap: the standard library's ordered map

    [std::collections::BTreeMap] as the sources use it: the list of its entries
    in increasing key order.  Lookup, insertion, removal, range queries and
    [drain_filter], with the usual map laws. *)
From S2P Require Import Prelude Intervals.

Section btreemap.
Context `{Ord K} {V : Type}.
Implicit Types (k : K) (v : V) (m : list (K * V)) (r : BoundPair K).

Definition BTreeMap : Type := list (K * V).

Fixpoint bm_get m k : option V :=
  match m with
  | [] => None
  | (k', v) :: m' => if is_eq (cmp k k') then Some v else bm_get m' k
  end.

Fixpoint bm_insert m k v : BTreeMap :=
  match m with
  | [] => [(k, v)]
  | (k', v') :: m' =>
      match cmp k k' with
      | Lt => (k, v) :: m
      | Eq => (k, v) :: m'
      | Gt => (k', v') :: bm_insert m' k v
      end
  end.

Definition bm_remove m k : BTreeMap := filter (λ kv, kv.1 ≠ k) m.

(** [range]: the entries whose key lies in the range, in order. *)
Definition bm_range m r : list (K * V) := filter (λ kv, in_range r kv.1 = true) m.

(** [drain_filter] by a range: the entries removed and the ones left. *)
Definition bm_drain m r : list (K * V) * BTreeMap :=
  (bm_range m r, filter (λ kv, in_range r kv.1 = false) m).

Definition bm_keys m : list K := m.*1.
Definition bm_values m : list V := m.*2.

Definition bm_wf m : Prop := StronglySorted (λ k1 k2, k1 ≺ k2) (bm_keys m).
End btreemap.
Arguments BTreeMap : clear implicits.

Section btreemap_lemmas.
Context `{Ord K} {V : Type}.
Implicit Types (k : K) (v : V) (m : list (K * V)) (r : BoundPair K).

Lemma bm_wf_cons k v m : bm_wf ((k, v) :: m) ↔ bm_wf m ∧ Forall (λ kv, k ≺ kv.1) m.
Proof.
  unfold bm_wf. simpl. split.
  - intros [Hs Hf]%StronglySorted_inv. split; [done|]. by apply Forall_fmap in Hf.
  - intros [Hs Hf]. constructor; [done|]. by apply Forall_fmap.
Qed.

Lemma bm_get_above m k : Forall (λ kv, k ≺ kv.1) m → bm_get m k = None.
Proof. induction 1 as [|[k' v] m Hk Hm IH]; simpl in *; [done|]. by rewrite Hk. Qed.

Lemma bm_get_cons k' v m k :
  bm_get ((k', v) :: m) k = if decide (k = k') then Some v else bm_get m k.
Proof.
  simpl. destruct (decide (k = k')) as [->|Hne]; [by rewrite cmp_refl|].
  assert (is_eq (cmp k k') = false) as -> by ord_lia. done.
Qed.

#[local] Arguments bm_get : simpl never.

Lemma bm_get_insert m k v k' :
  bm_get (bm_insert m k v) k' = if decide (k' = k) then Some v else bm_get m k'.
Proof.
  induction m as [|[k0 v0] m IH]; simpl.
  - by rewrite bm_get_cons.
  - destruct (cmp k k0) eqn:E.
    + apply cmp_eq_iff in E as ->. rewrite !bm_get_cons. by case_decide.
    + rewrite !bm_get_cons. done.
    + rewrite !bm_get_cons, IH. repeat case_decide; subst; try done. by rewrite cmp_refl in E.
Qed.

Lemma bm_get_app m1 m2 k :
  bm_get (m1 ++ m2) k = match bm_get m1 k with Some v => Some v | None => bm_get m2 k end.
Proof.
  induction m1 as [|[k0 v0] m1 IH]; [done|]. simpl app. rewrite !bm_get_cons, IH.
  by destruct (decide (k = k0)).
Qed.

Lemma bm_insert_elem m k v k' v' :
  (k', v') ∈ bm_insert m k v → (k' = k ∧ v' = v) ∨ (k', v') ∈ m.
Proof.
  induction m as [|[k0 v0] m IH]; simpl; [set_solver|].
  destruct (cmp k k0); set_solver.
Qed.

Lemma bm_insert_wf m k v : bm_wf m → bm_wf (bm_insert m k v).
Proof.
  induction m as [|[k0 v0] m IH]; simpl; [by repeat constructor|].
  rewrite bm_wf_cons. intros [Hwf Hf]. destruct (cmp k k0) eqn:E; rewrite bm_wf_cons.
  - apply cmp_eq_iff in E as ->. done.
  - rewrite bm_wf_cons. split; [done|]. constructor; [done|].
    eapply Forall_impl; [exact Hf|]. cbv beta. intros [] ?; simpl in *; ord_lia.
  - split; [by apply IH|]. apply Forall_forall. intros [k' v'] Hin. simpl.
    rewrite Forall_forall in Hf. apply bm_insert_elem in Hin as [[-> ->]|Hin]; [ord_lia|].
    by apply (Hf (k', v')).
Qed.

Lemma bm_wf_filter (P : K * V → Prop) `{∀ kv, Decision (P kv)} m : bm_wf m → bm_wf (filter P m).
Proof.
  induction m as [|[k v] m IH]; [done|]. rewrite bm_wf_cons, filter_cons. intros [Hwf Hf].
  case_decide; [|by apply IH]. apply bm_wf_cons. split; [by apply IH|].
  rewrite Forall_forall in *. intros kv [_ Hin]%list_elem_of_filter. by apply Hf.
Qed.

(** Lookup after filtering by a predicate on keys. *)
Lemma bm_get_filter (P : K → Prop) `{∀ k, Decision (P k)} m k :
  bm_get (filter (λ kv, P kv.1) m) k = if decide (P k) then bm_get m k else None.
Proof.
  induction m as [|[k0 v0] m IH]; [by case_decide|].
  rewrite filter_cons. simpl. destruct (decide (P k0)) as [HP|HP].
  - rewrite !bm_get_cons, IH. by repeat case_decide; subst.
  - rewrite IH, bm_get_cons. by repeat case_decide; subst.
Qed.

Lemma bm_get_remove m k k' :
  bm_get (bm_remove m k) k' = if decide (k' = k) then None else bm_get m k'.
Proof.
  pose proof (bm_get_filter (λ k0, k0 ≠ k) m k') as Hf. cbv beta in Hf.
  unfold bm_remove. rewrite Hf. repeat case_decide; done.
Qed.

Lemma bm_get_elem m k v : bm_wf m → (bm_get m k = Some v ↔ (k, v) ∈ m).
Proof.
  induction m as [|[k0 v0] m IH]; [set_solver|].
  rewrite bm_wf_cons, bm_get_cons. intros [Hwf Hf]. rewrite elem_of_cons.
  case_decide as Hk; subst.
  - split; [intros [= ->]; by left|]. intros [[= ->]|Hin]; [done|].
    rewrite Forall_forall in Hf. specialize (Hf _ Hin). simpl in Hf. by rewrite cmp_refl in Hf.
  - rewrite IH by done. split; [by right|]. intros [[= -> ->]|Hin]; done.
Qed.

Lemma bm_remove_wf m k : bm_wf m → bm_wf (bm_remove m k).
Proof. apply bm_wf_filter. Qed.
End btreemap_lemmas.
