(* ===== verification/IntervalTree.v ===== *)
(** * IntervalTree: the merging interval tree

    Models [merging-interval-tree/src/lib.rs].  An [IntervalTreeSet] is a
    [BTreeSet] of endpoints, kept here as the strictly increasing list of its
    elements.  A tree denotes the set of points covered by its intervals; the
    theorems show that the operations maintain the tree's invariant (strictly
    increasing endpoints, lower and upper ones alternating) and act on the
    denoted set as their names say.  Operations whose [check_range] panics
    return [None]. *)
From S2P Require Import Prelude Intervals.

(** [Endpoint<T>] and [BorrowedEndpoint<T, B>], which have the same variants
    and the same order ([impl_ord!]). *)
Inductive Endpoint (K : Type) :=
  | LowerUnbounded
  | LowerInclusive (x : K)
  | LowerExclusive (x : K)
  | UpperExclusive (x : K)
  | UpperInclusive (x : K)
  | UpperUnbounded.
Arguments LowerUnbounded {K}.
Arguments LowerInclusive {K}.
Arguments LowerExclusive {K}.
Arguments UpperExclusive {K}.
Arguments UpperInclusive {K}.
Arguments UpperUnbounded {K}.

Definition endpoint_cmp {K} `{Ord K} (a b : Endpoint K) : comparison :=
  match a with
  | LowerUnbounded => match b with LowerUnbounded => Eq | _ => Lt end
  | LowerInclusive s =>
      match b with
      | LowerUnbounded => Gt
      | LowerInclusive o => cmp s o
      | UpperExclusive o | LowerExclusive o | UpperInclusive o => then_cmp (cmp s o) Lt
      | UpperUnbounded => Lt
      end
  | UpperExclusive s =>
      match b with
      | LowerUnbounded => Gt
      | LowerInclusive o => then_cmp (cmp s o) Gt
      | UpperExclusive o => cmp s o
      | LowerExclusive o | UpperInclusive o => then_cmp (cmp s o) Lt
      | UpperUnbounded => Lt
      end
  | LowerExclusive s =>
      match b with
      | LowerUnbounded => Gt
      | LowerInclusive o | UpperExclusive o => then_cmp (cmp s o) Gt
      | LowerExclusive o => cmp s o
      | UpperInclusive o => then_cmp (cmp s o) Lt
      | UpperUnbounded => Lt
      end
  | UpperInclusive s =>
      match b with
      | LowerUnbounded => Gt
      | LowerInclusive o | UpperExclusive o | LowerExclusive o => then_cmp (cmp s o) Gt
      | UpperInclusive o => cmp s o
      | UpperUnbounded => Lt
      end
  | UpperUnbounded => match b with UpperUnbounded => Eq | _ => Gt end
  end.

#[export] Instance endpoint_ord {K} `{Ord K} : Ord (Endpoint K).
Proof.
  refine {| cmp := endpoint_cmp |}.
  - intros [] []; simpl; try done; split; intros Heq; try done.
    all: try (destruct (cmp _ _); done).
    all: first [by apply cmp_eq_iff in Heq as -> | injection Heq as ->; apply cmp_refl].
  - intros [] []; simpl; try done; rewrite (cmp_antisym x x0); by destruct (cmp x x0).
  - intros [] [] []; simpl; try done; ord_lia.
Defined.

Lemma endpoint_cmp_eq {K} `{Ord K} (a b : Endpoint K) : cmp a b = endpoint_cmp a b.
Proof. reflexivity. Qed.

Section tree.
Context `{Ord K}.
Implicit Types (x y p : K) (b : Bound K) (r : BoundPair K) (e lo hi : Endpoint K).

Definition is_lower e : bool :=
  match e with
  | LowerUnbounded | LowerInclusive _ | LowerExclusive _ => true
  | _ => false
  end.
Definition is_upper e : bool := negb (is_lower e).

Definition lower b : Endpoint K :=
  match b with
  | Included v => LowerInclusive v
  | Excluded v => LowerExclusive v
  | Unbounded => LowerUnbounded
  end.
Definition upper b : Endpoint K :=
  match b with
  | Included v => UpperInclusive v
  | Excluded v => UpperExclusive v
  | Unbounded => UpperUnbounded
  end.
Definition lower_complement b : Endpoint K :=
  match b with
  | Included v => LowerExclusive v
  | Excluded v => LowerInclusive v
  | Unbounded => LowerUnbounded
  end.
Definition upper_complement b : Endpoint K :=
  match b with
  | Included v => UpperExclusive v
  | Excluded v => UpperInclusive v
  | Unbounded => UpperUnbounded
  end.
Definition as_bound e : Bound K :=
  match e with
  | LowerUnbounded => Unbounded
  | UpperExclusive v | LowerExclusive v => Excluded v
  | UpperInclusive v | LowerInclusive v => Included v
  | UpperUnbounded => Unbounded
  end.

(** [check_range]; [None] is the panic. *)
Definition check_range r : option (BoundPair K) :=
  match r with
  | (Excluded s, Excluded e) | (Excluded s, Included e) | (Included s, Excluded e) =>
      if is_eq (cmp s e) then None else if is_gt (cmp s e) then None else Some r
  | (Included s, Included e) => if is_gt (cmp s e) then None else Some r
  | _ => Some r
  end.

Definition endpoint_pair r : option (Endpoint K * Endpoint K) :=
  '(start, end_) ← check_range r; Some (lower start, upper end_).

(** The [BTreeSet<Endpoint<T>>]: its elements in increasing order. *)
Definition IntervalTreeSet : Type := list (Endpoint K).
Implicit Types s : list (Endpoint K).

Definition btree_range_from s lo : list (Endpoint K) := filter (λ e, lo ≼ e) s.
Definition btree_range_after s lo : list (Endpoint K) := filter (λ e, lo ≺ e) s.
Definition btree_remove s e : list (Endpoint K) := filter (λ e', e' ≠ e) s.
Fixpoint btree_insert s e : list (Endpoint K) :=
  match s with
  | [] => [e]
  | e' :: s' =>
      match cmp e e' with
      | Lt => e :: s
      | Eq => s
      | Gt => e' :: btree_insert s' e
      end
  end.

(** The [take_while] whose closure also records whether the last endpoint it
    looked at is an upper one. *)
Fixpoint take_until hi (l : list (Endpoint K)) (next_is_upper : bool) :
    list (Endpoint K) * bool :=
  match l with
  | [] => ([], next_is_upper)
  | lim :: l' =>
      if is_ge (cmp hi lim) then
        let '(removed, niu) := take_until hi l' (is_upper lim) in (lim :: removed, niu)
      else ([], is_upper lim)
  end.

Definition insert_interval s r : option IntervalTreeSet :=
  '(lo, hi) ← endpoint_pair r;
  let '(removed, next_is_upper) := take_until hi (btree_range_from s lo) false in
  let s1 := foldl btree_remove s removed in
  let s2 := if default next_is_upper (is_upper <$> head removed) then s1
            else btree_insert s1 (lower (as_bound lo)) in
  let s3 := if default next_is_upper (is_lower <$> last removed) then s2
            else btree_insert s2 (upper (as_bound hi)) in
  Some s3.

Definition insert_point s p : option IntervalTreeSet :=
  insert_interval s (Included p, Included p).

Definition remove_interval s r : option IntervalTreeSet :=
  '(lo, hi) ← endpoint_pair r;
  let '(removed, next_is_upper) := take_until hi (btree_range_from s lo) false in
  let s1 := foldl btree_remove s removed in
  let s2 := if default next_is_upper (is_upper <$> head removed)
            then btree_insert s1 (upper_complement (as_bound lo)) else s1 in
  let s3 := if default next_is_upper (is_lower <$> last removed)
            then btree_insert s2 (lower_complement (as_bound hi)) else s2 in
  Some s3.

Definition remove_point s p : option IntervalTreeSet :=
  remove_interval s (Included p, Included p).

Definition contains_point s p : bool :=
  match head (btree_range_after s (LowerInclusive p)) with
  | Some UpperUnbounded => true
  | Some (UpperExclusive l) => is_gt (cmp l p)
  | Some (UpperInclusive l) => is_ge (cmp l p)
  | _ => false
  end.

Definition covers_interval s r : option bool :=
  '(lo, hi) ← endpoint_pair r;
  Some match head (btree_range_after s lo) with
       | Some UpperUnbounded => true
       | Some limit => if is_upper limit then is_ge (cmp limit hi) else false
       | None => false
       end.

(** [IntervalTreeSet::intervals]: the endpoints in pairs. *)
Fixpoint intervals s : list (BoundPair K) :=
  match s with
  | lo :: next :: s' => (as_bound lo, as_bound next) :: intervals s'
  | _ => []
  end.

(** *** The difference and overlap iterators *)
Record IntervalIter := {
  it_lower : option (Bound K);
  it_upper : option (Bound K);
  it_inner : list (Endpoint K);
}.

(** [IntervalDiffIter::max_bound]: the bound returned and the new [upper_bound]. *)
Definition diff_max_bound (cur : option (Bound K)) (other : Bound K) :
    option (Bound K) * option (Bound K) :=
  match cur with
  | None => (None, None)
  | Some Unbounded =>
      match other with
      | Unbounded => (None, cur)
      | Included oth => (Some (Excluded oth), cur)
      | Excluded oth => (Some (Included oth), cur)
      end
  | Some (Included c) =>
      match other with
      | Included oth =>
          if is_lt (cmp oth c) then (Some (Excluded oth), cur)
          else if is_eq (cmp oth c) then (Some (Excluded c), None)
          else (cur, None)
      | Excluded oth =>
          if is_lt (cmp oth c) then (Some (Included oth), cur)
          else if is_eq (cmp oth c) then (Some (Included c), cur)
          else (cur, None)
      | Unbounded => (cur, None)
      end
  | Some (Excluded c) =>
      match other with
      | Included oth => if is_lt (cmp oth c) then (Some (Excluded oth), cur) else (cur, None)
      | Excluded oth => if is_lt (cmp oth c) then (Some (Included oth), cur) else (cur, None)
      | Unbounded => (cur, None)
      end
  end.

(** [IntervalOverlapIter::max_bound]. *)
Definition overlap_max_bound (cur : option (Bound K)) (other : Bound K) :
    option (Bound K) * option (Bound K) :=
  match cur with
  | None => (None, None)
  | Some Unbounded =>
      match other with Unbounded => (Some other, cur) | _ => (None, cur) end
  | Some (Included c) =>
      match other with
      | Included oth => if is_le (cmp oth c) then (Some other, cur) else (cur, None)
      | Excluded oth => if is_lt (cmp oth c) then (Some other, cur) else (cur, None)
      | Unbounded => (cur, None)
      end
  | Some (Excluded c) =>
      match other with
      | Included oth | Excluded oth =>
          if is_lt (cmp oth c) then (Some other, cur) else (cur, None)
      | Unbounded => (cur, None)
      end
  end.

(** The body shared by the second arm of both [next] methods: an endpoint
    [lim], the following one, and the [?] on each bound. *)
Definition iter_pair (max_bound : option (Bound K) → Bound K → option (Bound K) * option (Bound K))
    (it : IntervalIter) (lim : Endpoint K) (inner : list (Endpoint K)) :
    option (BoundPair K) * IntervalIter :=
  match max_bound (it_upper it) (as_bound lim) with
  | (None, ub) => (None, {| it_lower := it_lower it; it_upper := ub; it_inner := inner |})
  | (Some lo, ub) =>
      match inner with
      | e :: inner' =>
          let '(hi, ub') := max_bound ub (as_bound e) in
          ((λ h, (lo, h)) <$> hi,
           {| it_lower := it_lower it; it_upper := ub'; it_inner := inner' |})
      | [] =>
          ((λ h, (lo, h)) <$> ub,
           {| it_lower := it_lower it; it_upper := None; it_inner := [] |})
      end
  end.

(** [IntervalDiffIter::next]; [None] is the [expect("First iteration")] panic. *)
Definition diff_next (it : IntervalIter) : option (option (BoundPair K) * IntervalIter) :=
  match it_inner it with
  | lim :: inner =>
      if is_lower lim then
        lo ← it_lower it;
        let '(hi, ub) := diff_max_bound (it_upper it) (as_bound lim) in
        Some ((λ h, (lo, h)) <$> hi, {| it_lower := None; it_upper := ub; it_inner := inner |})
      else Some (iter_pair diff_max_bound it lim inner)
  | [] =>
      Some (match it_lower it, it_upper it with
            | Some lo, Some hi => Some (lo, hi)
            | _, _ => None
            end, {| it_lower := None; it_upper := None; it_inner := [] |})
  end.

(** [IntervalOverlapIter::next]. *)
Definition overlap_next (it : IntervalIter) : option (option (BoundPair K) * IntervalIter) :=
  match it_inner it with
  | lim :: inner =>
      if is_upper lim then
        lo ← it_lower it;
        let '(hi, ub) := overlap_max_bound (it_upper it) (as_bound lim) in
        Some ((λ h, (lo, h)) <$> hi, {| it_lower := None; it_upper := ub; it_inner := inner |})
      else Some (iter_pair overlap_max_bound it lim inner)
  | [] => Some (None, it)
  end.

(** Draining an iterator until it returns [None]. *)
Fixpoint iter_collect (next : IntervalIter → option (option (BoundPair K) * IntervalIter))
    (fuel : nat) (it : IntervalIter) : option (list (BoundPair K)) :=
  match fuel with
  | 0 => None
  | S fuel =>
      '(item, it') ← next it;
      match item with
      | None => Some []
      | Some r => cons r <$> iter_collect next fuel it'
      end
  end.

(** Enough for any tree: every [next] that yields an item consumes an endpoint
    or the upper bound. *)
Definition iter_fuel (it : IntervalIter) : nat := S (S (length (it_inner it))).

Definition get_interval_difference s r : option (list (BoundPair K)) :=
  '(lower_bound, upper_bound) ← check_range r;
  let inner :=
    match lower_bound with
    | Included v => btree_range_from s (UpperExclusive v)
    | Excluded v => btree_range_after s (UpperInclusive v)
    | Unbounded => btree_range_after s LowerUnbounded
    end in
  let it := {| it_lower := Some lower_bound; it_upper := Some upper_bound; it_inner := inner |} in
  iter_collect diff_next (iter_fuel it) it.

Definition get_interval_overlaps s r : option (list (BoundPair K)) :=
  '(lower_bound, upper_bound) ← check_range r;
  let inner :=
    match lower_bound with
    | Included v => btree_range_after s (UpperExclusive v)
    | Excluded v => btree_range_after s (UpperInclusive v)
    | Unbounded => btree_range_after s LowerUnbounded
    end in
  let it := {| it_lower := Some lower_bound; it_upper := Some upper_bound; it_inner := inner |} in
  iter_collect overlap_next (iter_fuel it) it.

(** *** Invariant and denotation *)

(** Walks the endpoints, [inside] telling whether an interval is open; fails
    when two lower or two upper endpoints follow each other. *)
Fixpoint alt_run (inside : bool) (l : list (Endpoint K)) : option bool :=
  match l with
  | [] => Some inside
  | e :: l' => if eqb (is_upper e) inside then alt_run (negb inside) l' else None
  end.

(** The endpoints of an empty interval: a lower and an upper endpoint at the
    same cut. *)
Definition same_cut (e1 e2 : Endpoint K) : bool :=
  match e1, e2 with
  | LowerInclusive x, UpperExclusive y => is_eq (cmp x y)
  | LowerExclusive x, UpperInclusive y => is_eq (cmp x y)
  | _, _ => false
  end.

(** The invariant of the tree: the elements of the [BTreeSet] in order, every
    lower bound followed by its closing upper bound, no interval empty. *)
Definition tree_wf s : Prop :=
  StronglySorted (λ e1 e2, cmp e1 e2 = Lt) s ∧ alt_run false s = Some false ∧
  (∀ e1 e2, e1 ∈ s → e2 ∈ s → same_cut e1 e2 = false).

(** The set of points a tree denotes. *)
Definition tree_points s p : bool := existsb (λ r, in_range r p) (intervals s).

(** Whether the cut an endpoint stands for lies before the point [p]. *)
Definition before e p : bool :=
  match e with
  | LowerUnbounded => true
  | LowerInclusive x | UpperExclusive x => is_le (cmp x p)
  | LowerExclusive x | UpperInclusive x => is_lt (cmp x p)
  | UpperUnbounded => false
  end.

(** The denotation as a scan: toggles at every endpoint before [p]. *)
Fixpoint covered (inside : bool) s p : bool :=
  match s with
  | [] => inside
  | e :: s' => if before e p then covered (negb inside) s' p else inside
  end.
End tree.
Arguments IntervalTreeSet : clear implicits.

Section tree_lemmas.
Context `{Ord K}.
Implicit Types (x y p : K) (b : Bound K) (r : BoundPair K) (e lo hi : Endpoint K).
Implicit Types s A B R : list (Endpoint K).

Local Abbreviation sorted := (StronglySorted (λ e1 e2, cmp e1 e2 = Lt)).

Lemma before_mono e1 e2 p : e1 ≼ e2 → before e2 p = true → before e1 p = true.
Proof. rewrite endpoint_cmp_eq. destruct e1, e2; simpl; try done; ord_lia. Qed.

Lemma before_anti e1 e2 p : e1 ≼ e2 → before e1 p = false → before e2 p = false.
Proof.
  intros Hle H1. destruct (before e2 p) eqn:E; [|done].
  by rewrite (before_mono _ _ _ Hle E) in H1.
Qed.

Lemma alt_run_app inside A B :
  alt_run inside (A ++ B) = alt_run inside A ≫= λ i, alt_run i B.
Proof.
  revert inside; induction A as [|e A IH]; intros inside; simpl; [done|].
  by destruct (eqb _ _).
Qed.

Lemma covered_app_before inside A B p i :
  Forall (λ e, before e p = true) A → alt_run inside A = Some i →
  covered inside (A ++ B) p = covered i B p.
Proof.
  intros HA. revert inside; induction HA as [|e A He HA IH]; intros inside; simpl.
  - by intros [= ->].
  - rewrite He. destruct (eqb _ _); [|done]. apply IH.
Qed.

Lemma covered_app_after inside A B p :
  Forall (λ e, before e p = false) B → covered inside (A ++ B) p = covered inside A p.
Proof.
  intros HB. revert inside; induction A as [|e A IH]; intros inside; simpl.
  - destruct HB as [|e B He HB]; simpl; [done|]. by rewrite He.
  - by rewrite IH.
Qed.

Lemma sorted_cons e s : sorted (e :: s) ↔ sorted s ∧ Forall (λ e', e ≺ e') s.
Proof.
  split; [|intros [??]; by constructor].
  intros Hs. split; [by apply StronglySorted_inv in Hs as [? _]|].
  by apply StronglySorted_inv in Hs as [_ ?].
Qed.

Lemma sorted_app A B :
  sorted (A ++ B) ↔ sorted A ∧ sorted B ∧ (∀ e1 e2, e1 ∈ A → e2 ∈ B → e1 ≺ e2).
Proof.
  induction A as [|e A IH]; simpl.
  - split; [|naive_solver]. intros Hs. split_and!; [constructor|done|set_solver].
  - rewrite !sorted_cons, IH, Forall_app, !Forall_forall.
    setoid_rewrite elem_of_cons. naive_solver.
Qed.

(** A sorted list splits at a lower and an upper endpoint. *)
Lemma sorted_split s lo hi :
  sorted s → lo ≼ hi →
  ∃ A R B, s = A ++ R ++ B ∧ Forall (λ e, e ≺ lo) A ∧
    Forall (λ e, lo ≼ e ∧ e ≼ hi) R ∧ Forall (λ e, hi ≺ e) B.
Proof.
  intros Hs Hle. induction Hs as [|e s Hs IH Hf].
  - exists [], [], []. split_and!; constructor.
  - destruct IH as (A & R & B & -> & HA & HR & HB).
    destruct (cmp e lo) eqn:E1; [|by exists (e :: A), R, B; split_and!; [|constructor|..]|].
    all: assert (Forall (λ e', lo ≼ e') (A ++ R ++ B)) as Hlo
      by (eapply Forall_impl; [exact Hf|]; cbv beta; intros; ord_lia).
    all: assert (A = []) as -> by
      (destruct A as [|a A]; [done|]; inversion HA; inversion Hlo; subst; exfalso; ord_lia).
    all: destruct (cmp e hi) eqn:E2;
      [exists [], (e :: R), B; split_and!; [done|done|constructor; [|done]|done]; split; ord_lia..|].
    all: exists [], [], (e :: R ++ B); split_and!; [done|done|constructor|].
    all: constructor; [ord_lia|]; eapply Forall_impl; [exact Hf|]; cbv beta; intros; ord_lia.
Qed.

(** The decomposition every mutation of the tree works on: [A] below the
    range, [R] the endpoints it swallows, [B] above it; [i] and [j] tell whether
    an interval is open before and after [R]. *)
Record tree_split s lo hi A R B (i j : bool) : Prop := {
  ts_eq : s = A ++ R ++ B;
  ts_A : Forall (λ e, e ≺ lo) A;
  ts_R : Forall (λ e, lo ≼ e ∧ e ≼ hi) R;
  ts_B : Forall (λ e, hi ≺ e) B;
  ts_sA : sorted A;
  ts_sB : sorted B;
  ts_i : alt_run false A = Some i;
  ts_j : alt_run i R = Some j;
  ts_close : alt_run j B = Some false;
  ts_cut : ∀ e1 e2, e1 ∈ A ++ B → e2 ∈ A ++ B → same_cut e1 e2 = false;
}.

Lemma tree_wf_split s lo hi :
  tree_wf s → lo ≼ hi → ∃ A R B i j, tree_split s lo hi A R B i j.
Proof.
  intros (Hs & Halt & Hcut) Hle.
  destruct (sorted_split s lo hi Hs Hle) as (A & R & B & -> & HA & HR & HB).
  rewrite !alt_run_app in Halt.
  destruct (alt_run false A) as [i|] eqn:Hi; [simpl in Halt|done].
  rewrite alt_run_app in Halt. destruct (alt_run i R) as [j|] eqn:Hj; [simpl in Halt|done].
  apply sorted_app in Hs as (HsA & HsRB & _). apply sorted_app in HsRB as (_ & HsB & _).
  exists A, R, B, i, j. split; try done. intros e1 e2 H1 H2. apply Hcut; set_solver.
Qed.

Lemma take_until_split hi R B niu :
  Forall (λ e, e ≼ hi) R → Forall (λ e, hi ≺ e) B →
  take_until hi (R ++ B) niu =
  (R, default (default niu (is_upper <$> last R)) (is_upper <$> head B)).
Proof.
  intros HR HB. revert niu. induction HR as [|e R He HR IH]; intros niu; simpl.
  - destruct HB as [|e B He HB]; simpl; [done|]. by rewrite He.
  - assert (is_ge (cmp hi e) = true) as -> by ord_lia. rewrite IH.
    rewrite last_cons. by destruct (last R).
Qed.

Lemma btree_insert_middle A B e :
  Forall (λ e', e' ≺ e) A → Forall (λ e', e ≺ e') B → btree_insert (A ++ B) e = A ++ e :: B.
Proof.
  intros HA HB. induction HA as [|a A Ha HA IH]; simpl.
  - destruct HB as [|b B Hb HB]; simpl; [done|]. by rewrite Hb.
  - assert (cmp e a = Gt) as -> by ord_lia. by rewrite IH.
Qed.

Lemma btree_remove_all A R B :
  (∀ e, e ∈ R → (e ∉ A) ∧ (e ∉ B)) → foldl btree_remove (A ++ R ++ B) R = A ++ B.
Proof.
  intros Hdisj.
  assert (∀ R' s, foldl btree_remove s R' = filter (λ e, e ∉ R') s) as Hfold.
  { induction R' as [|e R' IH]; intros s; simpl.
    - symmetry. apply filter_all, Forall_forall. intros; apply not_elem_of_nil.
    - rewrite IH. unfold btree_remove. rewrite list_filter_filter.
      apply list_filter_iff. intros e'. rewrite not_elem_of_cons. naive_solver. }
  rewrite Hfold, !filter_app. rewrite (filter_none _ R) by (apply Forall_forall; naive_solver).
  rewrite !filter_all; [done|apply Forall_forall; intros e He Hin..].
  - by destruct (Hdisj e Hin) as [_ ?].
  - by destruct (Hdisj e Hin) as [? _].
Qed.

Lemma alt_run_head i R B j :
  alt_run i R = Some j → alt_run j B = Some false →
  default (default (default false (is_upper <$> last R)) (is_upper <$> head B))
    (is_upper <$> head R) = i.
Proof.
  destruct R as [|e R]; simpl.
  - intros [= ->]. destruct B as [|e B]; simpl; [by intros [= ->]|].
    destruct (is_upper e), j; simpl; congruence.
  - destruct (is_upper e), i; simpl; congruence.
Qed.

Lemma alt_run_last i R B j :
  alt_run i R = Some j → alt_run j B = Some false →
  default (default (default false (is_upper <$> last R)) (is_upper <$> head B))
    (is_lower <$> last R) = j.
Proof.
  destruct R as [|e R _] using rev_ind; simpl.
  - intros [= ->]. destruct B as [|e B]; simpl; [by intros [= ->]|].
    destruct (is_upper e), j; simpl; congruence.
  - rewrite alt_run_app, last_snoc. simpl.
    destruct (alt_run i R) as [k|]; simpl; [|done]. unfold is_upper.
    destruct (is_lower e), k; simpl; congruence.
Qed.

Lemma tree_split_scan s lo hi A R B i j :
  tree_split s lo hi A R B i j → lo ≼ hi →
  ∃ niu, take_until hi (btree_range_from s lo) false = (R, niu) ∧
    foldl btree_remove s R = A ++ B ∧
    default niu (is_upper <$> head R) = i ∧ default niu (is_lower <$> last R) = j.
Proof.
  intros [-> HA HR HB HsA HsB Hi Hj Hc _] Hle. unfold btree_range_from.
  rewrite !filter_app, (filter_none _ A), (filter_all _ R), (filter_all _ B); simpl.
  - rewrite take_until_split; [|eapply Forall_impl; [exact HR|]; naive_solver|done].
    eexists; split_and!; [done| |eauto using alt_run_head, alt_run_last..].
    apply btree_remove_all. rewrite Forall_forall in HA, HR, HB. intros e He.
    destruct (HR e He). split; intros Hin; [apply HA in Hin|apply HB in Hin]; ord_lia.
  - eapply Forall_impl; [exact HB|]; cbv beta; intros; ord_lia.
  - eapply Forall_impl; [exact HR|]; naive_solver.
  - eapply Forall_impl; [exact HA|]; cbv beta; intros; ord_lia.
Qed.

(** *** Ranges as pairs of endpoints *)
Lemma check_range_Some r r' : check_range r = Some r' → r' = r.
Proof. destruct r as [[] []]; simpl; repeat case_match; naive_solver. Qed.

Lemma as_bound_lower b : as_bound (lower b) = b.
Proof. by destruct b. Qed.
Lemma as_bound_upper b : as_bound (upper b) = b.
Proof. by destruct b. Qed.

Lemma before_lower b p : before (lower b) p = above_start b p.
Proof. by destruct b. Qed.
Lemma before_upper b p : before (upper b) p = negb (below_end b p).
Proof. destruct b; simpl; [..|done]; rewrite (cmp_antisym p x); by destruct (cmp p x). Qed.
Lemma before_lower_complement b p :
  b ≠ Unbounded → before (lower_complement b) p = before (upper b) p.
Proof. by destruct b. Qed.
Lemma before_upper_complement b p :
  b ≠ Unbounded → before (upper_complement b) p = before (lower b) p.
Proof. by destruct b. Qed.

Lemma in_range_before r p :
  in_range r p = before (lower r.1) p && negb (before (upper r.2) p).
Proof. unfold in_range. by rewrite before_lower, before_upper, negb_involutive. Qed.

(** A range that passes [check_range]: its endpoints are in order, also after
    complementing either of them. *)
Definition range_valid r : bool := match check_range r with Some _ => true | None => false end.

Lemma endpoint_pair_valid r :
  range_valid r = true → endpoint_pair r = Some (lower r.1, upper r.2).
Proof.
  unfold range_valid, endpoint_pair. destruct (check_range r) as [r'|] eqn:E; [|done].
  apply check_range_Some in E as ->. by destruct r.
Qed.

Lemma range_valid_order r :
  range_valid r = true →
  lower r.1 ≺ upper r.2 ∧
  (r.1 ≠ Unbounded → upper_complement r.1 ≺ upper r.2) ∧
  (r.2 ≠ Unbounded → lower r.1 ≺ lower_complement r.2) ∧
  (r.1 ≠ Unbounded → r.2 ≠ Unbounded → upper_complement r.1 ≺ lower_complement r.2).
Proof.
  unfold range_valid. rewrite !endpoint_cmp_eq.
  destruct r as [[] []]; simpl; try done; repeat case_match; try done; intros _;
    split_and!; try done; intros; ord_lia.
Qed.

(** *** What the mutations compute *)
Lemma insert_interval_shape s r A R B i j :
  range_valid r = true → tree_split s (lower r.1) (upper r.2) A R B i j →
  insert_interval s r =
  Some (A ++ (if i then [] else [lower r.1]) ++ (if j then [] else [upper r.2]) ++ B).
Proof.
  intros Hr Hts. pose proof (range_valid_order r Hr) as (Hlt & _).
  destruct (tree_split_scan _ _ _ _ _ _ _ _ Hts) as (niu & Hscan & Hrem & Hfst & Hlst); [congruence|].
  unfold insert_interval. rewrite endpoint_pair_valid by done. simpl.
  rewrite Hscan, Hrem, Hfst, Hlst, as_bound_lower, as_bound_upper. f_equal.
  destruct Hts as [_ HA _ HB _ _ _ _ _ Hcut].
  assert (Forall (λ e, lower r.1 ≺ e) B) by
    (eapply Forall_impl; [exact HB|]; cbv beta; intros; ord_lia).
  assert (Forall (λ e, e ≺ upper r.2) A) by
    (eapply Forall_impl; [exact HA|]; cbv beta; intros; ord_lia).
  destruct i, j; simpl; rewrite ?btree_insert_middle by done; try done.
  rewrite (app_assoc A [_] B : A ++ _ :: B = _), btree_insert_middle; [by rewrite <-app_assoc| |done].
  apply Forall_app. split; [done|]. by constructor.
Qed.

Lemma split_open_lower s b hi A R B j :
  tree_split s (lower b) hi A R B true j → b ≠ Unbounded.
Proof.
  intros [_ HA _ _ _ _ Hi _ _ _] ->. destruct HA as [|e A He HA]; [done|]. by destruct e.
Qed.
Lemma split_open_upper s b lo A R B i :
  tree_split s lo (upper b) A R B i true → b ≠ Unbounded.
Proof.
  intros [_ _ _ HB _ _ _ _ Hc _] ->. destruct HB as [|e B He HB]; [done|]. by destruct e.
Qed.

Lemma complement_order b :
  (b ≠ Unbounded → lower b ≺ upper_complement b) ∧ (b ≠ Unbounded → lower_complement b ≺ upper b).
Proof. rewrite !endpoint_cmp_eq. destruct b; simpl; split; intros; rewrite ?cmp_refl; done. Qed.

Lemma remove_interval_shape s r A R B i j :
  range_valid r = true → tree_split s (lower r.1) (upper r.2) A R B i j →
  remove_interval s r =
  Some (A ++ (if i then [upper_complement r.1] else []) ++
        (if j then [lower_complement r.2] else []) ++ B).
Proof.
  intros Hr Hts. pose proof (range_valid_order r Hr) as (Hlt & Huc & Hlc & Hulc).
  destruct (tree_split_scan _ _ _ _ _ _ _ _ Hts) as (niu & Hscan & Hrem & Hfst & Hlst); [congruence|].
  unfold remove_interval. rewrite endpoint_pair_valid by done. simpl.
  rewrite Hscan, Hrem, Hfst, Hlst, as_bound_lower, as_bound_upper. f_equal.
  assert (i = true → r.1 ≠ Unbounded) as Hi by (intros ->; eauto using split_open_lower).
  assert (j = true → r.2 ≠ Unbounded) as Hj by (intros ->; eauto using split_open_upper).
  destruct Hts as [_ HA _ HB _ _ _ _ _ Hcut].
  destruct (complement_order r.1) as [Hc1 _], (complement_order r.2) as [_ Hc2].
  assert (∀ e, i = true → e = upper_complement r.1 →
    Forall (λ e', e' ≺ e) A ∧ Forall (λ e', e ≺ e') B) as HI.
  { intros e Hit ->. specialize (Hi Hit). specialize (Hc1 Hi). specialize (Huc Hi).
    split; (eapply Forall_impl; [first [exact HA|exact HB]|]); cbv beta; intros; ord_lia. }
  assert (∀ e, j = true → e = lower_complement r.2 →
    Forall (λ e', e' ≺ e) A ∧ Forall (λ e', e ≺ e') B) as HJ.
  { intros e Hjt ->. specialize (Hj Hjt). specialize (Hc2 Hj). specialize (Hlc Hj).
    split; (eapply Forall_impl; [first [exact HA|exact HB]|]); cbv beta; intros; ord_lia. }
  destruct i, j; simpl; try done.
  - destruct (HI _ eq_refl eq_refl), (HJ _ eq_refl eq_refl).
    rewrite btree_insert_middle by done.
    rewrite (app_assoc A [_] B : A ++ _ :: B = _), btree_insert_middle; [by rewrite <-app_assoc| |done].
    apply Forall_app. split; [done|]. constructor; [eauto|done].
  - destruct (HI _ eq_refl eq_refl). by rewrite btree_insert_middle.
  - destruct (HJ _ eq_refl eq_refl). by rewrite btree_insert_middle.
Qed.

(** *** The scan and the denotation agree *)
Lemma above_start_lower e p : is_lower e = true → above_start (as_bound e) p = before e p.
Proof. by destruct e. Qed.
Lemma below_end_upper e p : is_upper e = true → below_end (as_bound e) p = negb (before e p).
Proof. destruct e; simpl; try done; intros _; rewrite (cmp_antisym p x); by destruct (cmp p x). Qed.

Lemma tree_wf_pair s :
  tree_wf s → s = [] ∨ ∃ lo hi s', s = lo :: hi :: s' ∧ is_lower lo = true ∧
    is_upper hi = true ∧ lo ≺ hi ∧ Forall (λ e, hi ≺ e) s' ∧ tree_wf s'.
Proof.
  intros (Hs & Halt & Hcut). destruct s as [|lo s]; [by left|right]. simpl in Halt.
  destruct (is_upper lo) eqn:El; simpl in Halt; [done|]. destruct s as [|hi s]; simpl in Halt; [done|].
  destruct (is_upper hi) eqn:Eh; simpl in Halt; [|done].
  rewrite !sorted_cons in Hs. destruct Hs as [[Hs Hhi] Hlo].
  exists lo, hi, s. apply Forall_cons in Hlo as [? _].
  unfold is_upper in El. apply negb_false_iff in El. split_and!; try done.
  split_and!; [done|done|]. intros; apply Hcut; by apply elem_of_further, elem_of_further.
Qed.

Lemma covered_none_before s p inside :
  Forall (λ e, before e p = false) s → covered inside s p = inside.
Proof. destruct 1 as [|e s He]; simpl; [done|]. by rewrite He. Qed.

Lemma Forall_before_anti e s p :
  Forall (λ e', e ≺ e') s → before e p = false → Forall (λ e', before e' p = false) s.
Proof.
  intros Hs He. eapply Forall_impl; [exact Hs|]. cbv beta. intros e' He'.
  eapply before_anti; [|done]. congruence.
Qed.

Lemma tree_points_covered s p : tree_wf s → tree_points s p = covered false s p.
Proof.
  remember (length s) as n eqn:Hn. revert s Hn.
  induction n as [n IH] using lt_wf_ind. intros s -> Hwf.
  destruct (tree_wf_pair s Hwf) as [->|(lo & hi & s' & -> & Hlo & Hhi & Hlt & Hf & Hwf')]; [done|].
  unfold tree_points. simpl. fold (tree_points s' p). rewrite (IH (length s')) by (simpl; auto).
  unfold in_range; simpl. rewrite above_start_lower, below_end_upper by done.
  destruct (before hi p) eqn:Eh; [by rewrite (before_mono lo hi p) by (done || congruence)|].
  rewrite (covered_none_before s') by eauto using Forall_before_anti.
  by rewrite orb_false_r, andb_true_r; destruct (before lo p).
Qed.

Lemma sorted_before_split s p :
  sorted s → ∃ A B, s = A ++ B ∧ Forall (λ e, before e p = true) A ∧
    Forall (λ e, before e p = false) B.
Proof.
  induction 1 as [|e s Hs IH Hf]; [by exists [], []|].
  destruct IH as (A & B & -> & HA & HB). destruct (before e p) eqn:E.
  - exists (e :: A), B. split_and!; [done|by constructor|done].
  - exists [], (e :: A ++ B). split_and!; [done|done|]. constructor; [done|].
    by apply (Forall_before_anti e).
Qed.

(** Points relative to the split of a tree: below, inside and above the range. *)
Lemma split_before s lo hi A R B i j p :
  tree_split s lo hi A R B i j → lo ≼ hi →
  (before lo p = true → Forall (λ e, before e p = true) A) ∧
  (before lo p = false → Forall (λ e, before e p = false) (R ++ B)) ∧
  (before hi p = true → Forall (λ e, before e p = true) (A ++ R)) ∧
  (before hi p = false → Forall (λ e, before e p = false) B).
Proof.
  intros [_ HA HR HB _ _ _ _ _ _] Hle. rewrite !Forall_app, !Forall_forall in *.
  split_and!; intros Hp; split_and?; intros e He.
  - apply (before_mono e lo); [|done]. specialize (HA e He). congruence.
  - apply (before_anti lo e); [|done]. by destruct (HR e He).
  - apply (before_anti lo e); [|done]. specialize (HB e He). ord_lia.
  - apply (before_mono e hi); [|done]. specialize (HA e He). ord_lia.
  - apply (before_mono e hi); [|done]. by destruct (HR e He).
  - apply (before_anti hi e); [|done]. specialize (HB e He). congruence.
Qed.

Lemma same_cut_lt e1 e2 : same_cut e1 e2 = true → e1 ≺ e2.
Proof.
  rewrite endpoint_cmp_eq. destruct e1, e2; simpl; try done; intros; ord_lia.
Qed.

(** Nothing lies strictly between two endpoints at the same cut. *)
Lemma same_cut_between e1 e e2 : e1 ≺ e → e ≺ e2 → same_cut e1 e2 = false.
Proof.
  rewrite !endpoint_cmp_eq. destruct e1, e2; simpl; try done; destruct e; simpl; try done; ord_lia.
Qed.

Lemma same_cut_shape e b :
  same_cut e (lower b) = false ∧ same_cut (upper b) e = false ∧
  same_cut e (lower_complement b) = false ∧ same_cut (upper_complement b) e = false.
Proof. by destruct e, b. Qed.

Lemma range_valid_cut r : range_valid r = true → same_cut (lower r.1) (upper r.2) = false.
Proof.
  unfold range_valid. destruct r as [[] []]; simpl; try done; repeat case_match; done.
Qed.

(** Complementing an endpoint of a range moves it across its cut. *)
Lemma same_cut_complement e b :
  (e ≺ lower b → same_cut e (upper_complement b) = false) ∧
  (upper b ≺ e → same_cut (lower_complement b) e = false).
Proof. rewrite !endpoint_cmp_eq. destruct e, b; simpl; split; try done; ord_lia. Qed.

(** A replacement [m1 ++ m2] of the swallowed endpoints, whose first part sits
    at the cut of [lo] and second part at the cut of [hi]. *)
Lemma splice_wf s lo hi A R B i j m1 m2 k :
  tree_split s lo hi A R B i j →
  alt_run i m1 = Some k → alt_run k m2 = Some j →
  sorted (m1 ++ m2) →
  (∀ e e', e ∈ m1 ++ m2 → e' ∈ A → e' ≺ e ∧ same_cut e' e = false) →
  (∀ e e', e ∈ m1 ++ m2 → e' ∈ B → e ≺ e' ∧ same_cut e e' = false) →
  (∀ e e', e ∈ m1 ++ m2 → e' ∈ m1 ++ m2 → same_cut e e' = false) →
  lo ≼ hi →
  tree_wf (A ++ (m1 ++ m2) ++ B).
Proof.
  intros [-> HA HR HB HsA HsB Hi Hj Hc Hcut] H1 H2 Hs HmA HmB Hmm Hle. split_and!.
  - rewrite !Forall_forall in *. apply sorted_app. split_and!; [done| |].
    + apply sorted_app. split_and!; [done|done|]. intros; by apply HmB.
    + intros e1 e2 He1 [He2|He2]%elem_of_app; [by apply HmA|].
      specialize (HA e1 He1). specialize (HB e2 He2). ord_lia.
  - rewrite !alt_run_app, Hi. simpl. rewrite !alt_run_app, H1. simpl. by rewrite H2.
  - assert (∀ e e', e ≺ e' → same_cut e' e = false) as Hback by
      (intros e e' He; destruct (same_cut e' e) eqn:E; [apply same_cut_lt in E; ord_lia|done]).
    intros e1 e2. rewrite !(elem_of_app A), !(elem_of_app (m1 ++ m2)).
    intros [He1|[He1|He1]] [He2|[He2|He2]];
      try (by apply Hcut; apply elem_of_app; tauto); try by apply Hmm.
    + by apply HmA.
    + apply Hback. by apply HmA.
    + by apply HmB.
    + apply Hback. by apply HmB.
Qed.

Lemma splice_covered s lo hi A R B i j m1 m2 k p :
  tree_split s lo hi A R B i j → lo ≼ hi →
  alt_run i m1 = Some k → alt_run k m2 = Some j →
  Forall (λ e, before e p = before lo p) m1 → Forall (λ e, before e p = before hi p) m2 →
  covered false (A ++ (m1 ++ m2) ++ B) p =
  if before lo p && negb (before hi p) then k else covered false s p.
Proof.
  intros Hts Hle H1 H2 Hm1 Hm2.
  destruct (split_before _ _ _ _ _ _ _ _ p Hts Hle) as (Sa & Srb & Sar & Sb).
  destruct Hts as [-> _ _ _ _ _ Hi Hj _ _].
  destruct (before lo p) eqn:El; destruct (before hi p) eqn:Eh; simpl.
  - specialize (Sar eq_refl). rewrite (app_assoc A R B), !app_assoc.
    rewrite (covered_app_before _ (A ++ R) _ _ j); [|done|by rewrite alt_run_app, Hi].
    rewrite (covered_app_before _ ((A ++ m1) ++ m2) _ _ j); [done| |].
    + rewrite !Forall_app in *. naive_solver.
    + rewrite !alt_run_app, Hi. simpl. by rewrite H1.
  - specialize (Sa eq_refl). specialize (Sb eq_refl). rewrite <-(app_assoc m1), app_assoc.
    rewrite (covered_app_before _ (A ++ m1) _ _ k); [| |by rewrite alt_run_app, Hi].
    + apply covered_none_before. by apply Forall_app.
    + by apply Forall_app.
  - rewrite (before_mono lo hi p Hle Eh) in El. done.
  - specialize (Srb eq_refl). specialize (Sb eq_refl). rewrite !covered_app_after; [done|done|].
    rewrite !Forall_app. done.
Qed.

Lemma insert_interval_correct s r :
  tree_wf s → range_valid r = true →
  ∃ s', insert_interval s r = Some s' ∧ tree_wf s' ∧
    ∀ p, tree_points s' p = tree_points s p || in_range r p.
Proof.
  intros Hwf Hr. pose proof (range_valid_order r Hr) as (Hlt & _).
  assert (lower r.1 ≼ upper r.2) as Hle by congruence.
  destruct (tree_wf_split _ _ _ Hwf Hle) as (A & R & B & i & j & Hts).
  eexists. split; [by eapply insert_interval_shape|]. rewrite (app_assoc _ _ B).
  assert (alt_run i (if i then [] else [lower r.1]) = Some true) as H1 by
    (destruct i, r.1; done).
  assert (alt_run true (if j then [] else [upper r.2]) = Some j) as H2 by
    (destruct j, r.2; done).
  assert (tree_wf (A ++ ((if i then [] else [lower r.1]) ++ (if j then [] else [upper r.2])) ++ B))
    as Hwf'.
  { assert (∀ e, e ∈ (if i then [] else [lower r.1]) ++ (if j then [] else [upper r.2]) →
      e = lower r.1 ∨ e = upper r.2) as Hm by (destruct i, j; set_solver).
    eapply splice_wf; [done..| | | | |done]; destruct Hts as [_ HA _ HB _ _ _ _ _ _];
      rewrite ?Forall_forall in *.
    - destruct i, j; simpl; repeat constructor; done.
    - intros e e' He He'. specialize (HA e' He').
      destruct (Hm e He) as [->| ->]; split; try ord_lia; [apply same_cut_shape|].
      by apply (same_cut_between _ (lower r.1)).
    - intros e e' He He'. specialize (HB e' He').
      destruct (Hm e He) as [->| ->]; split; try ord_lia; [|apply same_cut_shape].
      by apply (same_cut_between _ (upper r.2)).
    - intros e e' He He'. destruct (Hm e He) as [->| ->]; [|apply same_cut_shape].
      destruct (Hm e' He') as [->| ->]; [apply same_cut_shape|by apply range_valid_cut]. }
  split; [done|]. intros p. rewrite !tree_points_covered by done.
  rewrite (splice_covered s _ _ A R B i j _ _ true p Hts Hle H1 H2).
  - rewrite in_range_before. destruct (_ && _); [by rewrite orb_true_r|by rewrite orb_false_r].
  - destruct i; by repeat constructor.
  - destruct j; by repeat constructor.
Qed.

Lemma remove_interval_correct s r :
  tree_wf s → range_valid r = true →
  ∃ s', remove_interval s r = Some s' ∧ tree_wf s' ∧
    ∀ p, tree_points s' p = tree_points s p && negb (in_range r p).
Proof.
  intros Hwf Hr. pose proof (range_valid_order r Hr) as (Hlt & Huc & Hlc & Hulc).
  assert (lower r.1 ≼ upper r.2) as Hle by congruence.
  destruct (tree_wf_split _ _ _ Hwf Hle) as (A & R & B & i & j & Hts).
  eexists. split; [by eapply remove_interval_shape|]. rewrite (app_assoc _ _ B).
  assert (i = true → r.1 ≠ Unbounded) as Hi by (intros ->; eauto using split_open_lower).
  assert (j = true → r.2 ≠ Unbounded) as Hj by (intros ->; eauto using split_open_upper).
  assert (alt_run i (if i then [upper_complement r.1] else []) = Some false) as H1 by
    (destruct i, r.1; done).
  assert (alt_run false (if j then [lower_complement r.2] else []) = Some j) as H2 by
    (destruct j, r.2; done).
  destruct (complement_order r.1) as [Hc1 _], (complement_order r.2) as [_ Hc2].
  assert (i = true → lower r.1 ≺ upper_complement r.1 ∧ upper_complement r.1 ≺ upper r.2) as HI
    by (intros; split; auto).
  assert (j = true → lower r.1 ≺ lower_complement r.2 ∧ lower_complement r.2 ≺ upper r.2) as HJ
    by (intros; split; auto).
  assert (tree_wf (A ++ ((if i then [upper_complement r.1] else []) ++
    (if j then [lower_complement r.2] else [])) ++ B)) as Hwf'.
  { assert (∀ e, e ∈ (if i then [upper_complement r.1] else []) ++
      (if j then [lower_complement r.2] else []) →
      (e = upper_complement r.1 ∧ i = true) ∨ (e = lower_complement r.2 ∧ j = true)) as Hm
      by (destruct i, j; set_solver).
    eapply splice_wf; [done..| | | | |done]; destruct Hts as [_ HA _ HB _ _ _ _ _ _];
      rewrite ?Forall_forall in *.
    - destruct i, j; simpl; repeat constructor; eauto.
    - intros e e' He He'. specialize (HA e' He').
      destruct (Hm e He) as [[-> Hi']|[-> Hj']];
        [destruct (HI Hi')|destruct (HJ Hj')]; split; try ord_lia; [|apply same_cut_shape].
      by apply same_cut_complement.
    - intros e e' He He'. specialize (HB e' He').
      destruct (Hm e He) as [[-> Hi']|[-> Hj']];
        [destruct (HI Hi')|destruct (HJ Hj')]; split; try ord_lia; [apply same_cut_shape|].
      by apply same_cut_complement.
    - intros e e' He He'. destruct (Hm e He) as [[-> Hi']|[-> Hj']]; [apply same_cut_shape|].
      destruct (Hm e' He') as [[-> Hi']|[-> _]]; [|apply same_cut_shape].
      destruct (same_cut _ _) eqn:E; [|done]. apply same_cut_lt in E.
      specialize (Hulc (Hi Hi') (Hj Hj')). ord_lia. }
  split; [done|]. intros p. rewrite !tree_points_covered by done.
  rewrite (splice_covered s _ _ A R B i j _ _ false p Hts Hle H1 H2).
  - rewrite in_range_before. destruct (_ && _); [by rewrite andb_false_r|by rewrite andb_true_r].
  - destruct i; repeat constructor. by apply before_upper_complement, Hi.
  - destruct j; repeat constructor. by apply before_lower_complement, Hj.
Qed.
End tree_lemmas.
