(* ===== verification/IntervalTreeProps.v ===== *)
(** * IntervalTreeProps: queries of the interval tree and its correctness theorems

    The queries of [IntervalTree] (point membership, coverage, and the
    difference and overlap iterators) against the set of points a tree denotes,
    and the correctness theorems of the whole component. *)
From S2P Require Import Prelude Intervals IntervalTree.

Section tree_queries.
Context `{Ord K}.
Implicit Types (x y p : K) (b : Bound K) (r : BoundPair K) (e lo hi : Endpoint K).
Implicit Types s A B R : list (Endpoint K).

Local Abbreviation sorted := (StronglySorted (λ e1 e2, cmp e1 e2 = Lt)).

(** The endpoints satisfying an upward-closed predicate are a suffix. *)
Lemma sorted_filter_split (P : Endpoint K → Prop) `{∀ e, Decision (P e)} s :
  sorted s → (∀ e1 e2, P e1 → e1 ≺ e2 → P e2) →
  s = filter (λ e, ¬ P e) s ++ filter P s.
Proof.
  intros Hs Hup. induction Hs as [|e s Hs IH Hf]; [done|].
  rewrite !filter_cons. destruct (decide (P e)) as [HP|HP].
  - rewrite decide_False by naive_solver. rewrite filter_none, filter_all; [done| |].
    all: eapply Forall_impl; [exact Hf|]; naive_solver.
  - rewrite decide_True by done. simpl. by f_equal.
Qed.

(** What a range query leaves: [i] tells whether it starts inside an interval. *)
Record suffix_of s A B (i : bool) : Prop := {
  sx_eq : s = A ++ B;
  sx_sorted : sorted B;
  sx_open : alt_run false A = Some i;
  sx_close : alt_run i B = Some false;
  sx_cut : ∀ e1 e2, e1 ∈ B → e2 ∈ B → same_cut e1 e2 = false;
}.

Lemma suffix_filter (P : Endpoint K → Prop) `{∀ e, Decision (P e)} s :
  tree_wf s → (∀ e1 e2, P e1 → e1 ≺ e2 → P e2) →
  ∃ i, suffix_of s (filter (λ e, ¬ P e) s) (filter P s) i.
Proof.
  intros (Hs & Halt & Hcut) Hup. pose proof (sorted_filter_split P s Hs Hup) as Heq.
  rewrite Heq in Halt. rewrite alt_run_app in Halt.
  destruct (alt_run false (filter (λ e, ¬ P e) s)) as [i|] eqn:Ei; [simpl in Halt|done].
  exists i. split; [done| |done|done|].
  - rewrite Heq in Hs. by apply sorted_app in Hs as (_ & ? & _).
  - intros e1 e2 [_ ?]%list_elem_of_filter [_ ?]%list_elem_of_filter. by apply Hcut.
Qed.

Lemma range_after_split s lo :
  tree_wf s → ∃ A i, suffix_of s A (btree_range_after s lo) i ∧
    Forall (λ e, e ≼ lo) A ∧ Forall (λ e, lo ≺ e) (btree_range_after s lo).
Proof.
  intros Hwf. destruct (suffix_filter (λ e, lo ≺ e) s Hwf) as [i Hi]; [intros; ord_lia|].
  exists (filter (λ e, ¬ lo ≺ e) s), i. split_and!; [done| |].
  - apply Forall_forall. intros e [He _]%list_elem_of_filter. ord_lia.
  - apply Forall_forall. by intros e [He _]%list_elem_of_filter.
Qed.

Lemma range_from_split s lo :
  tree_wf s → ∃ A i, suffix_of s A (btree_range_from s lo) i ∧
    Forall (λ e, e ≺ lo) A ∧ Forall (λ e, lo ≼ e) (btree_range_from s lo).
Proof.
  intros Hwf. destruct (suffix_filter (λ e, lo ≼ e) s Hwf) as [i Hi]; [intros; ord_lia|].
  exists (filter (λ e, ¬ lo ≼ e) s), i. split_and!; [done| |].
  - apply Forall_forall. intros e [He _]%list_elem_of_filter.
    destruct (cmp lo e) eqn:E; try ord_lia. all: exfalso; apply He; congruence.
  - apply Forall_forall. by intros e [He _]%list_elem_of_filter.
Qed.

Lemma suffix_covered s A B i p :
  suffix_of s A B i → Forall (λ e, before e p = true) A → covered false s p = covered i B p.
Proof. intros [-> _ Hi _ _] HA. by apply covered_app_before. Qed.

Lemma Forall_le_before lo A p :
  Forall (λ e, e ≼ lo) A → before lo p = true → Forall (λ e, before e p = true) A.
Proof. intros HA Hlo. eapply Forall_impl; [exact HA|]. eauto using before_mono. Qed.

Lemma contains_point_correct s p : tree_wf s → contains_point s p = tree_points s p.
Proof.
  intros Hwf. rewrite tree_points_covered by done. unfold contains_point.
  destruct (range_after_split s (LowerInclusive p) Hwf) as (A & i & Hsx & HA & HB).
  rewrite (suffix_covered s A _ i p Hsx).
  2: { eapply Forall_le_before; [exact HA|]. simpl. by rewrite cmp_refl. }
  destruct Hsx as [_ Hs _ Hc _]. destruct (btree_range_after _ _) as [|e B]; simpl; [naive_solver|].
  apply sorted_cons in Hs as [Hs He]. apply Forall_cons in HB as [Hp HB].
  simpl in Hc. destruct (is_upper e) eqn:Eu, i; simpl in Hc; try done.
  - destruct (before e p) eqn:Eb.
    + rewrite covered_none_before.
      * rewrite endpoint_cmp_eq in Hp. destruct e; simpl in *; try done; ord_lia.
      * rewrite endpoint_cmp_eq in Hp. destruct e; simpl in *; try done; [|ord_lia].
        eapply Forall_impl; [exact He|]. cbv beta. intros e' He'. rewrite endpoint_cmp_eq in He'.
        destruct e'; simpl in *; try done; ord_lia.
    + destruct e; simpl in *; try done; ord_lia.
  - assert (before e p = false) as ->
      by (rewrite endpoint_cmp_eq in Hp; destruct e; simpl in *; try done; ord_lia).
    by destruct e.
Qed.

(** *** Coverage *)
Lemma covers_start_endpoint b1 b2 : covers_start b1 b2 = is_le (cmp (lower b1) (lower b2)).
Proof. rewrite endpoint_cmp_eq. destruct b1, b2; simpl; try done; by destruct (cmp x x0). Qed.
Lemma covers_end_endpoint b1 b2 : covers_end b1 b2 = is_ge (cmp (upper b1) (upper b2)).
Proof. rewrite endpoint_cmp_eq. destruct b1, b2; simpl; try done; by destruct (cmp x x0). Qed.
Lemma lower_as_bound e : is_lower e = true → lower (as_bound e) = e.
Proof. by destruct e. Qed.
Lemma upper_as_bound e : is_upper e = true → upper (as_bound e) = e.
Proof. by destruct e. Qed.

Definition interval_covers (i r : BoundPair K) : bool := covers_start i.1 r.1 && covers_end i.2 r.2.

Lemma interval_covers_endpoint l h r :
  is_lower l = true → is_upper h = true →
  interval_covers (as_bound l, as_bound h) r =
  is_le (cmp l (lower r.1)) && is_ge (cmp h (upper r.2)).
Proof.
  intros. unfold interval_covers. simpl.
  by rewrite covers_start_endpoint, covers_end_endpoint, lower_as_bound, upper_as_bound.
Qed.

Lemma interval_covers_above s r :
  tree_wf s → Forall (λ e, lower r.1 ≺ e) s → existsb (λ i, interval_covers i r) (intervals s) = false.
Proof.
  remember (length s) as n eqn:Hn. revert s Hn.
  induction n as [n IH] using lt_wf_ind. intros s -> Hwf Hf.
  destruct (tree_wf_pair s Hwf) as [->|(l & h & s' & -> & Hl & Hh & Hlt & Hf' & Hwf')]; [done|].
  rewrite !Forall_cons in Hf. destruct Hf as (Hl' & _ & Hs'). simpl.
  rewrite (IH (length s')) by (simpl; auto). rewrite interval_covers_endpoint by done.
  rewrite orb_false_r. apply andb_false_iff. left. ord_lia.
Qed.

Lemma covers_interval_correct s r :
  tree_wf s → range_valid r = true →
  covers_interval s r = Some (existsb (λ i, interval_covers i r) (intervals s)).
Proof.
  intros Hwf Hr. unfold covers_interval. rewrite endpoint_pair_valid by done. simpl. f_equal.
  pose proof (range_valid_order r Hr) as (Hlt & _). unfold btree_range_after.
  remember (length s) as n eqn:Hn. revert s Hn Hwf.
  induction n as [n IH] using lt_wf_ind. intros s -> Hwf.
  destruct (tree_wf_pair s Hwf) as [->|(l & h & s' & -> & Hl & Hh & Hlh & Hf & Hwf')]; [done|].
  rewrite !filter_cons. simpl. rewrite interval_covers_endpoint by done.
  destruct (decide (lower r.1 ≺ l)) as [Hgt|Hgt].
  - simpl. rewrite interval_covers_above; [|done|eapply Forall_impl; [exact Hf|]; cbv beta; intros; ord_lia].
    assert (is_le (cmp l (lower r.1)) = false) as -> by ord_lia. simpl.
    destruct l; simpl in *; try done.
  - assert (is_le (cmp l (lower r.1)) = true) as -> by ord_lia. simpl.
    destruct (decide (lower r.1 ≺ h)) as [Hgt'|Hgt'].
    + simpl. rewrite interval_covers_above; [|done|eapply Forall_impl; [exact Hf|]; cbv beta; intros; ord_lia].
      rewrite orb_false_r. destruct h; simpl in *; try done. by destruct r.2.
    + assert (is_ge (cmp h (upper r.2)) = false) as -> by ord_lia. simpl.
      apply (IH (length s')); simpl; auto.
Qed.

Lemma interval_covers_points s r p :
  existsb (λ i, interval_covers i r) (intervals s) = true → in_range r p = true →
  tree_points s p = true.
Proof.
  rewrite !existsb_exists. intros (i & Hi & Hc) Hp. apply existsb_exists. exists i. split; [done|].
  unfold interval_covers, in_range in *. rewrite andb_true_iff in *.
  destruct Hc, Hp. eauto using covers_start_sound, covers_end_sound.
Qed.

(** *** The difference iterator *)
Lemma diff_max_bound_upper ub e res ub' :
  is_upper e = true → diff_max_bound (Some ub) (as_bound e) = (res, ub') →
  (∃ b, res = Some b ∧ ub' = Some ub ∧ ∀ p, above_start b p = before e p) ∨
  ((res = None ∨ ub' = None) ∧ ∀ p, before e p = true → below_end ub p = false).
Proof.
  intros He. destruct e, ub; simpl in *; try done;
    repeat (case_match; simplify_eq/=); intros; simplify_eq/=.
  all: first [left; eexists; split_and!; [done|done|intros p; simpl; try done; ord_lia]
             |right; split; [tauto|intros p; simpl; try done; ord_lia]].
Qed.

Lemma diff_max_bound_lower ub e res ub' :
  is_lower e = true → e ≠ LowerUnbounded → diff_max_bound (Some ub) (as_bound e) = (res, ub') →
  ∃ b, res = Some b ∧ (∀ p, below_end b p = below_end ub p && negb (before e p)) ∧
    (ub' = Some ub ∨
     (ub' = None ∧ ∀ p e', e ≺ e' → is_upper e' = true → same_cut e e' = false →
        before e p = true → below_end ub p = true → before e' p = false)).
Proof.
  intros He Hne. destruct e, ub; simpl in *; try done;
    repeat (case_match; simplify_eq/=); intros; simplify_eq/=.
  all: eexists; split_and!; [done|intros p; simpl; rewrite ?andb_true_r; ord_lia|].
  all: first [by left | right; split; [done|]; intros p e' Hlt Hu' Hcut;
    rewrite endpoint_cmp_eq in Hlt; destruct e'; simpl in *; try done; ord_lia].
Qed.

(** Once the upper bound has been returned the iterator yields nothing more. *)
Lemma diff_collect_done fuel lb inner i :
  alt_run i inner = Some false → i = true ∨ inner = [] →
  iter_collect diff_next (S fuel) {| it_lower := lb; it_upper := None; it_inner := inner |} = Some [].
Proof.
  destruct inner as [|e inner]; simpl; intros Halt Hi.
  - unfold diff_next; simpl. by destruct lb.
  - destruct Hi as [->|]; [|done]. unfold diff_next; simpl. unfold is_upper in Halt.
    by destruct (is_lower e).
Qed.

Lemma sorted_not_lower_unbounded e1 e2 : e1 ≺ e2 → e2 ≠ LowerUnbounded.
Proof. intros Hlt ->. by destruct e1. Qed.

Lemma iter_collect_S next fuel (it : @IntervalIter K) :
  iter_collect next (S fuel) it =
  '(item, it') ← next it;
  match item with None => Some [] | Some r => cons r <$> iter_collect next fuel it' end.
Proof. reflexivity. Qed.

Lemma diff_next_upper lb ub u inner :
  is_lower u = false →
  diff_next {| it_lower := lb; it_upper := ub; it_inner := u :: inner |} =
  Some (iter_pair diff_max_bound
    {| it_lower := lb; it_upper := ub; it_inner := u :: inner |} u inner).
Proof. unfold diff_next. simpl. by intros ->. Qed.

(** The loop over the holes of the tree: started inside an interval it yields
    exactly the uncovered points below the upper bound. *)
Lemma diff_collect_loop n inner ub lb fuel :
  length inner ≤ n → length inner < fuel → sorted inner → alt_run true inner = Some false →
  (∀ e1 e2, e1 ∈ inner → e2 ∈ inner → same_cut e1 e2 = false) →
  ∃ D, iter_collect diff_next fuel
         {| it_lower := lb; it_upper := Some ub; it_inner := inner |} = Some D ∧
    ∀ p, existsb (λ r, in_range r p) D = negb (covered true inner p) && below_end ub p.
Proof.
  revert inner lb fuel. induction n as [|n IH]; intros inner lb fuel Hn Hfuel Hs Halt Hcut;
    (destruct inner as [|u inner]; [done|]); simpl in Hn; [lia|].
  destruct fuel as [|fuel]; [simpl in Hfuel; lia|].
  simpl in Halt. destruct (is_upper u) eqn:Hu; simpl in Halt; [|done].
  apply sorted_cons in Hs as [Hs Hf].
  unfold is_upper in Hu. apply negb_true_iff in Hu as Hl.
  rewrite iter_collect_S, diff_next_upper by done. unfold iter_pair. simpl it_upper.
  destruct (diff_max_bound (Some ub) (as_bound u)) as [res ub'] eqn:E1.
  destruct (diff_max_bound_upper ub u res ub') as [(lo & -> & -> & Hlo)|[Hor Hout]];
    [by unfold is_upper; rewrite Hl|done| |].
  2: { exists []. split.
       - destruct res as [lo|]; [|reflexivity]. destruct Hor as [?| ->]; [done|].
         destruct inner; reflexivity.
       - intros p. simpl. specialize (Hout p). destruct (before u p); simpl; [|done].
         rewrite Hout by done. by rewrite andb_false_r. }
  destruct inner as [|l inner].
  { eexists. simpl.
    destruct fuel as [|fuel]; [simpl in Hfuel; lia|].
    rewrite (diff_collect_done fuel lb [] false) by (done || by right). simpl.
    split; [done|]. intros p. simpl. unfold in_range; simpl. rewrite Hlo.
    by destruct (before u p), (below_end ub p). }
  simpl in Halt. destruct (is_upper l) eqn:Hul; simpl in Halt; [done|].
  apply sorted_cons in Hs as [Hs Hf2]. apply Forall_cons in Hf as [Hul' _].
  destruct (diff_max_bound (Some ub) (as_bound l)) as [res2 ub2] eqn:E2.
  destruct (diff_max_bound_lower ub l res2 ub2) as (hi & -> & Hhi & Hub2);
    [unfold is_upper in Hul; by apply negb_false_iff|by eapply sorted_not_lower_unbounded|done|].
  simpl. destruct Hub2 as [->|[-> Hout]].
  - destruct (IH inner lb fuel) as (D & HD & HDp); [simpl in *; lia..|done|done|set_solver|].
    rewrite HD. simpl. eexists. split; [done|]. intros p. simpl. rewrite HDp.
    unfold in_range; simpl. rewrite Hlo, Hhi.
    destruct (before u p) eqn:Eu.
    + destruct (before l p) eqn:El; simpl; [by rewrite andb_false_r|].
      rewrite (covered_none_before inner) by eauto using Forall_before_anti.
      by rewrite andb_true_r, orb_false_r.
    + assert (before l p = false) as El by (eapply before_anti; [|exact Eu]; congruence).
      rewrite (covered_none_before inner) by eauto using Forall_before_anti. done.
  - destruct fuel as [|fuel]; [simpl in *; lia|].
    rewrite (diff_collect_done fuel lb inner true) by tauto. simpl.
    eexists. split; [done|]. intros p. simpl. unfold in_range; simpl. rewrite Hlo, Hhi, orb_false_r.
    destruct inner as [|u2 inner]; [done|]. simpl in Halt.
    destruct (is_upper u2) eqn:Hu2; [|done].
    specialize (Hout p u2). apply Forall_cons in Hf2 as [Hlu2 _]. simpl.
    rewrite Hcut in Hout by set_solver.
    destruct (before u p), (before l p), (below_end ub p); simpl; try done;
      rewrite ?andb_false_r; try done. by rewrite Hout.
Qed.

(** What [get_interval_difference] starts from: the endpoints after the start of
    the range. *)
Definition diff_start s b : list (Endpoint K) :=
  match b with
  | Included v => btree_range_from s (UpperExclusive v)
  | Excluded v => btree_range_after s (UpperInclusive v)
  | Unbounded => btree_range_after s LowerUnbounded
  end.

Lemma diff_start_spec s b :
  tree_wf s → ∃ A i, suffix_of s A (diff_start s b) i ∧
    (∀ p, above_start b p = true → Forall (λ e, before e p = true) A) ∧
    (∀ p, above_start b p = false → Forall (λ e, before e p = false) (diff_start s b)) ∧
    Forall (λ e, e ≠ LowerUnbounded) (diff_start s b).
Proof.
  intros Hwf. destruct b as [v|v|]; simpl.
  - destruct (range_from_split s (UpperExclusive v) Hwf) as (A & i & Hsx & HA & HB).
    exists A, i. split_and!; [done| | |].
    + intros p Hp. eapply Forall_impl; [exact HA|]. cbv beta. intros e He.
      apply (before_mono e (UpperExclusive v)); [congruence|done].
    + intros p Hp. eapply Forall_impl; [exact HB|]. cbv beta. intros e He.
      by apply (before_anti (UpperExclusive v) e).
    + eapply Forall_impl; [exact HB|]. cbv beta. by intros e He ->.
  - destruct (range_after_split s (UpperInclusive v) Hwf) as (A & i & Hsx & HA & HB).
    exists A, i. split_and!; [done| | |].
    + intros p Hp. eapply Forall_le_before; [exact HA|done].
    + intros p Hp. eapply Forall_before_anti; [exact HB|done].
    + eapply Forall_impl; [exact HB|]. cbv beta. by intros e He ->.
  - destruct (range_after_split s LowerUnbounded Hwf) as (A & i & Hsx & HA & HB).
    exists A, i. split_and!; [done| |done|].
    + intros p Hp. eapply Forall_le_before; [exact HA|done].
    + eapply Forall_impl; [exact HB|]. cbv beta. by intros e He ->.
Qed.

Lemma diff_next_lower b ub l inner :
  is_lower l = true →
  diff_next {| it_lower := Some b; it_upper := ub; it_inner := l :: inner |} =
  let '(hi, ub') := diff_max_bound ub (as_bound l) in
  Some ((λ h, (b, h)) <$> hi, {| it_lower := None; it_upper := ub'; it_inner := inner |}).
Proof. unfold diff_next. simpl. by intros ->. Qed.

(** Started outside every interval, the first item runs from the start of the
    range to the first interval. *)
Lemma diff_collect_outside l inner ub b fuel :
  is_lower l = true → l ≠ LowerUnbounded → S (length inner) < fuel →
  sorted (l :: inner) → alt_run true inner = Some false →
  (∀ e1 e2, e1 ∈ l :: inner → e2 ∈ l :: inner → same_cut e1 e2 = false) →
  ∃ D, iter_collect diff_next fuel
         {| it_lower := Some b; it_upper := Some ub; it_inner := l :: inner |} = Some D ∧
    ∀ p, existsb (λ r', in_range r' p) D =
      below_end ub p && (if before l p then negb (covered true inner p) else above_start b p).
Proof.
  intros Hl Hlu Hfuel Hs Hc Hcut. apply sorted_cons in Hs as [Hs Hf].
  destruct fuel as [|fuel]; [lia|]. rewrite iter_collect_S, diff_next_lower by done.
  destruct (diff_max_bound (Some ub) (as_bound l)) as [res ub2] eqn:E2.
  destruct (diff_max_bound_lower ub l res ub2) as (hi & -> & Hhi & Hub2); [done..|]. simpl.
  destruct Hub2 as [->|[-> Hout]].
  - destruct (diff_collect_loop (length inner) inner ub None fuel)
      as (D & HD & HDp); [lia|lia|done|done|set_solver|].
    exists ((b, hi) :: D). split; [by rewrite HD|]. intros p. simpl. rewrite HDp.
    unfold in_range; simpl. rewrite Hhi. destruct (before l p) eqn:Eb; simpl.
    + by rewrite !andb_false_r, andb_comm.
    + rewrite (covered_none_before inner) by eauto using Forall_before_anti.
      by rewrite andb_true_r, orb_false_r, andb_comm.
  - destruct fuel as [|fuel]; [lia|]. rewrite (diff_collect_done _ None inner true) by tauto.
    exists [(b, hi)]. split; [done|]. intros p. simpl.
    unfold in_range; simpl. rewrite Hhi, orb_false_r.
    destruct inner as [|u2 inner]; [done|]. simpl in Hc.
    destruct (is_upper u2) eqn:Hu2; [|done]. apply Forall_cons in Hf as [Hlu2 _].
    specialize (Hout p u2). rewrite Hcut in Hout by set_solver. simpl.
    destruct (before l p), (below_end ub p), (above_start b p); simpl; try done; by rewrite Hout.
Qed.

Lemma range_valid_check r : range_valid r = true → check_range r = Some r.
Proof.
  unfold range_valid. destruct (check_range r) eqn:E; [|done]. by rewrite (check_range_Some _ _ E).
Qed.

Lemma get_interval_difference_correct s r :
  tree_wf s → range_valid r = true →
  ∃ D, get_interval_difference s r = Some D ∧
    ∀ p, existsb (λ r', in_range r' p) D = in_range r p && negb (tree_points s p).
Proof.
  intros Hwf Hr. unfold get_interval_difference. rewrite range_valid_check by done.
  destruct r as [b ub]. simpl. fold (diff_start s b).
  destruct (diff_start_spec s b Hwf) as (A & i & Hsx & Habove & Hnot & Hlu).
  assert (∀ p, above_start b p = true → tree_points s p = covered i (diff_start s b) p) as Hpts.
  { intros p Hp. rewrite tree_points_covered by done. eauto using suffix_covered. }
  destruct Hsx as [_ Hs _ Hc Hcut]. unfold iter_fuel. cbn [it_inner].
  set (inner := diff_start s b) in *. clearbody inner. unfold in_range at 2; simpl fst; simpl snd.
  destruct i.
  - destruct (diff_collect_loop (length inner) inner ub (Some b) (S (S (length inner))))
      as (D & HD & HDp); [lia|lia|done|done|done|].
    exists D. split; [done|]. intros p. rewrite HDp. destruct (above_start b p) eqn:Ea.
    + rewrite Hpts by done. simpl. by rewrite andb_comm.
    + by rewrite (covered_none_before inner) by auto.
  - destruct inner as [|l inner].
    { exists [(b, ub)]. split; [done|]. intros p. simpl. unfold in_range; simpl.
      rewrite orb_false_r. destruct (above_start b p) eqn:Ea; [|done].
      rewrite Hpts by done. simpl. by rewrite andb_true_r. }
    simpl in Hc. destruct (is_upper l) eqn:El; [done|]. simpl in Hc.
    unfold is_upper in El. apply negb_false_iff in El. apply Forall_cons in Hlu as [Hl _].
    destruct (diff_collect_outside l inner ub b (S (S (length (l :: inner)))))
      as (D & HD & HDp); [done|done|simpl; lia|done|done|done|].
    exists D. split; [done|]. intros p. rewrite HDp.
    destruct (above_start b p) eqn:Ea.
    + rewrite Hpts by done. simpl. by destruct (before l p), (below_end ub p).
    + specialize (Hnot p Ea). apply Forall_cons in Hnot as [-> _]. by rewrite andb_false_r.
Qed.
End tree_queries.

Section tree_theorems.
Context `{Ord K}.
Implicit Types (x p : K) (r : BoundPair K) (s : list (Endpoint K)).

(** C24: Inserting an interval never panics on a valid range, keeps the
    invariant, and adds exactly the points of the range. *)
Theorem insert_interval_spec s r :
  tree_wf s → range_valid r = true →
  ∃ s', insert_interval s r = Some s' ∧ tree_wf s' ∧
    ∀ p, contains_point s' p = contains_point s p || in_range r p.
Proof.
  intros Hwf Hr. destruct (insert_interval_correct s r Hwf Hr) as (s' & Hs' & Hwf' & Hp).
  exists s'. split_and!; [done|done|]. intros p. by rewrite !contains_point_correct.
Qed.

(** Removing an interval never panics on a valid range, keeps the
    invariant, and removes exactly the points of the range. *)
Theorem remove_interval_spec s r :
  tree_wf s → range_valid r = true →
  ∃ s', remove_interval s r = Some s' ∧ tree_wf s' ∧
    ∀ p, contains_point s' p = contains_point s p && negb (in_range r p).
Proof.
  intros Hwf Hr. destruct (remove_interval_correct s r Hwf Hr) as (s' & Hs' & Hwf' & Hp).
  exists s'. split_and!; [done|done|]. intros p. by rewrite !contains_point_correct.
Qed.

(** [covers_interval] answers exactly whether one of the tree's intervals
    covers the range, and a positive answer means every point of the range is
    contained. *)
Theorem covers_interval_spec s r :
  tree_wf s → range_valid r = true →
  covers_interval s r = Some (existsb (λ i, interval_covers i r) (intervals s)) ∧
  (covers_interval s r = Some true → ∀ p, in_range r p = true → contains_point s p = true).
Proof.
  intros Hwf Hr. rewrite covers_interval_correct by done. split; [done|].
  intros [= Hc] p Hp. rewrite contains_point_correct by done. eauto using interval_covers_points.
Qed.

(** C25: [get_interval_difference] terminates without panicking and returns
    intervals that contain exactly the points of the range the tree does not
    contain. *)
Theorem get_interval_difference_spec s r :
  tree_wf s → range_valid r = true →
  ∃ D, get_interval_difference s r = Some D ∧
    ∀ p, existsb (λ r', in_range r' p) D = in_range r p && negb (contains_point s p).
Proof.
  intros Hwf Hr. destruct (get_interval_difference_correct s r Hwf Hr) as (D & HD & Hp).
  exists D. split; [done|]. intros p. by rewrite Hp, contains_point_correct.
Qed.

(** [get_interval_overlaps] is not the complement of
    [get_interval_difference]: on a range without an upper bound it misses a
    bounded interval of the tree, and on a range ending inclusively where an
    interval of the tree ends exclusively it returns a point the tree does not
    contain. *)
Theorem get_interval_overlaps_inexact x y :
  x ≺ y →
  let s1 := [LowerInclusive x; UpperInclusive x] in
  let s2 := [LowerInclusive x; UpperExclusive y] in
  tree_wf s1 ∧ contains_point s1 x = true ∧
  get_interval_overlaps s1 (Unbounded, Unbounded) = Some [] ∧
  tree_wf s2 ∧ contains_point s2 y = false ∧
  get_interval_overlaps s2 (Included x, Included y) = Some [(Included x, Included y)].
Proof.
  intros Hxy s1 s2.
  assert (cmp y x = Gt) as Hyx by ord_lia.
  assert (∀ z : K, cmp z z = Eq) as Hzz by apply cmp_refl.
  assert (tree_wf s1) as Hwf1.
  { split_and!; [|done|].
    - repeat constructor. rewrite endpoint_cmp_eq; simpl. by rewrite Hzz.
    - unfold s1. intros e1 e2. rewrite !elem_of_cons, !elem_of_nil. naive_solver. }
  assert (tree_wf s2) as Hwf2.
  { split_and!; [|done|].
    - repeat constructor. rewrite endpoint_cmp_eq; simpl. by rewrite Hxy.
    - unfold s2. intros e1 e2. rewrite !elem_of_cons, !elem_of_nil.
      intros [->|[->|[]]] [->|[->|[]]]; simpl; try done. by rewrite Hxy. }
  split_and!; [done| | |done| |].
  - rewrite contains_point_correct by done. unfold tree_points, in_range; simpl. by rewrite Hzz.
  - reflexivity.
  - rewrite contains_point_correct by done. unfold tree_points, in_range; simpl. by rewrite Hzz, Hxy.
  - unfold get_interval_overlaps. simpl. rewrite Hxy. simpl. unfold btree_range_after, s2.
    rewrite filter_cons_False by (rewrite endpoint_cmp_eq; simpl; by rewrite Hzz).
    rewrite filter_cons_True by (rewrite endpoint_cmp_eq; simpl; by rewrite Hxy).
    rewrite filter_nil. unfold iter_fuel, overlap_next; simpl. by rewrite Hzz.
Qed.
End tree_theorems.

(** Concrete trees for the witnesses. *)
Definition tree_1_5 : list (Endpoint Z) := [LowerInclusive 1%Z; UpperExclusive 5%Z].

Lemma tree_1_5_wf : tree_wf tree_1_5.
Proof.
  split_and!; [repeat constructor|reflexivity|].
  unfold tree_1_5. intros e1 e2. rewrite !elem_of_cons, !elem_of_nil.
  intros [->|[->|[]]] [->|[->|[]]]; reflexivity.
Qed.

Lemma insert_interval_spec_witness :
  ∃ s', insert_interval tree_1_5 (Included 5%Z, Included 9%Z) = Some s' ∧ tree_wf s' ∧
    ∀ p, contains_point s' p =
      contains_point tree_1_5 p || in_range (Included 5%Z, Included 9%Z) p.
Proof. exact (insert_interval_spec tree_1_5 (Included 5%Z, Included 9%Z) tree_1_5_wf eq_refl). Defined.

Lemma remove_interval_spec_witness :
  ∃ s', remove_interval tree_1_5 (Excluded 2%Z, Included 3%Z) = Some s' ∧ tree_wf s' ∧
    ∀ p, contains_point s' p =
      contains_point tree_1_5 p && negb (in_range (Excluded 2%Z, Included 3%Z) p).
Proof. exact (remove_interval_spec tree_1_5 (Excluded 2%Z, Included 3%Z) tree_1_5_wf eq_refl). Defined.

Lemma covers_interval_spec_witness :
  covers_interval tree_1_5 (Included 2%Z, Excluded 5%Z) = Some true ∧
  contains_point tree_1_5 3%Z = true.
Proof.
  split; [reflexivity|].
  apply (proj2 (covers_interval_spec tree_1_5 (Included 2%Z, Excluded 5%Z) tree_1_5_wf eq_refl));
    reflexivity.
Defined.

Lemma get_interval_difference_spec_witness :
  ∃ D, get_interval_difference tree_1_5 (Included 0%Z, Included 7%Z) = Some D ∧
    ∀ p, existsb (λ r', in_range r' p) D =
      in_range (Included 0%Z, Included 7%Z) p && negb (contains_point tree_1_5 p).
Proof.
  exact (get_interval_difference_spec tree_1_5 (Included 0%Z, Included 7%Z) tree_1_5_wf eq_refl).
Defined.

Lemma get_interval_overlaps_inexact_witness :
  get_interval_overlaps [LowerInclusive 1%Z; UpperExclusive 5%Z] (Included 1%Z, Included 5%Z) =
  Some [(Included 1%Z, Included 5%Z)].
Proof. apply (get_interval_overlaps_inexact 1%Z 5%Z). reflexivity. Defined.
