(* ===== verification/PartialMap.v ===== *)
(** * PartialMap: the map that distinguishes empty from missing keys

    Models [partial-map/src/lib.rs]: a [BTreeMap] together with the interval
    tree of the keys that are present.  A key inside the tree but not in the map
    holds the default value; a key outside the tree is a hole.  The theorems
    show that a [PartialMap] implements an abstract partial function from keys
    to values ([pm_get]), for every operation. *)
From S2P Require Import Prelude Intervals BTreeMap IntervalTree IntervalTreeProps.

(** Rust's [Default]. *)
Class Default (V : Type) := default_value : V.

Record PartialMap (K V : Type) := {
  pm_map : BTreeMap K V;
  pm_tree : IntervalTreeSet K;
  pm_empty : V;
}.
Arguments pm_map {K V}.
Arguments pm_tree {K V}.
Arguments pm_empty {K V}.
Arguments Build_PartialMap {K V}.

Section partial_map.
Context `{Ord K} {V : Type}.
Implicit Types (k : K) (v : V) (m : PartialMap K V) (r : BoundPair K).

Definition pm_new `{Default V} : PartialMap K V :=
  {| pm_map := []; pm_tree := []; pm_empty := default_value |}.

Definition pm_num_keys m : nat := length (pm_map m).

Definition pm_is_empty m : bool :=
  match pm_map m, pm_tree m with [], [] => true | _, _ => false end.

Definition pm_clear m : PartialMap K V :=
  {| pm_map := []; pm_tree := []; pm_empty := pm_empty m |}.

(** [get]: a key in the tree but not in the map reads as the empty value. *)
Definition pm_get m k : option V :=
  match bm_get (pm_map m) k with
  | None => if contains_point (pm_tree m) k then Some (pm_empty m) else None
  | res => res
  end.

Definition pm_get_key_value m k : option (K * V) :=
  match bm_get (pm_map m) k with
  | None => if contains_point (pm_tree m) k then Some (k, pm_empty m) else None
  | Some v => Some (k, v)
  end.

(** [get_mut]: the value behind the returned reference, and the map after a
    value is written through it. *)
Definition pm_get_mut `{Default V} m k : option (V * (V → PartialMap K V)) :=
  let write v := {| pm_map := bm_insert (pm_map m) k v;
                    pm_tree := pm_tree m; pm_empty := pm_empty m |} in
  match bm_get (pm_map m) k with
  | None => if contains_point (pm_tree m) k then Some (default_value, write) else None
  | Some v => Some (v, write)
  end.

Definition pm_contains_key m k : bool :=
  match bm_get (pm_map m) k with Some _ => true | None => contains_point (pm_tree m) k end.

Definition pm_contains_range m r : option bool := covers_interval (pm_tree m) r.

(** [get_interval_overlaps(range).next().is_some()]. *)
Definition pm_overlaps_range m r : option bool :=
  (λ l, match l with [] => false | _ => true end) <$> get_interval_overlaps (pm_tree m) r.

Definition pm_insert m k v : option (option V * PartialMap K V) :=
  tree ← insert_point (pm_tree m) k;
  Some (bm_get (pm_map m) k,
        {| pm_map := bm_insert (pm_map m) k v; pm_tree := tree; pm_empty := pm_empty m |}).

Definition pm_insert_range m r : option (PartialMap K V) :=
  tree ← insert_interval (pm_tree m) r;
  Some {| pm_map := pm_map m; pm_tree := tree; pm_empty := pm_empty m |}.

(** [OccupiedEntry] and [Entry]: views of one key of the map. *)
Inductive OccupiedEntry :=
  | OccDefault (k : K)
  | OccPresent (k : K) (v : V).
Inductive Entry :=
  | EntryVacant (k : K)
  | EntryOccupied (e : OccupiedEntry).

Definition pm_entry m k : Entry :=
  match bm_get (pm_map m) k with
  | None =>
      if contains_point (pm_tree m) k then EntryOccupied (OccDefault k) else EntryVacant k
  | Some v => EntryOccupied (OccPresent k v)
  end.

(** Writing a value through a reference into the underlying map. *)
Definition pm_write m (tree : IntervalTreeSet K) k v : PartialMap K V :=
  {| pm_map := bm_insert (pm_map m) k v; pm_tree := tree; pm_empty := pm_empty m |}.

(** [VacantEntry::insert]: marks the key present, then inserts. *)
Definition vacant_insert m k v : option (V * (V → PartialMap K V)) :=
  tree ← insert_point (pm_tree m) k; Some (v, pm_write m tree k).

Definition occupied_into_mut `{Default V} m (e : OccupiedEntry) : V * (V → PartialMap K V) :=
  match e with
  | OccDefault k => (default_value, pm_write m (pm_tree m) k)
  | OccPresent k v => (v, pm_write m (pm_tree m) k)
  end.

Definition entry_or_default `{Default V} m (e : Entry) : option (V * (V → PartialMap K V)) :=
  match e with
  | EntryOccupied e => Some (occupied_into_mut m e)
  | EntryVacant k => vacant_insert m k default_value
  end.

(** [range]: [inl] is [Ok], the entries in order; [inr] is [Err], the holes. *)
Definition pm_range m r : option (list (K * V) + list (BoundPair K)) :=
  diff ← get_interval_difference (pm_tree m) r;
  Some match diff with
       | [] => inl (bm_range (pm_map m) r)
       | _ => inr diff
       end.

Definition pm_remove m k : option (option V * PartialMap K V) :=
  tree ← remove_point (pm_tree m) k;
  Some (bm_get (pm_map m) k,
        {| pm_map := bm_remove (pm_map m) k; pm_tree := tree; pm_empty := pm_empty m |}).

Definition pm_remove_entry m k : option (option (K * V) * PartialMap K V) :=
  tree ← remove_point (pm_tree m) k;
  Some ((λ v, (k, v)) <$> bm_get (pm_map m) k,
        {| pm_map := bm_remove (pm_map m) k; pm_tree := tree; pm_empty := pm_empty m |}).

Definition pm_remove_range m r : option (list (K * V) * PartialMap K V) :=
  tree ← remove_interval (pm_tree m) r;
  let '(removed, rest) := bm_drain (pm_map m) r in
  Some (removed, {| pm_map := rest; pm_tree := tree; pm_empty := pm_empty m |}).

Definition pm_clone_intervals_from {V2} m (other : PartialMap K V2) : PartialMap K V :=
  {| pm_map := pm_map m; pm_tree := pm_tree other; pm_empty := pm_empty m |}.

(** [Extend]: every item marks its key present and is inserted, in order. *)
Fixpoint pm_extend m (items : list (K * V)) : option (PartialMap K V) :=
  match items with
  | [] => Some m
  | (k, v) :: items' =>
      tree ← insert_point (pm_tree m) k;
      pm_extend {| pm_map := bm_insert (pm_map m) k v; pm_tree := tree;
                   pm_empty := pm_empty m |} items'
  end.

(** The invariant: both parts well formed, and no entry in a hole. *)
Definition pm_wf m : Prop :=
  bm_wf (pm_map m) ∧ tree_wf (pm_tree m) ∧
  ∀ k v, bm_get (pm_map m) k = Some v → contains_point (pm_tree m) k = true.
End partial_map.

Section partial_map_lemmas.
Context `{Ord K} {V : Type}.
Implicit Types (k : K) (v : V) (m : PartialMap K V) (r : BoundPair K).

Lemma point_valid k : range_valid (Included k, Included k) = true.
Proof. unfold range_valid; simpl. by rewrite cmp_refl. Qed.

Lemma in_range_point k k' : in_range (Included k, Included k) k' = bool_decide (k' = k).
Proof.
  unfold in_range; simpl. case_bool_decide as Hk; [subst; by rewrite cmp_refl|]. ord_lia.
Qed.

Lemma insert_point_correct s k :
  tree_wf s → ∃ s', insert_point s k = Some s' ∧ tree_wf s' ∧
    ∀ k', contains_point s' k' = contains_point s k' || bool_decide (k' = k).
Proof.
  intros Hwf. destruct (insert_interval_correct s _ Hwf (point_valid k)) as (s' & Hs & Hwf' & Hp).
  exists s'. split_and!; [done|done|]. intros k'.
  by rewrite !contains_point_correct, Hp, in_range_point.
Qed.

Lemma remove_point_correct s k :
  tree_wf s → ∃ s', remove_point s k = Some s' ∧ tree_wf s' ∧
    ∀ k', contains_point s' k' = contains_point s k' && bool_decide (k' ≠ k).
Proof.
  intros Hwf. destruct (remove_interval_correct s _ Hwf (point_valid k)) as (s' & Hs & Hwf' & Hp).
  exists s'. split_and!; [done|done|]. intros k'.
  rewrite !contains_point_correct, Hp, in_range_point by done. by rewrite bool_decide_not.
Qed.

(** A key reads as a value exactly when the tree marks it present. *)
Lemma pm_get_present m k :
  pm_wf m → pm_get m k = if contains_point (pm_tree m) k
                          then Some (default (pm_empty m) (bm_get (pm_map m) k)) else None.
Proof.
  intros (_ & _ & Hsub). unfold pm_get. destruct (bm_get (pm_map m) k) as [v|] eqn:E; [|done].
  by rewrite (Hsub k v).
Qed.

Lemma pm_insert_correct m k v :
  pm_wf m → ∃ m', pm_insert m k v = Some (bm_get (pm_map m) k, m') ∧ pm_wf m' ∧
    pm_empty m' = pm_empty m ∧
    ∀ k', pm_get m' k' = if decide (k' = k) then Some v else pm_get m k'.
Proof.
  intros (Hb & Ht & Hsub). destruct (insert_point_correct _ k Ht) as (s & Hs & Hwf & Hp).
  unfold pm_insert. rewrite Hs. simpl. eexists. split_and!; [done| |done|].
  - split_and!; simpl; [by apply bm_insert_wf|done|]. intros k' v'. rewrite bm_get_insert, Hp.
    case_decide as Hk; [intros; by rewrite bool_decide_true, orb_true_r by done|].
    intros Hv. by rewrite (Hsub k' v').
  - intros k'. unfold pm_get; simpl. rewrite bm_get_insert, Hp.
    case_decide as Hk; [done|]. by rewrite bool_decide_false, orb_false_r.
Qed.

Lemma pm_insert_range_correct m r :
  pm_wf m → range_valid r = true → ∃ m', pm_insert_range m r = Some m' ∧ pm_wf m' ∧
    pm_empty m' = pm_empty m ∧
    ∀ k, pm_get m' k = match pm_get m k with
                       | Some v => Some v
                       | None => if in_range r k then Some (pm_empty m) else None
                       end.
Proof.
  intros (Hb & Ht & Hsub) Hr. destruct (insert_interval_correct _ r Ht Hr) as (s & Hs & Hwf & Hp).
  unfold pm_insert_range. rewrite Hs. simpl. eexists. split_and!; [done| |done|].
  - split_and!; simpl; [done|done|]. intros k v Hv.
    rewrite contains_point_correct, Hp, <-contains_point_correct by done. by rewrite (Hsub k v).
  - intros k. unfold pm_get; simpl.
    rewrite contains_point_correct, Hp, <-contains_point_correct by done.
    destruct (bm_get _ k); [done|]. by destruct (contains_point (pm_tree m) k), (in_range r k).
Qed.

Lemma pm_remove_correct m k :
  pm_wf m → ∃ m', pm_remove m k = Some (bm_get (pm_map m) k, m') ∧ pm_wf m' ∧
    pm_empty m' = pm_empty m ∧
    ∀ k', pm_get m' k' = if decide (k' = k) then None else pm_get m k'.
Proof.
  intros (Hb & Ht & Hsub). destruct (remove_point_correct _ k Ht) as (s & Hs & Hwf & Hp).
  unfold pm_remove. rewrite Hs. simpl. eexists. split_and!; [done| |done|].
  - split_and!; simpl; [by apply bm_remove_wf|done|]. intros k' v'. rewrite bm_get_remove, Hp.
    case_decide as Hk; [done|]. intros Hv. by rewrite (Hsub k' v'), bool_decide_true.
  - intros k'. unfold pm_get; simpl. rewrite bm_get_remove, Hp.
    case_decide as Hk; [by rewrite bool_decide_false, andb_false_r by naive_solver|].
    by rewrite bool_decide_true, andb_true_r.
Qed.

Lemma pm_remove_range_correct m r :
  pm_wf m → range_valid r = true →
  ∃ m', pm_remove_range m r = Some (bm_range (pm_map m) r, m') ∧ pm_wf m' ∧
    pm_empty m' = pm_empty m ∧
    ∀ k, pm_get m' k = if in_range r k then None else pm_get m k.
Proof.
  intros (Hb & Ht & Hsub) Hr. destruct (remove_interval_correct _ r Ht Hr) as (s & Hs & Hwf & Hp).
  unfold pm_remove_range. rewrite Hs. simpl.
  pose proof (λ k, bm_get_filter (λ k0, in_range r k0 = false) (pm_map m) k) as Hf.
  cbv beta in Hf. eexists. split_and!; [done| |done|].
  - split_and!; simpl; [by apply bm_wf_filter|done|]. intros k v. rewrite Hf.
    case_decide as Hk; [|done]. intros Hv.
    rewrite contains_point_correct, Hp, <-contains_point_correct, Hk by done.
    by rewrite (Hsub k v).
  - intros k. unfold pm_get; simpl. rewrite Hf, contains_point_correct, Hp, <-contains_point_correct by done.
    destruct (in_range r k) eqn:Er.
    + rewrite decide_False by done. by rewrite andb_false_r.
    + rewrite decide_True by done. by rewrite andb_true_r.
Qed.

(** [get_mut] and [entry]: what is read, and what a write through the
    reference does. *)
Lemma pm_get_mut_correct `{Default V} m k :
  pm_wf m → pm_empty m = default_value →
  match pm_get_mut m k with
  | Some (v0, write) =>
      pm_get m k = Some v0 ∧
      ∀ v, pm_wf (write v) ∧ pm_empty (write v) = pm_empty m ∧
        ∀ k', pm_get (write v) k' = if decide (k' = k) then Some v else pm_get m k'
  | None => pm_get m k = None
  end.
Proof.
  intros (Hb & Ht & Hsub) He. unfold pm_get_mut.
  destruct (bm_get (pm_map m) k) as [v0|] eqn:Ek; [|destruct (contains_point (pm_tree m) k) eqn:Ec].
  3: { unfold pm_get. by rewrite Ek, Ec. }
  all: split; [unfold pm_get; rewrite Ek, ?Ec; congruence|].
  all: intros v; split_and!; simpl; [split_and!; simpl; [by apply bm_insert_wf|done|]|done|].
  1,3: intros k' v'; rewrite bm_get_insert; case_decide; subst; eauto.
  all: intros k'; unfold pm_get; simpl; rewrite bm_get_insert; by case_decide.
Qed.

Lemma pm_entry_correct `{Default V} m k :
  pm_wf m → pm_empty m = default_value →
  ∃ v0 write, entry_or_default m (pm_entry m k) = Some (v0, write) ∧
    v0 = default default_value (pm_get m k) ∧
    ∀ v, pm_wf (write v) ∧ pm_empty (write v) = pm_empty m ∧
      ∀ k', pm_get (write v) k' = if decide (k' = k) then Some v else pm_get m k'.
Proof.
  intros Hwf He. pose proof (pm_get_mut_correct m k Hwf He) as Hmut.
  unfold pm_get_mut, pm_entry in *.
  destruct (bm_get (pm_map m) k) as [v0|] eqn:Ek;
    [|destruct (contains_point (pm_tree m) k) eqn:Ec].
  1,2: destruct Hmut as [Hg Hw]; do 2 eexists; (split_and!; [done|by rewrite Hg|done]).
  rewrite Hmut. simpl. unfold vacant_insert. destruct Hwf as (Hb & Ht & Hsub).
  destruct (insert_point_correct _ k Ht) as (s & Hs & Hwf & Hp). rewrite Hs. simpl.
  do 2 eexists. split_and!; [done|done|]. intros v. split_and!; simpl; [|done|].
  - split_and!; simpl; [by apply bm_insert_wf|done|]. intros k' v'. rewrite bm_get_insert, Hp.
    case_decide; [intros; by rewrite bool_decide_true, orb_true_r by done|].
    intros Hv. by rewrite (Hsub k' v').
  - intros k'. unfold pm_get; simpl. rewrite bm_get_insert, Hp.
    case_decide; [done|]. by rewrite bool_decide_false, orb_false_r.
Qed.

Lemma pm_range_correct m r :
  pm_wf m → range_valid r = true →
  (∃ l, pm_range m r = Some (inl l) ∧ bm_wf l ∧
     ∀ k, bm_get l k = (if in_range r k then bm_get (pm_map m) k else None) ∧
       (in_range r k = true → pm_get m k = Some (default (pm_empty m) (bm_get l k)))) ∨
  (∃ D, pm_range m r = Some (inr D) ∧ D ≠ [] ∧
     ∀ k, existsb (λ r', in_range r' k) D = true ↔ in_range r k = true ∧ pm_get m k = None).
Proof.
  intros Hwf Hr. pose proof Hwf as (Hb & Ht & Hsub).
  destruct (get_interval_difference_correct _ r Ht Hr) as (D & HD & Hp).
  unfold pm_range. rewrite HD. simpl.
  assert (∀ k, existsb (λ r', in_range r' k) D = true ↔ in_range r k = true ∧ pm_get m k = None)
    as HDk.
  { intros k. rewrite Hp, andb_true_iff, negb_true_iff, pm_get_present by done.
    rewrite <-contains_point_correct by done. destruct (contains_point (pm_tree m) k); naive_solver. }
  destruct D as [|d D]; [left|right; by eexists].
  eexists. split_and!; [done|by apply bm_wf_filter|]. intros k.
  pose proof (bm_get_filter (λ k0, in_range r k0 = true) (pm_map m) k) as Hf. cbv beta in Hf.
  unfold bm_range. rewrite Hf. split; [by destruct (in_range r k)|]. intros Hk.
  rewrite decide_True by done. specialize (HDk k). rewrite pm_get_present in * by done.
  destruct (contains_point (pm_tree m) k); [done|]. exfalso. simpl in HDk. by assert (false = true) by (by apply HDk).
Qed.

Lemma pm_extend_correct items m :
  pm_wf m → ∃ m', pm_extend m items = Some m' ∧ pm_wf m' ∧ pm_empty m' = pm_empty m ∧
    ∀ k, pm_get m' k = match bm_get (rev items) k with Some v => Some v | None => pm_get m k end.
Proof.
  revert m. induction items as [|[k v] items IH]; intros m Hwf; [by exists m|].
  destruct (pm_insert_correct m k v Hwf) as (m1 & Hins & Hwf1 & He1 & Hg1).
  unfold pm_insert in Hins. simpl. destruct (insert_point (pm_tree m) k) as [s|]; [|done].
  simpl in *. injection Hins as <-. destruct (IH _ Hwf1) as (m' & Hx & Hwf' & He' & Hg').
  exists m'. split_and!; [done|done|done|]. intros k'. rewrite Hg', Hg1.
  rewrite bm_get_app, (bm_get_cons k v []).
  destruct (bm_get (rev items) k'); [done|]. by case_decide.
Qed.
End partial_map_lemmas.

Section partial_map_theorems.
Context `{Ord K} {V : Type}.
Implicit Types (k : K) (v : V) (m : PartialMap K V) (r : BoundPair K).

(** Point writes of a [PartialMap]: [insert] returns the entry it replaces
    and [remove] the entry it deletes, both keep the invariant, and both act on
    the map as seen through [get] at that key only, [remove] leaving a hole. *)
Theorem partial_map_point_writes m k v :
  pm_wf m →
  (∃ m', pm_insert m k v = Some (bm_get (pm_map m) k, m') ∧ pm_wf m' ∧
     ∀ k', pm_get m' k' = if decide (k' = k) then Some v else pm_get m k') ∧
  (∃ m', pm_remove m k = Some (bm_get (pm_map m) k, m') ∧ pm_wf m' ∧
     ∀ k', pm_get m' k' = if decide (k' = k) then None else pm_get m k').
Proof.
  intros Hwf. split.
  - destruct (pm_insert_correct m k v Hwf) as (m' & ? & ? & _ & ?). by exists m'.
  - destruct (pm_remove_correct m k Hwf) as (m' & ? & ? & _ & ?). by exists m'.
Qed.

(** Range writes of a [PartialMap]: [insert_range] turns exactly the holes
    of the range into empty values and keeps every stored value;
    [remove_range] turns exactly the range into holes and returns its entries. *)
Theorem partial_map_range_writes m r :
  pm_wf m → range_valid r = true →
  (∃ m', pm_insert_range m r = Some m' ∧ pm_wf m' ∧
     ∀ k, pm_get m' k = match pm_get m k with
                        | Some v => Some v
                        | None => if in_range r k then Some (pm_empty m) else None
                        end) ∧
  (∃ m', pm_remove_range m r = Some (bm_range (pm_map m) r, m') ∧ pm_wf m' ∧
     ∀ k, pm_get m' k = if in_range r k then None else pm_get m k).
Proof.
  intros Hwf Hr. split.
  - destruct (pm_insert_range_correct m r Hwf Hr) as (m' & ? & ? & _ & ?). by exists m'.
  - destruct (pm_remove_range_correct m r Hwf Hr) as (m' & ? & ? & _ & ?). by exists m'.
Qed.

(** C26: [range] either returns exactly the stored entries of the range, in key
    order, and then no key of the range is a hole; or it returns a non-empty list
    of intervals that contain exactly the holes of the range. *)
Theorem partial_map_range_spec m r :
  pm_wf m → range_valid r = true →
  match pm_range m r with
  | Some (inl l) =>
      bm_wf l ∧ ∀ k, bm_get l k = (if in_range r k then bm_get (pm_map m) k else None) ∧
        (in_range r k = true → pm_get m k = Some (default (pm_empty m) (bm_get l k)))
  | Some (inr D) =>
      D ≠ [] ∧ ∀ k, existsb (λ r', in_range r' k) D = true ↔
        in_range r k = true ∧ pm_get m k = None
  | None => False
  end.
Proof.
  intros Hwf Hr. destruct (pm_range_correct m r Hwf Hr) as [(l & -> & ?)|(D & -> & ?)]; done.
Qed.
End partial_map_theorems.

#[local] Instance nat_default : Default nat := 0.

Definition pm_sample : PartialMap Z nat :=
  {| pm_map := [(2%Z, 7)]; pm_tree := tree_1_5; pm_empty := 0 |}.

Lemma pm_sample_wf : pm_wf pm_sample.
Proof.
  split_and!; [repeat constructor|apply tree_1_5_wf|].
  intros k v. simpl. destruct (cmp k 2%Z) eqn:E; simpl; try done.
  apply cmp_eq_iff in E as ->. reflexivity.
Qed.

Lemma partial_map_point_writes_witness :
  ∃ m', pm_remove pm_sample 3%Z = Some (None, m') ∧ pm_wf m' ∧
    pm_get m' 3%Z = None ∧ pm_get m' 2%Z = Some 7.
Proof.
  destruct (proj2 (partial_map_point_writes pm_sample 3%Z 1 pm_sample_wf)) as (m' & Hm & Hwf & Hg).
  exists m'. split_and!; [exact Hm|exact Hwf|rewrite Hg; reflexivity..].
Defined.

Lemma partial_map_range_writes_witness :
  ∃ m', pm_remove_range pm_sample (Included 2%Z, Unbounded) = Some ([(2%Z, 7)], m') ∧ pm_wf m' ∧
    ∀ k, pm_get m' k = if in_range (Included 2%Z, Unbounded) k then None else pm_get pm_sample k.
Proof.
  exact (proj2 (partial_map_range_writes pm_sample (Included 2%Z, Unbounded) pm_sample_wf eq_refl)).
Defined.

Lemma partial_map_range_spec_witness :
  pm_range pm_sample (Included 2%Z, Included 3%Z) = Some (inl [(2%Z, 7)]) ∧ bm_wf [(2%Z, 7)].
Proof.
  split; [reflexivity|].
  exact (proj1 (partial_map_range_spec pm_sample (Included 2%Z, Included 3%Z) pm_sample_wf eq_refl)).
Defined.
