(* ===== verification/Result.v ===== *)
(** * Result: errors and panics

    [ReadySetResult] with the errors the modelled code returns, and panics
    ([expect], [unwrap], out-of-bounds indexing, [unreachable!]) as a third
    outcome, as a monad. *)
From S2P Require Import Prelude.

(** The variants of [readyset_errors::ReadySetError] the modelled code returns. *)
Inductive ReadySetError :=
  | Internal                      (** [internal!], [invariant!] *)
  | ExpressionError               (** errors of [DfExpression::eval] *)
  | EmptyKey
  | IndexNotFound
  | Unsupported
  | FailedBaseOps
  | ReplicationOffsetLogDifferent
  | ReplicationFailed
  | DfValueConversionError
  | KeyAlreadyFilled
  | RangeAlreadyFilled
  | ReaderNotFound
  | NoSuchNode
  | InvalidNodeType
  | NodeAlreadyTaken
  | NonInternalNode
  | InvalidRecordLength
  | ViewNotYetAvailable
  | ViewDestroyed
  | ServerShuttingDown
  | UpqueryTimeout
  | InvalidQuery
  | ProjectExprInvalidColumnIndex.

#[export] Instance ReadySetError_eq_dec : EqDecision ReadySetError.
Proof. solve_decision. Defined.

Inductive result (A : Type) :=
  | Ok (a : A)
  | Err (e : ReadySetError)
  | Panic.
Arguments Ok {A}.
Arguments Err {A}.
Arguments Panic {A}.

#[export] Instance result_ret : MRet result := λ A, Ok.
#[export] Instance result_bind : MBind result := λ A B f m,
  match m with Ok a => f a | Err e => Err e | Panic => Panic end.
#[export] Instance result_fmap : FMap result := λ A B f m,
  match m with Ok a => Ok (f a) | Err e => Err e | Panic => Panic end.

(** [collect::<ReadySetResult<Vec<_>>>()]: the first failure wins. *)
Fixpoint result_mapM {A B} (f : A → result B) (l : list A) : result (list B) :=
  match l with
  | [] => Ok []
  | x :: l' => y ← f x; ys ← result_mapM f l'; Ok (y :: ys)
  end.

(** A loop with an accumulator whose body may fail. *)
Fixpoint result_foldl {A B} (f : A → B → result A) (a : A) (l : list B) : result A :=
  match l with
  | [] => Ok a
  | x :: l' => a' ← f a x; result_foldl f a' l'
  end.

(** Indexing and [unwrap]/[expect]: panics instead of [None]. *)
Definition expect {A} (o : option A) : result A :=
  match o with Some a => Ok a | None => Panic end.

Definition is_ok {A} (m : result A) : bool := match m with Ok _ => true | _ => false end.

Section result_lemmas.
Context {A B : Type}.

Lemma result_mapM_ok (f : A → result B) (g : A → B) l :
  Forall (λ x, f x = Ok (g x)) l → result_mapM f l = Ok (g <$> l).
Proof. induction 1 as [|x l Hx Hl IH]; simpl; [done|]. by rewrite Hx; simpl; rewrite IH. Qed.

Lemma result_mapM_inv (f : A → result B) l ys :
  result_mapM f l = Ok ys ↔ Forall2 (λ x y, f x = Ok y) l ys.
Proof.
  revert ys; induction l as [|x l IH]; intros ys; simpl.
  - split; [intros [= <-]; constructor|by inversion 1].
  - destruct (f x) as [y| |] eqn:E; simpl.
    + destruct (result_mapM f l) as [ys'| |] eqn:E'; simpl.
      * split; [intros [= <-]; constructor; [done|by apply IH]|].
        inversion 1 as [|? y' ? ys'' Hy Hys]; subst. apply IH in Hys. congruence.
      * split; [done|]. inversion 1 as [|? y' ? ys'' Hy Hys]; subst. apply IH in Hys. congruence.
      * split; [done|]. inversion 1 as [|? y' ? ys'' Hy Hys]; subst. apply IH in Hys. congruence.
    + split; [done|]. inversion 1; congruence.
    + split; [done|]. inversion 1; congruence.
Qed.

Lemma result_foldl_app (f : A → B → result A) a l1 l2 :
  result_foldl f a (l1 ++ l2) = (a' ← result_foldl f a l1; result_foldl f a' l2).
Proof.
  revert a; induction l1 as [|x l1 IH]; intros a; simpl; [done|].
  destruct (f a x); simpl; auto.
Qed.
End result_lemmas.
