(* ===== verification/Records.v ===== *)
(** * Records: values, rows and deltas

    Models [readyset-common/src/records.rs] and the view of values the dataflow
    operators have.  Operators move deltas: lists of positive and negative rows.
    The meaning of a delta is the signed number of occurrences it gives every row
    ([wt]); a batch takes a multiset of rows to another ([applies]).  The lemmas
    on signed sums are what the operators' correctness proofs rest on. *)
From S2P Require Import Prelude Result.

(** [DfValue] as the operators use it: a totally ordered type (values are taken
    up to [==], which the [Ord] implementation agrees with) with a distinguished
    [None] (SQL NULL).  What else an operator needs of values it takes as an
    argument. *)
Class DfVal (V : Type) := {
  dfv_ord :: Ord V;
  dfv_none : V;
}.

(** A concrete instance for evaluation: NULL, integers, and the maximum. *)
Inductive SampleVal := SNone | SInt (z : Z) | SMax.

Definition sample_cmp (a b : SampleVal) : comparison :=
  match a, b with
  | SNone, SNone => Eq | SNone, _ => Lt | _, SNone => Gt
  | SMax, SMax => Eq | SMax, _ => Gt | _, SMax => Lt
  | SInt x, SInt y => Z.compare x y
  end.

#[export] Instance sample_ord : Ord SampleVal.
Proof.
  refine {| cmp := sample_cmp |}.
  - intros [] []; simpl; try done. rewrite Z.compare_eq_iff. split; congruence.
  - intros [] []; simpl; try done. apply Z.compare_antisym.
  - intros [] [] []; simpl; try done. rewrite !Z.compare_lt_iff. lia.
Defined.

#[export] Instance sample_countable : Countable SampleVal.
Proof.
  refine (inj_countable'
    (λ v, match v with SNone => inl () | SInt z => inr (inl z) | SMax => inr (inr ()) end)
    (λ s : unit + (Z + unit), match s with inl _ => SNone | inr (inl z) => SInt z | inr (inr _) => SMax end) _).
  by intros [].
Defined.

#[export] Instance sample_val : DfVal SampleVal := {| dfv_none := SNone |}.

(** [Record]. *)
Inductive Record (V : Type) :=
  | Positive (r : list V)
  | Negative (r : list V).
Arguments Positive {V}.
Arguments Negative {V}.

Section records.
Context `{DfVal V}.
Implicit Types (r : list V) (rc : Record V) (rs : list (Record V)).

(** [rec], [row] and [into_row]. *)
Definition rec rc : list V := match rc with Positive v | Negative v => v end.
Definition is_positive rc : bool := match rc with Positive _ => true | Negative _ => false end.
Definition extract rc : list V * bool :=
  match rc with Positive v => (v, true) | Negative v => (v, false) end.
(** [From<(Vec<DfValue>, bool)>]. *)
Definition record_from (other : list V * bool) : Record V :=
  if other.2 then Positive other.1 else Negative other.1.
Definition with_row rc r : Record V :=
  match rc with Positive _ => Positive r | Negative _ => Negative r end.

Definition has rs (q : list V) (positive : bool) : bool :=
  existsb (λ rc, match rc with
                 | Positive r => if positive then bool_decide (r = q) else false
                 | Negative r => if negb positive then bool_decide (r = q) else false
                 end) rs.
Definition has_positive rs q : bool := has rs q true.
Definition has_negative rs q : bool := has rs q false.

(** *** Meaning of deltas *)
Definition sgn rc : Z := if is_positive rc then 1 else -1.

(** Number of occurrences of a row in a list of rows. *)
Fixpoint occ r (l : list (list V)) : Z :=
  match l with
  | [] => 0
  | r' :: l' => (if decide (r' = r) then 1 else 0) + occ r l'
  end.

(** Signed number of occurrences of a row in a delta. *)
Fixpoint wt r rs : Z :=
  match rs with
  | [] => 0
  | rc :: rs' => (if decide (rec rc = r) then sgn rc else 0) + wt r rs'
  end.

(** [applies old rs new]: the delta [rs] takes the multiset [old] to [new]. *)
Definition applies (old : list (list V)) rs (new : list (list V)) : Prop :=
  ∀ r, occ r new = (occ r old + wt r rs)%Z.

(** Two multisets of rows are the same. *)
Definition same_rows (l1 l2 : list (list V)) : Prop := ∀ r, occ r l1 = occ r l2.

(** A row-wise (linear) operator lifted to deltas: every record becomes the
    records of the rows its row maps to, with its sign. *)
Definition lift (g : list V → list (list V)) rs : list (Record V) :=
  rs ≫= λ rc, with_row rc <$> g (rec rc).

(** Signed sum of a function over a delta, and sum over rows. *)
Fixpoint rsum (f : list V → Z) rs : Z :=
  match rs with [] => 0 | rc :: rs' => sgn rc * f (rec rc) + rsum f rs' end.
Fixpoint zsum (f : list V → Z) (l : list (list V)) : Z :=
  match l with [] => 0 | r :: l' => f r + zsum f l' end.
End records.

Section record_lemmas.
Context `{DfVal V}.
Implicit Types (r : list V) (rc : Record V) (rs : list (Record V)) (l : list (list V)).
Implicit Types (f : list V → Z).
Open Scope Z_scope.

Lemma occ_app r l1 l2 : occ r (l1 ++ l2) = occ r l1 + occ r l2.
Proof. induction l1; simpl; lia. Qed.
Lemma wt_app r rs1 rs2 : wt r (rs1 ++ rs2) = wt r rs1 + wt r rs2.
Proof. induction rs1; simpl; lia. Qed.
Lemma rsum_app f rs1 rs2 : rsum f (rs1 ++ rs2) = rsum f rs1 + rsum f rs2.
Proof. induction rs1; simpl; lia. Qed.
Lemma zsum_app f l1 l2 : zsum f (l1 ++ l2) = zsum f l1 + zsum f l2.
Proof. induction l1; simpl; lia. Qed.

Lemma occ_nonneg r l : 0 <= occ r l.
Proof. induction l; simpl; [lia|]. case_decide; lia. Qed.
Lemma occ_pos r l : 0 < occ r l ↔ r ∈ l.
Proof.
  induction l as [|r' l IH]; simpl; [split; [lia|by intros ?%elem_of_nil]|].
  rewrite elem_of_cons, <-IH. pose proof (occ_nonneg r l). case_decide; subst; split; naive_solver lia.
Qed.
Lemma occ_zero r l : occ r l = 0 ↔ r ∉ l.
Proof. rewrite <-occ_pos. pose proof (occ_nonneg r l). lia. Qed.

Lemma wt_rsum r rs : wt r rs = rsum (λ r', if decide (r' = r) then 1 else 0) rs.
Proof. induction rs as [|rc rs IH]; simpl; [done|]. rewrite IH. case_decide; lia. Qed.
Lemma occ_zsum r l : occ r l = zsum (λ r', if decide (r' = r) then 1 else 0) l.
Proof. induction l; simpl; [done|]. lia. Qed.

Lemma wt_positive r l : wt r (Positive <$> l) = occ r l.
Proof. induction l as [|r' l IH]; csimpl; [done|]. rewrite IH. done. Qed.
Lemma wt_negative r l : wt r (Negative <$> l) = - occ r l.
Proof. induction l as [|r' l IH]; csimpl; [done|]. rewrite IH. unfold sgn; simpl. case_decide; lia. Qed.
Lemma rsum_positive f l : rsum f (Positive <$> l) = zsum f l.
Proof. induction l as [|r' l IH]; csimpl; [done|]. rewrite IH. unfold sgn; simpl. lia. Qed.
Lemma rsum_negative f l : rsum f (Negative <$> l) = - zsum f l.
Proof. induction l as [|r' l IH]; csimpl; [done|]. rewrite IH. unfold sgn; simpl. lia. Qed.

Lemma rsum_ext f g rs : (∀ rc, rc ∈ rs → f (rec rc) = g (rec rc)) → rsum f rs = rsum g rs.
Proof.
  induction rs as [|rc rs IH]; intros Hfg; simpl; [done|].
  rewrite (Hfg rc), IH; [done| |apply elem_of_here]. intros; apply Hfg. by apply elem_of_further.
Qed.
Lemma zsum_ext f g l : (∀ r, r ∈ l → f r = g r) → zsum f l = zsum g l.
Proof.
  induction l as [|r l IH]; intros Hfg; simpl; [done|].
  rewrite (Hfg r), IH; [done| |apply elem_of_here]. intros; apply Hfg. by apply elem_of_further.
Qed.
Lemma rsum_plus f g rs : rsum (λ r, f r + g r) rs = rsum f rs + rsum g rs.
Proof. induction rs; simpl; lia. Qed.
Lemma rsum_mul c f rs : rsum (λ r, c * f r) rs = c * rsum f rs.
Proof. induction rs; simpl; lia. Qed.
Lemma zsum_plus f g l : zsum (λ r, f r + g r) l = zsum f l + zsum g l.
Proof. induction l; simpl; lia. Qed.

(** Splitting off one row of a signed sum. *)
Lemma rsum_split f r rs :
  rsum f rs = wt r rs * f r + rsum f (filter (λ rc, rec rc ≠ r) rs).
Proof.
  induction rs as [|rc rs IH]; simpl; [done|].
  rewrite filter_cons. destruct (decide (rec rc = r)) as [<-|Hne].
  - rewrite decide_False by naive_solver. lia.
  - rewrite decide_True by done. simpl. lia.
Qed.

Lemma wt_filter_row r r' rs :
  wt r (filter (λ rc, rec rc ≠ r') rs) = if decide (r = r') then 0 else wt r rs.
Proof.
  induction rs as [|rc rs IH]; [by case_decide|].
  rewrite filter_cons. destruct (decide (rec rc ≠ r')) as [Hne|Heq]; cbn [wt]; rewrite IH;
    repeat case_decide; subst; try lia; exfalso; auto.
Qed.

(** A signed sum depends only on the weights of the delta. *)
Lemma rsum_zero f rs : (∀ r, wt r rs = 0) → rsum f rs = 0.
Proof.
  remember (length rs) as n eqn:Hn. revert rs Hn.
  induction n as [n IH] using lt_wf_ind. intros rs -> Hz. destruct rs as [|rc rs]; [done|].
  rewrite (rsum_split f (rec rc)), Hz.
  rewrite (IH (length (filter (λ rc', rec rc' ≠ rec rc) (rc :: rs)))).
  - lia.
  - rewrite filter_cons_False by naive_solver. simpl.
    pose proof (length_filter (λ rc', rec rc' ≠ rec rc) rs). lia.
  - done.
  - intros r. rewrite wt_filter_row. case_decide; [done|apply Hz].
Qed.

Definition flip_sign rc : Record V :=
  match rc with Positive r => Negative r | Negative r => Positive r end.
Lemma wt_flip r rs : wt r (flip_sign <$> rs) = - wt r rs.
Proof. induction rs as [|[] rs IH]; csimpl; [done|rewrite IH; unfold sgn; simpl; case_decide; lia..]. Qed.
Lemma rsum_flip f rs : rsum f (flip_sign <$> rs) = - rsum f rs.
Proof. induction rs as [|[] rs IH]; csimpl; [done|rewrite IH; unfold sgn; simpl; lia..]. Qed.

Lemma rsum_wt f rs1 rs2 : (∀ r, wt r rs1 = wt r rs2) → rsum f rs1 = rsum f rs2.
Proof.
  intros Heq. assert (rsum f (rs1 ++ (flip_sign <$> rs2)) = 0) as Hz.
  { apply rsum_zero. intros r. rewrite wt_app, wt_flip, Heq. lia. }
  rewrite rsum_app, rsum_flip in Hz. lia.
Qed.

Lemma applies_zsum f old rs new : applies old rs new → zsum f new = zsum f old + rsum f rs.
Proof.
  intros Ha. rewrite <-!rsum_positive, <-rsum_app. apply rsum_wt. intros r.
  rewrite wt_app, !wt_positive. apply Ha.
Qed.

Lemma same_rows_zsum f l1 l2 : same_rows l1 l2 → zsum f l1 = zsum f l2.
Proof. intros Hs. rewrite <-!rsum_positive. apply rsum_wt. intros r. by rewrite !wt_positive. Qed.

Lemma occ_bind r (g : list V → list (list V)) l : occ r (l ≫= g) = zsum (λ x, occ r (g x)) l.
Proof. induction l as [|x l IH]; csimpl; [done|]. by rewrite occ_app, IH. Qed.

Lemma wt_with_row r rc l : wt r (with_row rc <$> l) = sgn rc * occ r l.
Proof.
  induction l as [|x l IH]; csimpl; [lia|]. rewrite IH.
  destruct rc; unfold sgn; simpl; case_decide; lia.
Qed.

Lemma wt_lift r (g : list V → list (list V)) rs : wt r (lift g rs) = rsum (λ x, occ r (g x)) rs.
Proof.
  unfold lift. induction rs as [|rc rs IH]; csimpl; [done|]. by rewrite wt_app, IH, wt_with_row.
Qed.

(** Linear operators commute with applying deltas. *)
Lemma applies_lift (g : list V → list (list V)) old rs new :
  applies old rs new → applies (old ≫= g) (lift g rs) (new ≫= g).
Proof. intros Ha r. rewrite !occ_bind, wt_lift. by apply applies_zsum. Qed.

Lemma applies_app old1 rs1 new1 old2 rs2 new2 :
  applies old1 rs1 new1 → applies old2 rs2 new2 →
  applies (old1 ++ old2) (rs1 ++ rs2) (new1 ++ new2).
Proof. intros H1 H2 r. rewrite !occ_app, wt_app, H1, H2. lia. Qed.

Lemma applies_trans l1 rs1 l2 rs2 l3 :
  applies l1 rs1 l2 → applies l2 rs2 l3 → applies l1 (rs1 ++ rs2) l3.
Proof. intros H1 H2 r. rewrite H2, H1, wt_app. lia. Qed.

Lemma occ_perm r l1 l2 : l1 ≡ₚ l2 → occ r l1 = occ r l2.
Proof. induction 1; simpl; lia. Qed.

Lemma same_rows_perm l1 l2 : same_rows l1 l2 ↔ l1 ≡ₚ l2.
Proof.
  split; [|intros Hp r; by apply occ_perm].
  revert l2. induction l1 as [|r l1 IH]; intros l2 Hs.
  - destruct l2 as [|r l2]; [done|]. specialize (Hs r). simpl in Hs.
    pose proof (occ_nonneg r l2). rewrite decide_True in Hs by done. lia.
  - assert (r ∈ l2) as Hin.
    { apply occ_pos. rewrite <-Hs. simpl. rewrite decide_True by done.
      pose proof (occ_nonneg r l1). lia. }
    apply list_elem_of_split in Hin as (l21 & l22 & ->).
    rewrite <-Permutation_middle. constructor. apply IH. intros r'.
    specialize (Hs r'). rewrite occ_app in *. simpl in Hs. lia.
Qed.

Lemma applies_same old1 old2 rs new1 new2 :
  same_rows old1 old2 → same_rows new1 new2 → applies old1 rs new1 → applies old2 rs new2.
Proof. intros H1 H2 Ha r. rewrite <-H1, <-H2. apply Ha. Qed.
End record_lemmas.
