(* ===== verification/OpLinear.v ===== *)
(** * OpLinear: the row-wise operators

    Models [readyset-dataflow/src/ops/identity.rs], [filter.rs] and
    [project.rs].  The theorems show that each operator maintains its view
    incrementally (its output delta takes the view of the old input to the view
    of the new input), that an expression error fails the batch, and how
    [query_through], which recomputes rows on reads, relates to [on_input],
    which computes them on writes.

    An expression is an arbitrary fallible function of a row here; the evaluation of
    expressions is modelled in [Expressions]. *)
From S2P Require Import Prelude Result Records.

Section linear.
Context `{DfVal V}.
Implicit Types (r : list V) (rc : Record V) (rs : list (Record V)).

(** [Expr::eval] of one expression. *)
Local Abbreviation Expr := (list V → result V).

(** *** Identity *)
Definition identity_on_input rs : result (list (Record V)) := Ok rs.

(** *** Filter: the expression, and [DfValue::is_truthy] *)
Record Filter := {
  filter_expression : Expr;
  filter_is_truthy : V → bool;
}.

Fixpoint filter_on_input (f : Filter) rs : result (list (Record V)) :=
  match rs with
  | [] => Ok []
  | rc :: rs' =>
      v ← filter_expression f (rec rc);
      results ← filter_on_input f rs';
      Ok (if filter_is_truthy f v then rc :: results else results)
  end.

(** [query_through]: [None] is a miss; every row may carry an error. *)
Definition filter_query_through (f : Filter) (lookup : option (list (result (list V)))) :
    option (list (result (list V))) :=
  rows ← lookup;
  Some (rows ≫= λ row,
    match row with
    | Ok data =>
        match filter_expression f data with
        | Ok v => if filter_is_truthy f v then [Ok data] else []
        | Err e => [Err e]
        | Panic => [Panic]
        end
    | e => [e]
    end).

(** *** Project *)
Record Project := {
  proj_emit : option (list nat);
  proj_additional : option (list V);
  proj_expressions : option (list Expr);
  proj_cols : nat;
}.

Definition project_new (emit : list nat) (additional : option (list V))
    (expressions : option (list Expr)) : Project :=
  {| proj_emit := Some emit; proj_additional := additional;
     proj_expressions := expressions; proj_cols := 0 |}.

(** [on_connected]: learns the number of columns of the parent. *)
Definition project_on_connected (p : Project) (parent_cols : nat) : Project :=
  {| proj_emit := proj_emit p; proj_additional := proj_additional p;
     proj_expressions := proj_expressions p; proj_cols := parent_cols |}.

(** [on_commit]: drops an [emit] that permutes nothing. *)
Definition project_on_commit (p : Project) : Project :=
  {| proj_emit :=
       emit ← proj_emit p;
       let complete := (length emit =? proj_cols p) &&
         match proj_additional p with None => true | _ => false end &&
         match proj_expressions p with None => true | _ => false end in
       let sequential := forallb (λ ij, fst ij =? snd ij) (zip (seq 0 (length emit)) emit) in
       if complete && sequential then None else Some emit;
     proj_additional := proj_additional p;
     proj_expressions := proj_expressions p; proj_cols := proj_cols p |}.

(** The body of the loop of [on_input]: an expression that fails yields NULL,
    an index outside the row panics. *)
Definition project_row (p : Project) r : result (list V) :=
  match proj_emit p with
  | None => Ok r
  | Some emit =>
      cols ← result_mapM (λ i, expect (r !! i)) emit;
      let exprs := match proj_expressions p with
                   | None => []
                   | Some es => (λ e : Expr, match e r with Ok v => v | _ => dfv_none end) <$> es
                   end in
      Ok (cols ++ exprs ++ default [] (proj_additional p))
  end.

Fixpoint project_on_input (p : Project) rs : result (list (Record V)) :=
  match rs with
  | [] => Ok []
  | rc :: rs' =>
      new_r ← project_row p (rec rc);
      rest ← project_on_input p rs';
      Ok (with_row rc new_r :: rest)
  end.

(** The row [query_through] builds: columns in the order of the parent, an
    expression that fails is an error. *)
Definition project_query_row (p : Project) r : result (list V) :=
  match proj_emit p with
  | None => Ok r
  | Some emit =>
      exprs ← match proj_expressions p with
              | None => Ok []
              | Some es => result_mapM (λ e : Expr, e r) es
              end;
      let cols := (filter (λ ic, existsb (Nat.eqb (fst ic)) emit = true)
                     (zip (seq 0 (length r)) r)).*2 in
      Ok (cols ++ exprs ++ default [] (proj_additional p))
  end.

(** The columns [query_through] looks up in the parent. *)
Definition project_in_cols (p : Project) (columns : list nat) : result (list nat) :=
  match proj_emit p with
  | Some emit =>
      result_mapM (λ outi, if length emit <=? outi then Err Internal else expect (emit !! outi)) columns
  | None => Ok columns
  end.

Definition project_through_row (p : Project) (row : result (list V)) : result (list V) :=
  match row with Ok r => project_query_row p r | e => e end.

Definition project_query_through (p : Project) (columns : list nat)
    (lookup : list nat → option (list (result (list V)))) : option (list (result (list V))) :=
  match project_in_cols p columns with
  | Ok in_cols =>
      match lookup in_cols with
      | Some rows => Some (map (project_through_row p) rows)
      | None => None
      end
  | Err e => Some [Err e]
  | Panic => Some [Panic]
  end.

(** [column_source]: [None] is [RequiresFullReplay]. *)
Definition project_column_source (p : Project) (cols : list nat) : option (list nat) :=
  let mapped := omap (λ x,
    if match proj_emit p with Some emit => length emit <=? x | None => false end then None
    else match proj_emit p with Some emit => emit !! x | None => Some x end) cols in
  if length mapped =? length cols then Some mapped else None.
End linear.
Arguments Filter : clear implicits.
Arguments Project : clear implicits.

Section linear_lemmas.
Context `{DfVal V}.
Implicit Types (r : list V) (rc : Record V) (rs : list (Record V)).

(** What a filter and a projection do to one row, as relational operators. *)
Definition filter_sem (f : Filter V) r : list (list V) :=
  match filter_expression f r with
  | Ok v => if filter_is_truthy f v then [r] else []
  | _ => []
  end.
Definition project_sem (p : Project V) r : list (list V) :=
  match project_row p r with Ok r' => [r'] | _ => [] end.

(** Every column the projection emits exists in the row. *)
Definition project_fits (p : Project V) r : Prop :=
  match proj_emit p with Some emit => Forall (λ i, i < length r) emit | None => True end.

Lemma filter_on_input_ok f rs :
  Forall (λ rc, is_ok (filter_expression f (rec rc)) = true) rs →
  filter_on_input f rs = Ok (lift (filter_sem f) rs).
Proof.
  unfold lift, filter_sem. induction 1 as [|rc rs Hok Hrs IH]; csimpl; [done|].
  destruct (filter_expression f (rec rc)) as [v| |]; [simpl|done|done]. rewrite IH.
  destruct (filter_is_truthy f v); simpl; [|done]. by destruct rc.
Qed.

Lemma filter_on_input_err f rs1 rc rs2 e :
  Forall (λ rc, is_ok (filter_expression f (rec rc)) = true) rs1 →
  filter_expression f (rec rc) = Err e →
  filter_on_input f (rs1 ++ rc :: rs2) = Err e.
Proof.
  induction 1 as [|rc1 rs1 Hok Hrs IH]; intros He; simpl; [by rewrite He|].
  destruct (filter_expression f (rec rc1)); [simpl|done|done]. by rewrite IH.
Qed.

(** A query through a filter returns what the filter keeps of the looked-up rows. *)
Lemma filter_query_through_ok f rows :
  Forall (λ r, is_ok (filter_expression f r) = true) rows →
  filter_query_through f (Some (Ok <$> rows)) = Some (Ok <$> (rows ≫= filter_sem f)).
Proof.
  intros Hok. unfold filter_query_through. simpl. f_equal.
  induction Hok as [|r rows Hr Hrows IH]; csimpl; [done|].
  rewrite fmap_app, <-IH. unfold filter_sem.
  destruct (filter_expression f r) as [v| |]; [|done|done]. by destruct (filter_is_truthy f v).
Qed.

(** *** Projection *)
Lemma project_row_fits p r : project_fits p r ↔ ∃ r', project_row p r = Ok r'.
Proof.
  unfold project_fits, project_row. destruct (proj_emit p) as [emit|]; [|by split; [eexists|]].
  split.
  - intros Hf. assert (result_mapM (λ i, expect (r !! i)) emit = Ok (omap (λ i, r !! i) emit))
      as Heq; [apply result_mapM_inv|rewrite Heq; simpl; by eexists].
    induction Hf as [|i emit Hi Hf IH]; csimpl; [constructor|].
    destruct (lookup_lt_is_Some_2 r i Hi) as [v Hv]. rewrite Hv. constructor; [by rewrite Hv|done].
  - intros [r' Hr']. destruct (result_mapM _ emit) as [cols| |] eqn:E; simpl in Hr'; try done.
    apply result_mapM_inv in E. clear Hr'. induction E as [|i v emit cols Hi Hf IH]; constructor; [|done].
    destruct (r !! i) eqn:Ei; [|done]. by eapply lookup_lt_Some.
Qed.

Lemma project_on_input_ok p rs :
  Forall (λ rc, project_fits p (rec rc)) rs → project_on_input p rs = Ok (lift (project_sem p) rs).
Proof.
  unfold lift, project_sem. induction 1 as [|rc rs Hok Hrs IH]; csimpl; [done|].
  apply project_row_fits in Hok as [r' Hr']. rewrite Hr'. simpl. by rewrite IH.
Qed.

Lemma project_on_input_panic p rs1 rc rs2 :
  Forall (λ rc, project_fits p (rec rc)) rs1 → ¬ project_fits p (rec rc) →
  project_row p (rec rc) = Panic ∧ project_on_input p (rs1 ++ rc :: rs2) = Panic.
Proof.
  intros Hf Hn. assert (project_row p (rec rc) = Panic) as Hp.
  { rewrite project_row_fits in Hn. unfold project_row in *.
    destruct (proj_emit p) as [emit|]; [|by destruct Hn; eexists].
    assert (∀ l, match result_mapM (λ i, expect (rec rc !! i)) l with Err _ => False | _ => True end)
      as Hne.
    { induction l as [|i l IHl]; simpl; [done|]. destruct (rec rc !! i); simpl; [|done].
      by destruct (result_mapM _ l). }
    specialize (Hne emit). destruct (result_mapM _ emit); simpl in *; try done.
    by destruct Hn; eexists. }
  split; [done|]. induction Hf as [|rc1 rs1 Hok Hrs IH]; simpl; [by rewrite Hp|].
  apply project_row_fits in Hok as [r' ->]. simpl. by rewrite IH.
Qed.

(** The identity projection copies the row. *)
Lemma mapM_lookup_seq (r pre : list V) :
  result_mapM (λ i, expect ((pre ++ r) !! i)) (seq (length pre) (length r)) = Ok r.
Proof.
  revert pre. induction r as [|v r IH]; intros pre; simpl; [done|].
  rewrite list_lookup_middle by done. simpl.
  specialize (IH (pre ++ [v])). rewrite <-app_assoc, length_app in IH. simpl in IH.
  rewrite Nat.add_1_r in IH. by rewrite IH.
Qed.

Lemma sequential_seq emit k :
  forallb (λ ij, fst ij =? snd ij) (zip (seq k (length emit)) emit) = true →
  emit = seq k (length emit).
Proof.
  revert k. induction emit as [|i emit IH]; intros k; simpl; [done|].
  rewrite andb_true_iff, Nat.eqb_eq. intros [-> Hs]. f_equal. by apply IH.
Qed.

Lemma project_on_commit_row p r :
  length r = proj_cols p → project_row (project_on_commit p) r = project_row p r.
Proof.
  intros Hlen. unfold project_row, project_on_commit. simpl.
  destruct (proj_emit p) as [emit|]; simpl; [|done].
  destruct (length emit =? proj_cols p) eqn:El; simpl; [|done]. apply Nat.eqb_eq in El.
  destruct (proj_additional p); simpl; [done|]. destruct (proj_expressions p); simpl; [done|].
  destruct (forallb _ _) eqn:Es; simpl; [|done]. apply sequential_seq in Es.
  rewrite Es, El, <-Hlen. pose proof (mapM_lookup_seq r []) as Hm. simpl in Hm.
  rewrite Hm. simpl. by rewrite app_nil_r.
Qed.

(** Selecting columns in the parent's order is selecting them in the emit order
    when the latter is increasing. *)
Lemma filter_cols_increasing emit (r : list V) k :
  StronglySorted lt emit → Forall (λ i, k ≤ i < k + length r) emit →
  (filter (λ ic, existsb (Nat.eqb (fst ic)) emit = true) (zip (seq k (length r)) r)).*2 =
  omap (λ i, r !! (i - k)) emit.
Proof.
  revert k emit. induction r as [|v r IH]; intros k emit Hs Hf; simpl.
  - destruct emit; [done|]. apply Forall_cons in Hf as [Hi _]. simpl in Hi. lia.
  - assert (∀ emit', Forall (λ i, S k ≤ i < S k + length r) emit' →
      omap (λ i, (v :: r) !! (i - k)) emit' = omap (λ i, r !! (i - S k)) emit') as Hshift.
    { intros emit' Hf'. induction Hf' as [|i emit' Hi Hf' IHf]; csimpl; [done|].
      replace (i - k) with (S (i - S k)) by lia. csimpl. rewrite IHf. done. }
    destruct emit as [|i emit].
    + rewrite filter_cons_False by done. rewrite (IH (S k) []); [done|constructor|constructor].
    + apply StronglySorted_inv in Hs as [Hs Hlt]. apply Forall_cons in Hf as [Hi Hf].
      destruct (decide (i = k)) as [->|Hne].
      * rewrite filter_cons_True by (simpl; by rewrite Nat.eqb_refl). csimpl.
        replace (k - k) with 0 by lia. csimpl. f_equal.
        assert (Forall (λ i, S k ≤ i < S k + length r) emit) as Hf'.
        { rewrite Forall_forall in *. intros j Hj. specialize (Hlt j Hj). specialize (Hf j Hj).
          simpl in *. lia. }
        rewrite Hshift, <-(IH (S k)) by done. f_equal. apply filter_ext_elem.
        intros [j c] Hj. simpl.
        apply elem_of_zip_l in Hj. apply elem_of_seq in Hj.
        destruct (j =? k) eqn:E; [apply Nat.eqb_eq in E; lia|done].
      * rewrite filter_cons_False.
        2: { simpl. rewrite orb_true_iff, existsb_exists, Nat.eqb_eq. intros [?|(j & Hj & Hjk)]; [lia|].
             apply Nat.eqb_eq in Hjk as <-. rewrite Forall_forall in Hlt, Hf.
             apply list_elem_of_In in Hj. specialize (Hlt _ Hj). lia. }
        assert (Forall (λ i, S k ≤ i < S k + length r) (i :: emit)) as Hf'.
        { constructor; [simpl in Hi; lia|]. rewrite Forall_forall in *. intros j Hj.
          specialize (Hlt j Hj). specialize (Hf j Hj). simpl in *. lia. }
        rewrite Hshift by done. apply IH; [|done]. by constructor.
Qed.

Lemma project_query_row_increasing p r emit :
  proj_emit p = Some emit → StronglySorted lt emit → project_fits p r →
  (∀ e, e ∈ default [] (proj_expressions p) → is_ok (e r) = true) →
  project_query_row p r = project_row p r.
Proof.
  intros He Hs Hf Hok. unfold project_query_row, project_row, project_fits in *. rewrite He in *.
  assert (result_mapM (λ i, expect (r !! i)) emit = Ok (omap (λ i, r !! i) emit)) as ->.
  { apply result_mapM_inv. clear Hs He. induction Hf as [|i emit Hi Hf IH]; csimpl; [constructor|].
    destruct (lookup_lt_is_Some_2 r i Hi) as [v Hv]. rewrite Hv. constructor; [by rewrite Hv|done]. }
  rewrite (filter_cols_increasing emit r 0); [|done|eapply Forall_impl; [exact Hf|]; simpl; lia].
  assert (omap (λ i, r !! (i - 0)) emit = omap (λ i, r !! i) emit) as ->.
  { apply list_omap_ext. apply Forall_Forall2_diag, Forall_forall. intros i _. by rewrite Nat.sub_0_r. }
  destruct (proj_expressions p) as [es|]; simpl in *; [|done].
  rewrite (result_mapM_ok _ (λ e : list V → result V, match e r with Ok v => v | _ => dfv_none end)); [done|].
  apply Forall_forall. intros e Hin. specialize (Hok e Hin). by destruct (e r).
Qed.

Lemma project_column_source_correct p cols mapped r r' :
  project_column_source p cols = Some mapped → project_row p r = Ok r' →
  Forall2 (λ x y, r' !! x = r !! y) cols mapped.
Proof.
  unfold project_column_source. set (f := λ x : nat, if _ : bool then _ else _).
  assert (∀ l, length (omap f l) ≤ length l) as Hle.
  { induction l as [|x l IHl]; csimpl; [done|]. destruct (f x); simpl; lia. }
  destruct (length (omap f cols) =? length cols) eqn:E; [|done]. apply Nat.eqb_eq in E.
  intros [= <-] Hr. induction cols as [|x cols IH]; csimpl in *; [constructor|].
  destruct (f x) as [y|] eqn:Ef; simpl in E; [|specialize (Hle cols); lia].
  constructor; [|apply IH; lia]. clear IH E. unfold f in Ef. unfold project_row in Hr.
  destruct (proj_emit p) as [emit|]; [|by simplify_eq].
  destruct (length emit <=? x); [done|].
  destruct (result_mapM _ emit) as [c| |] eqn:Em; simpl in Hr; [|done|done].
  apply result_mapM_inv in Em. injection Hr as <-.
  destruct (Forall2_lookup_l _ _ _ _ _ Em Ef) as (v & Hv & Hy).
  rewrite lookup_app_l by (by eapply lookup_lt_Some). rewrite Hv. by destruct (r !! y); simplify_eq/=.
Qed.
End linear_lemmas.

Section linear_theorems.
Context `{DfVal V}.
Implicit Types (r : list V) (rc : Record V) (rs : list (Record V)).

(** The filter maintains its view incrementally: if the expression evaluates
    on every record of the batch, the batch is accepted and its output takes the
    filtered old input to the filtered new input, and a query through the filter
    returns the same rows; the first record on which the expression fails makes
    the whole batch fail with that error. *)
Theorem filter_maintains (f : Filter V) rs :
  (Forall (λ rc, is_ok (filter_expression f (rec rc)) = true) rs →
   ∃ out, filter_on_input f rs = Ok out ∧
     ∀ old new, applies old rs new →
       applies (old ≫= filter_sem f) out (new ≫= filter_sem f)) ∧
  (∀ rows, Forall (λ r, is_ok (filter_expression f r) = true) rows →
     filter_query_through f (Some (Ok <$> rows)) = Some (Ok <$> (rows ≫= filter_sem f))) ∧
  (∀ rs1 rc rs2 e, rs = rs1 ++ rc :: rs2 →
     Forall (λ rc, is_ok (filter_expression f (rec rc)) = true) rs1 →
     filter_expression f (rec rc) = Err e → filter_on_input f rs = Err e).
Proof.
  split_and!.
  - intros Hok. eexists. split; [by apply filter_on_input_ok|]. intros. by apply applies_lift.
  - intros rows. apply filter_query_through_ok.
  - intros rs1 rc rs2 e -> Hok He. by apply filter_on_input_err.
Qed.

(** The projection maintains its view incrementally on rows that have the
    columns it emits; dropping a sequential [emit] on commit changes nothing for
    rows of the parent's width; and the columns [column_source] names hold the
    values of the projected columns. *)
Theorem project_maintains (p : Project V) rs :
  (Forall (λ rc, project_fits p (rec rc)) rs →
   ∃ out, project_on_input p rs = Ok out ∧
     ∀ old new, applies old rs new →
       applies (old ≫= project_sem p) out (new ≫= project_sem p)) ∧
  (∀ r, length r = proj_cols p → project_row (project_on_commit p) r = project_row p r) ∧
  (∀ cols mapped r r', project_column_source p cols = Some mapped → project_row p r = Ok r' →
     Forall2 (λ x y, r' !! x = r !! y) cols mapped).
Proof.
  split_and!.
  - intros Hok. eexists. split; [by apply project_on_input_ok|]. intros. by apply applies_lift.
  - intros r. apply project_on_commit_row.
  - intros cols mapped r r'. apply project_column_source_correct.
Qed.

(** A query through a projection builds the same row as [on_input] when the
    emitted columns are increasing and the expressions evaluate; for a
    permutation of the columns it returns them in the parent's order instead,
    so the row read differs from the row maintained. *)
Theorem project_query_through_order (p : Project V) emit r :
  proj_emit p = Some emit → project_fits p r →
  (∀ e, e ∈ default [] (proj_expressions p) → is_ok (e r) = true) →
  (StronglySorted lt emit → project_query_row p r = project_row p r) ∧
  (∀ a b, project_row (project_new [1; 0] None None) [a; b] = Ok [b; a] ∧
          project_query_row (project_new [1; 0] None None) [a; b] = Ok [a; b]).
Proof. intros He Hf Hok. split; [intros; by eapply project_query_row_increasing|done]. Qed.
End linear_theorems.

(** Witness: a projection of the second and third column. *)
Definition sample_project : Project SampleVal := project_new [1; 2] (Some [SInt 9]) None.

Lemma project_query_through_order_witness :
  project_query_row sample_project [SInt 1; SNone; SInt 3] = Ok [SNone; SInt 3; SInt 9].
Proof.
  rewrite (proj1 (project_query_through_order sample_project [1; 2] [SInt 1; SNone; SInt 3]
    eq_refl ltac:(repeat constructor) ltac:(intros e He; by apply not_elem_of_nil in He))).
  - reflexivity.
  - repeat constructor.
Defined.
