(* ===== verification/Keys.v ===== *)
(** * Keys: key comparisons

    Models [KeyComparison] of [readyset-client/src/view.rs]: the point and range
    lookups that flow through the dataflow as upquery, replay and eviction keys.
    Keys are vectors of values compared lexicographically ([Vec1] is a non-empty
    vector; the model does not need non-emptiness). *)
From S2P Require Import Prelude Intervals Result Records.

Inductive KeyComparison (V : Type) :=
  | KEqual (k : list V)
  | KRange (r : BoundPair (list V)).
Arguments KEqual {V}.
Arguments KRange {V}.

(** The operators a key can be built from, and one that is not supported. *)
Inductive BinaryOperator :=
  | OpGreater | OpGreaterOrEqual | OpLess | OpLessOrEqual | OpEqual | OpOther.

Section keys.
Context `{DfVal V}.
Implicit Types (k : list V) (c : KeyComparison V).

Definition from_key_and_operator k (operator : BinaryOperator) : result (KeyComparison V) :=
  match k with
  | [] => Err EmptyKey
  | _ =>
      match operator with
      | OpGreater => Ok (KRange (Excluded k, Unbounded))
      | OpGreaterOrEqual => Ok (KRange (Included k, Unbounded))
      | OpLess => Ok (KRange (Unbounded, Excluded k))
      | OpLessOrEqual => Ok (KRange (Unbounded, Included k))
      | OpEqual => Ok (KEqual k)
      | OpOther => Err Unsupported
      end
  end.

(** [equal] and [into_equal]. *)
Definition kc_equal c : option (list V) :=
  match c with
  | KEqual k => Some k
  | KRange (Included k, Included k2) => if bool_decide (k = k2) then Some k else None
  | _ => None
  end.

Definition kc_range c : option (BoundPair (list V)) :=
  match c with KRange r => Some r | _ => None end.

Definition from_range (r : BoundPair (list V)) : KeyComparison V :=
  match r with
  | (Included k1, Included k2) => if bool_decide (k1 = k2) then KEqual k1 else KRange r
  | _ => KRange r
  end.

(** [RangeBounds for KeyComparison]. *)
Definition start_bound c : Bound (list V) :=
  match c with KEqual k => Included k | KRange r => r.1 end.
Definition end_bound c : Bound (list V) :=
  match c with KEqual k => Included k | KRange r => r.2 end.
Definition bounds c : BoundPair (list V) := (start_bound c, end_bound c).

Definition is_reversed_range c : bool := is_gt (cmp_start_end (start_bound c) (end_bound c)).

(** [shard_by] of the client library.  NULL and the maximum go to the first shard,
    another value to the remainder of a number by the number of shards: the value
    itself as an unsigned integer, or a hash of it, which [shard_hash] stands for. *)
Definition shard_by (shard_hash : V → option N) (dt : V) (shards : nat) : result nat :=
  match shard_hash dt with
  | None => Ok 0
  | Some h => if decide (shards = 0) then Panic else Ok (N.to_nat (h mod N.of_nat shards))
  end.

(** [Panic] is an index out of range. *)
Definition shard_keys_at (shard_hash : V → option N) c (key_idx num_shards : nat) : result (list nat) :=
  match c with
  | KEqual k => v ← expect (k !! key_idx); shard ← shard_by shard_hash v num_shards; Ok [shard]
  | _ => Ok (seq 0 num_shards)
  end.
Definition shard_keys (shard_hash : V → option N) c (num_shards : nat) : result (list nat) :=
  shard_keys_at shard_hash c 0 num_shards.

Definition kc_len c : option nat :=
  match c with
  | KEqual k => Some (length k)
  | KRange (Unbounded, Unbounded) => None
  | KRange ((Included k | Excluded k), _) => Some (length k)
  | KRange (Unbounded, (Included k | Excluded k)) => Some (length k)
  end.

Definition kc_contains c (key : list V) : bool :=
  match c with
  | KEqual equal => is_eq (cmp key equal)
  | KRange (lower, upper) =>
      (match lower with
       | Included start => is_ge (cmp key start)
       | Excluded start => is_gt (cmp key start)
       | Unbounded => true
       end) &&
      (match upper with
       | Included end_ => is_le (cmp key end_)
       | Excluded end_ => is_lt (cmp key end_)
       | Unbounded => true
       end)
  end.

Definition kc_is_equal c : bool := match c with KEqual _ => true | _ => false end.
Definition kc_is_range c : bool := match c with KRange _ => true | _ => false end.

Definition map_endpoints (f : list V → list V) c : KeyComparison V :=
  match c with
  | KEqual k => KEqual (f k)
  | KRange (lower, upper) => KRange (Bound_map f lower, Bound_map f upper)
  end.

(** [PartialEq]: a point and the closed range at that point are equal.  The
    [(Range, Equal)] arm of the source swaps its arguments. *)
Definition kc_eq c1 c2 : bool :=
  match c1, c2 with
  | KEqual k1, KEqual k2 => bool_decide (k1 = k2)
  | KRange r1, KRange r2 => bool_decide (r1 = r2)
  | KEqual eq, KRange (Included k1, Included k2) | KRange (Included k1, Included k2), KEqual eq =>
      bool_decide (eq = k1) && bool_decide (k1 = k2)
  | KEqual _, KRange _ | KRange _, KEqual _ => false
  end.

(** [Hash]: the value fed to the hasher. *)
Definition kc_hashed c : list V + BoundPair (list V) :=
  match c with
  | KEqual k => inl k
  | KRange (Included k1, Included k2) =>
      if bool_decide (k1 = k2) then inl k1 else inr (Included k1, Included k2)
  | KRange r => inr r
  end.
End keys.

Section key_lemmas.
Context `{DfVal V}.
Implicit Types (k : list V) (c : KeyComparison V).

Lemma kc_contains_bounds c key : kc_contains c key = in_range (bounds c) key.
Proof.
  unfold bounds, in_range. destruct c as [k|[l u]]; simpl.
  - rewrite (cmp_antisym key k). by destruct (cmp key k).
  - f_equal. destruct l as [s|s|]; simpl; [..|done]; rewrite (cmp_antisym key s); by destruct (cmp key s).
Qed.

Lemma from_range_contains r key : kc_contains (from_range r) key = in_range r key.
Proof.
  rewrite kc_contains_bounds. unfold from_range, bounds.
  destruct r as [[] []]; simpl; try done. case_bool_decide; by subst.
Qed.

Lemma kc_eq_hashed c1 c2 : kc_eq c1 c2 = bool_decide (kc_hashed c1 = kc_hashed c2).
Proof.
  symmetry. unfold kc_eq, kc_hashed.
  destruct c1 as [k1|[[] []]], c2 as [k2|[[] []]]; simpl; repeat case_bool_decide;
    simplify_eq/=; try done; apply bool_decide_ext; naive_solver.
Qed.

Lemma kc_hashed_contains c1 c2 key :
  kc_hashed c1 = kc_hashed c2 → kc_contains c1 key = kc_contains c2 key.
Proof.
  rewrite !kc_contains_bounds. unfold bounds, kc_hashed.
  destruct c1 as [k1|[[] []]], c2 as [k2|[[] []]]; simpl; repeat case_bool_decide; naive_solver.
Qed.

(** [==] on key comparisons is an equivalence relation, equal comparisons
    hash alike (a point and the closed range at that point are the same key), and
    equal comparisons contain the same keys. *)
Theorem key_comparison_eq c1 c2 c3 :
  kc_eq c1 c1 = true ∧ kc_eq c1 c2 = kc_eq c2 c1 ∧
  (kc_eq c1 c2 = true → kc_eq c2 c3 = true → kc_eq c1 c3 = true) ∧
  (kc_eq c1 c2 = true ↔ kc_hashed c1 = kc_hashed c2) ∧
  (kc_eq c1 c2 = true → ∀ key, kc_contains c1 key = kc_contains c2 key).
Proof.
  rewrite !kc_eq_hashed, !bool_decide_eq_true. split_and!; try done.
  - apply bool_decide_ext. split; congruence.
  - congruence.
  - intros Heq key. by apply kc_hashed_contains.
Qed.

(** [contains] is membership in the lexicographic range the comparison
    stands for; [from_range] keeps it, a comparison that projects to an equality
    contains that key only, and a reversed range contains no key. *)
Theorem key_comparison_contains c r key :
  kc_contains c key = in_range (bounds c) key ∧
  kc_contains (from_range r) key = in_range r key ∧
  (∀ k, kc_equal c = Some k → kc_contains c key = bool_decide (key = k)) ∧
  (is_reversed_range c = true → kc_contains c key = false).
Proof.
  split_and!; [apply kc_contains_bounds|apply from_range_contains| |].
  - intros k Hk. rewrite kc_contains_bounds.
    assert (bounds c = (Included k, Included k)) as ->.
    { unfold kc_equal, bounds in *. destruct c as [|[[] []]]; simplify_eq/=; try done.
      by case_bool_decide; simplify_eq/=. }
    unfold in_range; simpl. case_bool_decide as Hkk; [subst; by rewrite cmp_refl|]. ord_lia.
  - intros Hr. rewrite kc_contains_bounds. by apply start_end_gt_disjoint.
Qed.

(** A key comparison built from an operator contains exactly the keys that
    stand in that relation to the given key; an empty key is rejected. *)
Theorem key_comparison_from_operator k key :
  from_key_and_operator ([] : list V) OpEqual = Err EmptyKey ∧
  (k ≠ [] →
   (∃ c, from_key_and_operator k OpEqual = Ok c ∧ kc_contains c key = is_eq (cmp key k)) ∧
   (∃ c, from_key_and_operator k OpGreater = Ok c ∧ kc_contains c key = is_gt (cmp key k)) ∧
   (∃ c, from_key_and_operator k OpGreaterOrEqual = Ok c ∧ kc_contains c key = is_ge (cmp key k)) ∧
   (∃ c, from_key_and_operator k OpLess = Ok c ∧ kc_contains c key = is_lt (cmp key k)) ∧
   (∃ c, from_key_and_operator k OpLessOrEqual = Ok c ∧ kc_contains c key = is_le (cmp key k)) ∧
   from_key_and_operator k OpOther = Err Unsupported).
Proof.
  split; [done|]. intros Hk. destruct k as [|v k]; [done|]. simpl.
  split_and!; try (eexists; split; [done|]; simpl; by rewrite ?andb_true_r).
  done.
Qed.
End key_lemmas.
