(* ===== verification/Processing.v ===== *)
(** * Processing: what operators exchange with the domain

    Models the data of [readyset-dataflow/src/processing.rs]: replay contexts,
    misses and how they are built, lookups, column sources, and the processing
    result.  Rows are projected to key columns with [row_cols]. *)
From S2P Require Import Prelude Intervals Result Records Keys.

Section processing.
Context `{DfVal V}.
Implicit Types (r : list V).

(** [Indices::cloned_indices]: the values of a row at the given columns; an
    index outside the row is an error the callers unwrap. *)
Definition row_cols (cols : list nat) r : result (list V) :=
  result_mapM (λ c, expect (r !! c)) cols.

Inductive MissReplayKey :=
  | MrkRecordColumns (cols : list nat)
  | MrkRange (r : BoundPair (list V)).

Inductive MissLookupKey :=
  | MlkRecordColumns (cols : list nat)
  | MlkKey (k : KeyComparison V).

Record Miss := {
  miss_on : nat;
  miss_lookup_idx : list nat;
  miss_lookup_key : MissLookupKey;
  miss_replay_key : option MissReplayKey;
  miss_record : list V;
}.

Inductive ReplayContext :=
  | RcNone
  | RcPartial (key_cols : list nat) (keys : list (KeyComparison V))
      (requesting_shard requesting_replica tag : nat) (unishard : bool)
  | RcFull (last : bool).

Definition rc_key (c : ReplayContext) : option (list nat) :=
  match c with RcPartial key_cols _ _ _ _ _ => Some key_cols | _ => None end.
Definition rc_tag (c : ReplayContext) : option nat :=
  match c with RcPartial _ _ _ _ tag _ => Some tag | _ => None end.
Definition rc_is_partial (c : ReplayContext) : bool :=
  match c with RcPartial _ _ _ _ _ _ => true | _ => false end.

(** [keys.iter().filter_map(|k| k.range()).find(..contains..)]; the record's
    key is computed only when a range is looked at. *)
Fixpoint find_range (record_key : result (list V)) (keys : list (KeyComparison V)) :
    result (option (BoundPair (list V))) :=
  match keys with
  | [] => Ok None
  | k :: keys' =>
      match kc_range k with
      | None => find_range record_key keys'
      | Some rg =>
          key ← record_key;
          if in_range rg key then Ok (Some rg) else find_range record_key keys'
      end
  end.

(** [MissBuilder::build] with all its fields set; [key_cols_override] is
    [replay_key_cols]. *)
Definition build_miss (on : nat) (lookup_idx : list nat) (lookup_key : MissLookupKey)
    (replay : ReplayContext) (key_cols_override : option (list nat)) (record : list V) : result Miss :=
  replay_key ← match replay with
               | RcPartial key_cols keys _ _ _ _ =>
                   let cols := default key_cols key_cols_override in
                   range ← find_range (row_cols cols record) keys;
                   Ok (Some match range with
                            | Some rg => MrkRange rg
                            | None => MrkRecordColumns cols
                            end)
               | _ => Ok None
               end;
  Ok {| miss_on := on; miss_lookup_idx := lookup_idx; miss_lookup_key := lookup_key;
        miss_replay_key := replay_key; miss_record := record |}.

(** [Miss::replay_key]; an empty key panics (it must fit a [Vec1]). *)
Definition miss_replay_key_of (m : Miss) : result (option (KeyComparison V)) :=
  match miss_replay_key m with
  | None => Ok None
  | Some (MrkRecordColumns cols) =>
      k ← row_cols cols (miss_record m);
      match k with [] => Panic | _ => Ok (Some (KEqual k)) end
  | Some (MrkRange rg) => Ok (Some (KRange rg))
  end.

Definition miss_lookup_key_of (m : Miss) : result (KeyComparison V) :=
  match miss_lookup_key m with
  | MlkKey k => Ok k
  | MlkRecordColumns cols =>
      k ← row_cols cols (miss_record m);
      match k with [] => Panic | _ => Ok (KEqual k) end
  end.

Inductive LookupMode := LmStrict | LmWeak.

(** [Lookup]: a lookup made during a replay, so that the domain can keep the
    key it used from being evicted. *)
Record Lookup := { lookup_on : nat; lookup_cols : list nat; lookup_key : KeyComparison V }.

Record ProcessingResult := {
  pr_results : list (Record V);
  pr_lookups : list Lookup;
  pr_misses : list Miss;
}.
Definition pr_empty : ProcessingResult := {| pr_results := []; pr_lookups := []; pr_misses := [] |}.
Definition pr_append (a b : ProcessingResult) : ProcessingResult :=
  {| pr_results := pr_results a ++ pr_results b; pr_lookups := pr_lookups a ++ pr_lookups b;
     pr_misses := pr_misses a ++ pr_misses b |}.

(** [ColumnSource], by local parent. *)
Inductive ColumnSource :=
  | CsExactCopy (node : nat) (columns : list nat)
  | CsUnion (refs : list (nat * list nat))
  | CsGenerated (refs : list (nat * list nat))
  | CsFullReplay (nodes : list nat).
End processing.
Arguments Miss : clear implicits.
Arguments ReplayContext : clear implicits.
Arguments Lookup : clear implicits.
Arguments ProcessingResult : clear implicits.

Section processing_lemmas.
Context `{DfVal V}.
Implicit Types (r : list V).

Lemma row_cols_ok cols r :
  Forall (λ c, c < length r) cols → row_cols cols r = Ok (omap (λ c, r !! c) cols).
Proof.
  intros Hf. unfold row_cols. apply result_mapM_inv.
  induction Hf as [|i cols Hi Hf IH]; csimpl; [constructor|].
  destruct (lookup_lt_is_Some_2 r i Hi) as [v Hv]. rewrite Hv. constructor; [by rewrite Hv|done].
Qed.

Lemma find_range_some rk keys rg :
  find_range rk keys = Ok (Some rg) → ∃ key, rk = Ok key ∧ in_range rg key = true ∧ KRange rg ∈ keys.
Proof.
  induction keys as [|k keys IH]; simpl; [done|]. destruct k as [k|r0]; simpl.
  - intros Hf. destruct (IH Hf) as (key & ? & ? & ?). exists key. split_and!; [done|done|].
    by apply elem_of_further.
  - destruct rk as [key| |]; simpl; [|done|done]. destruct (in_range r0 key) eqn:E.
    + intros [= <-]. exists key. split_and!; [done|done|apply elem_of_here].
    + intros Hf. destruct (IH Hf) as (key' & ? & ? & ?). exists key'. split_and!; [done|done|].
      by apply elem_of_further.
Qed.

(** The replay key of a miss built during a partial replay covers the record
    that missed: it contains the record's replay key columns, and it is either
    one of the ranges being replayed or the point key of the record; outside a
    partial replay there is no replay key. *)
Theorem miss_replay_key_covers on idx lk key_cols keys shard replica tag unishard over record m key :
  let cols := default key_cols over in
  build_miss on idx lk (RcPartial key_cols keys shard replica tag unishard) over record = Ok m →
  row_cols cols record = Ok key → key ≠ [] →
  (∃ k, miss_replay_key_of m = Ok (Some k) ∧ kc_contains k key = true ∧
     (k ∈ keys ∨ k = KEqual key)) ∧
  (∀ last m', (build_miss on idx lk RcNone over record = Ok m' ∨
               build_miss on idx lk (RcFull last) over record = Ok m') →
     miss_replay_key_of m' = Ok None).
Proof.
  intros cols Hm Hkey Hne. split.
  - unfold build_miss in Hm. fold cols in Hm. rewrite Hkey in Hm.
    destruct (find_range (Ok key) keys) as [[rg|]| |] eqn:E; simpl in Hm; simplify_eq/=.
    + destruct (find_range_some _ _ _ E) as (key' & [= <-] & Hin & Hk).
      exists (KRange rg). split_and!; [done| |by left].
      by rewrite kc_contains_bounds; destruct rg.
    + unfold miss_replay_key_of; simpl. rewrite Hkey. simpl. destruct key as [|v key]; [done|].
      eexists. split_and!; [done| |by right]. simpl. by rewrite cmp_refl.
  - intros last m' [Hb|Hb]; unfold build_miss in Hb; simplify_eq/=; done.
Qed.
End processing_lemmas.

Lemma miss_replay_key_covers_witness :
  ∃ k, miss_replay_key_of
      {| miss_on := 3; miss_lookup_idx := [0]; miss_lookup_key := MlkRecordColumns [1];
         miss_replay_key := Some (MrkRecordColumns [0]); miss_record := [SInt 4; SInt 5] |} =
    Ok (Some k) ∧ kc_contains k [SInt 4] = true ∧ (k ∈ [KEqual [SInt 4]] ∨ k = KEqual [SInt 4]).
Proof.
  apply (miss_replay_key_covers 3 [0] (MlkRecordColumns [1]) [0] [KEqual [SInt 4]] 0 0 7 false None
    [SInt 4; SInt 5] _ [SInt 4]); [reflexivity|reflexivity|discriminate].
Defined.
