(* ===== verification/Batches.v ===== *)
(** * Batches: how operators group the records of a batch

    Several operators process a batch group by group: they compute the key of
    every record and take runs of records with equal keys, after sorting the batch
    or not.  This file holds the grouping and its lemmas, and the validity of a
    batch for the rows it is applied to ([batch_ok]): a record never retracts a
    row that is not there at that point. *)
From S2P Require Import Prelude Result Records Keys Processing.

Section batches.
Context `{DfVal V}.
Implicit Types (r k : list V) (rc : Record V) (rs : list (Record V)).

(** The key of every record, and itertools' [group_by]: consecutive records with
    the same key form a group. *)
Fixpoint keyed_records (cols : list nat) rs : result (list (list V * Record V)) :=
  match rs with
  | [] => Ok []
  | rc :: rs' =>
      k ← row_cols cols (rec rc);
      rest ← keyed_records cols rs';
      Ok ((k, rc) :: rest)
  end.
Fixpoint group_adjacent {A} (l : list (list V * A)) : list (list V * list A) :=
  match l with
  | [] => []
  | (k, x) :: l' =>
      match group_adjacent l' with
      | (k', g) :: gs => if decide (k = k') then (k, x :: g) :: gs else (k, [x]) :: (k', g) :: gs
      | [] => [(k, [x])]
      end
  end.

(** The values of a row at some columns, on rows wide enough. *)
Definition cols_at (cols : list nat) r : list V := omap (λ c, r !! c) cols.
(** Groups whose records all carry the group's key. *)
Definition keyed_groups (cols : list nat) (gs : list (list V * list (Record V))) : Prop :=
  ∀ g rc, g ∈ gs → rc ∈ g.2 → cols_at cols (rec rc) = g.1.

(** A batch that is valid for the rows [old]: every prefix leaves the counts of
    all rows non-negative, and the whole leads to [new]. *)
Definition batch_ok (old : list (list V)) rs (new : list (list V)) : Prop :=
  (∀ r n, (0 <= occ r old + wt r (take n rs))%Z) ∧ applies old rs new.
End batches.

Section batch_lemmas.
Context `{DfVal V}.
Implicit Types (r k : list V) (rc : Record V) (rs : list (Record V)).

Lemma cols_at_ext kc r r' : (∀ c, c ∈ kc → r' !! c = r !! c) → cols_at kc r' = cols_at kc r.
Proof.
  unfold cols_at. induction kc as [|c kc IH]; intros Hc; [done|]. csimpl.
  rewrite (Hc c) by apply elem_of_here. rewrite IH; [done|]. intros; apply Hc. by apply elem_of_further.
Qed.
Lemma row_cols_at cols r : Forall (λ c, (c < length r)%nat) cols → row_cols cols r = Ok (cols_at cols r).
Proof. apply row_cols_ok. Qed.

Lemma keyed_records_ok cols rs :
  Forall (λ rc, Forall (λ c, (c < length (rec rc))%nat) cols) rs →
  keyed_records cols rs = Ok ((λ rc, (cols_at cols (rec rc), rc)) <$> rs).
Proof.
  induction 1 as [|rc rs Hrc Hf IH]; csimpl; [done|]. by rewrite row_cols_at, IH.
Qed.

Lemma group_adjacent_concat {A} (kl : list (list V * A)) : concat (group_adjacent kl).*2 = kl.*2.
Proof.
  induction kl as [|[k rc] kl IH]; [done|]. cbn [group_adjacent fmap list_fmap snd].
  change (snd <$> kl) with (kl.*2). rewrite <-IH.
  destruct (group_adjacent kl) as [|[k' g] gs]; [done|]. by case_decide.
Qed.

Lemma group_adjacent_length {A} (kl : list (list V * A)) : length (group_adjacent kl) ≤ length kl.
Proof.
  induction kl as [|[k a] kl IH]; simpl; [done|]. destruct (group_adjacent kl) as [|[k' g] gs]; simpl in *; [lia|].
  case_decide; simpl; lia.
Qed.

Lemma group_adjacent_keys {A} (kl : list (list V * A)) k g (rc : A) :
  (k, g) ∈ group_adjacent kl → rc ∈ g → (k, rc) ∈ kl.
Proof.
  revert k g. induction kl as [|[k0 rc0] kl IH]; simpl; intros k g Hin Hrc; [by apply elem_of_nil in Hin|].
  destruct (group_adjacent kl) as [|[k' g'] gs].
  - apply list_elem_of_singleton in Hin as [= -> ->]. apply list_elem_of_singleton in Hrc as ->.
    apply elem_of_here.
  - case_decide as Hk.
    + apply elem_of_cons in Hin as [[= -> ->]|Hin].
      * apply elem_of_cons in Hrc as [->|Hrc]; [apply elem_of_here|].
        apply elem_of_further. subst. apply (IH k' g'); [apply elem_of_here|done].
      * apply elem_of_further. apply (IH k g); [by apply elem_of_further|done].
    + apply elem_of_cons in Hin as [[= -> ->]|Hin].
      * apply list_elem_of_singleton in Hrc as ->. apply elem_of_here.
      * apply elem_of_further. by apply (IH k g).
Qed.

Lemma keyed_groups_cons cols g gs :
  keyed_groups cols (g :: gs) → (∀ rc, rc ∈ g.2 → cols_at cols (rec rc) = g.1) ∧ keyed_groups cols gs.
Proof.
  intros Hg. split; [intros rc; apply Hg, elem_of_here|]. intros g' rc Hin. apply Hg. by apply elem_of_further.
Qed.

Lemma keyed_groups_adjacent cols rs :
  keyed_groups cols (group_adjacent ((λ rc, (cols_at cols (rec rc), rc)) <$> rs)).
Proof.
  intros [k g] rc Hg Hrc. apply (group_adjacent_keys _ _ _ _ Hg) in Hrc.
  by apply list_elem_of_fmap in Hrc as (rc' & [= -> ->] & _).
Qed.
Lemma group_adjacent_elem cols rs g rc :
  g ∈ group_adjacent ((λ rc, (cols_at cols (rec rc), rc)) <$> rs) → rc ∈ g.2 → rc ∈ rs.
Proof.
  destruct g as [k g]. intros Hg Hrc. apply (group_adjacent_keys _ _ _ _ Hg) in Hrc.
  by apply list_elem_of_fmap in Hrc as (rc' & [= -> ->] & ?).
Qed.
Lemma group_adjacent_records cols rs :
  concat (group_adjacent ((λ rc, (cols_at cols (rec rc), rc)) <$> rs)).*2 = rs.
Proof. rewrite group_adjacent_concat, <-list_fmap_compose. apply list_fmap_id. Qed.


(** *** Sorted batches *)
Definition sorted_keys {A} (kl : list (list V * A)) : Prop :=
  StronglySorted (λ a b, cmp a.1 b.1 ≠ Gt) kl.

Lemma group_adjacent_head {A} (kl : list (list V * A)) k g gs :
  group_adjacent kl = (k, g) :: gs → ∃ x kl', kl = (k, x) :: kl'.
Proof.
  destruct kl as [|[k0 rc0] kl]; simpl; [done|].
  destruct (group_adjacent kl) as [|[k' g'] gs']; [intros [= <- _ _]; eauto|].
  case_decide; intros [= <- _ _]; eauto.
Qed.

Lemma group_adjacent_nonempty {A} (kl : list (list V * A)) k : (k, []) ∉ group_adjacent kl.
Proof.
  induction kl as [|[k0 rc0] kl IH]; simpl; [by intros ?%elem_of_nil|].
  destruct (group_adjacent kl) as [|[k' g'] gs]; [by intros ?%list_elem_of_singleton|].
  case_decide; intros [?|Hin]%elem_of_cons; try done; apply IH; try by apply elem_of_further.
Qed.

(** The first group is a longest run of its key, the others are those of the rest. *)
Lemma group_adjacent_split {A} (kl : list (list V * A)) k g gs :
  group_adjacent kl = (k, g) :: gs →
  ∃ kl', kl = ((λ x, (k, x)) <$> g) ++ kl' ∧ gs = group_adjacent kl' ∧ ∀ x, head kl' = Some x → x.1 ≠ k.
Proof.
  revert k g gs. induction kl as [|[k0 x0] kl IH]; intros k g gs; cbn [group_adjacent]; [done|].
  destruct (group_adjacent kl) as [|[k' g'] gs'] eqn:E.
  - intros [= <- <- <-]. exists kl. split_and!; [done|done|]. destruct kl as [|[k1 x1] kl]; [done|]. cbn [group_adjacent] in E.
    destruct (group_adjacent kl) as [|[? ?] ?]; [done|]. by case_decide.
  - destruct (IH k' g' gs' eq_refl) as (kl' & -> & -> & Hh). destruct (decide (k0 = k')) as [->|Hne]; intros [= <- <- <-].
    + by exists kl'.
    + exists (((λ x, (k', x)) <$> g') ++ kl'). split_and!; [done|by rewrite E|].
      destruct g' as [|x1 g']; [|by intros x [= <-]]. exfalso. eapply (group_adjacent_nonempty (((λ x, (k', x)) <$> []) ++ kl') k').
      rewrite E. apply elem_of_here.
Qed.

(** In a sorted batch every key has one group, holding all its records in order. *)
Lemma group_adjacent_sorted {A} (kl : list (list V * A)) :
  sorted_keys kl →
  StronglySorted (λ a b, cmp a b = Lt) (group_adjacent kl).*1 ∧
  ∀ k g, (k, g) ∈ group_adjacent kl → g = (filter (λ x, x.1 = k) kl).*2.
Proof.
  induction 1 as [|[k0 rc0] kl Hs [IHs IHg] Hall]; [split; [constructor|by intros ? ? ?%elem_of_nil]|].
  cbn [group_adjacent]. destruct (group_adjacent kl) as [|[k' g'] gs] eqn:Eg.
  - destruct kl as [|[k1 rc1] kl].
    + split; [repeat constructor|]. intros k g [= -> ->]%list_elem_of_singleton.
      by rewrite filter_cons_True.
    + simpl in Eg. destruct (group_adjacent kl) as [|[? ?] ?]; [done|]. by case_decide.
  - destruct (group_adjacent_head _ _ _ _ Eg) as (rc1 & kl' & ->).
    assert (cmp k0 k' ≠ Gt) as Hle by (apply Forall_cons in Hall as [? _]; done).
    csimpl in IHs. apply StronglySorted_inv in IHs as [IHs Hlt].
    destruct (decide (k0 = k')) as [->|Hne].
    + split; [by constructor|]. intros k g [[= -> ->]|Hin]%elem_of_cons.
      * rewrite filter_cons_True by done. csimpl. f_equal. apply IHg, elem_of_here.
      * assert (k ≠ k') as Hk.
        { rewrite Forall_forall in Hlt. specialize (Hlt k).
          assert (k ∈ gs.*1) as Hin' by (by apply list_elem_of_fmap; exists (k, g)).
          specialize (Hlt Hin'). intros ->. ord_lia. }
        rewrite filter_cons_False by (simpl; congruence). apply IHg. by apply elem_of_further.
    + assert (Forall (λ b, cmp k0 b = Lt) (k' :: gs.*1)) as Hlt'.
      { constructor; [ord_lia|]. eapply Forall_impl; [exact Hlt|]. simpl. intros b Hb. ord_lia. }
      split; [csimpl; constructor; [by constructor|done]|].
      intros k g [[= -> ->]|Hin]%elem_of_cons.
      * rewrite filter_cons_True by done. rewrite filter_none; [done|].
        apply Forall_forall. intros [k2 rc2] Hin2 Heq. simpl in Heq. subst k2.
        assert (cmp k' k0 ≠ Gt) as Hge.
        { apply elem_of_cons in Hin2 as [[= ? ?]|Hin2]; [ord_lia|].
          apply StronglySorted_inv in Hs as [_ Hs]. rewrite Forall_forall in Hs.
          by apply (Hs _ Hin2). }
        apply Forall_cons in Hlt' as [? _]. ord_lia.
      * rewrite Forall_forall in Hlt'. assert (k ∈ k' :: gs.*1) as Hk.
        { change (k' :: gs.*1) with (((k', g') :: gs).*1). by apply list_elem_of_fmap; exists (k, g). }
        specialize (Hlt' _ Hk). rewrite filter_cons_False by (simpl; intros ->; ord_lia). by apply IHg.
Qed.

Lemma sort_keys_sorted {A} (kl : list (list V * A)) :
  sorted_keys (sort_by (λ a b, cmp a.1 b.1) kl).
Proof. apply sort_by_sorted; intros; ord_lia. Qed.

Lemma sorted_lt_NoDup (ks : list (list V)) : StronglySorted (λ a b, cmp a b = Lt) ks → NoDup ks.
Proof.
  induction 1 as [|k ks Hs IH Hall]; constructor; [|done].
  intros Hin. rewrite Forall_forall in Hall. specialize (Hall k Hin). ord_lia.
Qed.

Lemma sorted_keys_filter {A} (P : list V * A → Prop) `{∀ x, Decision (P x)} (kl : list (list V * A)) :
  sorted_keys kl → sorted_keys (filter P kl).
Proof.
  unfold sorted_keys. induction 1 as [|x l Hs IH Hall]; [constructor|]. rewrite filter_cons.
  case_decide; [|done]. constructor; [done|]. by apply Forall_filter_keep.
Qed.
(** Sorting by key keeps the order of the elements of one key. *)
Lemma sort_keys_filter {A} (key : A → list V) (l : list A) (P : list V → Prop) `{∀ k, Decision (P k)}
    (Q : A → Prop) `{∀ x, Decision (Q x)} :
  (∀ k k', P k → P k' → k = k') → (∀ x, x ∈ l → P (key x) ↔ Q x) →
  (filter (λ x, P x.1) (sort_by (λ a b : list V * A, cmp a.1 b.1) ((λ x, (key x, x)) <$> l))).*2 = filter Q l.
Proof.
  intros Huniq HPQ. rewrite sort_by_stable.
  - induction l as [|x l IH]; [done|]. csimpl. rewrite !filter_cons. csimpl.
    pose proof (HPQ x (elem_of_here _ _)). rewrite <-IH by (intros; apply HPQ; by apply elem_of_further).
    repeat case_decide; csimpl; tauto.
  - intros [k x] [k' y] Hx Hy. simpl in *. rewrite (Huniq k k' Hx Hy). ord_lia.
Qed.
(** The groups of a list sorted by key. *)
Lemma sorted_groups_by {A} (key : A → list V) (l : list A) :
  let gs := group_adjacent (sort_by (λ a b : list V * A, cmp a.1 b.1) ((λ x, (key x, x)) <$> l)) in
  NoDup gs.*1 ∧
  (∀ k g, (k, g) ∈ gs → g = filter (λ x, key x = k) l ∧ g ≠ []) ∧
  (∀ x, x ∈ l → key x ∈ gs.*1).
Proof.
  intros gs. set (kl := (λ x, (key x, x)) <$> l).
  destruct (group_adjacent_sorted _ (sort_keys_sorted kl)) as [Hs Hg]. fold gs in Hs, Hg.
  assert (∀ k, (filter (λ x, x.1 = k) (sort_by (λ a b : list V * A, cmp a.1 b.1) kl)).*2 =
    filter (λ x, key x = k) l) as Hf.
  { intros k. rewrite <-(sort_keys_filter key l (λ k', k' = k) (λ x, key x = k)) by (done || congruence).
    f_equal. }
  split_and!.
  - by apply sorted_lt_NoDup.
  - intros k g Hin. rewrite (Hg k g Hin), Hf. split; [done|]. rewrite <-Hf, <-(Hg k g Hin).
    intros ->. by eapply group_adjacent_nonempty.
  - intros x Hin.
    assert (x ∈ concat gs.*2) as Hc.
    { unfold gs. rewrite group_adjacent_concat. apply list_elem_of_fmap.
      exists (key x, x). split; [done|]. rewrite sort_by_perm.
      apply list_elem_of_fmap. by exists x. }
    apply list_elem_of_In, in_concat in Hc as (g & Hg2 & Hg1). apply list_elem_of_In in Hg1, Hg2.
    apply list_elem_of_fmap in Hg2 as ([k g'] & -> & Hin').
    rewrite (Hg _ _ Hin'), Hf in Hg1. apply list_elem_of_filter in Hg1 as [Hk _].
    apply list_elem_of_fmap. by exists (k, g').
Qed.

(** The groups of a batch sorted by key. *)
Lemma sorted_batch_groups cols rs :
  let gs := group_adjacent (sort_by (λ a b : list V * Record V, cmp a.1 b.1)
              ((λ rc, (cols_at cols (rec rc), rc)) <$> rs)) in
  NoDup gs.*1 ∧
  (∀ k g, (k, g) ∈ gs → g = filter (λ rc, cols_at cols (rec rc) = k) rs ∧ g ≠ []) ∧
  (∀ rc, rc ∈ rs → cols_at cols (rec rc) ∈ gs.*1).
Proof. apply (sorted_groups_by (λ rc, cols_at cols (rec rc))). Qed.

(** *** Restricting a batch *)
Lemma occ_filter (Q : list V → Prop) `{∀ r, Decision (Q r)} r (l : list (list V)) :
  occ r (filter Q l) = if decide (Q r) then occ r l else 0%Z.
Proof.
  induction l as [|r' l IH]; [by case_decide|]. rewrite filter_cons. cbn [occ].
  destruct (decide (Q r')); cbn [occ]; rewrite IH; repeat case_decide; subst; try done; lia.
Qed.
Lemma wt_filter (Q : list V → Prop) `{∀ r, Decision (Q r)} r rs :
  wt r (filter (λ rc, Q (rec rc)) rs) = if decide (Q r) then wt r rs else 0%Z.
Proof.
  induction rs as [|rc rs IH]; [by case_decide|]. rewrite filter_cons. cbn [wt].
  destruct (decide (Q (rec rc))); cbn [wt]; rewrite IH; clear IH; repeat case_decide; subst; try done; lia.
Qed.
Lemma take_filter {A} (Q : A → Prop) `{∀ x, Decision (Q x)} (l : list A) n :
  ∃ m, take n (filter Q l) = filter Q (take m l).
Proof.
  revert n. induction l as [|x l IH]; intros n; [exists 0; by destruct n|].
  rewrite filter_cons. case_decide as HQ.
  - destruct n as [|n]; [by exists 0|]. destruct (IH n) as [m Hm]. exists (S m). simpl.
    by rewrite filter_cons_True, Hm.
  - destruct (IH n) as [m Hm]. exists (S m). simpl. by rewrite filter_cons_False.
Qed.

Lemma batch_ok_filter (Q : list V → Prop) `{∀ r, Decision (Q r)} old rs new :
  batch_ok old rs new → batch_ok (filter Q old) (filter (λ rc, Q (rec rc)) rs) (filter Q new).
Proof.
  intros [Hp Ha]. split.
  - intros r n. destruct (take_filter (λ rc, Q (rec rc)) rs n) as [m ->].
    rewrite occ_filter, wt_filter. case_decide; [apply Hp|done].
  - intros r. rewrite !occ_filter, wt_filter. case_decide; [apply Ha|done].
Qed.

(** One record at a time. *)
Lemma batch_ok_cons old rc rs new :
  batch_ok old (rc :: rs) new →
  match rc with
  | Positive r => batch_ok (r :: old) rs new
  | Negative r => ∃ old', old ≡ₚ r :: old' ∧ batch_ok old' rs new
  end.
Proof.
  intros [Hp Ha]. destruct rc as [r|r].
  - split.
    + intros r' n. specialize (Hp r' (S n)). simpl in *. unfold sgn in *. simpl in *. lia.
    + intros r'. rewrite (Ha r'). simpl. unfold sgn. simpl. lia.
  - assert (r ∈ old) as Hin.
    { apply occ_pos. specialize (Hp r 1). simpl in Hp.
      rewrite decide_True in Hp by done. unfold sgn in Hp. simpl in Hp. lia. }
    apply elem_of_Permutation in Hin as [old' Hperm]. exists old'. split; [done|].
    assert (∀ r', occ r' old = ((if decide (r = r') then 1 else 0) + occ r' old')%Z) as Hocc
      by (intros r'; by rewrite (occ_perm _ _ _ Hperm)).
    split.
    + intros r' n. specialize (Hp r' (S n)). simpl in Hp. rewrite Hocc in Hp. unfold sgn in Hp.
      simpl in Hp. case_decide; lia.
    + intros r'. rewrite (Ha r'), Hocc. simpl. unfold sgn. simpl. case_decide; lia.
Qed.
Lemma batch_ok_nil old new : batch_ok old [] new → old ≡ₚ new.
Proof.
  intros [_ Ha]. apply same_rows_perm. intros r. rewrite (Ha r). simpl. lia.
Qed.

Lemma wt_not_in r rs : (∀ rc, rc ∈ rs → rec rc ≠ r) → wt r rs = 0%Z.
Proof.
  induction rs as [|rc rs IH]; intros Hne; simpl; [done|].
  rewrite decide_False by (apply Hne, elem_of_here). apply IH. intros; apply Hne. by apply elem_of_further.
Qed.

(** Batches one after the other. *)
Lemma batch_ok_app old rs1 mid rs2 new :
  batch_ok old rs1 mid → batch_ok mid rs2 new → batch_ok old (rs1 ++ rs2) new.
Proof.
  intros [Hp1 Ha1] [Hp2 Ha2]. split.
  - intros r n. rewrite take_app, wt_app. destruct (le_lt_dec n (length rs1)) as [Hn|Hn].
    + replace (n - length rs1)%nat with 0 by lia. simpl. rewrite Z.add_0_r. apply Hp1.
    + rewrite (take_ge rs1) by lia. specialize (Hp2 r (n - length rs1)%nat). rewrite (Ha1 r) in Hp2. lia.
  - intros r. rewrite (Ha2 r), (Ha1 r), wt_app. lia.
Qed.
Lemma batch_ok_same old rs new new' : same_rows new new' → batch_ok old rs new → batch_ok old rs new'.
Proof. intros Hs [Hp Ha]. split; [done|]. intros r. by rewrite <-(Hs r), (Ha r). Qed.

(** All the rows at once. *)
Lemma batch_ok_all (rows : list (list V)) : batch_ok [] (Positive <$> rows) rows.
Proof.
  split.
  - intros r n. rewrite <-fmap_take, wt_positive. pose proof (occ_nonneg r (take n rows)). simpl. lia.
  - intros r. by rewrite wt_positive.
Qed.

(** A row-wise operator on a batch. *)
Lemma batch_ok_with_row rc (l old new : list (list V)) :
  (is_positive rc = false → ∀ x, (occ x l <= occ x old)%Z) → (∀ x, occ x new = (occ x old + sgn rc * occ x l)%Z) →
  batch_ok old (with_row rc <$> l) new.
Proof.
  intros Hneg Hnew. split; [|intros x; by rewrite wt_with_row].
  intros x n. rewrite <-fmap_take, wt_with_row. pose proof (occ_nonneg x old). pose proof (occ_nonneg x (take n l)).
  assert (occ x l = occ x (take n l) + occ x (drop n l))%Z as Hl by (by rewrite <-occ_app, take_drop).
  pose proof (occ_nonneg x (drop n l)). unfold sgn in *. destruct (is_positive rc); [lia|]. specialize (Hneg eq_refl x). lia.
Qed.
Lemma batch_ok_lift (g : list V → list (list V)) old rs new T :
  T ≡ₚ old ≫= g → batch_ok old rs new → batch_ok T (lift g rs) (new ≫= g).
Proof.
  revert old T. induction rs as [|rc rs IH]; intros old T HT Hb.
  { apply batch_ok_nil in Hb. unfold lift. cbn. split; intros x; [intros n; rewrite take_nil; simpl; pose proof (occ_nonneg x T); lia|].
    rewrite (occ_perm x _ _ HT). simpl. rewrite Z.add_0_r. apply occ_perm. by rewrite Hb. }
  apply batch_ok_cons in Hb. unfold lift in *. rewrite bind_cons. destruct rc as [r|r].
  - eapply batch_ok_app; [|apply (IH (r :: old) (g r ++ T)); [by rewrite bind_cons, HT|done]].
    apply batch_ok_with_row; [done|]. intros x. rewrite occ_app. unfold sgn. simpl. lia.
  - destruct Hb as (old' & Hp & Hb). eapply batch_ok_app; [|by apply (IH old' (old' ≫= g))].
    assert (∀ x, occ x T = occ x (g r) + occ x (old' ≫= g))%Z as Hocc.
    { intros x. rewrite (occ_perm x _ _ HT), <-occ_app. apply occ_perm. by rewrite Hp, bind_cons. }
    apply batch_ok_with_row; simpl; intros; rewrite Hocc; pose proof (occ_nonneg x (old' ≫= g)); unfold sgn; simpl; lia.
Qed.

(** *** Sizes *)
Lemma zsum_const_length (rows : list (list V)) : zsum (λ _, 1%Z) rows = Z.of_nat (length rows).
Proof. induction rows; simpl; lia. Qed.
Lemma rsum_const_zero rs : rsum (λ _ : list V, 0%Z) rs = 0%Z.
Proof. induction rs; simpl; lia. Qed.

Lemma rsum_const_one rs : rsum (λ _ : list V, 1%Z) rs = foldr (λ rc d, sgn rc + d)%Z 0%Z rs.
Proof. induction rs as [|rc rs IH]; simpl; [done|]. lia. Qed.
Lemma applies_length old rs new :
  applies old rs new →
  Z.of_nat (length new) = (Z.of_nat (length old) + foldr (λ rc d, sgn rc + d) 0 rs)%Z.
Proof.
  intros Ha. by rewrite <-!zsum_const_length, (applies_zsum _ _ _ _ Ha), rsum_const_one.
Qed.

(** *** Rows of a batch *)
Lemma cols_at_length cols r : Forall (λ c, (c < length r)%nat) cols → length (cols_at cols r) = length cols.
Proof.
  unfold cols_at. induction 1 as [|c cols Hc Hf IH]; csimpl; [done|].
  destruct (lookup_lt_is_Some_2 r c Hc) as [v ->]. csimpl. by rewrite IH.
Qed.
Lemma wt_perm x rs rs' : rs ≡ₚ rs' → wt x rs = wt x rs'.
Proof. induction 1; simpl; lia. Qed.
Lemma batch_ok_forall (Q : list V → Prop) old rs new :
  Forall Q old → Forall (λ rc, Q (rec rc)) rs → batch_ok old rs new → Forall Q new.
Proof.
  intros Ho Hrs [_ Ha]. rewrite Forall_forall in Ho. rewrite Forall_forall in Hrs. apply Forall_forall. intros x Hx%occ_pos. rewrite (Ha x) in Hx.
  destruct (decide (0 < occ x old)%Z) as [Hin%occ_pos|Hn]; [by apply Ho|].
  destruct (decide (x ∈ rec <$> rs)) as [(rc & -> & Hrc)%list_elem_of_fmap|Hni]; [by apply Hrs|].
  rewrite (wt_not_in x rs) in Hx; [lia|]. intros rc Hrc Heq. apply Hni. apply list_elem_of_fmap. eauto.
Qed.
(** *** Retractions *)
(** How often a batch retracts a row. *)
Fixpoint negs (x : list V) rs : Z :=
  match rs with
  | [] => 0
  | Negative r :: rs' => (if decide (r = x) then 1 else 0) + negs x rs'
  | Positive _ :: rs' => negs x rs'
  end%Z.
Lemma negs_app x rs1 rs2 : negs x (rs1 ++ rs2) = (negs x rs1 + negs x rs2)%Z.
Proof. induction rs1 as [|[r|r] rs1 IH]; simpl; rewrite ?IH; lia. Qed.
Lemma negs_nonneg x rs : (0 <= negs x rs)%Z.
Proof. induction rs as [|[r|r] rs IH]; simpl; [done|done|]. case_decide; lia. Qed.
Lemma negs_wt x rs : (- negs x rs <= wt x rs)%Z.
Proof. induction rs as [|[r|r] rs IH]; simpl; unfold sgn; simpl; [done|..]; case_decide; lia. Qed.

(** A batch that retracts no row more often than it was there is valid. *)
Lemma batch_ok_negs old rs new : (∀ x, (negs x rs <= occ x old)%Z) → applies old rs new → batch_ok old rs new.
Proof.
  intros Hn Ha. split; [|done]. intros x n. pose proof (negs_wt x (take n rs)) as Hw.
  pose proof (Hn x) as Hx. rewrite <-(take_drop n rs), negs_app in Hx. pose proof (negs_nonneg x (drop n rs)). lia.
Qed.

Lemma batch_ok_exists old rs : (∀ x, (negs x rs <= occ x old)%Z) → ∃ new, batch_ok old rs new.
Proof.
  intros Hn. assert (∃ new, applies old rs new) as [new Ha].
  { revert old Hn. induction rs as [|[r|r] rs IH]; intros old Hn.
    - exists old. intros x. simpl. lia.
    - destruct (IH (r :: old)) as [new Hnew].
      + intros x. specialize (Hn x). simpl in *. case_decide; lia.
      + exists new. intros x. rewrite (Hnew x). simpl. unfold sgn. simpl. lia.
    - assert (r ∈ old) as Hin.
      { apply occ_pos. specialize (Hn r). simpl in Hn. rewrite decide_True in Hn by done.
        pose proof (negs_nonneg r rs). lia. }
      apply elem_of_Permutation in Hin as [old' Hp]. destruct (IH old') as [new Hnew].
      + intros x. specialize (Hn x). simpl in Hn. rewrite (occ_perm x _ _ Hp) in Hn. simpl in Hn. case_decide; lia.
      + exists new. intros x. rewrite (Hnew x), (occ_perm x _ _ Hp). simpl. unfold sgn. simpl. case_decide; lia. }
  exists new. by apply batch_ok_negs.
Qed.

(** *** Changes group by group *)
(** The change of the count of a row over some groups, whose rows were [old] and are
    [new]. *)
Definition net_change (x : list V) (old new : list V → list (list V)) (ks : list (list V)) : Z :=
  foldr (λ k a, occ x (new k) - occ x (old k) + a)%Z 0%Z ks.

Definition occ_over (x : list V) (old : list V → list (list V)) (ks : list (list V)) : Z :=
  foldr (λ k a, occ x (old k) + a)%Z 0%Z ks.

Lemma net_change_ext x old1 old2 new ks :
  (∀ k, k ∈ ks → old1 k = old2 k) → net_change x old1 new ks = net_change x old2 new ks.
Proof.
  intros Heq. unfold net_change. induction ks as [|k ks IH]; [done|]. simpl.
  rewrite (Heq k) by apply elem_of_here. rewrite IH; [done|]. intros; apply Heq. by apply elem_of_further.
Qed.
Lemma net_change_ext_new x old new1 new2 ks :
  (∀ k, k ∈ ks → new1 k = new2 k) → net_change x old new1 ks = net_change x old new2 ks.
Proof.
  intros Heq. unfold net_change. induction ks as [|k ks IH]; [done|]. simpl.
  rewrite (Heq k) by apply elem_of_here. rewrite IH; [done|]. intros; apply Heq. by apply elem_of_further.
Qed.

Lemma occ_over_ext x old1 old2 ks : (∀ k, k ∈ ks → old1 k = old2 k) → occ_over x old1 ks = occ_over x old2 ks.
Proof.
  intros Heq. unfold occ_over. induction ks as [|k ks IH]; [done|]. simpl.
  rewrite (Heq k) by apply elem_of_here. rewrite IH; [done|]. intros; apply Heq. by apply elem_of_further.
Qed.
Lemma occ_over_at x old (ks : list (list V)) k0 :
  NoDup ks → (∀ k, k ∈ ks → k ≠ k0 → x ∉ old k) →
  occ_over x old ks = if decide (k0 ∈ ks) then occ x (old k0) else 0%Z.
Proof.
  intros Hnd Hk. induction ks as [|k ks IH]; [by case_decide as Hin; [apply elem_of_nil in Hin|]|].
  apply NoDup_cons in Hnd as [Hni Hnd]. simpl. rewrite IH; [|done|intros k' Hk'; apply Hk; by apply elem_of_further].
  destruct (decide (k = k0)) as [->|Hne].
  - rewrite (decide_False (P := k0 ∈ ks)) by done. rewrite decide_True by apply elem_of_here. lia.
  - pose proof (Hk k (elem_of_here _ _) Hne) as ->%occ_zero. repeat case_decide; try lia; exfalso; set_solver.
Qed.
(** Only the group of a row contributes to the change of its count. *)
Lemma net_change_at x old new (ks : list (list V)) k0 :
  NoDup ks → (∀ k, k ∈ ks → k ≠ k0 → (x ∉ old k) ∧ (x ∉ new k)) →
  net_change x old new ks = if decide (k0 ∈ ks) then (occ x (new k0) - occ x (old k0))%Z else 0%Z.
Proof.
  intros Hnd Hk. induction ks as [|k ks IH]; [by case_decide as Hin; [apply elem_of_nil in Hin|]|].
  apply NoDup_cons in Hnd as [Hni Hnd]. simpl. rewrite IH; [|done|intros k' Hk'; apply Hk; by apply elem_of_further].
  destruct (decide (k = k0)) as [->|Hne].
  - rewrite (decide_False (P := k0 ∈ ks)) by done. rewrite decide_True by apply elem_of_here. lia.
  - destruct (Hk k (elem_of_here _ _) Hne) as [->%occ_zero ->%occ_zero].
    repeat case_decide; try lia; exfalso; set_solver.
Qed.
End batch_lemmas.
