(* ===== verification/OpUnion.v ===== *)
(** * OpUnion: the union operator on regular updates

    Models [readyset-dataflow/src/ops/union.rs]: the emit specification, the two
    duplicate modes and [on_input].  The theorems show that a [UnionAll] node
    maintains the sum of its projected parents, and that a [BagUnion] node,
    which keeps only the difference between its two parents' counts per row,
    emits exactly the change of the maximum of the two counts.  Replays are in
    [OpUnionReplay]. *)
From S2P Require Import Prelude Intervals BTreeMap Result Records Keys.
From stdpp Require Import gmap.

Inductive DuplicateMode := BagUnion | UnionAll.

Inductive Side := SideLeft | SideRight.
#[export] Instance Side_eq_dec : EqDecision Side.
Proof. solve_decision. Defined.
Definition other_side (s : Side) : Side :=
  match s with SideLeft => SideRight | SideRight => SideLeft end.

(** [Emit]: [EmitAll] is [AllFrom] (a shard merger); [EmitProject] keeps the
    columns to emit and the number of columns of every parent, by local node
    index, in index order ([emit_l] and [cols_l], which are [BTreeMap]s). *)
Inductive Emit :=
  | EmitAll
  | EmitProject (emit_l : list (nat * list nat)) (cols_l : list (nat * nat)).

(** [BagUnionState]: from the hash of a row to the parent with more copies of
    it and the difference of the two counts. *)
Abbreviation BagUnionState := (gmap Z (Side * nat)).

Section union.
Context `{DfVal V}.
Implicit Types (r : list V) (rc : Record V) (rs : list (Record V)).

(** [readyset_util::hash::hash], the 64-bit hash of a row. *)
Variable row_hash : list V → Z.

Definition bag_process (st : BagUnionState) (from_side : Side) rc : BagUnionState * bool :=
  let h := row_hash (rec rc) in
  match st !! h with
  | Some (row_side, size) =>
      let '(size', res) :=
        if decide (row_side = from_side)
        then ((if is_positive rc then S size else size - 1), true)
        else ((if is_positive rc then size - 1 else S size), false) in
      ((if size' =? 0 then delete h st else <[h := (row_side, size')]> st), res)
  | None =>
      if is_positive rc then (<[h := (from_side, 1)]> st, true)
      else (<[h := (other_side from_side, 1)]> st, false)
  end.

(** [results.retain(|rec| bus.process(parent, rec))]. *)
Fixpoint bag_retain (st : BagUnionState) (from_side : Side) rs : BagUnionState * list (Record V) :=
  match rs with
  | [] => (st, [])
  | rc :: rs' =>
      let '(st1, keep) := bag_process st from_side rc in
      let '(st2, out) := bag_retain st1 from_side rs' in
      (st2, if keep then rc :: out else out)
  end.

(** The row a parent's row is emitted as; an index outside the row panics. *)
Definition emit_row (emit : list nat) r : result (list V) :=
  result_mapM (λ col, expect (r !! col)) emit.

Definition emit_records (emit : list nat) rs : result (list (Record V)) :=
  result_mapM (λ rc, res ← emit_row emit (rec rc); Ok (with_row rc res)) rs.

(** The parts of [Union] that [on_input] uses. *)
Record UnionCore := {
  un_emit : Emit;
  un_bag : option BagUnionState;
}.

(** [Union::new]: the emit lists must be increasing. *)
Fixpoint emit_ordered (last : nat) (emit : list nat) : bool :=
  match emit with
  | [] => true
  | i :: emit' => (last <=? i) && emit_ordered i emit'
  end.
Definition union_new (emit : list (nat * list nat)) (cols : list (nat * nat)) (mode : DuplicateMode) :
    result UnionCore :=
  if match emit with [] => true | _ => false end then Err Internal
  else
    _ ← result_mapM (λ pe : nat * list nat,
          first ← expect (head pe.2);
          if emit_ordered first pe.2 then Ok tt else Err Internal) emit;
    Ok {| un_emit := EmitProject emit cols;
          un_bag := match mode with BagUnion => Some ∅ | UnionAll => None end |}.

(** [on_input]: the emitted records, through the bag union state if there is one. *)
Definition union_on_input (u : UnionCore) (from : nat) rs : result (list (Record V) * UnionCore) :=
  results ← match un_emit u with
            | EmitAll => Ok rs
            | EmitProject emit_l _ => emit ← expect (bm_get emit_l from); emit_records emit rs
            end;
  match un_bag u, un_emit u with
  | Some bus, EmitProject _ cols_l =>
      match head (bm_keys cols_l) with
      | None => Err Internal
      | Some first_parent =>
          let parent := if from =? first_parent then SideLeft else SideRight in
          let '(bus', out) := bag_retain bus parent results in
          Ok (out, {| un_emit := un_emit u; un_bag := Some bus' |})
      end
  | _, _ => Ok (results, u)
  end.

(** [column_source] of a projecting union: the columns in every parent. *)
Definition union_column_source (emit_l : list (nat * list nat)) (cols : list nat) :
    result (list (nat * list nat)) :=
  result_mapM (λ pe : nat * list nat,
    columns ← result_mapM (λ idx, expect (pe.2 !! idx)) cols; Ok (pe.1, columns)) emit_l.
End union.

(** *** Bag union *)
Section bag_union.
Context `{DfVal V}.
Implicit Types (r : list V) (rc : Record V) (rs : list (Record V)).
Variable row_hash : list V → Z.
(** A 64-bit hash has collisions: the rows that the union ever sees, [seen], are
    assumed to have none among themselves. *)
Variable seen : list V → Prop.
Hypothesis hash_inj : ∀ r1 r2, seen r1 → seen r2 → row_hash r1 = row_hash r2 → r1 = r2.
Open Scope Z_scope.

(** The entry the state holds for a row whose counts differ by [d]. *)
Definition bag_entry (d : Z) : option (Side * nat) :=
  if d =? 0 then None
  else if 0 <? d then Some (SideLeft, Z.to_nat d) else Some (SideRight, Z.to_nat (- d)).

(** The state reflects the per-row difference of the two sides. *)
Definition bag_inv (st : BagUnionState) (diff : list V → Z) : Prop :=
  ∀ r, seen r → st !! row_hash r = bag_entry (diff r).

Definition side_sign (s : Side) : Z := match s with SideLeft => 1 | SideRight => -1 end.

(** Updating the entry of one row to reflect its new difference. *)
Lemma bag_inv_update st diff r d' :
  seen r → bag_inv st diff →
  bag_inv (match bag_entry d' with
           | Some x => <[row_hash r := x]> st
           | None => delete (row_hash r) st
           end) (λ r', if decide (r = r') then d' else diff r').
Proof using hash_inj.
  intros Hr Hinv r' Hr'. destruct (decide (r = r')) as [<-|Hne].
  - destruct (bag_entry d'); simpl; [by rewrite lookup_insert_eq|by rewrite lookup_delete_eq].
  - destruct (bag_entry d'); simpl; rewrite ?lookup_insert_ne, ?lookup_delete_ne by naive_solver;
      by apply Hinv.
Qed.

Lemma bag_entry_pos d : 0 < d → bag_entry d = Some (SideLeft, Z.to_nat d).
Proof. intros. unfold bag_entry. by destruct (Z.eqb_spec d 0), (Z.ltb_spec 0 d); try lia. Qed.
Lemma bag_entry_neg d : d < 0 → bag_entry d = Some (SideRight, Z.to_nat (- d)).
Proof. intros. unfold bag_entry. by destruct (Z.eqb_spec d 0), (Z.ltb_spec 0 d); try lia. Qed.

Lemma bag_process_state st diff side rc :
  seen (rec rc) → bag_inv st diff →
  (bag_process row_hash st side rc).1 =
  match bag_entry (diff (rec rc) + side_sign side * sgn rc) with
  | Some x => <[row_hash (rec rc) := x]> st
  | None => delete (row_hash (rec rc)) st
  end.
Proof.
  intros Hrc Hinv. unfold bag_process. rewrite (Hinv (rec rc) Hrc). unfold sgn.
  set (d := diff (rec rc)). destruct (Z.lt_trichotomy d 0) as [Hd|[Hd|Hd]].
  - rewrite (bag_entry_neg d) by done. destruct side, (is_positive rc); simpl.
    all: match goal with |- context [bag_entry ?x] =>
      destruct (Z.lt_trichotomy x 0) as [Hx|[Hx|Hx]];
      [rewrite (bag_entry_neg x) by done | rewrite Hx | lia] end.
    all: try match goal with |- context [(?n =? 0)%nat] => destruct (Nat.eqb_spec n 0) end; try lia.
    all: simpl; try done; do 2 f_equal; lia.
  - rewrite Hd. simpl. destruct side, (is_positive rc); done.
  - rewrite (bag_entry_pos d) by done. destruct side, (is_positive rc); simpl.
    all: match goal with |- context [bag_entry ?x] =>
      destruct (Z.lt_trichotomy x 0) as [Hx|[Hx|Hx]];
      [lia | rewrite Hx | rewrite (bag_entry_pos x) by done] end.
    all: try match goal with |- context [(?n =? 0)%nat] => destruct (Nat.eqb_spec n 0) end; try lia.
    all: simpl; try done; do 2 f_equal; lia.
Qed.

Lemma bag_process_keep st diff side rc :
  seen (rec rc) → bag_inv st diff →
  (bag_process row_hash st side rc).2 =
  if is_positive rc then 0 <=? side_sign side * diff (rec rc)
  else 0 <? side_sign side * diff (rec rc).
Proof.
  intros Hrc Hinv. unfold bag_process. rewrite (Hinv (rec rc) Hrc).
  set (d := diff (rec rc)). destruct (Z.lt_trichotomy d 0) as [Hd|[Hd|Hd]].
  - rewrite (bag_entry_neg d) by done. destruct side, (is_positive rc); simpl; lia.
  - rewrite Hd. simpl. destruct side, (is_positive rc); done.
  - rewrite (bag_entry_pos d) by done. destruct side, (is_positive rc); simpl; lia.
Qed.

(** The batch: the state follows the difference, and the records kept change the
    maximum of the two sides. [L] and [R] are the counts before the batch. *)
Lemma bag_retain_correct rs st side (L R : list V → Z) :
  Forall (λ rc, seen (rec rc)) rs → bag_inv st (λ r, L r - R r) →
  let '(st', out) := bag_retain row_hash st side rs in
  let L' r := match side with SideLeft => L r + wt r rs | SideRight => L r end in
  let R' r := match side with SideLeft => R r | SideRight => R r + wt r rs end in
  bag_inv st' (λ r, L' r - R' r) ∧
  ∀ r, wt r out = Z.max (L' r) (R' r) - Z.max (L r) (R r).
Proof using hash_inj.
  intros Hrs. revert st L R. induction Hrs as [|rc rs Hrc Hrs IH]; intros st L R Hinv; simpl.
  - split; [|intros r; destruct side; lia]. intros r Hr. rewrite (Hinv r Hr). f_equal. destruct side; lia.
  - destruct (bag_process row_hash st side rc) as [st1 keep] eqn:E.
    pose proof (bag_process_state st _ side rc Hrc Hinv) as Hst. rewrite E in Hst. simpl in Hst.
    pose proof (bag_process_keep st _ side rc Hrc Hinv) as Hk. rewrite E in Hk. simpl in Hk.
    set (g := λ r, if decide (rec rc = r) then sgn rc else 0).
    set (L1 := λ r, match side with SideLeft => L r + g r | SideRight => L r end).
    set (R1 := λ r, match side with SideLeft => R r | SideRight => R r + g r end).
    assert (bag_inv st1 (λ r, L1 r - R1 r)) as Hinv1.
    { rewrite Hst. intros r Hr. rewrite (bag_inv_update _ _ _ _ Hrc Hinv r Hr). f_equal.
      unfold L1, R1, g. destruct (decide (rec rc = r)) as [<-|]; destruct side; simpl; lia. }
    specialize (IH st1 L1 R1 Hinv1).
    destruct (bag_retain row_hash st1 side rs) as [st2 out]. destruct IH as [Hi2 Hw2]. split.
    + intros r Hr. rewrite (Hi2 r Hr). f_equal. unfold L1, R1, g. destruct side; simpl; lia.
    + intros r. specialize (Hw2 r). unfold L1, R1, g in Hw2.
      assert (wt r (if keep then rc :: out else out) =
        (if keep then (if decide (rec rc = r) then sgn rc else 0) else 0) + wt r out) as ->
        by (destruct keep; simpl; lia).
      rewrite Hw2, Hk. unfold sgn. destruct (decide (rec rc = r)) as [<-|];
        destruct side; destruct (is_positive rc); simpl;
        repeat match goal with |- context [if ?b then _ else _] => destruct b eqn:? end; lia.
Qed.
End bag_union.

Section union_lemmas.
Context `{DfVal V}.
Implicit Types (r : list V) (rc : Record V) (rs : list (Record V)).

(** What a parent contributes to the union for one of its rows. *)
Definition emit_sem (emit : list nat) r : list (list V) :=
  match emit_row emit r with Ok r' => [r'] | _ => [] end.

Definition emit_fits (emit : list nat) r : Prop := Forall (λ i, i < length r) emit.

(** The union of the parents' contents. *)
Definition union_view (emit_l : list (nat * list nat)) (contents : nat → list (list V)) :
    list (list V) :=
  emit_l ≫= λ pe, contents pe.1 ≫= emit_sem pe.2.

Definition set_contents (contents : nat → list (list V)) (p : nat) (l : list (list V)) :
    nat → list (list V) := λ q, if decide (q = p) then l else contents q.

Lemma emit_row_fits emit r : emit_fits emit r → emit_row emit r = Ok (omap (λ i, r !! i) emit).
Proof.
  intros Hf. unfold emit_row. apply result_mapM_inv.
  induction Hf as [|i emit Hi Hf IH]; csimpl; [constructor|].
  destruct (lookup_lt_is_Some_2 r i Hi) as [v Hv]. rewrite Hv. constructor; [by rewrite Hv|done].
Qed.

Lemma emit_records_ok emit rs :
  Forall (λ rc, emit_fits emit (rec rc)) rs → emit_records emit rs = Ok (lift (emit_sem emit) rs).
Proof.
  intros Hf. unfold emit_records, lift. induction Hf as [|rc rs Hrc Hf IH]; csimpl; [done|].
  unfold emit_sem. rewrite emit_row_fits by done. simpl. by rewrite IH.
Qed.

Lemma bind_ext_elem {A} (f g : A → list (list V)) l :
  (∀ x, x ∈ l → f x = g x) → l ≫= f = l ≫= g.
Proof.
  induction l as [|x l IH]; intros Hfg; csimpl; [done|].
  rewrite (Hfg x (elem_of_here x l)), IH; [done|]. intros; apply Hfg. by apply elem_of_further.
Qed.

Lemma bm_get_split {A} (m : list (nat * A)) k v :
  bm_wf m → bm_get m k = Some v →
  ∃ m1 m2, m = m1 ++ (k, v) :: m2 ∧ (∀ kv, kv ∈ m1 → kv.1 ≠ k) ∧ (∀ kv, kv ∈ m2 → kv.1 ≠ k).
Proof.
  induction m as [|[k' v'] m IH]; [done|]. rewrite bm_wf_cons, bm_get_cons. intros [Hwf Hf].
  case_decide as Hk; intros Hg.
  - simplify_eq. exists [], m. split_and!; [done|set_solver|]. intros kv Hin Hk.
    rewrite Forall_forall in Hf. specialize (Hf kv Hin). rewrite Hk, cmp_refl in Hf. done.
  - destruct (IH Hwf Hg) as (m1 & m2 & -> & H1 & H2). exists ((k', v') :: m1), m2.
    split_and!; [done| |done]. intros kv [->|Hin]%elem_of_cons; [by apply not_eq_sym|eauto].
Qed.

Lemma union_view_applies emit_l contents from emit rs new :
  bm_wf emit_l → bm_get emit_l from = Some emit → applies (contents from) rs new →
  applies (union_view emit_l contents) (lift (emit_sem emit) rs)
          (union_view emit_l (set_contents contents from new)).
Proof.
  intros Hwf Hg Ha. destruct (bm_get_split _ _ _ Hwf Hg) as (m1 & m2 & -> & H1 & H2).
  unfold union_view. rewrite !bind_app. csimpl.
  assert (∀ m, (∀ kv, kv ∈ m → kv.1 ≠ from) →
    (m ≫= λ pe : nat * list nat, set_contents contents from new pe.1 ≫= emit_sem pe.2) =
    (m ≫= λ pe, contents pe.1 ≫= emit_sem pe.2)) as Hsame.
  { intros m Hm. apply bind_ext_elem. intros kv Hin. unfold set_contents.
    by rewrite decide_False by auto. }
  rewrite !Hsame by done. unfold set_contents. rewrite decide_True by done.
  intros r. pose proof (applies_lift (emit_sem emit) _ _ _ Ha r). rewrite !occ_app. lia.
Qed.
End union_lemmas.

Section union_theorems.
Context `{DfVal V} (row_hash : list V → Z).
Implicit Types (r : list V) (rc : Record V) (rs : list (Record V)).

(** A [UnionAll] node maintains the sum of its projected parents: a batch
    from one parent is accepted and its output takes the union of the old
    contents to the union of the new contents. *)
Theorem union_all_maintains emit_l cols_l from emit rs :
  bm_wf emit_l → bm_get emit_l from = Some emit →
  Forall (λ rc, emit_fits emit (rec rc)) rs →
  let u := {| un_emit := EmitProject emit_l cols_l; un_bag := None |} in
  ∃ out, union_on_input row_hash u from rs = Ok (out, u) ∧
    ∀ contents new, applies (contents from) rs new →
      applies (union_view emit_l contents) out
              (union_view emit_l (set_contents contents from new)).
Proof.
  intros Hwf Hg Hf u. eexists. split.
  - unfold union_on_input. simpl. rewrite Hg. simpl. rewrite emit_records_ok by done. done.
  - intros contents new Ha. by apply union_view_applies.
Qed.

(** C35: A [BagUnion] node emits exactly the change of its view, the multiset in
    which every row occurs as often as in the parent that has more of it, given
    that the hash has no collision among the rows the union ever sees ([seen]), of
    which the batch is one part, and that the state reflects the parents; and it
    keeps the state in step.  Left is the parent with the smaller index. *)
Theorem bag_union_maintains emit_l cols_l st left right rest from emit_left emit_right rs
    (seen : list V → Prop) (contents : nat → list (list V)) (new : list (list V)) :
  (∀ r1 r2, seen r1 → seen r2 → row_hash r1 = row_hash r2 → r1 = r2) →
  bm_keys cols_l = left :: rest → left ≠ right → from = left ∨ from = right →
  bm_get emit_l left = Some emit_left → bm_get emit_l right = Some emit_right →
  Forall (λ rc, emit_fits (if decide (from = left) then emit_left else emit_right) (rec rc)) rs →
  Forall (λ rc, Forall seen (emit_sem (if decide (from = left) then emit_left else emit_right) (rec rc))) rs →
  applies (contents from) rs new →
  let side c p := c p ≫= emit_sem (if decide (p = left) then emit_left else emit_right) in
  let diff c r := (occ r (side c left) - occ r (side c right))%Z in
  bag_inv row_hash seen st (diff contents) →
  let u := {| un_emit := EmitProject emit_l cols_l; un_bag := Some st |} in
  let contents' := set_contents contents from new in
  ∃ out st', union_on_input row_hash u from rs =
      Ok (out, {| un_emit := EmitProject emit_l cols_l; un_bag := Some st' |}) ∧
    bag_inv row_hash seen st' (diff contents') ∧
    ∀ r, wt r out = (Z.max (occ r (side contents' left)) (occ r (side contents' right)) -
                     Z.max (occ r (side contents left)) (occ r (side contents right)))%Z.
Proof.
  intros Hinj Hkeys Hlr Hfrom Hgl Hgr Hf Hseen Ha side diff Hinv u contents'.
  set (emit := if decide (from = left) then emit_left else emit_right) in *.
  assert (bm_get emit_l from = Some emit) as Hg.
  { unfold emit. destruct Hfrom as [->| ->]; [by rewrite decide_True|by rewrite decide_False]. }
  unfold union_on_input. simpl. rewrite Hg. simpl. rewrite emit_records_ok by done. simpl.
  rewrite Hkeys. simpl.
  set (sd := if from =? left then SideLeft else SideRight).
  assert (Forall (λ rc, seen (rec rc)) (lift (emit_sem emit) rs)) as Hrows.
  { unfold lift. apply Forall_bind. eapply Forall_impl; [exact Hseen|]. intros rc Hrc.
    apply Forall_fmap. eapply Forall_impl; [exact Hrc|]. by destruct rc. }
  pose proof (bag_retain_correct row_hash seen Hinj (lift (emit_sem emit) rs) st sd
    (λ r, occ r (side contents left)) (λ r, occ r (side contents right)) Hrows Hinv) as Hret.
  destruct (bag_retain row_hash st sd (lift (emit_sem emit) rs)) as [st' out].
  destruct Hret as [Hst Hw]. exists out, st'. split; [done|].
  pose proof (applies_lift (emit_sem emit) _ _ _ Ha) as Hal.
  assert (∀ r, occ r (side contents' left) = (match sd with SideLeft => occ r (side contents left) +
      wt r (lift (emit_sem emit) rs) | SideRight => occ r (side contents left) end)%Z ∧
    occ r (side contents' right) = (match sd with SideLeft => occ r (side contents right)
      | SideRight => occ r (side contents right) + wt r (lift (emit_sem emit) rs) end)%Z) as Hsides.
  { intros r. specialize (Hal r). unfold side, contents', set_contents, sd, emit in *.
    destruct Hfrom as [->| ->]; [rewrite Nat.eqb_refl|destruct (Nat.eqb_spec right left)];
      repeat case_decide; try congruence; split; try done; lia. }
  split.
  - intros r Hr. rewrite (Hst r Hr). f_equal. unfold diff. destruct (Hsides r) as [-> ->]. done.
  - intros r. rewrite Hw. destruct (Hsides r) as [-> ->]. by destruct sd.
Qed.
End union_theorems.

(** Witnesses: two parents with one column each, and a hash into 64 bits; the rows
    that occur are those of the numbers 5 and 6. *)
Definition sample_hash (r : list SampleVal) : Z := Z.pos (encode r) mod 2 ^ 64.
Definition sample_rows : list (list SampleVal) := [[SInt 5]; [SInt 6]].

Lemma sample_hash_inj (r1 r2 : list SampleVal) :
  r1 ∈ sample_rows → r2 ∈ sample_rows → sample_hash r1 = sample_hash r2 → r1 = r2.
Proof.
  unfold sample_rows. rewrite !elem_of_cons, !elem_of_nil. intros [->|[->|[]]] [->|[->|[]]] Heq;
    done || (exfalso; vm_compute in Heq; discriminate).
Qed.

Definition sample_emit : list (nat * list nat) := [(1, [0]); (2, [0])].

Lemma union_all_maintains_witness :
  ∃ out, union_on_input sample_hash {| un_emit := EmitProject sample_emit []; un_bag := None |} 2
      [Positive [SInt 1; SInt 7]] =
    Ok (out, {| un_emit := EmitProject sample_emit []; un_bag := None |}) ∧
    ∀ contents new, applies (contents 2) [Positive [SInt 1; SInt 7]] new →
      applies (union_view sample_emit contents) out
              (union_view sample_emit (set_contents contents 2 new)).
Proof.
  apply (union_all_maintains sample_hash sample_emit [] 2 [0] [Positive [SInt 1; SInt 7]]).
  - repeat constructor.
  - reflexivity.
  - repeat constructor.
Defined.

Lemma bag_union_maintains_witness :
  ∃ out st', union_on_input sample_hash
      {| un_emit := EmitProject sample_emit [(1, 1); (2, 1)]; un_bag := Some ∅ |} 1
      [Positive [SInt 5]; Positive [SInt 6]; Positive [SInt 5]] =
    Ok (out, {| un_emit := EmitProject sample_emit [(1, 1); (2, 1)]; un_bag := Some st' |}) ∧
    wt [SInt 5] out = 2%Z.
Proof.
  destruct (bag_union_maintains sample_hash sample_emit [(1, 1); (2, 1)] ∅ 1 2 [2] 1 [0] [0]
    [Positive [SInt 5]; Positive [SInt 6]; Positive [SInt 5]] (λ r, r ∈ sample_rows) (λ _, []) [[SInt 5]; [SInt 6]; [SInt 5]])
    as (out & st' & Heq & _ & Hw).
  - exact sample_hash_inj.
  - reflexivity.
  - lia.
  - by left.
  - reflexivity.
  - reflexivity.
  - repeat constructor.
  - unfold sample_rows. repeat constructor; cbn; set_solver.
  - intros r. cbn [occ wt rec]. unfold sgn. cbn [is_positive]. repeat case_decide; lia.
  - intros r _. reflexivity.
  - exists out, st'. split; [exact Heq|]. rewrite Hw. reflexivity.
Defined.
