(* ===== verification/OpUnionReplay.v ===== *)
(** * OpUnionReplay: the union operator under replays

    Models [on_input_raw] and [on_eviction] of
    [readyset-dataflow/src/ops/union.rs].  A union receives one replay per
    parent and must forward one: it buffers full replays until every parent has
    started ([FullWait]) and pieces of partial replays until every parent has
    sent one ([replay_pieces]), folding in the updates that arrive meanwhile.
    The theorems show that nothing is lost, duplicated or reordered by the
    buffering, that a full replay ends exactly when every parent's has, and that
    a partial replay is released exactly with the last parent's piece.

    [replay_pieces] is a [BTreeMap] with a hand-written comparison; it is
    modelled by the association its keys' equality gives.  [brk_cmp_eq] shows
    that the comparison agrees with that equality, and
    [buffered_replay_key_order] where it is an order. *)
From S2P Require Import Prelude Intervals BTreeMap Result Records Keys OpUnion.
From stdpp Require Import gmap.

Section union_replay.
Context `{DfVal V}.
Implicit Types (r : list V) (rc : Record V) (rs : list (Record V)).
Variable row_hash : list V → Z.

Record BufferedReplayKey := {
  brk_tag : nat;
  brk_key : KeyComparison V;
  brk_shard : nat;
  brk_replica : nat;
}.

(** The [match] on the two keys in [Ord for BufferedReplayKey]; the last arm
    binds the two bounds of the range in swapped order, as the source does. *)
Definition brk_key_cmp (k1 k2 : KeyComparison V) : comparison :=
  match k1, k2 with
  | KEqual a, KEqual b => cmp a b
  | KRange (l1, u1), KRange (l2, u2) => then_cmp (cmp_startbound l1 l2) (cmp_endbound u1 u2)
  | KEqual k, KRange (l, u) =>
      then_cmp (cmp_startbound (Included k) l) (cmp_endbound (Included k) u)
  | KRange (u, l), KEqual k =>
      then_cmp (cmp_startbound l (Included k)) (cmp_endbound u (Included k))
  end.

Definition brk_cmp (a b : BufferedReplayKey) : comparison :=
  then_cmp (cmp (brk_tag a) (brk_tag b))
    (then_cmp (brk_key_cmp (brk_key a) (brk_key b))
      (then_cmp (cmp (brk_shard a) (brk_shard b)) (cmp (brk_replica a) (brk_replica b)))).

Definition brk_eq (a b : BufferedReplayKey) : bool :=
  bool_decide (brk_tag a = brk_tag b) && kc_eq (brk_key a) (brk_key b) &&
  bool_decide (brk_shard a = brk_shard b) && bool_decide (brk_replica a = brk_replica b).

Record ReplayPieces := {
  rp_buffered : gmap nat (list (Record V));
  rp_evict : bool;
}.

Inductive FullWait :=
  | FwNone
  | FwOngoing (started : gset nat) (finished : nat) (buffered : list (Record V)).

Record Union := {
  u_core : UnionCore;
  u_replay_key : gmap (nat * nat) (list nat);
  u_pieces : list (BufferedReplayKey * ReplayPieces);
  u_required : nat;
  u_full : FullWait;
}.

Definition set_core (u : Union) c : Union :=
  {| u_core := c; u_replay_key := u_replay_key u; u_pieces := u_pieces u;
     u_required := u_required u; u_full := u_full u |}.
Definition set_full (u : Union) f : Union :=
  {| u_core := u_core u; u_replay_key := u_replay_key u; u_pieces := u_pieces u;
     u_required := u_required u; u_full := f |}.
Definition set_pieces (u : Union) p : Union :=
  {| u_core := u_core u; u_replay_key := u_replay_key u; u_pieces := p;
     u_required := u_required u; u_full := u_full u |}.

(** [RawProcessingResult]. *)
Inductive RawResult :=
  | Regular (results : list (Record V))
  | CapturedFull
  | FullReplay (results : list (Record V)) (last : bool)
  | ReplayPiece (rows : list (Record V)) (keys captured : list (KeyComparison V)).

(** *** Full replays *)

(** The [match self.full_wait_state] of the [Full] arm, on processed records. *)
Definition full_wait_replay (required : nat) (w : FullWait) (from : nat) rs (last : bool) :
    RawResult * FullWait :=
  match w with
  | FwNone =>
      if required =? 1 then (FullReplay rs last, FwNone)
      else (CapturedFull, FwOngoing {[ from ]} (if last then 1 else 0) rs)
  | FwOngoing started finished buffered =>
      let finished := if last then S finished else finished in
      if finished =? required then (FullReplay (buffered ++ rs) true, FwNone)
      else if negb (size started =? required) then
        let started' := {[ from ]} ∪ started in
        if negb (bool_decide (from ∈ started)) && (size started' =? required)
        then (FullReplay (buffered ++ rs) false, FwOngoing started' finished [])
        else (CapturedFull, FwOngoing started' finished (buffered ++ rs))
      else (FullReplay rs false, FwOngoing started finished buffered)
  end.

(** Whether a regular update must be absorbed into the pending full replay. *)
Definition absorbs (required : nat) (w : FullWait) (from : nat) : bool :=
  match w with
  | FwNone => false
  | FwOngoing started _ _ => negb (size started =? required) && bool_decide (from ∈ started)
  end.
Definition full_wait_absorb (w : FullWait) rs : FullWait :=
  match w with
  | FwNone => FwNone
  | FwOngoing started finished buffered => FwOngoing started finished (buffered ++ rs)
  end.

Definition union_raw_full (u : Union) (from : nat) rs (last : bool) : result (RawResult * Union) :=
  '(rs', core) ← union_on_input row_hash (u_core u) from rs;
  let '(out, w) := full_wait_replay (u_required u) (u_full u) from rs' last in
  Ok (out, set_full (set_core u core) w).

(** *** Partial replays: the pieces of one key *)

(** Storing the piece [rs] of parent [from]: the new entry ([None] removes it)
    and the pieces to release. *)
Definition add_piece (required : nat) (e : option ReplayPieces) (from : nat) rs :
    result (option ReplayPieces * option ReplayPieces) :=
  match e with
  | Some p =>
      match rp_buffered p !! from with
      | Some _ => Panic
      | None =>
          let p' := {| rp_buffered := <[from := rs]> (rp_buffered p); rp_evict := rp_evict p |} in
          if size (rp_buffered p) =? required - 1 then Ok (None, Some p') else Ok (Some p', None)
      end
  | None =>
      let p := {| rp_buffered := {[ from := rs ]}; rp_evict := false |} in
      if required =? 1 then Ok (None, Some p) else Ok (Some p, None)
  end.

(** Records of a regular batch that a buffered replay for [key] must keep. *)
Fixpoint matching_records (key : KeyComparison V) (cols : list nat) rs :
    result (list (Record V)) :=
  match rs with
  | [] => Ok []
  | rc :: rs' =>
      k ← emit_row cols (rec rc);
      ms ← matching_records key cols rs';
      Ok (if kc_contains key k then rc :: ms else ms)
  end.

Definition add_update (p : ReplayPieces) (from : nat) rs : ReplayPieces :=
  match rp_buffered p !! from with
  | Some b => {| rp_buffered := <[from := b ++ rs]> (rp_buffered p); rp_evict := rp_evict p |}
  | None => p
  end.

(** [replay_key] is kept per parent, or under 0 for a shard merger. *)
Definition rkey_from (u : Union) (from : nat) : nat :=
  match un_emit (u_core u) with EmitAll => 0 | _ => from end.

(** The loop of the [None] arm over the buffered upquery responses. *)
Definition update_pieces (u : Union) (from : nat) rs :
    result (list (BufferedReplayKey * ReplayPieces)) :=
  result_mapM (λ kp : BufferedReplayKey * ReplayPieces,
    if bool_decide (rp_buffered kp.2 = ∅) then Err Internal
    else match rp_buffered kp.2 !! from with
         | None => Ok kp
         | Some _ =>
             cols ← expect (u_replay_key u !! (brk_tag kp.1, rkey_from u from));
             ms ← matching_records (brk_key kp.1) cols rs;
             Ok (kp.1, add_update kp.2 from ms)
         end) (u_pieces u).

(** The [None] arm: a regular update. *)
Definition union_raw_update (u : Union) (from : nat) rs : result (RawResult * Union) :=
  if absorbs (u_required u) (u_full u) from then
    if bool_decide (u_replay_key u = ∅) || match u_pieces u with [] => true | _ => false end then
      '(rs', core) ← union_on_input row_hash (u_core u) from rs;
      Ok (Regular rs', set_full (set_core u core) (full_wait_absorb (u_full u) rs'))
    else Err Internal
  else
    pieces ← update_pieces u from rs;
    '(rs', core) ← union_on_input row_hash (u_core u) from rs;
    Ok (Regular rs', set_core (set_pieces u pieces) core).

(** [replay_pieces] as an association. *)
Fixpoint pieces_get (l : list (BufferedReplayKey * ReplayPieces)) (k : BufferedReplayKey) :
    option ReplayPieces :=
  match l with
  | [] => None
  | (k', p) :: l' => if brk_eq k' k then Some p else pieces_get l' k
  end.
Definition pieces_remove (l : list (BufferedReplayKey * ReplayPieces)) (k : BufferedReplayKey) :
    list (BufferedReplayKey * ReplayPieces) := filter (λ kp, brk_eq kp.1 k = false) l.
Definition pieces_set (l : list (BufferedReplayKey * ReplayPieces)) (k : BufferedReplayKey)
    (e : option ReplayPieces) : list (BufferedReplayKey * ReplayPieces) :=
  match e with Some p => (k, p) :: pieces_remove l k | None => pieces_remove l k end.

(** The map from key to records a replay's rows are folded into. *)
Definition rows_by_key (key_cols : list nat) rs : result (list (list V * list (Record V))) :=
  result_foldl (λ m rc,
    k ← emit_row key_cols (rec rc);
    Ok (bm_insert m k (default [] (bm_get m k) ++ [rc]))) [] rs.

(** [BTreeMap::range] panics on a reversed range and on an empty open one. *)
Definition range_panics (b : BoundPair (list V)) : bool :=
  match b with
  | (Excluded s, Excluded e) => is_ge (cmp s e)
  | (Included s, (Included e | Excluded e)) | (Excluded s, Included e) => is_gt (cmp s e)
  | _ => false
  end.

(** [range_mut(key).flat_map(|(_, rs)| mem::take(rs))]. *)
Definition take_key_rows (m : list (list V * list (Record V))) (key : KeyComparison V) :
    result (list (Record V) * list (list V * list (Record V))) :=
  if range_panics (bounds key) then Panic
  else Ok ((bm_range m (bounds key)).*2 ≫= id,
           (λ kr : list V * list (Record V),
              if in_range (bounds key) kr.1 then (kr.1, []) else kr) <$> m).

(** What the [Partial] arm accumulates over the keys of the replay. *)
Record PartialAcc := {
  pa_pieces : list (BufferedReplayKey * ReplayPieces);
  pa_rows : list (list V * list (Record V));
  pa_core : UnionCore;
  pa_out : list (Record V);
  pa_released : list (KeyComparison V);
  pa_captured : list (KeyComparison V);
}.

(** Running the released pieces through [on_input], parent by parent; the
    pieces sit in a [HashMap], whose order is unspecified. *)
Definition release_pieces (core : UnionCore) (p : ReplayPieces) :
    result (list (Record V) * UnionCore) :=
  result_foldl (λ acc fr,
    '(rs', core') ← union_on_input row_hash acc.2 fr.1 fr.2;
    Ok (acc.1 ++ rs', core')) ([], core) (map_to_list (rp_buffered p)).

(** One key of the replay: take its rows, store the piece, release if complete. *)
Definition partial_key (required from tag shard replica : nat) (a : PartialAcc)
    (key : KeyComparison V) : result PartialAcc :=
  '(rs, rows) ← take_key_rows (pa_rows a) key;
  let bk := {| brk_tag := tag; brk_key := key; brk_shard := shard; brk_replica := replica |} in
  '(e, release) ← add_piece required (pieces_get (pa_pieces a) bk) from rs;
  let pieces := pieces_set (pa_pieces a) bk e in
  match release with
  | None =>
      Ok {| pa_pieces := pieces; pa_rows := rows; pa_core := pa_core a; pa_out := pa_out a;
            pa_released := pa_released a; pa_captured := pa_captured a ++ [key] |}
  | Some p =>
      '(rs', core) ← release_pieces (pa_core a) p;
      Ok {| pa_pieces := pieces; pa_rows := rows; pa_core := core; pa_out := pa_out a ++ rs';
            pa_released := pa_released a ++ [key]; pa_captured := pa_captured a |}
  end.

(** The replay key of a tag, translated to the columns of every parent. *)
Definition insert_replay_key (u : Union) (from tag : nat) (key_cols : list nat) :
    result (gmap (nat * nat) (list nat)) :=
  match u_replay_key u !! (tag, rkey_from u from) with
  | Some _ => Ok (u_replay_key u)
  | None =>
      match un_emit (u_core u) with
      | EmitAll => Ok (<[(tag, 0) := key_cols]> (u_replay_key u))
      | EmitProject emit_l _ =>
          emit ← expect (bm_get emit_l from);
          cols ← result_mapM (λ c, expect (emit !! c)) key_cols;
          result_foldl (λ m (pe : nat * list nat),
            if decide (pe.1 = from) then Ok m
            else cs ← result_mapM (λ c, expect (pe.2 !! c)) key_cols; Ok (<[(tag, pe.1) := cs]> m))
            (<[(tag, from) := cols]> (u_replay_key u)) emit_l
      end
  end.

(** The [Partial] arm: a piece of a partial replay for [keys]. *)
Definition union_raw_partial (u : Union) (from : nat) rs (key_cols : list nat)
    (keys : list (KeyComparison V)) (shard replica : nat) (unishard : bool) (tag : nat) :
    result (RawResult * Union) :=
  if match un_emit (u_core u) with EmitAll => unishard | _ => false end then
    match u_pieces u with
    | [] => Ok (ReplayPiece rs keys [], u)
    | _ => Err Internal
    end
  else
    rk ← insert_replay_key u from tag key_cols;
    rows ← rows_by_key key_cols rs;
    a ← result_foldl (partial_key (u_required u) from tag shard replica)
          {| pa_pieces := u_pieces u; pa_rows := rows; pa_core := u_core u; pa_out := [];
             pa_released := []; pa_captured := [] |} keys;
    Ok (ReplayPiece (pa_out a) (pa_released a) (pa_captured a),
        {| u_core := pa_core a; u_replay_key := rk; u_pieces := pa_pieces a;
           u_required := u_required u; u_full := u_full u |}).

(** [on_eviction]: a piece already received from the evicting parent marks its
    buffered replay for eviction; the range over requesting shards and replicas
    selects the entries of the tag and key. *)
Definition union_on_eviction (u : Union) (from tag : nat) (keys : list (KeyComparison V)) : Union :=
  set_pieces u ((λ kp : BufferedReplayKey * ReplayPieces,
    if existsb (λ key, bool_decide (brk_tag kp.1 = tag) && kc_eq (brk_key kp.1) key) keys
       && match rp_buffered kp.2 !! from with Some _ => true | None => false end
    then (kp.1, {| rp_buffered := rp_buffered kp.2; rp_evict := true |}) else kp) <$> u_pieces u).
End union_replay.
Arguments BufferedReplayKey : clear implicits.
Arguments ReplayPieces : clear implicits.
Arguments FullWait : clear implicits.
Arguments Union : clear implicits.
Arguments RawResult : clear implicits.

(** *** Runs of a full replay *)
Section full_replay.
Context {V : Type}.
Implicit Types (rs : list (Record V)) (w : FullWait V).

(** What reaches the union during a full replay: replay messages and regular
    updates (their records already processed by [on_input]). *)
Inductive FullEvent :=
  | FeReplay (from : nat) (rs : list (Record V)) (last : bool)
  | FeUpdate (from : nat) (rs : list (Record V)).

Definition full_event (required : nat) w (ev : FullEvent) : RawResult V * FullWait V :=
  match ev with
  | FeReplay from rs last => full_wait_replay required w from rs last
  | FeUpdate from rs =>
      (Regular rs, if absorbs required w from then full_wait_absorb w rs else w)
  end.

Fixpoint full_run (required : nat) w (evs : list FullEvent) : list (RawResult V) * FullWait V :=
  match evs with
  | [] => ([], w)
  | ev :: evs' =>
      let '(out, w1) := full_event required w ev in
      let '(outs, w2) := full_run required w1 evs' in (out :: outs, w2)
  end.

(** The records of the replay that went in (messages and absorbed updates), and
    those that came out. *)
Fixpoint full_inputs (required : nat) w (evs : list FullEvent) : list (Record V) :=
  match evs with
  | [] => []
  | ev :: evs' =>
      match ev with
      | FeReplay _ rs _ => rs
      | FeUpdate from rs => if absorbs required w from then rs else []
      end ++ full_inputs required (full_event required w ev).2 evs'
  end.
Definition replay_out (o : RawResult V) : list (Record V) :=
  match o with FullReplay rs _ => rs | _ => [] end.
Definition replay_last (o : RawResult V) : bool :=
  match o with FullReplay _ b => b | _ => false end.
Definition fw_buffered w : list (Record V) :=
  match w with FwNone => [] | FwOngoing _ _ b => b end.
Definition fe_last (ev : FullEvent) : nat :=
  match ev with FeReplay _ _ true => 1 | _ => 0 end.
Definition fe_from (ev : FullEvent) : nat :=
  match ev with FeReplay from _ _ | FeUpdate from _ => from end.
Definition count_last (evs : list FullEvent) : nat := sum_list (fe_last <$> evs).

(** Nothing stays buffered once every parent has started. *)
Definition fw_ok (required : nat) w : Prop :=
  match w with FwOngoing s _ b => size s = required → b = [] | FwNone => True end.

Lemma full_event_ok required w ev : fw_ok required w → fw_ok required (full_event required w ev).2.
Proof.
  destruct ev as [from rs last|from rs], w as [|s f b]; cbn [full_event full_wait_replay]; intros Hok.
  - destruct (Nat.eqb_spec required 1); cbn [snd fw_ok]; [done|]. rewrite size_singleton. lia.
  - destruct (_ =? required); cbn [snd fw_ok]; [done|].
    destruct (Nat.eqb_spec (size s) required); cbn [negb snd fw_ok]; [done|].
    destruct (_ && _) eqn:E; cbn [snd fw_ok]; [done|]. intros Hs. apply andb_false_iff in E as [E|E].
    + apply negb_false_iff, bool_decide_eq_true in E.
      assert ({[from]} ∪ s = s) as Heq by set_solver. rewrite Heq in Hs. done.
    + by apply Nat.eqb_neq in E.
  - done.
  - cbn [absorbs snd full_wait_absorb]. destruct (Nat.eqb_spec (size s) required); [done|].
    case_bool_decide; cbn [negb andb fw_ok]; intros; done.
Qed.

Lemma full_event_conserves required w ev :
  fw_ok required w →
  replay_out (full_event required w ev).1 ++ fw_buffered (full_event required w ev).2 =
  fw_buffered w ++ match ev with
                   | FeReplay _ rs _ => rs
                   | FeUpdate from rs => if absorbs required w from then rs else []
                   end.
Proof.
  destruct ev as [from rs last|from rs], w as [|s f b]; simpl; intros Hok.
  - destruct (required =? 1); simpl; by rewrite ?app_nil_r.
  - destruct (_ =? required); simpl; [by rewrite app_nil_r|].
    destruct (Nat.eqb_spec (size s) required) as [Hs|Hs]; simpl.
    + rewrite Hok by done. by rewrite app_nil_r.
    + destruct (_ && _); simpl; by rewrite ?app_nil_r.
  - done.
  - destruct (negb _ && _); simpl; by rewrite ?app_nil_r.
Qed.

Lemma full_run_conserves required evs w :
  fw_ok required w →
  ((full_run required w evs).1 ≫= replay_out) ++ fw_buffered (full_run required w evs).2 =
  fw_buffered w ++ full_inputs required w evs.
Proof.
  revert w. induction evs as [|ev evs IH]; intros w Hok; simpl; [by rewrite app_nil_r|].
  pose proof (full_event_conserves required w ev Hok) as He.
  pose proof (full_event_ok required w ev Hok) as Hok1.
  destruct (full_event required w ev) as [out w1] eqn:E. simpl in *.
  specialize (IH w1 Hok1). destruct (full_run required w1 evs) as [outs w2]. csimpl in *.
  by rewrite <-app_assoc, IH, app_assoc, He, <-app_assoc.
Qed.

Lemma full_run_app required w evs1 evs2 :
  full_run required w (evs1 ++ evs2) =
  ((full_run required w evs1).1 ++ (full_run required (full_run required w evs1).2 evs2).1,
   (full_run required (full_run required w evs1).2 evs2).2).
Proof.
  revert w. induction evs1 as [|ev evs1 IH]; intros w; simpl; [by destruct (full_run _ w evs2)|].
  destruct (full_event required w ev) as [out w1]. rewrite IH.
  by destruct (full_run required w1 evs1) as [outs w2]; simpl.
Qed.

(** The number of finished parents is the number of last messages seen. *)
Definition fw_finished w (n : nat) : Prop :=
  match w with FwNone => n = 0 | FwOngoing _ f _ => f = n end.

Lemma full_event_finished required w ev n :
  1 < required → fw_finished w n → n + fe_last ev < required →
  fw_finished (full_event required w ev).2 (n + fe_last ev) ∧
  replay_last (full_event required w ev).1 = false.
Proof.
  intros Hreq Hn Hlt. destruct ev as [from rs last|from rs], w as [|s f b];
    cbn [full_event full_wait_replay fe_last] in *; simpl in Hn; subst.
  - destruct (Nat.eqb_spec required 1); [lia|]. by destruct last.
  - assert ((if last then S n else n) = n + (if last then 1 else 0)) as -> by (destruct last; lia).
    destruct (Nat.eqb_spec (n + (if last then 1 else 0)) required); [lia|].
    destruct (negb (size s =? required)); [|done]. by destruct (_ && _).
  - done.
  - cbn [snd fst]. rewrite Nat.add_0_r. by destruct (absorbs _ _ _).
Qed.

Lemma full_run_finished required evs w n :
  1 < required → fw_finished w n → n + count_last evs < required →
  fw_finished (full_run required w evs).2 (n + count_last evs) ∧
  Forall (λ o, replay_last o = false) (full_run required w evs).1.
Proof.
  intros Hreq. unfold count_last. revert w n.
  induction evs as [|ev evs IH]; intros w n Hn Hlt; csimpl in *.
  - rewrite Nat.add_0_r. by split.
  - destruct (full_event_finished required w ev n) as [Hn1 Ho]; [done|done|lia|].
    destruct (full_event required w ev) as [out w1]. simpl in *.
    destruct (IH w1 (n + fe_last ev)) as [Hn2 Hos]; [done|lia|].
    destruct (full_run required w1 evs) as [outs w2]. simpl in *.
    split; [by rewrite Nat.add_assoc|by constructor].
Qed.

(** While the messages come from fewer parents than required, everything is held back. *)
Definition fw_started_in w (S : gset nat) : Prop :=
  match w with FwNone => True | FwOngoing s _ _ => s ⊆ S end.

Lemma full_event_holds required w ev n (S : gset nat) :
  1 < required → size S < required → fw_finished w n → n + fe_last ev < required →
  fw_started_in w S → fe_from ev ∈ S →
  fw_started_in (full_event required w ev).2 S ∧ replay_out (full_event required w ev).1 = [] ∧
  match (full_event required w ev).1 with FullReplay _ _ => False | _ => True end.
Proof.
  intros Hreq HS Hn Hlt Hin Hfrom. destruct ev as [from rs last|from rs], w as [|s f b];
    cbn [full_event full_wait_replay fe_last fe_from] in *; simpl in Hn; subst.
  - destruct (Nat.eqb_spec required 1); [lia|]. cbn [fst snd replay_out fw_started_in]. set_solver.
  - assert ((if last then Datatypes.S n else n) = n + (if last then 1 else 0)) as -> by (destruct last; lia).
    destruct (Nat.eqb_spec (n + (if last then 1 else 0)) required); [lia|].
    cbn [fw_started_in] in Hin.
    assert (size ({[from]} ∪ s) ≤ size S) as Hsz by (apply subseteq_size; set_solver).
    assert (size s ≤ size S) as Hsz' by (by apply subseteq_size).
    destruct (Nat.eqb_spec (size s) required); [lia|]. cbn [negb].
    destruct (Nat.eqb_spec (size ({[from]} ∪ s)) required); [lia|].
    rewrite andb_false_r. cbn [fst snd replay_out fw_started_in]. split_and!; [set_solver|done|done].
  - done.
  - cbn [snd fst]. split_and!; [|done|done]. by destruct (absorbs _ _ _).
Qed.

Lemma full_run_holds required evs w n (S : gset nat) :
  1 < required → size S < required → fw_finished w n → n + count_last evs < required →
  fw_started_in w S → Forall (λ ev, fe_from ev ∈ S) evs →
  Forall (λ o, match o with FullReplay _ _ => False | _ => True end) (full_run required w evs).1.
Proof.
  intros Hreq HS. unfold count_last. revert w n.
  induction evs as [|ev evs IH]; intros w n Hn Hlt Hin Hf; csimpl in *; [constructor|].
  apply Forall_cons in Hf as [Hev Hf].
  destruct (full_event_holds required w ev n S) as (Hin1 & _ & Ho); [done..|lia|done|done|].
  destruct (full_event_finished required w ev n) as [Hn1 _]; [done|done|lia|].
  destruct (full_event required w ev) as [out w1]. simpl in *.
  specialize (IH w1 (n + fe_last ev) Hn1 ltac:(lia) Hin1 Hf).
  destruct (full_run required w1 evs) as [outs w2]. by constructor.
Qed.
End full_replay.

(** *** The life of one buffered partial replay *)
Section partial_replay.
Context {V : Type}.
Implicit Types (rs : list (Record V)) (e : option (ReplayPieces V)).

(** What concerns one key: pieces of its replay, and regular records in the key
    range (those [matching_records] selects). *)
Inductive PieceEvent :=
  | PePiece (from : nat) (rs : list (Record V))
  | PeUpdate (from : nat) (rs : list (Record V)).

(** The buffered entry and the releases so far. *)
Definition piece_step (required : nat) (st : option (ReplayPieces V) * list (ReplayPieces V))
    (ev : PieceEvent) : result (option (ReplayPieces V) * list (ReplayPieces V)) :=
  match ev with
  | PePiece from rs =>
      '(e, rel) ← add_piece required st.1 from rs;
      Ok (e, st.2 ++ match rel with Some p => [p] | None => [] end)
  | PeUpdate from rs => Ok ((λ p, add_update p from rs) <$> st.1, st.2)
  end.

(** The parents whose piece has arrived. *)
Definition piece_froms (evs : list PieceEvent) : list nat :=
  evs ≫= λ ev, match ev with PePiece from _ => [from] | PeUpdate _ _ => [] end.

(** What must be forwarded for a parent: its piece and every later update of it. *)
Definition expected (evs : list PieceEvent) (p : nat) : option (list (Record V)) :=
  foldl (λ acc ev,
    match ev, acc with
    | PePiece q rs, None => if decide (q = p) then Some rs else None
    | PeUpdate q rs, Some b => if decide (q = p) then Some (b ++ rs) else Some b
    | _, _ => acc
    end) None evs.

Lemma expected_snoc evs ev p :
  expected (evs ++ [ev]) p =
  match ev, expected evs p with
  | PePiece q rs, None => if decide (q = p) then Some rs else None
  | PeUpdate q rs, Some b => if decide (q = p) then Some (b ++ rs) else Some b
  | _, acc => acc
  end.
Proof. unfold expected. rewrite foldl_app. simpl. by destruct ev, (foldl _ None evs). Qed.

Lemma expected_piece evs p : is_Some (expected evs p) ↔ p ∈ piece_froms evs.
Proof.
  induction evs as [|ev evs IH] using rev_ind.
  - split; [by intros [? ?]|by intros ?%not_elem_of_nil].
  - rewrite expected_snoc. unfold piece_froms in *. rewrite bind_app, elem_of_app, <-IH.
    destruct ev as [q rs|q rs]; csimpl.
    + rewrite list_elem_of_singleton. destruct (expected evs p); [naive_solver|].
      case_decide; split; naive_solver.
    + destruct (expected evs p); [case_decide; naive_solver|]. split; [by intros [? ?]|].
      intros [[? ?]|Hin]; [done|]. by apply elem_of_nil in Hin.
Qed.

(** The entry holds exactly what is expected of every parent. *)
Definition entry_matches e (evs : list PieceEvent) : Prop :=
  match e with
  | None => piece_froms evs = []
  | Some p => piece_froms evs ≠ [] ∧ size (rp_buffered p) = length (piece_froms evs) ∧
      ∀ q, rp_buffered p !! q = expected evs q
  end.

Lemma piece_froms_snoc evs ev :
  piece_froms (evs ++ [ev]) =
  piece_froms evs ++ match ev with PePiece from _ => [from] | PeUpdate _ _ => [] end.
Proof. unfold piece_froms. rewrite bind_app. csimpl. by rewrite app_nil_r. Qed.

(** Storing one more piece: what the pieces become. *)
Lemma entry_add_piece e evs from rs :
  entry_matches e evs → from ∉ piece_froms evs →
  let m := match e with Some p => rp_buffered p | None => ∅ end in
  m !! from = None ∧ size (<[from := rs]> m) = S (length (piece_froms evs)) ∧
  ∀ q, <[from := rs]> m !! q = expected (evs ++ [PePiece from rs]) q.
Proof.
  intros Hm Hn m.
  assert (∀ q, m !! q = expected evs q) as Hq.
  { intros q. destruct e as [p|]; simpl in *; [apply Hm|].
    unfold m. rewrite lookup_empty. destruct (expected evs q) eqn:E; [|done].
    assert (q ∈ piece_froms evs) as Hin by (apply expected_piece; by eexists).
    rewrite Hm in Hin. by apply elem_of_nil in Hin. }
  assert (m !! from = None) as Hnone.
  { rewrite Hq. destruct (expected evs from) eqn:E; [|done].
    destruct Hn. apply expected_piece. by eexists. }
  split_and!; [done| |].
  - rewrite map_size_insert_None by done. f_equal.
    destruct e as [p|]; simpl in *; [by destruct Hm as (_ & ? & _)|].
    unfold m. rewrite Hm. by rewrite map_size_empty.
  - intros q. rewrite expected_snoc. destruct (decide (from = q)) as [<-|Hne].
    + rewrite lookup_insert_eq, <-Hq, Hnone. done.
    + rewrite lookup_insert_ne, Hq by done. by destruct (expected evs q).
Qed.

Lemma piece_step_update required e evs rel from rs :
  entry_matches e evs →
  ∃ e', piece_step required (e, rel) (PeUpdate from rs) = Ok (e', rel) ∧
    entry_matches e' (evs ++ [PeUpdate from rs]).
Proof.
  intros Hm. eexists. split; [done|]. destruct e as [p|]; simpl in *.
  - rewrite piece_froms_snoc, app_nil_r. destruct Hm as (Hne & Hsz & Hq). unfold add_update.
    destruct (rp_buffered p !! from) as [b|] eqn:Eb; simpl.
    + split_and!; [done|rewrite map_size_insert_Some by done; lia|].
      intros q. rewrite expected_snoc, <-Hq. destruct (decide (from = q)) as [<-|Hneq].
      * by rewrite lookup_insert_eq, Eb.
      * rewrite lookup_insert_ne by done. by destruct (rp_buffered p !! q).
    + split_and!; [done|done|]. intros q. rewrite expected_snoc, <-Hq.
      destruct (rp_buffered p !! q) eqn:Eq; [|done]. case_decide; [congruence|done].
  - rewrite piece_froms_snoc, app_nil_r. done.
Qed.

Lemma piece_run_buffers required evs :
  0 < required → NoDup (piece_froms evs) → length (piece_froms evs) < required →
  ∃ e, result_foldl (piece_step required) (None, []) evs = Ok (e, []) ∧ entry_matches e evs.
Proof.
  intros Hreq. induction evs as [|ev evs IH] using rev_ind; intros Hnd Hlen; [by exists None|].
  rewrite piece_froms_snoc in Hnd, Hlen. rewrite length_app in Hlen.
  apply NoDup_app in Hnd as (Hnd & Hdisj & _).
  destruct IH as (e & Hrun & Hm); [done|lia|]. rewrite result_foldl_app, Hrun. simpl.
  destruct ev as [from rs|from rs]; [|by destruct (piece_step_update required e evs [] from rs Hm)
    as (e' & He' & ?); exists e'; rewrite He'].
  simpl in Hlen. assert (from ∉ piece_froms evs) as Hn.
  { intros Hin. apply (Hdisj from Hin). apply elem_of_here. }
  destruct (entry_add_piece e evs from rs Hm Hn) as (Hnone & Hsz & Hq).
  simpl. unfold add_piece. destruct e as [p|]; simpl in *.
  - rewrite Hnone. destruct Hm as (_ & Hsz' & _).
    destruct (Nat.eqb_spec (size (rp_buffered p)) (required - 1)); [lia|].
    eexists. split; [done|]. simpl. rewrite piece_froms_snoc, length_app. simpl.
    split_and!; [by destruct (piece_froms evs)|lia|done].
  - rewrite Hm in Hlen. destruct (Nat.eqb_spec required 1); [simpl in Hlen; lia|].
    eexists. split; [done|]. simpl. rewrite piece_froms_snoc, length_app, Hm. simpl.
    split_and!; [done|by rewrite map_size_singleton|done].
Qed.

(** The last parent's piece releases everything and drops the entry. *)
Lemma piece_run_releases required evs from rs :
  0 < required → NoDup (piece_froms evs) → length (piece_froms evs) = required - 1 →
  from ∉ piece_froms evs →
  ∃ p, result_foldl (piece_step required) (None, []) (evs ++ [PePiece from rs]) = Ok (None, [p]) ∧
    ∀ q, rp_buffered p !! q = expected (evs ++ [PePiece from rs]) q.
Proof.
  intros Hreq Hnd Hlen Hn. destruct (piece_run_buffers required evs) as (e & Hrun & Hm); [done|done|lia|].
  rewrite result_foldl_app, Hrun. simpl.
  destruct (entry_add_piece e evs from rs Hm Hn) as (Hnone & Hsz & Hq).
  unfold add_piece. destruct e as [p|]; simpl in *.
  - rewrite Hnone. destruct Hm as (_ & Hsz' & _).
    destruct (Nat.eqb_spec (size (rp_buffered p)) (required - 1)); [|lia].
    eexists. split; [done|]. done.
  - rewrite Hm in Hlen. destruct (Nat.eqb_spec required 1); [|simpl in Hlen; lia].
    eexists. split; [done|]. done.
Qed.
End partial_replay.

(** *** A partial replay of one key through the node *)
Section raw_replay.
Context `{DfVal V}.
Implicit Types (r : list V) (rc : Record V) (rs : list (Record V)) (e : option (ReplayPieces V)).
Implicit Types (rk : gmap (nat * nat) (list nat)).
Context (row_hash : list V → Z) (emit_l : list (nat * list nat)) (cols_l : list (nat * nat)).
Context (required tag shard replica : nat) (key_cols : list nat) (key : KeyComparison V).

(** What reaches the union: pieces of the replay of [key], and updates. *)
Inductive UnionEvent :=
  | UeReplay (from : nat) (rs : list (Record V))
  | UeUpdate (from : nat) (rs : list (Record V)).
Implicit Types (ev : UnionEvent) (evs : list UnionEvent).

Definition union_event (u : Union V) ev : result (RawResult V * Union V) :=
  match ev with
  | UeReplay from rs => union_raw_partial row_hash u from rs key_cols [key] shard replica false tag
  | UeUpdate from rs => union_raw_update row_hash u from rs
  end.
Definition union_step (acc : list (RawResult V) * Union V) ev : result (list (RawResult V) * Union V) :=
  '(out, u) ← union_event acc.2 ev; Ok (acc.1 ++ [out], u).
Definition union_run (u : Union V) evs : result (list (RawResult V) * Union V) :=
  result_foldl union_step ([], u) evs.

(** What a parent's records are emitted as, and those of them that belong to the key. *)
Definition emits (from : nat) rs : list (Record V) :=
  match bm_get emit_l from with Some emit => lift (emit_sem emit) rs | None => [] end.
Definition row_key r : list V := omap (λ i, r !! i) key_cols.
Definition in_key rs : list (Record V) := filter (λ rc, kc_contains key (row_key (rec rc)) = true) rs.

(** The records come from a parent and have its columns. *)
Definition rows_fit (from : nat) rs : Prop :=
  ∃ emit, bm_get emit_l from = Some emit ∧ Forall (λ rc, emit_fits emit (rec rc)) rs.
Definition event_fits ev : Prop :=
  match ev with UeReplay from rs | UeUpdate from rs => rows_fit from rs end.
(** The key columns are emitted at their own positions by every parent. *)
Definition keys_in_place : Prop :=
  ∀ from emit, bm_get emit_l from = Some emit → Forall (λ c, emit !! c = Some c) key_cols.

(** What the events mean for the buffered pieces of the key. *)
Definition key_event ev : PieceEvent :=
  match ev with UeReplay from rs => PePiece from (in_key rs) | UeUpdate from rs => PeUpdate from (in_key rs) end.
(** What is returned while pieces are missing. *)
Definition waiting_reply ev : RawResult V :=
  match ev with UeReplay _ _ => ReplayPiece [] [] [key] | UeUpdate from rs => Regular (emits from rs) end.

Definition union_core : UnionCore := {| un_emit := EmitProject emit_l cols_l; un_bag := None |}.
Definition buffered_key : BufferedReplayKey V :=
  {| brk_tag := tag; brk_key := key; brk_shard := shard; brk_replica := replica |}.
Definition union_at e rk : Union V :=
  {| u_core := union_core; u_replay_key := rk;
     u_pieces := match e with Some p => [(buffered_key, p)] | None => [] end;
     u_required := required; u_full := FwNone |}.
(** The columns of the key are known for all parents, or not yet for any. *)
Definition key_known rk : Prop := ∀ q emit, bm_get emit_l q = Some emit → rk !! (tag, q) = Some key_cols.
Definition key_unknown rk : Prop := ∀ q, rk !! (tag, q) = None.

Lemma buffered_key_eq : brk_eq buffered_key buffered_key = true.
Proof. unfold brk_eq. rewrite kc_eq_hashed, !bool_decide_true by done. done. Qed.

(** The rows of a piece, taken from the map by key. *)
Definition taken rs : list (Record V) :=
  match rows_by_key key_cols rs with Ok m => (bm_range m (bounds key)).*2 ≫= id | _ => [] end.

Lemma insert_range_perm (m : list (list V * list (Record V))) k rc b :
  bm_wf m →
  (bm_range (bm_insert m k (default [] (bm_get m k) ++ [rc])) b).*2 ≫= id ≡ₚ
  ((bm_range m b).*2 ≫= id) ++ (if in_range b k then [rc] else []).
Proof.
  induction m as [|[k' v'] m IH]; intros Hwf.
  - simpl. unfold bm_range. rewrite filter_cons, filter_nil. simpl. destruct (in_range b k); done.
  - rewrite bm_get_cons. apply bm_wf_cons in Hwf as [Hwf Hf]. cbn [bm_insert].
    assert (∀ l : list (list V * list (Record V)), bm_range ((k', v') :: l) b =
      (if in_range b k' then [(k', v')] else []) ++ bm_range l b) as Hcons.
    { intros l. unfold bm_range. rewrite filter_cons. cbn [fst]. by destruct (in_range b k'). }
    destruct (cmp k k') eqn:E.
    + apply cmp_eq_iff in E as ->. rewrite decide_True by done. unfold bm_range. rewrite !filter_cons. cbn [fst].
      destruct (in_range b k'); csimpl; rewrite <-?app_assoc; [|by rewrite app_nil_r].
      apply Permutation_app_head. simpl. by rewrite <-Permutation_cons_append.
    + assert (k ≠ k') as Hne by (intros ->; by rewrite cmp_refl in E). rewrite decide_False by done.
      assert (bm_get m k = None) as ->.
      { apply bm_get_above. eapply Forall_impl; [exact Hf|]. intros kv Hkv. eapply cmp_lt_trans; [exact E|exact Hkv]. }
      unfold bm_range at 1. rewrite filter_cons. cbn [fst default app]. fold (bm_range ((k', v') :: m) b).
      destruct (in_range b k); csimpl; [|by rewrite app_nil_r]. by rewrite <-Permutation_cons_append.
    + assert (k ≠ k') as Hne by (intros ->; by rewrite cmp_refl in E). rewrite decide_False by done.
      rewrite !Hcons, !fmap_app, !bind_app, (IH Hwf), app_assoc. done.
Qed.

Lemma rows_by_key_ok rs :
  Forall (λ rc, emit_fits key_cols (rec rc)) rs →
  ∃ m, rows_by_key key_cols rs = Ok m ∧ bm_wf m ∧
    ∀ b, (bm_range m b).*2 ≫= id ≡ₚ filter (λ rc, in_range b (row_key (rec rc)) = true) rs.
Proof.
  induction rs as [|rc rs IH] using rev_ind; intros Hf; [by exists []; split_and!; [|constructor|]|].
  apply Forall_app in Hf as [Hf Hrc]. destruct (IH Hf) as (m & Hm & Hwf & Hperm). rewrite Forall_singleton in Hrc.
  unfold rows_by_key in *. rewrite result_foldl_app, Hm. cbn [mbind result_bind result_foldl].
  rewrite (emit_row_fits key_cols (rec rc) Hrc). cbn [mbind result_bind]. eexists. split; [reflexivity|].
  split; [by apply bm_insert_wf|]. intros b. rewrite insert_range_perm, Hperm, filter_app, filter_cons, filter_nil by done.
  unfold row_key. by destruct (in_range b _).
Qed.

Lemma key_cols_fit from rs :
  keys_in_place → rows_fit from rs → Forall (λ rc, emit_fits key_cols (rec rc)) rs.
Proof.
  intros Hplace (emit & Hg & Hf). specialize (Hplace from emit Hg). eapply Forall_impl; [exact Hf|].
  intros rc Hrc. eapply Forall_impl; [exact Hplace|]. intros c Hc. unfold emit_fits in Hrc.
  rewrite Forall_forall in Hrc. apply Hrc. exact (list_elem_of_lookup_2 _ _ _ Hc).
Qed.

Lemma taken_perm from rs : keys_in_place → rows_fit from rs → taken rs ≡ₚ in_key rs.
Proof.
  intros Hplace Hf. destruct (rows_by_key_ok rs (key_cols_fit from rs Hplace Hf)) as (m & Hm & _ & Hperm).
  unfold taken. rewrite Hm, Hperm. unfold in_key. apply reflexive_eq, list_filter_iff. intros rc. by rewrite kc_contains_bounds.
Qed.

Lemma on_input_emits from rs :
  rows_fit from rs → union_on_input row_hash union_core from rs = Ok (emits from rs, union_core).
Proof.
  intros (emit & Hg & Hf). unfold union_on_input, emits. cbn [union_core un_emit un_bag]. rewrite Hg.
  cbn [expect mbind result_bind]. by rewrite emit_records_ok.
Qed.

Lemma matching_in_key rs :
  Forall (λ rc, emit_fits key_cols (rec rc)) rs → matching_records key key_cols rs = Ok (in_key rs).
Proof.
  intros Hf. induction Hf as [|rc rs Hrc _ IH]; [done|]. cbn [matching_records].
  rewrite emit_row_fits by done. cbn [mbind result_bind]. rewrite IH. cbn [mbind result_bind].
  unfold in_key. rewrite filter_cons. fold (row_key (rec rc)). by destruct (kc_contains key (row_key (rec rc))).
Qed.

Lemma insert_replay_key_ok e rk from emit :
  bm_wf emit_l → keys_in_place → bm_get emit_l from = Some emit → key_known rk ∨ key_unknown rk →
  ∃ rk', insert_replay_key (union_at e rk) from tag key_cols = Ok rk' ∧ key_known rk'.
Proof.
  intros Hwf Hplace Hg [Hk|Hu]; unfold insert_replay_key, rkey_from; cbn [union_at u_replay_key u_core union_core un_emit].
  { rewrite (Hk from emit Hg). by exists rk. }
  rewrite Hu, Hg. cbn [expect mbind result_bind].
  assert (∀ q emit, bm_get emit_l q = Some emit → result_mapM (λ c, expect (emit !! c)) key_cols = Ok key_cols) as Hcols.
  { intros q em Hq. specialize (Hplace q em Hq). clear -Hplace. induction Hplace as [|c cs Hc _ IH]; [done|].
    cbn [result_mapM]. rewrite Hc. cbn [expect mbind result_bind]. by rewrite IH. }
  rewrite (Hcols from emit Hg). cbn [mbind result_bind].
  assert (∀ l (m : gmap (nat * nat) (list nat)), (∀ q em, (q, em) ∈ l → bm_get emit_l q = Some em) → m !! (tag, from) = Some key_cols →
    ∃ m', result_foldl (λ m (pe : nat * list nat),
            if decide (pe.1 = from) then Ok m
            else cs ← result_mapM (λ c, expect (pe.2 !! c)) key_cols; Ok (<[(tag, pe.1) := cs]> m)) m l = Ok m' ∧
      m' !! (tag, from) = Some key_cols ∧ (∀ q, m !! (tag, q) = Some key_cols → m' !! (tag, q) = Some key_cols) ∧
      ∀ q em, (q, em) ∈ l → m' !! (tag, q) = Some key_cols) as Hfold.
  { induction l as [|[q em] l IH]; intros m Hl Hm; [exists m; split_and!; [done..|]; intros ?? Hin; inversion Hin|].
    cbn [result_foldl fst snd]. destruct (decide (q = from)) as [->|Hne]; cbn [mbind result_bind].
    - destruct (IH m) as (m' & Hm' & H1 & H2 & H3); [intros; apply Hl; set_solver|done|].
      exists m'. split_and!; [done..|]. intros q' em' [[= -> ->]|Hin]%elem_of_cons; [done|by eapply H3].
    - rewrite (Hcols q em) by (apply Hl; set_solver). cbn [mbind result_bind].
      destruct (IH (<[(tag, q) := key_cols]> m)) as (m' & Hm' & H1 & H2 & H3);
        [intros; apply Hl; set_solver|by rewrite lookup_insert_ne by congruence|].
      exists m'. split_and!; [done|done| |].
      + intros q' Hq'. apply H2. destruct (decide (q' = q)) as [->|]; [by rewrite lookup_insert_eq|by rewrite lookup_insert_ne by congruence].
      + intros q' em' [[= -> ->]|Hin]%elem_of_cons; [apply H2; by rewrite lookup_insert_eq|by eapply H3]. }
  destruct (Hfold emit_l (<[(tag, from) := key_cols]> rk)) as (rk' & Hrk & _ & _ & Hall).
  { intros q em Hin. by apply bm_get_elem. } { by rewrite lookup_insert_eq. }
  exists rk'. split; [exact Hrk|]. intros q em Hq. eapply Hall. by apply bm_get_elem.
Qed.

Definition parents_known : Prop := bm_wf emit_l ∧ keys_in_place ∧ range_panics (bounds key) = false.

(** A piece arrives: [add_piece] on the entry of the key, and the release. *)
Lemma replay_step e rk from rs :
  parents_known → rows_fit from rs → key_known rk ∨ key_unknown rk →
  ∃ rk', key_known rk' ∧
    union_event (union_at e rk) (UeReplay from rs) =
    '(e', rel) ← add_piece required e from (taken rs);
    match rel with
    | None => Ok (ReplayPiece [] [] [key], union_at e' rk')
    | Some p =>
        '(out, core) ← release_pieces row_hash union_core p;
        Ok (ReplayPiece out [key] [], set_core (union_at e' rk') core)
    end.
Proof.
  intros (Hwf & Hplace & Hrange) Hfit Hrk. destruct (Hfit) as (emit & Hg & _).
  destruct (insert_replay_key_ok e rk from emit Hwf Hplace Hg Hrk) as (rk' & Hins & Hknown).
  exists rk'. split; [done|]. destruct (rows_by_key_ok rs (key_cols_fit from rs Hplace Hfit)) as (m & Hm & _).
  unfold union_event, union_raw_partial. cbn [union_at u_core union_core un_emit].
  fold union_core. fold (union_at e rk). rewrite Hins. cbn [mbind result_bind]. rewrite Hm. cbn [mbind result_bind result_foldl].
  unfold taken. rewrite Hm. unfold partial_key, take_key_rows. cbn [pa_rows pa_pieces pa_core pa_out pa_released pa_captured].
  rewrite Hrange. cbn [mbind result_bind].
  change {| brk_tag := tag; brk_key := key; brk_shard := shard; brk_replica := replica |} with buffered_key.
  assert (pieces_get (u_pieces (union_at e rk)) buffered_key = e) as ->.
  { destruct e as [p|]; [|done]. cbn [union_at u_pieces pieces_get]. by rewrite buffered_key_eq. }
  destruct (add_piece _ _ _ _) as [[e' rel]| |]; [|done..]. cbn [mbind result_bind].
  assert (pieces_set (u_pieces (union_at e rk)) buffered_key e' = u_pieces (union_at e' rk')) as ->.
  { assert (pieces_remove (u_pieces (union_at e rk)) buffered_key = []) as Hrem.
    { destruct e as [p|]; [|done]. unfold pieces_remove. cbn [union_at u_pieces]. rewrite filter_cons. cbn [fst].
      by rewrite buffered_key_eq. }
    unfold pieces_set. rewrite Hrem. by destruct e'. }
  destruct rel as [p|]; [|done]. change (u_core (union_at e rk)) with union_core.
  by destruct (release_pieces _ _ _) as [[out core]| |].
Qed.

(** An update arrives while pieces are missing. *)
Lemma update_step e rk from rs :
  parents_known → rows_fit from rs → match e with Some p => rp_buffered p ≠ ∅ ∧ key_known rk | None => True end →
  union_event (union_at e rk) (UeUpdate from rs) =
  Ok (Regular (emits from rs), union_at ((λ p, add_update p from (in_key rs)) <$> e) rk).
Proof.
  intros (_ & Hplace & _) Hfit He. destruct (Hfit) as (emit & Hg & _).
  unfold union_event, union_raw_update. cbn [union_at u_full absorbs].
  assert (update_pieces (union_at e rk) from rs = Ok (u_pieces (union_at ((λ p, add_update p from (in_key rs)) <$> e) rk))) as Hup.
  { destruct e as [p|]; [|done]. destruct He as [Hne Hk]. unfold update_pieces. cbn [union_at u_pieces result_mapM fst snd].
    rewrite bool_decide_false by done. cbn [fmap option_fmap option_map]. unfold add_update.
    destruct (rp_buffered p !! from) as [b|] eqn:Eb; [|done]. unfold rkey_from. cbn [union_at u_replay_key u_core union_core un_emit].
    cbn [buffered_key brk_tag brk_key]. rewrite (Hk from emit Hg). cbn [expect mbind result_bind].
    rewrite matching_in_key by (by eapply key_cols_fit). cbn [mbind result_bind]. reflexivity. }
  fold union_core in Hup |- *. fold (union_at e rk) in Hup |- *. rewrite Hup. cbn [mbind result_bind].
  change (u_core _) with union_core. by rewrite (on_input_emits from rs Hfit).
Qed.

(** The pieces that the events leave, with the rows in the order they are taken. *)
Definition taken_event ev : PieceEvent :=
  match ev with UeReplay from rs => PePiece from (taken rs) | UeUpdate from rs => PeUpdate from (in_key rs) end.

Lemma taken_froms evs : piece_froms (taken_event <$> evs) = piece_froms (key_event <$> evs).
Proof. unfold piece_froms. induction evs as [|[] evs IH]; csimpl; congruence. Qed.

Lemma in_key_Forall (P : Record V → Prop) rs : Forall P rs → Forall P (in_key rs).
Proof. rewrite !Forall_forall. intros HP rc [_ Hrc]%list_elem_of_filter. by apply HP. Qed.

Definition option_perm (x y : option (list (Record V))) : Prop :=
  match x, y with Some l, Some l' => l ≡ₚ l' | None, None => True | _, _ => False end.

Lemma taken_expected evs q :
  keys_in_place → Forall event_fits evs →
  option_perm (expected (taken_event <$> evs) q) (expected (key_event <$> evs) q) ∧
  ∀ rows, expected (taken_event <$> evs) q = Some rows → rows_fit q rows.
Proof.
  intros Hplace. induction evs as [|ev evs IH] using rev_ind; intros Hf; [done|].
  apply Forall_app in Hf as [Hf Hev]. rewrite Forall_singleton in Hev. destruct (IH Hf) as [Hp Hrows]. clear IH.
  rewrite !fmap_app, !fmap_cons, !fmap_nil, !expected_snoc.
  destruct ev as [from rs|from rs]; cbn [taken_event key_event event_fits] in *.
  - pose proof (taken_perm from rs Hplace Hev) as Ht.
    destruct (expected (taken_event <$> evs) q), (expected (key_event <$> evs) q); try done.
    destruct (decide (from = q)) as [<-|]; [|done]. split; [done|]. intros rows [= <-].
    destruct Hev as (emit & Hg & Hev). exists emit. split; [done|]. rewrite Ht. by apply in_key_Forall.
  - destruct (expected (taken_event <$> evs) q) as [b|], (expected (key_event <$> evs) q) as [b'|]; try done.
    destruct (decide (from = q)) as [<-|]; [|done]. split; [by apply Permutation_app_tail|]. intros rows [= <-].
    destruct (Hrows b eq_refl) as (emit & Hg & Hb). destruct Hev as (emit' & Hg' & Hev). simplify_eq.
    exists emit'. split; [done|]. apply Forall_app. split; [done|by apply in_key_Forall].
Qed.

Lemma union_buffers evs rk :
  parents_known → 0 < required → Forall event_fits evs → NoDup (piece_froms (key_event <$> evs)) →
  length (piece_froms (key_event <$> evs)) < required → key_known rk ∨ key_unknown rk →
  ∃ e rk', union_run (union_at None rk) evs = Ok (waiting_reply <$> evs, union_at e rk') ∧
    (key_known rk' ∨ e = None ∧ key_unknown rk') ∧
    result_foldl (piece_step required) (None, []) (taken_event <$> evs) = Ok (e, []) ∧
    entry_matches e (taken_event <$> evs).
Proof.
  intros Hpar Hreq Hf Hnd Hlen Hrk. induction evs as [|ev evs IH] using rev_ind.
  { exists None, rk. split_and!; [done|naive_solver|done|done]. }
  apply Forall_app in Hf as [Hf Hev]. rewrite Forall_singleton in Hev.
  destruct (piece_run_buffers required (taken_event <$> (evs ++ [ev]))) as (e' & Hrun' & Hm'); [done|by rewrite taken_froms..|].
  rewrite fmap_app, fmap_cons, fmap_nil, piece_froms_snoc in Hnd, Hlen. rewrite length_app in Hlen.
  destruct IH as (e & rk1 & Hrun & Hrk1 & Hpieces & Hm); [done|by apply NoDup_app in Hnd as (? & _ & _)|lia|].
  assert (∀ f : UnionEvent → @PieceEvent V, f <$> (evs ++ [ev]) = (f <$> evs) ++ [f ev]) as Happ by (intros; by rewrite fmap_app).
  rewrite Happ in Hrun', Hm' |- *. rewrite result_foldl_app, Hpieces in Hrun' |- *.
  cbn [mbind result_bind result_foldl] in Hrun' |- *.
  unfold union_run in *. rewrite result_foldl_app, Hrun. cbn [mbind result_bind result_foldl].
  unfold union_step. cbn [fst snd]. rewrite fmap_app, fmap_cons, fmap_nil. destruct ev as [from rs|from rs]; cbn [event_fits taken_event] in *.
  - destruct (replay_step e rk1 from rs Hpar Hev) as (rk2 & Hk2 & Hstep); [naive_solver|]. rewrite Hstep.
    cbn [piece_step fst snd] in Hrun' |- *. destruct (add_piece required e from (taken rs)) as [[e1 rel]| |]; try done.
    cbn [mbind result_bind] in Hrun' |- *. destruct rel as [p|]; [done|]. simplify_eq/=.
    exists e', rk2. split_and!; [done|by left|done|done].
  - cbn [piece_step fst snd] in Hrun' |- *. cbn [mbind result_bind] in Hrun' |- *. simplify_eq.
    rewrite (update_step e rk1 from rs Hpar Hev).
    + eexists _, rk1. split_and!; [reflexivity| |done|done]. destruct Hrk1 as [|[-> ?]]; [by left|by right].
    + destruct e as [p|]; [|done]. destruct Hrk1 as [Hk|[? _]]; [|done]. split; [|done]. intros Hemp.
      destruct Hm as (Hne & Hsz & _). rewrite Hemp, map_size_empty in Hsz. apply Hne, nil_length_inv. by symmetry.
Qed.

Lemma release_emits p :
  (∀ q rows, rp_buffered p !! q = Some rows → rows_fit q rows) →
  release_pieces row_hash union_core p = Ok (map_to_list (rp_buffered p) ≫= λ fr, emits fr.1 fr.2, union_core).
Proof.
  intros Hfit. unfold release_pieces.
  assert (∀ l acc, (∀ q rows, (q, rows) ∈ l → rows_fit q rows) →
    result_foldl (λ acc (fr : nat * list (Record V)), '(rs', core') ← union_on_input row_hash acc.2 fr.1 fr.2; Ok (acc.1 ++ rs', core'))
      (acc, union_core) l = Ok (acc ++ (l ≫= λ fr, emits fr.1 fr.2), union_core)) as Hl.
  { induction l as [|[q rows] l IH]; intros acc Hl; csimpl; [by rewrite app_nil_r|].
    rewrite on_input_emits by (apply Hl; set_solver). cbn [mbind result_bind].
    rewrite IH by (intros; apply Hl; set_solver). by rewrite <-app_assoc. }
  rewrite Hl; [done|]. intros q rows Hin. by apply Hfit, elem_of_map_to_list.
Qed.

Lemma emits_perm q rs rs' : rs ≡ₚ rs' → emits q rs ≡ₚ emits q rs'.
Proof. unfold emits, lift. destruct (bm_get emit_l q); [|done]. by intros ->. Qed.

Lemma released_rows evs (m : gmap nat (list (Record V))) :
  NoDup (piece_froms (key_event <$> evs)) → keys_in_place → Forall event_fits evs →
  (∀ q, m !! q = expected (taken_event <$> evs) q) →
  (map_to_list m ≫= λ fr, emits fr.1 fr.2) ≡ₚ
  piece_froms (key_event <$> evs) ≫= λ q, emits q (default [] (expected (key_event <$> evs) q)).
Proof.
  intros Hnd Hplace Hf Hm. set (froms := piece_froms (key_event <$> evs)) in *.
  assert (map_to_list m ≡ₚ (λ q, (q, default [] (m !! q))) <$> froms) as ->.
  { apply NoDup_Permutation; [apply NoDup_map_to_list|apply NoDup_fmap_2; [by intros ?? [=]|done]|].
    intros [q rows]. rewrite elem_of_map_to_list, list_elem_of_fmap. unfold froms. rewrite <-taken_froms. split.
    - intros Hq. exists q. rewrite Hq. split; [done|]. apply expected_piece. rewrite <-Hm. by eexists.
    - intros (q' & [= -> ->] & [rows' Hq']%expected_piece). rewrite Hm, Hq'. done. }
  clearbody froms. clear Hnd. induction froms as [|q froms IH]; csimpl; [done|].
  rewrite IH. apply Permutation_app_tail, emits_perm. rewrite Hm.
  destruct (taken_expected evs q Hplace Hf) as [Hp _].
  destruct (expected (taken_event <$> evs) q), (expected (key_event <$> evs) q); done.
Qed.

(** C33: The replay of one key, a point or a range, through a union of all rows of its
    parents, which emit the key columns in their places, while no other replay is
    buffered.  As long as fewer than the required number of parents have sent their
    piece, every piece is captured and every update goes through as it is emitted.
    The last parent's piece is answered with the key and with exactly the records of
    the key: for every parent those of its piece and those of its updates since
    then, as the union emits them; nothing stays buffered.  A second piece from a
    parent panics. *)
Theorem union_partial_replay evs from rs rk :
  parents_known → 0 < required → Forall event_fits evs → rows_fit from rs → key_known rk ∨ key_unknown rk →
  NoDup (piece_froms (key_event <$> evs)) → length (piece_froms (key_event <$> evs)) < required →
  (∃ u, union_run (union_at None rk) evs = Ok (waiting_reply <$> evs, u)) ∧
  (from ∉ piece_froms (key_event <$> evs) → length (piece_froms (key_event <$> evs)) = required - 1 →
   let evs' := evs ++ [UeReplay from rs] in
   ∃ out u, union_run (union_at None rk) evs' = Ok ((waiting_reply <$> evs) ++ [ReplayPiece out [key] []], u) ∧
     u_pieces u = [] ∧
     out ≡ₚ piece_froms (key_event <$> evs') ≫= λ q, emits q (default [] (expected (key_event <$> evs') q))) ∧
  (from ∈ piece_froms (key_event <$> evs) → union_run (union_at None rk) (evs ++ [UeReplay from rs]) = Panic).
Proof.
  intros Hpar Hreq Hf Hrs Hrk Hnd Hlen.
  destruct (union_buffers evs rk Hpar Hreq Hf Hnd Hlen Hrk) as (e & rk1 & Hrun & Hrk1 & Hpieces & Hm).
  destruct (replay_step e rk1 from rs Hpar Hrs) as (rk2 & Hk2 & Hstep); [naive_solver|].
  split; [by eexists|]. split.
  - intros Hn Hlast evs'. unfold evs', union_run in *. rewrite result_foldl_app, Hrun. cbn [mbind result_bind result_foldl].
    unfold union_step. cbn [fst snd]. rewrite Hstep.
    destruct (piece_run_releases required (taken_event <$> evs) from (taken rs)) as (p & Hrel & Hp);
      [done|by rewrite taken_froms..|].
    rewrite result_foldl_app, Hpieces in Hrel. cbn [mbind result_bind result_foldl piece_step fst snd] in Hrel.
    destruct (add_piece required e from (taken rs)) as [[e1 [p'|]]| |]; try done.
    cbn [mbind result_bind] in Hrel |- *. injection Hrel as -> ->.
    assert (∀ f : UnionEvent → @PieceEvent V, f <$> (evs ++ [UeReplay from rs]) = (f <$> evs) ++ [f (UeReplay from rs)]) as Happ
      by (intros; by rewrite fmap_app).
    change (PePiece from (taken rs)) with (taken_event (UeReplay from rs)) in Hp.
    assert (Forall event_fits (evs ++ [UeReplay from rs])) as Hfits by (apply Forall_app; split; [done|by repeat constructor]).
    setoid_rewrite <-Happ in Hp. destruct Hpar as (_ & Hplace & _).
    rewrite release_emits by (intros q rows Hq; rewrite Hp in Hq; by eapply taken_expected).
    cbn [mbind result_bind]. do 2 eexists. split; [reflexivity|]. split; [done|].
    apply released_rows; [|done..]. rewrite Happ, piece_froms_snoc. apply NoDup_app. split_and!; [done| |apply NoDup_singleton].
    intros q Hq Hq'. apply list_elem_of_singleton in Hq' as ->. done.
  - intros Hin. unfold union_run in *. rewrite result_foldl_app, Hrun. cbn [mbind result_bind result_foldl].
    unfold union_step. cbn [fst snd]. rewrite Hstep. rewrite <-taken_froms in Hin. unfold add_piece.
    destruct e as [p|]; simpl in Hm; [|rewrite Hm in Hin; by apply elem_of_nil in Hin].
    destruct Hm as (_ & _ & Hq). rewrite Hq. apply expected_piece in Hin as [b ->]. done.
Qed.
End raw_replay.

Section replay_theorems.
Context `{DfVal V}.
Implicit Types (rs : list (Record V)) (k : list V).

(** A full replay through a union loses, duplicates and reorders nothing:
    at any point the replay records sent so far followed by those still buffered
    are exactly the replay messages received and the updates absorbed, in order;
    and while messages come from fewer parents than the union has, nothing of
    the replay is sent. *)
Theorem union_full_replay_conserves required (evs : list (@FullEvent V)) (S : gset nat) :
  let '(outs, w) := full_run required FwNone evs in
  (outs ≫= replay_out) ++ fw_buffered w = full_inputs required FwNone evs ∧
  (1 < required → size S < required → count_last evs < required →
   Forall (λ ev, fe_from ev ∈ S) evs →
   Forall (λ o, match o with FullReplay _ _ => False | _ => True end) outs).
Proof.
  pose proof (full_run_conserves required evs FwNone I) as Hc.
  destruct (full_run required FwNone evs) as [outs w] eqn:E. split; [done|].
  intros Hreq HS Hlast Hin.
  pose proof (full_run_holds required evs FwNone 0 S Hreq HS eq_refl Hlast I Hin) as Hh.
  by rewrite E in Hh.
Qed.

(** A full replay through a union with several parents ends exactly when
    the last parent's does: until then no message is marked last, and the
    message that completes the replay is, carries everything still buffered, and
    leaves the union ready for the next full replay. *)
Theorem union_full_replay_ends required (evs : list (@FullEvent V)) from rs :
  1 < required → count_last evs = required - 1 →
  let '(outs, w) := full_run required FwNone evs in
  Forall (λ o, replay_last o = false) outs ∧
  full_run required FwNone (evs ++ [FeReplay from rs true]) =
  (outs ++ [FullReplay (fw_buffered w ++ rs) true], FwNone).
Proof.
  intros Hreq Hcount. pose proof (full_run_app required FwNone evs [FeReplay from rs true]) as Happ.
  destruct (full_run_finished required evs FwNone 0 Hreq eq_refl) as [Hfin Hf]; [lia|].
  destruct (full_run required FwNone evs) as [outs w] eqn:E. simpl in Hfin, Hf. split; [done|].
  rewrite Happ. simpl fst. simpl snd. destruct w as [|s f b].
  - simpl in Hfin. lia.
  - simpl in Hfin. cbn [full_run full_event full_wait_replay]. rewrite Hfin, Hcount.
    destruct (Nat.eqb_spec (Datatypes.S (required - 1)) required); [done|lia].
Qed.

(** *** The comparison of buffered replay keys *)
Lemma cmp_enc_eq (a b : list V * nat) : cmp_enc a b = Eq ↔ a = b.
Proof.
  destruct a as [a i], b as [b j]. unfold cmp_enc; simpl. destruct (cmp a b) eqn:E; simpl.
  - apply cmp_eq_iff in E as ->. rewrite Nat.compare_eq_iff. split; congruence.
  - split; [done|]. intros [= -> _]. by rewrite cmp_refl in E.
  - split; [done|]. intros [= -> _]. by rewrite cmp_refl in E.
Qed.
Lemma cmp_startbound_eq (b1 b2 : Bound (list V)) : cmp_startbound b1 b2 = Eq ↔ b1 = b2.
Proof.
  unfold cmp_startbound. destruct b1, b2; simpl; rewrite ?cmp_enc_eq; naive_solver.
Qed.
Lemma cmp_endbound_eq (b1 b2 : Bound (list V)) : cmp_endbound b1 b2 = Eq ↔ b1 = b2.
Proof.
  unfold cmp_endbound. destruct b1, b2; simpl; rewrite ?cmp_enc_eq; naive_solver.
Qed.
Lemma cmp_startbound_antisym (b1 b2 : Bound (list V)) :
  cmp_startbound b2 b1 = CompOpp (cmp_startbound b1 b2).
Proof.
  unfold cmp_startbound, cmp_enc. destruct b1, b2; simpl; try done;
    rewrite (cmp_antisym x x0); by destruct (cmp x x0).
Qed.
Lemma cmp_endbound_antisym (b1 b2 : Bound (list V)) :
  cmp_endbound b2 b1 = CompOpp (cmp_endbound b1 b2).
Proof.
  unfold cmp_endbound, cmp_enc. destruct b1, b2; simpl; try done;
    rewrite (cmp_antisym x x0); by destruct (cmp x x0).
Qed.
Lemma then_cmp_eq (c d : comparison) : then_cmp c d = Eq ↔ c = Eq ∧ d = Eq.
Proof. destruct c; simpl; naive_solver. Qed.

Lemma brk_key_cmp_eq (k1 k2 : KeyComparison V) : brk_key_cmp k1 k2 = Eq ↔ kc_eq k1 k2 = true.
Proof.
  rewrite kc_eq_hashed, bool_decide_eq_true. unfold kc_hashed.
  destruct k1 as [k1|[l1 u1]], k2 as [k2|[l2 u2]]; simpl;
    rewrite ?then_cmp_eq, ?cmp_startbound_eq, ?cmp_endbound_eq.
  - rewrite cmp_eq_iff. naive_solver.
  - destruct l2, u2; try case_bool_decide; naive_solver.
  - destruct l1, u1; try case_bool_decide; naive_solver.
  - destruct l1, u1, l2, u2; repeat case_bool_decide; naive_solver.
Qed.

Lemma brk_cmp_eq (a b : BufferedReplayKey V) : brk_cmp a b = Eq ↔ brk_eq a b = true.
Proof.
  unfold brk_cmp, brk_eq. rewrite !then_cmp_eq, brk_key_cmp_eq, !cmp_eq_iff, !andb_true_iff,
    !bool_decide_eq_true. naive_solver.
Qed.

(** The comparison of buffered replay keys agrees with their equality and is
    antisymmetric between two points and between two ranges; between a range and
    a point it is not, because one arm swaps the bounds of the range: a point and
    the range up to that point are each greater than the other. *)
Theorem buffered_replay_key_order (k1 k2 : KeyComparison V) k :
  (brk_key_cmp k1 k2 = Eq ↔ kc_eq k1 k2 = true) ∧
  (kc_is_equal k1 = kc_is_equal k2 → brk_key_cmp k2 k1 = CompOpp (brk_key_cmp k1 k2)) ∧
  brk_key_cmp (KRange (Unbounded, Included k)) (KEqual k) = Gt ∧
  brk_key_cmp (KEqual k) (KRange (Unbounded, Included k)) = Gt.
Proof.
  split_and!; [apply brk_key_cmp_eq| |by simpl; unfold cmp_startbound, cmp_enc; simpl; rewrite cmp_refl|done].
  destruct k1 as [a|[l1 u1]], k2 as [b|[l2 u2]]; simpl; try done; intros _; [apply cmp_antisym|].
  rewrite (cmp_startbound_antisym l1 l2), (cmp_endbound_antisym u1 u2).
  by destruct (cmp_startbound l1 l2).
Qed.
End replay_theorems.

(** Witnesses: a union of two parents. *)
Definition sample_rec (z : Z) : Record SampleVal := Positive [SInt z].

Lemma union_full_replay_ends_witness :
  (full_run 2 FwNone ([FeReplay 1 [sample_rec 1] true; FeUpdate 1 [sample_rec 2]] ++
     [FeReplay 2 [sample_rec 3] true])).1 =
  [CapturedFull; Regular [sample_rec 2];
   FullReplay [sample_rec 1; sample_rec 2; sample_rec 3] true].
Proof.
  pose proof (union_full_replay_ends 2
    [FeReplay 1 [sample_rec 1] true; FeUpdate 1 [sample_rec 2]] 2 [sample_rec 3]
    ltac:(lia) eq_refl) as [_ Hrun].
  rewrite Hrun. reflexivity.
Defined.

(** Two parents with a key and a payload column, and the replay of key 5: the update
    of parent 1 that follows its piece is released with it, the one of parent 2 that
    precedes its piece is not. *)
Definition pair_rec (k v : Z) : Record SampleVal := Positive [SInt k; SInt v].
Definition pair_emit : list (nat * list nat) := [(1, [0; 1]); (2, [0; 1])].
Definition sample_events : list (@UnionEvent SampleVal) :=
  [UeReplay 1 [pair_rec 5 1]; UeUpdate 1 [pair_rec 5 2; pair_rec 6 3]; UeUpdate 2 [pair_rec 5 9]].

Lemma union_partial_replay_witness :
  ∃ out u, union_run sample_hash 7 0 0 [0] (KEqual [SInt 5])
      (union_at pair_emit [] 2 7 0 0 (KEqual [SInt 5]) None ∅) (sample_events ++ [UeReplay 2 [pair_rec 5 9; pair_rec 5 4]]) =
    Ok ([ReplayPiece [] [] [KEqual [SInt 5]]; Regular [pair_rec 5 2; pair_rec 6 3]; Regular [pair_rec 5 9];
         ReplayPiece out [KEqual [SInt 5]] []], u) ∧ u_pieces u = [] ∧
    out ≡ₚ [pair_rec 5 1; pair_rec 5 2; pair_rec 5 9; pair_rec 5 4].
Proof.
  destruct (union_partial_replay sample_hash pair_emit [] 2 7 0 0 [0] (KEqual [SInt 5]) sample_events 2
    [pair_rec 5 9; pair_rec 5 4] ∅) as (_ & Hrel & _).
  - split_and!; [repeat constructor| |reflexivity]. intros q emit Hq.
    assert (emit = [0; 1]) as ->; [|repeat constructor].
    unfold pair_emit in Hq. rewrite !bm_get_cons in Hq. repeat case_decide; by simplify_eq/=.
  - lia.
  - repeat constructor; exists [0; 1]; split; repeat constructor.
  - exists [0; 1]; split; repeat constructor.
  - right. intros q. apply lookup_empty.
  - apply NoDup_singleton.
  - simpl. lia.
  - destruct Hrel as (out & u & Hrun & Hp & Hperm); [simpl; set_solver|reflexivity|].
    exists out, u. split; [exact Hrun|]. split; [exact Hp|]. rewrite Hperm. vm_compute. reflexivity.
Defined.

(** The rows of a piece are looked up by the union's own key columns, before they are
    emitted: where a parent emits its column 1 as the key column 0, its rows of the
    key are lost, although the columns for updates are translated. *)
Theorem union_replay_untranslated :
  let key := KEqual [SInt 5] in
  ∃ u, union_run sample_hash 7 0 0 [0] key (union_at [(1, [1])] [] 1 7 0 0 key None ∅) [UeReplay 1 [pair_rec 9 5]] =
    Ok ([ReplayPiece [] [key] []], u) ∧ u_replay_key u !! (7, 1) = Some [1] ∧
    union_on_input sample_hash (u_core u) 1 [pair_rec 9 5] = Ok ([Positive [SInt 5]], u_core u).
Proof. eexists. split; [vm_compute; reflexivity|]. split; vm_compute; reflexivity. Qed.
