(* ===== verification/OpGrouped.v ===== *)
(** * OpGrouped: operators that collapse a group of records into one

    Models [readyset-dataflow/src/ops/grouped/mod.rs]: the [GroupedOperation]
    trait as a record of operations, and [on_input] of [GroupedOperator].  A
    grouped operator keeps one output row per group in its own state: the group's
    values, the aggregate, and the number of input rows.  It sorts a batch by
    group, looks up each group's current row, applies the differences, and
    replaces the row.  An operation that cannot compute the new value from the old
    one answers [None], and the group is recomputed from the parent. *)
From S2P Require Import Prelude Result Records Keys Processing Batches.

Definition is_i64 (z : Z) : Prop := (-(2 ^ 63) <= z < 2 ^ 63)%Z.

(** Values with the integers that row counts are stored as: [DfValue::Int] and
    the fallible conversion back to [i64]. *)
Class DfNum (V : Type) := {
  dfn_val :: DfVal V;
  dfv_int : Z → V;
  dfv_as_int : V → option Z;
  dfv_as_int_int : ∀ z, is_i64 z → dfv_as_int (dfv_int z) = Some z;
}.

#[export] Instance sample_num : DfNum SampleVal.
Proof. refine {| dfv_int := SInt; dfv_as_int := λ v, match v with SInt z => Some z | _ => None end |}. done. Defined.

(** The [GroupedOperation] trait.  [St] is what an operation keeps in its
    [RefCell]s, [D] its [Diff] type. *)
Record GroupedOp (V St D : Type) := {
  go_group_by : list nat;
  go_to_diff : list V → bool → result D;
  go_apply : St → option V → list D → result (option V * St);
  go_empty_value : option V;
  go_emit_empty : bool;
}.
Arguments go_group_by {V St D}.
Arguments go_to_diff {V St D}.
Arguments go_apply {V St D}.
Arguments go_empty_value {V St D}.
Arguments go_emit_empty {V St D}.

Section grouped.
Context `{DfNum V} {St D : Type} (op : GroupedOp V St D).
Implicit Types (r group : list V) (rc : Record V) (rs : list (Record V)).

(** [src] and [us], as local nodes. *)
Context (src us : nat).

(** Lookups: into the operator's own state by group ([Ok None]: a hole), and into
    the parent by the group-by columns ([Ok None]: a miss). *)
Context (own_lookup : list V → result (option (list (list V)))).
Context (parent_lookup : list V → result (option (list (list V)))).

(** [on_connected]. *)
Definition grouped_group_by : list nat := go_group_by op.
Definition out_key : list nat := seq 0 (length grouped_group_by).

(** The comparison the batch is sorted by. *)
Definition group_cmp (a b : list V * Record V) : comparison := cmp a.1 b.1.

Definition group_misses (on : nat) (idx : list nat) (replay : ReplayContext V) rs :
    result (ProcessingResult V) :=
  misses ← result_mapM (λ rc, build_miss on idx (MlkRecordColumns grouped_group_by) replay None (rec rc)) rs;
  Ok {| pr_results := []; pr_lookups := []; pr_misses := misses |}.

Definition group_lookups (on : nat) (idx : list nat) (replay : ReplayContext V) group :
    result (list (Lookup V)) :=
  if rc_is_partial replay then
    match group with
    | [] => Err Internal
    | _ => Ok [{| lookup_on := on; lookup_cols := idx; lookup_key := KEqual group |}]
    end
  else Ok [].

(** The current value: the second to last column of the current row. *)
Definition current_value (old : option (list V)) : result (option V) :=
  match old with
  | None => Ok None
  | Some row => if length row <? 2 then Panic else Ok (row !! (length row - 2))
  end.
(** The current number of rows: the last column, 0 if it is not an integer. *)
Definition current_rows (old : option (list V)) : Z :=
  default 0%Z (row ← old; v ← last row; dfv_as_int v).

(** The records that replace the row of a group. *)
Definition group_output group (old : option (list V)) (current : option V) (new : V)
    (rows_in_group delta : Z) : list (Record V) :=
  let rows_new := (rows_in_group + delta)%Z in
  if match current with
     | Some c => bool_decide (new = c) && (rows_new =? rows_in_group)%Z
     | None => false
     end
  then []
  else match old with Some o => [Negative o] | None => [] end ++
       (if (0 <? rows_new)%Z || go_emit_empty op
        then [Positive (group ++ [new; dfv_int rows_new])] else []).

(** Recomputing a group from all its rows in the parent. *)
Definition recompute (st : St) (rows : list (list V)) : result (V * St) :=
  diffs ← result_mapM (λ r, go_to_diff op r true) rows;
  '(o, st') ← go_apply op st None diffs;
  Ok (default (default dfv_none (go_empty_value op)) o, st').

(** [handle_group], with the differences of the group's records. *)
Definition handle_group (replay : ReplayContext V) (st : St) (group_rs : list (Record V))
    (diffs : list D) (delta : Z) : result (ProcessingResult V * St) :=
  first ← expect (head group_rs);
  group ← row_cols grouped_group_by (rec first);
  own ← own_lookup group;
  match own with
  | None => res ← group_misses us out_key replay group_rs; Ok (res, st)
  | Some own =>
      lookups1 ← group_lookups us out_key replay group;
      let old := head own in
      current ← current_value old;
      let rows_in_group := current_rows old in
      '(applied, st1) ← go_apply op st current diffs;
      match applied with
      | Some new =>
          Ok ({| pr_results := group_output group old current new rows_in_group delta;
                 pr_lookups := lookups1; pr_misses := [] |}, st1)
      | None =>
          all_rs ← parent_lookup group;
          match all_rs with
          | None =>
              res ← group_misses src grouped_group_by replay group_rs;
              Ok ({| pr_results := []; pr_lookups := lookups1; pr_misses := pr_misses res |}, st1)
          | Some rows =>
              lookups2 ← group_lookups src grouped_group_by replay group;
              '(new, st2) ← recompute st1 rows;
              Ok ({| pr_results := group_output group old current new rows_in_group delta;
                     pr_lookups := lookups1 ++ lookups2; pr_misses := [] |}, st2)
          end
      end
  end.

(** The batch sorted and cut into groups.  A sort of one record compares nothing. *)
Definition sorted_groups rs : result (list (list (Record V))) :=
  match rs with
  | [rc] => Ok [[rc]]
  | _ => keyed ← keyed_records grouped_group_by rs;
         Ok (group_adjacent (sort_by group_cmp keyed)).*2
  end.

Definition run_group (replay : ReplayContext V) (acc : ProcessingResult V * St) (g : list (Record V)) :
    result (ProcessingResult V * St) :=
  diffs ← result_mapM (λ rc, go_to_diff op (rec rc) (is_positive rc)) g;
  '(res, st') ← handle_group replay acc.2 g diffs (foldr (λ rc d, sgn rc + d)%Z 0%Z g);
  Ok (pr_append acc.1 res, st').

Definition grouped_on_input (replay : ReplayContext V) (st : St) rs : result (ProcessingResult V * St) :=
  match rs with
  | [] => Ok (pr_empty, st)
  | _ =>
      groups ← sorted_groups rs;
      result_foldl (run_group replay) (pr_empty, st) groups
  end.

(** [column_source]: group-by columns are copied, others need a full replay; no
    columns at all panic (they must fit a [Vec1]). *)
Definition grouped_column_source (cols : list nat) : result ColumnSource :=
  let mapped := omap (λ c, grouped_group_by !! c) cols in
  if length mapped =? length cols
  then match mapped with [] => Panic | _ => Ok (CsExactCopy src mapped) end
  else Ok (CsFullReplay [src]).
End grouped.
