(* ===== verification/OpGroupedProps.v ===== *)
(** * OpGroupedProps: correctness of grouped operators

    The interface a [GroupedOperation] has to satisfy ([GroupedLaws]) and the
    theorem, proved against it, that [on_input] keeps the operator's own state
    equal to one row per non-empty group of the parent's rows, holding the
    group's values, its aggregate and its number of rows.  [OpAggregate] shows
    that the operations of the system satisfy the interface. *)
From S2P Require Import Prelude Result Records Keys Processing Batches OpGrouped.

Definition fn_upd `{EqDecision K} {A} (f : K → A) (k : K) (a : A) : K → A :=
  λ k', if decide (k' = k) then a else f k'.

(** [gl_agg v rows]: [v] is an aggregate of the group's rows.  [gl_inv st G C]:
    the cached state agrees with the rows of each group and the value last
    emitted for it.  [gl_apply]: applied to the differences of a valid batch, the
    operation computes the aggregate of the new rows, or asks for it to be
    recomputed from them. *)
Class GroupedLaws `{DfNum V} {St D} (op : GroupedOp V St D) := {
  gl_row_ok : list V → Prop;
  gl_fits r : gl_row_ok r → Forall (λ c, c < length r) (go_group_by op);
  gl_agg : V → list (list V) → Prop;
  gl_agg_perm v rows rows' : rows ≡ₚ rows' → gl_agg v rows → gl_agg v rows';
  gl_inv : St → (list V → list (list V)) → (list V → option V) → Prop;
  gl_inv_ext st G G' C : (∀ g, G g ≡ₚ G' g) → gl_inv st G C → gl_inv st G' C;
  gl_kept (rows : list (list V)) (v : V) : option V :=
    match rows with [] => if go_emit_empty op then Some v else None | _ => Some v end;
  gl_apply st G C g recs rows' :
    gl_inv st G C → Forall gl_row_ok (G g) → Forall gl_row_ok rows' →
    Forall (λ rc, gl_row_ok (rec rc)) recs →
    Forall (λ rc, cols_at (go_group_by op) (rec rc) = g) recs → recs ≠ [] →
    batch_ok (G g) recs rows' → (Z.of_nat (length (G g) + length recs) < 2 ^ 63)%Z →
    match C g with None => G g = [] | Some v => gl_agg v (G g) ∧ (G g = [] → go_emit_empty op = true) end →
    ∃ diffs o st', result_mapM (λ rc, go_to_diff op (rec rc) (is_positive rc)) recs = Ok diffs ∧
      go_apply op st (C g) diffs = Ok (o, st') ∧
      let ok v st' := gl_agg v rows' ∧ gl_inv st' (fn_upd G g rows') (fn_upd C g (gl_kept rows' v)) in
      match o with
      | Some v => ok v st'
      | None => ∀ rows, rows ≡ₚ rows' → ∃ v st'', recompute op st' rows = Ok (v, st'') ∧ ok v st''
      end;
}.
Arguments gl_kept {_ _ _ _} op {_}.

Section grouped_props.
Context `{DfNum V} {St D : Type} (op : GroupedOp V St D) `{!GroupedLaws op}.
Context (src us : nat).
Implicit Types (r g x : list V) (rc : Record V) (rs : list (Record V)) (P S : list (list V)).
Implicit Types (G : list V → list (list V)) (C : list V → option V).

(** The rows of a group in the parent, its row in the operator's state, and what
    the state has to be. *)
Definition rows_of P g : list (list V) := filter (λ r, cols_at (go_group_by op) r = g) P.
Definition own_rows S g : list (list V) := filter (λ r, take (length (go_group_by op)) r = g) S.
Definition out_row (c : option V) g (rows : list (list V)) : list (list V) :=
  match c with None => [] | Some v => [g ++ [v; dfv_int (Z.of_nat (length rows))]] end.

Definition value_ok (c : option V) (rows : list (list V)) : Prop :=
  match c with None => rows = [] | Some v => gl_agg v rows ∧ (rows = [] → go_emit_empty op = true) end.

Definition grouped_ok P C S : Prop :=
  ∀ g, value_ok (C g) (rows_of P g) ∧ own_rows S g = out_row (C g) g (rows_of P g).

Lemma gl_kept_ok rows v : gl_agg v rows → value_ok (gl_kept op rows v) rows.
Proof. unfold gl_kept. destruct rows; simpl; [destruct (go_emit_empty op) eqn:E|]; simpl; by rewrite ?E. Qed.

Lemma group_output_wt c new g rows rows' delta x :
  value_ok c rows → Z.of_nat (length rows') = (Z.of_nat (length rows) + delta)%Z →
  wt x (group_output op g (head (out_row c g rows)) c new (Z.of_nat (length rows)) delta) =
  (occ x (out_row (gl_kept op rows' new) g rows') - occ x (out_row c g rows))%Z.
Proof.
  intros Hc Hlen. unfold group_output.
  assert ((0 <? Z.of_nat (length rows) + delta)%Z || go_emit_empty op =
    match gl_kept op rows' new with Some _ => true | None => false end) as ->.
  { rewrite <-Hlen. unfold gl_kept. destruct rows'; simpl; [by destruct (go_emit_empty op)|done]. }
  assert (gl_kept op rows' new = None ∨ gl_kept op rows' new = Some new) as Hk.
  { unfold gl_kept. destruct rows'; [destruct (go_emit_empty op)|]; auto. }
  destruct c as [v|]; simpl.
  - destruct (bool_decide_reflect (new = v)) as [->|Hne]; simpl.
    + destruct (Z.eqb_spec (Z.of_nat (length rows) + delta) (Z.of_nat (length rows))) as [Heq|Hne].
      * assert (gl_kept op rows' v = Some v) as ->.
        { unfold gl_kept. destruct rows'; [|done]. destruct Hc as [_ Hc].
          rewrite Hc; [done|]. destruct rows; simpl in *; [done|lia]. }
        simpl. rewrite Hlen, Heq. lia.
      * destruct Hk as [->| ->]; simpl; unfold sgn; simpl; [case_decide; lia|].
        rewrite <-Hlen. repeat case_decide; lia.
    + destruct Hk as [->| ->]; simpl; unfold sgn; simpl; [case_decide; lia|].
      rewrite <-Hlen. repeat case_decide; lia.
  - destruct Hk as [->| ->]; simpl; unfold sgn; simpl; [lia|]. rewrite <-Hlen. repeat case_decide; lia.
Qed.

Lemma group_output_negs c new g rows cur n delta x :
  (negs x (group_output op g (head (out_row c g rows)) cur new n delta) <= occ x (out_row c g rows))%Z.
Proof.
  unfold group_output. destruct (match cur with Some _ => _ | None => _ end); [apply occ_nonneg|].
  rewrite negs_app. destruct c as [v|]; simpl; destruct (_ || _); simpl; repeat case_decide; lia.
Qed.

(** One record for the old row of a group and one for the new one. *)
Definition out_shape (rs : list (Record V)) : Prop :=
  Forall (λ rc, length (rec rc) = length (go_group_by op) + 2) rs.
Lemma group_output_shape c new g rows cur n delta :
  length g = length (go_group_by op) →
  let out := group_output op g (head (out_row c g rows)) cur new n delta in length out ≤ 2 ∧ out_shape out.
Proof.
  intros Hg. unfold group_output, out_shape. destruct (match cur with Some _ => _ | None => _ end); [split; [simpl; lia|constructor]|].
  split; [destruct c; destruct (_ || _); simpl; lia|].
  destruct c as [v|]; destruct (_ || _); simpl; repeat constructor; simpl; rewrite length_app; simpl; lia.
Qed.

Lemma current_row_ok c g rows :
  value_ok c rows → (Z.of_nat (length rows) < 2 ^ 63)%Z →
  current_value (head (out_row c g rows)) = Ok c ∧
  current_rows (head (out_row c g rows)) = Z.of_nat (length rows).
Proof.
  intros Hc Hsz. destruct c as [v|]; simpl; [|by rewrite Hc]. split.
  - rewrite length_app. simpl. replace (length g + 2 - 2) with (length g) by lia.
    rewrite (proj2 (Nat.ltb_ge _ _)) by lia. by rewrite list_lookup_middle.
  - unfold current_rows. simpl. change [v; ?n] with ([v] ++ [n]).
    rewrite (assoc_L (++)), last_snoc. simpl. rewrite dfv_as_int_int; [done|]. unfold is_i64. lia.
Qed.

Context (own_lookup : list V → result (option (list (list V)))).
Context (parent_lookup : list V → result (option (list (list V)))).

(** What processing one group achieves. *)
Definition group_step (acc : ProcessingResult V * St) g recs rows' G C (res : ProcessingResult V) st' v : Prop :=
  run_group op src us own_lookup parent_lookup RcNone acc recs = Ok (pr_append acc.1 res, st') ∧
  pr_misses res = [] ∧ value_ok (gl_kept op rows' v) rows' ∧
  gl_inv st' (fn_upd G g rows') (fn_upd C g (gl_kept op rows' v)) ∧
  (length (pr_results res) ≤ 2 ∧ out_shape (pr_results res)) ∧
  ∀ x, wt x (pr_results res) = (occ x (out_row (gl_kept op rows' v) g rows') - occ x (out_row (C g) g (G g)))%Z ∧
       (negs x (pr_results res) <= occ x (out_row (C g) g (G g)))%Z.

Lemma run_group_ok acc g recs rows' rows'' G C :
  gl_inv acc.2 G C → Forall gl_row_ok (G g) → Forall gl_row_ok rows' →
  Forall (λ rc, gl_row_ok (rec rc)) recs →
  Forall (λ rc, cols_at (go_group_by op) (rec rc) = g) recs → recs ≠ [] →
  batch_ok (G g) recs rows' → (Z.of_nat (length (G g) + length recs) < 2 ^ 63)%Z →
  value_ok (C g) (G g) → own_lookup g = Ok (Some (out_row (C g) g (G g))) →
  parent_lookup g = Ok (Some rows'') → rows'' ≡ₚ rows' →
  ∃ res st' v, group_step acc g recs rows' G C res st' v.
Proof.
  intros Hinv HG Hrows' Hrecs Hkeys Hne Hb Hsz Hc Hown Hpar Hperm.
  destruct (gl_apply acc.2 G C g recs rows') as (diffs & o & st1 & Hdiffs & Happly & Ho); try done.
  destruct recs as [|rc recs]; [done|].
  assert (row_cols (grouped_group_by op) (rec rc) = Ok g) as Hkey.
  { apply Forall_cons in Hkeys as [Hk _]. apply Forall_cons in Hrecs as [Hr _].
    unfold grouped_group_by. rewrite row_cols_at by (by apply gl_fits). by rewrite Hk. }
  assert (length g = length (go_group_by op)) as Hg.
  { apply Forall_cons in Hkeys as [<- _]. apply Forall_cons in Hrecs as [Hr _]. by apply cols_at_length, gl_fits. }
  destruct (current_row_ok (C g) g (G g) Hc) as [Hcur Hcnt]; [lia|].
  unfold group_step, run_group. rewrite Hdiffs.
  set (delta := foldr (λ rc d, sgn rc + d)%Z 0%Z (rc :: recs)).
  assert (Z.of_nat (length rows') = (Z.of_nat (length (G g)) + delta)%Z) as Hlen
    by (apply applies_length, Hb).
  cbn [mbind result_bind]. unfold handle_group.
  change (expect (head (rc :: recs))) with (Ok rc). cbn [mbind result_bind]. rewrite Hkey.
  cbn [mbind result_bind]. rewrite Hown. unfold group_lookups. cbn [rc_is_partial mbind result_bind].
  rewrite Hcur. cbn [mbind result_bind]. rewrite Happly, Hcnt. cbn [mbind result_bind].
  destruct o as [v|].
  - destruct Ho as [Hagg Hinv']. eexists _, st1, v. split; [reflexivity|]. split_and!; try done.
    + by apply gl_kept_ok.
    + by apply group_output_shape.
    + by apply group_output_shape.
    + intros x. split; [by apply group_output_wt|apply group_output_negs].
  - rewrite Hpar. cbn [mbind result_bind]. destruct (Ho rows'' Hperm) as (v & st2 & -> & Hagg & Hinv').
    eexists _, st2, v. split; [reflexivity|]. split_and!; try done.
    + by apply gl_kept_ok.
    + by apply group_output_shape.
    + by apply group_output_shape.
    + intros x. split; [by apply group_output_wt|apply group_output_negs].
Qed.

(** All the groups of a batch, with distinct keys. *)
Lemma run_groups_ok (gs : list (list V * list (Record V))) acc G C G' :
  gl_inv acc.2 G C → pr_misses acc.1 = [] → NoDup gs.*1 →
  (∀ g recs, (g, recs) ∈ gs →
     Forall gl_row_ok (G g) ∧ Forall gl_row_ok (G' g) ∧ Forall (λ rc, gl_row_ok (rec rc)) recs ∧
     Forall (λ rc, cols_at (go_group_by op) (rec rc) = g) recs ∧ recs ≠ [] ∧
     batch_ok (G g) recs (G' g) ∧ (Z.of_nat (length (G g) + length recs) < 2 ^ 63)%Z ∧ value_ok (C g) (G g) ∧
     own_lookup g = Ok (Some (out_row (C g) g (G g))) ∧
     ∃ rows'', parent_lookup g = Ok (Some rows'') ∧ rows'' ≡ₚ G' g) →
  ∃ out st' C', result_foldl (run_group op src us own_lookup parent_lookup RcNone) acc gs.*2 = Ok (out, st') ∧
    pr_misses out = [] ∧
    gl_inv st' (λ k, if decide (k ∈ gs.*1) then G' k else G k) C' ∧
    (∀ k, k ∉ gs.*1 → C' k = C k) ∧ (∀ k, k ∈ gs.*1 → value_ok (C' k) (G' k)) ∧
    length (pr_results out) ≤ length (pr_results acc.1) + 2 * length gs ∧
    (out_shape (pr_results acc.1) → out_shape (pr_results out)) ∧
    ∀ x, wt x (pr_results out) = (wt x (pr_results acc.1) +
           net_change x (λ k, out_row (C k) k (G k)) (λ k, out_row (C' k) k (G' k)) gs.*1)%Z ∧
         (negs x (pr_results out) <= negs x (pr_results acc.1) + occ_over x (λ k, out_row (C k) k (G k)) gs.*1)%Z.
Proof.
  revert acc G C. induction gs as [|[g recs] gs IH]; intros acc G C Hinv Hm Hnd Hgs.
  - exists acc.1, acc.2, C. split; [by destruct acc|]. split; [done|]. split.
    { eapply gl_inv_ext; [|exact Hinv]. intros k. case_decide as Hk; [by apply elem_of_nil in Hk|done]. }
    split; [done|]. split; [by intros k ?%elem_of_nil|]. split; [simpl; lia|]. split; [done|]. intros x. simpl. lia.
  - csimpl in Hnd. apply NoDup_cons in Hnd as [Hni Hnd].
    destruct (Hgs g recs (elem_of_here _ _)) as (H1 & H2 & H3 & H4 & H5 & H6 & Hsz & H7 & H8 & rows'' & H9 & H10).
    destruct (run_group_ok acc g recs (G' g) rows'' G C)
      as (res & st1 & v & Hrun & Hm1 & Hv & Hinv1 & [Hl1 Hs1] & Hw); try done.
    destruct (IH (pr_append acc.1 res, st1) (fn_upd G g (G' g)) (fn_upd C g (gl_kept op (G' g) v)))
      as (out & st' & C' & Hout & Hmout & Hinv' & Hold & Hnew & Hlout & Hsout & Hwout); try done.
    { simpl. by rewrite Hm, Hm1. }
    { intros g' recs' Hin. assert (g' ≠ g) as Hne.
      { intros ->. apply Hni. apply list_elem_of_fmap. by exists (g, recs'). }
      unfold fn_upd. rewrite !decide_False by done. apply Hgs. by apply elem_of_further. }
    exists out, st', C'. csimpl. rewrite Hrun. cbn [mbind result_bind]. split; [done|]. split; [done|].
    assert (C' g = gl_kept op (G' g) v) as HCg.
    { rewrite (Hold g Hni). unfold fn_upd. by rewrite decide_True. }
    split_and!.
    + eapply gl_inv_ext; [|exact Hinv']. intros k. unfold fn_upd. simpl.
      destruct (decide (k = g)) as [->|Hne].
      * rewrite decide_False by done. rewrite decide_True; [done|apply elem_of_here].
      * repeat case_decide; try done; set_solver.
    + intros k Hk. apply not_elem_of_cons in Hk as [Hne Hk]. rewrite (Hold k Hk). unfold fn_upd.
      by rewrite decide_False.
    + intros k [->|Hk]%elem_of_cons; [by rewrite HCg|by apply Hnew].
    + simpl in Hlout. rewrite length_app in Hlout. simpl. lia.
    + intros Hs. apply Hsout. simpl. by apply Forall_app.
    + intros x. destruct (Hwout x) as [Hw1 Hn1]. destruct (Hw x) as [Hw2 Hn2]. simpl in Hw1, Hn1 |- *.
      assert (∀ k, k ∈ gs.*1 → out_row (fn_upd C g (gl_kept op (G' g) v) k) k (fn_upd G g (G' g) k) = out_row (C k) k (G k)) as He.
      { intros k Hk. unfold fn_upd. by rewrite !decide_False by (by intros ->). }
      rewrite wt_app, Hw2, (net_change_ext x _ (λ k, out_row (C k) k (G k))) in Hw1 by done.
      rewrite negs_app, (occ_over_ext x _ (λ k, out_row (C k) k (G k))) in Hn1 by done. rewrite HCg. lia.
Qed.

Lemma sorted_groups_ok rs :
  Forall (λ rc, gl_row_ok (rec rc)) rs →
  sorted_groups op rs = Ok (group_adjacent (sort_by (λ a b : list V * Record V, cmp a.1 b.1)
    ((λ rc, (cols_at (go_group_by op) (rec rc), rc)) <$> rs))).*2.
Proof.
  intros Hrs. unfold sorted_groups.
  assert (keyed_records (grouped_group_by op) rs = Ok ((λ rc, (cols_at (go_group_by op) (rec rc), rc)) <$> rs)) as Hk.
  { apply keyed_records_ok. eapply Forall_impl; [exact Hrs|]. intros rc. apply gl_fits. }
  destruct rs as [|rc [|rc' rs]]; [done|done|]. by rewrite Hk.
Qed.

Lemma take_out_row c k rows x :
  length k = length (go_group_by op) → x ∈ out_row c k rows → take (length (go_group_by op)) x = k.
Proof.
  intros Hlen. destruct c as [v|]; simpl; [|by intros ?%elem_of_nil].
  intros ->%list_elem_of_singleton. rewrite <-Hlen. apply take_app_length.
Qed.

(** Only the group of a row contributes to the change of its count. *)
Lemma net_change_own x C C' G G' ks :
  NoDup ks → (∀ k, k ∈ ks → length k = length (go_group_by op)) →
  net_change x (λ k, out_row (C k) k (G k)) (λ k, out_row (C' k) k (G' k)) ks =
  let k := take (length (go_group_by op)) x in
  if decide (k ∈ ks) then (occ x (out_row (C' k) k (G' k)) - occ x (out_row (C k) k (G k)))%Z else 0%Z.
Proof.
  intros Hnd Hlen. cbv zeta. apply (net_change_at x (λ k, out_row (C k) k (G k)) (λ k, out_row (C' k) k (G' k))); [done|]. intros k Hk Hne.
  split; intros Hin; apply Hne; symmetry; (eapply take_out_row; [by apply Hlen|exact Hin]).
Qed.

Lemma perm_short (l1 l2 : list (list V)) : l1 ≡ₚ l2 → length l2 ≤ 1 → l1 = l2.
Proof.
  intros Hp Hl. destruct l2 as [|a [|b l2]]; simpl in Hl; [|by apply Permutation_singleton_r|lia].
  by apply Permutation_nil_r.
Qed.

Lemma grouped_state P rs P' S S' C C' (ks : list (list V)) res :
  applies P rs P' → grouped_ok P C S → NoDup ks →
  (∀ k, k ∈ ks → length k = length (go_group_by op)) →
  (∀ rc, rc ∈ rs → cols_at (go_group_by op) (rec rc) ∈ ks) →
  (∀ k, k ∉ ks → C' k = C k) → (∀ k, k ∈ ks → value_ok (C' k) (rows_of P' k)) →
  (∀ x, wt x res = net_change x (λ k, out_row (C k) k (rows_of P k)) (λ k, out_row (C' k) k (rows_of P' k)) ks) →
  applies S res S' → grouped_ok P' C' S'.
Proof.
  intros Ha Hok Hnd Hlen Hkeys Hold Hnew Hw HS g.
  assert (∀ k, k ∉ ks → rows_of P k ≡ₚ rows_of P' k) as Hsame.
  { intros k Hk. apply same_rows_perm. intros r. unfold rows_of. rewrite !occ_filter. case_decide as Hkey; [|done].
    rewrite (Ha r). rewrite (wt_not_in r rs); [lia|]. intros rc Hrc Heq. apply Hk. rewrite <-Hkey, <-Heq. auto. }
  split.
  { destruct (decide (g ∈ ks)); [by apply Hnew|]. destruct (Hok g) as [Hv _]. rewrite Hold by done.
    destruct (C g); simpl in *.
    - destruct Hv as [Hv1 Hv2]. split; [by eapply gl_agg_perm; [apply Hsame|]|].
      intros Hnil. apply Hv2. apply Permutation_nil_r. rewrite <-Hnil. by apply Hsame.
    - apply Permutation_nil_r. rewrite <-Hv. symmetry. by apply Hsame. }
  apply perm_short; [|unfold out_row; destruct (C' g); simpl; lia].
  apply same_rows_perm. intros x. unfold own_rows. rewrite occ_filter.
  destruct (Hok (take (length (go_group_by op)) x)) as [_ Hown].
  assert (occ x S = occ x (own_rows S (take (length (go_group_by op)) x))) as HoccS.
  { unfold own_rows. rewrite occ_filter. by rewrite decide_True. }
  rewrite (HS x), Hw, net_change_own by done. cbv zeta. rewrite HoccS, Hown. clear HoccS Hown.
  case_decide as Hx; [subst g; case_decide as Hk|].
  - lia.
  - rewrite Hold by done. rewrite Z.add_0_r. unfold out_row. destruct (C _); [|done].
    by rewrite (Permutation_length (Hsame _ Hk)).
  - symmetry. apply occ_zero. intros Hin. destruct (decide (g ∈ ks)) as [Hg|Hg].
    + by apply take_out_row in Hin; [|by apply Hlen].
    + rewrite Hold in Hin by done. destruct (Hok g) as [_ Hown].
      assert (x ∈ own_rows S g) as Hin'.
      { rewrite Hown. unfold out_row in *. destruct (C g); [|done].
        by rewrite (Permutation_length (Hsame _ Hg)). }
      by apply list_elem_of_filter in Hin' as [? _].
Qed.

Lemma grouped_on_input_ok P rs P' S C st :
  batch_ok P rs P' → (Z.of_nat (length P + length rs) < 2 ^ 63)%Z →
  Forall gl_row_ok P → Forall gl_row_ok P' → Forall (λ rc, gl_row_ok (rec rc)) rs →
  grouped_ok P C S → gl_inv st (rows_of P) C →
  (∀ g, length g = length (go_group_by op) → own_lookup g = Ok (Some (own_rows S g))) →
  (∀ g, length g = length (go_group_by op) → ∃ rows, parent_lookup g = Ok (Some rows) ∧ same_rows rows (rows_of P' g)) →
  ∃ out st' C',
    grouped_on_input op src us own_lookup parent_lookup RcNone st rs = Ok (out, st') ∧
    pr_misses out = [] ∧ gl_inv st' (rows_of P') C' ∧
    (∀ x, (negs x (pr_results out) <= occ x S)%Z) ∧
    (∀ S', applies S (pr_results out) S' → grouped_ok P' C' S') ∧
    length (pr_results out) ≤ 2 * length rs ∧ out_shape (pr_results out).
Proof.
  intros Hb Hsz HP HP' Hrs Hok Hinv Hown Hpar.
  destruct (sorted_batch_groups (go_group_by op) rs) as (Hnd & Hgs & Hkeys).
  set (gs := group_adjacent _) in *.
  assert (∀ k, k ∈ gs.*1 → length k = length (go_group_by op)) as Hlen.
  { intros k Hk. apply list_elem_of_fmap in Hk as ([k' recs] & -> & Hin). simpl.
    destruct (Hgs _ _ Hin) as [Hrecs Hne]. clear Hin. destruct recs as [|rc recs]; [done|].
    assert (rc ∈ filter (λ rc, cols_at (go_group_by op) (rec rc) = k') rs) as Hrc
      by (rewrite <-Hrecs; apply elem_of_here).
    apply list_elem_of_filter in Hrc as [<- Hrc]. apply cols_at_length, gl_fits.
    rewrite Forall_forall in Hrs. by apply Hrs. }
  destruct (run_groups_ok gs (pr_empty, st) (rows_of P) C (rows_of P'))
    as (out & st' & C' & Hout & Hm & Hinv' & Hold & Hnew & Hlout & Hsout & Hw); [done|done|done| |].
  { intros g recs Hin. destruct (Hgs g recs Hin) as [-> Hne].
    split_and!; [by apply Forall_filter_keep..| |done| | | | |].
    - apply Forall_forall. by intros rc [? _]%list_elem_of_filter.
    - exact (batch_ok_filter (λ r, cols_at (go_group_by op) r = g) _ _ _ Hb).
    - pose proof (length_filter (λ r, cols_at (go_group_by op) r = g) P).
      pose proof (length_filter (λ rc, cols_at (go_group_by op) (rec rc) = g) rs). unfold rows_of. lia.
    - apply Hok.
    - rewrite Hown; [do 2 f_equal; apply Hok|]. apply Hlen, list_elem_of_fmap. by eexists (g, _).
    - destruct (Hpar g) as (rows & Hrows & Hs); [apply Hlen, list_elem_of_fmap; by eexists (g, _)|]. exists rows. split; [done|]. by apply same_rows_perm. }
  assert (∀ x, wt x (pr_results out) = net_change x (λ k, out_row (C k) k (rows_of P k))
    (λ k, out_row (C' k) k (rows_of P' k)) gs.*1) as Hw' by (intros x; by rewrite (proj1 (Hw x))).
  exists out, st', C'. split_and!.
  - unfold grouped_on_input. destruct rs as [|rc rs]; [exact Hout|].
    rewrite sorted_groups_ok by done. exact Hout.
  - done.
  - eapply gl_inv_ext; [|exact Hinv']. intros k. cbv beta. case_decide as Hk; [done|].
    apply batch_ok_nil. replace [] with (filter (λ rc, cols_at (go_group_by op) (rec rc) = k) rs).
    + exact (batch_ok_filter (λ r, cols_at (go_group_by op) r = k) _ _ _ Hb).
    + apply filter_none, Forall_forall. intros rc Hrc <-. by apply Hk, Hkeys.
  - intros x. destruct (Hw x) as [_ Hn]. simpl in Hn.
    rewrite (occ_over_at x _ gs.*1 (take (length (go_group_by op)) x)) in Hn; [|done|].
    + destruct (Hok (take (length (go_group_by op)) x)) as [_ Hrow]. rewrite <-Hrow in Hn.
      unfold own_rows in Hn. rewrite occ_filter, (decide_True (P := take _ x = take _ x)) in Hn by done.
      pose proof (occ_nonneg x S). case_decide; lia.
    + intros k Hk Hne Hin. apply Hne. symmetry. by eapply take_out_row; [apply Hlen|].
  - intros S' HS'. by eapply (grouped_state P rs P' S S' C C' gs.*1); [apply Hb|..].
  - simpl in Hlout. enough (length gs ≤ length rs) by lia. unfold gs.
    etrans; [apply group_adjacent_length|]. rewrite <-(length_fmap (λ rc, (cols_at (go_group_by op) (rec rc), rc)) rs).
    by rewrite (Permutation_length (sort_by_perm _ _)).
  - apply Hsout. constructor.
Qed.

(** C5: For every operation that satisfies the interface, [on_input] turns a
    valid batch of the parent into a batch of the operator's own state that
    retracts only rows that are there and takes the state that describes the
    groups of the parent's old rows to the one that describes the groups of its
    new rows: exactly one row for each group that has rows, with the group's
    values, its aggregate and its number of rows.  No group is missed, and the
    operation's cached state stays in step. *)
Theorem grouped_maintains P rs P' S C st :
  batch_ok P rs P' → (Z.of_nat (length P + length rs) < 2 ^ 63)%Z →
  Forall gl_row_ok P → Forall gl_row_ok P' → Forall (λ rc, gl_row_ok (rec rc)) rs →
  grouped_ok P C S → gl_inv st (rows_of P) C →
  (∀ g, own_lookup g = Ok (Some (own_rows S g))) →
  (∀ g, ∃ rows, parent_lookup g = Ok (Some rows) ∧ same_rows rows (rows_of P' g)) →
  ∃ out st' C',
    grouped_on_input op src us own_lookup parent_lookup RcNone st rs = Ok (out, st') ∧
    pr_misses out = [] ∧ gl_inv st' (rows_of P') C' ∧
    (∀ x, (negs x (pr_results out) <= occ x S)%Z) ∧
    (∀ S', applies S (pr_results out) S' → grouped_ok P' C' S').
Proof.
  intros Hb Hsz HP HP' Hrs Hok Hinv Hown Hpar.
  destruct (grouped_on_input_ok P rs P' S C st) as (out & st' & C' & Hout & Hm & Hi & Hn & HS & _); try done; [by intros g _..|].
  by exists out, st', C'.
Qed.
End grouped_props.
