(* ===== verification/OpAggregate.v ===== *)
(** * OpAggregate: the grouped operations

    Models [readyset-dataflow/src/ops/grouped/aggregate.rs] (COUNT, SUM, AVG),
    [extremum.rs] (MIN, MAX) and [concat.rs] (GROUP_CONCAT) as grouped operations.
    Arithmetic on values, which fails or yields NULL outside the types and ranges
    it supports, formatting, and the hash AVG keys its cache by are taken through
    the interface [DfArith] or as arguments. *)
From stdpp Require Import strings.
From S2P Require Import Prelude BTreeMap Result Records Keys Processing Batches OpGrouped.

(** What the aggregates use of [DfValue]: the arithmetic operators, on [Int]
    operands checked at 64 bits, the initial values of the output types, and text. *)
Class DfArith (V : Type) := {
  dfa_num :: DfNum V;
  dfv_add : V → V → result V;
  dfv_sub : V → V → result V;
  dfv_div : V → V → result V;
  dfv_double_zero : V;
  dfv_numeric_zero : V;
  dfv_text : string → V;
  dfv_as_text : V → option string;
  dfv_display : V → string;
  dfv_null_least : ∀ v : V, cmp (dfv_none : V) v ≠ Gt;
  dfv_add_int : ∀ a b, is_i64 (a + b) → dfv_add (dfv_int a) (dfv_int b) = Ok (dfv_int (a + b));
  dfv_sub_int : ∀ a b, is_i64 (a - b) → dfv_sub (dfv_int a) (dfv_int b) = Ok (dfv_int (a - b));
  dfv_as_text_text : ∀ s, dfv_as_text (dfv_text s) = Some s;
}.

Section aggregate.
Context `{DfArith V}.
Implicit Types (r : list V) (v : V).

(** ** [aggregate.rs] *)
Inductive Aggregation := AggCount | AggSum | AggAvg | AggGroupConcat (separator : string).

(** The output types [over] chooses from. *)
Inductive OutTy := TyBigInt | TyDouble | TyNumeric | TyText.

Definition agg_out_ty (a : Aggregation) (over_is_float : bool) : OutTy :=
  match a with
  | AggCount => TyBigInt
  | AggSum | AggAvg => if over_is_float then TyDouble else TyNumeric
  | AggGroupConcat _ => TyText
  end.

Record Aggregator := {
  ag_op : Aggregation;
  ag_over : nat;
  ag_group : list nat;
  ag_out_ty : OutTy;
}.

Definition aggregation_over (a : Aggregation) (over : nat) (group_by : list nat) (over_is_float : bool) : Aggregator :=
  {| ag_op := a; ag_over := over; ag_group := group_by; ag_out_ty := agg_out_ty a over_is_float |}.

Record NumericalDiff := { nd_value : V; nd_positive : bool; nd_group_hash : Z }.

(** [count_sum_map]: count and sum per group hash, for AVG. *)
Record AverageDataPair := { av_count : V; av_sum : V }.
Abbreviation CountSumMap := (gmap Z AverageDataPair).

(** [AverageDataPair::apply_diff]. *)
Definition avg_apply_diff (p : AverageDataPair) (d : NumericalDiff) : result (V * AverageDataPair) :=
  p' ← (if nd_positive d
        then sum ← dfv_add (av_sum p) (nd_value d);
             count ← dfv_add (av_count p) (dfv_int 1);
             Ok {| av_count := count; av_sum := sum |}
        else sum ← dfv_sub (av_sum p) (nd_value d);
             count ← dfv_sub (av_count p) (dfv_int 1);
             Ok {| av_count := count; av_sum := sum |});
  v ← (if is_gt (cmp (av_count p') (dfv_int 0)) then dfv_div (av_sum p') (av_count p') else Ok dfv_double_zero);
  Ok (v, p').

Definition new_data (a : Aggregator) : V :=
  match ag_out_ty a with
  | TyBigInt => dfv_int 0
  | TyDouble => dfv_double_zero
  | TyNumeric => dfv_numeric_zero
  | TyText => dfv_text ""
  end.

Context (group_hash : list V → Z).

Definition aggregator_to_diff (a : Aggregator) r (pos : bool) : result NumericalDiff :=
  group ← row_cols (ag_group a) r;
  value ← expect (r !! ag_over a);
  Ok {| nd_value := value; nd_positive := pos; nd_group_hash := group_hash group |}.

(** The closures of [apply]. *)
Definition apply_count (curr : V) (d : NumericalDiff) : result V :=
  if nd_positive d then dfv_add curr (dfv_int 1) else dfv_sub curr (dfv_int 1).
Definition apply_sum (curr : V) (d : NumericalDiff) : result V :=
  if nd_positive d then dfv_add curr (nd_value d) else dfv_sub curr (nd_value d).
Definition apply_avg (m : CountSumMap) (d : NumericalDiff) : result (V * CountSumMap) :=
  let p := default {| av_count := dfv_int 0; av_sum := dfv_double_zero |} (m !! nd_group_hash d) in
  '(v, p') ← avg_apply_diff p d;
  Ok (v, <[nd_group_hash d := p']> m).

Definition aggregator_step (a : Aggregator) (acc : V * CountSumMap) (d : NumericalDiff) : result (V * CountSumMap) :=
  if bool_decide (nd_value d = dfv_none) then Ok acc
  else match ag_op a with
       | AggCount => v ← apply_count acc.1 d; Ok (v, acc.2)
       | AggSum => v ← apply_sum acc.1 d; Ok (v, acc.2)
       | AggAvg => apply_avg acc.2 d
       | AggGroupConcat _ => Err Internal
       end.

Definition aggregator_apply (a : Aggregator) (m : CountSumMap) (current : option V) (diffs : list NumericalDiff) :
    result (option V * CountSumMap) :=
  '(v, m') ← result_foldl (aggregator_step a) (default (new_data a) current, m) diffs;
  Ok (Some v, m').

Definition aggregator_op (a : Aggregator) : GroupedOp V CountSumMap NumericalDiff :=
  {| go_group_by := ag_group a;
     go_to_diff := aggregator_to_diff a;
     go_apply := aggregator_apply a;
     go_empty_value := match ag_op a with AggCount => Some (dfv_int 0) | _ => None end;
     go_emit_empty := match ag_op a with
                      | AggCount | AggGroupConcat _ => match ag_group a with [] => true | _ => false end
                      | _ => false
                      end |}.
End aggregate.
Arguments NumericalDiff : clear implicits.
Arguments AverageDataPair : clear implicits.

Section extremum.
Context `{DfArith V}.
Implicit Types (r : list V) (v n : V).

(** ** [extremum.rs] *)
Inductive Extremum := ExtMin | ExtMax.
Record ExtremumOperator := { ex_op : Extremum; ex_over : nat; ex_group : list nat }.
Inductive DiffType := DtInsert (v : V) | DtRemove (v : V) | DtNone.

Definition extremum_to_diff (e : ExtremumOperator) r (pos : bool) : result DiffType :=
  v ← expect (r !! ex_over e);
  Ok (if bool_decide (v = dfv_none) then DtNone else if pos then DtInsert v else DtRemove v).

Definition is_extreme_value (op : Extremum) (current : option V) (x : V) : bool :=
  match current with
  | Some n => match op with ExtMax => is_ge (cmp x n) | ExtMin => is_le (cmp x n) end
  | None => true
  end.

(** [position] and [swap_remove]: the last element takes the place of the removed one. *)
Fixpoint swap_remove (l : list V) v : list V :=
  match l with
  | [] => []
  | x :: l' =>
      if decide (x = v) then
        match last l' with Some y => y :: removelast l' | None => [] end
      else x :: swap_remove l' v
  end.

Definition extremum_step (op : Extremum) (current : option V) (extreme_values : list V) (d : DiffType) : list V :=
  match d with
  | DtInsert v => if is_extreme_value op current v then extreme_values ++ [v] else extreme_values
  | DtRemove v => if is_extreme_value op current v then swap_remove extreme_values v else extreme_values
  | DtNone => extreme_values
  end.

(** [Iterator::min] and [Iterator::max]. *)
Definition extreme (op : Extremum) (l : list V) : option V :=
  match l with
  | [] => None
  | x :: l' => Some (foldl (λ b y, match op with
                                   | ExtMin => if is_gt (cmp b y) then y else b
                                   | ExtMax => if is_gt (cmp b y) then b else y
                                   end) x l')
  end.

Definition extremum_apply (e : ExtremumOperator) (u : unit) (current : option V) (diffs : list DiffType) :
    result (option V * unit) :=
  let extreme_values := match current with Some d => [d] | None => [] end in
  Ok (extreme (ex_op e) (foldl (extremum_step (ex_op e) current) extreme_values diffs), u).

Definition extremum_op (e : ExtremumOperator) : GroupedOp V unit DiffType :=
  {| go_group_by := ex_group e;
     go_to_diff := extremum_to_diff e;
     go_apply := extremum_apply e;
     go_empty_value := None;
     go_emit_empty := false |}.
End extremum.
Arguments DiffType : clear implicits.

Section concat.
Context `{DfArith V}.
Implicit Types (r : list V) (v : V).

(** ** [concat.rs] *)
Record LastState := { ls_string_repr : string; ls_data : list V }.
Definition last_state_default : LastState := {| ls_string_repr := ""; ls_data := [] |}.

Record GroupConcat := { gc_source_col : nat; gc_group_by : list nat; gc_separator : string }.
Record ConcatDiff := { cd_value : V; cd_is_positive : bool; cd_group_by : list V }.

Definition concat_fmt v : string := match dfv_as_text v with Some t => t | None => dfv_display v end.

Definition concat_to_diff (c : GroupConcat) r (is_positive : bool) : result ConcatDiff :=
  match r !! gc_source_col c with
  | None => Err InvalidRecordLength
  | Some value =>
      match row_cols (gc_group_by c) r with
      | Ok group => Ok {| cd_value := value; cd_is_positive := is_positive; cd_group_by := group |}
      | _ => Err InvalidRecordLength
      end
  end.

(** [rposition] and [remove]: drops the last occurrence of a value. *)
Fixpoint remove_last (l : list V) v : option (list V) :=
  match l with
  | [] => None
  | x :: l' =>
      match remove_last l' v with
      | Some l'' => Some (x :: l'')
      | None => if decide (x = v) then Some l' else None
      end
  end.

Definition concat_step (group : list V) (data : list V) (d : ConcatDiff) : result (list V) :=
  if bool_decide (cd_group_by d = group) then
    if cd_is_positive d then Ok (data ++ [cd_value d])
    else match remove_last data (cd_value d) with Some l => Ok l | None => Err Internal end
  else Err Internal.

(** The output string: every piece, and the separator after all but the last. *)
Fixpoint concat_out (separator : string) (data : list V) : string :=
  match data with
  | [] => ""
  | [v] => concat_fmt v
  | v :: data' => concat_fmt v +:+ separator +:+ concat_out separator data'
  end.

(** [last_state], a [HashMap] keyed by the group's values. *)
Abbreviation LastStates := (list (list V * LastState)).

Definition concat_apply (c : GroupConcat) (m : LastStates) (current : option V) (diffs : list ConcatDiff) :
    result (option V * LastStates) :=
  let current := v ← current; dfv_as_text v in
  match diffs with
  | [] => Err Internal
  | first :: _ =>
      let group := cd_group_by first in
      let ls := bm_get m group in
      let m := bm_remove m group in
      let prev := match current with
                  | Some text =>
                      match ls with
                      | Some l => if bool_decide (text = ls_string_repr l) then Some l else None
                      | None => None
                      end
                  | None => Some last_state_default
                  end in
      match prev with
      | None => Ok (None, m)
      | Some prev =>
          data ← result_foldl (concat_step group) (ls_data prev) diffs;
          let out := concat_out (gc_separator c) data in
          Ok (Some (dfv_text out), bm_insert m group {| ls_string_repr := out; ls_data := data |})
      end
  end.

Definition concat_op (c : GroupConcat) : GroupedOp V LastStates ConcatDiff :=
  {| go_group_by := gc_group_by c;
     go_to_diff := concat_to_diff c;
     go_apply := concat_apply c;
     go_empty_value := Some (dfv_text "");
     go_emit_empty := false |}.
End concat.
Arguments LastState : clear implicits.
Arguments ConcatDiff : clear implicits.
