(* ===== verification/OpAggregateProps.v ===== *)
(** * OpAggregateProps: the grouped operations satisfy the grouped interface

    COUNT, MIN, MAX and GROUP_CONCAT are instances of [GroupedLaws], so the
    theorem of [OpGroupedProps] applies to them; MIN is one only for rows whose
    aggregated column is not NULL, and a theorem shows what it does otherwise.
    AVG keeps a cache that a replay of the group does not reset; a theorem shows
    the value it then computes. *)
From stdpp Require Import strings.
From S2P Require Import Prelude BTreeMap Result Records Keys Processing Batches OpGrouped OpGroupedProps OpAggregate.

(** ** COUNT *)
Section count.
Context `{DfArith V} (group_hash : list V → Z) (a : Aggregator).
Context (Hop : ag_op a = AggCount) (Hty : ag_out_ty a = TyBigInt).
Implicit Types (r g : list V) (rc : Record V) (rs recs : list (Record V)) (rows : list (list V)).
Open Scope Z_scope.

Definition agg_row_ok r : Prop := Forall (λ c, (c < length r)%nat) (ag_group a) ∧ (ag_over a < length r)%nat.

(** The number of rows whose aggregated column is not NULL. *)
Definition non_null_count rows : Z := Z.of_nat (length (filter (λ r, r !! ag_over a ≠ Some dfv_none) rows)).

Lemma non_null_count_perm rows rows' : rows ≡ₚ rows' → non_null_count rows = non_null_count rows'.
Proof. intros Hp. unfold non_null_count. by rewrite Hp. Qed.
Lemma non_null_count_cons r rows :
  non_null_count (r :: rows) = (if decide (r !! ag_over a ≠ Some dfv_none) then 1 else 0) + non_null_count rows.
Proof. unfold non_null_count. rewrite filter_cons. case_decide; cbn [length]; lia. Qed.
Lemma non_null_count_bound rows : 0 <= non_null_count rows <= Z.of_nat (length rows).
Proof.
  unfold non_null_count. pose proof (length_filter (λ r, r !! ag_over a ≠ Some dfv_none) rows). lia.
Qed.

Definition agg_diff rc : NumericalDiff V :=
  {| nd_value := default dfv_none (rec rc !! ag_over a); nd_positive := is_positive rc;
     nd_group_hash := group_hash (cols_at (ag_group a) (rec rc)) |}.

Lemma aggregator_to_diff_ok r (b : bool) :
  agg_row_ok r → aggregator_to_diff group_hash a r b = Ok (agg_diff (record_from (r, b))).
Proof.
  intros [Hg Ho]. unfold aggregator_to_diff. rewrite row_cols_at by done. simpl.
  destruct (lookup_lt_is_Some_2 r _ Ho) as [v Hv]. unfold agg_diff. destruct b; simpl; by rewrite Hv.
Qed.
Lemma agg_diffs_ok recs :
  Forall (λ rc, agg_row_ok (rec rc)) recs →
  result_mapM (λ rc, aggregator_to_diff group_hash a (rec rc) (is_positive rc)) recs = Ok (agg_diff <$> recs).
Proof.
  intros Hr. apply result_mapM_ok. eapply Forall_impl; [exact Hr|]. intros rc Hrc. cbv beta.
  rewrite aggregator_to_diff_ok by done. by destruct rc.
Qed.

Lemma count_run recs rows rows' m :
  Forall (λ rc, agg_row_ok (rec rc)) recs → batch_ok rows recs rows' →
  Z.of_nat (length rows + length recs) < 2 ^ 63 →
  result_foldl (aggregator_step a) (dfv_int (non_null_count rows), m) (agg_diff <$> recs) =
  Ok (dfv_int (non_null_count rows'), m).
Proof using Hop.
  revert rows. induction recs as [|rc recs IH]; intros rows Hr Hb Hsz.
  - apply batch_ok_nil in Hb. csimpl. by rewrite (non_null_count_perm _ _ Hb).
  - apply Forall_cons in Hr as [[_ Ho] Hr]. apply batch_ok_cons in Hb.
    pose proof (non_null_count_bound rows). cbn [length] in Hsz.
    assert (∀ n n', n' = n + (if decide (rec rc !! ag_over a ≠ Some dfv_none) then sgn rc else 0) → is_i64 n' →
      aggregator_step a (dfv_int n, m) (agg_diff rc) = Ok (dfv_int n', m)) as Hstep.
    { intros n n' -> Hn'. destruct (lookup_lt_is_Some_2 (rec rc) _ Ho) as [v Hv]. revert Hn'.
      unfold aggregator_step, agg_diff, apply_count. rewrite Hop, Hv. cbn [nd_value nd_positive default fst snd].
      case_bool_decide as Hn; [simpl in Hn; subst v; rewrite decide_False by (intros Hc; by apply Hc); by rewrite Z.add_0_r|].
      simpl in Hn. rewrite decide_True by congruence. destruct rc; unfold sgn; simpl; intros Hn'.
      - by rewrite dfv_add_int.
      - by rewrite dfv_sub_int. }
    change (agg_diff <$> rc :: recs) with (agg_diff rc :: (agg_diff <$> recs)). cbn [result_foldl].
    destruct rc as [r|r]; simpl in Hb, Hstep.
    + rewrite (Hstep _ (non_null_count (r :: rows))).
      * apply IH; [done|done|cbn [length]; lia].
      * rewrite non_null_count_cons. unfold sgn. simpl. lia.
      * pose proof (non_null_count_bound (r :: rows)). cbn [length] in *. unfold is_i64. lia.
    + destruct Hb as (rows1 & Hp & Hb). pose proof (Permutation_length Hp) as Hl. cbn [length] in Hl.
      rewrite (Hstep _ (non_null_count rows1)).
      * apply IH; [done|done|lia].
      * rewrite (non_null_count_perm _ _ Hp), non_null_count_cons. unfold sgn. simpl. case_decide; lia.
      * pose proof (non_null_count_bound rows1). unfold is_i64. lia.
Qed.

(** COUNT: the aggregate of a group is the number of its non-NULL values. *)
#[export] Instance count_laws : GroupedLaws (aggregator_op group_hash a).
Proof using Hop Hty.
  refine {| gl_row_ok := agg_row_ok; gl_agg v rows := v = dfv_int (non_null_count rows);
            gl_inv _ _ _ := True |}.
  - by intros r [? _].
  - intros v rows rows' Hp ->. by rewrite (non_null_count_perm _ _ Hp).
  - done.
  - intros m G C g recs rows' _ _ _ Hr _ _ Hb Hsz Hc. eexists _, _, m.
    split; [by apply agg_diffs_ok|]. simpl. unfold aggregator_apply.
    assert (default (new_data a) (C g) = dfv_int (non_null_count (G g))) as ->.
    { destruct (C g); simpl; [by destruct Hc|]. rewrite Hc. unfold new_data. by rewrite Hty. }
    rewrite (count_run recs (G g) rows') by done. simpl. done.
Defined.
End count.

(** ** MIN and MAX *)
Section extremum_props.
Context `{DfArith V} (e : ExtremumOperator).
Implicit Types (r g : list V) (rc : Record V) (rs recs : list (Record V)) (rows : list (list V)).
Implicit Types (x y n v : V) (l : list V).

(** The order in which the extremum is the greatest value. *)
Definition ext_cmp (op : Extremum) x y : comparison :=
  match op with ExtMax => cmp x y | ExtMin => cmp y x end.

Definition cnt x l : nat := length (filter (λ y, y = x) l).
Lemma cnt_cons x y l : cnt x (y :: l) = (if decide (y = x) then 1 else 0) + cnt x l.
Proof. unfold cnt. rewrite filter_cons. by case_decide. Qed.
Lemma cnt_perm x l1 l2 : l1 ≡ₚ l2 → cnt x l1 = cnt x l2.
Proof. intros Hp. unfold cnt. by rewrite Hp. Qed.
Lemma cnt_pos x l : 0 < cnt x l ↔ x ∈ l.
Proof.
  induction l as [|y l IH]; [unfold cnt; simpl; split; [lia|by intros ?%elem_of_nil]|].
  rewrite cnt_cons, elem_of_cons, <-IH. case_decide; subst; split; intros; try lia; auto.
  destruct H1 as [->|]; [done|lia].
Qed.

Lemma swap_remove_perm l v : v ∈ l → l ≡ₚ v :: swap_remove l v.
Proof.
  induction l as [|x l IH]; [by intros ?%elem_of_nil|]. simpl. intros [->|Hin]%elem_of_cons.
  - rewrite decide_True by done. destruct (last l) as [y|] eqn:El.
    + apply last_Some in El as [l' ->]. rewrite removelast_last. by rewrite (comm (++)).
    + apply last_None in El as ->. done.
  - case_decide as Hx; [subst x|rewrite (IH Hin) at 1; apply Permutation_swap].
    destruct (last l) as [y|] eqn:El.
    + apply last_Some in El as [l' ->]. rewrite removelast_last. by rewrite (comm (++)).
    + apply last_None in El as ->. done.
Qed.
Lemma swap_remove_absent l v : v ∉ l → swap_remove l v = l.
Proof.
  induction l as [|x l IH]; [done|]. intros [Hne Hni]%not_elem_of_cons. simpl.
  rewrite decide_False by done. by rewrite IH.
Qed.

Lemma extreme_spec op l :
  match extreme op l with
  | None => l = []
  | Some b => b ∈ l ∧ ∀ y, y ∈ l → ext_cmp op y b ≠ Gt
  end.
Proof.
  destruct l as [|x l]; simpl; [done|]. revert x. induction l as [|y l IH]; intros x; simpl.
  - split; [apply elem_of_here|]. intros y ->%list_elem_of_singleton. unfold ext_cmp. destruct op; ord_lia.
  - set (x' := match op with ExtMin => _ | ExtMax => _ end).
    assert ((x' = x ∨ x' = y) ∧ ext_cmp op x x' ≠ Gt ∧ ext_cmp op y x' ≠ Gt) as (Hx & Hx1 & Hx2).
    { unfold x', ext_cmp. destruct op; destruct (cmp x y) eqn:E; simpl; (split; [auto|]);
        split; ord_lia. }
    destruct (IH x') as [Hin Hle]. split.
    + apply elem_of_cons in Hin as [Hin|Hin]; [|by apply elem_of_further, elem_of_further].
      rewrite Hin. destruct Hx as [->| ->]; [apply elem_of_here|apply elem_of_further, elem_of_here].
    + intros z [->|[->|Hz]%elem_of_cons]%elem_of_cons; [| |apply Hle; by apply elem_of_further].
      * specialize (Hle x' (elem_of_here _ _)). unfold ext_cmp in *. destruct op; ord_lia.
      * specialize (Hle x' (elem_of_here _ _)). unfold ext_cmp in *. destruct op; ord_lia.
Qed.

(** The aggregated values of a group, and their extremum: NULL if there are none. *)
Definition ext_values rows : list V := filter (λ v, v ≠ dfv_none) (omap (λ r, r !! ex_over e) rows).
Definition ext_agg v rows : Prop :=
  match ext_values rows with
  | [] => v = dfv_none
  | vs => v ∈ vs ∧ ∀ y, y ∈ vs → ext_cmp (ex_op e) y v ≠ Gt
  end.

Lemma ext_values_perm rows rows' : rows ≡ₚ rows' → ext_values rows ≡ₚ ext_values rows'.
Proof. intros Hp. unfold ext_values. by rewrite Hp. Qed.
Lemma ext_agg_perm v rows rows' : rows ≡ₚ rows' → ext_agg v rows → ext_agg v rows'.
Proof.
  intros Hp%ext_values_perm. unfold ext_agg.
  destruct (ext_values rows) as [|a vs], (ext_values rows') as [|b vs']; try done.
  - by apply Permutation_nil_l in Hp.
  - by apply Permutation_nil_r in Hp.
  - intros [Hin Hle]. split; [by rewrite <-Hp|]. intros y Hy. apply Hle. by rewrite Hp.
Qed.
Lemma ext_values_cons r rows v :
  r !! ex_over e = Some v →
  ext_values (r :: rows) = if decide (v ≠ dfv_none) then v :: ext_values rows else ext_values rows.
Proof. intros Hv. unfold ext_values. csimpl. rewrite Hv. rewrite filter_cons. by case_decide. Qed.
Lemma ext_values_not_null rows x : x ∈ ext_values rows → x ≠ dfv_none.
Proof. by intros [? _]%list_elem_of_filter. Qed.

(** How the candidate values relate to the values of the group. *)
Definition above (cur : option V) x : Prop :=
  match cur with None => True | Some n => ext_cmp (ex_op e) x n = Gt end.
Definition cand_ok (cur : option V) (ev vs : list V) : Prop :=
  (∀ x, above cur x → cnt x ev = cnt x vs) ∧
  (∀ n, cur = Some n → n ≠ dfv_none → cnt n ev ≤ cnt n vs) ∧
  (∀ n x, cur = Some n → x ∈ ev → ext_cmp (ex_op e) x n ≠ Lt).

Definition ext_row_ok r : Prop :=
  Forall (λ c, c < length r) (ex_group e) ∧ ex_over e < length r ∧
  (ex_op e = ExtMin → r !! ex_over e ≠ Some dfv_none).

Definition ext_diff rc : DiffType V :=
  let v := default dfv_none (rec rc !! ex_over e) in
  if bool_decide (v = dfv_none) then DtNone else if is_positive rc then DtInsert v else DtRemove v.

Lemma ext_diffs_ok recs :
  Forall (λ rc, ext_row_ok (rec rc)) recs →
  result_mapM (λ rc, extremum_to_diff e (rec rc) (is_positive rc)) recs = Ok (ext_diff <$> recs).
Proof.
  intros Hr. apply result_mapM_ok. eapply Forall_impl; [exact Hr|]. intros rc (_ & Ho & _).
  destruct (lookup_lt_is_Some_2 (rec rc) _ Ho) as [v Hv]. unfold extremum_to_diff, ext_diff.
  by rewrite Hv.
Qed.

Lemma is_extreme_spec n x :
  is_extreme_value (ex_op e) (Some n) x = true ↔ ext_cmp (ex_op e) x n ≠ Lt.
Proof.
  simpl. unfold ext_cmp. destruct (ex_op e); [rewrite (cmp_antisym x n)|]; destruct (cmp x n); simpl; split; done.
Qed.

Lemma cand_ok_perm cur ev ev' vs vs' : ev ≡ₚ ev' → vs ≡ₚ vs' → cand_ok cur ev vs → cand_ok cur ev' vs'.
Proof.
  intros He Hv (H1 & H2 & H3). split_and!.
  - intros x Hx. rewrite <-(cnt_perm x _ _ He), <-(cnt_perm x _ _ Hv). by apply H1.
  - intros n Hn Hnn. rewrite <-(cnt_perm n _ _ He), <-(cnt_perm n _ _ Hv). by apply H2.
  - intros n x Hn Hx. apply H3; [done|]. by rewrite He.
Qed.

Lemma cand_ok_insert cur ev vs v :
  cand_ok cur ev vs → cand_ok cur (extremum_step (ex_op e) cur ev (DtInsert v)) (v :: vs).
Proof.
  intros (H1 & H2 & H3). unfold extremum_step. destruct (is_extreme_value (ex_op e) cur v) eqn:Ex.
  - apply (cand_ok_perm cur (v :: ev) _ (v :: vs)); [by rewrite (comm (++))|done|]. split_and!.
    + intros x Hx. rewrite !cnt_cons. by rewrite H1.
    + intros n Hn Hnn. rewrite !cnt_cons. specialize (H2 n Hn Hnn). lia.
    + intros n x -> [->|Hx]%elem_of_cons; [by apply is_extreme_spec|by apply H3].
  - destruct cur as [n|]; [|done].
    assert (ext_cmp (ex_op e) v n = Lt) as Hlt.
    { destruct (ext_cmp (ex_op e) v n) eqn:Ec; [| done|];
        rewrite (proj2 (is_extreme_spec n v)) in Ex by congruence; done. }
    assert (ext_cmp (ex_op e) n n = Eq) as Hnn by (unfold ext_cmp; destruct (ex_op e); ord_lia).
    split_and!; [| |done].
    + intros x Hx. rewrite cnt_cons, H1 by done. rewrite decide_False; [done|]. intros ->. simpl in Hx. congruence.
    + intros n' [= <-] Hn'. rewrite cnt_cons. specialize (H2 n eq_refl Hn'). lia.
Qed.

Lemma cand_ok_remove cur ev vs v :
  cand_ok cur ev (v :: vs) → cand_ok cur (extremum_step (ex_op e) cur ev (DtRemove v)) vs.
Proof.
  intros (H1 & H2 & H3). unfold extremum_step.
  assert (∀ x, x ≠ v → cnt x (v :: vs) = cnt x vs) as Hother.
  { intros x Hx. rewrite cnt_cons. by rewrite decide_False. }
  destruct (is_extreme_value (ex_op e) cur v) eqn:Ex; [destruct (decide (v ∈ ev)) as [Hin|Hni]|].
  - apply swap_remove_perm in Hin as Hp. split_and!.
    + intros x Hx. specialize (H1 x Hx). rewrite (cnt_perm x _ _ Hp), !cnt_cons in H1. lia.
    + intros n Hn Hnn. specialize (H2 n Hn Hnn). rewrite (cnt_perm n _ _ Hp), !cnt_cons in H2. lia.
    + intros n x Hn Hx. apply H3; [done|]. rewrite Hp. by apply elem_of_further.
  - rewrite swap_remove_absent by done. assert (cnt v ev = 0) as Hz.
    { destruct (cnt v ev) eqn:Ec; [done|]. exfalso. apply Hni, cnt_pos. lia. }
    split_and!; [| |done].
    + intros x Hx. destruct (decide (x = v)) as [->|Hne]; [|rewrite <-Hother; auto].
      specialize (H1 v Hx). rewrite cnt_cons, decide_True in H1 by done. lia.
    + intros n Hn Hnn. destruct (decide (n = v)) as [->|Hne]; [lia|]. rewrite <-Hother by done. auto.
  - destruct cur as [n|]; [|done]. split_and!; [| |done].
    + intros x Hx. destruct (decide (x = v)) as [->|Hne]; [|rewrite <-Hother; auto].
      rewrite (proj2 (is_extreme_spec n v)) in Ex; [done|]. simpl in Hx. congruence.
    + intros n' [= <-] Hnn. destruct (decide (n = v)) as [->|Hne]; [|rewrite <-Hother; auto].
      rewrite (proj2 (is_extreme_spec v v)) in Ex; [done|]. unfold ext_cmp. destruct (ex_op e); ord_lia.
Qed.

Lemma extremum_run cur recs rows rows' ev :
  Forall (λ rc, ext_row_ok (rec rc)) recs → batch_ok rows recs rows' →
  cand_ok cur ev (ext_values rows) →
  cand_ok cur (foldl (extremum_step (ex_op e) cur) ev (ext_diff <$> recs)) (ext_values rows').
Proof.
  revert rows ev. induction recs as [|rc recs IH]; intros rows ev Hr Hb Hok.
  - apply batch_ok_nil, ext_values_perm in Hb. by eapply cand_ok_perm.
  - apply Forall_cons in Hr as [(_ & Ho & _) Hr]. apply batch_ok_cons in Hb.
    change (ext_diff <$> rc :: recs) with (ext_diff rc :: (ext_diff <$> recs)). cbn [foldl].
    destruct (lookup_lt_is_Some_2 (rec rc) _ Ho) as [v Hv].
    assert (ext_diff rc = if bool_decide (v = dfv_none) then DtNone
      else if is_positive rc then DtInsert v else DtRemove v) as -> by (unfold ext_diff; by rewrite Hv).
    destruct rc as [r|r]; simpl in Hb, Hv.
    + apply (IH (r :: rows)); [done|done|]. rewrite (ext_values_cons _ _ _ Hv).
      case_bool_decide; case_decide; try done. by apply cand_ok_insert.
    + destruct Hb as (rows1 & Hp & Hb). apply (IH rows1); [done|done|].
      apply (cand_ok_perm _ _ ev _ _ (reflexivity _) (ext_values_perm _ _ Hp)) in Hok.
      rewrite (ext_values_cons _ _ _ Hv) in Hok.
      case_bool_decide; case_decide; try done. by apply cand_ok_remove.
Qed.

Definition ext_candidates (cur : option V) recs : list V :=
  foldl (extremum_step (ex_op e) cur) (match cur with Some d => [d] | None => [] end) (ext_diff <$> recs).

Lemma cand_ok_start cur rows :
  match cur with None => rows = [] | Some v => ext_agg v rows end →
  cand_ok cur (match cur with Some d => [d] | None => [] end) (ext_values rows).
Proof.
  destruct cur as [n|]; [|intros ->; by split_and!]. intros Hagg.
  assert (ext_cmp (ex_op e) n n = Eq) as Hnn by (unfold ext_cmp; destruct (ex_op e); ord_lia).
  split_and!.
  - intros x Hx. simpl in Hx. rewrite cnt_cons, decide_False by congruence.
    destruct (cnt x (ext_values rows)) eqn:Ec; [done|]. exfalso.
    assert (x ∈ ext_values rows) as Hin by (apply cnt_pos; lia). unfold ext_agg in Hagg.
    destruct (ext_values rows); [by apply elem_of_nil in Hin|]. by apply (proj2 Hagg x).
  - intros n' [= <-] Hnull. rewrite cnt_cons, decide_True by done.
    assert (0 < cnt n (ext_values rows)) as Hp; [|unfold cnt at 1; simpl; lia].
    apply cnt_pos. unfold ext_agg in Hagg. destruct (ext_values rows); [done|by destruct Hagg].
  - intros n' x [= <-] ->%list_elem_of_singleton. congruence.
Qed.

(** The extremum of the candidates is the extremum of the group's new values. *)
Lemma candidates_agg cur ev rows v :
  match cur with Some n => n = dfv_none → ex_op e = ExtMax | None => True end →
  cand_ok cur ev (ext_values rows) → extreme (ex_op e) ev = Some v → ext_agg v rows.
Proof.
  intros Hnull (H1 & H2 & H3) Hx. pose proof (extreme_spec (ex_op e) ev) as Hs. rewrite Hx in Hs.
  destruct Hs as [Hin Hle].
  assert (v ∈ ext_values rows ∨ (cur = Some v ∧ v = dfv_none)) as Hv.
  { destruct cur as [n|]; [|left; apply cnt_pos; rewrite <-H1 by done; by apply cnt_pos].
    destruct (ext_cmp (ex_op e) v n) eqn:Ec.
    - assert (v = n) as -> by (unfold ext_cmp in Ec; destruct (ex_op e); apply cmp_eq_iff in Ec; congruence).
      destruct (decide (n = dfv_none)) as [Hn|Hn]; [by right|]. left. apply cnt_pos.
      specialize (H2 n eq_refl Hn). apply cnt_pos in Hin. lia.
    - by specialize (H3 n v eq_refl Hin).
    - left. apply cnt_pos. rewrite <-H1 by done. by apply cnt_pos. }
  assert (∀ y, y ∈ ext_values rows → ext_cmp (ex_op e) y v ≠ Gt) as Hall.
  { intros y Hy. destruct cur as [n|].
    - destruct (ext_cmp (ex_op e) y n) eqn:Ec; [| |apply Hle, cnt_pos; rewrite H1 by done; by apply cnt_pos].
      all: specialize (H3 n v eq_refl Hin); unfold ext_cmp in *; destruct (ex_op e); ord_lia.
    - apply Hle, cnt_pos. rewrite H1 by done. by apply cnt_pos. }
  unfold ext_agg. destruct (ext_values rows) as [|a vs] eqn:Evs.
  - destruct Hv as [Hv|[_ ?]]; [by apply elem_of_nil in Hv|done].
  - split; [|done]. destruct Hv as [Hv|[-> ->]]; [done|]. exfalso.
    specialize (Hall a (elem_of_here _ _)). rewrite (Hnull eq_refl) in Hall. simpl in Hall.
    pose proof (dfv_null_least a). assert (a ≠ dfv_none) as Hne
      by (apply (ext_values_not_null rows); rewrite Evs; apply elem_of_here).
    apply Hne. ord_lia.
Qed.

Lemma extremum_recompute rows :
  Forall ext_row_ok rows →
  ∃ v, recompute (extremum_op e) tt rows = Ok (v, tt) ∧ ext_agg v rows.
Proof.
  intros Hr. unfold recompute. cbn [go_to_diff extremum_op].
  assert (result_mapM (λ r, extremum_to_diff e r true) rows = Ok (ext_diff <$> (Positive <$> rows))) as ->.
  { rewrite <-ext_diffs_ok by (by apply Forall_fmap). clear. induction rows as [|r rows IH]; csimpl; [done|].
    by rewrite IH. }
  eexists. split; [reflexivity|].
  assert (cand_ok None (ext_candidates None (Positive <$> rows)) (ext_values rows)) as Hc.
  { apply (extremum_run None _ []); [by apply Forall_fmap|apply batch_ok_all|by apply cand_ok_start]. }
  unfold ext_candidates in Hc. simpl in Hc. cbn [go_empty_value extremum_op default from_option id fst].
  destruct (extreme _ _) as [v|] eqn:Ex; simpl; [by apply (candidates_agg None _ rows v I Hc)|].
  pose proof (extreme_spec (ex_op e) (foldl (extremum_step (ex_op e) None) [] (ext_diff <$> (Positive <$> rows)))) as Hs.
  rewrite Ex in Hs. rewrite Hs in Hc. destruct Hc as [Hc _]. unfold ext_agg.
  destruct (ext_values rows) as [|a vs]; [done|]. specialize (Hc a I).
  rewrite cnt_cons, decide_True in Hc by done. done.
Qed.

Lemma ext_agg_not_null v rows :
  Forall ext_row_ok rows → rows ≠ [] → ext_agg v rows → v = dfv_none → ex_op e = ExtMax.
Proof.
  intros Hr Hne Hagg ->. destruct (ex_op e) eqn:Eop; [|done]. exfalso. unfold ext_agg in Hagg.
  destruct rows as [|r rows]; [done|]. apply Forall_cons in Hr as [(_ & Ho & Hn) _].
  destruct (lookup_lt_is_Some_2 r _ Ho) as [v Hv]. specialize (Hn Eop).
  rewrite (ext_values_cons _ _ _ Hv), decide_True in Hagg by congruence.
  destruct Hagg as [Hin _]. apply elem_of_cons in Hin as [Hin|Hin]; [congruence|].
  by apply ext_values_not_null in Hin.
Qed.

(** A valid batch applied to a group with a known extremum. *)
Lemma extremum_apply_ok cur recs rows rows' :
  Forall ext_row_ok rows → Forall ext_row_ok rows' → Forall (λ rc, ext_row_ok (rec rc)) recs →
  batch_ok rows recs rows' →
  match cur with None => rows = [] | Some v => ext_agg v rows ∧ rows ≠ [] end →
  ∃ diffs o, result_mapM (λ rc, extremum_to_diff e (rec rc) (is_positive rc)) recs = Ok diffs ∧
    extremum_apply e tt cur diffs = Ok (o, tt) ∧
    match o with
    | Some v => ext_agg v rows'
    | None => ∀ all, all ≡ₚ rows' → ∃ v, recompute (extremum_op e) tt all = Ok (v, tt) ∧ ext_agg v rows'
    end.
Proof.
  intros Hrows Hrows' Hr Hb Hc. eexists _, _. split; [by apply ext_diffs_ok|]. split; [reflexivity|].
  assert (match cur with None => rows = [] | Some v => ext_agg v rows end) as Hc'
    by (destruct cur; [by destruct Hc|done]).
  pose proof (extremum_run cur recs _ _ _ Hr Hb (cand_ok_start _ _ Hc')) as Hrun.
  destruct (extreme _ _) as [v|] eqn:Ex.
  - eapply candidates_agg; [|exact Hrun|exact Ex]. destruct cur as [n|]; [|done].
    destruct Hc as [Hagg Hne]. by apply (ext_agg_not_null n rows).
  - intros all Hp. assert (Forall ext_row_ok all) as Hall by (by rewrite Hp).
    destruct (extremum_recompute all Hall) as (v & Hv & Hagg). exists v. split; [done|].
    by eapply ext_agg_perm.
Qed.

(** MIN and MAX: the aggregate is the extremum of the non-NULL values. *)
#[export] Instance extremum_laws : GroupedLaws (extremum_op e).
Proof.
  refine {| gl_row_ok := ext_row_ok; gl_agg := ext_agg; gl_inv _ _ _ := True |}.
  - by intros r [? _].
  - intros v rows rows'. apply ext_agg_perm.
  - done.
  - intros [] G C g recs rows' _ HG Hrows' Hr _ _ Hb _ Hc.
    destruct (extremum_apply_ok (C g) recs (G g) rows') as (diffs & o & Hd & Ha & Ho); try done.
    { destruct (C g); [|done]. destruct Hc as [? Hc]. split; [done|]. by intros ?%Hc. }
    exists diffs, o, tt. split; [done|]. split; [done|]. cbv zeta. destruct o as [v|]; [done|].
    intros rows Hp. destruct (Ho rows Hp) as (v & Hv & Hagg). by exists v, tt.
Defined.
End extremum_props.

(** ** GROUP_CONCAT *)
Section concat_props.
Context `{DfArith V} (c : GroupConcat).
Implicit Types (r g : list V) (rc : Record V) (rs recs : list (Record V)) (rows : list (list V)).
Implicit Types (v : V) (data : list V).

Definition concat_row_ok r : Prop :=
  Forall (λ c, c < length r) (gc_group_by c) ∧ gc_source_col c < length r.
Definition concat_values rows : list V := omap (λ r, r !! gc_source_col c) rows.
Definition concat_agg v rows : Prop :=
  ∃ data, data ≡ₚ concat_values rows ∧ v = dfv_text (concat_out (gc_separator c) data).

(** The cache holds the pieces of every emitted string. *)
Definition concat_inv (m : list (list V * LastState V)) (G : list V → list (list V)) (C : list V → option V) : Prop :=
  ∀ g v, C g = Some v → ∃ ls, bm_get m g = Some ls ∧ v = dfv_text (ls_string_repr ls) ∧
    ls_data ls ≡ₚ concat_values (G g).

Definition concat_diff rc : ConcatDiff V :=
  {| cd_value := default dfv_none (rec rc !! gc_source_col c); cd_is_positive := is_positive rc;
     cd_group_by := cols_at (gc_group_by c) (rec rc) |}.

Lemma concat_diffs_ok recs :
  Forall (λ rc, concat_row_ok (rec rc)) recs →
  result_mapM (λ rc, concat_to_diff c (rec rc) (is_positive rc)) recs = Ok (concat_diff <$> recs).
Proof.
  intros Hr. apply result_mapM_ok. eapply Forall_impl; [exact Hr|]. intros rc [Hg Ho].
  destruct (lookup_lt_is_Some_2 (rec rc) _ Ho) as [v Hv]. unfold concat_to_diff, concat_diff.
  by rewrite Hv, row_cols_at.
Qed.

Lemma remove_last_perm data v : v ∈ data → ∃ data', remove_last data v = Some data' ∧ data ≡ₚ v :: data'.
Proof.
  induction data as [|x data IH]; [by intros ?%elem_of_nil|]. simpl. intros Hin.
  destruct (remove_last data v) as [d|] eqn:Er.
  - exists (x :: d). split; [done|]. destruct (decide (v ∈ data)) as [Hd|Hd].
    + destruct (IH Hd) as (d' & [= ->] & ->). apply Permutation_swap.
    + exfalso. clear -Er Hd. revert d Er. induction data as [|y data IH]; [done|]. intros d. simpl.
      apply not_elem_of_cons in Hd as [Hne Hd].
      destruct (remove_last data v) as [d'|]; [by destruct (IH Hd d' eq_refl)|]. by rewrite decide_False.
  - apply elem_of_cons in Hin as [->|Hin]; [rewrite decide_True by done; eauto|].
    by destruct (IH Hin) as (? & ? & _).
Qed.

Lemma concat_values_perm rows rows' : rows ≡ₚ rows' → concat_values rows ≡ₚ concat_values rows'.
Proof. intros Hp. unfold concat_values. by rewrite Hp. Qed.

Lemma concat_run g recs rows rows' data :
  Forall (λ rc, concat_row_ok (rec rc)) recs → Forall (λ rc, cols_at (gc_group_by c) (rec rc) = g) recs →
  batch_ok rows recs rows' → data ≡ₚ concat_values rows →
  ∃ data', result_foldl (concat_step g) data (concat_diff <$> recs) = Ok data' ∧ data' ≡ₚ concat_values rows'.
Proof.
  revert rows data. induction recs as [|rc recs IH]; intros rows data Hr Hk Hb Hd.
  - exists data. split; [done|]. by rewrite Hd, (concat_values_perm _ _ (batch_ok_nil _ _ Hb)).
  - apply Forall_cons in Hr as [[_ Ho] Hr]. apply Forall_cons in Hk as [Hg Hk]. apply batch_ok_cons in Hb.
    destruct (lookup_lt_is_Some_2 (rec rc) _ Ho) as [v Hv].
    change (concat_diff <$> rc :: recs) with (concat_diff rc :: (concat_diff <$> recs)). cbn [result_foldl].
    assert (concat_step g data (concat_diff rc) =
      if is_positive rc then Ok (data ++ [v])
      else match remove_last data v with Some l => Ok l | None => Err Internal end) as ->.
    { unfold concat_step, concat_diff. simpl. rewrite Hv. by rewrite bool_decide_true. }
    destruct rc as [r|r]; simpl in Hb, Hv |- *.
    + apply (IH (r :: rows)); [done|done|done|]. unfold concat_values. csimpl. rewrite Hv.
      rewrite (comm (++)). by constructor.
    + destruct Hb as (rows1 & Hp & Hb).
      assert (data ≡ₚ v :: concat_values rows1) as Hd'.
      { rewrite Hd, (concat_values_perm _ _ Hp). unfold concat_values. csimpl. by rewrite Hv. }
      destruct (remove_last_perm data v) as (data1 & -> & Hp1); [rewrite Hd'; apply elem_of_here|].
      apply (IH rows1); [done|done|done|]. rewrite Hp1 in Hd'. by apply Permutation_cons_inv in Hd'.
Qed.

(** A valid batch applied to a group whose cached pieces match its value. *)
Lemma concat_apply_ok m cur g recs rows rows' :
  Forall (λ rc, concat_row_ok (rec rc)) recs → Forall (λ rc, cols_at (gc_group_by c) (rec rc) = g) recs →
  recs ≠ [] → batch_ok rows recs rows' →
  match cur with
  | None => rows = []
  | Some v => ∃ ls, bm_get m g = Some ls ∧ v = dfv_text (ls_string_repr ls) ∧ ls_data ls ≡ₚ concat_values rows
  end →
  ∃ diffs data, result_mapM (λ rc, concat_to_diff c (rec rc) (is_positive rc)) recs = Ok diffs ∧
    data ≡ₚ concat_values rows' ∧
    let out := concat_out (gc_separator c) data in
    concat_apply c m cur diffs = Ok (Some (dfv_text out),
      bm_insert (bm_remove m g) g {| ls_string_repr := out; ls_data := data |}).
Proof.
  intros Hr Hk Hne Hb Hc.
  assert (∃ prev, ls_data prev ≡ₚ concat_values rows ∧
    match (v ← cur; dfv_as_text v) with
    | Some text => match bm_get m g with
                   | Some l => if bool_decide (text = ls_string_repr l) then Some l else None
                   | None => None
                   end
    | None => Some last_state_default
    end = Some prev) as (prev & Hprev & Heq).
  { destruct cur as [v|]; simpl.
    - destruct Hc as (ls & Hls & -> & Hdata). exists ls. split; [done|].
      rewrite dfv_as_text_text, Hls. by rewrite bool_decide_true.
    - exists last_state_default. by rewrite Hc. }
  destruct (concat_run g recs rows rows' (ls_data prev) Hr Hk Hb Hprev) as (data & Hrun & Hdata).
  exists (concat_diff <$> recs), data. split; [by apply concat_diffs_ok|]. split; [done|].
  unfold concat_apply. destruct recs as [|rc recs]; [done|].
  change (concat_diff <$> rc :: recs) with (concat_diff rc :: (concat_diff <$> recs)) in *. cbv beta iota zeta.
  assert (cd_group_by (concat_diff rc) = g) as -> by (by apply Forall_cons in Hk as [? _]).
  rewrite Heq, Hrun. reflexivity.
Qed.

(** GROUP_CONCAT: the aggregate joins the group's values, in some order; the
    cache makes the operation incremental, so it never has to be recomputed. *)
#[export] Instance concat_laws : GroupedLaws (concat_op c).
Proof.
  refine {| gl_row_ok := concat_row_ok; gl_agg := concat_agg; gl_inv := concat_inv |}.
  - by intros r [? _].
  - intros v rows rows' Hp (data & Hd & ->). exists data. split; [|done]. by rewrite Hd, (concat_values_perm _ _ Hp).
  - intros m G G' C Hp Hm g v Hg. destruct (Hm g v Hg) as (ls & ? & ? & Hls).
    exists ls. split_and!; [done|done|]. by rewrite Hls, (concat_values_perm _ _ (Hp g)).
  - intros m G C g recs rows' Hm _ _ Hr Hk Hne Hb _ Hc.
    destruct (concat_apply_ok m (C g) g recs (G g) rows') as (diffs & data & Hd & Hp & Ha); try done.
    { destruct (C g) as [v|] eqn:Eg; [by apply Hm|done]. }
    eexists diffs, _, _. split; [done|]. split; [exact Ha|]. cbv zeta. split; [by exists data|].
    intros g' v. unfold fn_upd. rewrite bm_get_insert, bm_get_remove. repeat case_decide; try done; try exact (Hm g' v).
    intros Hv. eexists. split; [done|]. split; [|done]. unfold gl_kept in Hv. simpl in Hv.
    by destruct rows'; simplify_eq.
Defined.
End concat_props.

(** ** Theorems *)
Section aggregate_theorems.
Context `{DfArith V}.
Implicit Types (r g : list V) (recs : list (Record V)) (rows : list (list V)).

(** MIN and MAX are incremental.  From the extremum of a group's non-NULL
    values and a valid batch, [apply] computes the extremum of the new values, or
    answers that it cannot, and then recomputing from the parent's rows gives it
    (NULL if no value is left).  For MIN the values must not be NULL. *)
Theorem extremum_incremental (e : ExtremumOperator) cur recs rows rows' :
  Forall (ext_row_ok e) rows → Forall (ext_row_ok e) rows' → Forall (λ rc, ext_row_ok e (rec rc)) recs →
  batch_ok rows recs rows' →
  match cur with None => rows = [] | Some v => ext_agg e v rows ∧ rows ≠ [] end →
  ∃ diffs o, result_mapM (λ rc, extremum_to_diff e (rec rc) (is_positive rc)) recs = Ok diffs ∧
    extremum_apply e tt cur diffs = Ok (o, tt) ∧
    match o with
    | Some v => ext_agg e v rows'
    | None => ∀ all, all ≡ₚ rows' → ∃ v, recompute (extremum_op e) tt all = Ok (v, tt) ∧ ext_agg e v rows'
    end.
Proof. apply extremum_apply_ok. Qed.

(** GROUP_CONCAT is incremental.  When the cached pieces of a group are those
    of the string last emitted for it, or nothing was emitted, [apply] computes
    the string that joins the values of the new rows, in some order, without
    recomputing, and caches its pieces under the group; other groups' pieces are
    untouched. *)
Theorem group_concat_incremental (c : GroupConcat) m cur g recs rows rows' :
  Forall (λ rc, concat_row_ok c (rec rc)) recs → Forall (λ rc, cols_at (gc_group_by c) (rec rc) = g) recs →
  recs ≠ [] → batch_ok rows recs rows' →
  match cur with
  | None => rows = []
  | Some v => ∃ ls, bm_get m g = Some ls ∧ v = dfv_text (ls_string_repr ls) ∧ ls_data ls ≡ₚ concat_values c rows
  end →
  ∃ diffs data m', result_mapM (λ rc, concat_to_diff c (rec rc) (is_positive rc)) recs = Ok diffs ∧
    data ≡ₚ concat_values c rows' ∧
    concat_apply c m cur diffs = Ok (Some (dfv_text (concat_out (gc_separator c) data)), m') ∧
    bm_get m' g = Some {| ls_string_repr := concat_out (gc_separator c) data; ls_data := data |} ∧
    ∀ g', g' ≠ g → bm_get m' g' = bm_get m g'.
Proof.
  intros Hr Hk Hne Hb Hc. destruct (concat_apply_ok c m cur g recs rows rows') as (diffs & data & Hd & Hp & Ha); try done.
  eexists diffs, data, _. split_and!; [done|done|exact Ha| |].
  - rewrite bm_get_insert. by case_decide.
  - intros g' Hg. rewrite bm_get_insert, bm_get_remove. by repeat case_decide.
Qed.
End aggregate_theorems.

(** *** Instances *)
Definition i64_checked (z : Z) : option Z := if decide (-(2 ^ 63) <= z < 2 ^ 63)%Z then Some z else None.

(** NULL, integers and strings, with the arithmetic of [DfValue::Int]: checked at
    64 bits, NULL on overflow and on NULL operands, an error on other types. *)
Inductive AggVal := ANone | AInt (z : Z) | AText (s : string) | AMax.

Definition agg_key (v : AggVal) : list Z :=
  match v with
  | ANone => [0%Z]
  | AInt z => [1%Z; z]
  | AText s => 2%Z :: ((λ a, Z.of_nat (Ascii.nat_of_ascii a)) <$> String.list_ascii_of_string s)
  | AMax => [3%Z]
  end.

Lemma agg_key_inj v1 v2 : agg_key v1 = agg_key v2 → v1 = v2.
Proof.
  destruct v1 as [| |s1|], v2 as [| |s2|]; simpl; try done; try congruence.
  intros [= Heq]. f_equal. rewrite <-(String.string_of_list_ascii_of_string s1), <-(String.string_of_list_ascii_of_string s2).
  f_equal. revert Heq. apply list_fmap_eq_inj. intros a b Hab. apply Nat2Z.inj in Hab.
  rewrite <-(Ascii.ascii_nat_embedding a), <-(Ascii.ascii_nat_embedding b). by f_equal.
Qed.

#[export] Instance agg_ord : Ord AggVal.
Proof.
  refine {| cmp a b := cmp (agg_key a) (agg_key b) |}.
  - intros a b. rewrite cmp_eq_iff. split; [apply agg_key_inj|by intros ->].
  - intros a b. apply cmp_antisym.
  - intros a b c. apply cmp_lt_trans.
Defined.
#[export] Instance agg_val : DfVal AggVal := {| dfv_none := ANone |}.

Definition agg_arith (f : Z → Z → option Z) (a b : AggVal) : result AggVal :=
  match a, b with
  | ANone, _ | _, ANone => Ok ANone
  | AInt x, AInt y => Ok (match f x y with Some z => AInt z | None => ANone end)
  | _, _ => Err Unsupported
  end.

#[export] Instance agg_num : DfNum AggVal.
Proof.
  refine {| dfv_int := AInt; dfv_as_int v := match v with AInt z => Some z | _ => None end |}. done.
Defined.

#[export] Instance agg_arith_inst : DfArith AggVal.
Proof.
  refine {| dfv_add := agg_arith (λ x y, i64_checked (x + y)); dfv_sub := agg_arith (λ x y, i64_checked (x - y));
            dfv_div := agg_arith (λ x y, if (y =? 0)%Z then None else i64_checked (Z.quot x y));
            dfv_double_zero := AInt 0; dfv_numeric_zero := AInt 0; dfv_text := AText;
            dfv_as_text v := match v with AText s => Some s | _ => None end;
            dfv_display v := EmptyString |}.
  - by intros [].
  - intros a b Hab. simpl. unfold i64_checked. by rewrite decide_True.
  - intros a b Hab. simpl. unfold i64_checked. by rewrite decide_True.
  - done.
Defined.

(** MIN does not recover from NULL.  A group whose only value is NULL has
    aggregate NULL; as NULL orders before every value, no inserted value counts as
    extreme any more, and the aggregate stays NULL whatever is inserted. *)
Theorem min_stuck_at_null `{DfArith V} (e : ExtremumOperator) (r : list V) (diffs : list (DiffType V)) :
  ex_op e = ExtMin → r !! ex_over e = Some dfv_none →
  Forall (λ d, ∃ v, d = DtInsert v ∧ v ≠ dfv_none) diffs →
  recompute (extremum_op e) tt [r] = Ok (dfv_none, tt) ∧
  extremum_apply e tt (Some dfv_none) diffs = Ok (Some dfv_none, tt).
Proof.
  intros Hop Hr Hd. split.
  - unfold recompute. simpl. unfold extremum_to_diff. rewrite Hr. simpl. rewrite bool_decide_true by done.
    reflexivity.
  - unfold extremum_apply. rewrite Hop.
    assert (foldl (extremum_step ExtMin (Some dfv_none)) [dfv_none] diffs = [dfv_none]) as ->; [|done].
    induction Hd as [|d diffs (v & -> & Hv) Hd IH]; [done|]. simpl.
    assert (cmp v dfv_none = Gt) as ->; [|exact IH].
    pose proof (dfv_null_least v). destruct (cmp v dfv_none) eqn:E; [by apply cmp_eq_iff in E| |done]. ord_lia.
Qed.

Definition sample_min : ExtremumOperator := {| ex_op := ExtMin; ex_over := 1; ex_group := [0] |}.

Lemma min_stuck_at_null_witness :
  recompute (extremum_op sample_min) tt [[AInt 1; ANone]] = Ok (ANone, tt) ∧
  extremum_apply sample_min tt (Some ANone) [DtInsert (AInt 5); DtInsert (AInt 3)] = Ok (Some ANone, tt).
Proof.
  apply (@min_stuck_at_null AggVal agg_arith_inst sample_min [AInt 1; ANone] [DtInsert (AInt 5); DtInsert (AInt 3)]);
    [reflexivity|reflexivity|].
  repeat constructor; [exists (AInt 5)|exists (AInt 3)]; done.
Defined.

(** AVG keeps its counts and sums in a cache that only [apply] updates.  A
    group that is evicted and replayed is added to the cached sums again: after
    10 was averaged, a replay of 10 and 20 yields (10 + 10 + 20) / 3, where a
    fresh cache yields (10 + 20) / 2. *)
Theorem avg_replay_counts_twice :
  let a := aggregation_over AggAvg 1 [0] true in
  let diff v := {| nd_value := AInt v; nd_positive := true; nd_group_hash := 0%Z |} in
  ∃ m1, aggregator_apply a ∅ None [diff 10%Z] = Ok (Some (AInt 10), m1) ∧
    (∃ m2, aggregator_apply a m1 None [diff 10%Z; diff 20%Z] = Ok (Some (AInt 13), m2)) ∧
    ∃ m3, aggregator_apply a ∅ None [diff 10%Z; diff 20%Z] = Ok (Some (AInt 15), m3).
Proof.
  cbv zeta. eexists. split; [vm_compute; reflexivity|]. split; eexists; vm_compute; reflexivity.
Qed.

Definition sample_max : ExtremumOperator := {| ex_op := ExtMax; ex_over := 1; ex_group := [0] |}.

Lemma extremum_incremental_witness :
  ∃ diffs o, result_mapM (λ rc, extremum_to_diff sample_max (rec rc) (is_positive rc))
      [Negative [AInt 1; AInt 7]; Positive [AInt 1; AInt 9]] = Ok diffs ∧
    extremum_apply sample_max tt (Some (AInt 7)) diffs = Ok (o, tt) ∧
    match o with
    | Some v => ext_agg sample_max v [[AInt 1; AInt 9]]
    | None => ∀ all, all ≡ₚ [[AInt 1; AInt 9]] →
                ∃ v, recompute (extremum_op sample_max) tt all = Ok (v, tt) ∧ ext_agg sample_max v [[AInt 1; AInt 9]]
    end.
Proof.
  apply (@extremum_incremental AggVal agg_arith_inst sample_max (Some (AInt 7)) [Negative [AInt 1; AInt 7]; Positive [AInt 1; AInt 9]]
    [[AInt 1; AInt 7]] [[AInt 1; AInt 9]]).
  1-3: repeat constructor; simpl; done || lia.
  - split.
    + intros r n. destruct n as [|[|n]]; simpl; unfold sgn; simpl; repeat case_decide; try lia; destruct n; simpl; lia.
    + intros r. simpl. unfold sgn. simpl. repeat case_decide; lia.
  - split; [|done]. split; [apply elem_of_here|]. intros y ->%list_elem_of_singleton. done.
Defined.

(** A COUNT over column 1 grouped by column 0, with one row in its state. *)
Definition sample_count : Aggregator := aggregation_over AggCount 1 [0] false.
Definition sample_count_op : GroupedOp AggVal (gmap Z (AverageDataPair AggVal)) (NumericalDiff AggVal) :=
  aggregator_op (λ _, 0%Z) sample_count.
#[export] Instance sample_count_laws : GroupedLaws sample_count_op :=
  count_laws (λ _, 0%Z) sample_count eq_refl eq_refl.
Definition sample_P : list (list AggVal) := [[AInt 1; AInt 5]].
Definition sample_rs : list (Record AggVal) := [Positive [AInt 2; AInt 7]; Positive [AInt 1; ANone]].
Definition sample_P' : list (list AggVal) := [[AInt 1; AInt 5]; [AInt 2; AInt 7]; [AInt 1; ANone]].
Definition sample_S : list (list AggVal) := [[AInt 1; AInt 1; AInt 1]].
Definition sample_C (g : list AggVal) : option AggVal :=
  if decide (g = [AInt 1]) then Some (AInt 1) else None.

Lemma sample_grouped_ok :
  @grouped_ok _ _ _ _ sample_count_op sample_count_laws sample_P sample_C sample_S.
Proof.
  intros g. unfold sample_C, rows_of, own_rows, sample_P, sample_S.
  rewrite !filter_cons, !filter_nil. simpl. unfold cols_at. simpl.
  repeat case_decide; subst; try done.
Qed.

Lemma grouped_maintains_witness :
  ∃ out st' C',
    grouped_on_input sample_count_op 0 1 (λ g, Ok (Some (own_rows sample_count_op sample_S g)))
      (λ g, Ok (Some (rows_of sample_count_op sample_P' g))) RcNone ∅ sample_rs = Ok (out, st') ∧
    pr_misses out = [] ∧ True ∧
    (∀ x, (negs x (pr_results out) <= occ x sample_S)%Z) ∧
    (∀ S', applies sample_S (pr_results out) S' →
       @grouped_ok _ _ _ _ sample_count_op sample_count_laws sample_P' C' S').
Proof.
  apply (@grouped_maintains AggVal agg_num _ _ sample_count_op sample_count_laws
    0 1 _ _ sample_P sample_rs sample_P' sample_S sample_C ∅).
  - split.
    + intros r n. destruct n as [|[|[|n]]]; simpl; unfold sgn; simpl; repeat case_decide; lia.
    + intros r. simpl. unfold sgn. simpl. repeat case_decide; lia.
  - done.
  - repeat constructor; simpl; lia.
  - repeat constructor; simpl; lia.
  - repeat constructor; simpl; lia.
  - exact sample_grouped_ok.
  - done.
  - done.
  - intros g. eexists. split; [done|]. by intros r.
Defined.

Definition sample_concat : GroupConcat := {| gc_source_col := 1; gc_group_by := [0]; gc_separator := "," |}.

Lemma group_concat_incremental_witness :
  ∃ diffs data m', result_mapM (λ rc, concat_to_diff sample_concat (rec rc) (is_positive rc))
      [Positive [AInt 1; AText "b"]; Negative [AInt 1; AText "a"]] = Ok diffs ∧
    data ≡ₚ [AText "b"] ∧
    concat_apply sample_concat [([AInt 1], {| ls_string_repr := "a"; ls_data := [AText "a"] |})]
      (Some (AText "a")) diffs = Ok (Some (AText (concat_out "," data)), m') ∧
    bm_get m' [AInt 1] = Some {| ls_string_repr := concat_out "," data; ls_data := data |} ∧
    ∀ g', g' ≠ [AInt 1] → bm_get m' g' =
      bm_get [([AInt 1], {| ls_string_repr := "a"; ls_data := [AText "a"] |})] g'.
Proof.
  apply (@group_concat_incremental AggVal agg_arith_inst sample_concat _ (Some (AText "a")) [AInt 1] _
    [[AInt 1; AText "a"]] [[AInt 1; AText "b"]]).
  - repeat constructor; simpl; lia.
  - repeat constructor.
  - done.
  - split.
    + intros r n. destruct n as [|[|[|n]]]; simpl; unfold sgn; simpl; repeat case_decide; lia.
    + intros r. simpl. unfold sgn. simpl. repeat case_decide; lia.
  - by exists {| ls_string_repr := "a"; ls_data := [AText "a"] |}.
Defined.
