(* ===== verification/OpTopK.v ===== *)
(** * OpTopK: the top-k operator

    Models [readyset-dataflow/src/ops/topk.rs] and the row order of
    [ops/utils.rs].  For every group the operator keeps in its own state the [k]
    rows that are greatest in its order.  A batch is sorted by group and processed
    record by record against the group's current rows; rows that fall short of [k]
    are filled up from the parent.

    The current rows of a group sit in a [BinaryHeap]; rows that compare as equal
    come out of it in an unspecified order, for which the model takes the order of
    insertion.  [mem::take] leaves the heap empty after every group. *)
From S2P Require Import Prelude Result Records Keys Processing Batches.

Inductive OrderType := OrderAscending | OrderDescending.
Abbreviation Order := (list (nat * OrderType)).

Section topk.
Context `{DfVal V}.
Implicit Types (r : list V) (rc : Record V) (rs : list (Record V)).

(** [Order::cmp]; a column outside a row panics, see [order_check]. *)
Fixpoint order_cmp (o : Order) (a b : list V) : comparison :=
  match o with
  | [] => Eq
  | (c, ty) :: o' =>
      let x := default dfv_none (a !! c) in
      let y := default dfv_none (b !! c) in
      then_cmp (match ty with OrderAscending => cmp x y | OrderDescending => cmp y x end) (order_cmp o' a b)
  end.
Definition order_fits (o : Order) r : bool := forallb (λ ct : nat * OrderType, ct.1 <? length r) o.
(** Comparing or sorting several rows panics if a column is missing. *)
Definition order_check (o : Order) (rows : list (list V)) : result unit :=
  if (length rows <=? 1) || forallb (order_fits o) rows then Ok tt else Panic.

Record TopK := {
  tk_src : nat;
  tk_us : nat;
  tk_group_by : list nat;
  tk_order : Order;
  tk_k : nat;
}.

(** [CurrentRecord]. *)
Record CurrentRecord := { cr_row : list V; cr_is_new : bool }.

Definition project_group (t : TopK) r : result (list V) :=
  match row_cols (tk_group_by t) r with Ok g => Ok g | _ => Err InvalidRecordLength end.

(** [peek]: a least row in the order (the heap's order is reversed). *)
Definition heap_peek (o : Order) (l : list CurrentRecord) : option CurrentRecord :=
  match l with
  | [] => None
  | x :: l' => Some (foldl (λ m y, if is_gt (order_cmp o (cr_row m) (cr_row y)) then y else m) x l')
  end.
(** [into_sorted_vec] and [reverse]: ascending in the order. *)
Definition heap_sorted (o : Order) (l : list CurrentRecord) : list CurrentRecord :=
  sort_by (λ a b, order_cmp o (cr_row a) (cr_row b)) l.

(** The loop that keeps old rows in place of new ones of the same order value. *)
Definition swap_at (l : list CurrentRecord) (i j : nat) : list CurrentRecord :=
  match l !! i, l !! j with
  | Some a, Some b => <[i := b]> (<[j := a]> l)
  | _, _ => l
  end.
Definition swap_old (o : Order) (start : nat) (l : list CurrentRecord) (i : nat) : list CurrentRecord :=
  match l !! i with
  | Some c =>
      if cr_is_new c then
        match list_find (λ x, cr_is_new x = false ∧ order_cmp o (cr_row x) (cr_row c) = Eq) (take start l) with
        | Some (ri, _) => swap_at l i ri
        | None => l
        end
      else l
  | None => l
  end.

(** The rows to add from the parent when a full group has shrunk. *)
Definition backfill (t : TopK) (current : list CurrentRecord) (rows : list (list V)) (diff : nat) :
    list CurrentRecord :=
  (λ row, {| cr_row := row; cr_is_new := true |}) <$>
    take diff (drop (length current) (sort_by (λ a b, order_cmp (tk_order t) b a) rows)).

Context (own_lookup : list V → result (option (list (list V)))).
Context (parent_lookup : list V → result (option (list (list V)))).

(** [post_group]. *)
Definition post_group (t : TopK) (current : list CurrentRecord) (key : list V) (original_len : nat) :
    result (list (Record V) * option (Lookup V)) :=
  let start := length current - tk_k t in
  '(current, lookup) ←
    (if (original_len =? tk_k t) && (length current <? original_len) then
       res ← parent_lookup key;
       match res with
       | None => Err Internal
       | Some rows =>
           _ ← order_check (tk_order t) rows;
           match key with
           | [] => Panic
           | _ => Ok (current ++ backfill t current rows (original_len - length current),
                      Some {| lookup_on := tk_src t; lookup_cols := tk_group_by t; lookup_key := KEqual key |})
           end
       end
     else Ok (current, None));
  _ ← order_check (tk_order t) (cr_row <$> current);
  let sorted := heap_sorted (tk_order t) current in
  let current := foldl (swap_old (tk_order t) start) sorted (seq start (length sorted - start)) in
  Ok ((Positive ∘ cr_row <$> filter (λ c, cr_is_new c = true) (drop start current)) ++
      (Negative ∘ cr_row <$> filter (λ c, cr_is_new c = false) (take start current)), lookup).

(** What the loop of [on_input] carries from record to record. *)
Record TopKState := {
  ts_out : list (Record V);
  ts_key : list V;
  ts_original_len : nat;
  ts_missed : bool;
  ts_current : list CurrentRecord;
  ts_misses : list (Miss V);
  ts_lookups : list (Lookup V);
}.

(** Ending a group, if one was begun. *)
Definition end_group (t : TopK) (replay : ReplayContext V) (s : TopKState) : result TopKState :=
  match ts_key s with
  | [] => Ok s
  | key =>
      '(out, lookup) ← post_group t (ts_current s) key (ts_original_len s);
      Ok {| ts_out := ts_out s ++ out; ts_key := key; ts_original_len := ts_original_len s;
            ts_missed := ts_missed s; ts_current := []; ts_misses := ts_misses s;
            ts_lookups := ts_lookups s ++
              (if rc_is_partial replay then match lookup with Some l => [l] | None => [] end else []) |}
  end.

(** Beginning the group of a record with another key. *)
Definition begin_group (t : TopK) (replay : ReplayContext V) (s : TopKState) (key : list V) : result TopKState :=
  s ← end_group t replay s;
  match ts_current s with
  | _ :: _ => Err Internal
  | [] =>
      own ← own_lookup key;
      match own with
      | Some rows =>
          lookups ← (if rc_is_partial replay then
                       match key with
                       | [] => Panic
                       | _ => Ok [{| lookup_on := tk_us t; lookup_cols := tk_group_by t; lookup_key := KEqual key |}]
                       end
                     else Ok []);
          Ok {| ts_out := ts_out s; ts_key := key; ts_original_len := length rows; ts_missed := false;
                ts_current := (λ row, {| cr_row := row; cr_is_new := false |}) <$> rows;
                ts_misses := ts_misses s; ts_lookups := ts_lookups s ++ lookups |}
      | None =>
          Ok {| ts_out := ts_out s; ts_key := key; ts_original_len := ts_original_len s; ts_missed := true;
                ts_current := []; ts_misses := ts_misses s; ts_lookups := ts_lookups s |}
      end
  end.

(** [retain] with the [found] flag: removes the first copy of a row. *)
Fixpoint remove_row (l : list CurrentRecord) r : option (CurrentRecord * list CurrentRecord) :=
  match l with
  | [] => None
  | c :: l' =>
      if decide (cr_row c = r) then Some (c, l')
      else match remove_row l' r with Some (c', l'') => Some (c', c :: l'') | None => None end
  end.

Definition set_current (s : TopKState) (current : list CurrentRecord) (out : list (Record V)) : TopKState :=
  {| ts_out := ts_out s ++ out; ts_key := ts_key s; ts_original_len := ts_original_len s;
     ts_missed := ts_missed s; ts_current := current; ts_misses := ts_misses s; ts_lookups := ts_lookups s |}.

(** One record against the current group. *)
Definition topk_apply (t : TopK) (s : TopKState) rc : result TopKState :=
  match rc with
  | Positive r =>
      skip ← (if tk_k t <=? ts_original_len s then
                match heap_peek (tk_order t) (ts_current s) with
                | Some m => _ ← order_check (tk_order t) [cr_row m; r];
                            Ok (is_gt (order_cmp (tk_order t) (cr_row m) r))
                | None => Ok false
                end
              else Ok false);
      Ok (if skip : bool then s
          else set_current s (ts_current s ++ [{| cr_row := r; cr_is_new := true |}]) [])
  | Negative r =>
      Ok match remove_row (ts_current s) r with
         | Some (c, current) => set_current s current (if cr_is_new c then [] else [Negative r])
         | None => s
         end
  end.

Definition topk_record (t : TopK) (replay : ReplayContext V) (s : TopKState) rc : result TopKState :=
  key ← project_group t (rec rc);
  s ← (if decide (ts_key s = key) then Ok s else begin_group t replay s key);
  if ts_missed s then
    m ← build_miss (tk_us t) (tk_group_by t) (MlkRecordColumns (tk_group_by t)) replay None (rec rc);
    Ok {| ts_out := ts_out s; ts_key := ts_key s; ts_original_len := ts_original_len s;
          ts_missed := ts_missed s; ts_current := ts_current s; ts_misses := ts_misses s ++ [m];
          ts_lookups := ts_lookups s |}
  else topk_apply t s rc.

Definition topk_state_init : TopKState :=
  {| ts_out := []; ts_key := []; ts_original_len := 0; ts_missed := false; ts_current := [];
     ts_misses := []; ts_lookups := [] |}.

(** The sort key: the projected group, or an empty one if that fails. *)
Definition topk_sort_key (t : TopK) rc : list V :=
  match project_group t (rec rc) with Ok k => k | _ => [] end.

Definition topk_on_input (t : TopK) (replay : ReplayContext V) rs : result (ProcessingResult V) :=
  match rs with
  | [] => Ok pr_empty
  | _ =>
      let sorted := sort_by (λ a b, cmp (topk_sort_key t a) (topk_sort_key t b)) rs in
      s ← result_foldl (topk_record t replay) topk_state_init sorted;
      s ← end_group t replay s;
      Ok {| pr_results := ts_out s; pr_lookups := ts_lookups s; pr_misses := ts_misses s |}
  end.
End topk.
Arguments CurrentRecord : clear implicits.
Arguments TopKState : clear implicits.
