(* ===== verification/OpTopKProps.v ===== *)
(** * OpTopKProps: correctness of the top-k operator

    What it means for some rows to be the top [k] of a group ([is_topk]), and the
    theorem that a batch for one group takes the top [k] of the group's old rows
    to the top [k] of its new rows, when the order has no ties and the batch
    retracts fewer than [k] rows.  Three theorems show what happens otherwise. *)
From S2P Require Import Prelude Result Records Keys Processing Batches OpTopK.

Section order.
Context `{DfVal V}.
Implicit Types (a b c r x y : list V) (o : Order).

Lemma order_cmp_antisym o a b : order_cmp o b a = CompOpp (order_cmp o a b).
Proof.
  induction o as [|[col []] o IH]; simpl; [done| |].
  - rewrite (cmp_antisym (default dfv_none (a !! col)) (default dfv_none (b !! col))).
    destruct (cmp _ _); simpl; done.
  - rewrite (cmp_antisym (default dfv_none (b !! col)) (default dfv_none (a !! col))).
    destruct (cmp _ _); simpl; done.
Qed.

Definition ole o a b : Prop := order_cmp o a b ≠ Gt.

Lemma ole_refl o a : ole o a a.
Proof. unfold ole. pose proof (order_cmp_antisym o a a). by destruct (order_cmp o a a). Qed.
Lemma ole_total o a b : ole o a b ∨ ole o b a.
Proof. unfold ole. rewrite (order_cmp_antisym o a b). destruct (order_cmp o a b); simpl; auto. Qed.
Lemma ole_flip o a b : order_cmp o a b = Gt → ole o b a.
Proof. unfold ole. rewrite (order_cmp_antisym o a b). by intros ->. Qed.
Lemma ole_antisym o a b : ole o a b → ole o b a → order_cmp o a b = Eq.
Proof. unfold ole. rewrite (order_cmp_antisym o a b). by destruct (order_cmp o a b). Qed.

Lemma ole_trans o a b c : ole o a b → ole o b c → ole o a c.
Proof.
  unfold ole. induction o as [|[col []] o IH]; simpl; [done| |].
  - generalize (default dfv_none (a !! col)) (default dfv_none (b !! col)) (default dfv_none (c !! col)).
    intros u v w. destruct (cmp u v) eqn:E1; destruct (cmp v w) eqn:E2; simpl; intros; try done;
      destruct (cmp u w) eqn:E3; simpl; try done; try (by apply IH); ord_lia.
  - generalize (default dfv_none (a !! col)) (default dfv_none (b !! col)) (default dfv_none (c !! col)).
    intros u v w. destruct (cmp v u) eqn:E1; destruct (cmp w v) eqn:E2; simpl; intros; try done;
      destruct (cmp w u) eqn:E3; simpl; try done; try (by apply IH); ord_lia.
Qed.

(** Rows among which the order has no ties. *)
Definition no_ties o (l : list (list V)) : Prop := ∀ a b, a ∈ l → b ∈ l → order_cmp o a b = Eq → a = b.
End order.

(** Lists sorted by a relation that is antisymmetric on their elements are unique. *)
Lemma sorted_unique {A} (R : A → A → Prop) (l1 l2 : list A) :
  (∀ a b, a ∈ l1 → b ∈ l1 → R a b → R b a → a = b) →
  StronglySorted R l1 → StronglySorted R l2 → l1 ≡ₚ l2 → l1 = l2.
Proof.
  revert l2. induction l1 as [|x l1 IH]; intros l2 Ha Hs1 Hs2 Hp; [by apply Permutation_nil_l in Hp|].
  destruct l2 as [|y l2]; [by apply Permutation_nil_r in Hp|].
  apply StronglySorted_inv in Hs1 as [Hs1 Hx]. apply StronglySorted_inv in Hs2 as [Hs2 Hy].
  assert (x = y) as ->.
  { assert (x ∈ y :: l2) as Hx2 by (rewrite <-Hp; apply elem_of_here).
    assert (y ∈ x :: l1) as Hy1 by (rewrite Hp; apply elem_of_here).
    apply elem_of_cons in Hx2 as [?|Hx2]; [done|]. apply elem_of_cons in Hy1 as [?|Hy1]; [done|].
    rewrite Forall_forall in Hx, Hy. apply Ha; [apply elem_of_here|by apply elem_of_further|by apply Hx|by apply Hy]. }
  f_equal. apply IH; try done; [|by apply Permutation_cons_inv in Hp].
  intros a b ? ?. apply Ha; by apply elem_of_further.
Qed.

Lemma StronglySorted_app_2 {A} (R : A → A → Prop) (l1 l2 : list A) :
  StronglySorted R l1 → StronglySorted R l2 → (∀ a b, a ∈ l1 → b ∈ l2 → R a b) → StronglySorted R (l1 ++ l2).
Proof.
  intros Hs1 Hs2 Hr. induction Hs1 as [|x l1 Hs1 IH Hx]; [done|]. simpl. constructor.
  - apply IH. intros a b Ha. apply Hr. by apply elem_of_further.
  - rewrite Forall_app. split; [done|]. apply Forall_forall. intros b Hb. apply Hr; [apply elem_of_here|done].
Qed.
Lemma topk_sorted_split {A} (R : A → A → Prop) (l : list A) n a b :
  StronglySorted R l → a ∈ take n l → b ∈ drop n l → R a b.
Proof.
  revert n. induction l as [|x l IH]; intros n Hs Ha Hb; [by rewrite take_nil in Ha; apply elem_of_nil in Ha|].
  destruct n as [|n]; [by apply elem_of_nil in Ha|]. apply StronglySorted_inv in Hs as [Hs Hx]. simpl in Ha, Hb.
  apply elem_of_cons in Ha as [->|Ha]; [|by apply (IH n)].
  rewrite Forall_forall in Hx. apply Hx. rewrite <-(take_drop n l). apply elem_of_app. by right.
Qed.

Lemma insert_middle {A} (l1 l2 : list A) x y : <[length l1 := y]> (l1 ++ x :: l2) = l1 ++ y :: l2.
Proof. by rewrite <-(Nat.add_0_r (length l1)), insert_app_r. Qed.

Section topk_props.
Context `{DfVal V} (t : TopK).
Implicit Types (r x y : list V) (rc : Record V) (rs : list (Record V)) (P S R T : list (list V)).
Implicit Types (cs : list (CurrentRecord V)).
Abbreviation o := (tk_order t).
Abbreviation k := (tk_k t).

(** [T] are the [k] greatest rows of [P] (all of them if there are fewer). *)
Definition is_topk T P : Prop :=
  ∃ R, P ≡ₚ T ++ R ∧ length T = k `min` length P ∧ ∀ x y, x ∈ T → y ∈ R → ole o y x.

Definition rows cs : list (list V) := cr_row <$> cs.
Definition old_rows cs : list (list V) := cr_row <$> filter (λ c, cr_is_new c = false) cs.
Definition new_rows cs : list (list V) := cr_row <$> filter (λ c, cr_is_new c = true) cs.

Lemma rows_old_new cs : rows cs ≡ₚ old_rows cs ++ new_rows cs.
Proof.
  unfold rows, old_rows, new_rows. induction cs as [|[r b] cs IH]; [done|]. rewrite !filter_cons.
  cbn [cr_is_new]. destruct b; repeat (case_decide; try done); csimpl; rewrite IH; [|done].
  apply Permutation_middle.
Qed.
Lemma old_rows_perm cs cs' : cs ≡ₚ cs' → old_rows cs ≡ₚ old_rows cs'.
Proof. intros Hp. unfold old_rows. by rewrite Hp. Qed.
Lemma new_rows_perm cs cs' : cs ≡ₚ cs' → new_rows cs ≡ₚ new_rows cs'.
Proof. intros Hp. unfold new_rows. by rewrite Hp. Qed.
Lemma old_rows_app cs cs' : old_rows (cs ++ cs') = old_rows cs ++ old_rows cs'.
Proof. unfold old_rows. by rewrite filter_app, fmap_app. Qed.
Lemma new_rows_app cs cs' : new_rows (cs ++ cs') = new_rows cs ++ new_rows cs'.
Proof. unfold new_rows. by rewrite filter_app, fmap_app. Qed.

Lemma remove_row_spec cs r :
  match remove_row cs r with
  | Some (c, cs') => cs ≡ₚ c :: cs' ∧ cr_row c = r
  | None => r ∉ rows cs
  end.
Proof.
  induction cs as [|c cs IH]; simpl; [apply not_elem_of_nil|].
  case_decide as Hc; [done|]. destruct (remove_row cs r) as [[c' cs']|].
  - destruct IH as [IH Hr]. split; [|done]. rewrite IH at 1. apply Permutation_swap.
  - apply not_elem_of_cons. split; [done|exact IH].
Qed.

Lemma heap_peek_spec cs :
  match heap_peek o cs with
  | Some m => m ∈ cs ∧ ∀ c, c ∈ cs → ole o (cr_row m) (cr_row c)
  | None => cs = []
  end.
Proof.
  destruct cs as [|c cs]; simpl; [done|]. revert c. induction cs as [|d cs IH]; intros c; simpl.
  - split; [apply elem_of_here|]. intros c' ->%list_elem_of_singleton. apply ole_refl.
  - set (m := if is_gt (order_cmp o (cr_row c) (cr_row d)) then d else c).
    assert ((m = c ∨ m = d) ∧ ole o (cr_row m) (cr_row c) ∧ ole o (cr_row m) (cr_row d)) as (Hm & Hc & Hd).
    { unfold m. destruct (order_cmp o (cr_row c) (cr_row d)) eqn:E; simpl; split_and!; auto;
        try apply ole_refl; try (unfold ole; congruence). by apply ole_flip. }
    destruct (IH m) as [Hin Hle]. split.
    + apply elem_of_cons in Hin as [Hin|Hin]; [|by apply elem_of_further, elem_of_further].
      rewrite Hin. destruct Hm as [->| ->]; [apply elem_of_here|apply elem_of_further, elem_of_here].
    + pose proof (Hle m (elem_of_here _ _)) as Hmm.
      intros c' [->|[->|Hc']%elem_of_cons]%elem_of_cons; [by eapply ole_trans|by eapply ole_trans|].
      apply Hle. by apply elem_of_further.
Qed.

(** The current rows of a group against the rows of the parent, mid-batch:
    [neg] retractions are still to come. *)
Record group_inv (S P : list (list V)) (orig neg : nat) cs (out : list (Record V)) : Prop := {
  gi_rest : ∃ R, P ≡ₚ rows cs ++ R ∧ (∀ x y, x ∈ rows cs → y ∈ R → ole o y x) ∧ (orig < k → R = []);
  gi_left : k ≤ orig → neg < length cs;
  gi_out : ∀ x, (occ x S + wt x out = occ x (old_rows cs))%Z;
}.

Lemma rows_elem cs c : c ∈ cs → cr_row c ∈ rows cs.
Proof. intros Hc. apply list_elem_of_fmap. by exists c. Qed.
Lemma rows_elem_inv cs x : x ∈ rows cs → ∃ c, c ∈ cs ∧ x = cr_row c.
Proof. intros (c & -> & Hc)%list_elem_of_fmap. eauto. Qed.

Definition fits_all (l : list (list V)) : Prop := ∀ x, x ∈ l → order_fits o x = true.
Lemma order_check_ok (l : list (list V)) : fits_all l → order_check o l = Ok tt.
Proof.
  intros Hf. unfold order_check. rewrite (proj2 (forallb_forall _ _)); [by rewrite orb_true_r|].
  intros x Hx. apply Hf. by apply list_elem_of_In.
Qed.

Definition is_neg rc : nat := if is_positive rc then 0 else 1.

(** The parts of the loop's state a record of the same group leaves alone. *)
Definition same_group (s s' : TopKState V) : Prop :=
  ts_key s' = ts_key s ∧ ts_original_len s' = ts_original_len s ∧ ts_missed s' = ts_missed s ∧
  ts_misses s' = ts_misses s ∧ ts_lookups s' = ts_lookups s.

Lemma push_inv S P orig neg cs out r :
  group_inv S P orig neg cs out → (k ≤ orig → ∃ m, m ∈ cs ∧ (∀ c, c ∈ cs → ole o (cr_row m) (cr_row c)) ∧ ole o (cr_row m) r) →
  group_inv S (r :: P) orig neg (cs ++ [{| cr_row := r; cr_is_new := true |}]) out.
Proof.
  intros [(R & HP & Hle & Hfull) Hleft Hout] Hm. split.
  - exists R. unfold rows. rewrite fmap_app. csimpl. split; [|split; [|done]].
    + rewrite HP. unfold rows. rewrite <-(assoc (++)). simpl. apply Permutation_middle.
    + intros x y [Hx| ->%list_elem_of_singleton]%elem_of_app Hy; [by apply Hle|].
      destruct (decide (orig < k)) as [Hlt|Hge]; [rewrite Hfull in Hy by done; by apply elem_of_nil in Hy|].
      destruct Hm as (m & Hin & _ & Hmr); [lia|]. eapply ole_trans; [|exact Hmr].
      apply Hle; [by apply rows_elem|done].
  - intros Hk. rewrite length_app. specialize (Hleft Hk). lia.
  - intros x. rewrite (Hout x), old_rows_app, occ_app. simpl. lia.
Qed.

Lemma topk_apply_inv S P P1 s rc neg :
  group_inv S P (ts_original_len s) (neg + is_neg rc) (ts_current s) (ts_out s) →
  match rc with Positive r => P1 = r :: P | Negative r => P ≡ₚ r :: P1 end →
  fits_all P → order_fits o (rec rc) = true →
  ∃ s', topk_apply t s rc = Ok s' ∧ same_group s s' ∧
    group_inv S P1 (ts_original_len s) neg (ts_current s') (ts_out s').
Proof.
  intros Hinv Hstep Hfit Hr. destruct rc as [r|r]; simpl in Hr; unfold is_neg in Hinv; simpl in Hinv.
  - subst P1. rewrite Nat.add_0_r in Hinv. unfold topk_apply.
    pose proof (heap_peek_spec (ts_current s)) as Hpeek.
    destruct Hinv as [Hrest Hleft Hout].
    destruct (Nat.leb_spec (k) (ts_original_len s)) as [Hk|Hk].
    + destruct (heap_peek o (ts_current s)) as [m|].
      2: { exfalso. specialize (Hleft Hk). rewrite Hpeek in Hleft. simpl in Hleft. lia. }
      destruct Hpeek as [Hm Hmin].
      rewrite order_check_ok; cbn [mbind result_bind].
      2: { destruct Hrest as (R & HP & _). intros x [->|[->|Hx]%elem_of_cons]%elem_of_cons;
             [|done|by apply elem_of_nil in Hx]. apply Hfit. rewrite HP. apply elem_of_app. left. by apply rows_elem. }
      destruct (order_cmp o (cr_row m) r) eqn:E; cbn [is_gt].
      1,2: eexists; split; [reflexivity|]; split; [done|]; simpl; rewrite app_nil_r; apply push_inv; [done|];
        intros _; exists m; split_and!; [done|done|unfold ole; congruence].
      eexists. split; [reflexivity|]. split; [done|]. split; [|done|done].
      destruct Hrest as (R & HP & Hle & Hfull). exists (r :: R). split_and!.
      * rewrite HP. apply Permutation_middle.
      * intros x y Hx [->|Hy]%elem_of_cons; [|by apply Hle]. apply rows_elem_inv in Hx as (c & Hc & ->).
        eapply ole_trans; [by apply ole_flip|by apply Hmin].
      * lia.
    + eexists. split; [reflexivity|]. split; [done|]. simpl. rewrite app_nil_r. apply push_inv; [done|lia].
  - unfold topk_apply. pose proof (remove_row_spec (ts_current s) r) as Hrem.
    destruct Hinv as [(R & HP & Hle & Hfull) Hleft Hout].
    destruct (remove_row (ts_current s) r) as [[c cs]|]; eexists; (split; [reflexivity|]); (split; [done|]).
    + destruct Hrem as [Hp Hc]. simpl. split.
      * exists R. split_and!; [|intros x y Hx; apply Hle|done].
        -- apply (Permutation_cons_inv (a := r)). rewrite <-Hstep, HP. unfold rows. rewrite Hp. csimpl. by rewrite Hc.
        -- unfold rows in *. rewrite Hp. csimpl. by apply elem_of_further.
      * intros Hk. specialize (Hleft Hk). rewrite Hp in Hleft. simpl in Hleft. lia.
      * intros x. rewrite wt_app. specialize (Hout x). rewrite (occ_perm _ _ _ (old_rows_perm _ _ Hp)) in Hout.
        unfold old_rows in *. rewrite filter_cons in Hout. destruct (cr_is_new c) eqn:Enew.
        -- rewrite decide_False in Hout by done. simpl. lia.
        -- rewrite decide_True in Hout by done. csimpl in Hout. rewrite Hc in Hout. simpl. unfold sgn. simpl.
           case_decide; lia.
    + split; [|intros Hk; specialize (Hleft Hk); lia|done].
      assert (r ∈ R) as HR.
      { assert (r ∈ rows (ts_current s) ++ R) as Hin by (rewrite <-HP, Hstep; apply elem_of_here).
        apply elem_of_app in Hin as [Hin|Hin]; done. }
      apply elem_of_Permutation in HR as [R' HR'].
      exists R'. split_and!.
      * apply (Permutation_cons_inv (a := r)). rewrite <-Hstep, HP, HR'. symmetry. apply Permutation_middle.
      * intros x y Hx Hy. apply Hle; [done|]. rewrite HR'. by apply elem_of_further.
      * intros Hk. rewrite Hfull in HR' by done. by apply Permutation_nil_l in HR'.
Qed.

(** *** The end of a group *)
Lemma swap_at_ok cs i j a b :
  j < i → cs !! i = Some a → cs !! j = Some b → cr_row a = cr_row b →
  swap_at cs i j ≡ₚ cs ∧ rows (swap_at cs i j) = rows cs.
Proof.
  intros Hji Hi Hj Hab. unfold swap_at. rewrite Hi, Hj. split.
  - apply list_elem_of_split_length in Hj as (l1 & l2 & -> & ->).
    rewrite lookup_app_r in Hi by lia. replace (i - length l1) with (S (i - length l1 - 1)) in Hi by lia. simpl in Hi.
    apply list_elem_of_split_length in Hi as (l3 & l4 & -> & Hlen).
    replace i with (length l1 + S (length l3)) by lia.
    rewrite insert_middle, insert_app_r. simpl. rewrite insert_middle.
    apply Permutation_app_head. rewrite <-!Permutation_middle. apply Permutation_swap.
  - unfold rows. rewrite !list_fmap_insert. rewrite !list_insert_id; [done|..].
    + rewrite list_lookup_fmap, Hj. simpl. by rewrite Hab.
    + rewrite list_insert_id; rewrite list_lookup_fmap, ?Hi, ?Hj; simpl; by rewrite Hab.
Qed.

Lemma swap_old_ok cs start i :
  no_ties o (rows cs) → start ≤ i →
  swap_old o start cs i ≡ₚ cs ∧ rows (swap_old o start cs i) = rows cs.
Proof.
  intros Hnt Hi. unfold swap_old. destruct (cs !! i) as [c|] eqn:Ei; [|done].
  destruct (cr_is_new c); [|done]. destruct (list_find _ _) as [[ri c']|] eqn:Ef; [|done].
  apply list_find_Some in Ef as (Hri & [_ Heq] & _).
  assert (ri < start) as Hlt by (apply lookup_lt_Some in Hri; rewrite length_take in Hri; lia).
  rewrite lookup_take_lt in Hri by done.
  apply (swap_at_ok _ _ _ c c'); [lia|done|done|].
  symmetry. apply Hnt; [by eapply rows_elem, list_elem_of_lookup_2|by eapply rows_elem, list_elem_of_lookup_2|done].
Qed.

Lemma swaps_ok cs start (ix : list nat) :
  no_ties o (rows cs) → (∀ i, i ∈ ix → start ≤ i) →
  foldl (swap_old o start) cs ix ≡ₚ cs ∧ rows (foldl (swap_old o start) cs ix) = rows cs.
Proof.
  revert cs. induction ix as [|i ix IH]; intros cs Hnt His; [done|]. simpl.
  destruct (swap_old_ok cs start i Hnt) as [Hp Hr]; [apply His, elem_of_here|].
  destruct (IH (swap_old o start cs i)) as [Hp' Hr'].
  - by rewrite Hr.
  - intros i' Hi'. apply His. by apply elem_of_further.
  - split; [by rewrite Hp', Hp|by rewrite Hr', Hr].
Qed.

Lemma heap_sorted_ok cs :
  heap_sorted o cs ≡ₚ cs ∧ StronglySorted (ole o) (rows (heap_sorted o cs)).
Proof.
  split; [apply sort_by_perm|].
  assert (StronglySorted (λ a b : CurrentRecord V, ole o (cr_row a) (cr_row b)) (heap_sorted o cs)) as Hs.
  { apply sort_by_sorted.
    - intros x y Hxy. by apply ole_flip in Hxy.
    - intros x y z. apply ole_trans. }
  unfold rows. induction Hs as [|c l Hs IH Hall]; csimpl; constructor; [done|]. by apply Forall_fmap.
Qed.

(** Cutting the sorted rows at [k] yields the top [k], and the emitted records
    are the difference to the old ones. *)
Lemma finish_group S P R cs out :
  P ≡ₚ rows cs ++ R → (∀ x y, x ∈ rows cs → y ∈ R → ole o y x) → (length cs < k → R = []) →
  no_ties o P → (∀ x, (occ x S + wt x out = occ x (old_rows cs))%Z) →
  let start := length cs - k in
  let sorted := heap_sorted o cs in
  let fs := foldl (swap_old o start) sorted (seq start (length sorted - start)) in
  is_topk (rows (drop start fs)) P ∧
  ∀ x, (occ x S + wt x (out ++ (Positive ∘ cr_row <$> filter (λ c, cr_is_new c = true) (drop start fs)) ++
    (Negative ∘ cr_row <$> filter (λ c, cr_is_new c = false) (take start fs))) = occ x (rows (drop start fs)))%Z.
Proof.
  intros HP Hle Hfull Hnt Hout start sorted fs.
  destruct (heap_sorted_ok cs) as [Hsp Hss]. fold sorted in Hsp, Hss.
  assert (no_ties o (rows sorted)) as Hnts.
  { intros a b Ha Hb. apply Hnt; rewrite HP; apply elem_of_app; left; unfold rows in *; by rewrite <-Hsp. }
  destruct (swaps_ok sorted start (seq start (length sorted - start)) Hnts) as [Hfp Hfr].
  { intros i Hi. apply list_elem_of_In, in_seq in Hi. lia. }
  fold fs in Hfp, Hfr. rewrite Hsp in Hfp.
  assert (rows cs ≡ₚ rows (drop start fs) ++ rows (take start fs)) as Hsplit.
  { unfold rows. rewrite <-Hfp. rewrite <-(take_drop start fs) at 1. rewrite fmap_app. apply Permutation_app_comm. }
  split.
  - exists (rows (take start fs) ++ R). split_and!.
    + by rewrite HP, Hsplit, (assoc (++)).
    + unfold rows. rewrite length_fmap, length_drop, (Permutation_length Hfp), (Permutation_length HP).
      rewrite length_app. unfold rows. rewrite length_fmap. unfold start.
      destruct (decide (length cs < k)) as [Hlt|]; [rewrite (Hfull Hlt); simpl|]; lia.
    + intros x y Hx Hy. apply elem_of_app in Hy as [Hy|Hy].
      * apply (topk_sorted_split (ole o) (rows fs) start); [by rewrite Hfr| |];
          unfold rows in *; rewrite <-?fmap_take, <-?fmap_drop; done.
      * apply Hle; [|done]. rewrite Hsplit. apply elem_of_app. by left.
  - intros x. rewrite !wt_app, Z.add_assoc, (Hout x), !list_fmap_compose, wt_positive, wt_negative.
    change (cr_row <$> filter (λ c, cr_is_new c = true) (drop start fs)) with (new_rows (drop start fs)).
    change (cr_row <$> filter (λ c, cr_is_new c = false) (take start fs)) with (old_rows (take start fs)).
    rewrite (occ_perm _ _ _ (rows_old_new (drop start fs))), occ_app.
    rewrite <-(occ_perm _ _ _ (old_rows_perm _ _ Hfp)). rewrite <-(take_drop start fs) at 1.
    rewrite old_rows_app, occ_app. lia.
Qed.

(** Sorting the parent's rows in descending order lists the current rows first. *)
Lemma sort_desc_split (C R l : list (list V)) :
  l ≡ₚ C ++ R → (∀ x y, x ∈ C → y ∈ R → ole o y x) → no_ties o l →
  sort_by (λ a b, order_cmp o b a) l =
  sort_by (λ a b, order_cmp o b a) C ++ sort_by (λ a b, order_cmp o b a) R.
Proof.
  intros Hl Hle Hnt. assert (∀ m : list (list V), StronglySorted (λ a b, ole o b a) (sort_by (λ a b, order_cmp o b a) m)) as Hs.
  { intros m. apply sort_by_sorted.
    - intros x y Hxy. by apply ole_flip in Hxy.
    - intros x y z Hxy Hyz. by apply (ole_trans o z y x). }
  apply (sorted_unique (λ a b, ole o b a)).
  - intros a b Ha Hb Hab Hba. rewrite sort_by_perm in Ha, Hb. apply Hnt; [done|done|by apply ole_antisym].
  - apply Hs.
  - apply StronglySorted_app_2; [apply Hs|apply Hs|]. intros a b Ha Hb. rewrite sort_by_perm in Ha, Hb. by apply Hle.
  - by rewrite !sort_by_perm.
Qed.

Context (own_lookup : list V → result (option (list (list V)))).
Context (parent_lookup : list V → result (option (list (list V)))).

Lemma post_group_ok S P orig cs out key prows :
  group_inv S P orig 0 cs out → no_ties o P → fits_all P → orig ≤ k → key ≠ [] →
  parent_lookup key = Ok (Some prows) → prows ≡ₚ P →
  ∃ out2 l T, post_group parent_lookup t cs key orig = Ok (out2, l) ∧ is_topk T P ∧
    ∀ x, (occ x S + wt x (out ++ out2) = occ x T)%Z.
Proof.
  intros [(R & HP & Hle & Hfull) Hleft Hout] Hnt Hfit Hok Hkey Hpar Hprows. unfold post_group.
  assert (∀ cs' R', P ≡ₚ rows cs' ++ R' → order_check o (cr_row <$> cs') = Ok tt) as Hcheck.
  { intros cs' R' HP'. apply order_check_ok. intros x Hx. apply Hfit. rewrite HP'. apply elem_of_app. by left. }
  destruct (Nat.eqb_spec orig (k)) as [Hk|Hk]; cbn [andb].
  1: destruct (Nat.ltb_spec (length cs) orig) as [Hlt|Hge].
  - rewrite Hpar. cbn [mbind result_bind]. rewrite order_check_ok by (intros x Hx; apply Hfit; by rewrite <-Hprows).
    cbn [mbind result_bind]. destruct key as [|v key]; [done|].
    set (sdR := sort_by (λ a b, order_cmp o b a) R).
    assert (backfill t cs prows (orig - length cs) =
      (λ row, {| cr_row := row; cr_is_new := true |}) <$> take (orig - length cs) sdR) as ->.
    { unfold backfill. f_equal. f_equal. rewrite (sort_desc_split (rows cs) R prows).
      - rewrite drop_app_length'; [done|]. rewrite (Permutation_length (sort_by_perm _ _)). unfold rows. by rewrite length_fmap.
      - by rewrite Hprows.
      - done.
      - intros a b Ha Hb. apply Hnt; by rewrite <-Hprows. }
    set (bf := (λ row, {| cr_row := row; cr_is_new := true |}) <$> take (orig - length cs) sdR).
    assert (rows bf = take (orig - length cs) sdR) as Hbf.
    { unfold rows, bf. rewrite <-list_fmap_compose. apply list_fmap_id. }
    assert (old_rows bf = []) as Hbold.
    { unfold old_rows, bf. rewrite filter_none; [done|]. by apply Forall_fmap, Forall_true. }
    set (R' := drop (orig - length cs) sdR).
    assert (R ≡ₚ rows bf ++ R') as HR.
    { rewrite Hbf. unfold R'. rewrite take_drop. unfold sdR. by rewrite sort_by_perm. }
    assert (P ≡ₚ rows (cs ++ bf) ++ R') as HP'.
    { rewrite HP, HR. unfold rows. rewrite fmap_app. by rewrite (assoc (++)). }
    cbn [mbind result_bind]. rewrite (Hcheck _ R' HP'). cbn [mbind result_bind].
    assert (length cs - k = length (cs ++ bf) - k) as ->.
    { rewrite length_app. unfold bf. rewrite length_fmap, length_take. lia. }
    eexists _, _, _. split; [reflexivity|].
    apply (finish_group S P R' (cs ++ bf) out); [done| | |done|].
    + intros x y Hx Hy. unfold rows in Hx. rewrite fmap_app in Hx. apply elem_of_app in Hx as [Hx|Hx].
      * apply Hle; [done|]. rewrite HR. apply elem_of_app. by right.
      * change (cr_row <$> bf) with (rows bf) in Hx. rewrite Hbf in Hx.
        apply (topk_sorted_split (λ a b, ole o b a) sdR (orig - length cs)); [|done|done].
        apply sort_by_sorted; [intros a b Hab; by apply ole_flip in Hab|].
        intros a b c Hab Hbc. by apply (ole_trans o c b a).
    + intros Hlen. rewrite length_app in Hlen. unfold bf in Hlen. rewrite length_fmap, length_take in Hlen.
      unfold R'. apply drop_ge. lia.
    + intros x. by rewrite (Hout x), old_rows_app, Hbold, app_nil_r.
  - cbn [mbind result_bind]. rewrite (Hcheck _ R HP). cbn [mbind result_bind].
    eexists _, _, _. split; [reflexivity|]. apply (finish_group S P R cs out); [done|done|lia|done|done].
  - cbn [mbind result_bind]. rewrite (Hcheck _ R HP). cbn [mbind result_bind].
    eexists _, _, _. split; [reflexivity|]. apply (finish_group S P R cs out); [done|done| |done|done].
    intros _. apply Hfull. lia.
Qed.

(** *** A batch of one group *)
Definition negatives rs : nat := sum_list (is_neg <$> rs).

Lemma project_group_ok g r : Forall (λ c, c < length r) (tk_group_by t) → cols_at (tk_group_by t) r = g →
  project_group t r = Ok g.
Proof. intros Hf <-. unfold project_group. by rewrite row_cols_at. Qed.

Definition of_group g rs : Prop :=
  Forall (λ rc, Forall (λ c, c < length (rec rc)) (tk_group_by t) ∧ cols_at (tk_group_by t) (rec rc) = g) rs.

Lemma topk_run g S rs P P' s :
  of_group g rs → ts_key s = g → ts_missed s = false →
  group_inv S P (ts_original_len s) (negatives rs) (ts_current s) (ts_out s) →
  batch_ok P rs P' → fits_all P → fits_all (rec <$> rs) →
  ∃ s', result_foldl (topk_record own_lookup parent_lookup t RcNone) s rs = Ok s' ∧ same_group s s' ∧
    group_inv S P' (ts_original_len s) 0 (ts_current s') (ts_out s').
Proof.
  revert P s. induction rs as [|rc rs IH]; intros P s Hg Hkey Hm Hinv Hb Hfit Hfits.
  - exists s. split; [done|]. split; [done|]. apply batch_ok_nil in Hb.
    destruct Hinv as [(R & HP & Hrest) ? ?]. split; [|done|done]. exists R. by rewrite <-Hb.
  - apply Forall_cons in Hg as [[Hf Hk] Hg]. apply batch_ok_cons in Hb.
    assert (∃ P1, match rc with Positive r => P1 = r :: P | Negative r => P ≡ₚ r :: P1 end ∧ batch_ok P1 rs P')
      as (P1 & Hstep & Hb1).
    { destruct rc as [r|r]; [by exists (r :: P)|]. destruct Hb as (P1 & ? & ?). by exists P1. }
    destruct (topk_apply_inv S P P1 s rc (negatives rs)) as (s1 & Hs1 & Hsame & Hinv1); try done.
    { unfold negatives in Hinv. simpl in Hinv. by rewrite Nat.add_comm. }
    { apply Hfits. csimpl. apply elem_of_here. }
    assert (topk_record own_lookup parent_lookup t RcNone s rc = Ok s1) as Hrec.
    { unfold topk_record. rewrite (project_group_ok g) by done. cbn [mbind result_bind].
      rewrite decide_True by done. cbn [mbind result_bind]. by rewrite Hm. }
    destruct Hsame as (Hk1 & Ho1 & Hm1 & Hmi1 & Hl1).
    destruct (IH P1 s1) as (s' & Hs' & Hsame' & Hinv'); try done.
    + by rewrite Hk1.
    + by rewrite Hm1.
    + by rewrite Ho1.
    + intros x Hx. destruct rc as [r|r]; [subst P1; apply elem_of_cons in Hx as [->|Hx]; [|by apply Hfit]|].
      * apply Hfits. csimpl. apply elem_of_here.
      * apply Hfit. rewrite Hstep. by apply elem_of_further.
    + intros x Hx. apply Hfits. csimpl. by apply elem_of_further.
    + exists s'. cbn [result_foldl]. rewrite Hrec. cbn [mbind result_bind]. split; [done|].
      destruct Hsame' as (? & ? & ? & ? & ?). split; [by split_and!; etrans|]. by rewrite <-Ho1.
Qed.

Lemma start_inv S P neg :
  is_topk S P → neg < k →
  group_inv S P (length S) neg ((λ row, {| cr_row := row; cr_is_new := false |}) <$> S) [].
Proof.
  intros (R & HP & Hlen & Hle) Hneg.
  assert (rows ((λ row, {| cr_row := row; cr_is_new := false |}) <$> S) = S) as Hrows.
  { unfold rows. rewrite <-list_fmap_compose. apply list_fmap_id. }
  split.
  - exists R. rewrite Hrows. split_and!; [done|done|]. intros Hlt. pose proof (Permutation_length HP) as Hl.
    rewrite length_app in Hl. destruct R; [done|]. simpl in Hl. lia.
  - intros Hk. rewrite length_fmap. lia.
  - intros x. unfold old_rows. rewrite filter_all by (by apply Forall_fmap, Forall_true).
    fold (rows ((λ row, {| cr_row := row; cr_is_new := false |}) <$> S)). rewrite Hrows. simpl. lia.
Qed.

Lemma sort_one_group g rs :
  of_group g rs → sort_by (λ a b, cmp (topk_sort_key t a) (topk_sort_key t b)) rs = rs.
Proof.
  intros Hg. assert (Forall (λ rc, topk_sort_key t rc = g) rs) as Hk.
  { eapply Forall_impl; [exact Hg|]. intros rc [Hf Hc]. unfold topk_sort_key. by rewrite (project_group_ok g). }
  rewrite <-(filter_all (λ rc, topk_sort_key t rc = g) rs) at 2 by done.
  rewrite <-(sort_by_stable (λ a b, cmp (topk_sort_key t a) (topk_sort_key t b))).
  - symmetry. apply filter_all. by rewrite sort_by_perm.
  - intros x y -> ->. ord_lia.
Qed.

(** C28: A batch of one group, in an order without ties among the group's new
    rows, with fewer than [k] retractions, takes the top [k] rows of the group to
    the top [k] of its new rows, filling up from the parent if rows are missing;
    the emitted records retract only rows of the state. *)
Theorem topk_group_maintains g rs P P' S prows :
  g ≠ [] → rs ≠ [] → of_group g rs → negatives rs < k →
  is_topk S P → batch_ok P rs P' → fits_all P → fits_all (rec <$> rs) → no_ties o P' →
  own_lookup g = Ok (Some S) → parent_lookup g = Ok (Some prows) → prows ≡ₚ P' →
  ∃ out T, topk_on_input own_lookup parent_lookup t RcNone rs = Ok out ∧ pr_misses out = [] ∧
    is_topk T P' ∧ applies S (pr_results out) T.
Proof.
  intros Hne Hrs Hg Hneg HS Hb Hfit Hfits Hnt Hown Hpar Hprows.
  set (s0 := {| ts_out := []; ts_key := g; ts_original_len := length S; ts_missed := false;
    ts_current := (λ row, {| cr_row := row; cr_is_new := false |}) <$> S; ts_misses := []; ts_lookups := [] |} : TopKState V).
  destruct (topk_run g S rs P P' s0) as (s & Hrun & (Hkey & Ho & Hm & Hmi & Hl) & Hinv); try done.
  { by apply start_inv. }
  assert (fits_all P') as Hfit'.
  { intros x Hx. destruct Hb as [_ Ha]. specialize (Ha x). apply occ_pos in Hx.
    destruct (decide (x ∈ P)) as [|Hni]; [by apply Hfit|]. apply occ_zero in Hni.
    destruct (decide (x ∈ rec <$> rs)) as [|Hni2]; [by apply Hfits|].
    rewrite (wt_not_in x rs) in Ha; [lia|]. intros rc Hrc Heq. apply Hni2. apply list_elem_of_fmap. eauto. }
  destruct (post_group_ok S P' (length S) (ts_current s) (ts_out s) g prows) as (out2 & l & T & Hpost & HT & Hw); try done.
  { destruct HS as (R & _ & Hlen & _). lia. }
  exists {| pr_results := ts_out s ++ out2; pr_lookups := []; pr_misses := [] |}, T. split_and!; [|done|done|].
  - unfold topk_on_input. destruct rs as [|rc rs]; [done|]. rewrite (sort_one_group g) by done.
    assert (result_foldl (topk_record own_lookup parent_lookup t RcNone) topk_state_init (rc :: rs) =
      result_foldl (topk_record own_lookup parent_lookup t RcNone) s0 (rc :: rs)) as ->.
    { cbn [result_foldl]. f_equal. unfold topk_record. apply Forall_cons in Hg as [[Hf Hk] _].
      rewrite (project_group_ok g) by done. cbn [mbind result_bind].
      rewrite (decide_False (P := ts_key topk_state_init = g)) by done. rewrite (decide_True (P := ts_key s0 = g)) by done.
      unfold begin_group. cbn [end_group ts_key topk_state_init mbind result_bind ts_current]. by rewrite Hown. }
    rewrite Hrun. cbn [mbind result_bind]. unfold end_group. rewrite Hkey, Ho.
    destruct g as [|v g]; [done|]. cbn [ts_key s0 ts_original_len]. rewrite Hpost. simpl.
    by rewrite Hmi, Hl.
  - intros x. simpl. rewrite <-(Hw x). lia.
Qed.
End topk_props.

(** *** Instances *)

(** The top [k] by column 1, grouped by column 0. *)
Definition sample_topk (n : nat) : TopK :=
  {| tk_src := 0; tk_us := 1; tk_group_by := [0]; tk_order := [(1, OrderAscending)]; tk_k := n |}.
Definition sample_row (v : Z) : list SampleVal := [SInt 1; SInt v].

Lemma topk_group_maintains_witness :
  ∃ out T, topk_on_input (λ _, Ok (Some [sample_row 7; sample_row 5]))
      (λ _, Ok (Some [sample_row 3; sample_row 4; sample_row 5])) (sample_topk 2) RcNone
      [Positive (sample_row 4); Negative (sample_row 7)] = Ok out ∧ pr_misses out = [] ∧
    is_topk (sample_topk 2) T [sample_row 5; sample_row 4; sample_row 3] ∧
    applies [sample_row 7; sample_row 5] (pr_results out) T.
Proof.
  apply (topk_group_maintains (sample_topk 2) _ _ [SInt 1] _ [sample_row 7; sample_row 5; sample_row 3] _ _
    [sample_row 3; sample_row 4; sample_row 5]).
  - done.
  - done.
  - repeat constructor.
  - vm_compute. lia.
  - exists [sample_row 3]. split_and!; [done|done|].
    intros x y Hx ->%list_elem_of_singleton. apply elem_of_cons in Hx as [->|Hx]; [done|].
    by apply list_elem_of_singleton in Hx as ->.
  - split.
    + intros r n. destruct n as [|[|[|n]]]; simpl; unfold sgn; simpl; repeat case_decide; subst; done || lia.
    + intros r. simpl. unfold sgn. simpl. repeat case_decide; subst; done || lia.
  - intros x Hx. repeat (apply elem_of_cons in Hx as [->|Hx]; [done|]). by apply elem_of_nil in Hx.
  - intros x Hx. csimpl in Hx. repeat (apply elem_of_cons in Hx as [->|Hx]; [done|]). by apply elem_of_nil in Hx.
  - intros a b Ha Hb. repeat (apply elem_of_cons in Ha as [->|Ha]); try (by apply elem_of_nil in Ha);
      repeat (apply elem_of_cons in Hb as [->|Hb]); try (by apply elem_of_nil in Hb); by vm_compute.
  - reflexivity.
  - reflexivity.
  - apply (bool_decide_unpack _). vm_compute. done.
Defined.

(** A batch that retracts all the rows of a full group before it adds one
    fills the group with the added row, though the parent has greater ones: with
    [k = 1], updating the top row from 10 to 3 leaves 3 as the top row of a group
    that also has 5. *)
Theorem topk_update_of_top :
  let rs := [Negative (sample_row 10); Positive (sample_row 3)] in
  let P := [sample_row 10; sample_row 5] in
  let P' := [sample_row 5; sample_row 3] in
  batch_ok P rs P' ∧ is_topk (sample_topk 1) [sample_row 10] P ∧
  ∃ out, topk_on_input (λ _, Ok (Some [sample_row 10])) (λ _, Ok (Some P')) (sample_topk 1) RcNone rs = Ok out ∧
    pr_results out = [Negative (sample_row 10); Positive (sample_row 3)] ∧
    applies [sample_row 10] (pr_results out) [sample_row 3] ∧ ¬ is_topk (sample_topk 1) [sample_row 3] P'.
Proof.
  cbv zeta. split_and!.
  - split.
    + intros r n. destruct n as [|[|[|n]]]; simpl; unfold sgn; simpl; repeat case_decide; subst; done || lia.
    + intros r. simpl. unfold sgn. simpl. repeat case_decide; subst; done || lia.
  - exists [sample_row 5]. split_and!; [done|done|].
    by intros x y ->%list_elem_of_singleton ->%list_elem_of_singleton.
  - eexists. split; [vm_compute; reflexivity|]. split; [reflexivity|]. split.
    + intros r. simpl. unfold sgn. simpl. repeat case_decide; subst; done || lia.
    + intros (R & HP & _ & Hle).
      assert (sample_row 5 ∈ [sample_row 3] ++ R) as Hin by (rewrite <-HP; apply elem_of_here).
      apply elem_of_app in Hin as [Hin%list_elem_of_singleton|Hin]; [done|].
      by specialize (Hle (sample_row 3) (sample_row 5) (elem_of_here _ _) Hin).
Qed.

(** Rows that tie: the group is filled up by skipping as many of the parent's
    sorted rows as the group has, which need not be the same rows; here the row
    that stayed is added a second time, and the other one is not. *)
Theorem topk_ties_add_twice :
  let a := [SInt 1; SInt 5; SInt 1] in let b := [SInt 1; SInt 5; SInt 2] in let c := [SInt 1; SInt 5; SInt 3] in
  ∃ out, topk_on_input (λ _, Ok (Some [a; b])) (λ _, Ok (Some [c; b])) (sample_topk 2) RcNone [Negative a] = Ok out ∧
    pr_results out = [Negative a; Positive b].
Proof. cbv zeta. eexists. split; vm_compute; reflexivity. Qed.

(** A missed group inherits the length of the group before it: if that one was
    full, the missed group is filled up from the parent, and a miss there is an
    internal error, although the same record alone is an ordinary miss. *)
Theorem topk_missed_group_length :
  let own g := Ok (if decide (g = [SInt 1]) then Some [sample_row 10] else None) in
  let parent (g : list SampleVal) := Ok (if decide (g = [SInt 1]) then Some [sample_row 10] else None) in
  topk_on_input own parent (sample_topk 1) RcNone [Positive (sample_row 3); Positive [SInt 2; SInt 7]] = Err Internal ∧
  ∃ out, topk_on_input own parent (sample_topk 1) RcNone [Positive [SInt 2; SInt 7]] = Ok out ∧
    pr_results out = [] ∧ length (pr_misses out) = 1.
Proof.
  cbv zeta. split; [vm_compute; reflexivity|]. eexists. split; [vm_compute; reflexivity|]. by split.
Qed.
