(* ===== verification/OpJoin.v ===== *)
(** * OpJoin: the join operator

    Models [readyset-dataflow/src/ops/join.rs]: inner and left joins, their
    construction, [on_input] with its lookups and misses, the buffering of
    replays for keys that straddle both parents, [handle_upquery] and
    [column_source].  The theorems of [OpJoinProps] relate [on_input] to the
    join of the parents' contents. *)
From S2P Require Import Prelude Intervals BTreeMap Result Records Keys Processing Batches OpUnion.
From stdpp Require Import gmap.

Inductive JoinType := JoinLeft | JoinInner.
#[export] Instance JoinType_eq_dec : EqDecision JoinType.
Proof. solve_decision. Defined.

(** [JoinSource]: a column of the left, of the right, or a join column. *)
Inductive JoinSource := JsL (c : nat) | JsR (c : nat) | JsB (lc rc : nat).

Section join.
Context `{DfVal V}.
Implicit Types (r : list V) (rc : Record V) (rs : list (Record V)).

Record Join := {
  jn_left : nat;
  jn_right : nat;
  jn_on : list (nat * nat);
  jn_emit : list (Side * nat);
  jn_in_place_left : list (Side * nat);
  jn_in_place_right : list (Side * nat);
  jn_buffer : list ((list nat * Side) * list (Record V));
  jn_kind : JoinType;
}.

Definition join_emit (emit : list JoinSource) : list (Side * nat) :=
  (λ s, match s with JsL c => (SideLeft, c) | JsR c => (SideRight, c) | JsB lc _ => (SideLeft, lc) end) <$> emit.
Definition join_columns (emit : list JoinSource) : list (nat * nat) :=
  omap (λ s, match s with JsB lc rc => Some (lc, rc) | _ => None end) emit.

(** [remap.iter().position(|&c| c == i)]. *)
Fixpoint position (i : nat) (l : list nat) : option nat :=
  match l with
  | [] => None
  | c :: l' => if c =? i then Some 0 else S <$> position i l'
  end.

(** [compute_in_place_emit]: where each emitted column of [side] sits when the
    row is permuted in place, [remap] tracking the moves. *)
Fixpoint in_place_emit (side : Side) (i : nat) (remap : list nat) (emit : list (Side * nat)) :
    result (list (Side * nat)) :=
  match emit with
  | [] => Ok []
  | (from_side, c) :: emit' =>
      if decide (from_side = side) then
        remapped ← expect (remap !! c);
        let remap1 := <[c := i]> remap in
        let remap2 := match position i remap with Some other => <[other := remapped]> remap1 | None => remap1 end in
        rest ← in_place_emit side (S i) remap2 emit';
        Ok ((from_side, remapped) :: rest)
      else
        rest ← in_place_emit side (S i) remap emit';
        Ok ((from_side, c) :: rest)
  end.
Definition compute_in_place_emit (side : Side) (emit : list (Side * nat)) : result (list (Side * nat)) :=
  let num_columns :=
    foldr max 0 ((λ sc : Side * nat, S sc.2) <$> filter (λ sc, sc.1 = side) emit) in
  in_place_emit side 0 (seq 0 num_columns) emit.

Definition join_new (left right : nat) (kind : JoinType) (sources : list JoinSource) : result Join :=
  let emit := join_emit sources in
  ipl ← compute_in_place_emit SideLeft emit;
  ipr ← compute_in_place_emit SideRight emit;
  Ok {| jn_left := left; jn_right := right; jn_on := join_columns sources; jn_emit := emit;
        jn_in_place_left := ipl; jn_in_place_right := ipr; jn_buffer := []; jn_kind := kind |}.

Definition on_left (j : Join) : list nat := (jn_on j).*1.
Definition on_right (j : Join) : list nat := (jn_on j).*2.

Definition generate_row (j : Join) (left right : list V) : result (list V) :=
  result_mapM (λ sc : Side * nat,
    expect (match sc.1 with SideLeft => left !! sc.2 | SideRight => right !! sc.2 end)) (jn_emit j).

Definition generate_null (j : Join) (left : list V) : result (list V) :=
  result_mapM (λ sc : Side * nat,
    match sc.1 with SideLeft => expect (left !! sc.2) | SideRight => Ok dfv_none end) (jn_emit j).

(** [rec.indices(cols)], [None] when a column is out of range. *)
Definition indices (cols : list nat) r : option (list V) :=
  match row_cols cols r with Ok k => Some k | _ => None end.

(** [handle_replay_for_generated]: joins the two halves of a replay. *)
Definition handle_replay_for_generated (j : Join) (left right : list (Record V)) :
    result (list (Record V)) :=
  rows ← result_mapM (λ rc,
    if is_positive rc then
      result_mapM (λ other, row ← generate_row j (rec rc) (rec other); Ok (Positive row))
        (filter (λ other, indices (on_left j) (rec rc) = indices (on_right j) (rec other)) right)
    else Err Internal) left;
  Ok (concat rows).

(** [resolve_col]: the columns of the left and right parent an output column
    comes from. *)
Definition resolve_col (j : Join) (col : nat) : result (option nat * option nat) :=
  '(side, pcol) ← expect (jn_emit j !! col);
  let from_on :=
    match side with
    | SideLeft => snd <$> list_find (λ lr : nat * nat, lr.1 = pcol) (jn_on j)
    | SideRight => snd <$> list_find (λ lr : nat * nat, lr.2 = pcol) (jn_on j)
    end in
  Ok match from_on with
     | Some (on_l, on_r) => (Some on_l, Some on_r)
     | None => match side with SideLeft => (Some pcol, None) | SideRight => (None, Some pcol) end
     end.

(** *** [on_input] *)

(** A replay key column in the parent the records come from; [None] when the
    column exists only in the other parent. *)
Definition replay_key_col (j : Join) (from_left : bool) (col : nat) : result (option nat) :=
  '(side, c) ← expect (jn_emit j !! col);
  Ok match side, from_left with
     | SideLeft, true | SideRight, false => Some c
     | SideLeft, false => (λ p : nat * (nat * nat), p.2.2) <$> list_find (λ lr : nat * nat, lr.1 = c) (jn_on j)
     | SideRight, true => (λ p : nat * (nat * nat), p.2.1) <$> list_find (λ lr : nat * nat, lr.2 = c) (jn_on j)
     end.

(** The replay key columns; [inl] is the [Ok] of the source, [inr] the
    "columns generated" case. *)
Definition replay_key_cols (j : Join) (from_left : bool) (key : option (list nat)) :
    result (option (list nat) + unit) :=
  match key with
  | None => Ok (inl None)
  | Some cols =>
      mapped ← result_mapM (replay_key_col j from_left) cols;
      Ok match mapM (M := option) id mapped with
         | Some cs => inl (Some cs)
         | None => inr tt
         end
  end.

(** Lookups of a join into one of its parents: [Ok None] is a miss. *)
Definition LookupFn : Type := Side → list nat → list V → LookupMode → result (option (list (list V))).

Definition has_null (k : list V) : bool := existsb (λ v, bool_decide (v = dfv_none)) k.

(** [KeyComparison] of a join key; an empty one is an internal error. *)
Definition join_key_comparison (k : list V) : result (KeyComparison V) :=
  match k with [] => Err Internal | _ => Ok (KEqual k) end.

Definition rc_diff (group : list (Record V)) : Z := foldr (λ rc d, sgn rc + d)%Z 0%Z group.

(** The rows a group produces from the matching rows of the other parent. *)
Definition join_rows (j : Join) (from_left : bool) (other_rows : list (list V))
    (group : list (Record V)) : result (list (Record V)) :=
  rows ← result_mapM (λ rc,
    match other_rows with
    | [] =>
        if bool_decide (jn_kind j = JoinLeft) && from_left
        then row ← generate_null j (rec rc); Ok [with_row rc row] else Ok []
    | _ =>
        result_mapM (λ other,
          row ← (if from_left then generate_row j (rec rc) other else generate_row j other (rec rc));
          Ok (with_row rc row)) other_rows
    end) group;
  Ok (concat rows).

(** NULL rows to emit or retract when the number of right rows with a key goes
    to or from zero. *)
Definition null_adjust (j : Join) (new_rc : nat) (old_rc : Z) (other_rows : list (list V)) :
    result (list (Record V)) :=
  if (new_rc =? 0) && negb (old_rc =? 0)%Z
  then result_mapM (λ other, row ← generate_null j other; Ok (Positive row)) other_rows
  else if negb (new_rc =? 0) && (old_rc =? 0)%Z
  then result_mapM (λ other, row ← generate_null j other; Ok (Negative row)) other_rows
  else Ok [].

(** One group of [on_input]. *)
Definition join_group (j : Join) (from_left : bool) (lookup : LookupFn) (replay : ReplayContext V)
    (key_cols : option (list nat)) (group : list V * list (Record V)) : result (ProcessingResult V) :=
  let '(join_key, recs) := group in
  let is_replay := match key_cols with Some _ => true | None => false end in
  let mode := if is_replay then LmStrict else LmWeak in
  let nulls := has_null join_key in
  let from_key := if from_left then on_left j else on_right j in
  let other_key := if from_left then on_right j else on_left j in
  let other := if from_left then SideRight else SideLeft in
  let other_node := if from_left then jn_right j else jn_left j in
  let counts := bool_decide (jn_kind j = JoinLeft) && negb from_left in
  right_rows ← (if counts then lookup SideRight (on_right j) join_key mode else Ok (Some []));
  match right_rows with
  | None => Ok pr_empty
  | Some right_rows =>
      lookups1 ← (if counts && is_replay && negb nulls
                  then k ← join_key_comparison join_key;
                       Ok [{| lookup_on := jn_right j; lookup_cols := on_right j; lookup_key := k |}]
                  else Ok []);
      other_rows ← (if nulls then Ok (Some []) else lookup other other_key join_key mode);
      match other_rows with
      | None =>
          misses ← result_mapM (λ rc, build_miss other_node other_key (MlkRecordColumns from_key)
                     replay key_cols (rec rc)) recs;
          Ok {| pr_results := []; pr_lookups := lookups1; pr_misses := misses |}
      | Some other_rows =>
          lookups2 ← (if is_replay && negb nulls
                      then k ← join_key_comparison join_key;
                           Ok [{| lookup_on := other_node; lookup_cols := other_key; lookup_key := k |}]
                      else Ok []);
          rows ← join_rows j from_left other_rows recs;
          nulls_out ← (if counts
                       then null_adjust j (length right_rows)
                              (Z.of_nat (length right_rows) - rc_diff recs) other_rows
                       else Ok []);
          Ok {| pr_results := rows ++ nulls_out; pr_lookups := lookups1 ++ lookups2; pr_misses := [] |}
      end
  end.

(** [generated_column_buffer]: a [HashMap]. *)
Definition buffer_key_eq (a b : list nat * Side) : bool := bool_decide (a = b).
Fixpoint buffer_get (m : list ((list nat * Side) * list (Record V))) (k : list nat * Side) :
    option (list (Record V)) :=
  match m with
  | [] => None
  | (k', rs) :: m' => if buffer_key_eq k' k then Some rs else buffer_get m' k
  end.
Definition buffer_remove (m : list ((list nat * Side) * list (Record V))) (k : list nat * Side) :=
  filter (λ kv, buffer_key_eq kv.1 k = false) m.
Definition set_buffer (j : Join) b : Join :=
  {| jn_left := jn_left j; jn_right := jn_right j; jn_on := jn_on j; jn_emit := jn_emit j;
     jn_in_place_left := jn_in_place_left j; jn_in_place_right := jn_in_place_right j;
     jn_buffer := b; jn_kind := jn_kind j |}.

(** A replay whose key straddles both parents: the first half is stored, the
    second is joined with it. *)
Definition join_generated (j : Join) (from_left : bool) (key : list nat) rs :
    result (list (Record V) * Join) :=
  match buffer_get (jn_buffer j) (key, if from_left then SideRight else SideLeft) with
  | Some other =>
      ret ← (if from_left then handle_replay_for_generated j rs other
             else handle_replay_for_generated j other rs);
      Ok (ret, set_buffer j (buffer_remove (jn_buffer j) (key, if from_left then SideRight else SideLeft)))
  | None =>
      let k := (key, if from_left then SideLeft else SideRight) in
      Ok ([], set_buffer j ((k, rs) :: buffer_remove (jn_buffer j) k))
  end.

Definition join_on_input (j : Join) (from : nat) rs (replay : ReplayContext V) (lookup : LookupFn) :
    result (ProcessingResult V * Join) :=
  let from_left := from =? jn_left j in
  let from_key := if from_left then on_left j else on_right j in
  cols ← replay_key_cols j from_left (rc_key replay);
  match cols with
  | inr _ =>
      key ← expect (rc_key replay);
      '(ret, j') ← join_generated j from_left key rs;
      Ok ({| pr_results := ret; pr_lookups := []; pr_misses := [] |}, j')
  | inl key_cols =>
      match rs with
      | [] => Ok (pr_empty, j)
      | _ =>
          keyed ← keyed_records from_key rs;
          out ← result_foldl (λ acc g,
                  res ← join_group j from_left lookup replay key_cols g; Ok (pr_append acc res))
                  pr_empty (group_adjacent keyed);
          Ok (out, j)
      end
  end.

(** *** Upqueries for straddling keys *)

(** Splits a key's values between the parents. *)
Fixpoint split_key (key : list V) (sides : list Side) : list V * list V :=
  match key, sides with
  | v :: key', s :: sides' =>
      let '(l, r) := split_key key' sides' in
      match s with SideLeft => (v :: l, r) | SideRight => (l, v :: r) end
  | _, _ => ([], [])
  end.

Definition split_bound (b : Bound (list V)) (sides : list Side) : Bound (list V) * Bound (list V) :=
  (Bound_map (λ k, (split_key k sides).1) b, Bound_map (λ k, (split_key k sides).2) b).

Definition bound_nonempty (b : Bound (list V)) : bool :=
  match b with Included [] | Excluded [] => false | _ => true end.

(** One missed key: an error (point) or panic (range) if it does not straddle. *)
Definition split_missed_key (sides : list Side) (key : KeyComparison V) :
    result (KeyComparison V * KeyComparison V) :=
  match key with
  | KEqual k =>
      match split_key k sides with
      | ([], _) | (_, []) => Err Internal
      | (l, r) => Ok (KEqual l, KEqual r)
      end
  | KRange (lower, upper) =>
      let '(ll, rl) := split_bound lower sides in
      let '(lu, ru) := split_bound upper sides in
      if bound_nonempty ll && bound_nonempty lu && bound_nonempty rl && bound_nonempty ru
      then Ok (KRange (ll, lu), KRange (rl, ru)) else Panic
  end.

(** The columns each side contributes and the side of every column. *)
Fixpoint split_cols (j : Join) (cols : list nat) : result (list nat * list nat * list Side) :=
  match cols with
  | [] => Ok ([], [], [])
  | col :: cols' =>
      '(li, ri) ← resolve_col j col;
      '(ls, rs, sides) ← split_cols j cols';
      match li, ri with
      | Some l, _ => Ok (l :: ls, rs, SideLeft :: sides)
      | None, Some r => Ok (ls, r :: rs, SideRight :: sides)
      | None, None => Err Internal
      end
  end.

(** [handle_upquery]: the columns and keys to query the left and right parent
    for; empty lists panic (they must fit a [Vec1]). *)
Definition join_handle_upquery (j : Join) (column_indices : list nat)
    (missed_keys : list (KeyComparison V)) :
    result ((list nat * list (KeyComparison V)) * (list nat * list (KeyComparison V))) :=
  '(left_cols, right_cols, sides) ← split_cols j column_indices;
  keys ← result_mapM (split_missed_key sides) missed_keys;
  match left_cols, right_cols, keys with
  | _ :: _, _ :: _, _ :: _ => Ok ((left_cols, keys.*1), (right_cols, keys.*2))
  | _, _, _ => Panic
  end.

(** [column_source]. *)
Definition join_column_source (j : Join) (cols : list nat) : result ColumnSource :=
  resolved ← result_mapM (resolve_col j) cols;
  let left_cols := resolved.*1 in
  let right_cols := resolved.*2 in
  match mapM (M := option) id left_cols with
  | Some ls => Ok (CsExactCopy (jn_left j) ls)
  | None =>
      match mapM (M := option) id right_cols with
      | Some rs => Ok (CsExactCopy (jn_right j) rs)
      | None =>
          Ok (CsGenerated [(jn_left j, omap id left_cols);
                           (jn_right j, omap (λ lr : option nat * option nat,
                              match lr.1 with None => lr.2 | Some _ => None end) resolved)])
      end
  end.
End join.
Arguments Join : clear implicits.
