(* ===== verification/OpJoinProps.v ===== *)
(** * OpJoinProps: correctness of the join operator

    The join of the parents' contents as a relational operator ([join_view]),
    and the theorems that [on_input] maintains it: for updates from the left
    parent, for updates from the right parent of an inner join, and for updates
    from the right parent of a left join when the records of every join key are
    contiguous in the batch, which is what the operator's grouping needs.  Where
    they are not, a batch is shown for which the NULL row is never retracted. *)
From S2P Require Import Prelude Intervals BTreeMap Result Records Keys Processing Batches OpUnion OpJoin.

Section join_sem.
Context `{DfVal V}.
Implicit Types (r l x k : list V) (rc : Record V) (rs : list (Record V)) (j : Join V).

(** The rows the join emits, on rows wide enough. *)
Definition gen_row j l r : list V :=
  (λ sc : Side * nat, default dfv_none
     (match sc.1 with SideLeft => l !! sc.2 | SideRight => r !! sc.2 end)) <$> jn_emit j.
Definition null_row j l : list V :=
  (λ sc : Side * nat, match sc.1 with
     | SideLeft => default dfv_none (l !! sc.2) | SideRight => dfv_none end) <$> jn_emit j.

Definition left_fits j l : Prop :=
  Forall (λ sc : Side * nat, sc.1 = SideLeft → sc.2 < length l) (jn_emit j) ∧
  Forall (λ c, c < length l) (on_left j).
Definition right_fits j r : Prop :=
  Forall (λ sc : Side * nat, sc.1 = SideRight → sc.2 < length r) (jn_emit j) ∧
  Forall (λ c, c < length r) (on_right j).

(** The rows of the right contents that match a left row: equal join keys, none
    of whose values is NULL. *)
Definition join_matches j (R : list (list V)) l : list (list V) :=
  if has_null (cols_at (on_left j) l) then []
  else filter (λ r, cols_at (on_right j) r = cols_at (on_left j) l) R.
Definition join_row j (R : list (list V)) l : list (list V) :=
  match join_matches j R l with
  | [] => match jn_kind j with JoinLeft => [null_row j l] | JoinInner => [] end
  | ms => gen_row j l <$> ms
  end.
Definition join_view j (L R : list (list V)) : list (list V) := L ≫= join_row j R.

(** A lookup that hits: it returns the rows of [contents] with the given key. *)
Definition lookup_hits (lookup : LookupFn) (side : Side) (cols : list nat) (contents : list (list V)) : Prop :=
  ∀ k mode, ∃ rows, lookup side cols k mode = Ok (Some rows) ∧
    same_rows rows (filter (λ r, cols_at cols r = k) contents).

(** The records of every join key are contiguous in the batch. *)
Definition contiguous (cols : list nat) rs : Prop :=
  NoDup (group_adjacent ((λ rc, (cols_at cols (rec rc), rc)) <$> rs)).*1.
End join_sem.

Section join_lemmas.
Context `{DfVal V}.
Implicit Types (r l x k : list V) (rc : Record V) (rs : list (Record V)) (j : Join V).
Open Scope Z_scope.

Lemma generate_row_ok j l r : left_fits j l → right_fits j r → generate_row j l r = Ok (gen_row j l r).
Proof.
  intros [Hl _] [Hr _]. apply result_mapM_ok. apply Forall_forall. intros [s c] Hin.
  rewrite Forall_forall in Hl, Hr. specialize (Hl _ Hin). specialize (Hr _ Hin). simpl in *.
  destruct s.
  - by destruct (lookup_lt_is_Some_2 l c (Hl eq_refl)) as [v ->].
  - by destruct (lookup_lt_is_Some_2 r c (Hr eq_refl)) as [v ->].
Qed.

Lemma generate_null_ok j l : left_fits j l → generate_null j l = Ok (null_row j l).
Proof.
  intros [Hl _]. apply result_mapM_ok. apply Forall_forall. intros [s c] Hin.
  rewrite Forall_forall in Hl. specialize (Hl _ Hin). simpl in *. destruct s; [|done].
  by destruct (lookup_lt_is_Some_2 l c (Hl eq_refl)) as [v ->].
Qed.

Lemma result_mapM_concat {A B} (f : A → result (list B)) (g : A → list B) (xs : list A) :
  (∀ a, a ∈ xs → f a = Ok (g a)) → (rows ← result_mapM f xs; Ok (concat rows)) = Ok (xs ≫= g).
Proof.
  intros Hf. rewrite (result_mapM_ok f g) by (by apply Forall_forall). simpl. f_equal.
  induction xs as [|a xs IH]; csimpl; [done|]. rewrite IH; [done|]. intros; apply Hf. by apply elem_of_further.
Qed.

Lemma join_fold_ok {G} (f : G → result (ProcessingResult V)) (res : G → ProcessingResult V) gs acc :
  (∀ g, g ∈ gs → f g = Ok (res g)) →
  result_foldl (λ acc g, r ← f g; Ok (pr_append acc r)) acc gs = Ok (foldl pr_append acc (res <$> gs)).
Proof.
  revert acc. induction gs as [|g gs IH]; intros acc Hf; csimpl; [done|].
  rewrite (Hf g) by apply elem_of_here. simpl. apply IH. intros; apply Hf. by apply elem_of_further.
Qed.

Lemma pr_results_fold acc (ps : list (ProcessingResult V)) :
  pr_results (foldl pr_append acc ps) = pr_results acc ++ (ps ≫= pr_results) ∧
  pr_misses (foldl pr_append acc ps) = pr_misses acc ++ (ps ≫= pr_misses).
Proof.
  revert acc. induction ps as [|p ps IH]; intros acc; csimpl; [by rewrite !app_nil_r|].
  destruct (IH (pr_append acc p)) as [-> ->]. simpl. by rewrite !app_assoc.
Qed.

(** The contribution of a left row to the join, as sums over the right rows. *)
Definition key_count j l (R : list (list V)) : Z :=
  zsum (λ r, if decide (cols_at (on_right j) r = cols_at (on_left j) l) then 1 else 0) R.
Definition row_count j l x (R : list (list V)) : Z :=
  zsum (λ r, if decide (cols_at (on_right j) r = cols_at (on_left j) l)
             then (if decide (gen_row j l r = x) then 1 else 0) else 0) R.

Lemma occ_map_filter j l x R :
  occ x (gen_row j l <$> filter (λ r, cols_at (on_right j) r = cols_at (on_left j) l) R) =
  row_count j l x R.
Proof.
  unfold row_count. induction R as [|r R IH]; [done|]. rewrite filter_cons. cbn [zsum].
  case_decide; csimpl; rewrite IH; [done|lia].
Qed.

Lemma length_filter_count j l R :
  Z.of_nat (length (filter (λ r, cols_at (on_right j) r = cols_at (on_left j) l) R)) = key_count j l R.
Proof.
  unfold key_count. induction R as [|r R IH]; [done|]. rewrite filter_cons. cbn [zsum].
  case_decide; cbn [length]; lia.
Qed.

Lemma occ_join_row j R l x :
  has_null (cols_at (on_left j) l) = false →
  occ x (join_row j R l) =
  row_count j l x R +
  match jn_kind j with
  | JoinLeft => if key_count j l R =? 0 then (if decide (null_row j l = x) then 1 else 0) else 0
  | JoinInner => 0
  end.
Proof.
  intros Hn. unfold join_row, join_matches. rewrite Hn, <-occ_map_filter, <-length_filter_count.
  destruct (filter _ R) as [|r ms]; simpl; [|destruct (jn_kind j); lia].
  destruct (jn_kind j); simpl; [|lia]. case_decide; lia.
Qed.

(** *** Updates from the left *)
Definition left_out j (rows : list (list V)) l : list (list V) :=
  match rows with
  | [] => match jn_kind j with JoinLeft => [null_row j l] | JoinInner => [] end
  | _ => gen_row j l <$> rows
  end.

Lemma join_rows_left j rows recs :
  (∀ rc, rc ∈ recs → left_fits j (rec rc)) → (∀ r, r ∈ rows → right_fits j r) →
  join_rows j true rows recs = Ok (lift (left_out j rows) recs).
Proof.
  intros Hl Hr. unfold join_rows, lift. apply result_mapM_concat. intros rc Hrc.
  unfold left_out. destruct rows as [|r rows].
  - unfold bool_decide. destruct (jn_kind j); simpl; [|done]. by rewrite generate_null_ok by auto.
  - apply result_mapM_inv, Forall2_fmap_r, Forall2_fmap_r. apply Forall_Forall2_diag, Forall_forall.
    intros r' Hr'. by rewrite generate_row_ok by auto.
Qed.

Lemma left_out_join_row j R rows l x :
  has_null (cols_at (on_left j) l) = false →
  same_rows rows (filter (λ r, cols_at (on_right j) r = cols_at (on_left j) l) R) →
  occ x (left_out j rows l) = occ x (join_row j R l).
Proof.
  intros Hn Hs. unfold join_row, join_matches, left_out. rewrite Hn.
  apply same_rows_perm in Hs. destruct rows as [|r rows].
  - by rewrite (Permutation_nil Hs).
  - destruct (filter _ R) as [|r' ms]; [by symmetry in Hs; apply Permutation_nil in Hs|].
    apply occ_perm. by rewrite Hs.
Qed.

Lemma join_group_left j lookup R k recs :
  lookup_hits lookup SideRight (on_right j) R → (∀ r, r ∈ R → right_fits j r) →
  (∀ rc, rc ∈ recs → left_fits j (rec rc) ∧ cols_at (on_left j) (rec rc) = k) →
  ∃ res, join_group j true lookup RcNone None (k, recs) = Ok res ∧ pr_misses res = [] ∧
    ∀ x, wt x (pr_results res) = rsum (λ l, occ x (join_row j R l)) recs.
Proof.
  intros Hlk HR Hrecs. unfold join_group. simpl. rewrite andb_false_r. simpl.
  destruct (has_null k) eqn:Hn; simpl.
  - rewrite join_rows_left; [|intros rc Hrc; by apply Hrecs|set_solver]. eexists. split_and!; [done|done|].
    intros x. simpl. rewrite app_nil_r, wt_lift. apply rsum_ext. intros rc Hrc.
    destruct (Hrecs rc Hrc) as [_ Hk]. unfold join_row, join_matches. by rewrite Hk, Hn.
  - destruct (Hlk k LmWeak) as (rows & -> & Hs). simpl.
    rewrite join_rows_left; [|intros rc Hrc; by apply Hrecs|].
    2: { intros r Hin. apply same_rows_perm in Hs. rewrite Hs in Hin.
         apply list_elem_of_filter in Hin as [_ Hin]. by apply HR. }
    eexists. split_and!; [done|done|]. intros x. simpl. rewrite app_nil_r, wt_lift.
    apply rsum_ext. intros rc Hrc. destruct (Hrecs rc Hrc) as [_ Hk].
    apply left_out_join_row; by rewrite Hk.
Qed.

(** Sum of a per-group quantity. *)
Definition gsum {G} (f : G → Z) (gs : list G) : Z := foldr (λ g a, f g + a) 0 gs.

Lemma wt_bind_gsum {G} (f : G → list (Record V)) gs x : wt x (gs ≫= f) = gsum (λ g, wt x (f g)) gs.
Proof. unfold gsum. induction gs as [|g gs IH]; csimpl; [done|]. by rewrite wt_app, IH. Qed.
Lemma gsum_ext {G} (f g : G → Z) gs : (∀ a, a ∈ gs → f a = g a) → gsum f gs = gsum g gs.
Proof.
  unfold gsum. induction gs as [|a gs IH]; intros Hfg; simpl; [done|].
  rewrite (Hfg a) by apply elem_of_here. rewrite IH; [done|]. intros; apply Hfg. by apply elem_of_further.
Qed.
Lemma gsum_rsum_concat f (gs : list (list V * list (Record V))) :
  gsum (λ g, rsum f g.2) gs = rsum f (concat gs.*2).
Proof. unfold gsum. induction gs as [|g gs IH]; csimpl; [done|]. by rewrite rsum_app, IH. Qed.

(** Running all the groups of a batch. *)
Lemma join_groups_run j from_left lookup gs (f : list V → list V * list (Record V) → Z) :
  (∀ g, g ∈ gs → ∃ res, join_group j from_left lookup RcNone None g = Ok res ∧ pr_misses res = [] ∧
     ∀ x, wt x (pr_results res) = f x g) →
  ∃ out, result_foldl (λ acc g,
      res ← join_group j from_left lookup RcNone None g; Ok (pr_append acc res)) pr_empty gs = Ok out ∧
    pr_misses out = [] ∧ ∀ x, wt x (pr_results out) = gsum (f x) gs.
Proof.
  intros Hg.
  set (res := λ g, match join_group j from_left lookup RcNone None g with Ok p => p | _ => pr_empty end).
  assert (∀ g, g ∈ gs → join_group j from_left lookup RcNone None g = Ok (res g) ∧
    pr_misses (res g) = [] ∧ ∀ x, wt x (pr_results (res g)) = f x g) as Hres.
  { intros g Hin. destruct (Hg g Hin) as (p & Hp & Hm & Hw). unfold res. by rewrite Hp. }
  eexists. split; [apply (join_fold_ok _ res); intros; by apply Hres|].
  destruct (pr_results_fold pr_empty (res <$> gs)) as [-> ->]. simpl. split.
  - clear Hg. induction gs as [|g gs IH]; csimpl; [done|].
    destruct (Hres g (elem_of_here g gs)) as (_ & -> & _). simpl. apply IH.
    intros; apply Hres. by apply elem_of_further.
  - intros x. rewrite <-(gsum_ext (λ g, wt x (pr_results (res g)))) by (intros; by apply Hres).
    rewrite <-wt_bind_gsum. f_equal.
    clear. induction gs as [|g gs IH]; csimpl; [done|]. by f_equal.
Qed.

(** *** Updates from the right *)
Definition ind (P : Prop) `{Decision P} : Z := if decide P then 1 else 0.

Lemma rsum_zsum_swap (f : list V → list V → Z) rs (rows : list (list V)) :
  rsum (λ r, zsum (λ l, f l r) rows) rs = zsum (λ l, rsum (f l) rs) rows.
Proof.
  induction rows as [|l rows IH]; simpl.
  - induction rs as [|rc rs IHrs]; simpl; lia.
  - by rewrite rsum_plus, IH.
Qed.

Lemma zsum_filter (f : list V → Z) (P : list V → Prop) `{∀ r, Decision (P r)} (rows : list (list V)) :
  zsum f (filter P rows) = zsum (λ r, if decide (P r) then f r else 0) rows.
Proof.
  induction rows as [|r rows IH]; [done|]. rewrite filter_cons. cbn [zsum]. rewrite <-IH.
  by case_decide.
Qed.

Lemma zsum_mul c (f : list V → Z) rows : zsum (λ r, c * f r) rows = c * zsum f rows.
Proof. induction rows; simpl; lia. Qed.

Lemma rc_diff_rsum recs : rc_diff recs = rsum (λ _ : list V, 1) recs.
Proof. unfold rc_diff. induction recs as [|rc recs IH]; simpl; [done|]. lia. Qed.

Lemma join_rows_right j rows recs :
  (∀ rc, rc ∈ recs → right_fits j (rec rc)) → (∀ l, l ∈ rows → left_fits j l) →
  join_rows j false rows recs = Ok (lift (λ r, (λ l, gen_row j l r) <$> rows) recs).
Proof.
  intros Hr Hl. unfold join_rows, lift. apply result_mapM_concat. intros rc Hrc.
  destruct rows as [|l rows].
  - by rewrite andb_false_r.
  - apply result_mapM_inv, Forall2_fmap_r, Forall2_fmap_r. apply Forall_Forall2_diag, Forall_forall.
    intros l' Hl'. by rewrite generate_row_ok by auto.
Qed.

Lemma occ_fmap_ind (f : list V → list V) x rows : occ x (f <$> rows) = zsum (λ l, ind (f l = x)) rows.
Proof. induction rows as [|l rows IH]; csimpl; [done|]. by rewrite IH. Qed.

Lemma null_adjust_ok j (new_rc : nat) (old_rc : Z) rows :
  (∀ l, l ∈ rows → left_fits j l) →
  ∃ out, null_adjust j new_rc old_rc rows = Ok out ∧
    ∀ x, wt x out = (ind (Z.of_nat new_rc = 0) - ind (old_rc = 0)) * zsum (λ l, ind (null_row j l = x)) rows.
Proof.
  intros Hl.
  assert (∀ mk : list V → Record V,
    result_mapM (λ other, row ← generate_null j other; Ok (mk row)) rows = Ok (mk <$> (null_row j <$> rows))) as Hm.
  { intros mk. apply result_mapM_inv, Forall2_fmap_r, Forall2_fmap_r. apply Forall_Forall2_diag, Forall_forall.
    intros l Hin. by rewrite generate_null_ok by auto. }
  unfold null_adjust, ind. rewrite !Hm.
  destruct (Nat.eqb_spec new_rc 0) as [->|Hn], (Z.eqb_spec old_rc 0) as [->|Ho]; cbn [andb negb].
  all: eexists; split; [done|]; intros x; repeat case_decide; try lia; try (simpl; lia).
  - rewrite wt_positive, occ_fmap_ind. unfold ind. lia.
  - rewrite wt_negative, occ_fmap_ind. unfold ind. lia.
Qed.

(** What one group contributes for a left row with the group's key. *)
Definition right_share j (R' : list (list V)) x (k : list V) (recs : list (Record V)) l : Z :=
  rsum (λ r, ind (gen_row j l r = x)) recs +
  match jn_kind j with
  | JoinInner => 0
  | JoinLeft =>
      let new := zsum (λ r, ind (cols_at (on_right j) r = k)) R' in
      (ind (new = 0) - ind (new - rsum (λ _, 1) recs = 0)) * ind (null_row j l = x)
  end.

Lemma same_rows_elem (l1 l2 : list (list V)) r : same_rows l1 l2 → r ∈ l1 → r ∈ l2.
Proof. intros Hs Hin. apply same_rows_perm in Hs. by rewrite <-Hs. Qed.

Lemma join_group_right j lookup L R' k recs :
  lookup_hits lookup SideLeft (on_left j) L → lookup_hits lookup SideRight (on_right j) R' →
  (∀ l, l ∈ L → left_fits j l) →
  (∀ rc, rc ∈ recs → right_fits j (rec rc)) →
  ∃ res, join_group j false lookup RcNone None (k, recs) = Ok res ∧ pr_misses res = [] ∧
    ∀ x, wt x (pr_results res) =
      if has_null k then 0
      else zsum (λ l, if decide (cols_at (on_left j) l = k) then right_share j R' x k recs l else 0) L.
Proof.
  intros HlkL HlkR HL Hrecs. unfold join_group. simpl. rewrite andb_true_r.
  destruct (HlkR k LmWeak) as (rr & Hrr & Hsr).
  assert ((if bool_decide (jn_kind j = JoinLeft) then lookup SideRight (on_right j) k LmWeak else Ok (Some [])) =
    Ok (Some (if bool_decide (jn_kind j = JoinLeft) then rr else []))) as ->
    by (by case_bool_decide).
  simpl. rewrite andb_false_r. simpl. destruct (has_null k) eqn:Hn; simpl.
  - rewrite join_rows_right; [|done|set_solver]. simpl.
    destruct (null_adjust_ok j (length (if bool_decide (jn_kind j = JoinLeft) then rr else []))
      (Z.of_nat (length (if bool_decide (jn_kind j = JoinLeft) then rr else [])) - rc_diff recs) [])
      as (out & Hout & Hw); [set_solver|].
    case_bool_decide; rewrite ?Hout; simpl; eexists; (split; [done|]); (split; [done|]); intros x; simpl;
      rewrite wt_app, wt_lift, ?Hw, rsum_const_zero; simpl; lia.
  - destruct (HlkL k LmWeak) as (rows & -> & Hsl). simpl.
    assert (∀ l, l ∈ rows → left_fits j l) as Hrows.
    { intros l Hin. apply (same_rows_elem _ _ _ Hsl) in Hin.
      apply list_elem_of_filter in Hin as [_ Hin]. by apply HL. }
    rewrite join_rows_right by done. simpl.
    assert (∀ f, zsum f rows = zsum (λ l, if decide (cols_at (on_left j) l = k) then f l else 0) L) as Hz.
    { intros f. rewrite (same_rows_zsum f _ _ Hsl). apply zsum_filter. }
    assert (∀ x, wt x (lift (λ r, (λ l, gen_row j l r) <$> rows) recs) =
      zsum (λ l, rsum (λ r, ind (gen_row j l r = x)) recs) rows) as Hlift.
    { intros x. rewrite wt_lift, <-rsum_zsum_swap. apply rsum_ext. intros. apply occ_fmap_ind. }
    destruct (null_adjust_ok j (length rr) (Z.of_nat (length rr) - rc_diff recs) rows Hrows)
      as (out & Hout & Hw).
    case_bool_decide as Hkind; rewrite ?Hout; simpl; eexists; (split; [done|]); (split; [done|]); intros x; simpl.
    + assert (Z.of_nat (length rr) = zsum (λ r, ind (cols_at (on_right j) r = k)) R') as Hlen.
      { rewrite <-zsum_const_length, (same_rows_zsum _ _ _ Hsr). apply zsum_filter. }
      rewrite wt_app, Hlift, Hw, rc_diff_rsum, Hlen, <-zsum_mul, <-zsum_plus, Hz.
      unfold right_share. by rewrite Hkind.
    + rewrite app_nil_r, Hlift, Hz. apply zsum_ext. intros l _.
      unfold right_share. destruct (jn_kind j); [done|]. repeat case_decide; try done; lia.
Qed.

Lemma gsum_zsum_swap {G} (f : list V → G → Z) gs (rows : list (list V)) :
  gsum (λ g, zsum (λ l, f l g) rows) gs = zsum (λ l, gsum (f l) gs) rows.
Proof.
  unfold gsum. induction gs as [|g gs IH]; simpl.
  - induction rows; simpl; lia.
  - by rewrite zsum_plus, IH.
Qed.
Lemma gsum_plus {G} (f g : G → Z) gs : gsum (λ a, f a + g a) gs = gsum f gs + gsum g gs.
Proof. unfold gsum. induction gs; simpl; lia. Qed.

(** Restricting a sum to the group of a key restricts it to the records of the key. *)
Lemma rsum_key cols g k f :
  (∀ rc, rc ∈ g.2 → cols_at cols (rec rc) = g.1) →
  rsum (λ r, if decide (k = cols_at cols r) then f r else 0) g.2 =
  if decide (k = g.1) then rsum f g.2 else 0.
Proof.
  intros Hg. destruct (decide (k = g.1)) as [->|Hne].
  - apply rsum_ext. intros rc Hrc. by rewrite (Hg rc Hrc), decide_True.
  - rewrite (rsum_ext _ (λ _, 0)); [apply rsum_const_zero|].
    intros rc Hrc. by rewrite (Hg rc Hrc), decide_False.
Qed.

Lemma gsum_key cols gs k f :
  keyed_groups cols gs →
  gsum (λ g, if decide (k = g.1) then rsum f g.2 else 0) gs =
  rsum (λ r, if decide (k = cols_at cols r) then f r else 0) (concat gs.*2).
Proof.
  intros Hgs. rewrite <-gsum_rsum_concat. apply gsum_ext. intros g Hin.
  symmetry. apply rsum_key. intros rc. by apply Hgs.
Qed.

(** A function of the group's net count, summed over groups with distinct keys,
    is that function of the key's net count. *)
Lemma gsum_key_once cols gs k (F : Z → Z) :
  keyed_groups cols gs → NoDup gs.*1 → F 0 = 0 →
  gsum (λ g, if decide (k = g.1) then F (rsum (λ _, 1) g.2) else 0) gs =
  F (rsum (λ r, if decide (k = cols_at cols r) then 1 else 0) (concat gs.*2)).
Proof.
  intros Hgs Hnd HF0. unfold gsum. induction gs as [|g gs IH]; csimpl; [done|].
  apply keyed_groups_cons in Hgs as [Hg Hgs]. csimpl in Hnd. apply NoDup_cons in Hnd as [Hni Hnd].
  specialize (IH Hgs Hnd). rewrite IH, rsum_app, rsum_key by done. clear IH.
  destruct (decide (k = g.1)) as [->|Hne]; [|by rewrite Z.add_0_l].
  assert (rsum (λ r, if decide (g.1 = cols_at cols r) then 1 else 0) (concat gs.*2) = 0) as ->.
  { rewrite <-gsum_rsum_concat. rewrite (gsum_ext _ (λ _, 0)); [unfold gsum; clear; by induction gs|].
    intros g' Hin. rewrite rsum_key by (intros rc; by apply Hgs). rewrite decide_False; [done|].
    intros Heq. apply Hni. rewrite Heq. by apply list_elem_of_fmap_2. }
  rewrite HF0, !Z.add_0_r. done.
Qed.

Lemma rsum_key_flip cols k f rs :
  rsum (λ r, if decide (k = cols_at cols r) then f r else 0) rs =
  rsum (λ r, if decide (cols_at cols r = k) then f r else 0) rs.
Proof. apply rsum_ext. intros. repeat case_decide; congruence. Qed.

(** What a right batch adds for one left row, over all groups. *)
Definition right_total j (R' : list (list V)) x gs l : Z :=
  gsum (λ g : list V * list (Record V),
    if has_null g.1 then 0 else if decide (cols_at (on_left j) l = g.1) then right_share j R' x g.1 g.2 l else 0) gs.

Lemma right_total_ok j R rs R' x gs l :
  applies R rs R' → keyed_groups (on_right j) gs → concat gs.*2 = rs →
  (jn_kind j = JoinLeft → NoDup gs.*1) →
  occ x (join_row j R' l) = occ x (join_row j R l) + right_total j R' x gs l.
Proof.
  intros Ha Hgs Hrs Hnd. unfold right_total.
  destruct (has_null (cols_at (on_left j) l)) eqn:Hn.
  - rewrite (gsum_ext _ (λ _, 0)).
    + assert (gsum (λ _, 0) gs = 0) as -> by (unfold gsum; clear; by induction gs).
      unfold join_row, join_matches. rewrite Hn. lia.
    + intros g _. destruct (has_null g.1) eqn:Hg; [done|]. case_decide; [congruence|done].
  - rewrite !occ_join_row by done.
    set (k := cols_at (on_left j) l) in *.
    set (F := λ d, match jn_kind j with
      | JoinInner => 0
      | JoinLeft => (ind (key_count j l R' = 0) - ind (key_count j l R' - d = 0)) * ind (null_row j l = x)
      end).
    rewrite (gsum_ext _ (λ g : list V * list (Record V),
      (if decide (k = g.1) then rsum (λ r, ind (gen_row j l r = x)) g.2 else 0) +
      (if decide (k = g.1) then F (rsum (λ _, 1) g.2) else 0))).
    2: { intros g _. case_decide as Hk; [|by destruct (has_null g.1)]. rewrite <-Hk, Hn.
         unfold right_share, F. by destruct (jn_kind j). }
    rewrite gsum_plus, (gsum_key (on_right j)) by done.
    assert (gsum (λ g : list V * list (Record V), if decide (k = g.1) then F (rsum (λ _, 1) g.2) else 0) gs =
      F (rsum (λ r, if decide (k = cols_at (on_right j) r) then 1 else 0) rs)) as ->.
    { destruct (jn_kind j) eqn:Hkind.
      - rewrite <-Hrs. apply gsum_key_once; [done|auto|]. unfold F. rewrite Z.sub_0_r. lia.
      - unfold F. rewrite (gsum_ext _ (λ _, 0)); [unfold gsum; clear; by induction gs|].
        intros g _. by case_decide. }
    rewrite Hrs, !rsum_key_flip.
    assert (row_count j l x R' = row_count j l x R +
      rsum (λ r, if decide (cols_at (on_right j) r = k) then ind (gen_row j l r = x) else 0) rs) as ->
      by (by apply applies_zsum).
    unfold F. destruct (jn_kind j); [|lia].
    assert (key_count j l R' = key_count j l R +
      rsum (λ r, if decide (cols_at (on_right j) r = k) then 1 else 0) rs) as Hc by (by apply applies_zsum).
    rewrite Hc. generalize (rsum (λ r, if decide (cols_at (on_right j) r = k) then 1 else 0) rs). intros d. unfold ind.
    destruct (Z.eqb_spec (key_count j l R + d) 0), (Z.eqb_spec (key_count j l R) 0); repeat case_decide; lia.
Qed.
End join_lemmas.

Section join_theorems.
Context `{DfVal V}.
Implicit Types (r l x k : list V) (rc : Record V) (rs : list (Record V)) (j : Join V).
Open Scope Z_scope.

(** The batch a join processes when it is not a replay. *)
Lemma join_on_input_run j (from_left : bool) rs lookup (f : list V → list V * list (Record V) → Z) :
  jn_left j ≠ jn_right j →
  let cols := if from_left then on_left j else on_right j in
  let gs := group_adjacent ((λ rc, (cols_at cols (rec rc), rc)) <$> rs) in
  Forall (λ rc, Forall (λ c, (c < length (rec rc))%nat) cols) rs →
  (∀ g, g ∈ gs → ∃ res, join_group j from_left lookup RcNone None g = Ok res ∧ pr_misses res = [] ∧
     ∀ x, wt x (pr_results res) = f x g) →
  ∃ out, join_on_input j (if from_left then jn_left j else jn_right j) rs RcNone lookup = Ok (out, j) ∧
    pr_misses out = [] ∧ ∀ x, wt x (pr_results out) = gsum (f x) gs.
Proof.
  intros Hne cols gs Hfit Hg. unfold join_on_input. simpl.
  assert (((if from_left then jn_left j else jn_right j) =? jn_left j)%nat = from_left) as ->.
  { destruct from_left; [apply Nat.eqb_refl|]. by apply Nat.eqb_neq. }
  destruct (join_groups_run j from_left lookup gs f Hg) as (out & Hout & Hm & Hw).
  destruct rs as [|rc rs].
  - exists pr_empty. by split_and!.
  - rewrite keyed_records_ok by done. exists out. split_and!; [|done|done].
    transitivity (out ← result_foldl (λ acc g,
      res ← join_group j from_left lookup RcNone None g; Ok (pr_append acc res)) pr_empty gs; Ok (out, j));
      [done|by rewrite Hout].
Qed.

(** C10: A delta from the left parent of an inner or a left join, with the right
    parent's state materialized for lookups on the join key, produces no misses,
    leaves the operator unchanged, and emits a delta that takes the join of the
    old left contents with the right contents to the join of the new ones: each
    left row is joined with every right row of an equal key without NULLs, and a
    left join emits the row padded with NULLs exactly when there is none. *)
Theorem join_left_maintains j rs lookup (R : list (list V)) :
  jn_left j ≠ jn_right j →
  lookup_hits lookup SideRight (on_right j) R →
  (∀ r, r ∈ R → right_fits j r) → (∀ rc, rc ∈ rs → left_fits j (rec rc)) →
  ∃ out, join_on_input j (jn_left j) rs RcNone lookup = Ok (out, j) ∧ pr_misses out = [] ∧
    ∀ L L', applies L rs L' → applies (join_view j L R) (pr_results out) (join_view j L' R).
Proof.
  intros Hne Hlk HR Hrs.
  destruct (join_on_input_run j true rs lookup (λ x g, rsum (λ l, occ x (join_row j R l)) g.2))
    as (out & Hout & Hm & Hw); [done| | |].
  - apply Forall_forall. intros rc Hrc. by apply Hrs.
  - intros [k g] Hg. apply join_group_left; [done|done|]. intros rc Hrc. split.
    + apply Hrs. by apply (group_adjacent_elem _ _ _ _ Hg).
    + by apply (keyed_groups_adjacent _ _ _ _ Hg).
  - exists out. split_and!; [done|done|]. intros L L' Ha x. unfold join_view.
    rewrite !occ_bind, Hw, gsum_rsum_concat, group_adjacent_records. by apply applies_zsum.
Qed.

(** C9: A delta from the right parent, with the left contents [L] and the
    updated right contents [R'] visible to the lookups (the state of a
    materialized parent is updated before its children process the delta), takes
    the join to the join with the updated right contents.  For a left join this
    includes emitting and retracting the rows padded with NULLs when the last
    right row of a key goes or the first one comes, and it needs the records of
    each key to be contiguous in the batch. *)
Theorem join_right_maintains j rs lookup (L R R' : list (list V)) :
  jn_left j ≠ jn_right j →
  lookup_hits lookup SideLeft (on_left j) L → lookup_hits lookup SideRight (on_right j) R' →
  (∀ l, l ∈ L → left_fits j l) → (∀ rc, rc ∈ rs → right_fits j (rec rc)) →
  (jn_kind j = JoinLeft → contiguous (on_right j) rs) →
  applies R rs R' →
  ∃ out, join_on_input j (jn_right j) rs RcNone lookup = Ok (out, j) ∧ pr_misses out = [] ∧
    applies (join_view j L R) (pr_results out) (join_view j L R').
Proof.
  intros Hne HlkL HlkR HL Hrs Hc Ha.
  destruct (join_on_input_run j false rs lookup (λ x g, if has_null g.1 then 0
      else zsum (λ l, if decide (cols_at (on_left j) l = g.1) then right_share j R' x g.1 g.2 l else 0) L))
    as (out & Hout & Hm & Hw); [done| | |].
  - apply Forall_forall. intros rc Hrc. by apply Hrs.
  - intros [k g] Hg. apply join_group_right; [done..|]. intros rc Hrc.
    apply Hrs. by apply (group_adjacent_elem _ _ _ _ Hg).
  - exists out. split_and!; [done|done|]. intros x. unfold join_view.
    rewrite !occ_bind, Hw.
    rewrite (gsum_ext _ (λ g : list V * list (Record V), zsum (λ l, if has_null g.1 then 0
      else if decide (cols_at (on_left j) l = g.1) then right_share j R' x g.1 g.2 l else 0) L)).
    2: { intros g _. destruct (has_null g.1); [|done]. clear. induction L; simpl; lia. }
    rewrite gsum_zsum_swap, <-zsum_plus. apply zsum_ext. intros l _.
    apply (right_total_ok _ _ rs); [done|apply keyed_groups_adjacent|apply group_adjacent_records|done].
Qed.
End join_theorems.

(** *** Instances *)
Definition sample_lookup (L R : list (list SampleVal)) : LookupFn :=
  λ side cols k _, Ok (Some (filter (λ r, cols_at cols r = k)
    (match side with SideLeft => L | SideRight => R end))).

Lemma sample_lookup_left L R cols : lookup_hits (sample_lookup L R) SideLeft cols L.
Proof. intros k mode. eexists. split; [done|]. by intros r. Qed.
Lemma sample_lookup_right L R cols : lookup_hits (sample_lookup L R) SideRight cols R.
Proof. intros k mode. eexists. split; [done|]. by intros r. Qed.

(** [SELECT l.0, r.1 FROM l LEFT JOIN r ON l.0 = r.0], and the inner join. *)
Definition sample_join (kind : JoinType) : Join SampleVal :=
  {| jn_left := 0; jn_right := 1; jn_on := [(0, 0)]; jn_emit := [(SideLeft, 0); (SideRight, 1)];
     jn_in_place_left := [(SideLeft, 0); (SideRight, 1)];
     jn_in_place_right := [(SideLeft, 0); (SideRight, 1)]; jn_buffer := []; jn_kind := kind |}.
Lemma sample_join_new kind : join_new 0 1 kind [JsB 0 0; JsR 1] = Ok (sample_join kind).
Proof. reflexivity. Qed.

Ltac fits_by_eval :=
  intros ? Hin; repeat (apply elem_of_cons in Hin as [->|Hin]); try (by apply elem_of_nil in Hin);
  split; repeat constructor; simpl; intros; try done; lia.

Lemma join_left_maintains_witness :
  ∃ out, join_on_input (sample_join JoinLeft) 0 [Positive [SInt 1]; Positive [SInt 2]; Negative [SNone]]
      RcNone (sample_lookup [] [[SInt 1; SInt 7]]) = Ok (out, sample_join JoinLeft) ∧ pr_misses out = [] ∧
    ∀ L L', applies L [Positive [SInt 1]; Positive [SInt 2]; Negative [SNone]] L' →
      applies (join_view (sample_join JoinLeft) L [[SInt 1; SInt 7]]) (pr_results out)
              (join_view (sample_join JoinLeft) L' [[SInt 1; SInt 7]]).
Proof.
  apply (join_left_maintains (sample_join JoinLeft)); [done|apply sample_lookup_right| |]; fits_by_eval.
Defined.

Lemma join_right_maintains_witness :
  ∃ out, join_on_input (sample_join JoinLeft) 1 [Positive [SInt 1; SInt 7]; Negative [SInt 2; SInt 8]]
      RcNone (sample_lookup [[SInt 1]; [SInt 2]] [[SInt 1; SInt 7]]) = Ok (out, sample_join JoinLeft) ∧
    pr_misses out = [] ∧
    applies (join_view (sample_join JoinLeft) [[SInt 1]; [SInt 2]] [[SInt 2; SInt 8]]) (pr_results out)
            (join_view (sample_join JoinLeft) [[SInt 1]; [SInt 2]] [[SInt 1; SInt 7]]).
Proof.
  apply (join_right_maintains (sample_join JoinLeft));
    [done|apply sample_lookup_left|apply sample_lookup_right|fits_by_eval|fits_by_eval| |].
  - intros _. by apply (bool_decide_unpack _).
  - intros r. unfold sgn. simpl. repeat case_decide; done || congruence.
Defined.

(** The grouping of a batch by [Itertools::group_by] joins adjacent records
    only, so a batch from the right parent of a left join that interleaves keys
    is counted per run: when the first two right rows of a key arrive separated
    by a row of another key, neither run starts from a count of zero, and the row
    padded with NULLs is never retracted. *)
Theorem left_join_interleaved_keys :
  let j := sample_join JoinLeft in
  let L := [[SInt 1]; [SInt 2]] in
  let rs := [Positive [SInt 1; SInt 7]; Positive [SInt 2; SInt 8]; Positive [SInt 1; SInt 9]] in
  let R' := rec <$> rs in
  applies [] rs R' ∧
  ∃ out, join_on_input j (jn_right j) rs RcNone (sample_lookup L R') = Ok (out, j) ∧
    pr_results out = [Positive [SInt 1; SInt 7]; Positive [SInt 2; SInt 8];
                      Negative [SInt 2; SNone]; Positive [SInt 1; SInt 9]] ∧
    ([SInt 1; SNone] ∈ join_view j L []) ∧ ([SInt 1; SNone] ∉ join_view j L R') ∧
    ¬ applies (join_view j L []) (pr_results out) (join_view j L R').
Proof.
  cbv zeta. split; [intros r; unfold sgn; simpl; repeat case_decide; done|]. eexists. split; [vm_compute; reflexivity|].
  split; [reflexivity|]. split_and!; [by apply (bool_decide_unpack _)..|].
  intros Ha. specialize (Ha [SInt 1; SNone]). vm_compute in Ha. done.
Qed.

(** When both parents' replays of a straddling key have arrived, the buffered
    rows are joined by comparing their key values directly: rows whose join keys
    are NULL match each other, which the same rows never do in [on_input]. *)
Theorem generated_replay_joins_nulls :
  let j := sample_join JoinInner in
  let L := [[SNone]] in let R := [[SNone; SInt 7]] in
  handle_replay_for_generated j (Positive <$> L) (Positive <$> R) = Ok [Positive [SNone; SInt 7]] ∧
  join_view j L R = [] ∧
  ∃ out, join_on_input j (jn_left j) (Positive <$> L) RcNone (sample_lookup [] R) = Ok (out, j) ∧
    pr_results out = [].
Proof. cbv zeta. split_and!; [vm_compute; reflexivity..|]. eexists. split; vm_compute; reflexivity. Qed.
