(* ===== verification/Array2.v ===== *)
(** * Array2: fixed-width two-dimensional arrays

    Models [array2/src/lib.rs]: rows of one size in a single slice, row first, as
    replies to readers hold them.  An array made from rows gives back these rows,
    and its rows and cells by index; arrays of empty rows are where it fails. *)
From S2P Require Import Prelude Result.

Inductive ArrayError :=
  | Array2Empty
  | InconsistentRowSize (row_index row_size actual_size : nat).

Record Array2 (T : Type) := { row_size : nat; cells : list T }.
Arguments row_size {T}.
Arguments cells {T}.

Section array2.
Context {T : Type}.
Implicit Types (a : Array2 T) (r : list T) (rs : list (list T)).

(** The loop of [try_from_rows], from a row index on. *)
Fixpoint collect_rows (size index : nat) (elems : list T) rs : list T + ArrayError :=
  match rs with
  | [] => inl elems
  | r :: rs' =>
      if length r =? size then collect_rows size (S index) (elems ++ r) rs'
      else inr (InconsistentRowSize index size (length r))
  end.
Definition try_from_rows rs : Array2 T + ArrayError :=
  match rs with
  | [] => inr Array2Empty
  | r :: _ =>
      match collect_rows (length r) 0 [] rs with
      | inl elems => inl {| row_size := length r; cells := elems |}
      | inr e => inr e
      end
  end.
Definition from_rows rs : result (Array2 T) :=
  match try_from_rows rs with inl a => Ok a | inr _ => Panic end.

Definition num_cells a : nat := length (cells a).
(** The division panics for rows of size zero. *)
Definition num_rows a : result nat :=
  if row_size a =? 0 then Panic else Ok (num_cells a / row_size a).

(** [slice::chunks], which panics for chunks of size zero; a list has no more
    chunks than elements. *)
Fixpoint chunks (fuel size : nat) (l : list T) : list (list T) :=
  match fuel, l with
  | S fuel', _ :: _ => take size l :: chunks fuel' size (drop size l)
  | _, _ => []
  end.
Definition rows a : result (list (list T)) :=
  if row_size a =? 0 then Panic else Ok (chunks (num_cells a) (row_size a) (cells a)).

(** Slicing, and indexing with a row or with a row and a column. *)
Definition slice (l : list T) (lo hi : nat) : result (list T) :=
  if (lo <=? hi) && (hi <=? length l) then Ok (take (hi - lo) (drop lo l)) else Panic.
Definition get_row a (i : nat) : result (option (list T)) :=
  n ← num_rows a;
  if n <=? i then Ok None else r ← slice (cells a) (row_size a * i) (row_size a * (i + 1)); Ok (Some r).
Definition get_cell a (row col : nat) : result (option T) :=
  n ← num_rows a;
  if (n <=? row) || (row_size a <=? col) then Ok None
  else x ← expect (cells a !! (row_size a * row + col)); Ok (Some x).
(** A write through [get_mut]: the array after it, and whether there was a cell. *)
Definition set_cell a (row col : nat) (x : T) : result (option (Array2 T)) :=
  n ← num_rows a;
  if (n <=? row) || (row_size a <=? col) then Ok None
  else _ ← expect (cells a !! (row_size a * row + col));
       Ok (Some {| row_size := row_size a; cells := <[row_size a * row + col := x]> (cells a) |}).
Definition array_index a (i : nat) : result (list T) := r ← get_row a i; expect r.

(** ** Properties *)
Definition rectangular (w : nat) rs : Prop := Forall (λ r, length r = w) rs.

Lemma collect_rows_ok w index elems rs : rectangular w rs → collect_rows w index elems rs = inl (elems ++ concat rs).
Proof.
  intros Hr. revert index elems. induction Hr as [|r rs Hl Hr IH]; intros index elems; simpl; [by rewrite app_nil_r|].
  rewrite Hl, Nat.eqb_refl, IH. by rewrite app_assoc.
Qed.

Lemma length_rectangular w rs : rectangular w rs → length (concat rs) = w * length rs.
Proof. induction 1 as [|r rs Hr Hrs IH]; simpl; [lia|]. rewrite length_app, Hr, IH. lia. Qed.

Lemma chunks_concat w rs fuel : 0 < w → rectangular w rs → length (concat rs) ≤ fuel → chunks fuel w (concat rs) = rs.
Proof.
  intros Hw Hr. revert fuel. induction Hr as [|r rs Hl Hr IH]; intros fuel Hf; [by destruct fuel|].
  simpl in Hf. rewrite length_app in Hf. destruct fuel as [|fuel]; [lia|]. simpl.
  destruct (r ++ concat rs) as [|x l] eqn:E; [destruct r; simpl in *; [lia|done]|]. rewrite <-E.
  rewrite take_app_length', drop_app_length' by done. by rewrite IH by lia.
Qed.

Lemma concat_lookup w rs i j :
  rectangular w rs → j < w → concat rs !! (w * i + j) = rs !! i ≫= λ r, r !! j.
Proof.
  intros Hr Hj. revert i. induction Hr as [|r rs Hl Hr IH]; intros i; [done|]. destruct i as [|i]; simpl.
  - rewrite Nat.mul_0_r. simpl. by rewrite lookup_app_l by lia.
  - rewrite lookup_app_r by lia. rewrite <-IH. f_equal. lia.
Qed.

Lemma concat_slice w rs i r : rectangular w rs → rs !! i = Some r → take w (drop (w * i) (concat rs)) = r.
Proof.
  intros Hr. revert i. induction Hr as [|r0 rs Hl Hr IH]; intros [|i] Hi; try done; simpl in *.
  - injection Hi as ->. rewrite Nat.mul_0_r, drop_0. by rewrite take_app_length'.
  - rewrite drop_app_ge by lia. replace (w * S i - length r0) with (w * i) by lia. by apply IH.
Qed.

(** An array made from rows of one size, not zero, has these rows: as a
    whole, one at a time and cell by cell, and no others. *)
Theorem array2_rows_roundtrip w r rs :
  0 < w → rectangular w (r :: rs) →
  ∃ a, try_from_rows (r :: rs) = inl a ∧ row_size a = w ∧ rows a = Ok (r :: rs) ∧
    num_rows a = Ok (length (r :: rs)) ∧ (∀ i, get_row a i = Ok ((r :: rs) !! i)) ∧
    ∀ i j, get_cell a i j = Ok ((r :: rs) !! i ≫= λ r, r !! j).
Proof.
  intros Hw Hr. set (R := r :: rs) in *. exists {| row_size := w; cells := concat R |}.
  assert (length r = w) as Hl by (by apply Forall_cons in Hr as [? _]).
  assert ((w =? 0) = false) as Hw0 by (apply Nat.eqb_neq; lia).
  assert (num_rows {| row_size := w; cells := concat R |} = Ok (length R)) as Hn.
  { unfold num_rows, num_cells. cbn [row_size cells]. rewrite Hw0, (length_rectangular w) by done.
    rewrite Nat.mul_comm, Nat.div_mul by lia. done. }
  split_and!.
  - unfold try_from_rows. unfold R at 1. rewrite Hl, (collect_rows_ok w) by done. done.
  - done.
  - unfold rows, num_cells. cbn [row_size cells]. by rewrite Hw0, chunks_concat.
  - done.
  - intros i. unfold get_row. rewrite Hn. cbn [mbind result_bind row_size cells].
    destruct (Nat.leb_spec (length R) i) as [Hge|Hlt]; [by rewrite lookup_ge_None_2|].
    destruct (lookup_lt_is_Some_2 R i Hlt) as [x Hx]. unfold slice. rewrite (length_rectangular w) by done.
    replace (w * i <=? w * (i + 1)) with true by (symmetry; apply Nat.leb_le; nia).
    replace (w * (i + 1) <=? w * length R) with true by (symmetry; apply Nat.leb_le; nia).
    cbn [andb mbind result_bind]. replace (w * (i + 1) - w * i) with w by lia.
    by rewrite (concat_slice w R i x), Hx.
  - intros i j. unfold get_cell. rewrite Hn. cbn [mbind result_bind row_size cells].
    destruct (Nat.leb_spec (length R) i) as [Hge|Hlt]; cbn [orb]; [by rewrite lookup_ge_None_2|].
    destruct (lookup_lt_is_Some_2 R i Hlt) as [x Hx].
    assert (length x = w) as Hxl by (eapply Forall_lookup_1 in Hr; [|exact Hx]; done).
    destruct (Nat.leb_spec w j) as [Hjge|Hjlt].
    + rewrite Hx. simpl. by rewrite lookup_ge_None_2 by lia.
    + rewrite (concat_lookup w) by done. rewrite Hx. simpl.
      destruct (lookup_lt_is_Some_2 x j) as [y ->]; [lia|done].
Qed.

(** Rows of different sizes are an error that names the first row that differs
    from the first. *)
Theorem array2_rejects_ragged w rs1 r rs2 r0 :
  rectangular w (r0 :: rs1) → length r ≠ w →
  try_from_rows (r0 :: rs1 ++ r :: rs2) = inr (InconsistentRowSize (S (length rs1)) w (length r)).
Proof.
  intros Hr Hne. unfold try_from_rows. assert (length r0 = w) as -> by (by apply Forall_cons in Hr as [? _]).
  assert (∀ rs index elems, rectangular w rs →
    collect_rows w index elems (rs ++ r :: rs2) = inr (InconsistentRowSize (index + length rs) w (length r))) as Hc.
  { intros rs index elems Hrs. revert index elems. induction Hrs as [|r' rs Hl Hrs IH]; intros index elems; simpl.
    - apply Nat.eqb_neq in Hne. by rewrite Hne, Nat.add_0_r.
    - rewrite Hl, Nat.eqb_refl, IH. do 2 f_equal. lia. }
  change (r0 :: rs1 ++ r :: rs2) with ((r0 :: rs1) ++ r :: rs2). by rewrite Hc.
Qed.

(** An array of empty rows can be made, but counting, listing or indexing its
    rows panics. *)
Theorem array2_empty_rows n :
  ∃ a, try_from_rows (replicate (S n) []) = inl a ∧ num_rows a = Panic ∧ rows a = Panic ∧
    ∀ i, get_row a i = Panic.
Proof.
  exists {| row_size := 0; cells := [] |}. split_and!; try done. unfold try_from_rows. cbn [replicate].
  rewrite (collect_rows_ok 0); [|by apply (Forall_replicate _ (S n))]. do 2 f_equal.
  induction n as [|n IH]; [done|exact IH].
Qed.
End array2.

Lemma array2_rows_roundtrip_witness :
  ∃ a, try_from_rows [[1; 2]; [3; 4]] = inl a ∧ rows a = Ok [[1; 2]; [3; 4]] ∧ get_cell a 1 0 = Ok (Some 3).
Proof.
  destruct (array2_rows_roundtrip 2 [1; 2] [[3; 4]]) as (a & Ha & _ & Hr & _ & _ & Hc).
  - lia.
  - by repeat constructor.
  - exists a. split; [exact Ha|]. split; [exact Hr|]. exact (Hc 1 0).
Defined.
Lemma array2_rejects_ragged_witness :
  try_from_rows [[1; 2]; [3; 4]; [5]; [6]] = inr (InconsistentRowSize 2 2 1).
Proof. apply (array2_rejects_ragged 2 [[3; 4]] [5] [[6]] [1; 2]); [by repeat constructor|simpl; lia]. Defined.
