(* ===== verification/Tournament.v ===== *)
(** * Tournament: merging sorted iterators

    Models [tournament-kway]: a [k]-way merge by a tournament among the iterators.
    The results of the games form a binary tree stored level by level in a vector,
    the leaves first, the overall winner last; taking the winner's next element
    replays the games on its path to the root only.  The iterators are those of
    the [streaming_iterator] crate, through its [advance] and [get]. *)
From S2P Require Import Prelude Result.

Section tournament.
Context {T A : Type} (advance : T → T) (get : T → option A) (comparator : A → A → comparison).

Record StreamingTournament := {
  contestants : list T;
  tree : list (option nat);
}.
Implicit Types (cs : list T) (t : StreamingTournament) (p : option nat).

(** [from_iters]: every iterator is advanced to its first element, and the empty
    ones are dropped. *)
Definition from_iters (iters : list T) : StreamingTournament :=
  {| contestants := filter (λ i, is_Some (get i)) (advance <$> iters); tree := [] |}.

(** The element a contestant plays with. *)
Definition score cs p : option A := p ≫= λ i, cs !! i ≫= get.

Definition play_game cs (p0 p1 : option nat) : option nat :=
  match score cs p0, score cs p1 with
  | Some c0, Some c1 =>
      let game_result := comparator c0 c1 in
      if is_lt game_result ||
         (is_eq game_result && match p0, p1 with Some i, Some j => i <? j | None, Some _ => true | _, None => false end)
      then p0 else p1
  | None, None => None
  | Some _, None => p0
  | None, Some _ => p1
  end.

(** [(0..n).step_by(2)]. *)
Definition steps (n : nat) : list nat := (λ k, 2 * k) <$> seq 0 ((n + 1) / 2).

(** The games of the first round, then of the following ones: a level is played
    from the [games] entries of the tree at [pos]. *)
Definition build_leaves cs : list (option nat) :=
  (λ i, play_game cs (Some i) (Some (i + 1))) <$> steps (length cs).
Definition build_level cs (pos games : nat) (tr : list (option nat)) : result (list (option nat)) :=
  result_foldl (λ tr i,
    c0 ← expect (tr !! (pos + i));
    c1 ← (if games <=? i + 1 then Ok None else expect (tr !! (pos + i + 1)));
    Ok (tr ++ [play_game cs c0 c1])) tr (steps games).
Fixpoint build_rest (fuel : nat) cs (pos games : nat) (tr : list (option nat)) : result (list (option nat)) :=
  if 1 <? games then
    match fuel with
    | O => Panic
    | S fuel' => tr' ← build_level cs pos games tr; build_rest fuel' cs (pos + games) ((games + 1) / 2) tr'
    end
  else Ok tr.
(** The number of games more than halves with every level: the number of
    contestants bounds the number of levels. *)
Definition build_tree t : result StreamingTournament :=
  match contestants t with
  | [] => Ok t
  | cs => let leaves := tree t ++ build_leaves cs in
          tr ← build_rest (length leaves) cs 0 (length leaves) leaves;
          Ok {| contestants := cs; tree := tr |}
  end.

(** The games up the chain. *)
Fixpoint replay (fuel : nat) cs (pos games winner : nat) (tr : list (option nat)) : result (list (option nat)) :=
  if 1 <? games then
    match fuel with
    | O => Panic
    | S fuel' =>
        let winner := winner / 2 in
        let contestant := Nat.lxor winner 1 in
        c0 ← expect (tr !! (pos + winner));
        c1 ← (if games <=? contestant then Ok None else expect (tr !! (pos + contestant)));
        _ ← expect (tr !! (pos + games + winner / 2));
        replay fuel' cs (pos + games) ((games + 1) / 2) winner
          (<[pos + games + winner / 2 := play_game cs c0 c1]> tr)
    end
  else Ok tr.

Definition tournament_advance t : result StreamingTournament :=
  match tree t with
  | [] => build_tree t
  | tr =>
      match mjoin (last tr) with
      | None => Ok t
      | Some winner =>
          c ← expect (contestants t !! winner);
          let cs := <[winner := advance c]> (contestants t) in
          _ ← expect (tr !! (winner / 2));
          let leaves := <[winner / 2 := play_game cs (Some winner) (Some (Nat.lxor winner 1))]> tr in
          let games := (length cs + 1) / 2 in
          tr' ← replay games cs 0 games winner leaves;
          Ok {| contestants := cs; tree := tr' |}
      end
  end.

Definition tournament_get t : result (option A) :=
  match mjoin (last (tree t)) with
  | None => Ok None
  | Some i => c ← expect (contestants t !! i); Ok (get c)
  end.

(** [StreamingIterator::next] until it returns [None]. *)
Fixpoint drain (fuel : nat) t : result (list A) :=
  match fuel with
  | O => Panic
  | S fuel' =>
      t' ← tournament_advance t;
      a ← tournament_get t';
      match a with None => Ok [] | Some a => rest ← drain fuel' t'; Ok (a :: rest) end
  end.
End tournament.
