(* ===== verification/TournamentProps.v ===== *)
(** * TournamentProps: the tournament is a merge

    The tree always holds the results of all the games among the current
    elements; its root is therefore a contestant with a least element.  Draining
    a tournament of sorted iterators ends after as many elements as they have
    together and yields all of them in order. *)
From S2P Require Import Prelude Result Tournament.

(** The parity neighbour of an index. *)
Lemma lxor_even k : Nat.lxor (2 * k) 1 = 2 * k + 1.
Proof.
  apply Nat.bits_inj. intros [|n]; rewrite Nat.lxor_spec.
  - by rewrite Nat.testbit_even_0, Nat.testbit_odd_0.
  - change (Nat.testbit 1 (S n)) with (Nat.testbit 0 n).
    rewrite Nat.testbit_even_succ, Nat.testbit_odd_succ, Nat.bits_0 by lia. apply xorb_false_r.
Qed.
Lemma lxor_1 i : Nat.lxor i 1 = if decide (i mod 2 = 0) then i + 1 else i - 1.
Proof.
  pose proof (Nat.div_mod_eq i 2) as Hdiv. pose proof (Nat.mod_upper_bound i 2 ltac:(lia)) as Hmod.
  case_decide as Hm.
  - assert (i = 2 * (i / 2)) as -> by lia. by rewrite lxor_even.
  - assert (i = 2 * (i / 2) + 1) as -> by lia.
    rewrite <-lxor_even, Nat.lxor_assoc, Nat.lxor_nilpotent, Nat.lxor_0_r, lxor_even. lia.
Qed.

Section games.
Context {T A : Type} (advance : T → T) (get : T → option A) (c : A → A → comparison).
Context (c_antisym : ∀ x y, c y x = CompOpp (c x y)).
Context (c_trans : ∀ x y z, c x y ≠ Gt → c y z ≠ Gt → c x z ≠ Gt).
Implicit Types (cs : list T) (p q : option nat) (L : list (option nat)).

Abbreviation score := (score get).
Abbreviation play := (play_game get c).

(** ** Games *)
Lemma play_cases cs p q : play cs p q = p ∨ play cs p q = q ∨ play cs p q = None.
Proof. unfold play_game. destruct (score cs p), (score cs q); auto. destruct (_ || _); auto. Qed.

Lemma play_comm cs p q : play cs p q = play cs q p.
Proof using c_antisym.
  unfold play_game. destruct (score cs p) as [a|] eqn:Ep; destruct (score cs q) as [b|] eqn:Eq; try done.
  rewrite (c_antisym a b). destruct p as [i|]; [|done]. destruct q as [j|]; [|done].
  destruct (c a b); simpl; try done.
  destruct (Nat.ltb_spec i j), (Nat.ltb_spec j i); try done; [lia|]. f_equal. lia.
Qed.

Lemma play_no_score cs p q : score cs q = None → play cs p q = play cs p None.
Proof. intros Hq. unfold play_game. rewrite Hq. simpl. done. Qed.

Lemma play_ext cs cs' p q :
  score cs' p = score cs p → score cs' q = score cs q → play cs' p q = play cs p q.
Proof. intros Hp Hq. unfold play_game. by rewrite Hp, Hq. Qed.

(** The winner of a game has an element no greater than those of both players. *)
Definition beats cs p q : Prop :=
  ∀ b, score cs q = Some b → ∃ a, score cs p = Some a ∧ c a b ≠ Gt.

Lemma beats_refl cs p : beats cs p p.
Proof using c_antisym.
  intros b Hb. exists b. split; [done|]. intros Hg. pose proof (c_antisym b b) as Hc. by rewrite Hg in Hc.
Qed.
Lemma beats_trans cs p q r : beats cs p q → beats cs q r → beats cs p r.
Proof using c_trans.
  intros Hpq Hqr b Hb. destruct (Hqr b Hb) as (a & Ha & Hab). destruct (Hpq a Ha) as (a' & Ha' & Haa).
  exists a'. split; [done|]. by eapply c_trans.
Qed.
Lemma play_beats cs p q : beats cs (play cs p q) p ∧ beats cs (play cs p q) q.
Proof using c_antisym.
  unfold play_game. destruct (score cs p) as [a|] eqn:Ep; destruct (score cs q) as [b|] eqn:Eq.
  - destruct (c a b) eqn:E; simpl.
    + assert (c b a ≠ Gt) by (rewrite c_antisym, E; done).
      destruct (match p with Some i => _ | None => _ end); (split; [|]);
        try apply beats_refl; intros x Hx; simplify_eq; eexists; (split; [done|]); congruence.
    + split; [apply beats_refl|]. intros x Hx. simplify_eq. exists a. split; [done|congruence].
    + split; [|apply beats_refl]. intros x Hx. simplify_eq. exists b. split; [done|].
      rewrite c_antisym, E. done.
  - split; [apply beats_refl|]. intros x Hx. congruence.
  - split; [|apply beats_refl]. intros x Hx. congruence.
  - split; intros x Hx; congruence.
Qed.

(** ** Levels *)
Definition entry L (i : nat) : option nat := mjoin (L !! i).
Definition next_level cs L : list (option nat) :=
  (λ i, play cs (entry L i) (entry L (i + 1))) <$> steps (length L).

Lemma length_steps n : length (steps n) = (n + 1) / 2.
Proof. unfold steps. by rewrite length_fmap, length_seq. Qed.
Lemma length_next_level cs L : length (next_level cs L) = (length L + 1) / 2.
Proof. unfold next_level. by rewrite length_fmap, length_steps. Qed.

Lemma next_level_lookup cs L k :
  k < (length L + 1) / 2 →
  next_level cs L !! k = Some (play cs (entry L (2 * k)) (entry L (2 * k + 1))).
Proof.
  intros Hk. unfold next_level, steps. rewrite !list_lookup_fmap, lookup_seq_lt by done. done.
Qed.
Lemma next_level_entry cs L k :
  entry (next_level cs L) k = play cs (entry L (2 * k)) (entry L (2 * k + 1)).
Proof.
  destruct (decide (k < (length L + 1) / 2)) as [Hk|Hk].
  - unfold entry at 1. by rewrite next_level_lookup.
  - pose proof (Nat.div_mod_eq (length L + 1) 2). pose proof (Nat.mod_upper_bound (length L + 1) 2 ltac:(lia)).
    unfold entry. rewrite (lookup_ge_None_2 (next_level cs L)) by (rewrite length_next_level; lia).
    rewrite !lookup_ge_None_2 by lia. done.
Qed.

(** A contestant whose element changes: it is in one entry of a level at most,
    and changes one entry of the next. *)
Definition only_at (w : nat) (i : nat) L : Prop := ∀ j, j ≠ i → entry L j ≠ Some w.

Lemma only_at_next cs w i L : only_at w i L → only_at w (i / 2) (next_level cs L).
Proof.
  intros Ho k Hk. rewrite next_level_entry.
  assert (2 * k ≠ i ∧ 2 * k + 1 ≠ i) as [H0 H1].
  { pose proof (Nat.div_mod_eq i 2). pose proof (Nat.mod_upper_bound i 2 ltac:(lia)). lia. }
  pose proof (Ho _ H0). pose proof (Ho _ H1).
  destruct (play_cases cs (entry L (2 * k)) (entry L (2 * k + 1))) as [->|[->| ->]]; done.
Qed.

Lemma entry_insert L i x j : i < length L → entry (<[i := x]> L) j = if decide (j = i) then x else entry L j.
Proof.
  intros Hi. unfold entry. case_decide as Hj; [subst; by rewrite list_lookup_insert_eq|].
  by rewrite list_lookup_insert_ne.
Qed.

Lemma next_level_insert cs cs' w i x L :
  i < length L → only_at w i L → (∀ p, p ≠ Some w → score cs' p = score cs p) →
  next_level cs' (<[i := x]> L) =
  <[i / 2 := play cs' x (entry L (Nat.lxor i 1))]> (next_level cs L).
Proof using c_antisym.
  intros Hi Ho Hsc. pose proof (Nat.div_mod_eq i 2) as Hdiv. pose proof (Nat.mod_upper_bound i 2 ltac:(lia)) as Hmod.
  pose proof (Nat.div_mod_eq (length L + 1) 2). pose proof (Nat.mod_upper_bound (length L + 1) 2 ltac:(lia)).
  pose proof (lxor_1 i) as Hx.
  apply list_eq. intros k. destruct (decide (k < (length L + 1) / 2)) as [Hk|Hk].
  2:{ rewrite !lookup_ge_None_2; [done|..]; rewrite ?length_insert, length_next_level, ?length_insert; lia. }
  rewrite next_level_lookup by (by rewrite length_insert). rewrite !entry_insert by done.
  destruct (decide (k = i / 2)) as [->|Hne].
  - rewrite list_lookup_insert_eq by (by rewrite length_next_level). f_equal. rewrite Hx.
    destruct (decide (i mod 2 = 0)).
    + rewrite decide_True, decide_False by lia. do 2 f_equal. lia.
    + rewrite decide_False, decide_True by lia. rewrite play_comm. do 2 f_equal. lia.
  - rewrite list_lookup_insert_ne by done. rewrite next_level_lookup by done. f_equal.
    rewrite !decide_False by lia. apply play_ext; apply Hsc, Ho; lia.
Qed.

(** ** The tree *)
Fixpoint tower (fuel : nat) cs L : list (option nat) :=
  if 1 <? length L then
    match fuel with O => L | S fuel' => L ++ tower fuel' cs (next_level cs L) end
  else L.
Definition base (n : nat) : list (option nat) := Some <$> seq 0 n.
Definition tree_of cs : list (option nat) :=
  tower ((length cs + 1) / 2) cs (next_level cs (base (length cs))).

Lemma half_lt n : 1 < n → (n + 1) / 2 < n.
Proof. intros Hn. apply Nat.Div0.div_lt_upper_bound. lia. Qed.
Lemma half_pos n : 0 < n → 0 < (n + 1) / 2.
Proof. intros Hn. apply Nat.div_str_pos. lia. Qed.
Lemma half_index n i : i < n → i / 2 < (n + 1) / 2.
Proof.
  intros Hi. pose proof (Nat.div_mod_eq i 2). pose proof (Nat.mod_upper_bound i 2 ltac:(lia)).
  pose proof (Nat.div_mod_eq (n + 1) 2). pose proof (Nat.mod_upper_bound (n + 1) 2 ltac:(lia)). lia.
Qed.

Lemma base_entry n i : entry (base n) i = if decide (i < n) then Some i else None.
Proof.
  unfold entry, base. rewrite list_lookup_fmap. case_decide as Hi.
  - by rewrite lookup_seq_lt.
  - by rewrite lookup_seq_ge by lia.
Qed.
Lemma score_ge cs i : length cs ≤ i → score cs (Some i) = None.
Proof. intros Hi. unfold Tournament.score. simpl. by rewrite lookup_ge_None_2. Qed.

Lemma play_base cs p i : play cs p (entry (base (length cs)) i) = play cs p (Some i).
Proof.
  rewrite base_entry. case_decide; [done|]. by rewrite (play_no_score cs p (Some i)) by (apply score_ge; lia).
Qed.

Lemma build_leaves_ok cs : build_leaves get c cs = next_level cs (base (length cs)).
Proof.
  unfold build_leaves, next_level. replace (length (base (length cs))) with (length cs)
    by (unfold base; by rewrite length_fmap, length_seq).
  unfold steps. rewrite <-!list_fmap_compose. apply list_fmap_ext. intros j k Hk. simpl.
  apply lookup_seq in Hk as [-> Hk]. rewrite play_base, base_entry, decide_True; [done|].
  pose proof (Nat.div_mod_eq (length cs + 1) 2). pose proof (Nat.mod_upper_bound (length cs + 1) 2 ltac:(lia)). lia.
Qed.

Lemma steps_lt n i : i ∈ steps n → i < n.
Proof.
  intros (k & -> & Hk)%list_elem_of_fmap. apply elem_of_seq in Hk.
  pose proof (Nat.div_mod_eq (n + 1) 2). pose proof (Nat.mod_upper_bound (n + 1) 2 ltac:(lia)). lia.
Qed.

(** One level, played from the entries of the previous one. *)
Lemma play_games_ok cs pre L idxs acc :
  Forall (λ i, i < length L) idxs →
  result_foldl (λ tr i,
    c0 ← expect (tr !! (length pre + i));
    c1 ← (if length L <=? i + 1 then Ok None else expect (tr !! (length pre + i + 1)));
    Ok (tr ++ [play cs c0 c1])) ((pre ++ L) ++ acc) idxs =
  Ok ((pre ++ L) ++ acc ++ ((λ i, play cs (entry L i) (entry L (i + 1))) <$> idxs)).
Proof.
  revert acc. induction idxs as [|i idxs IH]; intros acc Hf; [csimpl; by rewrite app_nil_r|].
  apply Forall_cons in Hf as [Hi Hf]. cbn [result_foldl].
  assert (∀ j, j < length L → ((pre ++ L) ++ acc) !! (length pre + j) = L !! j) as Hlk.
  { intros j Hj. rewrite <-app_assoc, lookup_app_r by lia.
    replace (length pre + j - length pre) with j by lia. by rewrite lookup_app_l. }
  rewrite Hlk by done. destruct (lookup_lt_is_Some_2 L i Hi) as [x Hx]. rewrite Hx. cbn [expect mbind result_bind].
  assert ((if length L <=? i + 1 then Ok None else expect (((pre ++ L) ++ acc) !! (length pre + i + 1)))
    = Ok (entry L (i + 1))) as ->.
  { unfold entry. destruct (Nat.leb_spec (length L) (i + 1)) as [Hge|Hlt]; [by rewrite lookup_ge_None_2|].
    rewrite <-Nat.add_assoc, Hlk by done. by destruct (lookup_lt_is_Some_2 L (i + 1) Hlt) as [y ->]. }
  cbn [mbind result_bind]. rewrite <-(app_assoc (pre ++ L)), IH by done. rewrite fmap_cons, <-!app_assoc.
  simpl. do 5 f_equal. unfold entry. by rewrite Hx.
Qed.

Lemma build_level_ok cs pre L :
  build_level get c cs (length pre) (length L) (pre ++ L) = Ok (pre ++ L ++ next_level cs L).
Proof.
  unfold build_level. rewrite <-(app_nil_r (pre ++ L)) at 1. rewrite play_games_ok; [by rewrite <-app_assoc|].
  apply Forall_forall. intros. by apply steps_lt.
Qed.

Lemma build_rest_ok fuel cs pre L :
  length L ≤ fuel →
  build_rest get c fuel cs (length pre) (length L) (pre ++ L) = Ok (pre ++ tower fuel cs L).
Proof.
  revert pre L. induction fuel as [|fuel IH]; intros pre L Hl; cbn [build_rest tower];
    destruct (Nat.ltb_spec 1 (length L)) as [H1|H1]; try done; [lia|].
  rewrite build_level_ok. cbn [mbind result_bind]. rewrite app_assoc, <-length_app, <-(length_next_level cs).
  rewrite IH by (rewrite length_next_level; pose proof (half_lt _ H1); lia). by rewrite <-app_assoc.
Qed.

(** Replaying the games of a contestant whose element changed. *)
Lemma replay_tree_ok fuel cs cs' w w0 x pre L :
  length L ≤ fuel → w0 / 2 < length L → only_at w (w0 / 2) L →
  (∀ p, p ≠ Some w → score cs' p = score cs p) →
  replay get c fuel cs' (length pre) (length L) w0 (pre ++ <[w0 / 2 := x]> (tower fuel cs L))
  = Ok (pre ++ tower fuel cs' (<[w0 / 2 := x]> L)).
Proof using c_antisym.
  intros Hl Hi Ho Hsc. revert pre L w0 x Hl Hi Ho. induction fuel as [|fuel IH]; intros pre L w0 x Hl Hi Ho.
  { lia. }
  cbn [replay tower]. rewrite length_insert. destruct (Nat.ltb_spec 1 (length L)) as [H1|H1]; [|done].
  set (i := w0 / 2) in *. set (N := next_level cs L).
  assert (length (<[i := x]> L) = length L) as HlL by apply length_insert.
  rewrite insert_app_l by done.
  assert (∀ j, j < length L → (pre ++ <[i := x]> L ++ tower fuel cs N) !! (length pre + j) = <[i := x]> L !! j) as Hlk.
  { intros j Hj. rewrite lookup_app_r by lia. replace (length pre + j - length pre) with j by lia.
    rewrite lookup_app_l by lia. done. }
  rewrite (Hlk i Hi), list_lookup_insert_eq by done. cbn [expect mbind result_bind].
  set (y := play cs' x (entry L (Nat.lxor i 1))).
  assert (Nat.lxor i 1 ≠ i) as Hxi.
  { rewrite lxor_1. pose proof (Nat.div_mod_eq i 2). case_decide; lia. }
  assert ((if length L <=? Nat.lxor i 1 then Ok None
           else expect ((pre ++ <[i := x]> L ++ tower fuel cs N) !! (length pre + Nat.lxor i 1)))
    = Ok (entry L (Nat.lxor i 1))) as ->.
  { unfold entry. destruct (Nat.leb_spec (length L) (Nat.lxor i 1)) as [Hge|Hlt]; [by rewrite lookup_ge_None_2|].
    rewrite Hlk, list_lookup_insert_ne by done. by destruct (lookup_lt_is_Some_2 L (Nat.lxor i 1) Hlt) as [z ->]. }
  cbn [mbind result_bind]. fold y.
  assert (length N = (length L + 1) / 2) as HlN by apply length_next_level.
  pose proof (half_index _ _ Hi) as HiN. rewrite <-HlN in HiN.
  assert (length N ≤ length (tower fuel cs N)) as Htow.
  { destruct fuel; cbn [tower]; destruct (1 <? length N); rewrite ?length_app; lia. }
  assert (length pre + length L + i / 2 = length (pre ++ <[i := x]> L) + i / 2) as Hpos
    by (rewrite length_app; lia).
  rewrite Hpos, app_assoc. destruct (lookup_lt_is_Some_2 ((pre ++ <[i := x]> L) ++ tower fuel cs N)
    (length (pre ++ <[i := x]> L) + i / 2)) as [z ->]; [rewrite !length_app; lia|]. cbn [expect mbind result_bind].
  rewrite insert_app_r. rewrite <-HlN.
  replace (length pre + length L) with (length (pre ++ <[i := x]> L)) by (rewrite length_app; lia).
  rewrite (IH (pre ++ <[i := x]> L) N i y).
  - rewrite <-app_assoc. do 3 f_equal. unfold N, y. by rewrite (next_level_insert cs cs' w).
  - rewrite HlN. pose proof (half_lt _ H1). lia.
  - done.
  - by apply only_at_next.
Qed.

(** ** The root *)

(** An entry that is a contestant with an element, or none. *)
Definition playing cs p : Prop := p = None ∨ is_Some (score cs p).

Lemma play_playing cs p q : playing cs (play cs p q).
Proof.
  unfold playing, play_game. destruct (score cs p) eqn:Ep; destruct (score cs q) eqn:Eq;
    [destruct (_ || _)|..]; first [by left|right; by eexists].
Qed.

Lemma next_level_beats cs L j : beats cs (entry (next_level cs L) (j / 2)) (entry L j).
Proof using c_antisym.
  pose proof (Nat.div_mod_eq j 2). pose proof (Nat.mod_upper_bound j 2 ltac:(lia)).
  assert (∃ k, j / 2 = k ∧ (j = 2 * k ∨ j = 2 * k + 1)) as (k & -> & [-> | ->])
    by (exists (j / 2); split; [done|lia]); rewrite next_level_entry; apply play_beats.
Qed.

Lemma root_ok fuel cs L :
  length L ≤ fuel → L ≠ [] → (∀ j, playing cs (entry L j)) →
  ∃ r, last (tower fuel cs L) = Some r ∧ playing cs r ∧ ∀ j, beats cs r (entry L j).
Proof using c_antisym c_trans.
  revert L. induction fuel as [|fuel IH]; intros L Hl Hne Hp; [destruct L; simpl in Hl; [done|lia]|].
  cbn [tower]. destruct (Nat.ltb_spec 1 (length L)) as [H1|H1].
  - set (N := next_level cs L). assert (length N = (length L + 1) / 2) as HlN by apply length_next_level.
    destruct (IH N) as (r & Hr & Hpr & Hb).
    + pose proof (half_lt _ H1). lia.
    + pose proof (half_pos (length L) ltac:(lia)). intros HN. assert (length N = 0) by (by rewrite HN). lia.
    + intros j. unfold N. rewrite next_level_entry. apply play_playing.
    + exists r. rewrite last_app, Hr. split_and!; [done|done|]. intros j.
      eapply beats_trans; [apply (Hb (j / 2))|]. apply next_level_beats.
  - destruct L as [|r [|]]; [done| |simpl in H1; lia]. exists r. split_and!; [done|apply (Hp 0)|].
    intros [|j]; [apply beats_refl|]. unfold entry. rewrite lookup_ge_None_2 by (simpl; lia). by intros b.
Qed.

Lemma tree_root cs :
  cs ≠ [] → ∃ r, last (tree_of cs) = Some r ∧ playing cs r ∧ ∀ i, beats cs r (Some i).
Proof using c_antisym c_trans.
  intros Hne. set (L := next_level cs (base (length cs))).
  assert (length L = (length cs + 1) / 2) as HlL.
  { unfold L. rewrite length_next_level. unfold base. by rewrite length_fmap, length_seq. }
  destruct (root_ok (length L) cs L) as (r & Hr & Hp & Hb).
  - done.
  - pose proof (half_pos (length cs) ltac:(destruct cs; simpl; [done|lia])). intros HN. assert (length L = 0) by (by rewrite HN). lia.
  - intros j. unfold L. rewrite next_level_entry. apply play_playing.
  - exists r. unfold tree_of. rewrite <-HlL. split_and!; [done|done|]. intros i.
    assert (beats cs r (entry (base (length cs)) i)) as Hi
      by (eapply beats_trans; [apply (Hb (i / 2))|apply next_level_beats]).
    rewrite base_entry in Hi. case_decide; [done|]. intros b. by rewrite score_ge by lia.
Qed.
End games.

(** ** Merging *)

(** What [streaming_iterator] promises of an iterator over the elements
    [upcoming]: [advance] moves to the next of them, which [get] then returns. *)
Class StreamingIterator {T A} (advance : T → T) (get : T → option A) (upcoming : T → list A) := {
  si_get t : get (advance t) = head (upcoming t);
  si_upcoming t : upcoming (advance t) = tail (upcoming t);
}.

Section merge.
Context {T A : Type} (advance : T → T) (get : T → option A) (upcoming : T → list A).
Context `{!StreamingIterator advance get upcoming}.
Context (c : A → A → comparison).
Context (c_antisym : ∀ x y, c y x = CompOpp (c x y)).
Context (c_trans : ∀ x y z, c x y ≠ Gt → c y z ≠ Gt → c x z ≠ Gt).
Implicit Types (cs : list T) (i : T) (t : StreamingTournament (T:=T)).

Abbreviation sorted := (StronglySorted (λ x y, c x y ≠ Gt)).

(** An iterator that has been advanced, and the elements it has left. *)
Definition started i : Prop := get i = None → upcoming i = [].
Definition left i : list A := option_list (get i) ++ upcoming i.

Lemma advance_left i : left (advance i) = upcoming i ∧ started (advance i).
Proof using All.
  unfold left, started. rewrite si_get, si_upcoming. by destruct (upcoming i).
Qed.

Definition ready t : Prop := tree t = tree_of get c (contestants t) ∧ Forall started (contestants t).

(** [get] returns an element not greater than any that is left, or there are none. *)
Lemma get_ok t :
  ready t →
  match mjoin (last (tree t)) with
  | Some w => ∃ i a, contestants t !! w = Some i ∧ get i = Some a ∧ tournament_get get t = Ok (Some a) ∧
      ∀ j b, j ∈ contestants t → get j = Some b → c a b ≠ Gt
  | None => tournament_get get t = Ok None ∧ concat (left <$> contestants t) = []
  end.
Proof using All.
  intros [Ht Hs]. unfold tournament_get. rewrite Ht. destruct (contestants t) as [|c0 cs0] eqn:Ec; [done|].
  rewrite <-Ec in *. clear c0 cs0 Ec.
  assert (contestants t ≠ [] ∨ contestants t = []) as [Hne|Hnil] by (destruct (contestants t); auto).
  2:{ rewrite Hnil. done. }
  destruct (tree_root get c c_antisym c_trans (contestants t) Hne) as (r & -> & Hp & Hb). simpl.
  destruct r as [w|].
  - destruct Hp as [|[a Ha]]; [done|]. pose proof Ha as Ha'. unfold score in Ha'. simpl in Ha'.
    destruct (contestants t !! w) as [i|] eqn:Ei; [|done]. simpl in *. exists i, a. split_and!; try done.
    { by rewrite Ha'. }
    intros j b Hj Hjb. apply list_elem_of_lookup in Hj as [k Hk].
    destruct (Hb k b) as (a' & Haa & Hab); [unfold score; simpl; by rewrite Hk|].
    unfold score in Haa. simpl in Haa. rewrite Ei in Haa. simpl in Haa. congruence.
  - split; [done|].
    assert (∀ i, i ∈ contestants t → left i = []) as Hnil.
    { intros i Hi. rewrite Forall_forall in Hs. specialize (Hs i Hi). apply list_elem_of_lookup in Hi as [k Hk].
      unfold left. destruct (get i) as [b|] eqn:E; [|by rewrite Hs].
      destruct (Hb k b) as (? & ? & _); [unfold score; simpl; by rewrite Hk|done]. }
    clear -Hnil. induction (contestants t) as [|i cs IH]; [done|]. csimpl.
    rewrite (Hnil i), IH; [done| |apply elem_of_here]. intros; apply Hnil. by apply elem_of_further.
Qed.

(** Advancing a tournament takes the current element from its iterator. *)
Lemma advance_ok t w i a :
  ready t → mjoin (last (tree t)) = Some w → contestants t !! w = Some i → get i = Some a →
  ∃ t', tournament_advance advance get c t = Ok t' ∧ ready t' ∧ contestants t' = <[w := advance i]> (contestants t).
Proof using All.
  intros [Ht Hs] Hw Hi Ha. unfold tournament_advance. destruct (tree t) as [|x tr] eqn:Etr; [done|].
  rewrite Hw, Hi. cbn [expect mbind result_bind]. set (cs := contestants t) in *.
  set (cs' := <[w := advance i]> cs). pose proof (lookup_lt_Some _ _ _ Hi) as Hlt.
  assert (length cs' = length cs) as Hl by apply length_insert.
  set (L := next_level get c cs (base (length cs))).
  assert (length (base (length cs)) = length cs) as HlB by (unfold base; by rewrite length_fmap, length_seq).
  assert (length L = (length cs + 1) / 2) as HlL by (unfold L; by rewrite length_next_level, HlB).
  assert (∀ p, p ≠ Some w → score get cs' p = score get cs p) as Hsc.
  { intros [k|] Hk; [|done]. unfold score. simpl. unfold cs'. by rewrite list_lookup_insert_ne by congruence. }
  assert (only_at w w (base (length cs))) as Ho.
  { intros j Hj. rewrite base_entry. case_decide; congruence. }
  pose proof (half_index _ _ Hlt) as Hh. rewrite <-HlL in Hh. rewrite Ht.
  assert (length L ≤ length (tree_of get c cs)) as HlT.
  { unfold tree_of. rewrite <-HlL. fold L. generalize (length L) at 2. intros [|n]; cbn [tower];
      destruct (1 <? length L); rewrite ?length_app; lia. }
  destruct (lookup_lt_is_Some_2 (tree_of get c cs) (w / 2)) as [z Hz]; [lia|]. rewrite Hz. cbn [expect mbind result_bind].
  rewrite Hl, <-HlL. unfold tree_of at 1. rewrite <-HlL. fold L.
  pose proof (replay_tree_ok get c c_antisym (length L) cs cs' w w
    (play_game get c cs' (Some w) (Some (Nat.lxor w 1))) [] L) as Hr. cbn [length app] in Hr.
  rewrite Hr; [|done|done|by apply only_at_next|done]. cbn [mbind result_bind].
  eexists. split; [reflexivity|]. split; [|done]. split; cbn [tree contestants].
  - unfold tree_of. rewrite Hl, <-HlL. f_equal.
    rewrite <-(play_base get c cs'), Hl. unfold L. rewrite <-(next_level_insert get c c_antisym cs cs' w) by (done || lia).
    f_equal. apply list_insert_id. unfold base. by rewrite list_lookup_fmap, lookup_seq_lt.
  - apply Forall_insert; [done|]. apply advance_left.
Qed.

(** The elements left when the first of an iterator is taken. *)
Lemma concat_left_insert cs w i i' a :
  cs !! w = Some i → left i = a :: left i' →
  concat (left <$> cs) ≡ₚ a :: concat (left <$> <[w := i']> cs).
Proof.
  revert w. induction cs as [|i0 cs IH]; intros [|w] Hw Hl; try done; simpl in Hw; csimpl.
  - injection Hw as ->. by rewrite Hl.
  - rewrite (IH w Hw Hl). symmetry. apply Permutation_middle.
Qed.

Lemma least_of_all cs a :
  Forall (λ i, sorted (left i)) cs → Forall started cs →
  (∀ i b, i ∈ cs → get i = Some b → c a b ≠ Gt) → Forall (λ b, c a b ≠ Gt) (concat (left <$> cs)).
Proof using c_trans.
  intros Hs Hst Ha. induction cs as [|i cs IH]; [constructor|]. csimpl.
  apply Forall_cons in Hs as [Hi Hs]. apply Forall_cons in Hst as [Hsti Hst]. apply Forall_app. split.
  - specialize (Ha i). unfold left in *. destruct (get i) as [b|] eqn:E; simpl in *; [|by rewrite Hsti].
    apply StronglySorted_inv in Hi as [_ Hb]. specialize (Ha b (elem_of_here _ _) eq_refl).
    constructor; [done|]. eapply Forall_impl; [exact Hb|]. intros x Hx. by eapply c_trans.
  - apply IH; [done|done|]. intros j b Hj. apply Ha. by apply elem_of_further.
Qed.

(** From a tournament that is ready: its current element and the rest. *)
Lemma drain_ready n t :
  ready t → Forall (λ i, sorted (left i)) (contestants t) → length (concat (left <$> contestants t)) = n →
  ∃ l, (a ← tournament_get get t;
        match a with None => Ok [] | Some a => rest ← drain advance get c n t; Ok (a :: rest) end) = Ok l ∧
    l ≡ₚ concat (left <$> contestants t) ∧ sorted l.
Proof using All.
  revert t. induction n as [|n IH]; intros t Hr Hsort Hn; pose proof (get_ok t Hr) as Hg;
    destruct (mjoin (last (tree t))) as [w|] eqn:Ew.
  - destruct Hg as (i & a & Hi & Ha & _). exfalso. apply nil_length_inv in Hn.
    assert (a ∈ concat (left <$> contestants t)) as Hin; [|rewrite Hn in Hin; by apply elem_of_nil in Hin].
    apply list_elem_of_In, in_concat. exists (left i). split; apply list_elem_of_In.
    + apply list_elem_of_fmap. exists i. split; [done|]. by eapply list_elem_of_lookup_2.
    + unfold left. rewrite Ha. simpl. apply elem_of_here.
  - destruct Hg as [-> ->]. exists []. split_and!; [done|done|constructor].
  - destruct Hg as (i & a & Hi & Ha & Hget & Hmin). rewrite Hget. cbn [mbind result_bind drain].
    destruct (advance_ok t w i a Hr Ew Hi Ha) as (t' & -> & Hr' & Hc'). cbn [mbind result_bind].
    destruct (advance_left i) as [Hli Hsti].
    assert (left i = a :: left (advance i)) as Hleft by (rewrite Hli; unfold left; by rewrite Ha).
    pose proof (concat_left_insert _ _ _ _ _ Hi Hleft) as Hp. rewrite <-Hc' in Hp.
    pose proof (Forall_lookup_1 _ _ w i Hsort Hi) as Hsi. cbv beta in Hsi. rewrite Hleft in Hsi.
    apply StronglySorted_inv in Hsi as [Hsi Hia].
    assert (Forall (λ i, sorted (left i)) (contestants t')) as Hsort' by (rewrite Hc'; by apply Forall_insert).
    destruct (IH t' Hr' Hsort') as (l & Hl & Hlp & Hls).
    { rewrite Hp in Hn. simpl in Hn. lia. }
    exists (a :: l). split_and!.
    + by rewrite Hl.
    + by rewrite Hp, Hlp.
    + constructor; [done|]. rewrite Hlp.
      pose proof (least_of_all (contestants t) a Hsort (proj2 Hr) Hmin) as Hall. rewrite Hp in Hall.
      by apply Forall_cons in Hall as [_ ?].
  - destruct Hg as [_ Hg]. by rewrite Hg in Hn.
Qed.

(** A tournament before the first [advance]. *)
Lemma build_ready t : tree t = [] → Forall started (contestants t) →
  ∃ t', tournament_advance advance get c t = Ok t' ∧ ready t' ∧ contestants t' = contestants t.
Proof.
  intros Ht Hs. unfold tournament_advance, build_tree. rewrite Ht.
  destruct (contestants t) as [|i cs] eqn:Ec.
  { exists t. split; [done|]. split; [|done]. split; rewrite ?Ec; [by rewrite Ht|constructor]. }
  rewrite <-Ec in *. rewrite build_leaves_ok. cbn [app].
  set (L := next_level get c (contestants t) (base (length (contestants t)))).
  assert (length L = (length (contestants t) + 1) / 2) as HlL.
  { unfold L. rewrite length_next_level. unfold base. by rewrite length_fmap, length_seq. }
  pose proof (build_rest_ok get c (length L) (contestants t) [] L ltac:(done)) as Hb. cbn [length app] in Hb.
  rewrite Hb. cbn [mbind result_bind]. eexists. split; [reflexivity|]. split; [|done]. split; [|done].
  cbn [tree contestants]. unfold tree_of. by rewrite <-HlL.
Qed.

Lemma from_iters_left (iters : list T) :
  concat (left <$> contestants (from_iters advance get iters)) = concat (upcoming <$> iters) ∧
  Forall started (contestants (from_iters advance get iters)) ∧
  (Forall (λ i, sorted (upcoming i)) iters →
   Forall (λ i, sorted (left i)) (contestants (from_iters advance get iters))).
Proof using All.
  unfold from_iters. cbn [contestants]. induction iters as [|i iters (IH1 & IH2 & IH3)]; [by repeat constructor|].
  destruct (advance_left i) as [Hl Hst]. csimpl. rewrite filter_cons. case_decide as Hd.
  - csimpl. rewrite IH1, Hl. split_and!; [done|by constructor|]. intros [Hi Hs]%Forall_cons.
    constructor; [by rewrite Hl|by apply IH3].
  - assert (upcoming i = []) as ->.
    { destruct (upcoming i) as [|x l] eqn:E; [done|]. exfalso. apply Hd. rewrite si_get, E. by eexists. }
    split_and!; [done|done|]. intros [_ Hs]%Forall_cons. by apply IH3.
Qed.

Lemma drain_merges (iters : list T) :
  Forall (λ i, sorted (upcoming i)) iters →
  ∃ l, drain advance get c (S (length (concat (upcoming <$> iters)))) (from_iters advance get iters) = Ok l ∧
    l ≡ₚ concat (upcoming <$> iters) ∧ sorted l.
Proof using All.
  intros Hs. destruct (from_iters_left iters) as (Hl & Hst & Hsort).
  destruct (build_ready (from_iters advance get iters) eq_refl Hst) as (t & Ht & Hr & Hc).
  destruct (drain_ready (length (concat (upcoming <$> iters))) t Hr) as (l & Hd & Hp & Hls).
  - rewrite Hc. by apply Hsort.
  - by rewrite Hc, Hl.
  - exists l. cbn [drain]. rewrite Ht. cbn [mbind result_bind]. rewrite Hd. rewrite Hc, Hl in Hp. by split_and!.
Qed.

(** A tournament as an iterator over what [drain] returns; at the end it stays there. *)
Definition yields t (l : list A) : Prop :=
  (ready t ∨ (tree t = [] ∧ Forall started (contestants t))) ∧ ∃ n, drain advance get c n t = Ok l.
Lemma yields_step t l :
  yields t l → ∃ t', tournament_advance advance get c t = Ok t' ∧ tournament_get get t' = Ok (head l) ∧ yields t' (tail l).
Proof using All.
  intros [Hr [n Hd]]. destruct n as [|n]; [done|]. cbn [drain] in Hd.
  assert (∃ t', tournament_advance advance get c t = Ok t' ∧ ready t') as (t' & Ht & Hr').
  { destruct Hr as [Hr|[Htr Hs]].
    - pose proof (get_ok t Hr) as Hg. unfold tournament_advance at 1. destruct (tree t) as [|x tr] eqn:Etr.
      + destruct (build_ready t Etr (proj2 Hr)) as (t' & Ht & ? & _). unfold tournament_advance in Ht. rewrite Etr in Ht. by exists t'.
      + destruct (mjoin (last (x :: tr))) as [w|] eqn:Ew; [|by exists t].
        destruct Hg as (i & a & Hi & Ha & _). destruct (advance_ok t w i a Hr) as (t' & Ht & ? & _); [by rewrite Etr|done..|].
        unfold tournament_advance in Ht. rewrite Etr, Ew in Ht. by exists t'.
    - destruct (build_ready t Htr Hs) as (t' & ? & ? & _). by exists t'. }
  rewrite Ht in Hd. cbn [mbind result_bind] in Hd. exists t'. split; [done|].
  destruct (tournament_get get t') as [[a|]| |] eqn:Eg; cbn [mbind result_bind] in Hd; [| |done..].
  - destruct (drain advance get c n t') as [rest| |] eqn:Er; [|done..]. injection Hd as <-. split; [done|]. split; [by left|by exists n].
  - injection Hd as <-. split; [done|]. split; [by left|]. exists 1. cbn [drain].
    pose proof (get_ok t' Hr') as Hg. destruct (mjoin (last (tree t'))) as [w|] eqn:Ew.
    { destruct Hg as (i & a & _ & _ & Hg & _). congruence. }
    assert (tournament_advance advance get c t' = Ok t') as ->; [|cbn [mbind result_bind]; by rewrite Eg].
    unfold tournament_advance. destruct (tree t') as [|x tr] eqn:Etr; [|by rewrite Ew].
    unfold build_tree. destruct (contestants t') as [|c0 cs] eqn:Ec; [done|].
    exfalso. destruct Hr' as [Htree _]. rewrite Ec, Etr in Htree.
    destruct (tree_root get c c_antisym c_trans (c0 :: cs)) as (r & Hroot & _); [done|]. by rewrite <-Htree in Hroot.
Qed.
Lemma from_iters_yields (iters : list T) :
  Forall (λ i, sorted (upcoming i)) iters →
  ∃ l, yields (from_iters advance get iters) l ∧ l ≡ₚ concat (upcoming <$> iters) ∧ sorted l.
Proof using All.
  intros Hs. destruct (drain_merges iters Hs) as (l & Hd & Hp & Hl). exists l. split; [|done].
  split; [right; split; [done|apply from_iters_left]|]. by eexists.
Qed.

(** C14: Calling [next] on a tournament of iterators that are sorted by a total
    preorder ends, after one call more than they have elements together, and
    yields all their elements, sorted. *)
Theorem tournament_merges (iters : list T) :
  Forall (λ i, sorted (upcoming i)) iters →
  ∃ l, drain advance get c (S (length (concat (upcoming <$> iters)))) (from_iters advance get iters) = Ok l ∧
    l ≡ₚ concat (upcoming <$> iters) ∧ sorted l.
Proof using All. apply drain_merges. Qed.
End merge.

(** ** Evaluation *)
Definition list_advance (t : option nat * list nat) : option nat * list nat := (head t.2, tail t.2).
#[export] Instance list_streaming : StreamingIterator list_advance fst snd.
Proof. by split. Qed.

Lemma tournament_merges_witness :
  drain list_advance fst Nat.compare 7 (from_iters list_advance fst [(None, [1; 4]); (None, []); (None, [2; 3; 4; 9])])
    = Ok [1; 2; 3; 4; 4; 9] ∧
  StronglySorted (λ x y, Nat.compare x y ≠ Gt) [1; 2; 3; 4; 4; 9].
Proof.
  destruct (tournament_merges list_advance fst snd Nat.compare) with
    (iters := [(None : option nat, [1; 4]); (None, []); (None, [2; 3; 4; 9])]) as (l & Hd & _ & Hs).
  - intros x y. apply Nat.compare_antisym.
  - intros x y z. rewrite !Nat.compare_ngt_iff. lia.
  - repeat constructor; simpl; discriminate.
  - assert (l = [1; 2; 3; 4; 4; 9]) as <- by (vm_compute in Hd; congruence). split; [exact Hd|exact Hs].
Defined.
