(* ===== verification/Replication.v ===== *)
(** * Replication: offsets in the log of the upstream database

    Models [readyset-client/src/replication.rs], the positions of
    [replicators/src/mysql_connector] (a binlog file and a position in it) and of
    [replicators/src/postgres_connector] (a log sequence number), and the encoding
    of both into the 128 bits of a replication offset. *)
From stdpp Require Import strings.
From Stdlib Require Import Ascii String.
From S2P Require Import Prelude Result.
Local Open Scope Z_scope.

(** Strings as lists of bytes. *)
Abbreviation str := list_ascii_of_string.

(** ** Decimal numbers

    What the code uses of [str::parse] on unsigned integers and of the formatting
    of unsigned integers with a width and the [0] flag. *)
Definition digit (d : Z) : ascii := ascii_of_nat (48 + Z.to_nat d).
Definition digit_val (c : ascii) : option Z :=
  let n := Z.of_nat (nat_of_ascii c) - 48 in
  if (0 <=? n) && (n <? 10) then Some n else None.

(** The digits, each step checked against the largest value of the type. *)
Fixpoint parse_digits (max acc : Z) (s : list ascii) : option Z :=
  match s with
  | [] => Some acc
  | c :: s' =>
      d ← digit_val c;
      let acc' := acc * 10 + d in
      if acc' <=? max then parse_digits max acc' s' else None
  end.

(** [parse::<uN>()]: one leading [+] is skipped, the empty string and a [+]
    alone are errors. *)
Definition parse_unsigned (max : Z) (s : list ascii) : option Z :=
  match s with
  | [] | ["+"%char] => None
  | "+"%char :: s' => parse_digits max 0 s'
  | _ => parse_digits max 0 s
  end.

Fixpoint decimal (fuel : nat) (n : Z) : list ascii :=
  match fuel with
  | O => []
  | S fuel' => if n <? 10 then [digit n] else decimal fuel' (n / 10) ++ [digit (n mod 10)]
  end.
(** [{:0w$}] for a [u32], which has at most ten digits. *)
Definition format_u32 (width : nat) (n : Z) : list ascii :=
  let ds := decimal 10 n in replicate (width - length ds) "0"%char ++ ds.

(** [rsplit_once]. *)
Fixpoint rsplit_once (sep : ascii) (s : list ascii) : option (list ascii * list ascii) :=
  match s with
  | [] => None
  | c :: s' =>
      match rsplit_once sep s' with
      | Some (pre, post) => Some (c :: pre, post)
      | None => if bool_decide (c = sep) then Some ([], s') else None
      end
  end.

(** Casts: [as u32], [as u128] of a signed number, [as i64]. *)
Definition u32_max : Z := 2 ^ 32 - 1.
Definition u64_max : Z := 2 ^ 64 - 1.
Definition u128_max : Z := 2 ^ 128 - 1.
Definition as_u32 (z : Z) : Z := z mod 2 ^ 32.
Definition as_u128 (z : Z) : Z := z mod 2 ^ 128.
Definition as_i64 (z : Z) : Z := (z + 2 ^ 63) mod 2 ^ 64 - 2 ^ 63.

(** ** Offsets *)
Record ReplicationOffset := {
  offset : Z;
  replication_log_name : list ascii;
}.

#[export] Instance ReplicationOffset_eq_dec : EqDecision ReplicationOffset.
Proof. solve_decision. Defined.

Definition offset_partial_cmp (a b : ReplicationOffset) : option comparison :=
  if decide (replication_log_name b = replication_log_name a) then Some (Z.compare (offset a) (offset b)) else None.

(** [try_max_into]: the new value of [other]. *)
Definition try_max_into (self : ReplicationOffset) (other : option ReplicationOffset) :
    result (option ReplicationOffset) :=
  match other with
  | Some o =>
      if decide (replication_log_name self = replication_log_name o)
      then Ok (Some {| offset := if offset o <? offset self then offset self else offset o;
                       replication_log_name := replication_log_name o |})
      else Err ReplicationOffsetLogDifferent
  | None => Ok (Some self)
  end.

(** The hash map of the tables as its entries, in the order of iteration. *)
Record ReplicationOffsets (T : Type) := {
  schema : option ReplicationOffset;
  tables : list (T * option ReplicationOffset);
}.
Arguments schema {T}.
Arguments tables {T}.

Section offsets.
Context {T : Type} `{!EqDecision T}.
Implicit Types (os : ReplicationOffsets T).

Definition with_schema_offset (o : option ReplicationOffset) : ReplicationOffsets T :=
  {| schema := o; tables := [] |}.
Definition has_schema os : bool := bool_decide (is_Some (schema os)).
Definition has_table os (t : T) : bool :=
  existsb (λ e, bool_decide (e.1 = t ∧ is_Some e.2)) (tables os).

Fixpoint max_offset_loop (res : ReplicationOffset) (l : list (T * option ReplicationOffset)) :
    result (option ReplicationOffset) :=
  match l with
  | [] => Ok (Some res)
  | (_, None) :: _ => Ok None
  | (_, Some o) :: l' =>
      if decide (replication_log_name res = replication_log_name o)
      then max_offset_loop (if offset res <? offset o then o else res) l'
      else Err ReplicationOffsetLogDifferent
  end.
Definition max_offset os : result (option ReplicationOffset) :=
  match schema os with Some o => max_offset_loop o (tables os) | None => Ok None end.

(** [self.schema.iter().chain(self.tables.values().flatten())]. *)
Definition present_offsets os : list ReplicationOffset :=
  option_list (schema os) ++ (tables os ≫= λ e, option_list e.2).

Definition min_step (res : option ReplicationOffset) (o : ReplicationOffset) :
    result (option ReplicationOffset) :=
  match res with
  | Some r =>
      if decide (replication_log_name r = replication_log_name o)
      then Ok (Some (if offset r <=? offset o then r else o))
      else Err ReplicationOffsetLogDifferent
  | None => Ok (Some o)
  end.
Definition min_present_offset os : result (option ReplicationOffset) :=
  result_foldl min_step None (present_offsets os).

(** [advance_offset]: the offsets after it, which an error leaves advanced up to
    the table it failed at. *)
Fixpoint advance_tables (o : ReplicationOffset) (l : list (T * option ReplicationOffset)) :
    list (T * option ReplicationOffset) * option ReadySetError :=
  match l with
  | [] => ([], None)
  | (t, e) :: l' =>
      match try_max_into o e with
      | Ok e' => let '(l'', err) := advance_tables o l' in ((t, e') :: l'', err)
      | Err err => (l, Some err)
      | Panic => (l, None)
      end
  end.
Definition advance_offset os (o : ReplicationOffset) : ReplicationOffsets T * option ReadySetError :=
  let '(ts, err) := advance_tables o (tables os) in
  match err with
  | Some e => ({| schema := schema os; tables := ts |}, Some e)
  | None =>
      match try_max_into o (schema os) with
      | Ok s => ({| schema := s; tables := ts |}, None)
      | Err e => ({| schema := schema os; tables := ts |}, Some e)
      | Panic => ({| schema := schema os; tables := ts |}, None)
      end
  end.
End offsets.

(** ** MySQL positions *)
Record BinlogPosition := {
  bp_binlog_file : list ascii;
  bp_position : Z;
}.

Definition binlog_partial_cmp (a b : BinlogPosition) : option comparison :=
  if decide (bp_binlog_file a = bp_binlog_file b) then Some (Z.compare (bp_position a) (bp_position b))
  else
    '(base_a, suffix_a) ← rsplit_once "." (bp_binlog_file a);
    '(base_b, suffix_b) ← rsplit_once "." (bp_binlog_file b);
    if decide (base_a = base_b) then
      n_a ← parse_unsigned u64_max suffix_a;
      n_b ← parse_unsigned u64_max suffix_b;
      Some (Z.compare n_a n_b)
    else None.

(** [TryFrom<&BinlogPosition> for ReplicationOffset]; the arithmetic is that of
    the code, [binlog_offset_bounds] shows that it does not overflow. *)
Definition binlog_to_offset (p : BinlogPosition) : result ReplicationOffset :=
  match rsplit_once "." (bp_binlog_file p) with
  | None => Err ReplicationFailed
  | Some (base, suffix) =>
      let suffix_len := Z.of_nat (length suffix) in
      if 17 <? suffix_len then Err ReplicationFailed
      else match parse_unsigned u128_max suffix with
           | None => Err ReplicationFailed
           | Some n =>
               Ok {| offset := Z.shiftl suffix_len 123 + Z.shiftl n 64 + bp_position p;
                     replication_log_name := base |}
           end
  end.

(** [From<&ReplicationOffset> for BinlogPosition]. *)
Definition binlog_of_offset (o : ReplicationOffset) : BinlogPosition :=
  let suffix_len := Z.to_nat (Z.shiftr (offset o) 123) in
  let suffix := as_u32 (Z.shiftr (offset o) 64) in
  {| bp_binlog_file := replication_log_name o ++ "."%char :: format_u32 suffix_len suffix;
     bp_position := as_u32 (offset o) |}.

(** ** Postgres positions: [PostgresPosition] is its log sequence number, an [i64]. *)
Record PostgresPosition := { lsn : Z }.
Definition postgres_to_offset (p : PostgresPosition) : ReplicationOffset :=
  {| offset := as_u128 (lsn p); replication_log_name := [] |}.
Definition postgres_of_offset (o : ReplicationOffset) : PostgresPosition := {| lsn := as_i64 (offset o) |}.
