(* ===== verification/ReplicationProps.v ===== *)
(** * ReplicationProps: correctness of replication offsets

    A binlog position survives its encoding into an offset as long as the number
    of its file fits 32 bits; offsets compare as the positions do when file
    numbers are padded the way MySQL pads them; the minimum, the maximum and the
    advancement of a set of offsets are what streaming resumes from. *)
From stdpp Require Import strings.
From Stdlib Require Import Ascii String.
From S2P Require Import Prelude Result Replication.
Local Open Scope Z_scope.

(** ** Decimal numbers *)

(** The [len] low decimal digits of a number. *)
Fixpoint fixed (len : nat) (n : Z) : list ascii :=
  match len with O => [] | S len' => fixed len' (n / 10) ++ [digit (n mod 10)] end.

Lemma length_fixed len n : length (fixed len n) = len.
Proof. revert n; induction len as [|len IH]; intros n; simpl; [done|]. rewrite length_app, IH. simpl. lia. Qed.

Lemma digit_val_inv c d : digit_val c = Some d → digit d = c ∧ 0 ≤ d < 10.
Proof.
  unfold digit_val, digit. destruct (_ && _) eqn:E; [|done]. intros [= <-].
  apply andb_true_iff in E as [E1 E2]. split; [|lia].
  replace (48 + Z.to_nat (Z.of_nat (nat_of_ascii c) - 48))%nat with (nat_of_ascii c) by lia.
  apply ascii_nat_embedding.
Qed.

Lemma fixed_zero len : fixed len 0 = replicate len "0"%char.
Proof. induction len as [|len IH]; [done|].
  change (fixed (S len) 0) with (fixed len 0 ++ ["0"%char]). by rewrite IH, <-replicate_S_end.
Qed.

Lemma pow10_S len : 10 ^ Z.of_nat (S len) = 10 * 10 ^ Z.of_nat len.
Proof. rewrite Nat2Z.inj_succ, Z.pow_succ_r by lia. done. Qed.
Lemma pow10_pos len : 0 < 10 ^ Z.of_nat len.
Proof. apply Z.pow_pos_nonneg; lia. Qed.

(** The first digit of a number is its quotient by a power of ten. *)
Lemma fixed_cons len d v :
  0 ≤ d < 10 → 0 ≤ v < 10 ^ Z.of_nat len →
  fixed (S len) (d * 10 ^ Z.of_nat len + v) = digit d :: fixed len v.
Proof.
  revert v; induction len as [|len IH]; intros v Hd Hv.
  - simpl in *. replace v with 0 by lia. rewrite Z.mul_1_r, Z.add_0_r, Z.mod_small by lia. done.
  - pose proof (pow10_pos len). rewrite pow10_S in *.
    change (fixed (S (S len)) ?x) with (fixed (S len) (x / 10) ++ [digit (x mod 10)]).
    change (fixed (S len) v) with (fixed len (v / 10) ++ [digit (v mod 10)]).
    replace ((d * (10 * 10 ^ Z.of_nat len) + v) / 10) with (d * 10 ^ Z.of_nat len + v / 10)
      by (replace (d * (10 * 10 ^ Z.of_nat len) + v) with (v + (d * 10 ^ Z.of_nat len) * 10) by ring;
          rewrite Z.div_add by lia; ring).
    replace ((d * (10 * 10 ^ Z.of_nat len) + v) mod 10) with (v mod 10)
      by (replace (d * (10 * 10 ^ Z.of_nat len) + v) with (v + (d * 10 ^ Z.of_nat len) * 10) by ring;
          by rewrite Z.mod_add by lia).
    rewrite IH; [done|done|]. split; [apply Z.div_pos; lia|apply Z.div_lt_upper_bound; lia].
Qed.

(** What a successful parse says of the string. *)
Lemma parse_digits_inv max acc s n :
  0 ≤ acc → parse_digits max acc s = Some n →
  ∃ v, n = acc * 10 ^ Z.of_nat (length s) + v ∧ 0 ≤ v < 10 ^ Z.of_nat (length s) ∧
       fixed (length s) v = s.
Proof.
  revert acc; induction s as [|c s IH]; intros acc Hacc; simpl parse_digits.
  - intros [= <-]. exists 0. simpl. split; [lia|]. split; [lia|done].
  - destruct (digit_val c) as [d|] eqn:Ed; [|done]. simpl. apply digit_val_inv in Ed as [<- Hd].
    destruct (_ <=? _); [|done]. intros (v & -> & Hv & Hs)%IH; [|lia].
    exists (d * 10 ^ Z.of_nat (length s) + v). pose proof (fixed_cons _ _ _ Hd Hv) as Hf. rewrite Hs in Hf.
    change (length (digit d :: s)) with (S (length s)). rewrite pow10_S.
    split; [ring|]. split; [nia|exact Hf].
Qed.

(** The largest value of the type only matters for numbers that exceed it. *)
Lemma parse_digits_max max max' acc s n :
  0 ≤ acc → parse_digits max acc s = Some n → n ≤ max' → parse_digits max' acc s = Some n.
Proof.
  revert acc; induction s as [|c s IH]; intros acc Hacc; simpl; [done|].
  destruct (digit_val c) as [d|] eqn:Ed; [|done]. simpl. apply digit_val_inv in Ed as [_ Hd].
  destruct (_ <=? max); [|done]. intros Hp Hn.
  pose proof Hp as (v & -> & Hv & _)%parse_digits_inv; [|lia].
  pose proof (pow10_pos (length s)). destruct (Z.leb_spec (acc * 10 + d) max'); [|nia].
  apply IH; [lia|done|done].
Qed.

Definition unsigned_digits (s : list ascii) : Prop := head s ≠ Some "+"%char.

Lemma parse_unsigned_digits max s :
  unsigned_digits s → s ≠ [] → parse_unsigned max s = parse_digits max 0 s.
Proof.
  unfold unsigned_digits. destruct s as [|c s]; [done|]. intros Hc _. simpl in Hc.
  destruct c as [[] [] [] [] [] [] [] []]; try done.
Qed.

(** A number parsed has fewer digits than the string. *)
Lemma parse_unsigned_bound max s n :
  parse_unsigned max s = Some n → 0 ≤ n < 10 ^ Z.of_nat (length s) ∧ s ≠ [].
Proof.
  intros Hp. destruct s as [|c s]; [done|]. split; [|done].
  assert (parse_digits max 0 (c :: s) = Some n ∨ parse_digits max 0 s = Some n) as [H|H].
  { destruct c as [[] [] [] [] [] [] [] []]; try (by left); destruct s; try done; by right. }
  - apply parse_digits_inv in H as (v & -> & Hv & _); [|lia]. lia.
  - apply parse_digits_inv in H as (v & -> & Hv & _); [|lia]. change (length (c :: s)) with (S (length s)). rewrite pow10_S. lia.
Qed.

Lemma parse_unsigned_fixed max s n :
  unsigned_digits s → parse_unsigned max s = Some n → fixed (length s) n = s.
Proof.
  intros Hu Hp. pose proof (parse_unsigned_bound _ _ _ Hp) as [_ Hs].
  rewrite parse_unsigned_digits in Hp by done. by apply parse_digits_inv in Hp as (v & -> & _ & Hv).
Qed.

(** Padding with zeros gives the digits of the width. *)
Lemma pad_decimal fuel len n :
  0 ≤ n < 10 ^ Z.of_nat fuel → 0 ≤ n < 10 ^ Z.of_nat len → len ≠ O →
  replicate (len - length (decimal fuel n)) "0"%char ++ decimal fuel n = fixed len n.
Proof.
  revert len n; induction fuel as [|fuel IH]; intros len n Hf Hl Hne; destruct len as [|len]; try done.
  - assert (n = 0) as -> by (simpl in Hf; lia). simpl. rewrite app_nil_r, fixed_zero. apply (replicate_S_end len).
  - cbn [decimal fixed]. destruct (Z.ltb_spec n 10) as [Hn|Hn].
    + rewrite Z.div_small, Z.mod_small, fixed_zero by lia. simpl. by rewrite Nat.sub_0_r.
    + rewrite pow10_S in Hf, Hl. pose proof (Z.div_le_lower_bound n 10 1 ltac:(lia) ltac:(lia)).
      assert (len ≠ O) by (intros ->; simpl in Hl; lia).
      rewrite <-(IH len (n / 10)); [|split; [lia|apply Z.div_lt_upper_bound; lia]..|done].
      rewrite length_app. simpl. rewrite app_assoc. do 3 f_equal. lia.
Qed.

Lemma format_u32_fixed len n :
  0 ≤ n ≤ u32_max → n < 10 ^ Z.of_nat len → len ≠ O → format_u32 len n = fixed len n.
Proof.
  unfold u32_max. intros Hn Hl Hne. apply pad_decimal; [|lia|done].
  change (10 ^ Z.of_nat 10) with 10000000000. lia.
Qed.

Lemma rsplit_once_inv sep s pre post : rsplit_once sep s = Some (pre, post) → s = pre ++ sep :: post.
Proof.
  revert pre; induction s as [|c s IH]; intros pre; simpl; [done|].
  destruct (rsplit_once sep s) as [[pre' post']|].
  - intros [= <- <-]. simpl. by rewrite (IH pre').
  - case_bool_decide; [|done]. by intros [= <- <-]; subst.
Qed.

(** ** The encoding of binlog positions *)
Definition pack (len n pos : Z) : Z := Z.shiftl len 123 + Z.shiftl n 64 + pos.

(** The three fields of an offset do not overlap and fit 128 bits. *)
Lemma pack_fields len n pos :
  0 ≤ len ≤ 17 → 0 ≤ n < 10 ^ 17 → 0 ≤ pos ≤ u32_max →
  0 ≤ pack len n pos ≤ u128_max ∧ Z.shiftr (pack len n pos) 123 = len ∧
  Z.shiftr (pack len n pos) 64 mod 2 ^ 59 = n ∧ pack len n pos mod 2 ^ 64 = pos.
Proof.
  unfold pack, u128_max, u32_max. intros Hl Hn Hp.
  rewrite !Z.shiftl_mul_pow2, !Z.shiftr_div_pow2 by lia.
  assert (10 ^ 17 < 2 ^ 59) as Hpow by done.
  assert (len * 2 ^ 123 + n * 2 ^ 64 + pos = (len * 2 ^ 59 + n) * 2 ^ 64 + pos) as -> by ring.
  assert (((len * 2 ^ 59 + n) * 2 ^ 64 + pos) / 2 ^ 64 = len * 2 ^ 59 + n) as H64.
  { rewrite Z.div_add_l, Z.div_small by lia. lia. }
  split; [lia|]. split; [|split].
  - change (2 ^ 123) with (2 ^ 64 * 2 ^ 59). rewrite <-Z.div_div, H64, Z.div_add_l, Z.div_small by lia. lia.
  - rewrite H64, Z.add_comm, Z.mod_add, Z.mod_small by lia. lia.
  - rewrite Z.add_comm, Z.mod_add, Z.mod_small by lia. lia.
Qed.

(** What a successful conversion says of the position. *)
Lemma binlog_to_offset_inv p o :
  binlog_to_offset p = Ok o →
  ∃ base suffix n, rsplit_once "." (bp_binlog_file p) = Some (base, suffix) ∧
    (length suffix ≤ 17)%nat ∧ parse_unsigned u128_max suffix = Some n ∧
    0 ≤ n < 10 ^ 17 ∧ n < 10 ^ Z.of_nat (length suffix) ∧ suffix ≠ [] ∧
    o = {| offset := pack (Z.of_nat (length suffix)) n (bp_position p); replication_log_name := base |}.
Proof.
  unfold binlog_to_offset. destruct (rsplit_once _ _) as [[base suffix]|]; [|done].
  destruct (Z.ltb_spec 17 (Z.of_nat (length suffix))) as [|Hl]; [done|].
  destruct (parse_unsigned _ _) as [n|] eqn:Hn; [|done]. intros [= <-].
  exists base, suffix, n. pose proof (parse_unsigned_bound _ _ _ Hn) as [Hb Hs].
  pose proof (Z.pow_le_mono_r 10 (Z.of_nat (length suffix)) 17 ltac:(lia) ltac:(lia)).
  split_and!; try done; lia.
Qed.

(** The number of the file of a position, and its digits. *)
Definition file_suffix (p : BinlogPosition) : list ascii :=
  match rsplit_once "." (bp_binlog_file p) with Some (_, s) => s | None => [] end.
Definition file_number (p : BinlogPosition) : Z := default 0 (parse_unsigned u128_max (file_suffix p)).

(** Encoding a position does not overflow the 128 bits of an offset,
    and keeps the length of the suffix of its file in the top five bits, the
    number of the file in the next fifty-nine and the position in the low
    sixty-four. *)
Theorem binlog_offset_bounds p o :
  binlog_to_offset p = Ok o → 0 ≤ bp_position p ≤ u32_max →
  0 ≤ offset o ≤ u128_max ∧ Z.shiftr (offset o) 123 = Z.of_nat (length (file_suffix p)) ∧
  Z.shiftr (offset o) 64 mod 2 ^ 59 = file_number p ∧ offset o mod 2 ^ 64 = bp_position p.
Proof.
  intros (base & suffix & n & Hs & Hl & Hn & Hb & _ & _ & ->)%binlog_to_offset_inv Hp.
  unfold file_number, file_suffix. rewrite Hs, Hn. apply pack_fields; [lia|done|done].
Qed.

(** C36: A position of a file whose number is written without a sign and fits 32 bits
    is recovered from its offset, leading zeros included. *)
Theorem binlog_offset_roundtrip p o :
  binlog_to_offset p = Ok o → 0 ≤ bp_position p ≤ u32_max →
  unsigned_digits (file_suffix p) → file_number p ≤ u32_max → binlog_of_offset o = p.
Proof.
  intros (base & suffix & n & Hs & Hl & Hn & Hb & Hnl & Hne & ->)%binlog_to_offset_inv Hp.
  unfold file_number, file_suffix. rewrite Hs, Hn. simpl. intros Hu Hmax.
  destruct (pack_fields (Z.of_nat (length suffix)) n (bp_position p)) as (_ & Hlen & H59 & H64); [lia|done|done|].
  unfold binlog_of_offset. simpl. rewrite Hlen, Nat2Z.id. unfold as_u32, u32_max in *.
  rewrite <-(Z.mod_mod_divide (Z.shiftr _ 64) (2 ^ 59)), H59 by (by exists (2 ^ 27)).
  rewrite <-(Z.mod_mod_divide (pack _ _ _) (2 ^ 64)), H64 by (by exists (2 ^ 32)).
  rewrite !Z.mod_small by lia.
  rewrite format_u32_fixed, (parse_unsigned_fixed u128_max) by (unfold u32_max; try done; try lia; by destruct suffix).
  apply rsplit_once_inv in Hs. destruct p as [file pos]. simpl in *. by rewrite Hs.
Qed.

(** ** Order *)
Lemma pack_compare l n p l' n' p' :
  0 ≤ n < 10 ^ 17 → 0 ≤ n' < 10 ^ 17 → 0 ≤ p ≤ u32_max → 0 ≤ p' ≤ u32_max →
  Z.compare (pack l n p) (pack l' n' p')
  = then_cmp (Z.compare l l') (then_cmp (Z.compare n n') (Z.compare p p')).
Proof.
  unfold pack, u32_max. rewrite !Z.shiftl_mul_pow2 by lia. intros.
  destruct (Z.compare_spec l l') as [->|Hl|Hl]; simpl.
  - destruct (Z.compare_spec n n') as [->|Hn|Hn]; simpl.
    + destruct (Z.compare_spec p p'); [apply Z.compare_eq_iff|apply Z.compare_lt_iff|apply Z.compare_gt_iff]; lia.
    + apply Z.compare_lt_iff. lia.
    + apply Z.compare_gt_iff. lia.
  - apply Z.compare_lt_iff. lia.
  - apply Z.compare_gt_iff. lia.
Qed.

(** Numbers padded with zeros to a width, as MySQL writes them: only a number of
    exactly that width may start with a zero. *)
Definition padded (w : nat) (s : list ascii) : Prop :=
  unsigned_digits s ∧ (w ≤ length s)%nat ∧ (length s = w ∨ head s ≠ Some "0"%char).

Lemma leading_digit max s n :
  unsigned_digits s → parse_unsigned max s = Some n → head s ≠ Some "0"%char →
  10 ^ Z.of_nat (length s - 1) ≤ n.
Proof.
  intros Hu Hp Hh. pose proof (parse_unsigned_fixed _ _ _ Hu Hp) as Hf.
  pose proof (parse_unsigned_bound _ _ _ Hp) as [Hb Hs]. destruct s as [|c s]; [done|].
  replace (length (c :: s) - 1)%nat with (length s) by (simpl; lia).
  destruct (Z.le_gt_cases (10 ^ Z.of_nat (length s)) n) as [|Hlt]; [done|]. exfalso. apply Hh.
  pose proof (fixed_cons (length s) 0 n ltac:(lia) ltac:(lia)) as Hz. rewrite Z.mul_0_l, Z.add_0_l in Hz.
  change (fixed (S (length s)) n) with (fixed (length (c :: s)) n) in Hz. rewrite Hf in Hz. by injection Hz as -> _.
Qed.

Lemma shorter_is_smaller w max s s' n n' :
  padded w s → padded w s' → parse_unsigned max s = Some n → parse_unsigned max s' = Some n' →
  (length s < length s')%nat → n < n'.
Proof.
  intros (Hu & Hw & _) (Hu' & Hw' & Hz) Hn Hn' Hlt. destruct Hz as [?|Hz]; [lia|].
  pose proof (leading_digit _ _ _ Hu' Hn' Hz). pose proof (parse_unsigned_bound _ _ _ Hn) as [Hb _].
  pose proof (Z.pow_le_mono_r 10 (Z.of_nat (length s)) (Z.of_nat (length s' - 1)) ltac:(lia) ltac:(lia)). lia.
Qed.

(** Numbers of padded strings compare first by length. *)
Lemma padded_compare w max s s' n n' :
  padded w s → padded w s' → parse_unsigned max s = Some n → parse_unsigned max s' = Some n' →
  then_cmp (Z.of_nat (length s) ?= Z.of_nat (length s')) (n ?= n') = (n ?= n').
Proof.
  intros Hs Hs' Hn Hn'. destruct (Z.compare_spec (Z.of_nat (length s)) (Z.of_nat (length s'))) as [|H|H]; simpl.
  - done.
  - symmetry. apply Z.compare_lt_iff. eapply shorter_is_smaller; [exact Hs|exact Hs'|done|done|lia].
  - symmetry. apply Z.compare_gt_iff. eapply shorter_is_smaller; [exact Hs'|exact Hs|done|done|lia].
Qed.

Lemma padded_inj w max s s' n :
  padded w s → padded w s' → parse_unsigned max s = Some n → parse_unsigned max s' = Some n → s = s'.
Proof.
  intros Hs Hs' Hn Hn'.
  assert (length s = length s') as Hl.
  { destruct (Nat.lt_trichotomy (length s) (length s')) as [H|[H|H]]; [|done|].
    - pose proof (shorter_is_smaller w max s s' n n Hs Hs' Hn Hn' H). lia.
    - pose proof (shorter_is_smaller w max s' s n n Hs' Hs Hn' Hn H). lia. }
  rewrite <-(parse_unsigned_fixed _ _ _ (proj1 Hs) Hn), <-(parse_unsigned_fixed _ _ _ (proj1 Hs') Hn'). by rewrite Hl.
Qed.

Lemma parse_unsigned_u64 s n :
  unsigned_digits s → parse_unsigned u128_max s = Some n → n < 10 ^ 17 → parse_unsigned u64_max s = Some n.
Proof.
  intros Hu Hp Hn. pose proof (parse_unsigned_bound _ _ _ Hp) as [_ Hs].
  rewrite parse_unsigned_digits in * by done.
  eapply parse_digits_max; [|exact Hp|]; [lia|].
  change (10 ^ 17) with 100000000000000000 in Hn. change u64_max with 18446744073709551615. lia.
Qed.

(** Offsets compare as the positions they encode, also when they are of
    different logs, for files numbered the way MySQL numbers them: padded with
    zeros to a common width. *)
Theorem binlog_offset_order w p q op oq :
  binlog_to_offset p = Ok op → binlog_to_offset q = Ok oq →
  0 ≤ bp_position p ≤ u32_max → 0 ≤ bp_position q ≤ u32_max →
  padded w (file_suffix p) → padded w (file_suffix q) →
  offset_partial_cmp op oq = binlog_partial_cmp p q.
Proof.
  intros (b & s & n & Hs & Hl & Hn & Hb & _ & _ & ->)%binlog_to_offset_inv
         (b' & s' & n' & Hs' & Hl' & Hn' & Hb' & _ & _ & ->)%binlog_to_offset_inv Hp Hq.
  unfold file_suffix. rewrite Hs, Hs'. intros Hw Hw'.
  unfold offset_partial_cmp, binlog_partial_cmp. cbn [offset replication_log_name].
  rewrite pack_compare by done. rewrite Hs, Hs'. simpl.
  rewrite (parse_unsigned_u64 s n), (parse_unsigned_u64 s' n') by (done || apply Hw || apply Hw' || lia). simpl.
  pose proof (padded_compare _ _ _ _ _ _ Hw Hw' Hn Hn') as Hc.
  destruct (decide (bp_binlog_file p = bp_binlog_file q)) as [Hf|Hf].
  - rewrite Hf, Hs' in Hs. injection Hs as <- <-. assert (n' = n) as -> by congruence.
    rewrite decide_True by done. by rewrite !Z.compare_refl.
  - destruct (decide (b = b')) as [->|Hbb]; [|by rewrite decide_False by congruence].
    rewrite decide_True by done. f_equal.
    assert (n ≠ n') as Hnn.
    { intros ->. apply Hf. rewrite (rsplit_once_inv _ _ _ _ Hs), (rsplit_once_inv _ _ _ _ Hs').
      by rewrite (padded_inj _ _ _ _ _ Hw Hw' Hn Hn'). }
    destruct (Z.compare_spec n n') as [|H|H]; [done| |]; simpl in *;
      destruct (Z.of_nat (length s) ?= Z.of_nat (length s')); simpl in *; congruence.
Qed.

(** A file number of ten digits is accepted by the encoding, which reserves
    fifty-nine bits for it, and comes back as another number: decoding keeps its
    low thirty-two bits. *)
Theorem binlog_suffix_truncated :
  let p := {| bp_binlog_file := str "mysql-bin.4294967297"; bp_position := 4 |} in
  ∃ o, binlog_to_offset p = Ok o ∧
       binlog_of_offset o = {| bp_binlog_file := str "mysql-bin.0000000001"; bp_position := 4 |}.
Proof. eexists. split; [vm_compute; reflexivity|]. vm_compute. reflexivity. Qed.

(** ** Postgres *)

(** A log sequence number, of either sign, is recovered from its offset. *)
Theorem postgres_offset_roundtrip p :
  - 2 ^ 63 ≤ lsn p < 2 ^ 63 → postgres_of_offset (postgres_to_offset p) = p.
Proof.
  destruct p as [z]. unfold postgres_of_offset, postgres_to_offset, as_i64, as_u128. simpl. intros Hz. f_equal.
  rewrite <-(Z.add_mod_idemp_l (z mod _)) by lia.
  rewrite (Z.mod_mod_divide z) by (by exists (2 ^ 64)).
  rewrite Z.add_mod_idemp_l, Z.mod_small by lia. lia.
Qed.

(** ** Sets of offsets *)
Section offsets.
Context {T : Type}.
Implicit Types (os : ReplicationOffsets T) (o m : ReplicationOffset) (l : list ReplicationOffset).

(** [m] is an offset of [l], in the log all of them are in, and the least. *)
Definition least m l : Prop :=
  m ∈ l ∧ Forall (λ o, replication_log_name o = replication_log_name m ∧ offset m ≤ offset o) l.

Lemma min_loop_ok m l1 l2 :
  least m l1 →
  match result_foldl min_step (Some m) l2 with
  | Ok (Some m') => least m' (l1 ++ l2)
  | Ok None | Panic => False
  | Err e => e = ReplicationOffsetLogDifferent ∧
      ∃ o1 o2, o1 ∈ l1 ++ l2 ∧ o2 ∈ l1 ++ l2 ∧ replication_log_name o1 ≠ replication_log_name o2
  end.
Proof.
  revert m l1; induction l2 as [|o l2 IH]; intros m l1 [Hm Hl]; simpl.
  - rewrite app_nil_r. by split.
  - destruct (decide _) as [Hlog|Hlog]; simpl.
    + replace (l1 ++ o :: l2) with ((l1 ++ [o]) ++ l2) by (by rewrite <-app_assoc).
      apply IH. destruct (Z.leb_spec (offset m) (offset o)) as [Hle|Hle]; split.
      * apply elem_of_app. by left.
      * apply Forall_app. split; [done|]. by apply Forall_singleton.
      * apply elem_of_app. right. by apply list_elem_of_singleton.
      * apply Forall_app. split; [|by apply Forall_singleton].
        eapply Forall_impl; [exact Hl|]. simpl. intros o' [-> ?]. split; [done|lia].
    + split; [done|]. exists m, o. split_and!; [set_solver|set_solver|done].
Qed.

(** [min_present_offset] returns the least of the offsets that are
    present, if there are any, and fails exactly when two of them are in
    different logs. *)
Theorem min_present_offset_spec os :
  match min_present_offset os with
  | Ok (Some m) => least m (present_offsets os)
  | Ok None => present_offsets os = []
  | Err e => e = ReplicationOffsetLogDifferent ∧
      ∃ o1 o2, o1 ∈ present_offsets os ∧ o2 ∈ present_offsets os ∧
               replication_log_name o1 ≠ replication_log_name o2
  | Panic => False
  end.
Proof.
  unfold min_present_offset. destruct (present_offsets os) as [|o l]; [done|]. simpl.
  assert (least o [o]) as Ho by (split; [by apply list_elem_of_singleton|by apply Forall_singleton]).
  pose proof (min_loop_ok o [o] l Ho) as Hm. destruct (result_foldl _ _ _) as [[m|]|e|]; [exact Hm|done|exact Hm|done].
Qed.

(** The maximum, when the schema and every table have an offset in one log. *)
Definition greatest m l : Prop :=
  m ∈ l ∧ Forall (λ o, replication_log_name o = replication_log_name m ∧ offset o ≤ offset m) l.

Lemma max_loop_ok m l (ts : list (T * option ReplicationOffset)) l2 :
  greatest m l → ts.*2 = Some <$> l2 →
  Forall (λ o, replication_log_name o = replication_log_name m) l2 →
  ∃ m', max_offset_loop m ts = Ok (Some m') ∧ greatest m' (l ++ l2).
Proof.
  revert m l l2; induction ts as [|[t e] ts IH]; intros m l l2 [Hm Hl] Hts Hlog; destruct l2 as [|o l2]; try done; simpl.
  - exists m. rewrite app_nil_r. by split.
  - injection Hts as -> Hts. inversion Hlog as [|? ? Ho Hlog']; subst. rewrite decide_True by done.
    replace (l ++ o :: l2) with ((l ++ [o]) ++ l2) by (by rewrite <-app_assoc).
    destruct (Z.ltb_spec (offset m) (offset o)) as [Hlt|Hlt].
    + apply IH; [|done|by rewrite Ho]. split; [set_solver|]. apply Forall_app. split; [|by apply Forall_singleton].
      eapply Forall_impl; [exact Hl|]. simpl. intros o' [-> ?]. split; [done|lia].
    + apply IH; [|done|done]. split; [set_solver|]. apply Forall_app. split; [done|]. by apply Forall_singleton.
Qed.

(** With every offset present and in one log, [max_offset] returns the largest. *)
Theorem max_offset_spec os s l :
  schema os = Some s → (tables os).*2 = Some <$> l →
  Forall (λ o, replication_log_name o = replication_log_name s) l →
  ∃ m, max_offset os = Ok (Some m) ∧ greatest m (s :: l).
Proof.
  intros Hs Hl Hlog. unfold max_offset. rewrite Hs. apply (max_loop_ok s [s]); [|done|done].
  split; [by apply list_elem_of_singleton|by apply Forall_singleton].
Qed.

Definition same_log o (e : option ReplicationOffset) : Prop :=
  match e with Some o' => replication_log_name o' = replication_log_name o | None => True end.
Definition advanced o (e : option ReplicationOffset) : option ReplicationOffset :=
  Some {| offset := match e with Some o' => Z.max (offset o) (offset o') | None => offset o end;
          replication_log_name := replication_log_name o |}.

Lemma try_max_into_ok o e : same_log o e → try_max_into o e = Ok (advanced o e).
Proof.
  destruct e as [o'|]; simpl; [|by destruct o]. intros Hlog. rewrite decide_True by done.
  unfold advanced. do 3 f_equal; [|done]. destruct (Z.ltb_spec (offset o') (offset o)); lia.
Qed.

(** [advance_offset] moves the schema and every table, also one that had none, up
    to the offset and moves none of them back, when they are in its log. *)
Theorem advance_offset_spec os o :
  same_log o (schema os) → Forall (λ e, same_log o e.2) (tables os) →
  advance_offset os o
  = ({| schema := advanced o (schema os); tables := (λ e, (e.1, advanced o e.2)) <$> tables os |}, None).
Proof.
  intros Hs Ht. unfold advance_offset.
  assert (advance_tables o (tables os) = ((λ e, (e.1, advanced o e.2)) <$> tables os, None)) as ->.
  { induction Ht as [|[t e] l He Hl IH]; [done|]. rewrite fmap_cons. cbn [advance_tables].
    rewrite try_max_into_ok by done. by rewrite IH. }
  by rewrite try_max_into_ok.
Qed.
End offsets.

(** ** Evaluations *)
Definition sample_binlog : BinlogPosition := {| bp_binlog_file := str "mysql-bin.000042"; bp_position := 1337 |}.
Definition next_binlog : BinlogPosition := {| bp_binlog_file := str "mysql-bin.000043"; bp_position := 4 |}.
Definition sample_offset (n : Z) : ReplicationOffset :=
  {| offset := pack 6 n 1337; replication_log_name := str "mysql-bin" |}.

Lemma binlog_offset_bounds_witness :
  binlog_to_offset sample_binlog = Ok (sample_offset 42) ∧
  Z.shiftr (offset (sample_offset 42)) 64 mod 2 ^ 59 = file_number sample_binlog.
Proof.
  assert (binlog_to_offset sample_binlog = Ok (sample_offset 42)) as Ho by (vm_compute; reflexivity).
  split; [exact Ho|]. apply (binlog_offset_bounds sample_binlog _ Ho). unfold u32_max. simpl. lia.
Defined.

Lemma binlog_offset_roundtrip_witness :
  binlog_to_offset sample_binlog = Ok (sample_offset 42) ∧ binlog_of_offset (sample_offset 42) = sample_binlog.
Proof.
  assert (binlog_to_offset sample_binlog = Ok (sample_offset 42)) as Ho by (vm_compute; reflexivity).
  split; [exact Ho|]. apply (binlog_offset_roundtrip sample_binlog _ Ho).
  - unfold u32_max. simpl. lia.
  - vm_compute. discriminate.
  - vm_compute. discriminate.
Defined.

Lemma binlog_offset_order_witness :
  ∃ o1 o2, binlog_to_offset sample_binlog = Ok o1 ∧ binlog_to_offset next_binlog = Ok o2 ∧
           offset_partial_cmp o1 o2 = binlog_partial_cmp sample_binlog next_binlog.
Proof.
  eexists. eexists. split; [vm_compute; reflexivity|]. split; [vm_compute; reflexivity|].
  apply (binlog_offset_order 6 sample_binlog next_binlog).
  - vm_compute; reflexivity.
  - vm_compute; reflexivity.
  - unfold u32_max. simpl. lia.
  - unfold u32_max. simpl. lia.
  - split; [vm_compute; discriminate|]. split; [vm_compute; lia|]. left. vm_compute. reflexivity.
  - split; [vm_compute; discriminate|]. split; [vm_compute; lia|]. left. vm_compute. reflexivity.
Defined.

Lemma postgres_offset_roundtrip_witness : postgres_of_offset (postgres_to_offset {| lsn := -5 |}) = {| lsn := -5 |}.
Proof. apply postgres_offset_roundtrip. simpl. lia. Defined.

Lemma max_offset_spec_witness :
  let os := {| schema := Some (sample_offset 1); tables := [(tt, Some (sample_offset 2))] |} in
  ∃ m, max_offset os = Ok (Some m) ∧ greatest m [sample_offset 1; sample_offset 2].
Proof. apply max_offset_spec; [reflexivity|reflexivity|]. by apply Forall_singleton. Defined.

Lemma advance_offset_spec_witness :
  let os := {| schema := Some (sample_offset 1); tables := [(tt, None)] |} in
  (advance_offset os (sample_offset 3)).1.(tables) = [(tt, Some (sample_offset 3))].
Proof.
  intros os. rewrite (advance_offset_spec os (sample_offset 3)).
  - reflexivity.
  - reflexivity.
  - by apply Forall_singleton.
Defined.
