(* ===== verification/MySqlTime.v ===== *)
(** * MySqlTime: MySQL's TIME values

    Models [mysql-time/src/lib.rs], except the parser of strings, which is built
    from another crate's combinators.  A time is a number of nanoseconds, read and
    written through [chrono::Duration]. *)
From stdpp Require Import strings.
From Stdlib Require Import Ascii String.
From S2P Require Import Prelude Result Replication.
Local Open Scope Z_scope.

Definition fits_i64 (z : Z) : Prop := - 2 ^ 63 ≤ z < 2 ^ 63.

(** What the code uses of [chrono::Duration]: a signed span of time, which the
    [num_*] functions count in whole units, rounding toward zero. *)
Class Duration (D : Type) := {
  dur : D → Z;                                  (** in nanoseconds *)
  nanoseconds : Z → D;
  microseconds_of : Z → D;
  seconds_of : Z → D;
  num_hours : D → Z;
  num_minutes : D → Z;
  num_seconds : D → Z;
  num_microseconds : D → option Z;              (** [None] if it does not fit [i64] *)
  num_nanoseconds : D → option Z;
  dur_add : D → D → D;
  dur_sub : D → D → D;
  dur_nanoseconds z : fits_i64 z → dur (nanoseconds z) = z;
  dur_microseconds z : fits_i64 z → dur (microseconds_of z) = z * 1000;
  dur_seconds z : fits_i64 (z * 1000) → dur (seconds_of z) = z * 1000000000;
  dur_num_hours d : num_hours d = Z.quot (dur d) (3600 * 1000000000);
  dur_num_minutes d : num_minutes d = Z.quot (dur d) (60 * 1000000000);
  dur_num_seconds d : num_seconds d = Z.quot (dur d) 1000000000;
  dur_num_microseconds d : fits_i64 (Z.quot (dur d) 1000) → num_microseconds d = Some (Z.quot (dur d) 1000);
  dur_num_nanoseconds d : fits_i64 (dur d) → num_nanoseconds d = Some (dur d);
  dur_add_spec d1 d2 : fits_i64 (dur d1 + dur d2) → dur (dur_add d1 d2) = dur d1 + dur d2;
  dur_sub_spec d1 d2 : fits_i64 (dur d1 - dur d2) → dur (dur_sub d1 d2) = dur d1 - dur d2;
}.

#[export] Instance z_duration : Duration Z.
Proof.
  refine {| dur := λ d, d; nanoseconds := λ z, z; microseconds_of := λ z, z * 1000;
    seconds_of := λ z, z * 1000000000; num_hours := λ d, Z.quot d (3600 * 1000000000);
    num_minutes := λ d, Z.quot d (60 * 1000000000); num_seconds := λ d, Z.quot d 1000000000;
    num_microseconds := λ d, Some (Z.quot d 1000); num_nanoseconds := λ d, Some d;
    dur_add := Z.add; dur_sub := Z.sub |}; done.
Defined.

Definition MICROSECS_IN_SECOND : Z := 1000000.
Definition MAX_MYSQL_TIME_SECONDS : Z := 3020399.

Record MySqlTime := { nanos : Z }.

(** Rounding toward zero, on magnitudes. *)
Lemma abs_quot n k : 0 < k → Z.abs (Z.quot n k) = Z.abs n / k.
Proof. intros Hk. rewrite <-Z.quot_abs, (Z.abs_eq k), Z.quot_div_nonneg by lia. done. Qed.

Section mysql_time.
Context `{Duration D}.
Implicit Types (t : MySqlTime) (d : D).

(** [new]: [in_range] is its last expression; [max_value] and [min_value] call
    [new] on durations for which both guards are false. *)
Definition in_range d : result MySqlTime := n ← expect (num_nanoseconds d); Ok {| nanos := n |}.
Definition max_value : result MySqlTime := in_range (seconds_of MAX_MYSQL_TIME_SECONDS).
Definition min_value : result MySqlTime := in_range (seconds_of (- MAX_MYSQL_TIME_SECONDS)).
Definition time_new d : result MySqlTime :=
  let secs := num_seconds d in
  if MAX_MYSQL_TIME_SECONDS <? secs then max_value
  else if secs <? - MAX_MYSQL_TIME_SECONDS then min_value
  else in_range d.

Definition from_hmsus (positive : bool) (hour minutes seconds microseconds : Z) : result MySqlTime :=
  let sum := hour * 3600 * MICROSECS_IN_SECOND + Z.min minutes 59 * 60 * MICROSECS_IN_SECOND
             + Z.min seconds 59 * MICROSECS_IN_SECOND + Z.min microseconds 999999 in
  time_new (microseconds_of (sum * if positive then 1 else -1)).
Definition from_microseconds (us : Z) : result MySqlTime := time_new (microseconds_of us).

Definition duration t : D := nanoseconds (nanos t).
Definition is_positive t : bool := 0 <? nanos t.
(** [try_into] an unsigned type of a given maximum, or a default. *)
Definition try_into (max default z : Z) : Z := if (0 <=? z) && (z <=? max) then z else default.
Definition hour t : Z := try_into 65535 65535 (Z.abs (num_hours (duration t))).
Definition minutes t : Z := Z.min (try_into 255 59 (Z.rem (Z.abs (num_minutes (duration t))) 60)) 59.
Definition seconds t : Z := Z.min (try_into 255 59 (Z.rem (Z.abs (num_seconds (duration t))) 60)) 59.
Definition microseconds t : Z :=
  Z.max (default 0 ((λ us, as_u32 (Z.rem (Z.abs us) MICROSECS_IN_SECOND)) <$> num_microseconds (duration t))) 0.

Definition time_default : result MySqlTime := time_new (microseconds_of 0).

(** [Display]. *)
Definition time_display t : list ascii :=
  (if is_positive t then [] else str "-") ++
  format_u32 2 (hour t) ++ str ":" ++ format_u32 2 (minutes t) ++ str ":" ++ format_u32 2 (seconds t) ++
  (if microseconds t =? 0 then [] else str "." ++ format_u32 6 (microseconds t)).

Definition time_eq (a b : MySqlTime) : bool :=
  bool_decide (is_positive a = is_positive b) && (hour a =? hour b) && (minutes a =? minutes b)
  && (seconds a =? seconds b) && (microseconds a =? microseconds b).
Definition bool_cmp (a b : bool) : comparison :=
  match a, b with false, true => Lt | true, false => Gt | _, _ => Eq end.
Definition time_cmp (a b : MySqlTime) : comparison :=
  then_cmp (bool_cmp (is_positive a) (is_positive b))
  (then_cmp (hour a ?= hour b) (then_cmp (minutes a ?= minutes b)
  (then_cmp (seconds a ?= seconds b) (microseconds a ?= microseconds b)))).

(** The TIME values of the MySQL protocol: sign, days, hours, minutes, seconds
    and microseconds. *)
Definition to_value t : bool * Z * Z * Z * Z * Z :=
  (negb (is_positive t), hour t / 24, hour t mod 24, minutes t, seconds t, microseconds t).
(** [ParseIr::new]: [(days * 24) as u16 + hours as u16], where a product or a sum
    that overflows panics. *)
Definition from_value (v : bool * Z * Z * Z * Z * Z) : result MySqlTime :=
  let '(is_neg, days, hours, mins, secs, us) := v in
  if u32_max <? days * 24 then Panic
  else let hours' := (days * 24) mod 2 ^ 16 + hours in
       if 65535 <? hours' then Panic else from_hmsus (negb is_neg) hours' mins secs us.

Definition time_sub (a b : MySqlTime) : result MySqlTime := time_new (dur_sub (duration a) (duration b)).
Definition time_add (a b : MySqlTime) : result MySqlTime := time_new (dur_add (duration a) (duration b)).

(** ** Ranges *)

(** The times [new] makes: less than a second beyond the largest time. *)
Definition in_bounds t : Prop := Z.abs (nanos t) < (MAX_MYSQL_TIME_SECONDS + 1) * 1000000000.

Lemma in_bounds_i64 t : in_bounds t → fits_i64 (nanos t).
Proof. unfold in_bounds, fits_i64, MAX_MYSQL_TIME_SECONDS. lia. Qed.

(** [new] keeps a duration of at most 838:59:59, up to the fraction of the last
    second, and otherwise yields the limit it exceeds. *)
Definition clamp (n : Z) : Z :=
  if MAX_MYSQL_TIME_SECONDS <? Z.quot n 1000000000 then MAX_MYSQL_TIME_SECONDS * 1000000000
  else if Z.quot n 1000000000 <? - MAX_MYSQL_TIME_SECONDS then - MAX_MYSQL_TIME_SECONDS * 1000000000
  else n.

Lemma clamp_in_bounds n : Z.abs (clamp n) < (MAX_MYSQL_TIME_SECONDS + 1) * 1000000000.
Proof.
  unfold clamp, MAX_MYSQL_TIME_SECONDS. pose proof (abs_quot n 1000000000 ltac:(lia)).
  destruct (Z.ltb_spec 3020399 (Z.quot n 1000000000)); [lia|].
  destruct (Z.ltb_spec (Z.quot n 1000000000) (- (3020399))); [lia|]. Z.div_mod_to_equations. lia.
Qed.
Lemma clamp_id n : Z.abs n < (MAX_MYSQL_TIME_SECONDS + 1) * 1000000000 → clamp n = n.
Proof.
  unfold clamp, MAX_MYSQL_TIME_SECONDS. intros Hn. pose proof (abs_quot n 1000000000 ltac:(lia)).
  assert (Z.abs n / 1000000000 ≤ 3020399) by (Z.div_mod_to_equations; lia).
  destruct (Z.ltb_spec 3020399 (Z.quot n 1000000000)); [lia|].
  destruct (Z.ltb_spec (Z.quot n 1000000000) (- (3020399))); [lia|done].
Qed.

Lemma time_new_ok d : time_new d = Ok {| nanos := clamp (dur d) |} ∧ in_bounds {| nanos := clamp (dur d) |}.
Proof.
  split; [|apply clamp_in_bounds]. unfold time_new, clamp. rewrite dur_num_seconds.
  assert (∀ z, Z.abs z ≤ MAX_MYSQL_TIME_SECONDS → in_range (seconds_of z) = Ok {| nanos := z * 1000000000 |}) as Hs.
  { unfold MAX_MYSQL_TIME_SECONDS. intros z Hz. unfold in_range.
    rewrite dur_num_nanoseconds; rewrite dur_seconds; unfold fits_i64; try lia. done. }
  destruct (Z.ltb_spec MAX_MYSQL_TIME_SECONDS (Z.quot (dur d) 1000000000)) as [Hmax|Hmax].
  { unfold max_value. by rewrite Hs. }
  destruct (Z.ltb_spec (Z.quot (dur d) 1000000000) (- MAX_MYSQL_TIME_SECONDS)) as [Hmin|Hmin].
  { unfold min_value. by rewrite Hs. }
  unfold in_range. rewrite dur_num_nanoseconds; [done|]. unfold MAX_MYSQL_TIME_SECONDS, fits_i64 in *.
  pose proof (abs_quot (dur d) 1000000000 ltac:(lia)). Z.div_mod_to_equations. lia.
Qed.

(** ** Fields *)
Definition magnitude t : Z := Z.abs (nanos t) / 1000.

Lemma magnitude_bound t : in_bounds t → 0 ≤ magnitude t < (MAX_MYSQL_TIME_SECONDS + 1) * 1000000.
Proof. unfold in_bounds, magnitude, MAX_MYSQL_TIME_SECONDS. intros Ht. Z.div_mod_to_equations. lia. Qed.

Lemma magnitude_quot t k : 0 < k → Z.abs (Z.quot (nanos t) (k * 1000)) = magnitude t / k.
Proof. intros Hk. rewrite abs_quot by lia. unfold magnitude. by rewrite Z.div_div, (Z.mul_comm k) by lia. Qed.

Lemma dur_duration t : in_bounds t → dur (duration t) = nanos t.
Proof. intros Ht. apply dur_nanoseconds. by apply in_bounds_i64. Qed.

Lemma try_into_id max z0 z : 0 ≤ z ≤ max → try_into max z0 z = z.
Proof. intros Hz. unfold try_into. destruct (Z.leb_spec 0 z), (Z.leb_spec z max); simpl; lia. Qed.

Lemma sixtieths z : 0 ≤ z → Z.min (try_into 255 59 (Z.rem z 60)) 59 = z mod 60.
Proof.
  intros Hz. rewrite Z.rem_mod_nonneg by lia. pose proof (Z.mod_pos_bound z 60 ltac:(lia)).
  rewrite try_into_id by lia. lia.
Qed.

Lemma time_fields t :
  in_bounds t →
  hour t = magnitude t / 3600000000 ∧ minutes t = magnitude t / 60000000 mod 60 ∧
  seconds t = magnitude t / 1000000 mod 60 ∧ microseconds t = magnitude t mod 1000000.
Proof.
  intros Ht. pose proof (magnitude_bound t Ht) as Hm. unfold MAX_MYSQL_TIME_SECONDS in Hm.
  assert (Z.abs (Z.quot (nanos t) 1000) = magnitude t) as Hus by (rewrite abs_quot by lia; done).
  unfold hour, minutes, seconds, microseconds.
  rewrite dur_num_hours, dur_num_minutes, dur_num_seconds, dur_num_microseconds
    by (rewrite dur_duration by done; unfold fits_i64; lia).
  rewrite dur_duration by done.
  change (3600 * 1000000000) with (3600000000 * 1000). change (60 * 1000000000) with (60000000 * 1000).
  change 1000000000 with (1000000 * 1000). rewrite !magnitude_quot by lia. split_and!.
  - apply try_into_id. Z.div_mod_to_equations. lia.
  - apply sixtieths. apply Z.div_pos; lia.
  - apply sixtieths. apply Z.div_pos; lia.
  - change (Z.max (as_u32 (Z.rem (Z.abs (Z.quot (nanos t) 1000)) MICROSECS_IN_SECOND)) 0 = magnitude t mod 1000000).
    rewrite Hus.
    unfold as_u32, MICROSECS_IN_SECOND. rewrite Z.rem_mod_nonneg by lia.
    pose proof (Z.mod_pos_bound (magnitude t) 1000000 ltac:(lia)). rewrite Z.mod_small by lia. lia.
Qed.

(** The fields put together. *)
Lemma fields_sum m :
  0 ≤ m → m / 3600000000 * 3600 * 1000000 + m / 60000000 mod 60 * 60 * 1000000
          + m / 1000000 mod 60 * 1000000 + m mod 1000000 = m.
Proof. intros Hm. Z.div_mod_to_equations. lia. Qed.

Lemma fields_bounds t :
  in_bounds t → 0 ≤ hour t ≤ 838 ∧ 0 ≤ minutes t ≤ 59 ∧ 0 ≤ seconds t ≤ 59 ∧ 0 ≤ microseconds t ≤ 999999.
Proof.
  intros Ht. destruct (time_fields t Ht) as (-> & -> & -> & ->). pose proof (magnitude_bound t Ht) as Hm.
  unfold MAX_MYSQL_TIME_SECONDS in Hm. Z.div_mod_to_equations. lia.
Qed.

Lemma magnitude_sign t : magnitude t * (if is_positive t then 1 else -1) = Z.quot (nanos t) 1000.
Proof.
  unfold magnitude, is_positive. destruct (Z.ltb_spec 0 (nanos t)).
  - rewrite Z.abs_eq, Z.quot_div_nonneg by lia. lia.
  - replace (nanos t) with (- Z.abs (nanos t)) at 2 by lia. rewrite Z.quot_opp_l, Z.quot_div_nonneg by lia. lia.
Qed.

Lemma from_fields t :
  in_bounds t →
  from_hmsus (is_positive t) (hour t) (minutes t) (seconds t) (microseconds t)
  = Ok {| nanos := Z.quot (nanos t) 1000 * 1000 |}.
Proof.
  intros Ht. pose proof (fields_bounds t Ht) as (_ & Hb2 & Hb3 & Hb4). unfold from_hmsus, MICROSECS_IN_SECOND.
  rewrite !Z.min_l by lia. destruct (time_fields t Ht) as (-> & -> & -> & ->).
  pose proof (magnitude_bound t Ht) as Hm. unfold MAX_MYSQL_TIME_SECONDS in Hm.
  rewrite fields_sum, magnitude_sign by lia.
  assert (Z.abs (Z.quot (nanos t) 1000) = magnitude t) as Hq by (rewrite abs_quot by lia; done).
  destruct (time_new_ok (microseconds_of (Z.quot (nanos t) 1000))) as [-> _]. do 2 f_equal.
  rewrite dur_microseconds by (unfold fits_i64; lia). apply clamp_id. unfold MAX_MYSQL_TIME_SECONDS. lia.
Qed.

(** ** Theorems *)

(** Sums and differences of times in range never panic: they are the exact sum or
    difference, or the limit of the range it exceeds, and are in range again, with
    at most 838 hours, 59 minutes, 59 seconds and 999999 microseconds. *)
Theorem mysql_time_arithmetic a b :
  in_bounds a → in_bounds b →
  let sum := {| nanos := clamp (nanos a + nanos b) |} in
  let difference := {| nanos := clamp (nanos a - nanos b) |} in
  time_add a b = Ok sum ∧ time_sub a b = Ok difference ∧ in_bounds sum ∧ in_bounds difference ∧
  hour sum ≤ 838 ∧ minutes sum ≤ 59 ∧ seconds sum ≤ 59 ∧ microseconds sum ≤ 999999.
Proof.
  intros Ha Hb sum difference.
  assert (in_bounds sum) as Hsum by apply clamp_in_bounds.
  pose proof (fields_bounds sum Hsum) as (? & ? & ? & ?). unfold time_add, time_sub.
  assert (∀ z, Z.abs z < 2 * (MAX_MYSQL_TIME_SECONDS + 1) * 1000000000 → fits_i64 z) as Hfit
    by (unfold fits_i64, MAX_MYSQL_TIME_SECONDS; lia).
  pose proof (dur_duration a Ha) as Hda. pose proof (dur_duration b Hb) as Hdb. unfold in_bounds in Ha, Hb.
  destruct (time_new_ok (dur_add (duration a) (duration b))) as [-> _].
  destruct (time_new_ok (dur_sub (duration a) (duration b))) as [-> _].
  rewrite dur_add_spec, dur_sub_spec, Hda, Hdb by (rewrite Hda, Hdb; apply Hfit; lia).
  split_and!; try done; try lia. apply clamp_in_bounds.
Qed.

(** A time is recovered, to the microsecond, from its sign, hour, minutes, seconds
    and microseconds, and from the value the MySQL protocol sends for it. *)
Theorem mysql_time_roundtrip t :
  in_bounds t →
  let t' := {| nanos := Z.quot (nanos t) 1000 * 1000 |} in
  from_hmsus (is_positive t) (hour t) (minutes t) (seconds t) (microseconds t) = Ok t' ∧
  from_value (to_value t) = Ok t'.
Proof.
  intros Ht t'. split; [by apply from_fields|]. unfold from_value, to_value, u32_max.
  pose proof (fields_bounds t Ht) as (Hh & _).
  assert (0 ≤ hour t / 24 ≤ 34) by (Z.div_mod_to_equations; lia).
  pose proof (Z.mod_pos_bound (hour t) 24 ltac:(lia)).
  destruct (Z.ltb_spec (2 ^ 32 - 1) (hour t / 24 * 24)); [lia|]. rewrite (Z.mod_small (_ * 24)) by lia.
  replace (hour t / 24 * 24 + hour t mod 24) with (hour t) by (Z.div_mod_to_equations; lia).
  destruct (Z.ltb_spec 65535 (hour t)); [lia|]. rewrite negb_involutive. by apply from_fields.
Qed.

Lemma lex_compare k x y x' y' :
  0 ≤ y < k → 0 ≤ y' < k → then_cmp (x ?= x') (y ?= y') = (x * k + y ?= x' * k + y').
Proof.
  intros Hy Hy'. symmetry. destruct (Z.compare_spec x x') as [->|Hx|Hx]; simpl.
  - destruct (Z.compare_spec y y'); [apply Z.compare_eq_iff|apply Z.compare_lt_iff|apply Z.compare_gt_iff]; lia.
  - apply Z.compare_lt_iff. nia.
  - apply Z.compare_gt_iff. nia.
Qed.

Lemma fields_compare a b :
  in_bounds a → in_bounds b →
  then_cmp (hour a ?= hour b) (then_cmp (minutes a ?= minutes b)
    (then_cmp (seconds a ?= seconds b) (microseconds a ?= microseconds b)))
  = (magnitude a ?= magnitude b).
Proof.
  intros Ha Hb. pose proof (fields_bounds a Ha) as (? & ? & ? & ?). pose proof (fields_bounds b Hb) as (? & ? & ? & ?).
  rewrite (lex_compare 1000000), (lex_compare 60000000), (lex_compare 3600000000) by lia.
  destruct (time_fields a Ha) as (-> & -> & -> & ->). destruct (time_fields b Hb) as (-> & -> & -> & ->).
  pose proof (magnitude_bound a Ha). pose proof (magnitude_bound b Hb).
  rewrite <-(fields_sum (magnitude a)) at 5 by lia. rewrite <-(fields_sum (magnitude b)) at 5 by lia.
  f_equal; ring.
Qed.

Lemma mysql_time_order_positive a b :
  in_bounds a → in_bounds b → is_positive a = true → is_positive b = true →
  time_cmp a b = (Z.quot (nanos a) 1000 ?= Z.quot (nanos b) 1000).
Proof.
  intros Ha Hb Hpa Hpb. unfold time_cmp. rewrite fields_compare by done.
  rewrite <-(magnitude_sign a), <-(magnitude_sign b), Hpa, Hpb. by rewrite !Z.mul_1_r.
Qed.
Lemma mysql_time_order_negative a b :
  in_bounds a → in_bounds b → is_positive a = false → is_positive b = false →
  time_cmp a b = (Z.quot (nanos b) 1000 ?= Z.quot (nanos a) 1000).
Proof.
  intros Ha Hb Hpa Hpb. unfold time_cmp. rewrite fields_compare by done.
  rewrite <-(magnitude_sign a), <-(magnitude_sign b), Hpa, Hpb. cbn [bool_cmp then_cmp].
  destruct (Z.compare_spec (magnitude a) (magnitude b)); symmetry;
    [apply Z.compare_eq_iff|apply Z.compare_lt_iff|apply Z.compare_gt_iff]; lia.
Qed.

(** Times compare by sign first; positive times then compare as their lengths, to
    the microsecond, and so do negative ones: the later of two negative times is
    the smaller in this order. *)
Theorem mysql_time_negative_order a b :
  in_bounds a → in_bounds b →
  (is_positive a = true → is_positive b = true →
     time_cmp a b = (Z.quot (nanos a) 1000 ?= Z.quot (nanos b) 1000)) ∧
  (is_positive a = false → is_positive b = false →
     time_cmp a b = (Z.quot (nanos b) 1000 ?= Z.quot (nanos a) 1000)).
Proof.
  intros Ha Hb. split; [by apply mysql_time_order_positive|by apply mysql_time_order_negative].
Qed.

(** A time a fraction of a second above the largest time is kept as it is. *)
Theorem mysql_time_exceeds_max :
  ∃ t m, from_microseconds 3020399000001 = Ok t ∧ max_value = Ok m ∧ microseconds t = 1 ∧ time_cmp t m = Gt.
Proof.
  exists {| nanos := 3020399000001000 |}, {| nanos := 3020399000000000 |}.
  assert (in_bounds {| nanos := 3020399000001000 |}) as H1 by done.
  assert (in_bounds {| nanos := 3020399000000000 |}) as H2 by done.
  split_and!.
  - unfold from_microseconds. destruct (time_new_ok (microseconds_of 3020399000001)) as [-> _].
    by rewrite dur_microseconds by done.
  - unfold max_value, in_range. by rewrite dur_num_nanoseconds; rewrite dur_seconds by done.
  - destruct (time_fields _ H1) as (_ & _ & _ & ->). done.
  - by rewrite mysql_time_order_positive.
Qed.

(** The time zero is written with a minus sign. *)
Theorem mysql_zero_display :
  ∃ t, time_default = Ok t ∧ nanos t = 0 ∧ time_display t = str "-00:00:00".
Proof.
  exists {| nanos := 0 |}. assert (in_bounds {| nanos := 0 |}) as H0 by done. split_and!.
  - unfold time_default. destruct (time_new_ok (microseconds_of 0)) as [-> _]. by rewrite dur_microseconds by done.
  - done.
  - unfold time_display. destruct (time_fields _ H0) as (-> & -> & -> & ->). done.
Qed.
End mysql_time.

(** ** Evaluations *)
Definition two_hours_ago : MySqlTime := {| nanos := -7200000000000 |}.
Definition one_hour_ago : MySqlTime := {| nanos := -3600000000000 |}.

Lemma mysql_time_arithmetic_witness :
  time_add two_hours_ago one_hour_ago = Ok {| nanos := -10800000000000 |}.
Proof. destruct (mysql_time_arithmetic two_hours_ago one_hour_ago) as [H _]; [done|done|exact H]. Defined.
Lemma mysql_time_roundtrip_witness : from_value (to_value two_hours_ago) = Ok two_hours_ago.
Proof. destruct (mysql_time_roundtrip two_hours_ago) as [_ H]; [done|exact H]. Defined.
Lemma mysql_time_negative_order_witness : time_cmp two_hours_ago one_hour_ago = Gt.
Proof. destruct (mysql_time_negative_order two_hours_ago one_hour_ago) as [_ H]; [done|done|]. exact (H eq_refl eq_refl). Defined.
