(* ===== verification/Crates.v ===== *)
(** * Crates: the third-party containers behind in-memory state

    [dataflow-state] stores rows in [hashbag::HashBag]s, found through
    [indexmap::IndexMap]s.  Neither crate is part of the repository: each is a
    type class with the operations the code calls and the documented behaviour
    it relies on.  The instances show that the classes can be implemented,
    and let concrete states be evaluated. *)
From stdpp Require Import gmap.
From S2P Require Import Prelude.

(** [HashBag]: a multiset.  [hb_iter] repeats an element as often as it is in
    the bag; [hb_into_iter] (also [drain]) lists every distinct element once,
    with its count.  [hb_try_take] removes one copy. *)
Class HashBag (R B : Type) `{EqDecision R} := {
  hb_default : B;
  hb_insert : B → R → B;
  hb_try_take : B → R → option B;
  hb_len : B → nat;
  hb_iter : B → list R;
  hb_into_iter : B → list (R * nat);
  hb_iter_default : hb_iter hb_default = [];
  hb_iter_insert b x : hb_iter (hb_insert b x) ≡ₚ x :: hb_iter b;
  hb_take_present b x :
    x ∈ hb_iter b → ∃ b', hb_try_take b x = Some b' ∧ x :: hb_iter b' ≡ₚ hb_iter b;
  hb_take_absent b x : x ∉ hb_iter b → hb_try_take b x = None;
  hb_len_iter b : hb_len b = length (hb_iter b);
  hb_into_iter_nodup b : NoDup (hb_into_iter b).*1;
  hb_into_iter_elem b x : x ∈ (hb_into_iter b).*1 ↔ x ∈ hb_iter b;
  hb_into_iter_count b x n : (x, n) ∈ hb_into_iter b → n = length (filter (.= x) (hb_iter b));
}.

(** [IndexMap]: a hash map whose entries have positions.  [im_remove] is
    [remove] and [im_swap_remove_index] takes out the entry at a position. *)
Class IndexMap (K A M : Type) `{EqDecision K} := {
  im_default : M;
  im_get : M → K → option A;
  im_insert : M → K → A → option A * M;
  im_remove : M → K → option A * M;
  im_swap_remove_index : M → nat → option (K * A) * M;
  im_iter : M → list (K * A);
  im_iter_default : im_iter im_default = [];
  im_iter_nodup m : NoDup (im_iter m).*1;
  im_iter_get m k a : (k, a) ∈ im_iter m ↔ im_get m k = Some a;
  im_insert_get m k a k' : im_get (im_insert m k a).2 k' = if decide (k' = k) then Some a else im_get m k';
  im_insert_old m k a : (im_insert m k a).1 = im_get m k;
  im_remove_get m k k' : im_get (im_remove m k).2 k' = if decide (k' = k) then None else im_get m k';
  im_remove_old m k : (im_remove m k).1 = im_get m k;
  im_swap_remove_some m i k a :
    im_iter m !! i = Some (k, a) →
    (im_swap_remove_index m i).1 = Some (k, a) ∧
    ∀ k', im_get (im_swap_remove_index m i).2 k' = if decide (k' = k) then None else im_get m k';
  im_swap_remove_none m i : im_iter m !! i = None → im_swap_remove_index m i = (None, m);
}.

(** [len], [is_empty], [values] and [clear], all of them views of the entries. *)
Section index_map.
Context `{IndexMap K A M}.
Definition im_len (m : M) : nat := length (im_iter m).
Definition im_values (m : M) : list A := (im_iter m).*2.
Definition im_clear (m : M) : M := im_default.

Lemma im_get_default k : im_get (im_default : M) k = None.
Proof.
  destruct (im_get im_default k) as [a|] eqn:E; [|done].
  apply im_iter_get in E. rewrite im_iter_default in E. by apply not_elem_of_nil in E.
Qed.
End index_map.

(** ** Instances: a list as a bag, a [gmap] as an index map *)
Section instances.
Context {K A : Type} `{Countable K}.

(** One copy of an element removed from a list. *)
Fixpoint take_one (l : list K) (x : K) : option (list K) :=
  match l with
  | [] => None
  | y :: l' => if decide (y = x) then Some l' else cons y <$> take_one l' x
  end.

Lemma take_one_present l x : x ∈ l → ∃ l', take_one l x = Some l' ∧ x :: l' ≡ₚ l.
Proof.
  induction l as [|y l IH]; intros Hx; [by apply not_elem_of_nil in Hx|]. simpl. case_decide as E.
  - subst. by exists l.
  - apply elem_of_cons in Hx as [->|Hx]; [done|]. destruct (IH Hx) as (l' & -> & Hl).
    exists (y :: l'). split; [done|]. by rewrite Permutation_swap, Hl.
Qed.

Lemma take_one_absent l x : x ∉ l → take_one l x = None.
Proof.
  induction l as [|y l IH]; intros Hx; [done|]. simpl. apply not_elem_of_cons in Hx as [? Hx].
  rewrite decide_False by done. by rewrite IH.
Qed.

#[export] Instance list_bag : HashBag K (list K).
Proof.
  refine {| hb_default := []; hb_insert l x := x :: l; hb_try_take := take_one;
            hb_len := length; hb_iter l := l;
            hb_into_iter l := (λ x, (x, length (filter (.= x) l))) <$> remove_dups l |}; try done.
  - apply take_one_present.
  - apply take_one_absent.
  - intros l. rewrite <-list_fmap_compose. rewrite (list_fmap_ext _ id), list_fmap_id by done.
    apply NoDup_remove_dups.
  - intros l x. rewrite <-list_fmap_compose. rewrite (list_fmap_ext _ id), list_fmap_id by done.
    apply elem_of_remove_dups.
  - intros l x n (y & [= -> ->] & _)%list_elem_of_fmap. done.
Defined.

#[export] Instance gmap_index_map : IndexMap K A (gmap K A).
Proof.
  refine {| im_default := ∅; im_get m k := m !! k; im_insert m k a := (m !! k, <[k:=a]> m);
            im_remove m k := (m !! k, delete k m); im_iter := map_to_list;
            im_swap_remove_index m i :=
              match map_to_list m !! i with
              | Some (k, a) => (Some (k, a), delete k m)
              | None => (None, m)
              end |}; try done.
  - intros m. apply NoDup_fst_map_to_list.
  - intros m k a. apply elem_of_map_to_list.
  - intros m k a k'. simpl. case_decide; subst; [apply lookup_insert_eq|by apply lookup_insert_ne].
  - intros m k k'. simpl. case_decide; subst; [apply lookup_delete_eq|by apply lookup_delete_ne].
  - intros m i k a ->. split; [done|]. intros k'. simpl.
    case_decide; subst; [apply lookup_delete_eq|by apply lookup_delete_ne].
  - intros m i ->. done.
Defined.
End instances.
