(* ===== verification/KeyedStateProps.v ===== *)
(** * KeyedStateProps: keyed states are partial functions from keys to bags

    Every operation of [KeyedState], on either backing map and for every number
    of key columns, described by its effect on [ks_get]. *)
From S2P Require Import Prelude Intervals BTreeMap IntervalTree IntervalTreeProps PartialMap.
From S2P Require Import Result Records Keys Processing Batches Crates KeyedState.

Section keyed_state_props.
Context `{DfVal V} `{!HashBag (list V) Rows} `{!IndexMap (list V) Rows IM}.
Implicit Types (s : KeyedState V Rows IM) (m : PartialMap (list V) Rows) (r k : list V).

(** The bag stored for a key; [None] is a hole of a [PartialMap], or a key an
    [IndexMap] does not have. *)
Definition ks_get s k : option Rows :=
  match s with KsBTree _ _ m => pm_get m k | KsHash _ _ m => im_get m k end.

Definition ks_is_btree s : bool := match s with KsBTree _ _ _ => true | KsHash _ _ _ => false end.

(** A state for keys of [n] columns. *)
Definition ks_ok (n : nat) s : Prop :=
  (1 ≤ n)%nat ∧
  match s with
  | KsBTree v len m =>
      v = variant_of_len n ∧ len = n ∧ pm_wf m ∧ pm_empty m = default_value
  | KsHash v len m => v = variant_of_len n ∧ len = n
  end.

(** The intervals of filled keys of a [PartialMap]. *)
Definition ks_tree s : option (IntervalTreeSet (list V)) :=
  match s with KsBTree _ _ m => Some (pm_tree m) | KsHash _ _ _ => None end.

(** [s'] is [s] with the bag of one key replaced; a filled key that stays filled
    leaves the intervals alone. *)
Definition ks_updated (n : nat) s (key : list V) (rs : option Rows) s' : Prop :=
  ks_ok n s' ∧ ks_is_btree s' = ks_is_btree s ∧
  (is_Some rs → is_Some (ks_get s key) → ks_tree s' = ks_tree s) ∧
  ∀ k, ks_get s' k = if decide (k = key) then rs else ks_get s k.

(** Columns that exist in a row. *)
Definition cols_fit (cols : list nat) r : Prop := Forall (λ c, (c < length r)%nat) cols.

Lemma ks_ok_btree n m :
  (1 ≤ n)%nat → pm_wf m → pm_empty m = default_value →
  ks_ok n (KsBTree (variant_of_len n) n m : KeyedState V Rows IM).
Proof. done. Qed.

Lemma ks_updated_btree n m m' key rs :
  (1 ≤ n)%nat → pm_wf m' → pm_empty m' = default_value →
  (is_Some rs → is_Some (pm_get m key) → pm_tree m' = pm_tree m) →
  (∀ k, pm_get m' k = if decide (k = key) then rs else pm_get m k) →
  ks_updated n (KsBTree (variant_of_len n) n m) key rs (KsBTree (variant_of_len n) n m').
Proof.
  intros Hn Hwf He Ht Hg. split; [done|]. split; [done|]. split; [|done].
  intros H1 H2. simpl. by rewrite Ht.
Qed.

Lemma ks_updated_hash n (m m' : IM) key rs :
  (1 ≤ n)%nat → (∀ k, im_get m' k = if decide (k = key) then rs else im_get m k) →
  ks_updated n (KsHash (variant_of_len n) n m) key rs (KsHash (variant_of_len n) n m').
Proof. done. Qed.

Lemma front_ok {A} n (l : list A) : (1 ≤ n)%nat → length l = n → front (variant_of_len n) l = Ok l.
Proof.
  intros Hn Hl. unfold front, variant_of_len.
  do 7 (destruct n as [|n]; [try lia; try by (simpl; rewrite Hl; simpl; rewrite take_ge by lia)|]).
  done.
Qed.

Lemma make_key_row_ok n cols r :
  (1 ≤ n)%nat → length cols = n → cols_fit cols r →
  make_key_from_row (variant_of_len n) cols r = Ok (cols_at cols r).
Proof. intros Hn Hl Hf. unfold make_key_from_row. rewrite front_ok by done. by apply row_cols_at. Qed.

Lemma cols_at_len cols r : cols_fit cols r → length (cols_at cols r) = length cols.
Proof.
  induction 1 as [|c cols Hc Hf IH]; [done|]. unfold cols_at in *. csimpl.
  destruct (lookup_lt_is_Some_2 r c Hc) as [v ->]. simpl. by rewrite IH.
Qed.

Lemma key_fits_ok n pk k :
  (1 ≤ n)%nat → length k = n → point_key_from k = Ok pk →
  pk_elems pk = k ∧ key_fits (variant_of_len n) n pk = true.
Proof.
  intros Hn <- Hp. destruct k as [|x k]; [discriminate|].
  unfold point_key_from in Hp. injection Hp as <-. split; [done|].
  unfold key_fits; cbn [pk_variant pk_elems]. rewrite bool_decide_true by done.
  rewrite Nat.eqb_refl. by destruct (variant_of_len _).
Qed.

Lemma ks_lookup_ok n s pk k :
  ks_ok n s → length k = n → point_key_from k = Ok pk → ks_lookup s pk = Ok (ks_get s k).
Proof.
  intros [Hn Hs] Hl Hp. destruct (key_fits_ok n pk k Hn Hl Hp) as [He Hf].
  destruct s as [v len m|v len m]; simpl; destruct Hs as [-> Hs];
    [destruct Hs as [-> _]|rewrite Hs]; by rewrite Hf, He.
Qed.

(** [SingleState::new] and [add_weak_key] start from an empty state. *)
Lemma ks_from_ok index :
  (1 ≤ length (columns index))%nat →
  ks_ok (length (columns index)) (ks_from index : KeyedState V Rows IM) ∧
  ks_is_btree (ks_from index : KeyedState V Rows IM) = bool_decide (index_type index = IxBTreeMap) ∧
  ∀ k, ks_get (ks_from index : KeyedState V Rows IM) k = None.
Proof.
  intros Hn. unfold ks_from, ks_ok. destruct (index_type index); simpl; split_and!; try done.
  - intros k. apply im_get_default.
  - split; [apply SSorted_nil|]. split; [|done].
    split_and!; [apply SSorted_nil|done|]. intros e1 e2 He. by apply not_elem_of_nil in He.
Qed.

Lemma pm_get_mut_tree m key rs0 write rs :
  pm_get_mut m key = Some (rs0, write) → pm_tree (write rs) = pm_tree m.
Proof.
  unfold pm_get_mut. destruct (bm_get (pm_map m) key); [by intros [= <- <-]|].
  destruct (contains_point _ _); [by intros [= <- <-]|done].
Qed.

Lemma pm_insert_row_ok v m key r partial :
  pm_wf m → pm_empty m = default_value →
  ∃ m', pm_insert_row v m key r partial = Ok (bool_decide (is_Some (pm_get m key)) || negb partial, m') ∧
  pm_wf m' ∧ pm_empty m' = default_value ∧ (pm_get m key = None → partial = true → m' = m) ∧
  (is_Some (pm_get m key) → pm_tree m' = pm_tree m) ∧
  ∀ k, pm_get m' k = match pm_get m key with
                     | None => if partial then pm_get m k
                               else if decide (k = key) then Some (hb_insert hb_default r) else pm_get m k
                     | Some rs => if decide (k = key) then Some (hb_insert rs r) else pm_get m k
                     end.
Proof.
  intros Hwf He. pose proof (pm_get_mut_correct m key Hwf He) as Hmut.
  pose proof (pm_entry_correct m key Hwf He) as (v0 & w & Hor & Hv0 & Hw).
  assert (∀ e, pm_entry m key = EntryOccupied e → occupied_into_mut m e = (v0, w) ∧ is_Some (pm_get m key) ∧
    ∀ rs, pm_tree (w rs) = pm_tree m) as Hocc.
  { intros e Hent. rewrite Hent in Hor. injection Hor as Hor. split; [done|].
    clear -Hent Hor. unfold pm_entry, pm_get in *.
    destruct (bm_get (pm_map m) key); [|destruct (contains_point (pm_tree m) key); [|discriminate]];
      injection Hent as <-; injection Hor as <- <-; eauto. }
  assert (∀ k0, pm_entry m key = EntryVacant k0 → pm_get m key = None) as Hvac.
  { intros k0. unfold pm_entry, pm_get.
    destruct (bm_get (pm_map m) key); [done|]. by destruct (contains_point _ _). }
  destruct (decide (v = Single)) as [->|Hv].
  - unfold pm_insert_row. destruct (pm_get_mut m key) as [[rs write]|] eqn:Hgm.
    + destruct Hmut as [Hg Hs]. destruct (Hs (hb_insert rs r)) as (Hw1 & Hw2 & Hw3).
      exists (write (hb_insert rs r)). rewrite Hg, bool_decide_true by done.
      split_and!; [done|done|congruence|congruence|intros _; by eapply pm_get_mut_tree|intros k; rewrite Hw3; by repeat case_decide].
    + rewrite Hmut. rewrite bool_decide_false by (by intros [? ?]). destruct partial; simpl; [exists m; by split_and!|].
      destruct (pm_insert_correct m key (hb_insert hb_default r) Hwf) as (m' & -> & Hwf' & He' & Hg').
      exists m'. split_and!; [done|done|congruence|congruence|by intros [? ?]|intros k; rewrite Hg'; by repeat case_decide].
  - assert (pm_insert_row v m key r partial =
      match pm_entry m key with
      | EntryOccupied e => let '(rs, write) := occupied_into_mut m e in Ok (true, write (hb_insert rs r))
      | EntryVacant k as e =>
          if partial then Ok (false, m)
          else '(rs, write) ← expect (entry_or_default m e); Ok (true, write (hb_insert rs r))
      end) as -> by (by destruct v).
    destruct (Hw (hb_insert v0 r)) as (Hw1 & Hw2 & Hw3).
    destruct (pm_entry m key) as [k0|e] eqn:Hent.
    + rewrite (Hvac _ eq_refl) in *. rewrite bool_decide_false by (by intros [? ?]).
      destruct partial; [exists m; by split_and!|]. simpl in Hv0.
      exists (w (hb_insert v0 r)). rewrite Hor.
      split_and!; [done|done|congruence|congruence|by intros [? ?]|intros k; rewrite Hw3; subst v0; by repeat case_decide].
    + destruct (Hocc _ eq_refl) as (-> & [rs Hrs] & Htree). rewrite Hrs in Hv0 |- *. simpl in Hv0. subst v0.
      rewrite bool_decide_true by done. exists (w (hb_insert rs r)).
      split_and!; [done|done|congruence|congruence|done|intros k; rewrite Hw3; by repeat case_decide].
Qed.

Lemma ks_insert_ok n s cols r partial :
  ks_ok n s → length cols = n → cols_fit cols r →
  ∃ s', ks_insert s cols r partial =
          Ok (bool_decide (is_Some (ks_get s (cols_at cols r))) || negb partial, s') ∧
  match ks_get s (cols_at cols r) with
  | Some rs => ks_updated n s (cols_at cols r) (Some (hb_insert rs r)) s'
  | None => if partial then s' = s
            else ks_updated n s (cols_at cols r) (Some (hb_insert hb_default r)) s'
  end.
Proof.
  intros [Hn Hs] Hl Hf. set (key := cols_at cols r).
  destruct s as [v len m|v len m]; simpl in Hs |- *; destruct Hs as [-> Hs].
  - destruct Hs as (-> & Hwf & He). rewrite make_key_row_ok by done. cbn [mbind result_bind].
    fold key. destruct (pm_insert_row_ok (variant_of_len n) m key r partial Hwf He)
      as (m' & -> & Hwf' & He' & Hsame & Htree & Hg'). cbn [mbind result_bind].
    destruct (pm_get m key) as [rs|] eqn:Hget; [|destruct partial].
    + eexists. split; [done|]. apply ks_updated_btree; [done|done|done|intros _ _; by apply Htree|].
      intros k. rewrite Hg'. by repeat case_decide.
    + rewrite Hsame by done. by exists (KsBTree (variant_of_len n) n m).
    + eexists. split; [done|]. apply ks_updated_btree; [done|done|done|rewrite Hget; by intros _ [? ?]|].
      intros k. rewrite Hg'. by repeat case_decide.
  - subst len. rewrite make_key_row_ok by done. cbn [mbind result_bind]. fold key.
    unfold im_insert_row. destruct (im_get m key) as [rs|] eqn:Hget; [|destruct partial].
    + eexists. split; [done|]. apply ks_updated_hash; [done|]. intros k.
      rewrite im_insert_get. by repeat case_decide.
    + eexists. done.
    + eexists. split; [done|]. apply ks_updated_hash; [done|]. intros k.
      rewrite im_insert_get. by repeat case_decide.
Qed.

(** Removing a row that is in the bag removes one copy of it, also on the
    shortcut for bags of one row. *)
Lemma do_remove_ok (rs : Rows) r :
  r ∈ hb_iter rs → ∃ rs', do_remove rs r = (Some r, rs') ∧ r :: hb_iter rs' ≡ₚ hb_iter rs.
Proof.
  intros Hr. unfold do_remove. rewrite hb_len_iter. destruct (Nat.eqb_spec (length (hb_iter rs)) 1) as [E|E].
  - destruct (hb_iter rs) as [|x [|y l]] eqn:El; simpl in E; try lia.
    apply list_elem_of_singleton in Hr as ->. exists hb_default. rewrite hb_iter_default.
    split; [|done]. f_equal.
    pose proof (hb_into_iter_elem rs) as Hel. rewrite El in Hel.
    destruct (hb_into_iter rs) as [|[y n] l]; simpl in Hel |- *.
    + exfalso. assert (x ∈ @nil (list V)) as Hx by (apply Hel, elem_of_here). by apply not_elem_of_nil in Hx.
    + f_equal. apply list_elem_of_singleton, Hel, elem_of_here.
  - destruct (hb_take_present rs r Hr) as (rs' & -> & Hp). by exists rs'.
Qed.

Lemma ks_remove_ok n s cols r :
  ks_ok n s → length cols = n → cols_fit cols r →
  ∃ row s', ks_remove s cols r = Ok (bool_decide (is_Some (ks_get s (cols_at cols r))), row, s') ∧
  match ks_get s (cols_at cols r) with
  | Some rs => row = (do_remove rs r).1 ∧ ks_updated n s (cols_at cols r) (Some (do_remove rs r).2) s'
  | None => row = None ∧ s' = s
  end.
Proof.
  intros [Hn Hs] Hl Hf. set (key := cols_at cols r).
  destruct s as [v len m|v len m]; simpl in Hs |- *; destruct Hs as [-> Hs].
  - destruct Hs as (-> & Hwf & He). rewrite make_key_row_ok by done. cbn [mbind result_bind]. fold key.
    pose proof (pm_get_mut_correct m key Hwf He) as Hmut.
    destruct (pm_get_mut m key) as [[rs write]|] eqn:Hgm.
    + destruct Hmut as [-> Hw]. destruct (do_remove rs r) as [row rs'].
      destruct (Hw rs') as (Hw1 & Hw2 & Hw3). do 2 eexists. split; [done|]. split; [done|].
      apply ks_updated_btree; [done|done|congruence|intros _ _; by eapply pm_get_mut_tree|].
      intros k; rewrite Hw3; by repeat case_decide.
    + rewrite Hmut. by do 2 eexists.
  - subst len. rewrite make_key_row_ok by done. cbn [mbind result_bind]. fold key.
    destruct (im_get m key) as [rs|].
    + destruct (do_remove rs r) as [row rs']. do 2 eexists. split; [done|]. split; [done|].
      apply ks_updated_hash; [done|]. intros k. rewrite im_insert_get; by repeat case_decide.
    + by do 2 eexists.
Qed.

(** Bounds whose keys have [n] columns. *)
Definition bound_fits (n : nat) (b : Bound (list V)) : Prop :=
  match b with Included k | Excluded k => length k = n | Unbounded => True end.
Definition range_fits (n : nat) (r : BoundPair (list V)) : Prop := bound_fits n r.1 ∧ bound_fits n r.2.

Lemma make_range_ok n range :
  (1 ≤ n)%nat → range_fits n range →
  make_key_from_range (variant_of_len n) range = Ok range ∧
  bound_len_ok n range.1 = true ∧ bound_len_ok n range.2 = true.
Proof.
  intros Hn [Hlo Hhi]. destruct range as [lo hi]. simpl in *.
  assert (∀ b, bound_fits n b → make_bound (variant_of_len n) b = Ok b ∧ bound_len_ok n b = true) as Hb.
  { intros [k|k|] Hk; simpl in *; try done; unfold make_key_from_key; rewrite front_ok by done;
      (split; [done|]); unfold bound_len_ok; simpl; by apply Nat.eqb_eq. }
  destruct (Hb _ Hlo) as [H1 ?], (Hb _ Hhi) as [H2 ?]. unfold make_key_from_range; simpl.
  by rewrite H1, H2.
Qed.

Lemma ks_insert_range_ok n s range :
  ks_ok n s → ks_is_btree s = true → range_fits n range → range_valid range = true →
  ∃ s', ks_insert_range s range = Ok s' ∧ ks_ok n s' ∧ ks_is_btree s' = true ∧
  ∀ k, ks_get s' k = match ks_get s k with
                     | Some rs => Some rs
                     | None => if in_range range k then Some hb_default else None
                     end.
Proof.
  intros [Hn Hs] Hb Hf Hv. destruct s as [v len m|]; [|done]. destruct Hs as (-> & -> & Hwf & He).
  destruct (make_range_ok n range Hn Hf) as (Hr & Hl1 & Hl2). unfold ks_insert_range.
  rewrite Hr, Hl1, Hl2. cbn [mbind result_bind andb].
  destruct (pm_insert_range_correct m range Hwf Hv) as (m' & Hm & Hwf' & He' & Hg').
  exists (KsBTree (variant_of_len n) n m'). rewrite Hm.
  split; [by destruct (variant_of_len n)|]. split; [by apply ks_ok_btree; [done..|congruence]|]. split; [done|].
  intros k. simpl. rewrite Hg', He. done.
Qed.

(** Taking a key out, whatever way it was chosen. *)
Lemma ks_evict_ok n s key :
  ks_ok n s → length key = n →
  ∃ rs s', ks_evict s key = Ok (rs, s') ∧ ks_updated n s key None s' ∧
    default [] (hb_iter <$> rs) = default [] (hb_iter <$> ks_get s key).
Proof.
  intros [Hn Hs] Hl. unfold ks_evict. destruct s as [v len m|v len m]; simpl in Hs; destruct Hs as [-> Hs];
    unfold make_key_from_key; rewrite front_ok by done; cbn [mbind result_bind].
  - destruct Hs as (-> & Hwf & He).
    destruct (pm_remove_correct m key Hwf) as (m' & -> & Hwf' & He' & Hg'). simpl.
    do 2 eexists. split; [done|]. split.
    + apply ks_updated_btree; [done|done|congruence|by intros [? ?]|].
      intros k; rewrite Hg'; by repeat case_decide.
    + simpl. unfold pm_get. destruct (bm_get (pm_map m) key); [done|]. simpl.
      destruct (contains_point _ _); simpl; [|done]. rewrite He. symmetry. apply hb_iter_default.
  - subst len. pose proof (im_remove_old m key) as Ho. pose proof (im_remove_get m key) as Hg.
    destruct (im_remove m key) as [rs m']. simpl in Ho, Hg. subst rs. do 2 eexists.
    split; [done|]. split; [|done]. apply ks_updated_hash; [done|]. intros k. rewrite Hg. by repeat case_decide.
Qed.

Lemma hb_collect_iter (l : list (list V)) : hb_iter (hb_collect l : Rows) ≡ₚ l.
Proof.
  unfold hb_collect. assert (∀ b : Rows, hb_iter (foldl hb_insert b l) ≡ₚ hb_iter b ++ l) as Hf.
  { induction l as [|x l IH]; intros b; simpl; [by rewrite app_nil_r|].
    rewrite IH, hb_iter_insert. apply Permutation_middle. }
  by rewrite Hf, hb_iter_default.
Qed.

Lemma ks_evict_range_ok n s range :
  ks_ok n s → ks_is_btree s = true → range_fits n range → range_valid range = true →
  ∃ rs s', ks_evict_range s range = Ok (rs, s') ∧ ks_ok n s' ∧ ks_is_btree s' = true ∧
    (∀ k, ks_get s' k = if in_range range k then None else ks_get s k) ∧
    ∀ r, r ∈ hb_iter rs → ∃ k b, ks_get s k = Some b ∧ r ∈ hb_iter b.
Proof.
  intros [Hn Hs] Hb Hf Hv. destruct s as [v len m|]; [|done]. destruct Hs as (-> & -> & Hwf & He).
  destruct (make_range_ok n range Hn Hf) as (Hr & _ & _). unfold ks_evict_range. rewrite Hr. cbn [mbind result_bind].
  destruct (pm_remove_range_correct m range Hwf Hv) as (m' & -> & Hwf' & He' & Hg').
  do 2 eexists. split; [done|]. split; [by apply ks_ok_btree; [done..|congruence]|]. split; [done|]. split; [done|].
  intros r. rewrite hb_collect_iter. intros ([k b] & Hr' & Hin)%list_elem_of_bind.
  apply hb_into_iter_elem in Hr'. exists k, b. split; [|done]. simpl.
  apply list_elem_of_filter in Hin as [_ Hin]. apply bm_get_elem in Hin; [|apply Hwf]. unfold pm_get. by rewrite Hin.
Qed.

(** [evict_with_seed] takes out one whole entry, its key with its rows; on a
    state with entries it always does, except that a five-column hash index is
    never evicted from. *)
Lemma ks_evict_with_seed_ok n s seed :
  ks_ok n s →
  ∃ e s', ks_evict_with_seed s seed = Ok (e, s') ∧
  match e with
  | Some (rs, key) => ks_get s key = Some rs ∧ ks_updated n s key None s'
  | None => s' = s ∧ (ks_key_count s = 0 ∨ (n = 5 ∧ ks_is_btree s = false))
  end.
Proof.
  intros [Hn Hs]. destruct s as [v len m|v len m]; destruct Hs as [-> Hs]; unfold ks_evict_with_seed, ks_key_count.
  - destruct Hs as (-> & Hwf & He). destruct (Nat.eqb_spec (pm_num_keys m) 0) as [E|E].
    { exists None. eexists. split; [done|]. split; [done|by left]. }
    assert (seed mod pm_num_keys m < length (bm_keys (pm_map m)))%nat as Hlt.
    { unfold bm_keys. rewrite length_fmap. by apply Nat.mod_upper_bound. }
    destruct (lookup_lt_is_Some_2 _ _ Hlt) as [key Hkey]. rewrite Hkey. cbn [expect mbind result_bind].
    apply list_elem_of_lookup_2, list_elem_of_fmap in Hkey as ([key' rs] & Hk & Hin). simpl in Hk. subst key'.
    apply bm_get_elem in Hin; [|apply Hwf].
    destruct (pm_remove_correct m key Hwf) as (m' & Hm & Hwf' & He' & Hg').
    unfold pm_remove_entry. unfold pm_remove in Hm. rewrite Hin in Hm |- *.
    destruct (remove_point (pm_tree m) key) as [t|]; [|done]. simpl in Hm |- *. injection Hm as <-.
    exists (Some (rs, key)). eexists. split; [done|]. split; [simpl; unfold pm_get; by rewrite Hin|].
    apply ks_updated_btree; [done|done|congruence|by intros [? ?]|].
    intros k; rewrite Hg'; by repeat case_decide.
  - subst len. destruct (decide (variant_of_len n = Quin)) as [Ev|Ev].
    { rewrite Ev. exists None. eexists. split; [done|]. split; [done|]. right. split; [|done].
      do 6 (destruct n as [|n]; [done|]). by destruct n. }
    assert (∀ A (x y : A), match variant_of_len n with Quin => x | _ => y end = y) as Hv
      by (by intros; destruct (variant_of_len n)).
    rewrite Hv. destruct (Nat.eqb_spec (im_len m) 0) as [E|E].
    { exists None. eexists. split; [done|]. split; [done|by left]. }
    destruct (lookup_lt_is_Some_2 (im_iter m) (seed mod im_len m)) as [[key rs] Hkey];
      [by apply Nat.mod_upper_bound|].
    destruct (im_swap_remove_some m _ key rs Hkey) as [Hold Hg].
    destruct (im_swap_remove_index m (seed mod im_len m)) as [e m']. simpl in Hold, Hg. subst e.
    exists (Some (rs, key)). eexists. split; [done|]. split.
    + apply im_iter_get. by eapply list_elem_of_lookup_2.
    + apply ks_updated_hash; [done|]. intros k. rewrite Hg. by repeat case_decide.
Qed.
End keyed_state_props.
