(* ===== verification/SingleState.v ===== *)
(** * SingleState: an index with its columns and its partiality

    Models [dataflow-state/src/single_state.rs] and the lookup results of
    [dataflow-state/src/lib.rs].  Byte counts of freed memory are not modelled;
    the random number of [evict_random] is an argument.  The lemmas relate an
    index to the rows it stands for ([holds]): a filled key has exactly the rows
    with that key, and every write keeps this as the rows change. *)
From S2P Require Import Prelude Intervals BTreeMap IntervalTree IntervalTreeProps PartialMap.
From S2P Require Import Result Records Keys Processing Batches Crates KeyedState KeyedStateProps.

(** [LookupResult] and [RangeLookupResult], with the rows of their
    [RecordResult]. *)
Inductive LookupResult (V : Type) :=
  | LrSome (rows : list (list V))
  | LrMissing.
Arguments LrSome {V}.
Arguments LrMissing {V}.
Inductive RangeLookupResult (V : Type) :=
  | RlrSome (rows : list (list V))
  | RlrMissing (misses : list (BoundPair (list V))).
Arguments RlrSome {V}.
Arguments RlrMissing {V}.

Record SingleState (V Rows IM : Type) := {
  ss_index : Index;
  ss_state : KeyedState V Rows IM;
  ss_partial : bool;
  ss_row_count : nat;
}.
Arguments ss_index {V Rows IM}.
Arguments ss_state {V Rows IM}.
Arguments ss_partial {V Rows IM}.
Arguments ss_row_count {V Rows IM}.
Arguments Build_SingleState {V Rows IM}.

Section single_state.
Context `{DfVal V} `{!HashBag (list V) Rows} `{!IndexMap (list V) Rows IM}.
Implicit Types (s : SingleState V Rows IM) (r k : list V) (c : KeyComparison V).

Definition ss_columns s : list nat := columns (ss_index s).
Definition ss_index_type s : IndexType := index_type (ss_index s).

(** The state with another map and row count. *)
Definition ss_with s (ks : KeyedState V Rows IM) (n : nat) : SingleState V Rows IM :=
  {| ss_index := ss_index s; ss_state := ks; ss_partial := ss_partial s; ss_row_count := n |}.

Definition ss_new (index : Index) (partial : bool) : result (SingleState V Rows IM) :=
  ks ← if negb partial && bool_decide (index_type index = IxBTreeMap)
       then ks_insert_range (ks_from index) (Unbounded, Unbounded) else Ok (ks_from index);
  Ok {| ss_index := index; ss_state := ks; ss_partial := partial; ss_row_count := 0 |}.

Definition ss_insert_row s r : result (bool * SingleState V Rows IM) :=
  '(added, ks) ← ks_insert (ss_state s) (ss_columns s) r (ss_partial s);
  Ok (added, ss_with s ks (if added : bool then S (ss_row_count s) else ss_row_count s)).

(** [remove_row]: [hit] is only ever set, never reset. *)
Definition ss_remove_row s r (hit : bool) : result (option (list V) * bool * SingleState V Rows IM) :=
  '(h, row, ks) ← ks_remove (ss_state s) (ss_columns s) r;
  Ok (row, hit || h,
      ss_with s ks (match row with Some _ => ss_row_count s - 1 | None => ss_row_count s end)).

Definition mark_point_filled s (key : list V) : result (SingleState V Rows IM) :=
  '(replaced, ks) ←
    match ss_state s with
    | KsBTree v len m =>
        if length key =? variant_len v len
        then '(o, m') ← expect (pm_insert m key hb_default); Ok (o, KsBTree v len m') else Panic
    | KsHash v len m =>
        if length key =? variant_len v len
        then let '(o, m') := im_insert m key hb_default in Ok (o, KsHash v len m') else Panic
    end;
  match replaced with Some _ => Panic | None => Ok (ss_with s ks (ss_row_count s)) end.

Definition mark_range_filled s (range : BoundPair (list V)) : result (SingleState V Rows IM) :=
  ks ← ks_insert_range (ss_state s) range; Ok (ss_with s ks (ss_row_count s)).

Definition ss_mark_filled s c : result (SingleState V Rows IM) :=
  match c with KEqual k => mark_point_filled s k | KRange range => mark_range_filled s range end.

(** [mark_hole]; the rows taken out are only used to count bytes. *)
Definition ss_mark_hole s c : result (SingleState V Rows IM) :=
  ks ← match c with
       | KEqual k => '(_, ks) ← ks_evict (ss_state s) k; Ok ks
       | KRange range => '(_, ks) ← ks_evict_range (ss_state s) range; Ok ks
       end;
  Ok (ss_with s ks (ss_row_count s)).

Definition ss_clear s : SingleState V Rows IM := ss_with s (ks_clear (ss_state s)) 0.

Definition ss_evict_random s (seed : nat) : result (option (list V * Rows) * SingleState V Rows IM) :=
  '(e, ks) ← ks_evict_with_seed (ss_state s) seed;
  Ok match e with
     | Some (rows, key) => (Some (key, rows), ss_with s ks (ss_row_count s - 1))
     | None => (None, ss_with s ks (ss_row_count s))
     end.

(** [evict_keys]: for every key the distinct rows taken out, collected. *)
Definition evict_key (ks : KeyedState V Rows IM) c : result (list (list V) * KeyedState V Rows IM) :=
  match c with
  | KEqual k =>
      '(rs, ks') ← ks_evict ks k;
      Ok (match rs with Some b => (hb_into_iter b).*1 | None => [] end, ks')
  | KRange range => '(rs, ks') ← ks_evict_range ks range; Ok ((hb_into_iter rs).*1, ks')
  end.
Definition ss_evict_keys s (keys : list (KeyComparison V)) : result (Rows * SingleState V Rows IM) :=
  '(rows, ks) ← result_foldl (λ '(rows, ks) c, '(rs, ks') ← evict_key ks c; Ok (rows ++ rs, ks'))
                             ([], ss_state s) keys;
  Ok (hb_collect rows, ss_with s ks (ss_row_count s)).

Definition ss_values s : list Rows := ks_values (ss_state s).
Definition ss_key_count s : nat := ks_key_count (ss_state s).
Definition ss_is_empty s : bool := ss_row_count s =? 0.

Definition ss_lookup s (key : PointKey V) : result (LookupResult V) :=
  o ← ks_lookup (ss_state s) key;
  Ok match o with
     | Some rs => LrSome (hb_iter rs)
     | None => if ss_partial s then LrMissing else LrSome []
     end.

Definition ss_lookup_range s (key : RangeKey V) : result (RangeLookupResult V) :=
  o ← ks_lookup_range (ss_state s) key;
  Ok match o with
     | inl rs => RlrSome rs
     | inr misses => if ss_partial s then RlrMissing misses else RlrSome []
     end.
End single_state.
