(* ===== verification/SingleStateProps.v ===== *)
(** * SingleStateProps: an index holds the rows of its filled keys

    [holds s F]: every filled key [k] of the index has exactly the rows [F k].
    For the rows [R] of a node, [F] is [rows_with (ss_columns s) R].  Writes and
    removals change [F] at the key of the row, fillings and evictions change
    which keys are filled, and lookups read [F]. *)
From S2P Require Import Prelude Intervals BTreeMap IntervalTree IntervalTreeProps PartialMap.
From S2P Require Import Result Records Keys Processing Batches Crates KeyedState KeyedStateProps.
From S2P Require Import SingleState.

Section single_state_props.
Context `{DfVal V} `{!HashBag (list V) Rows} `{!IndexMap (list V) Rows IM}.
Implicit Types (s : SingleState V Rows IM) (r k : list V) (c : KeyComparison V) (R : list (list V)).
Implicit Types (F : list V → list (list V)).

(** The tree of the interval of all keys. *)
Definition full_tree : IntervalTreeSet (list V) := [LowerUnbounded; UpperUnbounded].

(** A well-formed index; the [PartialMap] of a full index has no hole. *)
Definition ss_ok s : Prop :=
  ks_ok (length (ss_columns s)) (ss_state s) ∧
  ks_is_btree (ss_state s) = bool_decide (ss_index_type s = IxBTreeMap) ∧
  (ss_partial s = false → ss_index_type s = IxBTreeMap → ks_tree (ss_state s) = Some full_tree).

Lemma full_get (ks : KeyedState V Rows IM) k : ks_tree ks = Some full_tree → is_Some (ks_get ks k).
Proof.
  destruct ks as [v len m|]; [|done]. intros [= Hm]. simpl. unfold pm_get. rewrite Hm.
  by destruct (bm_get (pm_map m) k).
Qed.

Lemma full_difference (r : BoundPair (list V)) :
  range_valid r = true → get_interval_difference full_tree r = Some [].
Proof.
  intros Hv. unfold get_interval_difference. rewrite range_valid_check by done.
  by destruct r as [[] []].
Qed.

(** A key that can be looked up: not a hole. *)
Definition ss_filled s k : bool := bool_decide (is_Some (ks_get (ss_state s) k)) || negb (ss_partial s).

(** The rows with a key. *)
Definition rows_with (cols : list nat) R k : list (list V) := filter (λ r, cols_at cols r = k) R.

Definition holds s F : Prop :=
  ∀ k, match ks_get (ss_state s) k with
       | Some rs => hb_iter rs ≡ₚ F k
       | None => ss_partial s = false → F k = []
       end.

Lemma holds_ext s F F' : holds s F → (∀ k, F k ≡ₚ F' k) → holds s F'.
Proof.
  intros Hh HF k. specialize (Hh k). specialize (HF k). destruct (ks_get (ss_state s) k).
  - by rewrite Hh.
  - intros Hp. rewrite (Hh Hp) in HF. by apply Permutation_nil_l in HF.
Qed.

(** [s'] is the same index after an operation, with the same filled keys. *)
Definition same_index s s' : Prop :=
  ss_index s' = ss_index s ∧ ss_partial s' = ss_partial s ∧ ∀ k, ss_filled s' k = ss_filled s k.

#[export] Instance same_index_preorder : PreOrder same_index.
Proof.
  split; [by intros s|]. intros s1 s2 s3 (E1 & E2 & E3) (E4 & E5 & E6).
  split_and!; [congruence|congruence|]. intros k. by rewrite E6, E3.
Qed.

(** A new bag for a filled key. *)
Lemma write_ok s (ks : KeyedState V Rows IM) n key rs F F' :
  ss_ok s → holds s F → ss_filled s key = true →
  ks_updated (length (ss_columns s)) (ss_state s) key (Some rs) ks →
  hb_iter rs ≡ₚ F' key → (∀ k, k ≠ key → F' k = F k) →
  ss_ok (ss_with s ks n) ∧ same_index s (ss_with s ks n) ∧ holds (ss_with s ks n) F'.
Proof.
  intros (Hok & Hb & Hfull) Hh Hf (Hok' & Hb' & Htree & Hg) Hrs HF. split_and!.
  - split_and!; [done|exact (eq_trans Hb' Hb)|]. intros Hp Ht. simpl.
    rewrite Htree; [by apply Hfull|done|]. by apply full_get, Hfull.
  - split_and!; [done|done|]. intros k. unfold ss_filled; simpl. rewrite Hg. destruct (decide (k = key)); [|done].
    subst k. rewrite bool_decide_true by done. symmetry. apply Hf.
  - intros k. simpl. rewrite Hg. destruct (decide (k = key)) as [E|E]; [by subst|]. rewrite HF by done. apply Hh.
Qed.

(** A write to a hole changes nothing. *)
Lemma hole_ok s n key F F' :
  ss_ok s → holds s F → ss_filled s key = false → (∀ k, k ≠ key → F' k = F k) →
  ss_ok (ss_with s (ss_state s) n) ∧ same_index s (ss_with s (ss_state s) n) ∧
  holds (ss_with s (ss_state s) n) F'.
Proof.
  intros Hok Hh Hf HF. split_and!; [done|done|]. intros k. simpl.
  destruct (decide (k = key)) as [->|E]; [|rewrite HF by done; apply Hh].
  unfold ss_filled in Hf. apply orb_false_iff in Hf as [Hf Hp]. apply bool_decide_eq_false in Hf.
  destruct (ks_get (ss_state s) key); [by destruct Hf|]. intros Hp'. by rewrite Hp' in Hp.
Qed.

Lemma insert_row_ok s r F :
  ss_ok s → cols_fit (ss_columns s) r → holds s F →
  ∃ s', ss_insert_row s r = Ok (ss_filled s (cols_at (ss_columns s) r), s') ∧
    ss_ok s' ∧ same_index s s' ∧
    holds s' (λ k, if decide (k = cols_at (ss_columns s) r) then r :: F k else F k).
Proof.
  intros Hok Hfit Hh. set (key := cols_at (ss_columns s) r).
  destruct (ks_insert_ok _ _ _ r (ss_partial s) (proj1 Hok) eq_refl Hfit) as (ks & Hins & Hcase).
  fold key in Hins, Hcase. unfold ss_insert_row. rewrite Hins. cbn [mbind result_bind]. fold (ss_filled s key).
  eexists. split; [done|]. pose proof (Hh key) as Hhk.
  destruct (ks_get (ss_state s) key) as [rs|] eqn:Hget; [|destruct (ss_partial s) eqn:Hp].
  - eapply write_ok; [done|done| |done| |].
    + unfold ss_filled. rewrite Hget. by rewrite bool_decide_true.
    + rewrite decide_True by done. by rewrite hb_iter_insert, Hhk.
    + intros k Hk. by rewrite decide_False.
  - subst ks. apply (hole_ok s _ key F); [done|done| |by intros k Hk; rewrite decide_False].
    unfold ss_filled. rewrite Hget, Hp. by rewrite bool_decide_false by (by intros [? ?]).
  - eapply write_ok; [done|done| |done| |].
    + unfold ss_filled. rewrite Hp. apply orb_true_r.
    + rewrite decide_True by done. by rewrite hb_iter_insert, hb_iter_default, Hhk.
    + intros k Hk. by rewrite decide_False.
Qed.

(** Removing a row the filled key has, under a view [F'] without it. *)
Lemma remove_row_ok s r F F' hit :
  ss_ok s → cols_fit (ss_columns s) r → holds s F →
  F (cols_at (ss_columns s) r) ≡ₚ r :: F' (cols_at (ss_columns s) r) →
  (∀ k, k ≠ cols_at (ss_columns s) r → F' k = F k) →
  ∃ row s', ss_remove_row s r hit = Ok (row, hit || ss_filled s (cols_at (ss_columns s) r), s') ∧
    ss_ok s' ∧ same_index s s' ∧ holds s' F'.
Proof.
  intros Hok Hfit Hh HF HF'. set (key := cols_at (ss_columns s) r) in *.
  destruct (ks_remove_ok _ _ _ r (proj1 Hok) eq_refl Hfit) as (row & ks & Hrm & Hcase).
  fold key in Hrm, Hcase. unfold ss_remove_row. rewrite Hrm. cbn [mbind result_bind].
  pose proof (Hh key) as Hhk. destruct (ks_get (ss_state s) key) as [rs|] eqn:Hget.
  - assert (ss_filled s key = true) as Hfl.
    { unfold ss_filled. rewrite Hget. by rewrite bool_decide_true. }
    destruct (do_remove_ok rs r) as (rs' & Hdo & Hp); [rewrite Hhk, HF; apply elem_of_here|].
    rewrite Hdo in Hcase. destruct Hcase as [-> Hup]. do 2 eexists.
    split; [rewrite Hfl; by rewrite bool_decide_true|].
    eapply write_ok; [done|done|done|done| |done].
    simpl. apply (Permutation_cons_inv (a:=r)). by rewrite Hp, Hhk, HF.
  - destruct Hcase as [-> ->]. destruct (ss_partial s) eqn:Hpt.
    + assert (ss_filled s key = false) as Hfl.
      { unfold ss_filled. rewrite Hget, Hpt. by rewrite bool_decide_false by (by intros [? ?]). }
      do 2 eexists. split; [rewrite Hfl; by rewrite bool_decide_false by (by intros [? ?])|].
      by apply (hole_ok s _ key F).
    + rewrite (Hhk eq_refl) in HF. by apply Permutation_nil_cons in HF.
Qed.

(** Keys an index of [n] columns can be asked to fill or evict. *)
Definition kc_fits s c : Prop :=
  match c with
  | KEqual k => length k = length (ss_columns s)
  | KRange r => ss_index_type s = IxBTreeMap ∧ range_fits (length (ss_columns s)) r ∧ range_valid r = true
  end.

Lemma kc_contains_equal key k : kc_contains (KEqual key) k = bool_decide (k = key).
Proof.
  simpl. destruct (decide (k = key)) as [->|E].
  - by rewrite cmp_refl, bool_decide_true.
  - rewrite bool_decide_false by done. destruct (cmp k key) eqn:Ec; [|done..]. by apply cmp_eq_iff in Ec.
Qed.

(** A partial index in which keys are made empty, or made holes. *)
Lemma refill_ok s (ks : KeyedState V Rows IM) n F' (filled : list V → bool) :
  ss_ok s → ss_partial s = true → ks_ok (length (ss_columns s)) ks → ks_is_btree ks = ks_is_btree (ss_state s) →
  (∀ k, match ks_get ks k with
        | Some rs => filled k = true ∧ hb_iter rs ≡ₚ F' k
        | None => filled k = false
        end) →
  ss_ok (ss_with s ks n) ∧ holds (ss_with s ks n) F' ∧ ∀ k, ss_filled (ss_with s ks n) k = filled k.
Proof.
  intros (Hok & Hb & _) Hp Hok' Hb' Hget. split_and!.
  - split_and!; [done|exact (eq_trans Hb' Hb)|]. simpl. congruence.
  - intros k. specialize (Hget k). simpl. destruct (ks_get ks k); [apply Hget|congruence].
  - intros k. specialize (Hget k). unfold ss_filled. simpl. rewrite Hp, orb_false_r.
    destruct (ks_get ks k); [destruct Hget as [-> _]; by rewrite bool_decide_true|].
    rewrite Hget. by rewrite bool_decide_false by (by intros [? ?]).
Qed.

Lemma mark_point_ok s key :
  ss_ok s → length key = length (ss_columns s) → ks_get (ss_state s) key = None →
  ∃ ks, mark_point_filled s key = Ok (ss_with s ks (ss_row_count s)) ∧
    ks_updated (length (ss_columns s)) (ss_state s) key (Some hb_default) ks.
Proof.
  intros ((Hn & Hks) & _ & _) Hl Hget. unfold mark_point_filled. set (n := length (ss_columns s)) in *.
  assert ((length key =? variant_len (variant_of_len n) n) = true) as Hlen.
  { apply Nat.eqb_eq. rewrite Hl. clear -Hn. do 7 (destruct n as [|n]; [try lia; done|]). done. }
  destruct (ss_state s) as [v len m|v len m]; destruct Hks as [-> Hks].
  - destruct Hks as (-> & Hwf & He). rewrite Hlen.
    destruct (pm_insert_correct m key hb_default Hwf) as (m' & -> & Hwf' & He' & Hg'). cbn [expect mbind result_bind].
    simpl in Hget. pose proof Hget as Hnone. unfold pm_get in Hget. destruct (bm_get (pm_map m) key); [done|].
    eexists. split; [done|]. apply ks_updated_btree; [done|done|congruence| |].
    + rewrite Hnone. by intros _ [? ?].
    + intros k. rewrite Hg'. by repeat case_decide.
  - subst len. rewrite Hlen. pose proof (im_insert_old m key hb_default) as Ho. simpl in Hget.
    pose proof (im_insert_get m key hb_default) as Hg. destruct (im_insert m key hb_default) as [o m'].
    simpl in Ho, Hg. rewrite Hget in Ho. subst o. eexists. split; [done|]. apply ks_updated_hash; [done|].
    intros k. rewrite Hg. by repeat case_decide.
Qed.

(** Filling holes: the keys become empty. *)
Lemma mark_filled_ok s c F :
  ss_ok s → ss_partial s = true → holds s F → kc_fits s c →
  (∀ k, kc_contains c k = true → ss_filled s k = false) →
  ∃ s', ss_mark_filled s c = Ok s' ∧ ss_ok s' ∧ ss_index s' = ss_index s ∧ ss_partial s' = true ∧
    holds s' (λ k, if kc_contains c k then [] else F k) ∧
    ∀ k, ss_filled s' k = ss_filled s k || kc_contains c k.
Proof.
  intros Hok Hp Hh Hfit Hholes.
  assert (∀ k, ss_filled s k = bool_decide (is_Some (ks_get (ss_state s) k))) as Hfl.
  { intros k. unfold ss_filled. by rewrite Hp, orb_false_r. }
  assert (∀ ks, ks_ok (length (ss_columns s)) ks → ks_is_btree ks = ks_is_btree (ss_state s) →
    (∀ k, ks_get ks k = if kc_contains c k then Some hb_default else ks_get (ss_state s) k) →
    ∃ s', Ok (ss_with s ks (ss_row_count s)) = Ok s' ∧ ss_ok s' ∧ ss_index s' = ss_index s ∧
      ss_partial s' = true ∧ holds s' (λ k, if kc_contains c k then [] else F k) ∧
      ∀ k, ss_filled s' k = ss_filled s k || kc_contains c k) as Hfin.
  { intros ks Hks Hb Hg.
    destruct (refill_ok s ks (ss_row_count s) (λ k, if kc_contains c k then [] else F k)
      (λ k, ss_filled s k || kc_contains c k)) as (H1 & H2 & H3); [done..| |by eexists].
    intros k. rewrite Hg, Hfl. specialize (Hh k). destruct (kc_contains c k) eqn:Hc.
    - rewrite orb_true_r, hb_iter_default. done.
    - destruct (ks_get (ss_state s) k); simpl; done. }
  assert (∀ k, kc_contains c k = true → ks_get (ss_state s) k = None) as Hnone.
  { intros k Hk. apply Hholes in Hk. rewrite Hfl in Hk. apply bool_decide_eq_false in Hk.
    destruct (ks_get (ss_state s) k); [by destruct Hk|done]. }
  destruct c as [key|range]; simpl ss_mark_filled.
  - destruct (mark_point_ok s key Hok Hfit) as (ks & -> & Hks & Hb & _ & Hg).
    { apply Hnone. by rewrite kc_contains_equal, bool_decide_true. }
    apply Hfin; [done|done|]. intros k. rewrite Hg, kc_contains_equal. by repeat case_decide; case_bool_decide.
  - destruct Hfit as (Ht & Hfit & Hv). pose proof Hok as (Hks & Hb & _).
    rewrite Ht, bool_decide_true in Hb by done.
    destruct (ks_insert_range_ok _ _ range Hks Hb Hfit Hv) as (ks & Hins & Hks' & Hb' & Hg).
    unfold mark_range_filled. rewrite Hins. cbn [mbind result_bind]. apply Hfin; [done|congruence|].
    intros k. rewrite Hg, kc_contains_bounds. specialize (Hnone k). rewrite kc_contains_bounds in Hnone.
    change (bounds (KRange range)) with (range.1, range.2) in *. rewrite <-surjective_pairing in *.
    destruct (in_range range k); [by rewrite Hnone|]. by destruct (ks_get (ss_state s) k).
Qed.

(** *** Evictions *)
Lemma evict_key_ok s (ks : KeyedState V Rows IM) c :
  ks_ok (length (ss_columns s)) ks → ks_is_btree ks = bool_decide (ss_index_type s = IxBTreeMap) → kc_fits s c →
  ∃ rows ks', evict_key ks c = Ok (rows, ks') ∧ ks_ok (length (ss_columns s)) ks' ∧
    ks_is_btree ks' = ks_is_btree ks ∧
    (∀ k, ks_get ks' k = if kc_contains c k then None else ks_get ks k) ∧
    ∀ r, r ∈ rows → ∃ k b, ks_get ks k = Some b ∧ r ∈ hb_iter b.
Proof.
  intros Hks Hb Hfit. destruct c as [key|range].
  - destruct (ks_evict_ok _ ks key Hks Hfit) as (rs & ks' & He & (Hks' & Hb' & _ & Hg) & Hrs).
    unfold evict_key. rewrite He. do 2 eexists. split_and!; [done|done|done| |].
    + intros k. rewrite Hg, kc_contains_equal. by repeat case_decide; case_bool_decide.
    + intros r Hr. destruct rs as [b|]; [|by apply not_elem_of_nil in Hr]. apply hb_into_iter_elem in Hr.
      simpl in Hrs. rewrite Hrs in Hr. destruct (ks_get ks key) as [b'|] eqn:Hk; [by exists key, b'|].
      by apply not_elem_of_nil in Hr.
  - destruct Hfit as (Ht & Hfit & Hv). rewrite Ht, bool_decide_true in Hb by done.
    destruct (ks_evict_range_ok _ ks range Hks Hb Hfit Hv) as (rs & ks' & He & Hks' & Hb' & Hg & Hrs).
    unfold evict_key. rewrite He. do 2 eexists. split_and!; [done|done|congruence| |].
    + intros k. rewrite Hg, kc_contains_bounds. by destruct range.
    + intros r Hr. by apply Hrs, hb_into_iter_elem.
Qed.

Lemma evict_loop_ok s (ks : KeyedState V Rows IM) keys rows :
  ks_ok (length (ss_columns s)) ks → ks_is_btree ks = bool_decide (ss_index_type s = IxBTreeMap) →
  Forall (kc_fits s) keys →
  ∃ rows' ks', result_foldl (λ '(rows, ks) c, '(rs, ks') ← evict_key ks c; Ok (rows ++ rs, ks')) (rows, ks) keys
      = Ok (rows', ks') ∧ ks_ok (length (ss_columns s)) ks' ∧ ks_is_btree ks' = ks_is_btree ks ∧
    (∀ k, ks_get ks' k = if existsb (λ c, kc_contains c k) keys then None else ks_get ks k) ∧
    ∀ r, r ∈ rows' → r ∈ rows ∨ ∃ k b, ks_get ks k = Some b ∧ r ∈ hb_iter b.
Proof.
  intros Hks Hb Hf. revert rows ks Hks Hb. induction Hf as [|c keys Hc Hf IH]; intros rows ks Hks Hb.
  { do 2 eexists. split_and!; [done|done|done|done|]. by left. }
  destruct (evict_key_ok s ks c Hks Hb Hc) as (rs & ks1 & He & Hks1 & Hb1 & Hg1 & Hr1).
  cbn [result_foldl]. rewrite He. cbn [mbind result_bind].
  destruct (IH (rows ++ rs) ks1 Hks1) as (rows' & ks' & Hl & Hks' & Hb' & Hg' & Hr'); [congruence|].
  do 2 eexists. split_and!; [done|done|congruence| |].
  - intros k. rewrite Hg', Hg1. simpl.
    destruct (existsb _ keys); [by rewrite orb_true_r|]. by rewrite orb_false_r.
  - intros r [Hr|(k & b & Hk & Hr)]%Hr'; [apply elem_of_app in Hr as [?|?%Hr1]; auto|].
    right. exists k, b. rewrite Hg1 in Hk. by destruct (kc_contains c k).
Qed.

(** Evicting keys of a partial index: they become holes, nothing else changes. *)
Lemma evict_keys_ok s keys F :
  ss_ok s → ss_partial s = true → holds s F → Forall (kc_fits s) keys →
  ∃ rows s', ss_evict_keys s keys = Ok (rows, s') ∧ ss_ok s' ∧ ss_index s' = ss_index s ∧
    ss_partial s' = true ∧ holds s' F ∧
    (∀ k, ss_filled s' k = ss_filled s k && negb (existsb (λ c, kc_contains c k) keys)) ∧
    ∀ r, r ∈ hb_iter rows → ∃ k, r ∈ F k.
Proof.
  intros Hok Hp Hh Hf. pose proof Hok as (Hks & Hb & _).
  destruct (evict_loop_ok s _ keys [] Hks Hb Hf) as (rows & ks & Hl & Hks' & Hb' & Hg & Hr).
  unfold ss_evict_keys. rewrite Hl. cbn [mbind result_bind].
  destruct (refill_ok s ks (ss_row_count s) F
    (λ k, ss_filled s k && negb (existsb (λ c, kc_contains c k) keys))) as (H1 & H2 & H3);
    [done..| |].
  2: { do 2 eexists. split_and!; [done..|]. intros r. rewrite hb_collect_iter. intros Hin.
       apply Hr in Hin as [Hin|(k & b & Hk & Hin)]; [by apply not_elem_of_nil in Hin|].
       exists k. specialize (Hh k). rewrite Hk in Hh. by rewrite <-Hh. }
  intros k. rewrite Hg. specialize (Hh k). unfold ss_filled. rewrite Hp, orb_false_r.
  destruct (existsb _ keys); [by rewrite andb_false_r|]. by destruct (ks_get (ss_state s) k).
Qed.

Lemma mark_hole_ok s c F :
  ss_ok s → ss_partial s = true → holds s F → kc_fits s c →
  ∃ s', ss_mark_hole s c = Ok s' ∧ ss_ok s' ∧ ss_index s' = ss_index s ∧ ss_partial s' = true ∧
    holds s' F ∧ ∀ k, ss_filled s' k = ss_filled s k && negb (kc_contains c k).
Proof.
  intros Hok Hp Hh Hf. pose proof Hok as (Hks & Hb & _).
  destruct (evict_key_ok s (ss_state s) c Hks Hb Hf) as (rows & ks & Hl & Hks' & Hb' & Hg & _).
  assert (ss_mark_hole s c = Ok (ss_with s ks (ss_row_count s))) as ->.
  { unfold ss_mark_hole. destruct c; unfold evict_key in Hl.
    - destruct (ks_evict (ss_state s) k) as [[]| |]; naive_solver.
    - destruct (ks_evict_range (ss_state s) r) as [[]| |]; naive_solver. }
  destruct (refill_ok s ks (ss_row_count s) F (λ k, ss_filled s k && negb (kc_contains c k)))
    as (H1 & H2 & H3); [done..| |by eexists].
  intros k. rewrite Hg. specialize (Hh k). unfold ss_filled. rewrite Hp, orb_false_r.
  destruct (kc_contains c k); [by rewrite andb_false_r|]. by destruct (ks_get (ss_state s) k).
Qed.

(** *** Lookups *)
Lemma lookup_ok s k pk F :
  ss_ok s → holds s F → length k = length (ss_columns s) → point_key_from k = Ok pk →
  ∃ rows, ss_lookup s pk = Ok (if ss_filled s k then LrSome rows else LrMissing) ∧
    (ss_filled s k = true → rows ≡ₚ F k).
Proof.
  intros (Hks & _ & _) Hh Hl Hpk. unfold ss_lookup. rewrite (ks_lookup_ok _ _ _ _ Hks Hl Hpk).
  cbn [mbind result_bind]. specialize (Hh k). unfold ss_filled.
  destruct (ks_get (ss_state s) k) as [rs|]; [by exists (hb_iter rs)|].
  destruct (ss_partial s); simpl; exists []; [done|]. split; [done|]. intros _. by rewrite Hh.
Qed.

(** A new index is empty: all holes when partial, no rows otherwise. *)
Lemma new_ok (index : Index) (partial : bool) :
  (1 ≤ length (columns index))%nat →
  ∃ s : SingleState V Rows IM, ss_new index partial = Ok s ∧ ss_ok s ∧ ss_index s = index ∧
    ss_partial s = partial ∧ holds s (λ _, []) ∧ ∀ k, ss_filled s k = negb partial.
Proof.
  intros Hn. destruct (ks_from_ok (V:=V) (Rows:=Rows) (IM:=IM) index Hn) as (Hks & Hb & Hg). unfold ss_new.
  destruct (negb partial && bool_decide (index_type index = IxBTreeMap)) eqn:E.
  - apply andb_true_iff in E as [Hp%negb_true_iff Ht]. rewrite Ht in Hb. subst partial.
    destruct (ks_insert_range_ok _ _ (Unbounded, Unbounded) Hks Hb) as (ks & Hins & Hks' & Hb' & Hg'); [done..|].
    rewrite Hins. cbn [mbind result_bind]. eexists. split; [done|]. simpl in Hg'.
    assert (∀ k, ks_get ks k = Some hb_default) as Hd by (intros k; by rewrite Hg', Hg).
    split_and!; [|done|done| |].
    + split_and!; [done|exact (eq_trans Hb' (eq_sym Ht))|]. intros _ _. simpl.
      apply bool_decide_eq_true in Ht. unfold ks_from in Hins. rewrite Ht in Hins. simpl in Hins.
      clear -Hins. by destruct (variant_of_len (length (columns index))); injection Hins as <-.
    + intros k. simpl. rewrite Hd. by rewrite hb_iter_default.
    + intros k. unfold ss_filled. apply orb_true_r.
  - cbn [mbind result_bind]. eexists. split; [done|]. split_and!; [|done|done| |].
    + split_and!; [done|done|]. intros Hp Ht. simpl in Hp, Ht. subst partial.
      unfold ss_index_type in Ht. simpl in Ht. rewrite Ht in E. by rewrite bool_decide_true in E.
    + intros k. simpl. by rewrite Hg.
    + intros k. unfold ss_filled. simpl. rewrite Hg. done.
Qed.

(** *** Range lookups *)
(** The rows of entries whose bags are the rows of their keys. *)
Lemma entries_rows cols R (l : list (list V * Rows)) x :
  NoDup l.*1 → (∀ k rs, (k, rs) ∈ l → hb_iter rs ≡ₚ rows_with cols R k) →
  occ x (l ≫= λ kv, hb_iter kv.2) = if decide (cols_at cols x ∈ l.*1) then occ x R else 0%Z.
Proof.
  induction l as [|[k rs] l IH]; intros Hnd Hrs.
  { rewrite decide_False by apply not_elem_of_nil. done. }
  rewrite bind_cons, occ_app. apply NoDup_cons in Hnd as [Hk Hnd]. csimpl.
  rewrite (occ_perm _ _ _ (Hrs k rs (elem_of_here _ _))). unfold rows_with. rewrite occ_filter, IH; [|done|].
  - destruct (decide (cols_at cols x = k)) as [E|E].
    + rewrite decide_False by (by rewrite E). rewrite decide_True by (rewrite E; apply elem_of_here). lia.
    + assert (cols_at cols x ∈ k :: l.*1 ↔ cols_at cols x ∈ l.*1) as Hiff
        by (rewrite elem_of_cons; tauto).
      repeat case_decide; try lia; tauto.
  - intros k' rs' Hin. apply Hrs. by apply elem_of_further.
Qed.

(** The key columns a range lookup is implemented for. *)
Definition range_arity (n : nat) : Prop := (1 ≤ n ≤ 6)%nat ∧ n ≠ 5.

Lemma ks_lookup_range_eq n (m : PartialMap (list V) Rows) range rk :
  range_arity n → range_fits n range → range_key_from range = Ok rk →
  ks_lookup_range (KsBTree (variant_of_len n) n m : KeyedState V Rows IM) rk =
  (res ← expect (pm_range m range);
   Ok match res with inl kvs => inl (kvs ≫= λ kv, hb_iter kv.2) | inr misses => inr misses end).
Proof.
  intros [Hn Hn5] [Hlo Hhi] Hrk. destruct range as [lo hi].
  assert (rk = RkBounds (variant_of_len n) (lo, hi) ∨ rk = RkUnbounded ∧ (lo, hi) = (Unbounded, Unbounded)) as Hr.
  { destruct lo as [a|a|], hi as [b|b|]; simpl in Hlo, Hhi; unfold range_key_from in Hrk;
      rewrite ?Hlo, ?Hhi in Hrk; cbn [mbind result_bind] in Hrk;
      rewrite ?decide_True in Hrk by done; cbn [mbind result_bind] in Hrk;
      try (right; split; congruence); left;
      destruct ((1 <=? n) && (n <=? 6)); congruence. }
  do 7 (destruct n as [|n]; [try lia; try (destruct Hr as [->|[-> [= -> ->]]]; done)|]). lia.
Qed.

Lemma lookup_range_ok s range rk R :
  ss_ok s → holds s (rows_with (ss_columns s) R) → ss_index_type s = IxBTreeMap →
  range_arity (length (ss_columns s)) → range_fits (length (ss_columns s)) range → range_valid range = true →
  range_key_from range = Ok rk →
  ∃ res, ss_lookup_range s rk = Ok res ∧
  match res with
  | RlrSome rows =>
      (∀ k, in_range range k = true → ss_filled s k = true) ∧
      rows ≡ₚ filter (λ r, in_range range (cols_at (ss_columns s) r) = true) R
  | RlrMissing misses =>
      misses ≠ [] ∧
      ∀ k, existsb (λ miss, in_range miss k) misses = true ↔ in_range range k = true ∧ ss_filled s k = false
  end.
Proof.
  intros (Hks & Hb & Hfull) Hh Ht Har Hfit Hv Hrk. rewrite Ht, bool_decide_true in Hb by done.
  unfold ss_lookup_range. unfold holds, ss_filled in *. set (n := length (ss_columns s)) in *.
  destruct Hks as [Hn Hks]. destruct (ss_state s) as [v len m|]; [|done].
  destruct Hks as (-> & -> & Hwf & He). rewrite (ks_lookup_range_eq n m range rk Har Hfit Hrk).
  simpl ks_get in *.
  destruct (pm_range_correct m range Hwf Hv) as [(l & Hpr & Hwl & Hl)|(D & Hpr & Hne & HD)];
    rewrite Hpr; cbn [expect mbind result_bind].
  - eexists. split; [done|]. split.
    { intros k Hk. destruct (Hl k) as [_ Hg]. rewrite (Hg Hk). by rewrite bool_decide_true. }
    assert (∀ k, k ∈ l.*1 ↔ is_Some (bm_get l k)) as Hkeys.
    { intros k. rewrite list_elem_of_fmap. split.
      - intros ([k' rs] & -> & Hin). apply bm_get_elem in Hin; [|done]. simpl. by rewrite Hin.
      - intros [rs Hrs]. apply bm_get_elem in Hrs; [|done]. by exists (k, rs). }
    apply same_rows_perm. intros x. rewrite (entries_rows (ss_columns s) R);
      [|by apply sorted_lt_NoDup|].
    + rewrite occ_filter. destruct (Hl (cols_at (ss_columns s) x)) as [Hlx Hg].
      specialize (Hkeys (cols_at (ss_columns s) x)). rewrite Hlx in Hg, Hkeys.
      destruct (in_range range _) eqn:Hin.
      2: { rewrite decide_False by (rewrite Hkeys; by intros [? ?]). done. }
      rewrite (decide_True (P := true = true)) by done. specialize (Hg eq_refl).
      destruct (bm_get (pm_map m) _) as [rs|] eqn:Hbm; [by rewrite decide_True by (by apply Hkeys)|].
      rewrite decide_False by (rewrite Hkeys; by intros [? ?]).
      symmetry. apply occ_zero. intros Hx.
      specialize (Hh (cols_at (ss_columns s) x)). rewrite Hg in Hh. simpl in Hh. rewrite He in Hh.
      assert (x ∈ rows_with (ss_columns s) R (cols_at (ss_columns s) x)) as Hx' by (by apply list_elem_of_filter).
      rewrite <-Hh in Hx'. change (x ∈ hb_iter (hb_default : Rows)) in Hx'.
      rewrite hb_iter_default in Hx'. by apply not_elem_of_nil in Hx'.
    + intros k rs Hget. apply bm_get_elem in Hget; [|done].
      specialize (Hh k). destruct (Hl k) as [Hlk Hg]. rewrite Hlk in Hget.
      destruct (in_range range k); [|done]. rewrite (Hg eq_refl), Hlk, Hget in Hh. done.
  - destruct (ss_partial s) eqn:Hp.
    + eexists. split; [done|]. split; [done|]. intros k. rewrite HD, orb_false_r.
      rewrite bool_decide_eq_false, <-eq_None_not_Some. done.
    + exfalso. injection (Hfull eq_refl Ht) as Htree. unfold pm_range in Hpr.
      by rewrite Htree, full_difference in Hpr.
Qed.

(** The entries of a state, each with the bag of its key. *)
Lemma ks_entries n (ks : KeyedState V Rows IM) :
  ks_ok n ks → ∃ l, ks_values ks = l.*2 ∧ NoDup l.*1 ∧ (∀ k rs, (k, rs) ∈ l → ks_get ks k = Some rs) ∧
    ∀ k rs, ks_get ks k = Some rs → (k, rs) ∈ l ∨ hb_iter rs = [].
Proof.
  intros [Hn Hks]. destruct ks as [v len m|v len m]; simpl in *.
  - destruct Hks as (_ & _ & Hwf & He). exists (pm_map m). pose proof (proj1 Hwf) as Hb.
    split_and!; [done|by apply sorted_lt_NoDup| |].
    + intros k rs Hin. apply bm_get_elem in Hin; [|done]. unfold pm_get. by rewrite Hin.
    + intros k rs. unfold pm_get. destruct (bm_get (pm_map m) k) eqn:E.
      * intros [= <-]. left. by apply bm_get_elem.
      * destruct (contains_point _ _); [|done]. intros [= <-]. right. rewrite He. apply hb_iter_default.
  - exists (im_iter m). split_and!; [done|apply im_iter_nodup| |].
    + intros k rs. apply im_iter_get.
    + intros k rs Hk. left. by apply im_iter_get.
Qed.

(** The values of a full index are all the rows. *)
Lemma full_values s R :
  ss_ok s → holds s (rows_with (ss_columns s) R) → ss_partial s = false → ss_values s ≫= hb_iter ≡ₚ R.
Proof.
  intros (Hks & _ & _) Hh Hp. destruct (ks_entries _ _ Hks) as (l & Hv & Hnd & Hl & Hget).
  unfold ss_values. rewrite Hv. apply same_rows_perm. intros x.
  assert (l.*2 ≫= hb_iter = l ≫= λ kv, hb_iter kv.2) as -> by (clear; by induction l as [|? l IH]; csimpl; [|rewrite IH]).
  rewrite (entries_rows (ss_columns s) R); [|done|].
  2: { intros k rs Hin. specialize (Hh k). by rewrite (Hl k rs Hin) in Hh. }
  case_decide as Hk; [done|]. symmetry. apply occ_zero. intros Hx. apply Hk.
  assert (x ∈ rows_with (ss_columns s) R (cols_at (ss_columns s) x)) as Hx' by (by apply list_elem_of_filter).
  specialize (Hh (cols_at (ss_columns s) x)). destruct (ks_get (ss_state s) _) as [rs|] eqn:E.
  - destruct (Hget _ _ E) as [Hin|Hnil]; [apply list_elem_of_fmap; by exists (cols_at (ss_columns s) x, rs)|].
    rewrite <-Hh, Hnil in Hx'. by apply not_elem_of_nil in Hx'.
  - rewrite (Hh Hp) in Hx'. by apply not_elem_of_nil in Hx'.
Qed.
End single_state_props.
