(* ===== verification/MemoryState.v ===== *)
(** * MemoryState: the rows of a node under several indexes

    Models [dataflow-state/src/memory_state.rs]: strict indexes, found by their
    columns or by the tags of the replay paths that fill them, weak indexes over
    the rows of the strict ones, writes, lookups with their fallback to
    overlapping indexes, and evictions.  Memory accounting ([mem_size],
    reference counts) is not modelled: how many keys [evict_bytes] evicts is an
    argument, as are the random numbers it draws.  A [HashMap] that is iterated
    is an association list. *)
From stdpp Require Import gmap.
From S2P Require Import Prelude Intervals BTreeMap IntervalTree IntervalTreeProps PartialMap.
From S2P Require Import Result Records Keys Processing Batches Crates KeyedState KeyedStateProps.
From S2P Require Import SingleState.

Record MemoryState (V Rows IM O : Type) := {
  ms_state : list (SingleState V Rows IM);
  ms_weak_indices : list (list nat * KeyedState V Rows IM);
  ms_by_tag : gmap nat nat;
  ms_replication_offset : option O;
}.
Arguments ms_state {V Rows IM O}.
Arguments ms_weak_indices {V Rows IM O}.
Arguments ms_by_tag {V Rows IM O}.
Arguments ms_replication_offset {V Rows IM O}.
Arguments Build_MemoryState {V Rows IM O}.

Section memory_state.
Context `{DfVal V} `{!HashBag (list V) Rows} `{!IndexMap (list V) Rows IM} {O : Type}.
Implicit Types (ms : MemoryState V Rows IM O) (s st : SingleState V Rows IM) (r k : list V).
Implicit Types (c : KeyComparison V) (rs : list (Record V)).

Definition ms_default : MemoryState V Rows IM O :=
  {| ms_state := []; ms_weak_indices := []; ms_by_tag := ∅; ms_replication_offset := None |}.

Definition ms_with ms (states : list (SingleState V Rows IM))
    (weak : list (list nat * KeyedState V Rows IM)) : MemoryState V Rows IM O :=
  {| ms_state := states; ms_weak_indices := weak; ms_by_tag := ms_by_tag ms;
     ms_replication_offset := ms_replication_offset ms |}.

Definition ms_is_empty ms : result bool := s ← expect (ms_state ms !! 0); Ok (ss_is_empty s).
Definition ms_is_useful ms : bool := negb (bool_decide (ms_state ms = [])).
Definition ms_is_partial ms : bool := existsb ss_partial (ms_state ms).
Definition ms_key_count ms : nat := sum_list (ss_key_count <$> ms_state ms).
Definition ms_row_count ms : nat := sum_list (ss_row_count <$> ms_state ms).

(** [position]: the first index with the columns and the type. *)
Definition state_for ms (cols : list nat) (t : IndexType) : option nat :=
  fst <$> list_find (λ s, ss_columns s = cols ∧ ss_index_type s = t) (ms_state ms).

(** [add_key]. *)
Definition ms_add_key ms (index : Index) (partial : option (list nat)) : result (MemoryState V Rows IM O) :=
  let found := state_for ms (columns index) (index_type index) in
  let i := default (length (ms_state ms)) found in
  let ms1 := {| ms_state := ms_state ms; ms_weak_indices := ms_weak_indices ms;
                ms_by_tag := foldl (λ m tag, <[tag := i]> m) (ms_by_tag ms) (default [] partial);
                ms_replication_offset := ms_replication_offset ms |} in
  match found with
  | Some _ => Ok ms1
  | None =>
      new ← ss_new index (bool_decide (is_Some partial));
      new' ← match partial, ms_state ms with
             | None, old :: _ =>
                 if ss_partial old then Panic
                 else result_foldl (λ s r, '(_, s') ← ss_insert_row s r; Ok s') new
                                   (ss_values old ≫= hb_iter)
             | _, _ => Ok new
             end;
      Ok (ms_with ms1 (ms_state ms ++ [new']) (ms_weak_indices ms))
  end.

(** [HashMap::insert]. *)
Definition ms_add_weak_key ms (index : Index) : MemoryState V Rows IM O :=
  ms_with ms (ms_state ms)
    (filter (λ w, w.1 ≠ columns index) (ms_weak_indices ms) ++ [(columns index, ks_from index)]).

(** The loops over the weak indexes. *)
Definition weak_insert (weak : list (list nat * KeyedState V Rows IM)) r :
    result (list (list nat * KeyedState V Rows IM)) :=
  result_mapM (λ '(key, ks), '(_, ks') ← ks_insert ks key r false; Ok (key, ks')) weak.
Definition weak_remove (weak : list (list nat * KeyedState V Rows IM)) r :
    result (list (list nat * KeyedState V Rows IM)) :=
  result_mapM (λ '(key, ks), '(_, _, ks') ← ks_remove ks key r; Ok (key, ks')) weak.

(** The loop of an untagged [insert] over the indexes. *)
Fixpoint insert_all (states : list (SingleState V Rows IM)) r : result (bool * list (SingleState V Rows IM)) :=
  match states with
  | [] => Ok (false, [])
  | s :: states' =>
      '(b, s') ← ss_insert_row s r; '(hit, l) ← insert_all states' r; Ok (b || hit, s' :: l)
  end.

(** [insert]: whether the record is to be kept, and the state. *)
Definition ms_insert ms r (partial_tag : option nat) : result (bool * MemoryState V Rows IM O) :=
  let finish hit states :=
    weak ← if hit : bool then weak_insert (ms_weak_indices ms) r else Ok (ms_weak_indices ms);
    Ok (hit, ms_with ms states weak) in
  match partial_tag with
  | Some tag =>
      match ms_by_tag ms !! tag with
      | None => Ok (true, ms)
      | Some i =>
          s ← expect (ms_state ms !! i); '(hit, s') ← ss_insert_row s r;
          finish hit (<[i := s']> (ms_state ms))
      end
  | None => '(hit, states) ← insert_all (ms_state ms) r; finish hit states
  end.

(** The loop of [remove] over the indexes. *)
Fixpoint remove_all (states : list (SingleState V Rows IM)) r (hit : bool) :
    result (bool * list (SingleState V Rows IM)) :=
  match states with
  | [] => Ok (hit, [])
  | s :: states' =>
      '(_, hit', s') ← ss_remove_row s r hit; '(hit'', l) ← remove_all states' r hit';
      Ok (hit'', s' :: l)
  end.

Definition ms_remove ms r : result (bool * MemoryState V Rows IM O) :=
  '(hit, states) ← remove_all (ms_state ms) r false;
  weak ← if hit : bool then weak_remove (ms_weak_indices ms) r else Ok (ms_weak_indices ms);
  Ok (hit, ms_with ms states weak).

(** The two loops of [process_records]: [retain] keeps the records that hit. *)
Fixpoint retain_records ms rs (tag : option nat) : result (list (Record V) * MemoryState V Rows IM O) :=
  match rs with
  | [] => Ok ([], ms)
  | rc :: rs' =>
      '(hit, ms1) ← match rc with Positive r => ms_insert ms r tag | Negative r => ms_remove ms r end;
      '(kept, ms2) ← retain_records ms1 rs' tag;
      Ok (if hit : bool then rc :: kept else kept, ms2)
  end.
Definition apply_records ms rs : result (MemoryState V Rows IM O) :=
  result_foldl (λ ms rc,
    '(_, ms') ← match rc with Positive r => ms_insert ms r None | Negative r => ms_remove ms r end;
    Ok ms') ms rs.

(** [process_records]: the records left in the batch, and the state. *)
Definition ms_process_records ms rs (partial_tag : option nat) (offset : option O) :
    result (list (Record V) * MemoryState V Rows IM O) :=
  '(kept, ms1) ← if ms_is_partial ms then retain_records ms rs partial_tag
                 else ms1 ← apply_records ms rs; Ok (rs, ms1);
  Ok (kept, match offset with
            | Some o => {| ms_state := ms_state ms1; ms_weak_indices := ms_weak_indices ms1;
                           ms_by_tag := ms_by_tag ms1; ms_replication_offset := Some o |}
            | None => ms1
            end).

(** An operation on the index a tag fills. *)
Definition on_tag ms (tag : nat) (f : SingleState V Rows IM → result (SingleState V Rows IM)) :
    result (MemoryState V Rows IM O) :=
  i ← expect (ms_by_tag ms !! tag); s ← expect (ms_state ms !! i); s' ← f s;
  Ok (ms_with ms (<[i := s']> (ms_state ms)) (ms_weak_indices ms)).
Definition ms_mark_filled ms c (tag : nat) := on_tag ms tag (λ s, ss_mark_filled s c).
Definition ms_mark_hole ms c (tag : nat) := on_tag ms tag (λ s, ss_mark_hole s c).

(** *** Lookups *)
(** [col_positions]: a map built from the columns and their positions. *)
Definition col_positions (cols : list nat) : BTreeMap nat nat :=
  foldl (λ m ic, bm_insert m ic.2 ic.1) [] (imap pair cols).

(** [shuffled_key]: the values of the key at the positions the other index has
    their columns at. *)
Definition shuffle_key (cols : list nat) (key : PointKey V) (positions : BTreeMap nat nat) :
    result (list V) :=
  result_foldl (λ acc ic,
      val ← expect (pk_get key ic.1); pos ← expect (bm_get positions ic.2);
      if pos <? length acc then Ok (<[pos := val]> acc) else Panic)
    (replicate (pk_len key) dfv_none) (imap pair cols).

(** The first position of a column. *)
Definition position (cols : list nat) (col : nat) : option nat := fst <$> list_find (.= col) cols.

(** [positions]: for each column of the key that the other index has, its
    position there and its value. *)
Fixpoint sub_positions_of (other : list nat) (key : PointKey V) (ics : list (nat * nat)) :
    result (list (nat * V)) :=
  match ics with
  | [] => Ok []
  | (i, col) :: ics' =>
      match position other col with
      | Some pos => val ← expect (pk_get key i); l ← sub_positions_of other key ics'; Ok ((pos, val) :: l)
      | None => sub_positions_of other key ics'
      end
  end.
Definition sub_positions (other cols : list nat) (key : PointKey V) : result (list (nat * V)) :=
  sub_positions_of other key (imap pair cols).

(** [retain]: the rows with the values of the key at its columns. *)
Definition row_matches (cols : list nat) (key : PointKey V) (row : list V) : bool :=
  forallb (λ ic, bool_decide (row !! ic.2 = pk_get key ic.1)) (imap pair cols).

Definition found_rows (res : LookupResult V) : option (list (list V)) :=
  match res with LrSome rows => Some rows | LrMissing => None end.

(** The body of the loop over the other indexes: the first that answers wins. *)
Definition lookup_overlapping (cols : list nat) (t : IndexType) (key : PointKey V) st :
    result (option (list (list V))) :=
  same ← if bool_decide (ss_columns st = cols) && negb (bool_decide (ss_index_type st = t))
         then res ← ss_lookup st key; Ok (found_rows res) else Ok None;
  match same with
  | Some rows => Ok (Some rows)
  | None =>
      let positions := col_positions (ss_columns st) in
      reordered ←
        if negb (bool_decide (ss_columns st = cols)) && (length (ss_columns st) =? length cols)
           && forallb (λ col, bool_decide (is_Some (bm_get positions col))) cols
        then k ← shuffle_key cols key positions; pk ← point_key_from k;
             res ← ss_lookup st pk; Ok (found_rows res)
        else Ok None;
      match reordered with
      | Some rows => Ok (Some rows)
      | None =>
          if length (ss_columns st) <? length cols then
            positions ← sub_positions (ss_columns st) cols key;
            if length positions =? length (ss_columns st) then
              pk ← point_key_from (sort_by (λ a b, Nat.compare a.1 b.1) positions).*2;
              res ← ss_lookup st pk;
              Ok (filter (λ row, row_matches cols key row = true) <$> found_rows res)
            else Ok None
          else Ok None
      end
  end.

Fixpoint lookup_others (cols : list nat) (t : IndexType) (key : PointKey V)
    (states : list (SingleState V Rows IM)) : result (LookupResult V) :=
  match states with
  | [] => Ok LrMissing
  | st :: states' =>
      res ← lookup_overlapping cols t key st;
      match res with Some rows => Ok (LrSome rows) | None => lookup_others cols t key states' end
  end.

Definition ms_lookup ms (cols : list nat) (key : PointKey V) : result (LookupResult V) :=
  index ← expect (match state_for ms cols IxHashMap with
                  | Some i => Some i
                  | None => state_for ms cols IxBTreeMap
                  end);
  s ← expect (ms_state ms !! index);
  ret ← ss_lookup s key;
  match ret with
  | LrSome _ => Ok ret
  | LrMissing => lookup_others cols (ss_index_type s) key (ms_state ms)
  end.

Definition ms_lookup_range ms (cols : list nat) (key : RangeKey V) : result (RangeLookupResult V) :=
  index ← expect (state_for ms cols IxBTreeMap);
  s ← expect (ms_state ms !! index); ss_lookup_range s key.

(** [lookup_weak]; indexing a missing weak index panics. *)
Definition ms_lookup_weak ms (cols : list nat) (key : PointKey V) : result (option (list (list V))) :=
  w ← expect (snd <$> list_find (λ w, w.1 = cols) (ms_weak_indices ms));
  o ← ks_lookup w.2 key; Ok (option_map hb_iter o).

Definition ms_cloned_records ms : result (list (list V)) :=
  s ← expect (ms_state ms !! 0); if ss_partial s then Panic else Ok (ss_values s ≫= hb_iter).

(** *** Eviction *)
Definition weak_remove_rows (weak : list (list nat * KeyedState V Rows IM)) (rows : list (list V)) :=
  result_foldl weak_remove weak rows.

(** [evict_keys]; a tag that is not known yet evicts nothing. *)
Definition ms_evict_keys ms (tag : nat) (keys : list (KeyComparison V)) :
    result (option Index * MemoryState V Rows IM O) :=
  match ms_by_tag ms !! tag with
  | None => Ok (None, ms)
  | Some i =>
      s ← expect (ms_state ms !! i); '(rows, s') ← ss_evict_keys s keys;
      weak ← weak_remove_rows (ms_weak_indices ms) (hb_iter rows);
      Ok (Some (ss_index s), ms_with ms (<[i := s']> (ms_state ms)) weak)
  end.

(** [evict_bytes]: one random key of one index per number drawn, until the
    index is out of keys; the keys evicted. *)
Fixpoint ms_evict_random ms (i : nat) (seeds : list nat) :
    result (list (list V) * MemoryState V Rows IM O) :=
  match seeds with
  | [] => Ok ([], ms)
  | seed :: seeds' =>
      s ← expect (ms_state ms !! i); '(e, s') ← ss_evict_random s seed;
      match e with
      | None => Ok ([], ms_with ms (<[i := s']> (ms_state ms)) (ms_weak_indices ms))
      | Some (key, rows) =>
          weak ← weak_remove_rows (ms_weak_indices ms) (hb_iter rows);
          '(keys, ms') ← ms_evict_random (ms_with ms (<[i := s']> (ms_state ms)) weak) i seeds';
          Ok (key :: keys, ms')
      end
  end.

Definition ms_clear ms : MemoryState V Rows IM O :=
  ms_with ms (ss_clear <$> ms_state ms) (ms_weak_indices ms).
End memory_state.
