(* ===== verification/MemoryStateProps.v ===== *)
(** * MemoryStateProps: in-memory state holds the rows of its node

    [ms_ok ms R]: every strict index of the state holds the rows [R] of the node
    at its filled keys.  Writes move all indexes from the old rows to the new
    ones, replays fill holes with the rows that belong there, evictions open
    holes, and lookups, also through other indexes, return the rows of the key. *)
From stdpp Require Import gmap.
From S2P Require Import Prelude Intervals BTreeMap IntervalTree IntervalTreeProps PartialMap.
From S2P Require Import Result Records Keys Processing Batches Crates KeyedState KeyedStateProps.
From S2P Require Import SingleState SingleStateProps MemoryState.

Section memory_state_props.
Context `{DfVal V} `{!HashBag (list V) Rows} `{!IndexMap (list V) Rows IM} {O : Type}.
Implicit Types (ms : MemoryState V Rows IM O) (s st : SingleState V Rows IM) (r k : list V).
Implicit Types (c : KeyComparison V) (rs : list (Record V)) (R : list (list V)).

Definition ss_holds R s : Prop := ss_ok s ∧ holds s (rows_with (ss_columns s) R).

Definition ms_ok ms R : Prop :=
  Forall (ss_holds R) (ms_state ms) ∧
  NoDup (ss_index <$> ms_state ms) ∧
  Forall (λ w, ks_ok (length w.1) w.2) (ms_weak_indices ms).

(** A row with all the columns the indexes use. *)
Definition row_fits ms r : Prop :=
  Forall (λ s, cols_fit (ss_columns s) r) (ms_state ms) ∧
  Forall (λ w, cols_fit w.1 r) (ms_weak_indices ms).

(** A row whose key is filled in some index. *)
Definition ms_hits ms r : bool :=
  existsb (λ s, ss_filled s (cols_at (ss_columns s) r)) (ms_state ms).

(** The same indexes with the same filled keys. *)
Definition same_indexes ms ms' : Prop :=
  Forall2 same_index (ms_state ms) (ms_state ms') ∧
  (ms_weak_indices ms').*1 = (ms_weak_indices ms).*1 ∧
  ms_by_tag ms' = ms_by_tag ms.

#[export] Instance same_indexes_preorder : PreOrder same_indexes.
Proof.
  split; [by intros ms|]. intros m1 m2 m3 (A1 & A2 & A3) (B1 & B2 & B3).
  split_and!; [by etrans|congruence|congruence].
Qed.

Lemma same_index_columns s s' : same_index s s' → ss_columns s' = ss_columns s.
Proof. intros (E & _). unfold ss_columns. by rewrite E. Qed.

Lemma same_indexes_hits ms ms' r : same_indexes ms ms' → ms_hits ms' r = ms_hits ms r.
Proof.
  intros (Hs & _). unfold ms_hits. induction Hs as [|s s' l l' Hs Hl IH]; [done|]. simpl.
  rewrite IH, (same_index_columns _ _ Hs). by destruct Hs as (_ & _ & ->).
Qed.

Lemma weak_fits_keys (weak weak' : list (list nat * KeyedState V Rows IM)) r :
  weak'.*1 = weak.*1 → Forall (λ w, cols_fit w.1 r) weak → Forall (λ w, cols_fit w.1 r) weak'.
Proof.
  intros Hk Hf. assert (Forall (λ cols, cols_fit cols r) weak.*1) as Hf' by (by apply Forall_fmap).
  rewrite <-Hk in Hf'. rewrite Forall_fmap in Hf'. exact Hf'.
Qed.

Lemma same_indexes_fits ms ms' r : same_indexes ms ms' → row_fits ms r → row_fits ms' r.
Proof.
  intros (Hs & Hw & _) [H1 H2]. split.
  - clear -Hs H1. induction Hs as [|s s' l l' Hs Hl IH]; [constructor|].
    inversion H1; subst. constructor; [|auto]. by rewrite (same_index_columns _ _ Hs).
  - by eapply weak_fits_keys.
Qed.

Lemma same_indexes_nodup ms ms' :
  same_indexes ms ms' → ss_index <$> ms_state ms' = ss_index <$> ms_state ms.
Proof.
  intros (Hs & _). induction Hs as [|s s' l l' Hs Hl IH]; [done|]. csimpl. rewrite IH.
  by destruct Hs as [-> _].
Qed.

Lemma same_indexes_partial ms ms' : same_indexes ms ms' → ms_is_partial ms' = ms_is_partial ms.
Proof.
  intros (Hs & _). unfold ms_is_partial. induction Hs as [|s s' l l' Hs Hl IH]; [done|]. simpl. rewrite IH.
  by destruct Hs as (_ & -> & _).
Qed.

(** *** The weak indexes *)
Lemma weak_insert_ok (weak : list (list nat * KeyedState V Rows IM)) r :
  Forall (λ w, ks_ok (length w.1) w.2) weak → Forall (λ w, cols_fit w.1 r) weak →
  ∃ weak', weak_insert weak r = Ok weak' ∧ Forall (λ w, ks_ok (length w.1) w.2) weak' ∧ weak'.*1 = weak.*1.
Proof.
  unfold weak_insert. induction 1 as [|[cols ks] weak Hks Hw IH]; intros Hf; [by exists []|].
  apply Forall_cons in Hf as [Hc Hf]. destruct (IH Hf) as (weak' & Hl & Hok & Hkeys). simpl in Hks, Hc.
  destruct (ks_insert_ok _ ks cols r false Hks eq_refl Hc) as (ks' & Hins & Hcase).
  cbn [result_mapM]. rewrite Hins, Hl. cbn [mbind result_bind]. eexists. split_and!; [done| |].
  - constructor; [|done]. simpl. destruct (ks_get ks _); apply Hcase.
  - csimpl. by rewrite Hkeys.
Qed.

Lemma weak_remove_ok (weak : list (list nat * KeyedState V Rows IM)) r :
  Forall (λ w, ks_ok (length w.1) w.2) weak → Forall (λ w, cols_fit w.1 r) weak →
  ∃ weak', weak_remove weak r = Ok weak' ∧ Forall (λ w, ks_ok (length w.1) w.2) weak' ∧ weak'.*1 = weak.*1.
Proof.
  unfold weak_remove. induction 1 as [|[cols ks] weak Hks Hw IH]; intros Hf; [by exists []|].
  apply Forall_cons in Hf as [Hc Hf]. destruct (IH Hf) as (weak' & Hl & Hok & Hkeys). simpl in Hks, Hc.
  destruct (ks_remove_ok _ ks cols r Hks eq_refl Hc) as (row & ks' & Hrm & Hcase).
  cbn [result_mapM]. rewrite Hrm, Hl. cbn [mbind result_bind]. eexists. split_and!; [done| |].
  - constructor; [|done]. simpl. destruct (ks_get ks _); [apply Hcase|]. by destruct Hcase as [_ ->].
  - csimpl. by rewrite Hkeys.
Qed.

(** *** Writes *)
Lemma insert_all_ok (states : list (SingleState V Rows IM)) r R :
  Forall (ss_holds R) states → Forall (λ s, cols_fit (ss_columns s) r) states →
  ∃ states', insert_all states r =
      Ok (existsb (λ s, ss_filled s (cols_at (ss_columns s) r)) states, states') ∧
    Forall (ss_holds (r :: R)) states' ∧ Forall2 same_index states states'.
Proof.
  induction 1 as [|s states [Hok Hh] Hs IH]; intros Hf; [by exists []|].
  apply Forall_cons in Hf as [Hc Hf]. destruct (IH Hf) as (states' & Hl & Hall & Hsame).
  destruct (insert_row_ok s r _ Hok Hc Hh) as (s' & Hins & Hok' & Hsi & Hh').
  cbn [insert_all]. rewrite Hins, Hl. cbn [mbind result_bind]. eexists. split_and!; [done| |by constructor].
  constructor; [|done]. split; [done|]. rewrite (same_index_columns _ _ Hsi).
  apply (holds_ext _ _ _ Hh'). intros k. unfold rows_with. rewrite filter_cons.
  by repeat case_decide; subst.
Qed.

Lemma remove_all_ok (states : list (SingleState V Rows IM)) r R R' hit :
  R ≡ₚ r :: R' →
  Forall (ss_holds R) states → Forall (λ s, cols_fit (ss_columns s) r) states →
  ∃ states', remove_all states r hit =
      Ok (hit || existsb (λ s, ss_filled s (cols_at (ss_columns s) r)) states, states') ∧
    Forall (ss_holds R') states' ∧ Forall2 same_index states states'.
Proof.
  intros HR Hs. revert hit. induction Hs as [|s states [Hok Hh] Hs IH]; intros hit Hf.
  { exists []. by rewrite orb_false_r. }
  apply Forall_cons in Hf as [Hc Hf].
  assert (holds s (rows_with (ss_columns s) (r :: R'))) as Hh1.
  { apply (holds_ext _ _ _ Hh). intros k. unfold rows_with. by rewrite HR. }
  destruct (remove_row_ok s r _ (rows_with (ss_columns s) R') hit Hok Hc Hh1) as (row & s' & Hrm & Hok' & Hsi & Hh').
  { unfold rows_with. rewrite filter_cons. by rewrite decide_True. }
  { intros k Hk. unfold rows_with. rewrite filter_cons. by rewrite decide_False. }
  destruct (IH (hit || ss_filled s (cols_at (ss_columns s) r)) Hf) as (states' & Hl & Hall & Hsame).
  cbn [remove_all]. rewrite Hrm. cbn [mbind result_bind]. rewrite Hl. cbn [mbind result_bind].
  eexists. split_and!; [cbn [existsb]; by rewrite orb_assoc| |by constructor].
  constructor; [|done]. split; [done|]. by rewrite (same_index_columns _ _ Hsi).
Qed.

Lemma ms_ok_step ms states weak R :
  Forall (ss_holds R) states → Forall2 same_index (ms_state ms) states →
  Forall (λ w, ks_ok (length w.1) w.2) weak → weak.*1 = (ms_weak_indices ms).*1 →
  NoDup (ss_index <$> ms_state ms) →
  ms_ok (ms_with ms states weak) R ∧ same_indexes ms (ms_with ms states weak).
Proof.
  intros Hs Hsame Hw Hkeys Hnd. assert (same_indexes ms (ms_with ms states weak)) as Hsi by done.
  split; [|done]. split_and!; [done| |done]. by rewrite (same_indexes_nodup _ _ Hsi).
Qed.

Lemma ms_insert_ok ms r R :
  ms_ok ms R → row_fits ms r →
  ∃ ms', ms_insert ms r None = Ok (ms_hits ms r, ms') ∧ ms_ok ms' (r :: R) ∧ same_indexes ms ms'.
Proof.
  intros (Hs & Hnd & Hw) [Hf1 Hf2]. unfold ms_insert.
  destruct (insert_all_ok _ r R Hs Hf1) as (states & -> & Hall & Hsame). cbn [mbind result_bind].
  fold (ms_hits ms r). destruct (ms_hits ms r).
  - destruct (weak_insert_ok _ r Hw Hf2) as (weak & -> & Hok & Hkeys). cbn [mbind result_bind].
    eexists. split; [done|]. by apply ms_ok_step.
  - eexists. split; [done|]. by apply ms_ok_step.
Qed.

Lemma ms_remove_ok ms r R R' :
  R ≡ₚ r :: R' → ms_ok ms R → row_fits ms r →
  ∃ ms', ms_remove ms r = Ok (ms_hits ms r, ms') ∧ ms_ok ms' R' ∧ same_indexes ms ms'.
Proof.
  intros HR (Hs & Hnd & Hw) [Hf1 Hf2]. unfold ms_remove.
  destruct (remove_all_ok _ r R R' false HR Hs Hf1) as (states & -> & Hall & Hsame).
  cbn [mbind result_bind orb]. fold (ms_hits ms r). destruct (ms_hits ms r).
  - destruct (weak_remove_ok _ r Hw Hf2) as (weak & -> & Hok & Hkeys). cbn [mbind result_bind].
    eexists. split; [done|]. by apply ms_ok_step.
  - eexists. split; [done|]. by apply ms_ok_step.
Qed.

(** One record of a batch, and the two loops over a batch. *)
Lemma record_ok ms rc rs R R' :
  ms_ok ms R → row_fits ms (rec rc) → batch_ok R (rc :: rs) R' →
  ∃ ms1 R1, match rc with Positive r => ms_insert ms r None | Negative r => ms_remove ms r end
      = Ok (ms_hits ms (rec rc), ms1) ∧ ms_ok ms1 R1 ∧ same_indexes ms ms1 ∧ batch_ok R1 rs R'.
Proof.
  intros Hms Hf Hb. apply batch_ok_cons in Hb. destruct rc as [r|r]; simpl in Hf.
  - destruct (ms_insert_ok ms r R Hms Hf) as (ms1 & He & Hok & Hsame). by exists ms1, (r :: R).
  - destruct Hb as (R1 & HR & Hb).
    destruct (ms_remove_ok ms r R R1 HR Hms Hf) as (ms1 & He & Hok & Hsame). by exists ms1, R1.
Qed.

Lemma ms_ok_perm ms R R' : R ≡ₚ R' → ms_ok ms R → ms_ok ms R'.
Proof.
  intros HR (Hs & Hnd & Hw). split_and!; [|done|done]. eapply Forall_impl; [exact Hs|].
  intros s [Hok Hh]. split; [done|]. apply (holds_ext _ _ _ Hh). intros k. unfold rows_with. by rewrite HR.
Qed.

Lemma retain_ok ms rs R R' :
  ms_ok ms R → Forall (λ rc, row_fits ms (rec rc)) rs → batch_ok R rs R' →
  ∃ ms', retain_records ms rs None = Ok (filter (λ rc, ms_hits ms (rec rc) = true) rs, ms') ∧
    ms_ok ms' R' ∧ same_indexes ms ms'.
Proof.
  revert ms R. induction rs as [|rc rs IH]; intros ms R Hms Hf Hb.
  { exists ms. split_and!; [done| |done]. eapply ms_ok_perm; [by apply batch_ok_nil|done]. }
  apply Forall_cons in Hf as [Hrc Hf].
  destruct (record_ok ms rc rs R R' Hms Hrc Hb) as (ms1 & R1 & He & Hok1 & Hs1 & Hb1).
  destruct (IH ms1 R1 Hok1) as (ms' & Hl & Hok & Hs); [|done|].
  { eapply Forall_impl; [exact Hf|]. intros rc'. by apply same_indexes_fits. }
  cbn [retain_records]. rewrite He. cbn [mbind result_bind]. rewrite Hl. cbn [mbind result_bind].
  exists ms'. split_and!; [|done|by etrans]. f_equal. f_equal. rewrite filter_cons.
  rewrite (filter_ext_elem _ (λ rc, ms_hits ms (rec rc) = true) rs)
    by (intros rc' _; by rewrite (same_indexes_hits _ _ _ Hs1)).
  by destruct (ms_hits ms (rec rc)).
Qed.

Lemma apply_ok ms rs R R' :
  ms_ok ms R → Forall (λ rc, row_fits ms (rec rc)) rs → batch_ok R rs R' →
  ∃ ms', apply_records ms rs = Ok ms' ∧ ms_ok ms' R' ∧ same_indexes ms ms'.
Proof.
  unfold apply_records. revert ms R. induction rs as [|rc rs IH]; intros ms R Hms Hf Hb.
  { exists ms. split_and!; [done| |done]. eapply ms_ok_perm; [by apply batch_ok_nil|done]. }
  apply Forall_cons in Hf as [Hrc Hf].
  destruct (record_ok ms rc rs R R' Hms Hrc Hb) as (ms1 & R1 & He & Hok1 & Hs1 & Hb1).
  destruct (IH ms1 R1 Hok1) as (ms' & Hl & Hok & Hs); [|done|].
  { eapply Forall_impl; [exact Hf|]. intros rc'. by apply same_indexes_fits. }
  cbn [result_foldl]. rewrite He. cbn [mbind result_bind]. exists ms'. split_and!; [done|done|by etrans].
Qed.

(** The whole of [process_records], without a tag. *)
Lemma process_records_ok ms rs offset R R' :
  ms_ok ms R → Forall (λ rc, row_fits ms (rec rc)) rs → batch_ok R rs R' →
  ∃ ms', ms_process_records ms rs None offset =
      Ok (if ms_is_partial ms then filter (λ rc, ms_hits ms (rec rc) = true) rs else rs, ms') ∧
    ms_ok ms' R' ∧ same_indexes ms ms'.
Proof.
  intros Hms Hf Hb. unfold ms_process_records. destruct (ms_is_partial ms).
  - destruct (retain_ok ms rs R R' Hms Hf Hb) as (ms' & -> & Hok & Hs). cbn [mbind result_bind].
    eexists. split; [done|]. by destruct offset.
  - destruct (apply_ok ms rs R R' Hms Hf Hb) as (ms' & -> & Hok & Hs). cbn [mbind result_bind].
    eexists. split; [done|]. by destruct offset.
Qed.

(** *** Replays *)
(** The state with another index at a position. *)
Definition with_index ms (i : nat) s (weak : list (list nat * KeyedState V Rows IM)) :=
  ms_with ms (<[i := s]> (ms_state ms)) weak.

Lemma replay_loop ms tag i s F (L : list (list V)) :
  ms_by_tag ms !! tag = Some i → ms_state ms !! i = Some s → ss_ok s → holds s F →
  Forall (λ w, ks_ok (length w.1) w.2) (ms_weak_indices ms) →
  Forall (row_fits ms) L → Forall (λ r, ss_filled s (cols_at (ss_columns s) r) = true) L →
  ∃ s' weak, retain_records ms (Positive <$> L) (Some tag) = Ok (Positive <$> L, with_index ms i s' weak) ∧
    ss_ok s' ∧ same_index s s' ∧ holds s' (λ k, rows_with (ss_columns s) L k ++ F k) ∧
    Forall (λ w, ks_ok (length w.1) w.2) weak ∧ weak.*1 = (ms_weak_indices ms).*1.
Proof.
  intros Htag Hi. revert ms s F Htag Hi. induction L as [|r L IH]; intros ms s F Htag Hi Hok Hh Hw Hfit Hfl.
  { exists s, (ms_weak_indices ms). unfold with_index. rewrite list_insert_id by done.
    split; [by destruct ms|]. by split_and!. }
  apply Forall_cons in Hfit as [[Hf1 Hf2] Hfit]. apply Forall_cons in Hfl as [Hfr Hfl].
  pose proof (Forall_lookup_1 _ _ i s Hf1 Hi) as Hc. simpl in Hc.
  destruct (insert_row_ok s r F Hok Hc Hh) as (s1 & Hins & Hok1 & Hs1 & Hh1). rewrite Hfr in Hins.
  destruct (weak_insert_ok _ r Hw Hf2) as (weak1 & Hwi & Hwok1 & Hwk1).
  set (ms1 := with_index ms i s1 weak1).
  assert (ms_insert ms r (Some tag) = Ok (true, ms1)) as He.
  { unfold ms_insert. rewrite Htag, Hi. cbn [expect mbind result_bind]. rewrite Hins.
    cbn [mbind result_bind]. by rewrite Hwi. }
  pose proof (same_index_columns _ _ Hs1) as Hcols.
  assert (ms_state ms1 !! i = Some s1) as Hi1 by (apply list_lookup_insert_eq; by eapply lookup_lt_Some).
  destruct (IH ms1 s1 _ Htag Hi1 Hok1 Hh1 Hwok1) as (s' & weak & Hl & Hok' & Hs' & Hh' & Hwok' & Hwk').
  - eapply Forall_impl; [exact Hfit|]. intros r' [Ha Hb]. split; simpl; [|by eapply weak_fits_keys].
    apply Forall_insert; [done|]. rewrite Hcols. exact (Forall_lookup_1 _ _ i s Ha Hi).
  - rewrite Hcols. eapply Forall_impl; [exact Hfl|]. intros r' Hr'. by destruct Hs1 as (_ & _ & ->).
  - exists s', weak. split_and!; [|done|by etrans| |done|by etrans].
    + rewrite fmap_cons. cbn [retain_records]. rewrite He. cbn [mbind result_bind]. rewrite Hl. cbn [mbind result_bind].
      unfold with_index, ms1. simpl. unfold ms_with. simpl. by rewrite list_insert_insert_eq.
    + apply (holds_ext _ _ _ Hh'). intros k. rewrite Hcols. unfold rows_with. rewrite filter_cons.
      destruct (decide (k = _)) as [E|E].
      * rewrite decide_True by done. simpl. symmetry. apply Permutation_middle.
      * rewrite decide_False by done. done.
Qed.

Lemma with_index_ok ms i s s' weak R :
  ms_ok ms R → ms_state ms !! i = Some s → ss_index s' = ss_index s → ss_holds R s' →
  Forall (λ w, ks_ok (length w.1) w.2) weak → ms_ok (with_index ms i s' weak) R.
Proof.
  intros (Hs & Hnd & _) Hi Hix Hh Hw. split_and!; [by apply Forall_insert| |done].
  simpl. rewrite list_fmap_insert, Hix, list_insert_id; [done|]. by rewrite list_lookup_fmap, Hi.
Qed.

Lemma partial_index ms i s : ms_state ms !! i = Some s → ss_partial s = true → ms_is_partial ms = true.
Proof.
  intros Hi Hp. unfold ms_is_partial. apply existsb_exists. exists s. split; [|done].
  by apply list_elem_of_In, (list_elem_of_lookup_2 _ i).
Qed.

(** Rows of a key comparison, split off the rows of a key. *)
Lemma rows_with_filter cols c R k :
  rows_with cols (filter (λ r, kc_contains c (cols_at cols r) = true) R) k =
  if kc_contains c k then rows_with cols R k else [].
Proof.
  unfold rows_with. rewrite list_filter_filter. destruct (kc_contains c k) eqn:Hk.
  - apply filter_ext_elem. intros r _. split; [tauto|]. intros <-. done.
  - apply filter_none, Forall_forall. intros r _ [<- Hc]. congruence.
Qed.

Lemma replay_ok ms tag i s c R (L : list (list V)) offset :
  ms_ok ms R → ms_by_tag ms !! tag = Some i → ms_state ms !! i = Some s → ss_partial s = true →
  kc_fits s c → (∀ k, kc_contains c k = true → ss_filled s k = false) →
  L ≡ₚ filter (λ r, kc_contains c (cols_at (ss_columns s) r) = true) R → Forall (row_fits ms) R →
  ∃ ms1 ms2 s2, ms_mark_filled ms c tag = Ok ms1 ∧
    ms_process_records ms1 (Positive <$> L) (Some tag) offset = Ok (Positive <$> L, ms2) ∧
    ms_ok ms2 R ∧ ms_state ms2 = <[i := s2]> (ms_state ms) ∧ ss_index s2 = ss_index s ∧
    ∀ k, ss_filled s2 k = ss_filled s k || kc_contains c k.
Proof.
  intros Hms Htag Hi Hp Hc Hholes HL HR. pose proof Hms as (Hs & Hnd & Hw).
  destruct (Forall_lookup_1 _ _ _ _ Hs Hi) as [Hok Hh].
  destruct (mark_filled_ok s c _ Hok Hp Hh Hc Hholes) as (s1 & Hm & Hok1 & Hix1 & Hp1 & Hh1 & Hf1).
  set (ms1 := with_index ms i s1 (ms_weak_indices ms)).
  assert (ss_columns s1 = ss_columns s) as Hcols by (unfold ss_columns; by rewrite Hix1).
  assert (ms_state ms1 !! i = Some s1) as Hi1 by (apply list_lookup_insert_eq; by eapply lookup_lt_Some).
  destruct (replay_loop ms1 tag i s1 _ L Htag Hi1 Hok1 Hh1 Hw) as (s2 & weak & Hl & Hok2 & Hs2 & Hh2 & Hwok & _).
  { apply Forall_forall. intros r Hr. rewrite HL in Hr. apply list_elem_of_filter in Hr as [_ Hr].
    rewrite Forall_forall in HR. destruct (HR r Hr) as [Ha Hb]. split; [|done]. simpl.
    apply Forall_insert; [done|]. rewrite Hcols. exact (Forall_lookup_1 _ _ i s Ha Hi). }
  { apply Forall_forall. intros r Hr. rewrite HL in Hr. apply list_elem_of_filter in Hr as [Hr _].
    by rewrite Hf1, Hcols, Hr, orb_true_r. }
  exists ms1, (match offset with
        | Some o => {| ms_state := ms_state (with_index ms1 i s2 weak); ms_weak_indices := weak;
                       ms_by_tag := ms_by_tag ms; ms_replication_offset := Some o |}
        | None => with_index ms1 i s2 weak end), s2.
  destruct Hs2 as (Hix2 & Hp2 & Hf2). rewrite Hcols in Hh2.
  assert (ms_ok (with_index ms i s2 weak) R) as Hfin.
  { eapply with_index_ok; [done|done|congruence| |done]. split; [done|].
    unfold ss_columns. rewrite Hix2, Hix1. apply (holds_ext _ _ _ Hh2). intros k.
    transitivity (rows_with (ss_columns s) (filter (λ r, kc_contains c (cols_at (ss_columns s) r) = true) R) k ++
                  (if kc_contains c k then [] else rows_with (ss_columns s) R k)).
    - apply Permutation_app_tail. unfold rows_with. by rewrite HL.
    - rewrite rows_with_filter. destruct (kc_contains c k); [by rewrite app_nil_r|done]. }
  assert (ms_state (with_index ms1 i s2 weak) = <[i := s2]> (ms_state ms)) as Hst
    by (simpl; by rewrite list_insert_insert_eq).
  split_and!.
  - unfold ms_mark_filled, on_tag. rewrite Htag. cbn [expect mbind result_bind]. rewrite Hi. cbn [expect mbind result_bind]. by rewrite Hm.
  - unfold ms_process_records. rewrite (partial_index ms1 i s1 Hi1 Hp1), Hl. cbn [mbind result_bind].
    by destruct offset.
  - destruct Hfin as (Hfin1 & Hfin2 & Hfin3). destruct offset; split_and!; try done; simpl; simpl in Hst; by rewrite Hst.
  - by destruct offset.
  - congruence.
  - intros k. by rewrite Hf2, Hf1.
Qed.

(** *** Evictions *)
Lemma weak_remove_rows_ok (weak : list (list nat * KeyedState V Rows IM)) rows :
  Forall (λ w, ks_ok (length w.1) w.2) weak → Forall (λ r, Forall (λ w, cols_fit w.1 r) weak) rows →
  ∃ weak', weak_remove_rows weak rows = Ok weak' ∧ Forall (λ w, ks_ok (length w.1) w.2) weak'.
Proof.
  intros Hw Hf. revert weak Hw Hf. induction rows as [|r rows IH]; intros weak Hw Hf; [by exists weak|].
  apply Forall_cons in Hf as [Hr Hf]. destruct (weak_remove_ok weak r Hw Hr) as (weak1 & He & Hok1 & Hk1).
  destruct (IH weak1 Hok1) as (weak' & Hl & Hok').
  { eapply Forall_impl; [exact Hf|]. intros r' Hr'. by eapply weak_fits_keys. }
  exists weak'. unfold weak_remove_rows. cbn [result_foldl]. by rewrite He.
Qed.

Lemma evict_ok ms tag i s keys R :
  ms_ok ms R → ms_by_tag ms !! tag = Some i → ms_state ms !! i = Some s → ss_partial s = true →
  Forall (kc_fits s) keys → Forall (row_fits ms) R →
  ∃ s' weak, ms_evict_keys ms tag keys = Ok (Some (ss_index s), with_index ms i s' weak) ∧
    ms_ok (with_index ms i s' weak) R ∧ ss_index s' = ss_index s ∧
    ∀ k, ss_filled s' k = ss_filled s k && negb (existsb (λ c, kc_contains c k) keys).
Proof.
  intros Hms Htag Hi Hp Hf HR. pose proof Hms as (Hs & Hnd & Hw).
  destruct (Forall_lookup_1 _ _ _ _ Hs Hi) as [Hok Hh].
  destruct (evict_keys_ok s keys _ Hok Hp Hh Hf) as (rows & s' & He & Hok' & Hix & Hp' & Hh' & Hfl & Hrows).
  destruct (weak_remove_rows_ok (ms_weak_indices ms) (hb_iter rows) Hw) as (weak & Hwr & Hwok).
  { apply Forall_forall. intros r [k Hr]%Hrows. apply list_elem_of_filter in Hr as [_ Hr].
    rewrite Forall_forall in HR. by apply HR. }
  exists s', weak. split_and!; [| |done|done].
  - unfold ms_evict_keys. rewrite Htag, Hi. cbn [expect mbind result_bind]. rewrite He. cbn [mbind result_bind].
    by rewrite Hwr.
  - eapply with_index_ok; [done|done|done| |done]. split; [done|]. unfold ss_columns. by rewrite Hix.
Qed.

(** *** New indexes *)
Lemma state_for_spec ms cols t :
  match state_for ms cols t with
  | Some i => ∃ s, ms_state ms !! i = Some s ∧ ss_columns s = cols ∧ ss_index_type s = t
  | None => ∀ s, s ∈ ms_state ms → ¬ (ss_columns s = cols ∧ ss_index_type s = t)
  end.
Proof.
  unfold state_for. destruct (list_find _ (ms_state ms)) as [[i s]|] eqn:E; simpl.
  - apply list_find_Some in E as (Hi & Hs & _). by exists s.
  - apply list_find_None in E. rewrite Forall_forall in E. apply E.
Qed.

Lemma index_rows_ok s (L R0 : list (list V)) :
  ss_ok s → holds s (rows_with (ss_columns s) R0) → Forall (cols_fit (ss_columns s)) L →
  ∃ s', result_foldl (λ s r, '(_, s') ← ss_insert_row s r; Ok s') s L = Ok s' ∧
    ss_ok s' ∧ same_index s s' ∧ holds s' (rows_with (ss_columns s) (rev L ++ R0)).
Proof.
  revert s R0. induction L as [|r L IH]; intros s R0 Hok Hh Hf; [by exists s|].
  apply Forall_cons in Hf as [Hr Hf].
  destruct (insert_row_ok s r _ Hok Hr Hh) as (s1 & He & Hok1 & Hs1 & Hh1).
  pose proof (same_index_columns _ _ Hs1) as Hc.
  destruct (IH s1 (r :: R0) Hok1) as (s' & Hl & Hok' & Hs' & Hh').
  { rewrite Hc. apply (holds_ext _ _ _ Hh1). intros k. unfold rows_with. rewrite filter_cons.
    by repeat case_decide; subst. }
  { by rewrite Hc. }
  exists s'. cbn [result_foldl]. rewrite He. cbn [mbind result_bind]. split_and!; [done|done|by etrans|].
  rewrite Hc in Hh'. simpl. by rewrite <-app_assoc.
Qed.

Lemma tags_lookup (tags : list nat) (m : gmap nat nat) i tag :
  tag ∈ tags → foldl (λ (m : gmap nat nat) t, <[t := i]> m) m tags !! tag = Some i.
Proof.
  assert (∀ m : gmap nat nat, m !! tag = Some i ∨ tag ∈ tags →
    foldl (λ (m : gmap nat nat) t, <[t := i]> m) m tags !! tag = Some i) as Hg.
  { induction tags as [|t tags IH]; intros m0 [Hm|Hin]; simpl; [done|by apply not_elem_of_nil in Hin|..].
    - apply IH. left. destruct (decide (tag = t)) as [->|]; [by rewrite lookup_insert_eq|by rewrite lookup_insert_ne].
    - apply IH. apply elem_of_cons in Hin as [->|Hin]; [left; by rewrite lookup_insert_eq|by right]. }
  eauto.
Qed.

(** The new index of [add_key], filled from the first one when it is full. *)
Lemma new_index_ok ms index (partial : option (list nat)) R :
  ms_ok ms R → (1 ≤ length (columns index))%nat → Forall (cols_fit (columns index)) R →
  (partial = None → match ms_state ms with [] => R = [] | s :: _ => ss_partial s = false end) →
  ∃ new new', ss_new index (bool_decide (is_Some partial)) = Ok new ∧
    match partial, ms_state ms with
    | None, old :: _ =>
        if ss_partial old then Panic
        else result_foldl (λ s r, '(_, s') ← ss_insert_row s r; Ok s') new (ss_values old ≫= hb_iter)
    | _, _ => Ok new
    end = Ok new' ∧ ss_holds R new' ∧ ss_index new' = index.
Proof.
  intros (Hs & _ & _) Hn HR Hfull.
  destruct (new_ok (V:=V) (Rows:=Rows) (IM:=IM) index (bool_decide (is_Some partial)) Hn)
    as (s0 & Hnew & Hok & Hix & Hp & Hh & Hfl).
  assert (ss_columns s0 = columns index) as Hc by (unfold ss_columns; by rewrite Hix).
  exists s0. destruct partial as [tags|].
  { exists s0. split_and!; [done|by destruct (ms_state ms)| |done]. split; [done|]. rewrite bool_decide_true in Hp, Hfl by done.
    intros k. specialize (Hfl k). unfold ss_filled in Hfl. destruct (ks_get (ss_state s0) k); [|congruence].
    by rewrite bool_decide_true in Hfl. }
  specialize (Hfull eq_refl). destruct (ms_state ms) as [|old states].
  { exists s0. split_and!; [done|done| |done]. subst R. by split. }
  apply Forall_cons in Hs as [[Hok1 Hh1] _]. rewrite Hfull.
  pose proof (full_values old R Hok1 Hh1 Hfull) as HL.
  destruct (index_rows_ok s0 (ss_values old ≫= hb_iter) [] Hok Hh) as (s' & Hl & Hok' & Hs' & Hh').
  { rewrite Hc. by rewrite HL. }
  exists s'. split_and!; [done|done| |by destruct Hs' as [-> _]]. split; [done|].
  rewrite (same_index_columns _ _ Hs'). apply (holds_ext _ _ _ Hh'). intros k. unfold rows_with.
  rewrite app_nil_r, <-Permutation_rev. by rewrite HL.
Qed.

(** [add_key] keeps the indexes and has an index for the columns afterwards; a
    full index is built from the first one. *)
Lemma add_key_ok ms index partial R :
  ms_ok ms R → (1 ≤ length (columns index))%nat → Forall (cols_fit (columns index)) R →
  (partial = None → match ms_state ms with [] => R = [] | s :: _ => ss_partial s = false end) →
  ∃ ms', ms_add_key ms index partial = Ok ms' ∧ ms_ok ms' R ∧
    (∃ i, state_for ms' (columns index) (index_type index) = Some i ∧
          ∀ tag, tag ∈ default [] partial → ms_by_tag ms' !! tag = Some i) ∧
    ms_state ms `prefix_of` ms_state ms'.
Proof.
  intros Hms Hn HR Hfull. pose proof Hms as (Hs & Hnd & Hw). unfold ms_add_key.
  pose proof (state_for_spec ms (columns index) (index_type index)) as Hsf.
  destruct (state_for ms (columns index) (index_type index)) as [i|] eqn:Ei.
  { eexists. split; [done|]. split_and!; [done| |done]. exists i. split; [done|]. intros tag. apply tags_lookup. }
  destruct (new_index_ok ms index partial R Hms Hn HR Hfull) as (new & new' & -> & He & Hh & Hix).
  cbn [mbind result_bind]. rewrite He. cbn [mbind result_bind].
  eexists. split; [done|]. split_and!.
  - split_and!; [by apply Forall_app_2; [|constructor]| |done]. simpl. rewrite fmap_app. csimpl. rewrite Hix.
    apply NoDup_app. split_and!; [done| |apply NoDup_singleton].
    intros ix Hin Heq. apply list_elem_of_singleton in Heq as ->.
    apply list_elem_of_fmap in Hin as (s & -> & Hin). by apply (Hsf s Hin).
  - exists (length (ms_state ms)). split; [|intros tag; apply tags_lookup].
    unfold state_for in Ei |- *. simpl. destruct (list_find _ (ms_state ms)) eqn:El; [done|].
    rewrite list_find_app_r by done. simpl. rewrite decide_True; [done|].
    unfold ss_columns, ss_index_type. by rewrite Hix.
  - simpl. by eexists.
Qed.
End memory_state_props.
