(* ===== verification/MemoryLookup.v ===== *)
(** * MemoryLookup: lookups into in-memory state, also through other indexes

    A lookup that misses in its own index is answered by another index when
    that one has the same columns, the same columns in another order, or some of
    the columns.  The lemmas show that the keys built for the other index select
    the same rows. *)
From stdpp Require Import gmap.
From S2P Require Import Prelude Intervals BTreeMap IntervalTree IntervalTreeProps PartialMap.
From S2P Require Import Result Records Keys Processing Batches Crates KeyedState KeyedStateProps.
From S2P Require Import SingleState SingleStateProps MemoryState MemoryStateProps.

Section lookup.
Context `{DfVal V} `{!HashBag (list V) Rows} `{!IndexMap (list V) Rows IM} {O : Type}.
Implicit Types (ms : MemoryState V Rows IM O) (s st : SingleState V Rows IM) (r k : list V).
Implicit Types (cols other : list nat) (R : list (list V)) (key : PointKey V).

Lemma cols_at_lookup cols r j :
  cols_fit cols r → cols_at cols r !! j = cols !! j ≫= (λ c, r !! c).
Proof.
  intros Hf. revert j. induction Hf as [|c cols Hc Hf IH]; intros j; [done|].
  unfold cols_at. csimpl. destruct (lookup_lt_is_Some_2 r c Hc) as [v Hv]. rewrite Hv.
  destruct j as [|j]; simpl; [by rewrite Hv|]. apply IH.
Qed.

(** A row has a key when its values at the columns are those of the key. *)
Lemma cols_at_eq cols r k :
  cols_fit cols r → length k = length cols →
  cols_at cols r = k ↔ ∀ j c, cols !! j = Some c → r !! c = k !! j.
Proof.
  intros Hf Hl. split.
  - intros <- j c Hj. by rewrite cols_at_lookup, Hj.
  - intros Hj. apply list_eq. intros j. rewrite cols_at_lookup by done.
    destruct (cols !! j) as [c|] eqn:E; simpl; [by apply Hj|].
    symmetry. apply lookup_ge_None. rewrite Hl. by apply lookup_ge_None.
Qed.

Lemma imap_pair_elem {A} (l : list A) j x : (j, x) ∈ imap pair l ↔ l !! j = Some x.
Proof.
  rewrite list_elem_of_lookup. split.
  - intros (i & Hi). rewrite list_lookup_imap in Hi. destruct (l !! i) eqn:E; simplify_eq/=. done.
  - intros Hj. exists j. by rewrite list_lookup_imap, Hj.
Qed.

Lemma imap_pair_snd {A} (l : list A) : (imap pair l).*2 = l.
Proof. rewrite fmap_imap. apply list_eq. intros i. rewrite list_lookup_imap. by destruct (l !! i). Qed.

(** [row_matches] is equality of keys. *)
Lemma row_matches_ok cols key r :
  cols_fit cols r → length (pk_elems key) = length cols →
  row_matches cols key r = true ↔ cols_at cols r = pk_elems key.
Proof.
  intros Hf Hl. rewrite cols_at_eq by done. unfold row_matches. rewrite forallb_forall. split.
  - intros Hm j c Hj. specialize (Hm (j, c)). apply imap_pair_elem, list_elem_of_In in Hj.
    specialize (Hm Hj). by apply bool_decide_eq_true in Hm.
  - intros Hm [j c] Hin. apply list_elem_of_In, imap_pair_elem in Hin. apply bool_decide_true. by apply Hm.
Qed.

(** *** Another order of the columns *)
Lemma col_positions_spec cols c i :
  NoDup cols → bm_get (col_positions cols) c = Some i ↔ cols !! i = Some c.
Proof.
  intros Hnd. unfold col_positions.
  assert (∀ (l : list (nat * nat)) (m : BTreeMap nat nat), NoDup l.*2 →
    (bm_get (foldl (λ m ic, bm_insert m ic.2 ic.1) m l) c = Some i) ↔
    (i, c) ∈ l ∨ ((c ∉ l.*2) ∧ bm_get m c = Some i)) as Hg.
  { induction l as [|[j d] l IH]; intros m Hl; simpl.
    - split; [intros Hm; right; split; [apply not_elem_of_nil|done]|].
      intros [Hin|[_ Hm]]; [by apply not_elem_of_nil in Hin|done].
    - csimpl in Hl. apply NoDup_cons in Hl as [Hd Hl]. rewrite IH by done. rewrite bm_get_insert.
      rewrite elem_of_cons, not_elem_of_cons. case_decide as E; [subst d|naive_solver].
      split; [|naive_solver]. intros [Hin|[_ [= ->]]]; [|left; by left].
      exfalso. apply Hd. apply list_elem_of_fmap. by exists (i, c). }
  rewrite Hg by (by rewrite imap_pair_snd). rewrite imap_pair_elem. simpl. naive_solver.
Qed.

Lemma shuffle_loop (cols' : list nat) key (ics : list (nat * nat)) (acc : list V) :
  NoDup cols' → length acc = length cols' → NoDup ics.*2 →
  Forall (λ ic, ic.2 ∈ cols' ∧ (ic.1 < length (pk_elems key))%nat) ics →
  ∃ acc', result_foldl (λ acc ic,
      val ← expect (pk_get key ic.1); pos ← expect (bm_get (col_positions cols') ic.2);
      if pos <? length acc then Ok (<[pos := val]> acc) else Panic) acc ics = Ok acc' ∧
    length acc' = length cols' ∧
    (∀ j c i, (j, c) ∈ ics → cols' !! i = Some c → acc' !! i = pk_elems key !! j) ∧
    (∀ i c, cols' !! i = Some c → c ∉ ics.*2 → acc' !! i = acc !! i).
Proof.
  intros Hnd. revert acc. induction ics as [|[j c] ics IH]; intros acc Hlen Hics Hall.
  { exists acc. split_and!; [done|done| |done]. intros ? ? ? Hin. by apply not_elem_of_nil in Hin. }
  csimpl in Hics. apply NoDup_cons in Hics as [Hc Hics]. apply Forall_cons in Hall as [[Hin Hj] Hall].
  simpl in Hin, Hj. apply list_elem_of_lookup in Hin as [i Hi].
  destruct (lookup_lt_is_Some_2 _ _ Hj) as [v Hv].
  assert (i < length acc)%nat as Hlt by (rewrite Hlen; by eapply lookup_lt_Some).
  destruct (IH (<[i := v]> acc)) as (acc' & He & Hl' & Hin' & Hout'); [by rewrite length_insert|done|done|].
  exists acc'. cbn [result_foldl fst snd]. rewrite (Hv : pk_get key j = Some v). cbn [expect mbind result_bind].
  rewrite (proj2 (col_positions_spec cols' c i Hnd) Hi). cbn [expect mbind result_bind].
  rewrite (proj2 (Nat.ltb_lt _ _) Hlt). cbn [mbind result_bind]. split_and!; [done|done| |].
  - intros j' c' i' [[= -> ->]|Hjc]%elem_of_cons Hi'; [|by eapply Hin'].
    assert (i' = i) as -> by exact (NoDup_lookup _ _ _ _ Hnd Hi' Hi). rewrite (Hout' i c Hi Hc).
    rewrite list_lookup_insert_eq by done. by rewrite Hv.
  - intros i' c' Hi' [Hne Hnin]%not_elem_of_cons. simpl in Hne. rewrite (Hout' i' c' Hi' Hnin).
    apply list_lookup_insert_ne. intros ->. congruence.
Qed.

(** The shuffled key selects the same rows in the other index. *)
Lemma shuffle_key_ok cols other key :
  NoDup cols → NoDup other → length other = length cols → length (pk_elems key) = length cols →
  (∀ c, c ∈ cols → c ∈ other) →
  ∃ k', shuffle_key cols key (col_positions other) = Ok k' ∧ length k' = length other ∧
    ∀ r, cols_fit cols r → cols_fit other r → (cols_at other r = k' ↔ cols_at cols r = pk_elems key).
Proof.
  intros Hnd Hnd' Hlen Hk Hsub.
  destruct (shuffle_loop other key (imap pair cols) (replicate (pk_len key) dfv_none))
    as (k' & He & Hl' & Hin & _); [done| | | |].
  { rewrite length_replicate. unfold pk_len. congruence. }
  { by rewrite imap_pair_snd. }
  { apply Forall_forall. intros [j c] Hjc. apply imap_pair_elem in Hjc. simpl. split.
    - apply Hsub. by eapply list_elem_of_lookup_2.
    - rewrite Hk. by eapply lookup_lt_Some. }
  exists k'. split_and!; [done|done|]. intros r Hf Hf'. rewrite !cols_at_eq by done.
  assert (cols ≡ₚ other) as Hperm.
  { apply submseteq_length_Permutation; [by apply NoDup_submseteq|]. lia. }
  split.
  - intros Hr j c Hj. assert (c ∈ other) as [i Hi]%list_elem_of_lookup
      by (apply Hsub; by eapply list_elem_of_lookup_2).
    rewrite (Hr i c Hi). apply (Hin j c i); [by apply imap_pair_elem|done].
  - intros Hr i c Hi. assert (c ∈ cols) as [j Hj]%list_elem_of_lookup
      by (rewrite Hperm; by eapply list_elem_of_lookup_2).
    rewrite (Hr j c Hj). symmetry. apply (Hin j c i); [by apply imap_pair_elem|done].
Qed.

(** *** Some of the columns *)
Lemma position_spec cols c p : NoDup cols → position cols c = Some p ↔ cols !! p = Some c.
Proof.
  intros Hnd. unfold position. destruct (list_find (.= c) cols) as [[i d]|] eqn:E; simpl.
  - apply list_find_Some in E as (Hi & -> & _). split; [by intros [= <-]|].
    intros Hp. f_equal. exact (NoDup_lookup _ _ _ _ Hnd Hi Hp).
  - apply list_find_None in E. split; [done|]. intros Hp. rewrite Forall_forall in E.
    exfalso. apply (E c); [|done]. by eapply list_elem_of_lookup_2.
Qed.

Lemma sub_positions_ok other key (ics : list (nat * nat)) :
  NoDup other → NoDup ics.*2 → Forall (λ ic, (ic.1 < length (pk_elems key))%nat) ics →
  ∃ l, sub_positions_of other key ics = Ok l ∧ NoDup l.*1 ∧
    ∀ p v, (p, v) ∈ l → ∃ j c, (j, c) ∈ ics ∧ other !! p = Some c ∧ pk_elems key !! j = Some v.
Proof.
  intros Hnd. induction ics as [|[j c] ics IH]; intros Hics Hall.
  { exists []. split_and!; [done|constructor|]. intros p v Hin. by apply not_elem_of_nil in Hin. }
  csimpl in Hics. apply NoDup_cons in Hics as [Hc Hics]. apply Forall_cons in Hall as [Hj Hall].
  destruct (IH Hics Hall) as (l & He & Hl & Hin). simpl in Hj. cbn [sub_positions_of].
  destruct (position other c) as [p|] eqn:Hp.
  - destruct (lookup_lt_is_Some_2 _ _ Hj) as [v Hv]. rewrite (Hv : pk_get key j = Some v).
    cbn [expect mbind result_bind]. rewrite He. cbn [mbind result_bind].
    apply position_spec in Hp; [|done]. exists ((p, v) :: l). split_and!; [done| |].
    + csimpl. constructor; [|done]. intros Hpl. apply list_elem_of_fmap in Hpl as ([p' v'] & Hp' & Hpl).
      simpl in Hp'. subst p'. apply Hin in Hpl as (j' & c' & Hjc & Hp' & _). apply Hc.
      apply list_elem_of_fmap. exists (j', c'). split; [|done]. simpl. congruence.
    + intros p' v' [[= -> ->]|Hpv]%elem_of_cons.
      * exists j, c. split_and!; [apply elem_of_here|done|done].
      * destruct (Hin _ _ Hpv) as (j' & c' & ? & ? & ?). exists j', c'.
        split_and!; [by apply elem_of_further|done|done].
  - exists l. split_and!; [done|done|]. intros p v Hpv. destruct (Hin _ _ Hpv) as (j' & c' & ? & ? & ?).
    exists j', c'. split_and!; [by apply elem_of_further|done|done].
Qed.

(** Sorting entries with the positions [0..n) by position. *)
Lemma sort_positions (l : list (nat * V)) n :
  NoDup l.*1 → (∀ p, p ∈ l.*1 → (p < n)%nat) → length l = n →
  (sort_by (λ a b, Nat.compare a.1 b.1) l).*1 = seq 0 n.
Proof.
  intros Hnd Hlt Hlen. set (l' := sort_by _ l).
  assert (l' ≡ₚ l) as Hp by apply sort_by_perm.
  apply (StronglySorted_unique le).
  - assert (StronglySorted (λ a b : nat * V, Nat.compare a.1 b.1 ≠ Gt) l') as Hs.
    { apply sort_by_sorted.
      - intros x y Hxy. rewrite Nat.compare_gt_iff in Hxy. rewrite Nat.compare_ngt_iff. lia.
      - intros x y z. rewrite !Nat.compare_ngt_iff. lia. }
    clear -Hs. induction Hs as [|x l0 Hs IH Hall]; [apply SSorted_nil|]. csimpl. apply SSorted_cons; [done|].
    apply Forall_fmap. eapply Forall_impl; [exact Hall|]. intros y Hy. simpl.
    rewrite Nat.compare_ngt_iff in Hy. lia.
  - clear. generalize 0. induction n as [|n IH]; intros a; [apply SSorted_nil|]. simpl. apply SSorted_cons; [done|].
    apply Forall_forall. intros x Hx. apply elem_of_seq in Hx. lia.
  - rewrite Hp. apply submseteq_length_Permutation.
    + apply NoDup_submseteq; [done|]. intros p Hin. apply elem_of_seq. specialize (Hlt p Hin). lia.
    + rewrite length_seq, length_fmap. lia.
Qed.

(** The key made of some of the columns is the key of the other index for every
    row with the whole key. *)
Lemma sub_key_ok cols other key :
  NoDup cols → NoDup other → length (pk_elems key) = length cols →
  ∃ l, sub_positions other cols key = Ok l ∧
    (length l = length other →
     let k' := (sort_by (λ a b, Nat.compare a.1 b.1) l).*2 in
     length k' = length other ∧
     ∀ r, cols_fit cols r → cols_fit other r → cols_at cols r = pk_elems key → cols_at other r = k').
Proof.
  intros Hnd Hnd' Hk.
  destruct (sub_positions_ok other key (imap pair cols) Hnd') as (l & He & Hl & Hin).
  { by rewrite imap_pair_snd. }
  { apply Forall_forall. intros [j c] Hjc. apply imap_pair_elem in Hjc. simpl.
    rewrite Hk. by eapply lookup_lt_Some. }
  exists l. split; [done|]. intros Hlen k'. set (l' := sort_by _ l) in k'.
  assert (l' ≡ₚ l) as Hp by apply sort_by_perm.
  assert (l'.*1 = seq 0 (length other)) as Hseq.
  { apply sort_positions; [done| |done]. intros p (pv & -> & Hpv)%list_elem_of_fmap.
    destruct pv as [p v]. apply Hin in Hpv as (j & c & _ & Hp' & _). simpl. by eapply lookup_lt_Some. }
  assert (length k' = length other) as Hk'.
  { unfold k'. by rewrite length_fmap, Hp. }
  split; [done|]. intros r Hf Hf' Hr. apply cols_at_eq; [done|done|]. intros p c Hpc.
  assert (p < length l')%nat as Hlt.
  { rewrite Hp, Hlen. by eapply lookup_lt_Some. }
  destruct (lookup_lt_is_Some_2 _ _ Hlt) as [[p' v] Hpv].
  assert (p' = p) as ->.
  { assert (l'.*1 !! p = Some p') as Hp' by (by rewrite list_lookup_fmap, Hpv).
    rewrite Hseq in Hp'. apply lookup_seq in Hp' as [? _]. done. }
  unfold k'. rewrite list_lookup_fmap, Hpv. simpl.
  assert ((p, v) ∈ l) as Hin' by (rewrite <-Hp; by eapply list_elem_of_lookup_2).
  apply Hin in Hin' as (j & c' & Hjc & Hpc' & Hv). rewrite Hpc in Hpc'. injection Hpc' as <-.
  apply imap_pair_elem in Hjc. rewrite <-Hv.
  exact (proj1 (cols_at_eq cols r (pk_elems key) Hf Hk) Hr j c Hjc).
Qed.

Lemma point_key_some k : (1 ≤ length k)%nat → ∃ pk, point_key_from k = Ok pk.
Proof. destruct k; simpl; [lia|eauto]. Qed.

(** The two ways to look up in an index with other columns. *)
Lemma reordered_rows cols other key R k' :
  Forall (λ r, cols_fit cols r ∧ cols_fit other r) R →
  (∀ r, cols_fit cols r → cols_fit other r → (cols_at other r = k' ↔ cols_at cols r = pk_elems key)) →
  rows_with other R k' = rows_with cols R (pk_elems key).
Proof.
  intros HR Hiff. apply filter_ext_elem. intros r Hr. rewrite Forall_forall in HR.
  destruct (HR r Hr). by apply Hiff.
Qed.

Lemma sub_rows cols other key R rows k' :
  Forall (λ r, cols_fit cols r ∧ cols_fit other r) R → length (pk_elems key) = length cols →
  (∀ r, cols_fit cols r → cols_fit other r → cols_at cols r = pk_elems key → cols_at other r = k') →
  rows ≡ₚ rows_with other R k' →
  filter (λ row, row_matches cols key row = true) rows ≡ₚ rows_with cols R (pk_elems key).
Proof.
  intros HR Hk Himp ->. unfold rows_with. rewrite list_filter_filter.
  rewrite (filter_ext_elem _ (λ r, cols_at cols r = pk_elems key)); [done|].
  intros r Hr. rewrite Forall_forall in HR. destruct (HR r Hr) as [Hf Hf'].
  rewrite row_matches_ok by done. split; [tauto|]. intros Hc. split; [done|]. by apply Himp.
Qed.

(** The answer of another index, if it has one, is the rows of the key. *)
Lemma lookup_overlapping_ok cols t key st R :
  ss_holds R st → NoDup cols → NoDup (ss_columns st) →
  point_key_from (pk_elems key) = Ok key → length (pk_elems key) = length cols →
  Forall (λ r, cols_fit cols r ∧ cols_fit (ss_columns st) r) R →
  ∃ o, lookup_overlapping cols t key st = Ok o ∧
    match o with
    | Some rows => rows ≡ₚ rows_with cols R (pk_elems key)
    | None => ss_columns st = cols → ss_index_type st ≠ t → ss_filled st (pk_elems key) = false
    end.
Proof.
  intros [Hok Hh] Hnd Hnd' Hpk Hk HR. unfold lookup_overlapping.
  assert (∀ k' pk', point_key_from k' = Ok pk' → length k' = length (ss_columns st) →
    ∃ rows, ss_lookup st pk' = Ok (if ss_filled st k' then LrSome rows else LrMissing) ∧
      (ss_filled st k' = true → rows ≡ₚ rows_with (ss_columns st) R k')) as Hlk.
  { intros k' pk' Hp Hl. by apply lookup_ok. }
  destruct (decide (ss_columns st = cols)) as [Hc|Hc].
  - rewrite (bool_decide_true (ss_columns st = cols)) by done. cbn [andb negb].
    rewrite Hc, Nat.ltb_irrefl. destruct (decide (ss_index_type st = t)) as [Ht|Ht].
    + rewrite bool_decide_true by done. cbn [negb mbind result_bind]. by exists None.
    + rewrite bool_decide_false by done. cbn [negb].
      destruct (Hlk _ key Hpk) as (rows & -> & Hrows); [by rewrite Hc|].
      cbn [mbind result_bind]. destruct (ss_filled st (pk_elems key)); cbn [found_rows mbind result_bind].
      * exists (Some rows). split; [done|]. rewrite <-Hc. by apply Hrows.
      * by exists None.
  - rewrite (bool_decide_false (ss_columns st = cols)) by done. cbn [andb negb mbind result_bind].
    assert (1 ≤ length (ss_columns st))%nat as Hn by apply (proj1 Hok).
    destruct ((length (ss_columns st) =? length cols) &&
      forallb (λ col, bool_decide (is_Some (bm_get (col_positions (ss_columns st)) col))) cols) eqn:Ere.
    + apply andb_true_iff in Ere as [Hlen%Nat.eqb_eq Hall]. rewrite forallb_forall in Hall.
      destruct (shuffle_key_ok cols (ss_columns st) key) as (k' & -> & Hk' & Hiff); [done..| |].
      { intros c Hin. apply list_elem_of_In, Hall, bool_decide_eq_true in Hin as [i Hi].
        apply col_positions_spec in Hi; [|done]. by eapply list_elem_of_lookup_2. }
      cbn [mbind result_bind]. destruct (point_key_some k') as [pk' Hpk']; [lia|]. rewrite Hpk'.
      cbn [mbind result_bind]. destruct (Hlk k' pk' Hpk' Hk') as (rows & -> & Hrows). cbn [mbind result_bind].
      destruct (ss_filled st k'); cbn [found_rows mbind result_bind].
      * exists (Some rows). split; [done|]. rewrite Hrows by done. by rewrite (reordered_rows cols _ key _ k').
      * rewrite Hlen, Nat.ltb_irrefl. exists None. done.
    + cbn [mbind result_bind]. destruct (Nat.ltb_spec (length (ss_columns st)) (length cols)); [|by exists None].
      destruct (sub_key_ok cols (ss_columns st) key) as (l & -> & Hl); [done..|]. cbn [mbind result_bind].
      destruct (Nat.eqb_spec (length l) (length (ss_columns st))) as [El|El]; [|by exists None].
      destruct (Hl El) as [Hk' Himp]. set (k' := (sort_by _ l).*2) in *.
      destruct (point_key_some k') as [pk' Hpk']; [lia|]. rewrite Hpk'. cbn [mbind result_bind].
      destruct (Hlk k' pk' Hpk' Hk') as (rows & -> & Hrows). cbn [mbind result_bind].
      destruct (ss_filled st k'); [|by exists None].
      eexists. split; [done|]. by apply (sub_rows cols (ss_columns st) key R rows k'); auto.
Qed.

Lemma lookup_others_ok cols t key states R :
  Forall (ss_holds R) states → NoDup cols → Forall (λ st, NoDup (ss_columns st)) states →
  point_key_from (pk_elems key) = Ok key → length (pk_elems key) = length cols →
  Forall (λ r, cols_fit cols r ∧ Forall (λ st, cols_fit (ss_columns st) r) states) R →
  ∃ res, lookup_others cols t key states = Ok res ∧
    match res with
    | LrSome rows => rows ≡ₚ rows_with cols R (pk_elems key)
    | LrMissing => ∀ st, st ∈ states → ss_columns st = cols → ss_index_type st ≠ t →
                         ss_filled st (pk_elems key) = false
    end.
Proof.
  intros Hs Hnd Hnds Hpk Hk HR. induction Hs as [|st states Hst Hs IH].
  { exists LrMissing. split; [done|]. intros st Hin. by apply not_elem_of_nil in Hin. }
  apply Forall_cons in Hnds as [Hnd1 Hnds].
  destruct (lookup_overlapping_ok cols t key st R Hst Hnd Hnd1 Hpk Hk) as (o & Ho & Hcase).
  { eapply Forall_impl; [exact HR|]. intros r [? Hr]. split; [done|]. by apply Forall_cons in Hr as [? _]. }
  cbn [lookup_others]. rewrite Ho. cbn [mbind result_bind]. destruct o as [rows|]; [by exists (LrSome rows)|].
  destruct (IH Hnds) as (res & He & Hres).
  { eapply Forall_impl; [exact HR|]. intros r [? Hr]. split; [done|]. by apply Forall_cons in Hr as [_ ?]. }
  exists res. split; [done|]. destruct res as [rows|]; [done|].
  intros st' [->|Hin]%elem_of_cons; [done|by apply Hres].
Qed.

Lemma ms_lookup_ok ms cols key R :
  ms_ok ms R → Forall (row_fits ms) R → Forall (λ st, NoDup (ss_columns st)) (ms_state ms) →
  (∃ s, s ∈ ms_state ms ∧ ss_columns s = cols) →
  point_key_from (pk_elems key) = Ok key → length (pk_elems key) = length cols →
  ∃ res, ms_lookup ms cols key = Ok res ∧
    match res with
    | LrSome rows => rows ≡ₚ rows_with cols R (pk_elems key)
    | LrMissing => ∀ s, s ∈ ms_state ms → ss_columns s = cols → ss_filled s (pk_elems key) = false
    end.
Proof.
  intros (Hs & Hnd & Hw) HR Hnds (s0 & Hs0 & Hc0) Hpk Hk. unfold ms_lookup.
  assert (∃ i s, match state_for ms cols IxHashMap with
    | Some i => Some i | None => state_for ms cols IxBTreeMap end = Some i ∧
    ms_state ms !! i = Some s ∧ ss_columns s = cols) as (i & s & -> & Hi & Hc).
  { pose proof (state_for_spec ms cols IxHashMap) as H1. pose proof (state_for_spec ms cols IxBTreeMap) as H2.
    destruct (state_for ms cols IxHashMap) as [i|]; [destruct H1 as (s & ? & ? & _); by exists i, s|].
    destruct (state_for ms cols IxBTreeMap) as [i|]; [destruct H2 as (s & ? & ? & _); by exists i, s|].
    destruct (ss_index_type s0) eqn:Et; [by destruct (H1 s0 Hs0)|by destruct (H2 s0 Hs0)]. }
  cbn [expect mbind result_bind]. rewrite Hi. cbn [expect mbind result_bind].
  destruct (Forall_lookup_1 _ _ _ _ Hs Hi) as [Hok Hh].
  destruct (lookup_ok s (pk_elems key) key _ Hok Hh) as (rows & -> & Hrows); [by rewrite Hc|done|].
  cbn [mbind result_bind]. destruct (ss_filled s (pk_elems key)) eqn:Hf.
  { exists (LrSome rows). split; [done|]. rewrite <-Hc. by apply Hrows. }
  assert (NoDup cols) as Hndc by (rewrite <-Hc; exact (Forall_lookup_1 _ _ _ _ Hnds Hi)).
  destruct (lookup_others_ok cols (ss_index_type s) key (ms_state ms) R) as (res & He & Hres); [done..| |].
  { eapply Forall_impl; [exact HR|]. intros r [Hr _]. split; [|done].
    rewrite <-Hc. exact (Forall_lookup_1 _ _ _ _ Hr Hi). }
  exists res. split; [done|]. destruct res as [rows'|]; [done|]. intros s' Hin Hc'.
  destruct (decide (ss_index_type s' = ss_index_type s)) as [Et|Et]; [|by apply Hres].
  apply list_elem_of_lookup in Hin as [i' Hi'].
  assert (i' = i) as ->; [|by rewrite Hi in Hi'; injection Hi' as ->].
  apply (NoDup_lookup _ _ _ (ss_index s) Hnd); rewrite list_lookup_fmap; [rewrite Hi'|by rewrite Hi].
  simpl. f_equal. unfold ss_columns, ss_index_type in *. destruct (ss_index s'), (ss_index s). simpl in *. congruence.
Qed.
End lookup.
