(* ===== verification/StateTheorems.v ===== *)
(** * StateTheorems: what in-memory state promises to the dataflow

    The contract of the [State] trait for [MemoryState]: for every key a partial
    index has either all the rows with that key or a hole, writes and evictions
    keep it so, replays fill holes, and lookups never return anything but all
    the rows of a key.  The last theorems show where weak indexes fall short. *)
From stdpp Require Import gmap.
From S2P Require Import Prelude Intervals BTreeMap IntervalTree IntervalTreeProps PartialMap.
From S2P Require Import Result Records Keys Processing Batches Crates KeyedState KeyedStateProps.
From S2P Require Import SingleState SingleStateProps MemoryState MemoryStateProps MemoryLookup.

Section theorems.
Context `{DfVal V} `{!HashBag (list V) Rows} `{!IndexMap (list V) Rows IM} {O : Type}.
Implicit Types (ms : MemoryState V Rows IM O) (s : SingleState V Rows IM).
Implicit Types (c : KeyComparison V) (rs : list (Record V)) (R : list (list V)).

(** C3: Writing a valid batch without a replay tag takes every index of a
    [MemoryState] from holding the old rows of the node to holding the new ones,
    and leaves the filled keys as they were; the records left in the batch are
    those with a filled key in some index when the state is partial, and all of
    them otherwise. *)
Theorem memory_process_records ms rs offset R R' :
  ms_ok ms R → Forall (λ rc, row_fits ms (rec rc)) rs → batch_ok R rs R' →
  ∃ ms', ms_process_records ms rs None offset =
      Ok (if ms_is_partial ms then filter (λ rc, ms_hits ms (rec rc) = true) rs else rs, ms') ∧
    ms_ok ms' R' ∧ same_indexes ms ms'.
Proof. apply process_records_ok. Qed.

(** C20: A replay into holes of a partial index: marking the keys filled and
    then processing their rows with the tag of the index keeps all the records,
    leaves every index holding the rows of the node, and fills exactly the keys
    replayed; the other indexes are not touched. *)
Theorem memory_replay_fills ms tag i s c R (L : list (list V)) offset :
  ms_ok ms R → ms_by_tag ms !! tag = Some i → ms_state ms !! i = Some s → ss_partial s = true →
  kc_fits s c → (∀ k, kc_contains c k = true → ss_filled s k = false) →
  L ≡ₚ filter (λ r, kc_contains c (cols_at (ss_columns s) r) = true) R → Forall (row_fits ms) R →
  ∃ ms1 ms2 s2, ms_mark_filled ms c tag = Ok ms1 ∧
    ms_process_records ms1 (Positive <$> L) (Some tag) offset = Ok (Positive <$> L, ms2) ∧
    ms_ok ms2 R ∧ ms_state ms2 = <[i := s2]> (ms_state ms) ∧ ss_index s2 = ss_index s ∧
    ∀ k, ss_filled s2 k = ss_filled s k || kc_contains c k.
Proof. apply replay_ok. Qed.

(** C18: A point lookup on the columns of an index never panics; when it
    answers, also through an index of another type, with the columns in another
    order or with some of them only, the answer is all the rows of the node with
    that key; it misses only when no index on the columns has the key filled. *)
Theorem memory_lookup_correct ms cols key R :
  ms_ok ms R → Forall (row_fits ms) R → Forall (λ st, NoDup (ss_columns st)) (ms_state ms) →
  (∃ s, s ∈ ms_state ms ∧ ss_columns s = cols) →
  point_key_from (pk_elems key) = Ok key → length (pk_elems key) = length cols →
  ∃ res, ms_lookup ms cols key = Ok res ∧
    match res with
    | LrSome rows => rows ≡ₚ rows_with cols R (pk_elems key)
    | LrMissing => ∀ s, s ∈ ms_state ms → ss_columns s = cols → ss_filled s (pk_elems key) = false
    end.
Proof. apply ms_lookup_ok. Qed.

(** C19: A range lookup on a [BTreeMap] index of one to four or six columns
    returns all the rows with a key in the range when the whole range is filled,
    and otherwise ranges that cover exactly the holes in the range. *)
Theorem memory_range_lookup_correct ms cols range rk R :
  ms_ok ms R → (∃ s, s ∈ ms_state ms ∧ ss_columns s = cols ∧ ss_index_type s = IxBTreeMap) →
  range_arity (length cols) → range_fits (length cols) range → range_valid range = true →
  range_key_from range = Ok rk →
  ∃ s res, s ∈ ms_state ms ∧ ss_columns s = cols ∧ ms_lookup_range ms cols rk = Ok res ∧
  match res with
  | RlrSome rows =>
      (∀ k, in_range range k = true → ss_filled s k = true) ∧
      rows ≡ₚ filter (λ r, in_range range (cols_at cols r) = true) R
  | RlrMissing misses =>
      misses ≠ [] ∧
      ∀ k, existsb (λ miss, in_range miss k) misses = true ↔ in_range range k = true ∧ ss_filled s k = false
  end.
Proof.
  intros (Hs & _ & _) (s0 & Hs0 & Hc0 & Ht0) Har Hfit Hv Hrk. unfold ms_lookup_range.
  pose proof (state_for_spec ms cols IxBTreeMap) as Hsf.
  destruct (state_for ms cols IxBTreeMap) as [i|]; [|by destruct (Hsf s0 Hs0)].
  destruct Hsf as (s & Hi & <- & Ht). cbn [expect mbind result_bind]. rewrite Hi. cbn [expect mbind result_bind].
  destruct (Forall_lookup_1 _ _ _ _ Hs Hi) as [Hok Hh].
  destruct (lookup_range_ok s range rk R Hok Hh Ht Har Hfit Hv Hrk) as (res & He & Hres).
  exists s, res. split_and!; [by eapply list_elem_of_lookup_2|done|done|done].
Qed.

(** C37: Evicting keys from the index of a tag turns exactly these keys into
    holes; every index still holds the rows of the node at its filled keys, and
    the other indexes are not touched. *)
Theorem memory_evict_keys ms tag i s keys R :
  ms_ok ms R → ms_by_tag ms !! tag = Some i → ms_state ms !! i = Some s → ss_partial s = true →
  Forall (kc_fits s) keys → Forall (row_fits ms) R →
  ∃ s' weak, ms_evict_keys ms tag keys = Ok (Some (ss_index s), with_index ms i s' weak) ∧
    ms_ok (with_index ms i s' weak) R ∧ ss_index s' = ss_index s ∧
    ∀ k, ss_filled s' k = ss_filled s k && negb (existsb (λ c, kc_contains c k) keys).
Proof. apply evict_ok. Qed.

(** Adding an index never loses a row: the state still holds the rows of
    the node, has an index for the columns that the given tags lead to, and keeps
    the indexes it had; a full index gets its rows from the first full index. *)
Theorem memory_add_key ms index partial R :
  ms_ok ms R → (1 ≤ length (columns index))%nat → Forall (cols_fit (columns index)) R →
  (partial = None → match ms_state ms with [] => R = [] | s :: _ => ss_partial s = false end) →
  ∃ ms', ms_add_key ms index partial = Ok ms' ∧ ms_ok ms' R ∧
    (∃ i, state_for ms' (columns index) (index_type index) = Some i ∧
          ∀ tag, tag ∈ default [] partial → ms_by_tag ms' !! tag = Some i) ∧
    ms_state ms `prefix_of` ms_state ms'.
Proof. apply add_key_ok. Qed.
End theorems.

(** ** A sample state: a hash index on column 0 and a tree index on column 1,
    filled through the tags 7 and 8, and a weak index on column 2 *)
Abbreviation SampleRow := (list SampleVal).
Abbreviation SampleMs := (MemoryState SampleVal (list SampleRow) (gmap SampleRow (list SampleRow)) nat).

Definition index_0 : Index := {| index_type := IxHashMap; columns := [0] |}.
Definition index_1 : Index := {| index_type := IxBTreeMap; columns := [1] |}.
Definition weak_2 : Index := {| index_type := IxHashMap; columns := [2] |}.
Definition row (a b c : Z) : SampleRow := [SInt a; SInt b; SInt c].
Definition sample_rows : list SampleRow := [row 1 10 5; row 2 10 5; row 2 20 6].

Definition or_default (res : result SampleMs) : SampleMs :=
  match res with Ok ms => ms | _ => ms_default end.
Definition empty_index (index : Index) : SingleState SampleVal (list SampleRow) (gmap SampleRow (list SampleRow)) :=
  {| ss_index := index; ss_state := ks_from index; ss_partial := true; ss_row_count := 0 |}.
Definition sample_ms : SampleMs :=
  {| ms_state := [empty_index index_0; empty_index index_1]; ms_weak_indices := [([2], ks_from weak_2)];
     ms_by_tag := {[7 := 0; 8 := 1]}; ms_replication_offset := None |}.
(** A replay: the key marked filled, then its rows. *)
Definition sample_replay (c : KeyComparison SampleVal) (tag : nat) (L : list SampleRow) (ms : SampleMs) : result SampleMs :=
  ms1 ← ms_mark_filled ms c tag; '(_, ms2) ← ms_process_records ms1 (Positive <$> L) (Some tag) None; Ok ms2.
(** The sample state with key 2 of column 0 replayed. *)
Definition sample_filled : SampleMs :=
  or_default (sample_replay (KEqual [SInt 2]) 7 [row 2 10 5; row 2 20 6] sample_ms).
Lemma sample_fits (ms : SampleMs) a b c :
  ss_columns <$> ms_state ms = [[0]; [1]] → (ms_weak_indices ms).*1 = [[2]] → row_fits ms (row a b c).
Proof.
  intros Hs Hw. split.
  - destruct (ms_state ms) as [|s0 [|s1 [|]]]; try done. injection Hs as H0 H1.
    repeat constructor; simpl; rewrite ?H0, ?H1; apply Forall_singleton; simpl; lia.
  - destruct (ms_weak_indices ms) as [|[cols ks] [|]]; try done. injection Hw as ->.
    apply Forall_singleton, Forall_singleton. simpl. lia.
Qed.

Lemma empty_index_holds index R : (1 ≤ length (columns index))%nat → ss_holds R (empty_index index).
Proof.
  intros Hn. destruct (ks_from_ok (V:=SampleVal) (Rows:=list SampleRow)
    (IM:=gmap SampleRow (list SampleRow)) index Hn) as (Hks & Hb & Hg).
  split; [by split_and!|]. intros k. simpl. by rewrite Hg.
Qed.

Lemma sample_ms_ok : ms_ok sample_ms sample_rows.
Proof.
  split_and!.
  - apply Forall_cons. split; [|apply Forall_singleton]; apply empty_index_holds; simpl; lia.
  - apply NoDup_cons. split; [|apply NoDup_singleton]. by intros ?%list_elem_of_singleton.
  - apply Forall_singleton. simpl. split; [lia|done].
Qed.

Lemma sample_replay_ok :
  ∃ s2, ms_ok sample_filled sample_rows ∧ ms_state sample_filled = [s2; empty_index index_1] ∧
    ss_index s2 = index_0 ∧ ∀ k, ss_filled s2 k = kc_contains (KEqual [SInt 2]) k.
Proof.
  destruct (replay_ok sample_ms 7 0 (empty_index index_0) (KEqual [SInt 2]) sample_rows
    [row 2 10 5; row 2 20 6] None sample_ms_ok) as (ms1 & ms2 & s2 & H1 & H2 & Hok & Hst & Hix & Hf).
  - reflexivity.
  - reflexivity.
  - reflexivity.
  - reflexivity.
  - intros k _. reflexivity.
  - reflexivity.
  - repeat constructor; apply sample_fits; reflexivity.
  - exists s2. assert (sample_filled = ms2) as ->.
    { unfold sample_filled, sample_replay. rewrite H1. cbn [mbind result_bind]. rewrite H2. done. }
    done.
Qed.

Definition sample_batch : list (Record SampleVal) := [Negative (row 2 10 5); Positive (row 1 5 1)].
Definition sample_rows' : list SampleRow := [row 1 10 5; row 2 20 6; row 1 5 1].

Lemma sample_batch_ok : batch_ok sample_rows sample_batch sample_rows'.
Proof.
  split.
  - intros r [|[|[|n]]]; unfold sample_rows, sample_batch; csimpl; unfold sgn; simpl;
      repeat case_decide; subst; try done; lia.
  - intros r. unfold sample_rows, sample_rows', sample_batch; csimpl; unfold sgn; simpl;
      repeat case_decide; subst; try done; lia.
Qed.

Lemma sample_filled_fits a b c : row_fits sample_filled (row a b c).
Proof. apply sample_fits; reflexivity. Qed.

Lemma memory_process_records_witness :
  ∃ ms', ms_process_records sample_filled sample_batch None None = Ok ([Negative (row 2 10 5)], ms') ∧
    ms_ok ms' sample_rows' ∧ same_indexes sample_filled ms'.
Proof.
  destruct sample_replay_ok as (s2 & Hok & _).
  destruct (memory_process_records sample_filled sample_batch None sample_rows sample_rows' Hok)
    as (ms' & He & Hok' & Hs).
  - repeat constructor; apply sample_filled_fits.
  - exact sample_batch_ok.
  - exists ms'. split; [rewrite He; reflexivity|done].
Defined.

Lemma memory_replay_fills_witness :
  ∃ ms1 ms2 s2, ms_mark_filled sample_ms (KEqual [SInt 2]) 7 = Ok ms1 ∧
    ms_process_records ms1 [Positive (row 2 10 5); Positive (row 2 20 6)] (Some 7) None =
      Ok ([Positive (row 2 10 5); Positive (row 2 20 6)], ms2) ∧
    ms_ok ms2 sample_rows ∧ ms_state ms2 = [s2; empty_index index_1] ∧ ss_index s2 = index_0 ∧
    ∀ k, ss_filled s2 k = kc_contains (KEqual [SInt 2]) k.
Proof.
  apply (memory_replay_fills sample_ms 7 0 (empty_index index_0) (KEqual [SInt 2]) sample_rows
    [row 2 10 5; row 2 20 6] None sample_ms_ok).
  - reflexivity.
  - reflexivity.
  - reflexivity.
  - reflexivity.
  - intros k _. reflexivity.
  - reflexivity.
  - repeat constructor; apply sample_fits; reflexivity.
Defined.

Lemma memory_evict_keys_witness :
  ∃ s' weak, ms_evict_keys sample_filled 7 [KEqual [SInt 2]] = Ok (Some index_0, with_index sample_filled 0 s' weak) ∧
    ms_ok (with_index sample_filled 0 s' weak) sample_rows ∧ ss_filled s' [SInt 2] = false.
Proof.
  destruct sample_replay_ok as (s2 & Hok & Hst & Hix & Hf).
  destruct (memory_evict_keys sample_filled 7 0 s2 [KEqual [SInt 2]] sample_rows Hok)
    as (s' & weak & He & Hok' & _ & Hf').
  - reflexivity.
  - by rewrite Hst.
  - assert (s2 = default s2 (ms_state sample_filled !! 0)) as -> by (by rewrite Hst). reflexivity.
  - apply Forall_singleton. simpl. unfold ss_columns. by rewrite Hix.
  - repeat constructor; apply sample_filled_fits.
  - exists s', weak. split_and!; [by rewrite He, Hix|done|]. by rewrite Hf', Hf.
Defined.

(** The filled sample state with an index on columns 1 and 0 that has no key. *)
Definition index_10 : Index := {| index_type := IxHashMap; columns := [1; 0] |}.
Definition sample_wide : SampleMs :=
  {| ms_state := ms_state sample_filled ++ [empty_index index_10];
     ms_weak_indices := ms_weak_indices sample_filled; ms_by_tag := ms_by_tag sample_filled;
     ms_replication_offset := None |}.

Lemma sample_wide_ok : ms_ok sample_wide sample_rows.
Proof.
  destruct sample_replay_ok as (s2 & (Hs & _ & Hw) & Hst & Hix & _). split_and!; [| |done].
  - simpl. apply Forall_app_2; [done|]. apply Forall_singleton, empty_index_holds. simpl. lia.
  - simpl. rewrite Hst. csimpl. rewrite Hix. repeat (apply NoDup_cons; split);
      [set_solver|set_solver|set_solver|apply NoDup_nil_2].
Qed.

Lemma sample_wide_fits : Forall (row_fits sample_wide) sample_rows.
Proof.
  assert (∀ a b c, row_fits sample_wide (row a b c)) as Hf; [|repeat constructor; apply Hf].
  intros a b c. destruct (sample_filled_fits a b c) as [H1 H2]. split; [|done]. simpl.
  apply Forall_app_2; [done|]. apply Forall_singleton. repeat constructor; simpl; lia.
Qed.

(** The lookup misses in its own index and is answered by the one on column 0. *)
Lemma memory_lookup_correct_witness :
  ∃ rows, ms_lookup sample_wide [1; 0] {| pk_variant := Double; pk_elems := [SInt 10; SInt 2] |} = Ok (LrSome rows) ∧
    rows ≡ₚ [row 2 10 5].
Proof.
  destruct (memory_lookup_correct sample_wide [1; 0] {| pk_variant := Double; pk_elems := [SInt 10; SInt 2] |}
    sample_rows sample_wide_ok sample_wide_fits) as (res & He & Hres).
  - destruct sample_replay_ok as (s2 & _ & Hst & Hix & _). simpl. rewrite Hst. simpl.
    repeat constructor; unfold ss_columns; rewrite ?Hix; vm_compute; repeat constructor; set_solver.
  - exists (empty_index index_10). split; [|done]. simpl. apply elem_of_app. right. apply elem_of_here.
  - reflexivity.
  - reflexivity.
  - assert (ms_lookup sample_wide [1; 0] {| pk_variant := Double; pk_elems := [SInt 10; SInt 2] |} =
      Ok (LrSome [row 2 10 5])) as Hc by reflexivity.
    rewrite Hc in He. injection He as <-. by exists [row 2 10 5].
Defined.

Lemma memory_range_lookup_correct_witness :
  ∃ s res, s ∈ ms_state sample_ms ∧ ss_columns s = [1] ∧
    ms_lookup_range sample_ms [1] (RkBounds Single (Included [SInt 10], Excluded [SInt 20])) = Ok res ∧
    res = RlrMissing [(Included [SInt 10], Excluded [SInt 20])].
Proof.
  destruct (memory_range_lookup_correct sample_ms [1] (Included [SInt 10], Excluded [SInt 20])
    (RkBounds Single (Included [SInt 10], Excluded [SInt 20])) sample_rows sample_ms_ok) as (s & res & Hs & Hc & He & _).
  - exists (empty_index index_1). split_and!; [|done|done]. apply elem_of_further, elem_of_here.
  - split; simpl; lia.
  - by split.
  - reflexivity.
  - reflexivity.
  - exists s, res. split_and!; [done|done|done|]. vm_compute in He. by injection He as <-.
Defined.

Lemma memory_add_key_witness :
  ∃ ms', ms_add_key sample_filled index_10 (Some [9]) = Ok ms' ∧ ms_ok ms' sample_rows ∧
    state_for ms' [1; 0] IxHashMap = ms_by_tag ms' !! 9.
Proof.
  destruct sample_replay_ok as (s2 & Hok & _).
  destruct (memory_add_key sample_filled index_10 (Some [9]) sample_rows Hok)
    as (ms' & He & Hok' & (i & Hi & Ht) & _).
  - simpl. lia.
  - repeat constructor; simpl; lia.
  - done.
  - exists ms'. split_and!; [done|done|]. rewrite (Hi : state_for ms' [1; 0] IxHashMap = Some i), Ht; [done|].
    apply elem_of_here.
Defined.

(** A row replayed through two strict indexes is inserted twice into a weak
    index, which then returns it twice; removing the row takes out one of the
    copies, and the weak index keeps returning a row that no strict index has
    any more. *)
Theorem weak_index_keeps_removed_row :
  ∃ ms ms' : SampleMs,
    (ms1 ← sample_replay (KEqual [SInt 1]) 7 [row 1 10 5] sample_ms; sample_replay (KEqual [SInt 10]) 8 [row 1 10 5] ms1) = Ok ms ∧
    ms_lookup_weak ms [2] {| pk_variant := Single; pk_elems := [SInt 5] |} = Ok (Some [row 1 10 5; row 1 10 5]) ∧
    ms_process_records ms [Negative (row 1 10 5)] None None = Ok ([Negative (row 1 10 5)], ms') ∧
    ms_lookup ms' [0] {| pk_variant := Single; pk_elems := [SInt 1] |} = Ok (LrSome []) ∧
    ms_lookup ms' [1] {| pk_variant := Single; pk_elems := [SInt 10] |} = Ok (LrSome []) ∧
    ms_lookup_weak ms' [2] {| pk_variant := Single; pk_elems := [SInt 5] |} = Ok (Some [row 1 10 5]).
Proof. do 2 eexists. split_and!; reflexivity. Qed.

(** [evict_keys] lists every distinct row of an evicted key once, so a row
    the key had twice stays in the weak indexes after the eviction. *)
Theorem weak_index_keeps_evicted_row :
  ∃ ms ms' : SampleMs,
    sample_replay (KEqual [SInt 1]) 7 [row 1 10 5; row 1 10 5] sample_ms = Ok ms ∧
    ms_evict_keys ms 7 [KEqual [SInt 1]] = Ok (Some index_0, ms') ∧
    ms_lookup ms' [0] {| pk_variant := Single; pk_elems := [SInt 1] |} = Ok LrMissing ∧
    ms_lookup_weak ms' [2] {| pk_variant := Single; pk_elems := [SInt 5] |} = Ok (Some [row 1 10 5]).
Proof. do 2 eexists. split_and!; reflexivity. Qed.
