(* ===== verification/Base.v ===== *)
(** * Base: the nodes that hold the rows of the tables

    Models [readyset-dataflow/src/node/special/base.rs] and the table operations
    of [readyset-client/src/table.rs].  A base node turns a batch of operations
    (inserts, deletes, updates by key) into the records that take its rows to the
    rows after them; it reads its own state through the [State] trait.  The
    coercion of values to the types of the columns and the kinds of values, which
    only the log of failed operations looks at, are arguments. *)
From stdpp Require Import gmap.
From S2P Require Import Prelude Result Records Keys Processing Batches OpGrouped.
From S2P Require Import Replication KeyedState SingleState.

(** ** Table operations *)
Inductive Operation := OpAdd | OpSub.
Inductive Modification (V : Type) :=
  | ModSet (v : V)
  | ModApply (op : Operation) (v : V)
  | ModNone.
Arguments ModSet {V}.
Arguments ModApply {V}.
Arguments ModNone {V}.

Inductive TableOperation (V : Type) :=
  | TInsert (row : list V)
  | TDeleteByKey (key : list V)
  | TDeleteRow (row : list V)
  | TInsertOrUpdate (row : list V) (update : list (Modification V))
  | TUpdate (update : list (Modification V)) (key : list V)
  | TTruncate
  | TSetReplicationOffset (o : ReplicationOffset)
  | TSetSnapshotMode (s : bool).
Arguments TInsert {V}.
Arguments TDeleteByKey {V}.
Arguments TDeleteRow {V}.
Arguments TInsertOrUpdate {V}.
Arguments TUpdate {V}.
Arguments TTruncate {V}.
Arguments TSetReplicationOffset {V}.
Arguments TSetSnapshotMode {V}.

Inductive SetSnapshotMode := EnterSnapshotMode | FinishSnapshotMode.
Record BaseWrite (V : Type) := {
  bw_records : list (Record V);
  bw_replication_offset : option ReplicationOffset;
  bw_set_snapshot_mode : option SetSnapshotMode;
}.
Arguments bw_records {V}.
Arguments bw_replication_offset {V}.
Arguments bw_set_snapshot_mode {V}.

(** The state of the node, as far as the node reads it. *)
Record BaseDb (V : Type) := {
  db_lookup : list nat → PointKey V → result (LookupResult V);
  db_cloned_records : result (list (list V));
}.
Arguments db_lookup {V}.
Arguments db_cloned_records {V}.

Record Base (V : Type) := {
  primary_key : option (list nat);
  unique_keys : list (list nat);
  defaults : list V;
  dropped : list nat;
  unmodified : bool;
  permissive_writes : bool;
}.
Arguments primary_key {V}.
Arguments unique_keys {V}.
Arguments defaults {V}.
Arguments dropped {V}.
Arguments unmodified {V}.
Arguments permissive_writes {V}.

(** What a batch has done to a key so far. *)
Inductive TouchedKey (V : Type) := Deleted | Inserted (row : list V).
Arguments Deleted {V}.
Arguments Inserted {V}.

(** The counts of failed operations; [K] is [DfValueKind]. *)
Record FailedOpLogger (K : Type) `{Countable K} := {
  insert_existing : nat;
  update_non_existing : nat;
  delete_non_existing : nat;
  delete_type_mismatch : gmap (nat * option K * option K) nat;
  delete_row_data_mismatch : gmap (nat * K) nat;
}.
Arguments insert_existing {K _ _}.
Arguments update_non_existing {K _ _}.
Arguments delete_non_existing {K _ _}.
Arguments delete_type_mismatch {K _ _}.
Arguments delete_row_data_mismatch {K _ _}.

Section base.
Context `{DfNum V} {K : Type} `{Countable K} (kind_of : V → K).
Context {Ty : Type} (maybe_coerce_for_table_op : Ty → V → result V).
Implicit Types (b : Base V) (row r : list V) (op : TableOperation V) (log : FailedOpLogger K).

(** ** The columns *)
Definition base_default : Base V :=
  {| primary_key := None; unique_keys := []; defaults := []; dropped := [];
     unmodified := true; permissive_writes := false |}.
Definition all_unique_keys b : list (list nat) := option_list (primary_key b) ++ unique_keys b.
Definition add_column b (default : V) : result (nat * Base V) :=
  match defaults b with
  | [] => Err Internal
  | ds => Ok (length ds,
       {| primary_key := primary_key b; unique_keys := unique_keys b; defaults := ds ++ [default];
          dropped := dropped b; unmodified := false; permissive_writes := permissive_writes b |})
  end.
Definition drop_column b (column : nat) : result (Base V) :=
  match defaults b with
  | [] => Err Internal
  | ds => if column <? length ds
          then Ok {| primary_key := primary_key b; unique_keys := unique_keys b; defaults := ds;
                     dropped := dropped b ++ [column]; unmodified := false;
                     permissive_writes := permissive_writes b |}
          else Err Internal
  end.
(** [get_dropped]; a column dropped twice is collected once, here as its entries. *)
Definition get_dropped b : result (list (nat * V)) :=
  result_mapM (λ col, v ← expect (defaults b !! col); Ok (col, v)) (dropped b).
Definition fix_row b row : list V :=
  if unmodified b then row
  else if length row =? length (defaults b) then row
  else row ++ drop (length row) (defaults b).

(** ** Keys of operations

    [key_of] reads the key columns of the row, or the elements of the key, as
    many as there are key columns. *)
Definition key_val (i col : nat) op : result (option V) :=
  match op with
  | TInsert row | TDeleteRow row | TInsertOrUpdate row _ => v ← expect (row !! col); Ok (Some v)
  | TDeleteByKey key | TUpdate _ key => v ← expect (key !! i); Ok (Some v)
  | TSetReplicationOffset _ | TSetSnapshotMode _ | TTruncate => Ok None
  end.
Fixpoint key_of_from (i : nat) (key_cols : list nat) op : result (list V) :=
  match key_cols with
  | [] => Ok []
  | col :: cols => v ← key_val i col op; vs ← key_of_from (S i) cols op; Ok (option_list v ++ vs)
  end.
Definition key_of (key_cols : list nat) op : result (list V) := key_of_from 0 key_cols op.

Definition is_truncate op : bool := match op with TTruncate => true | _ => false end.
(** The order of the sort, on operations with their keys. *)
Definition op_cmp (x y : list V * TableOperation V) : comparison :=
  then_cmp (cmp x.1 y.1) (if is_truncate x.2 then Gt else if is_truncate y.2 then Lt else Eq).

(** ** Failed operations *)
Definition log_new : FailedOpLogger K :=
  {| insert_existing := 0; update_non_existing := 0; delete_non_existing := 0;
     delete_type_mismatch := ∅; delete_row_data_mismatch := ∅ |}.
Definition failed_insert log : FailedOpLogger K :=
  {| insert_existing := S (insert_existing log); update_non_existing := update_non_existing log;
     delete_non_existing := delete_non_existing log; delete_type_mismatch := delete_type_mismatch log;
     delete_row_data_mismatch := delete_row_data_mismatch log |}.
Definition failed_update log : FailedOpLogger K :=
  {| insert_existing := insert_existing log; update_non_existing := S (update_non_existing log);
     delete_non_existing := delete_non_existing log; delete_type_mismatch := delete_type_mismatch log;
     delete_row_data_mismatch := delete_row_data_mismatch log |}.
(** The first column at which the rows differ, padded to the longer one. *)
Fixpoint log_mismatch (col : nat) (del cur : list V) log : FailedOpLogger K :=
  let mismatch d c log :=
    {| insert_existing := insert_existing log; update_non_existing := update_non_existing log;
       delete_non_existing := delete_non_existing log;
       delete_type_mismatch :=
         partial_alter (λ n, Some (S (default 0 n))) (col, kind_of <$> d, kind_of <$> c) (delete_type_mismatch log);
       delete_row_data_mismatch := delete_row_data_mismatch log |} in
  match del, cur with
  | [], [] => log
  | d :: _, [] => mismatch (Some d) None log
  | [], c :: _ => mismatch None (Some c) log
  | d :: del', c :: cur' =>
      if decide (kind_of d = kind_of c) then
        if decide (d = c) then log_mismatch (S col) del' cur' log
        else {| insert_existing := insert_existing log; update_non_existing := update_non_existing log;
                delete_non_existing := delete_non_existing log;
                delete_type_mismatch := delete_type_mismatch log;
                delete_row_data_mismatch :=
                  partial_alter (λ n, Some (S (default 0 n))) (col, kind_of d) (delete_row_data_mismatch log) |}
      else mismatch (Some d) (Some c) log
  end.
Definition failed_delete log (deleted : list V) (current : option (list V)) : FailedOpLogger K :=
  match current with
  | None =>
      {| insert_existing := insert_existing log; update_non_existing := update_non_existing log;
         delete_non_existing := S (delete_non_existing log); delete_type_mismatch := delete_type_mismatch log;
         delete_row_data_mismatch := delete_row_data_mismatch log |}
  | Some row => log_mismatch 0 deleted row log
  end.
Definition has_failed_inserts log : bool := negb (insert_existing log =? 0).
Definition has_failed_deletes_or_updates log : bool :=
  negb ((update_non_existing log =? 0) && (delete_non_existing log =? 0) &&
        bool_decide (delete_type_mismatch log = ∅) && bool_decide (delete_row_data_mismatch log = ∅)).
Definition ensure_no_failed_ops log : result unit :=
  if has_failed_deletes_or_updates log || has_failed_inserts log then Err FailedBaseOps else Ok tt.

(** ** Processing *)
Fixpoint coerce_vals (vals : list V) (columns : list Ty) : result (list V) :=
  match vals, columns with
  | v :: vals', ty :: columns' =>
      v' ← maybe_coerce_for_table_op ty v; rest ← coerce_vals vals' columns'; Ok (v' :: rest)
  | _, _ => Ok vals
  end.
Definition apply_table_op_coercions (columns : list Ty) op : result (TableOperation V) :=
  match op with
  | TInsert vals => vals' ← coerce_vals vals columns; Ok (TInsert vals')
  | _ => Ok op
  end.

Definition snapshot_mode_of (s : bool) : SetSnapshotMode := if s then EnterSnapshotMode else FinishSnapshotMode.

(** [process_unkeyed]: the records, the largest offset and the last mode. *)
Definition unkeyed_op b (w : BaseWrite V) op : result (BaseWrite V) :=
  match op with
  | TInsert row =>
      Ok {| bw_records := bw_records w ++ [Positive (fix_row b row)];
            bw_replication_offset := bw_replication_offset w; bw_set_snapshot_mode := bw_set_snapshot_mode w |}
  | TDeleteRow row =>
      Ok {| bw_records := bw_records w ++ [Negative (fix_row b row)];
            bw_replication_offset := bw_replication_offset w; bw_set_snapshot_mode := bw_set_snapshot_mode w |}
  | TSetReplicationOffset o =>
      off ← try_max_into o (bw_replication_offset w);
      Ok {| bw_records := bw_records w; bw_replication_offset := off;
            bw_set_snapshot_mode := bw_set_snapshot_mode w |}
  | TSetSnapshotMode s =>
      Ok {| bw_records := bw_records w; bw_replication_offset := bw_replication_offset w;
            bw_set_snapshot_mode := Some (snapshot_mode_of s) |}
  | _ => Err Internal
  end.
Definition empty_write : BaseWrite V :=
  {| bw_records := []; bw_replication_offset := None; bw_set_snapshot_mode := None |}.
Definition process_unkeyed b (ops : list (TableOperation V)) : result (BaseWrite V) :=
  result_foldl (unkeyed_op b) empty_write ops.

(** The loop over the offsets and modes at the front, which stops at the first
    other operation. *)
Fixpoint take_offsets (w : BaseWrite V) (ops : list (list V * TableOperation V)) :
    result (BaseWrite V * list (list V * TableOperation V)) :=
  match ops with
  | (_, TSetReplicationOffset o) :: ops' =>
      off ← try_max_into o (bw_replication_offset w);
      take_offsets {| bw_records := bw_records w; bw_replication_offset := off;
                      bw_set_snapshot_mode := bw_set_snapshot_mode w |} ops'
  | (_, TSetSnapshotMode s) :: ops' =>
      take_offsets {| bw_records := bw_records w; bw_replication_offset := bw_replication_offset w;
                      bw_set_snapshot_mode := Some (snapshot_mode_of s) |} ops'
  | _ => Ok (w, ops)
  end.
(** The loop over the truncations that follow: were there any, and the rest. *)
Fixpoint take_truncates (ops : list (list V * TableOperation V)) : bool * list (list V * TableOperation V) :=
  match ops with
  | (_, TTruncate) :: ops' => (true, (take_truncates ops').2)
  | _ => (false, ops)
  end.

(** [<i128>::try_from(DfValue)] and [DfValue::try_from(i128)]; integers in values
    are between [i64::MIN] and [u64::MAX], so sums of two stay within 128 bits. *)
Definition i128_of (v : V) : result Z :=
  match dfv_as_int v with Some z => Ok z | None => Err DfValueConversionError end.
Definition value_of_i128 (z : Z) : result V :=
  if ((- 2 ^ 63 <=? z) && (z <? 2 ^ 64))%Z then Ok (dfv_int z) else Err DfValueConversionError.

(** One modification of an update, at its column; columns out of range panic,
    unless there is nothing to do. *)
Definition apply_modification (updated : list V) (col : nat) (m : Modification V) : result (list V) :=
  match m with
  | ModSet v => _ ← expect (updated !! col); Ok (<[col := v]> updated)
  | ModApply op v =>
      cell ← expect (updated !! col);
      old ← i128_of cell;
      delta ← i128_of v;
      v' ← value_of_i128 match op with OpAdd => old + delta | OpSub => old - delta end%Z;
      Ok (<[col := v']> updated)
  | ModNone => Ok updated
  end.
Fixpoint apply_update (updated : list V) (col : nat) (update : list (Modification V)) : result (list V) :=
  match update with
  | [] => Ok updated
  | m :: update' => updated' ← apply_modification updated col m; apply_update updated' (S col) update'
  end.

(** One operation of a group: the value of the key after it, and the log. *)
Definition group_op (acc : option (list V) * FailedOpLogger K) op : result (option (list V) * FailedOpLogger K) :=
  let '(value, log) := acc in
  match op, value with
  | TInsert row, None => Ok (Some row, log)
  | TInsert _, Some _ => Ok (value, failed_insert log)
  | TDeleteRow row, _ =>
      if decide (value = Some row) then Ok (None, log) else Ok (value, failed_delete log row value)
  | TDeleteByKey _, _ => Ok (None, log)
  | TInsertOrUpdate row _, None => Ok (Some row, log)
  | TInsertOrUpdate _ update, Some cur | TUpdate update _, Some cur =>
      cur' ← apply_update cur 0 update; Ok (Some cur', log)
  | TUpdate _ _, None => Ok (value, failed_update log)
  | (TSetSnapshotMode _ | TSetReplicationOffset _ | TTruncate), _ => Ok (value, log)
  end.

(** The value of a key before the batch. *)
Definition touched_get (touched : list (list V * TouchedKey V)) (key : list V) : option (TouchedKey V) :=
  snd <$> (list_find (λ e, e.1 = key) touched ≫= λ x, Some x.2).
Definition stored_value (db : BaseDb V) (snapshot : bool) (key_cols : list nat)
    (touched : list (list V * TouchedKey V)) (key : list V) : result (option (list V)) :=
  if snapshot then Ok None
  else match touched_get touched key with
       | Some (Inserted row) => Ok (Some row)
       | Some Deleted => Ok None
       | None =>
           pk ← point_key_from key;
           res ← db_lookup db key_cols pk;
           match res with
           | LrMissing => Err Internal
           | LrSome [] => Ok None
           | LrSome [row] => Ok (Some row)
           | LrSome _ => Err Internal
           end
       end.

(** The loop over the groups: the records, the touched keys and the log. *)
Definition process_group (db : BaseDb V) (snapshot : bool) (key_cols : list nat)
    (acc : list (Record V) * list (list V * TouchedKey V) * FailedOpLogger K)
    (g : list V * list (TableOperation V)) :
    result (list (Record V) * list (list V * TouchedKey V) * FailedOpLogger K) :=
  let '(results, touched, log) := acc in
  stored ← stored_value db snapshot key_cols touched g.1;
  '(value, log') ← result_foldl group_op (stored, log) g.2;
  if decide (stored = value) then Ok (results, touched, log')
  else
    let '(results', touched') :=
      match stored with
      | Some row => (results ++ [Negative row], (g.1, Deleted) :: touched)
      | None => (results, touched)
      end in
    match value with
    | Some row =>
        match row_cols key_cols row with
        | Ok key' => Ok (results' ++ [Positive row], (key', Inserted row) :: touched', log')
        | _ => Err InvalidRecordLength
        end
    | None => Ok (results', touched', log')
    end.

(** The records of a truncation, and the check of the log at the end. *)
Definition truncate_records (db : BaseDb V) (truncated : bool) : result (list (Record V)) :=
  if truncated then (λ rows : list (list V), Negative <$> rows) <$> db_cloned_records db else Ok [].
Definition check_failed b log : result unit :=
  if permissive_writes b then ensure_no_failed_ops log else Ok tt.

Definition process_ops b (columns : list Ty) (ops : list (TableOperation V)) (db : option (BaseDb V))
    (snapshot : bool) : result (BaseWrite V) :=
  ops ← result_mapM (apply_table_op_coercions columns) ops;
  match primary_key b, ops with
  | None, _ | _, [] => process_unkeyed b ops
  | Some key_cols, _ =>
      keyed ← result_mapM (λ op, k ← key_of key_cols op; Ok (k, op)) ops;
      '(w, rest) ← take_offsets empty_write (sort_by op_cmp keyed);
      match db with
      | None => Err Internal
      | Some db =>
          let truncated := (take_truncates rest).1 in
          let rest := (take_truncates rest).2 in
          negatives ← truncate_records db truncated;
          '(results, _, log) ← result_foldl (process_group db snapshot key_cols)
                                 (negatives, [], log_new) (group_adjacent rest);
          _ ← check_failed b log;
          Ok {| bw_records := (λ rc, with_row rc (fix_row b (rec rc))) <$> results;
                bw_replication_offset := bw_replication_offset w;
                bw_set_snapshot_mode := bw_set_snapshot_mode w |}
      end
  end.
End base.
