(* ===== verification/BaseProps.v ===== *)
(** * BaseProps: correctness of base nodes

    The specification of a batch is its operations applied to the table one at a
    time, in the order they were sent.  [process_ops] sorts and groups them; the
    records it returns take the rows of the table to the same rows. *)
From stdpp Require Import gmap.
From S2P Require Import Prelude Result Records Keys Processing Batches OpGrouped.
From S2P Require Import Replication KeyedState SingleState Base.

(** ** Tables *)
Section table.
Context `{DfNum V}.
Implicit Types (r row : list V) (R : list (list V)) (op : TableOperation V) (kc : list nat).

(** The row with a key, and the table with another row (or none) for a key. *)
Definition table_get kc R (k : list V) : option (list V) := head (filter (λ r, cols_at kc r = k) R).
Definition table_set kc R (k : list V) (v : option (list V)) : list (list V) :=
  filter (λ r, cols_at kc r ≠ k) R ++ option_list v.

(** The key an operation is about. *)
Definition op_key kc op : option (list V) :=
  match op with
  | TInsert row | TDeleteRow row | TInsertOrUpdate row _ => Some (cols_at kc row)
  | TDeleteByKey key | TUpdate _ key => Some key
  | TTruncate | TSetReplicationOffset _ | TSetSnapshotMode _ => None
  end.

(** What an operation does to the row of its key.  It fails where the base node counts
    it as failed: an insert where there is a row already, a delete of a row that is
    not the one there, an update of a row that is not there. *)
Definition value_after (v : option (list V)) op : result (option (list V)) :=
  match op with
  | TInsert row => match v with None => Ok (Some row) | Some _ => Err FailedBaseOps end
  | TDeleteByKey _ => Ok None
  | TDeleteRow row => if decide (v = Some row) then Ok None else Err FailedBaseOps
  | TInsertOrUpdate row update =>
      match v with None => Ok (Some row) | Some cur => Some <$> apply_update cur 0 update end
  | TUpdate update _ => match v with None => Err FailedBaseOps | Some cur => Some <$> apply_update cur 0 update end
  | TTruncate | TSetReplicationOffset _ | TSetSnapshotMode _ => Ok v
  end.

(** The table after one operation, and after several. *)
Definition table_op kc R op : result (list (list V)) :=
  match op_key kc op with
  | Some k => v ← value_after (table_get kc R k) op; Ok (table_set kc R k v)
  | None => Ok R
  end.
Definition table_after kc R ops : result (list (list V)) := result_foldl (table_op kc) R ops.

(** Tables of rows of [w] columns with distinct keys. *)
Definition row_ok (w : nat) row : Prop := length row = w.
Definition table_ok kc (w : nat) R : Prop :=
  Forall (row_ok w) R ∧ ∀ k, (length (filter (λ r, cols_at kc r = k) R) ≤ 1)%nat.

(** Operations of the right widths that do not change the key columns of a row. *)
Definition update_ok kc (update : list (Modification V)) : Prop :=
  ∀ c m, c ∈ kc → update !! c = Some m → m = ModNone.
Definition op_ok kc (w : nat) op : Prop :=
  match op with
  | TInsert row | TDeleteRow row => row_ok w row
  | TInsertOrUpdate row update => row_ok w row ∧ update_ok kc update
  | TDeleteByKey key => length key = length kc
  | TUpdate update key => length key = length kc ∧ update_ok kc update
  | TTruncate => False
  | TSetReplicationOffset _ | TSetSnapshotMode _ => True
  end.

(** *** Reading and writing tables *)
Lemma table_get_key kc R k r : table_get kc R k = Some r → cols_at kc r = k ∧ r ∈ R.
Proof. unfold table_get. intros Hr%head_Some_elem_of. by apply list_elem_of_filter in Hr. Qed.

Lemma filter_at_most_one kc w R k :
  table_ok kc w R → filter (λ r, cols_at kc r = k) R = option_list (table_get kc R k).
Proof.
  intros [_ Hu]. specialize (Hu k). unfold table_get.
  destruct (filter _ R) as [|r [|r' l]]; [done|done|simpl in Hu; lia].
Qed.

Lemma table_get_set kc R k k' v :
  (∀ r, v = Some r → cols_at kc r = k) →
  table_get kc (table_set kc R k v) k' = if decide (k' = k) then v else table_get kc R k'.
Proof.
  intros Hv. unfold table_get, table_set. rewrite filter_app, list_filter_filter. case_decide as Hk.
  - subst. rewrite (filter_none _ R) by (apply Forall_forall; tauto).
    destruct v as [r|]; [|done]. simpl. rewrite filter_cons_True by (by apply Hv). done.
  - rewrite (filter_ext_elem _ (λ r, cols_at kc r = k')) by (intros; split; [tauto|intros ->; auto]).
    replace (filter _ (option_list v)) with (@nil (list V)); [by rewrite app_nil_r|].
    destruct v as [r|]; [|done]. simpl. rewrite filter_cons_False; [done|]. by rewrite (Hv r).
Qed.

Lemma table_set_ok kc w R k v :
  table_ok kc w R → (∀ r, v = Some r → cols_at kc r = k ∧ row_ok w r) → table_ok kc w (table_set kc R k v).
Proof.
  intros [Hw Hu] Hv. split.
  - apply Forall_app. split; [by apply Forall_filter_keep|]. destruct v as [r|]; [|by constructor].
    apply Forall_singleton. by apply Hv.
  - intros k'. unfold table_set. rewrite filter_app, list_filter_filter, length_app.
    destruct (decide (k' = k)) as [->|Hk].
    + rewrite (filter_none _ R) by (apply Forall_forall; tauto).
      destruct v as [r|]; simpl; [|lia]. rewrite filter_cons. case_decide; simpl; lia.
    + rewrite (filter_ext_elem _ (λ r, cols_at kc r = k')) by (intros; split; [tauto|intros ->; auto]).
      replace (filter _ (option_list v)) with (@nil (list V)); [specialize (Hu k'); simpl; lia|].
      destruct v as [r|]; [|done]. simpl. rewrite filter_cons_False; [done|].
      destruct (Hv r eq_refl) as [-> _]. done.
Qed.

(** The number of times a row is in a table. *)
Lemma table_occ kc w R r :
  table_ok kc w R → occ r R = if decide (table_get kc R (cols_at kc r) = Some r) then 1%Z else 0%Z.
Proof.
  intros Hok. pose proof (occ_filter (λ r', cols_at kc r' = cols_at kc r) r R) as Ho.
  rewrite decide_True in Ho by done. rewrite <-Ho, (filter_at_most_one _ _ _ _ Hok).
  destruct (table_get kc R (cols_at kc r)) as [r'|]; simpl; repeat case_decide; simplify_eq; try done; lia.
Qed.

(** *** Updates *)
Lemma apply_modification_other r col m r' :
  apply_modification r col m = Ok r' →
  length r' = length r ∧ ∀ c, c ≠ col ∨ m = ModNone → r' !! c = r !! c.
Proof.
  destruct m as [v|op v|]; cbn [apply_modification].
  - destruct (r !! col); cbn [expect mbind result_bind]; [|done]. intros [= <-]. rewrite length_insert. split; [done|].
    intros c [Hc|]; [|done]. by rewrite list_lookup_insert_ne.
  - destruct (r !! col) as [v0|]; cbn [expect mbind result_bind]; [|done].
    destruct (i128_of v0); cbn [mbind result_bind]; [|done..].
    destruct (i128_of v); cbn [mbind result_bind]; [|done..].
    destruct (value_of_i128 _); cbn [mbind result_bind]; [|done..].
    intros [= <-]. rewrite length_insert. split; [done|].
    intros c [Hc|]; [|done]. by rewrite list_lookup_insert_ne.
  - by intros [= <-].
Qed.

Lemma apply_update_other update r col r' :
  apply_update r col update = Ok r' →
  length r' = length r ∧
  ∀ c, (∀ m, (col ≤ c)%nat → update !! (c - col) = Some m → m = ModNone) → r' !! c = r !! c.
Proof.
  revert r col; induction update as [|m update IH]; intros r col; simpl; [by intros [= <-]|].
  destruct (apply_modification r col m) as [r1| |] eqn:E; simpl; [|done..].
  apply apply_modification_other in E as [El Ec]. intros [Hl Hc]%IH. split; [congruence|].
  intros c Hm. rewrite Hc.
  - apply Ec. destruct (decide (c = col)) as [->|]; [right|by left].
    apply Hm; [done|]. by rewrite Nat.sub_diag.
  - intros m' Hle Hm'. apply Hm; [lia|]. by replace (c - col) with (S (c - S col)) by lia.
Qed.

Lemma apply_update_keeps kc w update r r' :
  update_ok kc update → row_ok w r → apply_update r 0 update = Ok r' →
  cols_at kc r' = cols_at kc r ∧ row_ok w r'.
Proof.
  intros Hu Hr [Hl Hc]%apply_update_other. split; [|unfold row_ok; congruence].
  apply cols_at_ext. intros c Hin. apply Hc. intros m _. rewrite Nat.sub_0_r. by apply Hu.
Qed.

(** An operation leaves a row of its key, or none. *)
Lemma value_after_ok kc w op k v v' :
  op_ok kc w op → op_key kc op = Some k →
  (∀ r, v = Some r → cols_at kc r = k ∧ row_ok w r) → value_after v op = Ok v' →
  ∀ r, v' = Some r → cols_at kc r = k ∧ row_ok w r.
Proof.
  intros Hop Hk Hv. destruct op as [row|key|row|row update|update key| | |]; simpl in *; simplify_eq.
  - destruct v as [r0|]; [done|]. intros [= <-] r [= <-]. auto.
  - by intros [= <-].
  - case_decide; [|done]. by intros [= <-].
  - destruct v as [cur|]; [|intros [= <-] r [= <-]; tauto].
    destruct (apply_update cur 0 update) as [cur'| |] eqn:E; simpl; [|done..]. intros [= <-] r [= <-].
    destruct (Hv cur eq_refl) as [<- Hw]. by eapply apply_update_keeps; [apply Hop| |].
  - destruct v as [cur|]; [|done].
    destruct (apply_update cur 0 update) as [cur'| |] eqn:E; simpl; [|done..]. intros [= <-] r [= <-].
    destruct (Hv cur eq_refl) as [<- Hw]. by eapply apply_update_keeps; [apply Hop| |].
Qed.

Lemma table_get_ok kc w R k : table_ok kc w R → ∀ r, table_get kc R k = Some r → cols_at kc r = k ∧ row_ok w r.
Proof.
  intros [Hw _] r [Hk Hin]%table_get_key. split; [done|]. rewrite Forall_forall in Hw. by apply Hw.
Qed.

(** The operations on one key decide its row; the table stays well formed. *)
Lemma table_after_key kc w R ops R' :
  table_ok kc w R → Forall (op_ok kc w) ops → table_after kc R ops = Ok R' →
  table_ok kc w R' ∧
  ∀ k, result_foldl value_after (table_get kc R k) (filter (λ op, op_key kc op = Some k) ops)
       = Ok (table_get kc R' k).
Proof.
  unfold table_after. intros HR Hops. revert R HR. induction Hops as [|op ops Hop Hops IH]; intros R HR; simpl.
  { by intros [= <-]. }
  destruct (table_op kc R op) as [R1| |] eqn:E; simpl; [|done..]. unfold table_op in E.
  destruct (op_key kc op) as [k0|] eqn:Ek.
  - destruct (value_after (table_get kc R k0) op) as [v| |] eqn:Ev; simpl in E; [|done..]. injection E as <-.
    pose proof (value_after_ok kc w op k0 _ v Hop Ek (table_get_ok kc w R k0 HR) Ev) as Hv.
    intros [HR' Hk]%IH; [|by apply table_set_ok]. split; [done|]. intros k. rewrite <-Hk.
    rewrite table_get_set by (intros r ->; by apply Hv). rewrite filter_cons.
    destruct (decide (k = k0)) as [->|Hne].
    + rewrite decide_True by done. simpl. by rewrite Ev.
    + rewrite decide_False by congruence. done.
  - injection E as <-. intros [HR' Hk]%IH; [|done]. split; [done|]. intros k.
    rewrite filter_cons_False by congruence. apply Hk.
Qed.
End table.

(** ** Processing a batch *)
Section process.
Context `{DfNum V} {K : Type} `{Countable K} (kind_of : V → K).
Context {Ty : Type} (maybe_coerce_for_table_op : Ty → V → result V).
Implicit Types (b : Base V) (r row : list V) (R : list (list V)) (op : TableOperation V) (kc : list nat).
Implicit Types (log : FailedOpLogger K).

(** The state of the node answers lookups of keys with the rows of the table. *)
Definition db_holds (db : BaseDb V) kc R : Prop :=
  ∀ key, length key = length kc → ∃ pk rows,
    point_key_from key = Ok pk ∧ db_lookup db kc pk = Ok (LrSome rows) ∧
    rows ≡ₚ filter (λ r, cols_at kc r = key) R.

Lemma group_op_value v log op v' : value_after v op = Ok v' → group_op kind_of (v, log) op = Ok (v', log).
Proof.
  destruct op as [row|key|row|row update|update key| | |]; simpl.
  - destruct v; [done|]. by intros [= <-].
  - by intros [= <-].
  - case_decide; [|done]. by intros [= <-].
  - destruct v as [cur|]; [|by intros [= <-]]. destruct (apply_update cur 0 update); simpl; [|done..]. by intros [= <-].
  - destruct v as [cur|]; [|done]. destruct (apply_update cur 0 update); simpl; [|done..]. by intros [= <-].
  - by intros [= <-].
  - by intros [= <-].
  - by intros [= <-].
Qed.

Lemma group_fold_value ops v log v' :
  result_foldl value_after v ops = Ok v' → result_foldl (group_op kind_of) (v, log) ops = Ok (v', log).
Proof.
  revert v; induction ops as [|op ops IH]; intros v; cbn [result_foldl]; [by intros [= <-]|].
  destruct (value_after v op) as [v1| |] eqn:E; cbn [mbind result_bind]; [|done..].
  rewrite (group_op_value _ log _ _ E). cbn [mbind result_bind]. apply IH.
Qed.

(** The records that replace the row of a key. *)
Definition changes (old new : option (list V)) : list (Record V) :=
  if decide (old = new) then [] else (Negative <$> option_list old) ++ (Positive <$> option_list new).

Lemma touched_get_cons touched (k k' : list V) (x : TouchedKey V) :
  touched_get ((k, x) :: touched) k' = if decide (k = k') then Some x else touched_get touched k'.
Proof.
  unfold touched_get. cbn [list_find fst]. case_decide as Hk; [done|].
  by destruct (list_find _ touched) as [[i e]|].
Qed.

Lemma stored_value_ok db kc w R touched k :
  table_ok kc w R → db_holds db kc R → length k = length kc → touched_get touched k = None →
  stored_value db false kc touched k = Ok (table_get kc R k).
Proof.
  intros HR Hdb Hk Ht. unfold stored_value. rewrite Ht.
  destruct (Hdb k Hk) as (pk & rows & -> & Hl & Hp). cbn [mbind result_bind]. rewrite Hl. cbn [mbind result_bind].
  rewrite (filter_at_most_one _ _ _ _ HR) in Hp. destruct (table_get kc R k) as [r|]; simpl in Hp.
  - by apply Permutation_singleton_r in Hp as ->.
  - by apply Permutation_nil_r in Hp as ->.
Qed.

Lemma process_group_ok db kc w R R' res touched log k ops :
  table_ok kc w R → table_ok kc w R' → Forall (λ c, c < w)%nat kc → db_holds db kc R → length k = length kc →
  touched_get touched k = None →
  result_foldl value_after (table_get kc R k) ops = Ok (table_get kc R' k) →
  ∃ touched', process_group kind_of db false kc (res, touched, log) (k, ops)
      = Ok (res ++ changes (table_get kc R k) (table_get kc R' k), touched', log) ∧
    ∀ k', k' ≠ k → touched_get touched' k' = touched_get touched k'.
Proof.
  intros HR HR' Hkc Hdb Hk Ht Hf. unfold process_group, changes. cbn [fst snd].
  rewrite (stored_value_ok _ _ w R) by done. cbn [mbind result_bind].
  rewrite (group_fold_value _ _ log _ Hf). cbn [mbind result_bind].
  destruct (decide (table_get kc R k = table_get kc R' k)) as [Heq|Hne].
  { exists touched. by rewrite app_nil_r. }
  destruct (table_get kc R' k) as [row'|] eqn:E'.
  - destruct (table_get_ok _ _ _ _ HR' _ E') as [Hkey Hw].
    rewrite (row_cols_at kc row') by (unfold row_ok in Hw; by rewrite Hw). rewrite Hkey.
    destruct (table_get kc R k) as [row|].
    + eexists. split; [by rewrite <-app_assoc|].
      intros k' Hk'. by rewrite !touched_get_cons, !decide_False by done.
    + eexists. split; [done|].
      intros k' Hk'. by rewrite !touched_get_cons, !decide_False by done.
  - destruct (table_get kc R k) as [row|]; [|done]. csimpl. eexists. split; [reflexivity|].
    intros k' Hk'. by rewrite !touched_get_cons, !decide_False by done.
Qed.

Lemma process_groups_ok db kc w R R' gs res touched log :
  table_ok kc w R → table_ok kc w R' → Forall (λ c, c < w)%nat kc → db_holds db kc R → NoDup gs.*1 →
  (∀ k ops, (k, ops) ∈ gs → length k = length kc ∧ touched_get touched k = None ∧
    result_foldl value_after (table_get kc R k) ops = Ok (table_get kc R' k)) →
  ∃ touched', result_foldl (process_group kind_of db false kc) (res, touched, log) gs
    = Ok (res ++ (gs.*1 ≫= λ k, changes (table_get kc R k) (table_get kc R' k)), touched', log).
Proof.
  intros HR HR' Hkc Hdb. revert res touched. induction gs as [|[k ops] gs IH]; intros res touched Hnd Hgs.
  { exists touched. simpl. by rewrite app_nil_r. }
  csimpl in Hnd. apply NoDup_cons in Hnd as [Hk Hnd].
  destruct (Hgs k ops (elem_of_here _ _)) as (Hlen & Ht & Hf).
  destruct (process_group_ok db kc w R R' res touched log k ops) as (touched' & Hg & Ht'); try done.
  cbn [result_foldl]. rewrite Hg. cbn [mbind result_bind].
  destruct (IH (res ++ changes (table_get kc R k) (table_get kc R' k)) touched' Hnd) as (t2 & ->).
  - intros k' ops' Hin. destruct (Hgs k' ops' (elem_of_further _ _ _ Hin)) as (Hl' & Htk & Hf').
    split_and!; [done| |done]. rewrite Ht'; [done|]. intros ->. apply Hk. apply list_elem_of_fmap. by exists (k, ops').
  - exists t2. rewrite fmap_cons, bind_cons, app_assoc. done.
Qed.

(** *** The records of all keys *)
Lemma changes_ok kc w R k v :
  table_ok kc w R → (∀ r, v = Some r → cols_at kc r = k ∧ row_ok w r) →
  batch_ok R (changes (table_get kc R k) v) (table_set kc R k v).
Proof.
  intros HR Hv. pose proof (table_set_ok _ _ _ _ _ HR Hv) as HS.
  pose proof (table_get_ok _ _ _ k HR) as Hg.
  assert (∀ r, occ r (table_set kc R k v) = if decide (cols_at kc r = k)
            then if decide (v = Some r) then 1 else 0 else occ r R)%Z as Hocc.
  { intros r. rewrite (table_occ _ _ _ _ HS), (table_occ _ _ _ _ HR), table_get_set by (intros ? ->; by apply Hv).
    by repeat case_decide. }
  assert (∀ r, cols_at kc r = k → occ r R = if decide (table_get kc R k = Some r) then 1 else 0)%Z as HoccR.
  { intros r <-. apply (table_occ _ _ _ _ HR). }
  unfold changes. split.
  - intros r n. pose proof (occ_nonneg r R).
    assert (∀ old, table_get kc R k = Some old → r = old → occ r R = 1)%Z as Hold.
    { intros old Ho ->. destruct (Hg old Ho) as [Hk _]. rewrite (HoccR old Hk). by rewrite decide_True. }
    case_decide; [rewrite take_nil; simpl; lia|].
    destruct (table_get kc R k) as [old|]; destruct v as [new|]; destruct n as [|[|n]]; csimpl;
      rewrite ?take_nil; csimpl; unfold sgn; simpl; repeat case_decide; subst; try lia;
      rewrite ?(Hold _ eq_refl eq_refl); lia.
  - intros r. rewrite Hocc. destruct (decide (cols_at kc r = k)) as [Hk|Hk].
    + rewrite (HoccR r Hk). repeat case_decide; try congruence;
        destruct (table_get kc R k) as [old|]; destruct v as [new|]; csimpl; unfold sgn; simpl;
        repeat case_decide; simplify_eq; try done; lia.
    + case_decide; [simpl; lia|]. rewrite wt_not_in; [lia|]. intros rc Hin <-.
      apply elem_of_app in Hin as [Hin|Hin]; apply list_elem_of_fmap in Hin as (r' & Hr & Hin'); subst;
        simpl in Hk.
      * destruct (table_get kc R k) as [old|]; [|by apply elem_of_nil in Hin'].
        apply list_elem_of_singleton in Hin' as ->. by destruct (Hg old eq_refl).
      * destruct v as [new|]; [|by apply elem_of_nil in Hin'].
        apply list_elem_of_singleton in Hin' as ->. by destruct (Hv new eq_refl).
Qed.

Lemma all_changes_ok kc w R R' ks :
  table_ok kc w R → table_ok kc w R' → NoDup ks →
  (∀ k, k ∉ ks → table_get kc R k = table_get kc R' k) →
  batch_ok R (ks ≫= λ k, changes (table_get kc R k) (table_get kc R' k)) R'.
Proof.
  intros HR HR' Hnd. revert R HR. induction Hnd as [|k ks Hk Hnd IH]; intros R HR Hrest.
  - csimpl. split; [intros r n; rewrite take_nil; simpl; pose proof (occ_nonneg r R); lia|].
    intros r. simpl. rewrite (table_occ _ _ _ _ HR), (table_occ _ _ _ _ HR').
    rewrite Hrest by (apply not_elem_of_nil). lia.
  - rewrite bind_cons. pose proof (table_get_ok _ _ _ k HR') as Hv.
    assert (∀ k', table_get kc (table_set kc R k (table_get kc R' k)) k' =
      if decide (k' = k) then table_get kc R' k else table_get kc R k') as Hget.
    { intros k'. apply table_get_set. intros r Hr. by apply Hv. }
    eapply batch_ok_app; [by eapply changes_ok|].
    replace (ks ≫= λ k0, changes (table_get kc R k0) (table_get kc R' k0)) with
      (ks ≫= λ k0, changes (table_get kc (table_set kc R k (table_get kc R' k)) k0) (table_get kc R' k0)).
    + apply IH; [by apply table_set_ok|]. intros k' Hk'. rewrite Hget. case_decide; [by subst|].
      apply Hrest. by rewrite not_elem_of_cons.
    + clear IH Hrest Hnd. induction ks as [|k' ks IHk]; [done|]. rewrite !bind_cons, Hget.
      apply not_elem_of_cons in Hk as [Hk1 Hk2]. rewrite decide_False by congruence. by rewrite IHk.
Qed.

(** *** Keys and sorting *)
Definition sort_key kc op : list V := default [] (op_key kc op).
Definition is_meta op : bool :=
  match op with TSetReplicationOffset _ | TSetSnapshotMode _ => true | _ => false end.

Lemma key_of_row i kc row op :
  (∀ j c, key_val j c op = (v ← expect (row !! c); Ok (Some v))) →
  Forall (λ c, c < length row)%nat kc → key_of_from i kc op = Ok (cols_at kc row).
Proof.
  intros Hop Hkc. revert i. induction Hkc as [|c kc Hc Hkc IH]; intros i; [done|]. cbn [key_of_from].
  destruct (lookup_lt_is_Some_2 row c Hc) as [v Hv]. rewrite Hop, Hv. cbn [expect mbind result_bind].
  rewrite IH. unfold cols_at. csimpl. by rewrite Hv.
Qed.
Lemma key_of_key i kc (key : list V) op :
  (∀ j c, key_val j c op = (v ← expect (key !! j); Ok (Some v))) →
  (i + length kc = length key)%nat → key_of_from i kc op = Ok (drop i key).
Proof.
  intros Hop. revert i. induction kc as [|c kc IH]; intros i Hi; cbn [key_of_from]; simpl in Hi.
  - by rewrite drop_ge by lia.
  - destruct (lookup_lt_is_Some_2 key i) as [v Hv]; [lia|]. rewrite Hop, Hv. cbn [expect mbind result_bind].
    rewrite IH by lia. by rewrite (drop_S _ _ _ Hv).
Qed.
Lemma key_of_meta i kc op : (∀ j c, key_val j c op = Ok None) → key_of_from i kc op = Ok [].
Proof.
  intros Hop. revert i. induction kc as [|c kc IH]; intros i; [done|]. cbn [key_of_from].
  rewrite Hop. cbn [mbind result_bind]. by rewrite IH.
Qed.

Lemma key_of_ok kc w op : op_ok kc w op → Forall (λ c, c < w)%nat kc → key_of kc op = Ok (sort_key kc op).
Proof.
  unfold key_of, sort_key, row_ok. intros Hop Hkc.
  destruct op as [row|key|row|row update|update key| | |]; simpl in *; try done; try (by apply key_of_meta).
  - apply key_of_row; [done|by rewrite Hop].
  - apply (key_of_key 0 kc key); [done|]. simpl. congruence.
  - apply key_of_row; [done|by rewrite Hop].
  - apply key_of_row; [done|by rewrite (proj1 Hop)].
  - apply (key_of_key 0 kc key); [done|]. simpl. destruct Hop. congruence.
Qed.

Lemma sort_key_length kc w op :
  op_ok kc w op → Forall (λ c, c < w)%nat kc → is_meta op = false → length (sort_key kc op) = length kc.
Proof.
  unfold sort_key, row_ok. intros Hop Hkc.
  assert (∀ row, length row = w → length (cols_at kc row) = length kc) as Hlen.
  { clear Hop. intros row <-. unfold cols_at. induction Hkc as [|c kc Hc Hkc IH]; [done|]. csimpl.
    destruct (lookup_lt_is_Some_2 row c Hc) as [v ->]. simpl. by rewrite IH. }
  intros Hm. destruct op as [row|key|row|row update|update key| | |]; simpl in *; try done;
    first [by apply Hlen|by apply Hlen, Hop|apply Hop].
Qed.

(** Sorting moves the operations without a key to the front. *)
Lemma sorted_split_empty {A} (l : list (list V * A)) :
  sorted_keys l → l = filter (λ x, x.1 = []) l ++ filter (λ x, x.1 ≠ []) l.
Proof.
  induction 1 as [|[k x] l Hs IH Hall]; [done|]. destruct k as [|v k].
  - rewrite filter_cons_True, filter_cons_False by (simpl; tauto). simpl. by f_equal.
  - rewrite filter_cons_False, filter_cons_True by done.
    assert (Forall (λ y : list V * A, y.1 ≠ []) l) as Hne.
    { eapply Forall_impl; [exact Hall|]. intros [[|v' k'] y]; done. }
    by rewrite (filter_none _ l), filter_all by exact Hne.
Qed.

Lemma take_offsets_app b w l1 l2 w' :
  Forall (λ x, is_meta x.2 = true) l1 → Forall (λ x, is_meta x.2 = false) l2 →
  result_foldl (unkeyed_op b) w l1.*2 = Ok w' → take_offsets w (l1 ++ l2) = Ok (w', l2).
Proof.
  intros Hl1 Hl2. revert w. induction Hl1 as [|[k op] l1 Hop Hl1 IH]; intros w; csimpl.
  - intros [= <-]. destruct Hl2 as [|[k op] l2 Hop Hl2]; [done|]. by destruct op.
  - destruct op; try done; cbn [unkeyed_op take_offsets].
    + destruct (try_max_into _ _); cbn [mbind result_bind]; [|done..]. apply IH.
    + cbn [mbind result_bind]. apply IH.
Qed.

Lemma take_truncates_none (l : list (list V * TableOperation V)) : Forall (λ x, is_truncate x.2 = false) l → take_truncates l = (false, l).
Proof. destruct 1 as [|[k op] l Hop Hl]; [done|]. by destruct op. Qed.

Lemma fix_row_id b w row : unmodified b = true ∨ length (defaults b) = w → row_ok w row → fix_row b row = row.
Proof.
  unfold fix_row, row_ok. intros Hb Hr. destruct (unmodified b); [done|]. destruct Hb as [|<-]; [done|].
  by rewrite Hr, Nat.eqb_refl.
Qed.

Lemma changes_rows kc w R R' k rc :
  table_ok kc w R → table_ok kc w R' → rc ∈ changes (table_get kc R k) (table_get kc R' k) → row_ok w (rec rc).
Proof.
  intros HR HR'. unfold changes. case_decide; [by intros ?%elem_of_nil|].
  intros [Hin|Hin]%elem_of_app; apply list_elem_of_fmap in Hin as (r & -> & Hin); simpl.
  - destruct (table_get kc R k) as [r'|] eqn:E; [|by apply elem_of_nil in Hin].
    apply list_elem_of_singleton in Hin as ->. by apply (table_get_ok _ _ _ k HR).
  - destruct (table_get kc R' k) as [r'|] eqn:E; [|by apply elem_of_nil in Hin].
    apply list_elem_of_singleton in Hin as ->. by apply (table_get_ok _ _ _ k HR').
Qed.

(** The operations without a key are the offsets and modes. *)
Lemma op_key_meta kc w op :
  op_ok kc w op → Forall (λ c, c < w)%nat kc → kc ≠ [] →
  (sort_key kc op = [] ↔ is_meta op = true) ∧ is_truncate op = false ∧
  (∀ k, op_key kc op = Some k ↔ sort_key kc op = k ∧ is_meta op = false).
Proof.
  intros Hop Hkc Hne.
  assert (is_meta op = false → sort_key kc op ≠ []) as Hk.
  { intros Em Hs. pose proof (sort_key_length _ _ _ Hop Hkc Em) as Hl. rewrite Hs in Hl. by destruct kc. }
  unfold sort_key in *. destruct op; simpl in *; try done; split_and!; try done; naive_solver.
Qed.

Lemma sort_ops_keys kc w (ops : list (TableOperation V)) :
  Forall (op_ok kc w) ops →
  sort_by op_cmp ((λ op, (sort_key kc op, op)) <$> ops)
  = sort_by (λ x y, cmp x.1 y.1) ((λ op, (sort_key kc op, op)) <$> ops).
Proof.
  intros Hops. apply (sort_by_ext (λ x, is_truncate x.2 = false)).
  - intros [k x] [k' y] Hx Hy. unfold op_cmp. simpl in *. rewrite Hx, Hy. by destruct (cmp k k').
  - apply Forall_fmap. eapply Forall_impl; [exact Hops|]. by intros [].
Qed.

(** The sorted batch: offsets and modes, then the groups of the keys. *)
Section sorted.
Context (kc : list nat) (w : nat) (ops : list (TableOperation V)).
Context (Hops : Forall (op_ok kc w) ops) (Hkc : Forall (λ c, c < w)%nat kc) (Hne : kc ≠ []).

Definition keyed_ops : list (list V * TableOperation V) := (λ op, (sort_key kc op, op)) <$> ops.
Definition meta_part : list (list V * TableOperation V) :=
  filter (λ x, x.1 = []) (sort_by op_cmp keyed_ops).
Definition keyed_part : list (list V * TableOperation V) :=
  filter (λ x, x.1 ≠ []) (sort_by op_cmp keyed_ops).

Lemma sorted_elem x : x ∈ sort_by op_cmp keyed_ops →
  x.1 = sort_key kc x.2 ∧ x.2 ∈ ops ∧ op_ok kc w x.2.
Proof using Hops.
  rewrite sort_by_perm. intros (op & -> & Hin)%list_elem_of_fmap. split_and!; [done|done|].
  rewrite Forall_forall in Hops. by apply Hops.
Qed.

Lemma sorted_parts : sort_by op_cmp keyed_ops = meta_part ++ keyed_part.
Proof using Hops.
  apply sorted_split_empty. unfold keyed_ops. rewrite (sort_ops_keys kc w) by done. apply sort_keys_sorted.
Qed.

Lemma meta_part_ops : meta_part.*2 = filter (λ op, is_meta op = true) ops.
Proof using Hops Hkc Hne.
  unfold meta_part, keyed_ops. rewrite (sort_ops_keys kc w) by done.
  apply (sort_keys_filter (sort_key kc) ops (λ k, k = []) (λ op, is_meta op = true)); [congruence|].
  intros op Hin. rewrite Forall_forall in Hops. by apply (op_key_meta kc w op); [apply Hops| |].
Qed.

Lemma meta_part_meta : Forall (λ x, is_meta x.2 = true) meta_part.
Proof using Hops Hkc Hne.
  apply Forall_forall. intros x [Hx Hin]%list_elem_of_filter. destruct (sorted_elem x Hin) as (Hk & _ & Hop).
  apply (op_key_meta kc w x.2 Hop Hkc Hne). congruence.
Qed.

Lemma keyed_part_keyed x :
  x ∈ keyed_part → x.1 = sort_key kc x.2 ∧ x.2 ∈ ops ∧ op_ok kc w x.2 ∧
    is_meta x.2 = false ∧ is_truncate x.2 = false.
Proof using Hops Hkc Hne.
  intros [Hx Hin]%list_elem_of_filter. destruct (sorted_elem x Hin) as (Hk & Ho & Hop).
  destruct (op_key_meta kc w x.2 Hop Hkc Hne) as (Hm & Ht & _). split_and!; try done.
  apply not_true_is_false. intros Em. apply Hx. rewrite Hk. by apply Hm.
Qed.

Lemma keyed_part_groups :
  NoDup (group_adjacent keyed_part).*1 ∧
  ∀ k g, (k, g) ∈ group_adjacent keyed_part →
    length k = length kc ∧ g = filter (λ op, op_key kc op = Some k) ops.
Proof using Hops Hkc Hne.
  assert (sorted_keys keyed_part) as Hs.
  { apply sorted_keys_filter. unfold keyed_ops. rewrite (sort_ops_keys kc w) by done. apply sort_keys_sorted. }
  destruct (group_adjacent_sorted _ Hs) as [Hks Hgs]. split; [by apply sorted_lt_NoDup|].
  intros k g Hin. rewrite (Hgs k g Hin).
  destruct g as [|op g]; [by apply group_adjacent_nonempty in Hin|].
  pose proof (group_adjacent_keys _ _ _ op Hin (elem_of_here _ _)) as Hx.
  destruct (keyed_part_keyed _ Hx) as (Hk & Ho & Hop & Hm & _). simpl in *.
  apply list_elem_of_filter in Hx as [Hk0 _]. simpl in Hk0. split.
  - rewrite Hk. by apply (sort_key_length kc w).
  - unfold keyed_part, keyed_ops. rewrite list_filter_filter, (sort_ops_keys kc w) by done.
    rewrite (filter_ext_elem _ (λ x, x.1 = k)) by (intros y _; split; [tauto|intros ->; tauto]).
    rewrite <-(sort_keys_filter (sort_key kc) ops (λ k', k' = k) (λ op, op_key kc op = Some k));
      [f_equal|congruence|].
    intros op' Hin'. rewrite Forall_forall in Hops.
    destruct (op_key_meta kc w op' (Hops _ Hin') Hkc Hne) as (Hm' & _ & Hk'). rewrite Hk'. split; [|tauto].
    intros He. split; [done|]. apply not_true_is_false. intros Em%Hm'. congruence.
Qed.

Lemma keyed_part_covers op k : op ∈ ops → op_key kc op = Some k → k ∈ (group_adjacent keyed_part).*1.
Proof using Hops Hkc Hne.
  intros Hin Hk. pose proof (proj1 (Forall_forall _ _) Hops _ Hin) as Hop.
  destruct (op_key_meta kc w op Hop Hkc Hne) as (Hm & _ & Hk'). apply Hk' in Hk as [Hk Em].
  assert (op ∈ concat (group_adjacent keyed_part).*2) as Hc.
  { rewrite group_adjacent_concat. apply list_elem_of_fmap. exists (k, op). split; [done|].
    apply list_elem_of_filter. split; [simpl; intros He; rewrite Em in Hm; naive_solver|].
    rewrite sort_by_perm. apply list_elem_of_fmap. exists op. by rewrite Hk. }
  apply list_elem_of_In, in_concat in Hc as (g & Hg2 & Hg1). apply list_elem_of_In in Hg1, Hg2.
  apply list_elem_of_fmap in Hg2 as ([k' g'] & -> & Hin'). apply list_elem_of_fmap. exists (k', g'). split; [|done].
  pose proof (group_adjacent_keys _ _ _ op Hin' Hg1) as Hx.
  apply list_elem_of_filter in Hx as [_ Hx].
  destruct (sorted_elem _ Hx) as (Hk2 & _). simpl in *. congruence.
Qed.
End sorted.
End process.
