(* ===== verification/BaseTheorems.v ===== *)
(** * BaseTheorems: what base nodes promise, alone and with their state

    A batch of table operations has the effect of the operations one at a time;
    written to the in-memory state of the node, its records take the state from
    the old rows of the table to the new ones.  The last theorems are on
    truncations and on operations that fail. *)
From stdpp Require Import gmap.
From S2P Require Import Prelude Result Records Keys Processing Batches OpGrouped.
From S2P Require Import Replication Crates KeyedState KeyedStateProps SingleState SingleStateProps.
From S2P Require Import MemoryState MemoryStateProps MemoryLookup Base BaseProps.

Section theorems.
Context `{DfNum V} {K : Type} `{Countable K} (kind_of : V → K).
Context {Ty : Type} (maybe_coerce_for_table_op : Ty → V → result V).
Implicit Types (b : Base V) (R : list (list V)) (kc : list nat).

(** A base node with a primary key, its table and the state it reads. *)
Record base_ready b kc (w : nat) R (db : BaseDb V) : Prop := {
  br_key : primary_key b = Some kc;
  br_width : unmodified b = true ∨ length (defaults b) = w;
  br_nonempty : kc ≠ [];
  br_cols : Forall (λ c, c < w)%nat kc;
  br_table : table_ok kc w R;
  br_db : db_holds db kc R;
}.

Lemma process_ops_ok b kc w R db columns ops ops' meta R' :
  base_ready b kc w R db →
  result_mapM (apply_table_op_coercions maybe_coerce_for_table_op columns) ops = Ok ops' →
  Forall (op_ok kc w) ops' → process_unkeyed b (filter (λ op, is_meta op = true) ops') = Ok meta →
  table_after kc R ops' = Ok R' →
  ∃ bw, process_ops kind_of maybe_coerce_for_table_op b columns ops (Some db) false = Ok bw ∧
    batch_ok R (bw_records bw) R' ∧ table_ok kc w R' ∧ Forall (λ rc, row_ok w (rec rc)) (bw_records bw) ∧
    bw_replication_offset bw = bw_replication_offset meta ∧ bw_set_snapshot_mode bw = bw_set_snapshot_mode meta.
Proof.
  intros [Hpk Hw Hne Hkc HR Hdb] Hco Hops Hmeta Ht.
  destruct (table_after_key kc w R ops' R' HR Hops Ht) as [HR' Hk].
  unfold process_ops. rewrite Hco. cbn [mbind result_bind]. rewrite Hpk.
  destruct ops' as [|op0 ops0] eqn:Eo.
  { injection Ht as <-. injection Hmeta as <-. exists empty_write. split_and!; try done.
    apply (all_changes_ok kc w R R []); [done|done|constructor|done]. }
  rewrite <-Eo in *. clear Eo op0 ops0.
  rewrite (result_mapM_ok _ (λ op, (sort_key kc op, op))).
  2:{ eapply Forall_impl; [exact Hops|]. intros op Hop. by rewrite (key_of_ok kc w). }
  cbn [mbind result_bind]. change ((λ op, (sort_key kc op, op)) <$> ops') with (keyed_ops kc ops').
  rewrite (sorted_parts kc w) by done.
  assert (∀ x, x ∈ keyed_part kc ops' → is_meta x.2 = false ∧ is_truncate x.2 = false) as Hkp
    by (intros x Hx; by apply (keyed_part_keyed kc w ops')).
  rewrite (take_offsets_app b _ _ _ meta); cbn [mbind result_bind].
  2:{ by apply (meta_part_meta kc w). }
  2:{ apply Forall_forall. intros x Hx. by apply Hkp. }
  2:{ by rewrite (meta_part_ops kc w). }
  rewrite take_truncates_none by (apply Forall_forall; intros x Hx; by apply Hkp).
  cbn [fst snd truncate_records mbind result_bind].
  destruct (keyed_part_groups kc w ops' Hops Hkc Hne) as [Hnd Hgs].
  destruct (process_groups_ok kind_of db kc w R R' (group_adjacent (keyed_part kc ops')) [] [] log_new)
    as (touched & ->); try done.
  { intros k g Hin. destruct (Hgs k g Hin) as [Hl ->]. split_and!; [done|done|apply Hk]. }
  cbn [mbind result_bind].
  assert (check_failed b (K:=K) log_new = Ok tt) as -> by (unfold check_failed; by destruct (permissive_writes b)).
  cbn [mbind result_bind app].
  eexists. split; [reflexivity|]. cbn [bw_records bw_replication_offset bw_set_snapshot_mode].
  set (recs := (group_adjacent (keyed_part kc ops')).*1 ≫= _).
  assert (Forall (λ rc, row_ok w (rec rc)) recs) as Hrecs.
  { apply Forall_forall. intros rc (k & Hrc & _)%list_elem_of_bind. exact (changes_rows kc w R R' k rc HR HR' Hrc). }
  assert ((λ rc, with_row rc (fix_row b (rec rc))) <$> recs = recs) as ->.
  { clearbody recs. induction Hrecs as [|rc recs Hrc Hrecs IH]; [done|]. rewrite fmap_cons, IH.
    rewrite (fix_row_id _ w) by done. by destruct rc. }
  split_and!; try done. apply (all_changes_ok kc w); [done|done|done|].
  intros k Hnin. specialize (Hk k). rewrite filter_none in Hk; [by injection Hk|].
  apply Forall_forall. intros op Hop Hok. apply Hnin. by apply (keyed_part_covers kc w ops' Hops Hkc Hne op).
Qed.

(** C30: A batch of inserts, deletes and updates that do not change keys, on a table
    with a primary key that is not in snapshot mode, none of which fails, yields
    records that take its rows to the rows the operations lead to when they are
    applied one at a time in the order they were sent, never retracting a row that
    is not there; the keys stay unique, and the offset is the largest of those in
    the batch.  The batch may not truncate the table
    ([base_truncate_retracts_twice]); that no operation fails is part of
    [table_after]. *)
Theorem base_batch_maintains b kc w R db columns ops ops' meta R' :
  base_ready b kc w R db →
  result_mapM (apply_table_op_coercions maybe_coerce_for_table_op columns) ops = Ok ops' →
  Forall (op_ok kc w) ops' → process_unkeyed b (filter (λ op, is_meta op = true) ops') = Ok meta →
  table_after kc R ops' = Ok R' →
  ∃ bw, process_ops kind_of maybe_coerce_for_table_op b columns ops (Some db) false = Ok bw ∧
    batch_ok R (bw_records bw) R' ∧ table_ok kc w R' ∧
    bw_replication_offset bw = bw_replication_offset meta ∧ bw_set_snapshot_mode bw = bw_set_snapshot_mode meta.
Proof.
  intros Hb Hco Hops Hm Ht.
  destruct (process_ops_ok b kc w R db columns ops ops' meta R' Hb Hco Hops Hm Ht) as (bw & H1 & H2 & H3 & _ & H5 & H6).
  exists bw. by split_and!.
Qed.

(** ** With the in-memory state of the node *)
Context `{!HashBag (list V) Rows} `{!IndexMap (list V) Rows IM}.
Implicit Types (ms : MemoryState V Rows IM ReplicationOffset).

Definition memory_db ms : BaseDb V := {| db_lookup := ms_lookup ms; db_cloned_records := ms_cloned_records ms |}.

(** The columns of all the indexes are columns of the table, without repetition. *)
Definition indexes_fit ms (w : nat) : Prop :=
  Forall (λ s, Forall (λ c, c < w)%nat (ss_columns s) ∧ NoDup (ss_columns s)) (ms_state ms) ∧
  Forall (λ x, Forall (λ c, c < w)%nat x.1) (ms_weak_indices ms).

Lemma indexes_row_fits ms w r : indexes_fit ms w → row_ok w r → row_fits ms r.
Proof.
  intros [Hs Hw] Hr. unfold row_ok in Hr. split; unfold cols_fit; rewrite Hr; [|done].
  eapply Forall_impl; [exact Hs|]. by intros s [? _].
Qed.

Lemma memory_db_holds ms kc w R :
  ms_ok ms R → indexes_fit ms w → Forall (row_ok w) R → kc ≠ [] →
  (∃ s, s ∈ ms_state ms ∧ ss_columns s = kc ∧ ss_partial s = false) → db_holds (memory_db ms) kc R.
Proof.
  intros Hms Hfit HR Hne (s & Hs & Hc & Hp) key Hk.
  assert (∃ pk, point_key_from key = Ok pk ∧ pk_elems pk = key) as (pk & Hpk & He).
  { unfold point_key_from. destruct key; [by destruct kc|]. eexists. by split. }
  destruct (ms_lookup_ok ms kc pk R) as (res & Hl & Hres); try done.
  - eapply Forall_impl; [exact HR|]. intros r. by apply indexes_row_fits.
  - eapply Forall_impl; [apply Hfit|]. by intros s' [_ ?].
  - by exists s.
  - by rewrite He.
  - by rewrite He.
  - rewrite He in Hres. destruct res as [rows|].
    + exists pk, rows. by split_and!.
    + specialize (Hres s Hs Hc). unfold ss_filled in Hres. rewrite Hp in Hres. by rewrite orb_true_r in Hres.
Qed.

(** C6: A write to a base table: the records of a batch of operations, computed by
    looking at the in-memory state of the node and then written to it, leave the
    state, in all its indexes, with the rows the operations lead to one at a time.
    This for a table with a primary key, by which its state has a full index, that is
    not in snapshot mode, and for inserts, deletes and updates that do not change
    keys, none of which fails. *)
Theorem base_write_reaches_state b kc w R ms columns ops ops' meta R' :
  primary_key b = Some kc → unmodified b = true ∨ length (defaults b) = w →
  kc ≠ [] → Forall (λ c, c < w)%nat kc → table_ok kc w R → ms_ok ms R → indexes_fit ms w →
  (∃ s, s ∈ ms_state ms ∧ ss_columns s = kc ∧ ss_partial s = false) →
  result_mapM (apply_table_op_coercions maybe_coerce_for_table_op columns) ops = Ok ops' →
  Forall (op_ok kc w) ops' → process_unkeyed b (filter (λ op, is_meta op = true) ops') = Ok meta →
  table_after kc R ops' = Ok R' →
  ∃ bw recs ms',
    process_ops kind_of maybe_coerce_for_table_op b columns ops (Some (memory_db ms)) false = Ok bw ∧
    ms_process_records ms (bw_records bw) None (bw_replication_offset bw) = Ok (recs, ms') ∧
    ms_ok ms' R' ∧ table_ok kc w R' ∧ same_indexes ms ms'.
Proof.
  intros Hpk Hw Hne Hkc HR Hms Hfit Hix Hco Hops Hm Ht.
  assert (base_ready b kc w R (memory_db ms)) as Hb.
  { split; try done. eapply memory_db_holds; [done|done|apply HR|done|done]. }
  destruct (process_ops_ok b kc w R _ columns ops ops' meta R' Hb Hco Hops Hm Ht)
    as (bw & He & Hbatch & HR' & Hrows & _).
  destruct (process_records_ok ms (bw_records bw) (bw_replication_offset bw) R R' Hms) as (ms' & Hp & Hok & Hs); [|done|].
  - eapply Forall_impl; [exact Hrows|]. intros rc. by apply indexes_row_fits.
  - eexists bw, _, ms'. by split_and!.
Qed.
End theorems.

(** ** Evaluations *)
Definition sample_kind (v : SampleVal) : nat := match v with SNone => 0 | SInt _ => 1 | SMax => 2 end.
Definition sample_coerce (ty : unit) (v : SampleVal) : result SampleVal := Ok v.
Abbreviation row2 a b := [SInt a; SInt b].

Definition sample_base : Base SampleVal :=
  {| primary_key := Some [0]; unique_keys := []; defaults := []; dropped := []; unmodified := true;
     permissive_writes := false |}.
Definition permissive_base : Base SampleVal :=
  {| primary_key := Some [0]; unique_keys := []; defaults := []; dropped := []; unmodified := true;
     permissive_writes := true |}.
Definition rows_db (R : list (list SampleVal)) : BaseDb SampleVal :=
  {| db_lookup cols pk := Ok (LrSome (filter (λ r, cols_at cols r = pk_elems pk) R));
     db_cloned_records := Ok R |}.
Definition sample_table : list (list SampleVal) := [row2 1 10; row2 2 20].
Definition sample_ops : list (TableOperation SampleVal) :=
  [TDeleteByKey [SInt 2]; TUpdate [ModNone; ModApply OpAdd (SInt 5)] [SInt 1]; TInsert (row2 3 30); TInsert (row2 2 21)].
Definition sample_table' : list (list SampleVal) := [row2 1 15; row2 3 30; row2 2 21].

Lemma sample_table_ok : table_ok [0] 2 sample_table.
Proof.
  split; [by repeat constructor|]. intros k. unfold sample_table. rewrite !filter_cons. csimpl.
  repeat case_decide; simpl; try lia. congruence.
Qed.
Lemma sample_ops_ok : Forall (op_ok [0] 2) sample_ops.
Proof.
  repeat constructor. intros c m Hc%list_elem_of_singleton. subst. by intros [= <-].
Qed.
Lemma sample_after : table_after [0] sample_table sample_ops = Ok sample_table'.
Proof. vm_compute. reflexivity. Qed.
Lemma rows_db_holds kc R : kc ≠ [] → db_holds (rows_db R) kc R.
Proof.
  intros Hne key Hk. destruct key as [|v key]; [by destruct kc|]. eexists _, _. split_and!; reflexivity.
Qed.

Lemma base_batch_maintains_witness :
  ∃ bw, process_ops sample_kind sample_coerce sample_base [] sample_ops (Some (rows_db sample_table)) false = Ok bw ∧
    batch_ok sample_table (bw_records bw) sample_table'.
Proof.
  destruct (base_batch_maintains sample_kind sample_coerce sample_base [0] 2 sample_table (rows_db sample_table) [] sample_ops
    sample_ops empty_write sample_table') as (bw & He & Hb & _).
  - split; try done; [by left|by apply Forall_singleton; lia|exact sample_table_ok|by apply rows_db_holds].
  - reflexivity.
  - exact sample_ops_ok.
  - reflexivity.
  - exact sample_after.
  - exists bw. by split.
Defined.

(** A state with a full hash index on the key, with the rows of the table. *)
Abbreviation BaseMs :=
  (MemoryState SampleVal (list (list SampleVal)) (gmap (list SampleVal) (list (list SampleVal))) ReplicationOffset).
Definition key_index : Index := {| index_type := IxHashMap; columns := [0] |}.
Definition empty_ms : BaseMs :=
  {| ms_state := [{| ss_index := key_index; ss_state := ks_from key_index; ss_partial := false; ss_row_count := 0 |}];
     ms_weak_indices := []; ms_by_tag := ∅; ms_replication_offset := None |}.

Lemma empty_ms_ok : ms_ok empty_ms [].
Proof.
  split_and!; [|apply NoDup_singleton|constructor]. apply Forall_singleton.
  destruct (ks_from_ok (V:=SampleVal) (Rows:=list (list SampleVal))
    (IM:=gmap (list SampleVal) (list (list SampleVal))) key_index) as (Hks & Hb & Hg); [simpl; lia|].
  split; [by split_and!|]. intros k. cbn [ss_state]. by rewrite Hg.
Qed.

Lemma written_ms :
  ∃ ms : BaseMs, ms_ok ms sample_table ∧ indexes_fit ms 2 ∧
    ∃ s, s ∈ ms_state ms ∧ ss_columns s = [0] ∧ ss_partial s = false.
Proof.
  destruct (process_records_ok empty_ms (Positive <$> sample_table) None [] sample_table empty_ms_ok)
    as (ms & _ & Hok & Hs & Hw & _).
  - repeat constructor.
  - apply batch_ok_all.
  - exists ms. split; [done|]. unfold indexes_fit.
    destruct (ms_weak_indices ms); [|done]. destruct (ms_state ms) as [|s l]; inversion Hs as [|? ? ? ? Hi Hl]; subst.
    inversion Hl; subst. destruct Hi as (Hi & Hp & _).
    assert (ss_columns s = [0]) as Hc by (unfold ss_columns; by rewrite Hi).
    split; [split; [|constructor]|].
    + apply Forall_singleton. rewrite Hc. split; [apply Forall_singleton; lia|apply NoDup_singleton].
    + exists s. split; [by apply list_elem_of_singleton|]. by split.
Qed.

Lemma base_write_reaches_state_witness :
  ∃ (ms : BaseMs) bw recs ms',
    process_ops sample_kind sample_coerce permissive_base [] sample_ops (Some (memory_db ms)) false = Ok bw ∧
    ms_process_records ms (bw_records bw) None (bw_replication_offset bw) = Ok (recs, ms') ∧
    ms_ok ms sample_table ∧ ms_ok ms' sample_table'.
Proof.
  destruct written_ms as (ms & Hok & Hfit & Hix).
  destruct (base_write_reaches_state sample_kind sample_coerce permissive_base [0] 2 sample_table ms [] sample_ops sample_ops
    empty_write sample_table') as (bw & recs & ms' & H1 & H2 & H3 & _).
  - reflexivity.
  - by left.
  - done.
  - apply Forall_singleton. lia.
  - exact sample_table_ok.
  - exact Hok.
  - exact Hfit.
  - exact Hix.
  - reflexivity.
  - exact sample_ops_ok.
  - reflexivity.
  - exact sample_after.
  - exists ms, bw, recs, ms'. by split_and!.
Defined.

(** A truncation sent with another operation on a row of the table retracts the
    row twice: the rows of the table are retracted first, and the row is then
    looked up in the table as it was. *)
Theorem base_truncate_retracts_twice :
  bw_records <$> process_ops sample_kind sample_coerce sample_base [] [TTruncate; TDeleteByKey [SInt 1]]
                   (Some (rows_db [row2 1 10])) false
  = Ok [Negative (row2 1 10); Negative (row2 1 10)].
Proof. vm_compute. reflexivity. Qed.

(** An insert of a key that is there already fails without an error on a base
    node that does not allow permissive writes, and is an error on one that does. *)
Theorem base_failed_insert_unreported :
  bw_records <$> process_ops sample_kind sample_coerce sample_base [] [TInsert (row2 1 11)] (Some (rows_db [row2 1 10])) false = Ok [] ∧
  process_ops sample_kind sample_coerce permissive_base [] [TInsert (row2 1 11)] (Some (rows_db [row2 1 10])) false = Err FailedBaseOps.
Proof. split; vm_compute; reflexivity. Qed.
