(* ===== verification/Timestamp.v ===== *)
(** * Timestamp: read-your-writes timestamps

    Models [Timestamp] of [readyset-client/src/consistency.rs]: the last
    transaction seen of every base table.  Nodes join the timestamps one parent
    sends and pass on the minimum over their parents. *)
From S2P Require Import Prelude.
From stdpp Require Import gmap.

Record Timestamp := { ts_map : gmap nat N }.

(** [Timestamp::default]. *)
Definition ts_default : Timestamp := {| ts_map := ∅ |}.

(** The loop bodies of [min] and [join]; a map is iterated over as the list of
    its entries. *)
Definition min_entry (ret : gmap nat N) (e : nat * N) : gmap nat N :=
  match ret !! e.1 with
  | Some current => if (e.2 <? current)%N then <[e.1 := e.2]> ret else ret
  | None => <[e.1 := e.2]> ret
  end.
Definition ts_min (timestamps : list Timestamp) : Timestamp :=
  {| ts_map := foldl (λ ret t, foldl min_entry ret (map_to_list (ts_map t))) ∅ timestamps |}.

Definition join_value (v1 v2 : option N) : option N :=
  match v1, v2 with
  | None, None => None
  | None, Some v2 => Some v2
  | Some v1, None => Some v1
  | Some v1, Some v2 => Some (if (v2 <? v1)%N then v1 else v2)
  end.
Definition join_key (t1 t2 : Timestamp) (ret : gmap nat N) (key : nat) : gmap nat N :=
  match ret !! key with
  | Some _ => ret
  | None =>
      match join_value (ts_map t1 !! key) (ts_map t2 !! key) with
      | Some v => <[key := v]> ret
      | None => ret
      end
  end.
Definition ts_join (t1 t2 : Timestamp) : Timestamp :=
  {| ts_map := foldl (join_key t1 t2) ∅ ((map_to_list (ts_map t1)).*1 ++ (map_to_list (ts_map t2)).*1) |}.

Definition satisfies (t t2 : Timestamp) : bool :=
  forallb (λ e, match ts_map t !! e.1 with Some v => (e.2 <=? v)%N | None => false end) (map_to_list (ts_map t2)).

(** ** The lattice of timestamps *)
Lemma satisfies_spec t t2 :
  satisfies t t2 = true ↔ ∀ k v, ts_map t2 !! k = Some v → ∃ v', ts_map t !! k = Some v' ∧ (v ≤ v')%N.
Proof.
  unfold satisfies. rewrite forallb_forall. split.
  - intros Hall k v Hk. specialize (Hall (k, v)). simpl in Hall.
    destruct (ts_map t !! k) as [v'|] eqn:E.
    + exists v'. split; [done|]. apply N.leb_le, Hall, list_elem_of_In, elem_of_map_to_list, Hk.
    + assert (false = true) by (apply Hall, list_elem_of_In, elem_of_map_to_list, Hk). done.
  - intros Hall [k v] Hin%list_elem_of_In%elem_of_map_to_list. simpl. destruct (Hall k v Hin) as (v' & -> & Hle).
    by apply N.leb_le.
Qed.

Definition agrees (t1 t2 : Timestamp) (ret : gmap nat N) : Prop :=
  ∀ k v, ret !! k = Some v → join_value (ts_map t1 !! k) (ts_map t2 !! k) = Some v.

Lemma join_key_lookup t1 t2 ret k0 k : agrees t1 t2 ret →
  join_key t1 t2 ret k0 !! k =
  if decide (k = k0) then join_value (ts_map t1 !! k) (ts_map t2 !! k) else ret !! k.
Proof.
  intros Hret. unfold join_key. destruct (ret !! k0) as [v|] eqn:E0.
  - case_decide; [|done]. subst. by rewrite E0, (Hret _ _ E0).
  - destruct (join_value (ts_map t1 !! k0) (ts_map t2 !! k0)) eqn:Ej; case_decide; subst;
      rewrite ?lookup_insert_eq, ?lookup_insert_ne by done; congruence.
Qed.

Lemma join_fold t1 t2 keys ret k : agrees t1 t2 ret →
  foldl (join_key t1 t2) ret keys !! k =
  if decide (k ∈ keys) then join_value (ts_map t1 !! k) (ts_map t2 !! k) else ret !! k.
Proof.
  revert ret. induction keys as [|k0 keys IH]; intros ret Hret; cbn [foldl].
  { case_decide as Hk; [by apply elem_of_nil in Hk|done]. }
  rewrite IH.
  - rewrite join_key_lookup by done. destruct (decide (k = k0)), (decide (k ∈ keys)), (decide (k ∈ k0 :: keys)); set_solver.
  - intros k1 v1. rewrite join_key_lookup by done. destruct (decide (k1 = k0)); [tauto|apply Hret].
Qed.

Lemma ts_join_lookup t1 t2 k : ts_map (ts_join t1 t2) !! k = join_value (ts_map t1 !! k) (ts_map t2 !! k).
Proof.
  unfold ts_join. simpl. rewrite join_fold by (intros ??; by rewrite lookup_empty).
  case_decide as Hd; [done|]. destruct (ts_map t1 !! k) as [v|] eqn:E1.
  { exfalso. apply Hd. apply elem_of_app. left. apply list_elem_of_fmap. exists (k, v).
    split; [done|]. by apply elem_of_map_to_list. }
  destruct (ts_map t2 !! k) as [v|] eqn:E2; [|done].
  exfalso. apply Hd. apply elem_of_app. right. apply list_elem_of_fmap. exists (k, v).
  split; [done|]. by apply elem_of_map_to_list.
Qed.

Definition min_value_of (v1 v2 : option N) : option N :=
  match v1, v2 with Some v1, Some v2 => Some (N.min v1 v2) | None, v => v | v, None => v end.

Lemma min_entries l ret k : NoDup l.*1 →
  foldl min_entry ret l !! k = min_value_of (ret !! k) (list_to_map (M := gmap nat N) l !! k).
Proof.
  revert ret. induction l as [|[k0 v0] l IH]; intros ret Hnd; simpl.
  - rewrite lookup_empty. by destruct (ret !! k).
  - apply NoDup_cons in Hnd as [Hk0 Hnd]. rewrite (IH _ Hnd). unfold min_entry. simpl.
    destruct (decide (k = k0)) as [->|Hk].
    + rewrite lookup_insert_eq, (not_elem_of_list_to_map_1 l k0) by done.
      destruct (ret !! k0) as [c|] eqn:E; simpl.
      * destruct (N.ltb_spec v0 c); rewrite ?lookup_insert_eq, ?E; simpl; f_equal; lia.
      * by rewrite lookup_insert_eq.
    + rewrite lookup_insert_ne by done.
      destruct (ret !! k0) as [c|] eqn:E; [destruct (v0 <? c)%N|]; by rewrite ?lookup_insert_ne by done.
Qed.

Lemma ts_min_step timestamps t k :
  ts_map (ts_min (timestamps ++ [t])) !! k = min_value_of (ts_map (ts_min timestamps) !! k) (ts_map t !! k).
Proof.
  unfold ts_min. simpl. rewrite foldl_app. simpl.
  rewrite min_entries by apply NoDup_fst_map_to_list. by rewrite list_to_map_to_list.
Qed.

Lemma ts_min_none timestamps k : ts_map (ts_min timestamps) !! k = None →
  ∀ t, t ∈ timestamps → ts_map t !! k = None.
Proof.
  induction timestamps as [|t1 l IH] using rev_ind; intros Em t Ht; [by apply elem_of_nil in Ht|].
  rewrite ts_min_step in Em. destruct (ts_map (ts_min l) !! k), (ts_map t1 !! k) eqn:E1; try done.
  apply elem_of_app in Ht as [Ht| ->%list_elem_of_singleton]; auto.
Qed.

Lemma ts_min_lookup timestamps k v :
  ts_map (ts_min timestamps) !! k = Some v ↔
  (∃ t, t ∈ timestamps ∧ ts_map t !! k = Some v) ∧
  (∀ t w, t ∈ timestamps → ts_map t !! k = Some w → (v ≤ w)%N).
Proof.
  revert v. induction timestamps as [|t timestamps IH] using rev_ind; intros v.
  - unfold ts_min. simpl. rewrite lookup_empty. split; [done|]. intros [(t & Ht & _) _]. by apply elem_of_nil in Ht.
  - rewrite ts_min_step. destruct (ts_map (ts_min timestamps) !! k) as [m|] eqn:Em; simpl.
    + destruct (proj1 (IH m) eq_refl) as [(t0 & Ht0 & Hm) Hle].
      destruct (ts_map t !! k) as [x|] eqn:Ex; simpl; (split; [intros [= <-]; split|intros [(t1 & Ht1 & H1) Hmin]]).
      * destruct (N.min_spec m x) as [[_ ->]|[_ ->]]; [exists t0|exists t]; set_solver.
      * intros t1 w [H1| ->%list_elem_of_singleton]%elem_of_app Hw; [specialize (Hle _ _ H1 Hw); lia|].
        rewrite Ex in Hw. injection Hw as <-. lia.
      * assert (v ≤ m)%N by (apply (Hmin t0); [set_solver|done]).
        assert (v ≤ x)%N by (apply (Hmin t); [set_solver|done]).
        apply elem_of_app in Ht1 as [H2| ->%list_elem_of_singleton]; [pose proof (Hle _ _ H2 H1); f_equal; lia|].
        rewrite Ex in H1. injection H1 as <-. f_equal. lia.
      * exists t0. set_solver.
      * intros t1 w [H1| ->%list_elem_of_singleton]%elem_of_app Hw; [by eapply Hle|]. by rewrite Ex in Hw.
      * assert (v ≤ m)%N by (apply (Hmin t0); [set_solver|done]).
        apply elem_of_app in Ht1 as [H2| ->%list_elem_of_singleton]; [pose proof (Hle _ _ H2 H1); f_equal; lia|].
        by rewrite Ex in H1.
    + pose proof (ts_min_none timestamps k Em) as Hno.
      destruct (ts_map t !! k) as [x|] eqn:Ex; simpl.
      * split; [intros [= <-]; split|intros [(t1 & Ht1 & H1) _]].
        -- exists t. set_solver.
        -- intros t1 w [H1| ->%list_elem_of_singleton]%elem_of_app Hw; [by rewrite Hno in Hw|].
           rewrite Ex in Hw. injection Hw as <-. lia.
        -- apply elem_of_app in Ht1 as [H2| ->%list_elem_of_singleton]; [by rewrite Hno in H1|]. congruence.
      * split; [done|]. intros [(t1 & Ht1 & H1) _].
        apply elem_of_app in Ht1 as [H2| ->%list_elem_of_singleton]; [by rewrite Hno in H1|congruence].
Qed.

Lemma satisfies_trans a b c : satisfies a b = true → satisfies b c = true → satisfies a c = true.
Proof.
  rewrite !satisfies_spec. intros Hab Hbc k v Hk. destruct (Hbc k v Hk) as (v' & Hv' & ?).
  destruct (Hab k v' Hv') as (v'' & ? & ?). exists v''. split; [done|lia].
Qed.

Lemma satisfies_join a b : satisfies (ts_join a b) a = true ∧ satisfies (ts_join a b) b = true.
Proof.
  rewrite !satisfies_spec. split; intros k v Hk; rewrite ts_join_lookup, Hk;
    [destruct (ts_map b !! k) as [w|]|destruct (ts_map a !! k) as [w|]]; simpl;
    try (destruct (N.ltb_spec w v)); try (destruct (N.ltb_spec v w)); eexists; (split; [done|lia]).
Qed.

Lemma join_least a b c : satisfies c a = true → satisfies c b = true → satisfies c (ts_join a b) = true.
Proof.
  rewrite !satisfies_spec. intros Ha Hb k v. rewrite ts_join_lookup.
  destruct (ts_map a !! k) as [x|] eqn:Ea, (ts_map b !! k) as [y|] eqn:Eb; simpl; intros [= <-];
    try (destruct (N.ltb_spec y x)); eauto.
Qed.

(** [satisfies] is a preorder in which the join of two timestamps is their least
    upper bound, and the minimum of several timestamps satisfies exactly what
    all those that know the table satisfy, for tables at least one knows. *)
Theorem timestamp_lattice a b c timestamps :
  satisfies a a = true ∧
  (satisfies a b = true → satisfies b c = true → satisfies a c = true) ∧
  satisfies (ts_join a b) a = true ∧ satisfies (ts_join a b) b = true ∧
  (satisfies c a = true → satisfies c b = true → satisfies c (ts_join a b) = true) ∧
  (satisfies (ts_min timestamps) a = true ↔
   ∀ k v, ts_map a !! k = Some v →
     (∃ t, t ∈ timestamps ∧ is_Some (ts_map t !! k)) ∧
     (∀ t w, t ∈ timestamps → ts_map t !! k = Some w → (v ≤ w)%N)).
Proof.
  split_and!.
  - apply satisfies_spec. intros k v Hk. exists v. split; [done|lia].
  - apply satisfies_trans.
  - apply satisfies_join.
  - apply satisfies_join.
  - apply join_least.
  - rewrite satisfies_spec. split; intros Hall k v Hk.
    + destruct (Hall k v Hk) as (m & [(t & Ht & Hm) Hle]%ts_min_lookup & ?). split; [by exists t|].
      intros t' w Ht' Hw. specialize (Hle t' w Ht' Hw). lia.
    + destruct (Hall k v Hk) as [(t & Ht & [w Hw]) Hle].
      destruct (ts_map (ts_min timestamps) !! k) as [m|] eqn:Em.
      * exists m. split; [done|]. apply ts_min_lookup in Em as [(t' & ? & ?) _]. by eapply Hle.
      * exfalso. by rewrite (ts_min_none timestamps k Em t Ht) in Hw.
Qed.

(** A parent that has no timestamp yet sends the empty timestamp as a placeholder
    for the least one, but the minimum over the parents leaves it out: the node
    claims a transaction that one of its parents has not processed. *)
Theorem min_ignores_placeholder :
  let seen := {| ts_map := {[ 0 := 5%N ]} |} in
  ts_min [seen; ts_default] = seen ∧ satisfies ts_default seen = false.
Proof. vm_compute. done. Qed.
