(* ===== verification/Effects.v ===== *)
(** * Effects: mutable state and errors

    Methods that mutate their receiver and may return an error part way keep the
    changes they made before the error.  [eff S A] is such a computation: the
    state it leaves, and a value, an error or a panic. *)
From S2P Require Import Prelude Result.

Definition eff (S A : Type) : Type := S → S * result A.

#[export] Instance eff_ret S : MRet (eff S) := λ A a s, (s, Ok a).
#[export] Instance eff_bind S : MBind (eff S) := λ A B f m s,
  match m s with
  | (s', Ok a) => f a s'
  | (s', Err e) => (s', Err e)
  | (s', Panic) => (s', Panic)
  end.

Section effects.
Context {S : Type}.

Definition get : eff S S := λ s, (s, Ok s).
Definition modify (f : S → S) : eff S () := λ s, (f s, Ok ()).
Definition lift {A} (m : result A) : eff S A := λ s, (s, m).
Definition fail {A} (e : ReadySetError) : eff S A := λ s, (s, Err e).

(** A [for] loop over a list, with the loop's local state as accumulator. *)
Fixpoint eff_foldl {A B} (f : A → B → eff S A) (a : A) (l : list B) : eff S A :=
  match l with
  | [] => mret a
  | x :: l' => a' ← f a x; eff_foldl f a' l'
  end.
Definition eff_iter {B} (f : B → eff S ()) (l : list B) : eff S () := eff_foldl (λ _, f) () l.

Lemma bind_ok {A B} (m : eff S A) (f : A → eff S B) s s' a : m s = (s', Ok a) → (x ← m; f x) s = f a s'.
Proof. intros Hm. unfold mbind, eff_bind. by rewrite Hm. Qed.
(** Running a bind to its end means running both parts. *)
Lemma bind_inv {A B} (f : eff S A) (g : A → eff S B) s s' b :
  (x ← f; g x) s = (s', Ok b) → ∃ s1 a, f s = (s1, Ok a) ∧ g a s1 = (s', Ok b).
Proof. unfold mbind, eff_bind. destruct (f s) as [s1 [a| |]]; intros; simplify_eq; eauto. Qed.
Lemma lift_inv {A} (r : result A) (s s' : S) a : lift r s = (s', Ok a) → s' = s ∧ r = Ok a.
Proof. unfold lift. by intros [= -> ->]. Qed.
Lemma eff_iter_cons {B} (f : B → eff S ()) x l s s' : f x s = (s', Ok ()) → eff_iter f (x :: l) s = eff_iter f l s'.
Proof. intros Hf. unfold eff_iter. simpl. by rewrite (bind_ok _ _ _ _ _ Hf). Qed.

Lemma eff_iter_app {B} (f : B → eff S ()) l1 l2 s s1 :
  eff_iter f l1 s = (s1, Ok ()) → eff_iter f (l1 ++ l2) s = eff_iter f l2 s1.
Proof.
  unfold eff_iter. revert s. induction l1 as [|x l1 IH]; intros s; simpl.
  - intros [= <-]. done.
  - unfold mbind, eff_bind. destruct (f x s) as [s' [[]| |]]; try done. apply IH.
Qed.

(** A loop that succeeds at every step runs the steps' effects in order. *)
Lemma eff_iter_ok {B} (f : B → eff S ()) (g : S → B → S) l s :
  (∀ s x, x ∈ l → f x s = (g s x, Ok ())) → eff_iter f l s = (foldl g s l, Ok ()).
Proof.
  unfold eff_iter. revert s. induction l as [|x l IH]; intros s Hf; [done|]. simpl.
  unfold mbind, eff_bind. rewrite Hf by set_solver. apply IH. set_solver.
Qed.
End effects.

(** One step of a run that ended: the first part of the bind in [H]. *)
Ltac eff_run H :=
  let s := fresh "s" in let a := fresh "a" in let Hf := fresh "Hf" in
  apply bind_inv in H as (s & a & Hf & H).

(** ** Iterators whose closure may panic: [any], [all], [retain] *)
Fixpoint anyM {A} (f : A → result bool) (l : list A) : result bool :=
  match l with
  | [] => Ok false
  | x :: l' => b ← f x; if (b : bool) then Ok true else anyM f l'
  end.
Fixpoint allM {A} (f : A → result bool) (l : list A) : result bool :=
  match l with
  | [] => Ok true
  | x :: l' => b ← f x; if (b : bool) then allM f l' else Ok false
  end.
Fixpoint retainM {A} (f : A → result bool) (l : list A) : result (list A) :=
  match l with
  | [] => Ok []
  | x :: l' => b ← f x; rest ← retainM f l'; Ok (if (b : bool) then x :: rest else rest)
  end.

Section iterators.
Context {A : Type} (f : A → result bool) (g : A → bool).

Lemma anyM_ok l : Forall (λ x, f x = Ok (g x)) l → anyM f l = Ok (existsb g l).
Proof. induction 1 as [|x l Hx _ IH]; [done|]. simpl. rewrite Hx. cbn [mbind result_bind]. by destruct (g x). Qed.

Lemma allM_ok l : Forall (λ x, f x = Ok (g x)) l → allM f l = Ok (forallb g l).
Proof. induction 1 as [|x l Hx _ IH]; [done|]. simpl. rewrite Hx. cbn [mbind result_bind]. by destruct (g x). Qed.

Lemma retainM_ok l : Forall (λ x, f x = Ok (g x)) l → retainM f l = Ok (filter (λ x, g x = true) l).
Proof.
  induction 1 as [|x l Hx _ IH]; [done|]. cbn [retainM]. rewrite Hx, IH. cbn [mbind result_bind].
  rewrite filter_cons. destruct (g x); simpl; done.
Qed.
End iterators.
