(* ===== verification/Payload.v ===== *)
(** * Payload: packets

    Models [Packet] of [readyset-dataflow/src/payload.rs], the unit of
    communication between nodes, its accessors, and where a node's packets are
    sent.  A record of times ([PacketTrace]) is the time it was started. *)
From S2P Require Import Prelude Intervals Result Records Keys Replication KeyedState SingleState Base Timestamp Effects.

Record Link := { link_src : nat; link_dst : nat }.
Record PacketTrace := { trace_start : Z }.
Record SourceChannelIdentifier := { sci_token : N; sci_tag : N }.

Inductive PacketPayload (V : Type) :=
  | PayloadInput (ops : list (TableOperation V))
  | PayloadTimestamp (t : Timestamp).
Arguments PayloadInput {V}.
Arguments PayloadTimestamp {V}.

Record PacketData (V : Type) := {
  pd_dst : nat;
  pd_data : PacketPayload V;
  pd_trace : option PacketTrace;
}.
Arguments pd_dst {V}.
Arguments pd_data {V}.
Arguments pd_trace {V}.

(** A set of keys is the list of its elements. *)
Inductive ReplayPieceContext (V : Type) :=
  | RpPartial (for_keys : list (KeyComparison V)) (requesting_shard requesting_replica : nat) (unishard : bool)
  | RpRegular (last : bool).
Arguments RpPartial {V}.
Arguments RpRegular {V}.

Inductive SenderReplication := RepSame | RepFanout (num_replicas : nat).

Record ReplicaAddress := { ra_domain_index : nat; ra_shard : nat; ra_replica : nat }.

Inductive Packet (V : Type) :=
  | PInput (inner : PacketData V) (src : SourceChannelIdentifier)
  | PMessage (link : Link) (data : list (Record V)) (trace : option PacketTrace)
  | PReplayPiece (link : Link) (tag : nat) (data : list (Record V)) (context : ReplayPieceContext V)
  | PEvict (node : option nat) (num_bytes : nat)
  | PEvictKeys (link : Link) (tag : nat) (keys : list (KeyComparison V))
  | PFinish (tag node : nat)
  | PRequestPartialReplay (tag : nat) (keys : list (KeyComparison V)) (unishard : bool)
      (requesting_shard requesting_replica : nat)
  | PRequestReaderReplay (node : nat) (cols : list nat) (keys : list (KeyComparison V))
  | PSpin
  | PTimestamp (link : option Link) (src : SourceChannelIdentifier) (timestamp : PacketData V).
Arguments PInput {V}.
Arguments PMessage {V}.
Arguments PReplayPiece {V}.
Arguments PEvict {V}.
Arguments PEvictKeys {V}.
Arguments PFinish {V}.
Arguments PRequestPartialReplay {V}.
Arguments PRequestReaderReplay {V}.
Arguments PSpin {V}.
Arguments PTimestamp {V}.

Section packets.
Context {V : Type}.
Implicit Types (p : Packet V) (link : Link).

Definition packet_src p : result nat :=
  match p with
  | PInput inner _ => Ok (pd_dst inner)
  | PMessage link _ _ | PReplayPiece link _ _ _ => Ok (link_src link)
  | PTimestamp (Some l) _ _ => Ok (link_src l)
  | PTimestamp None _ timestamp => Ok (pd_dst timestamp)
  | _ => Panic
  end.

Definition packet_dst p : result nat :=
  match p with
  | PInput inner _ => Ok (pd_dst inner)
  | PMessage link _ _ | PReplayPiece link _ _ _ => Ok (link_dst link)
  | PTimestamp (Some l) _ _ => Ok (link_dst l)
  | PTimestamp None _ timestamp => Ok (pd_dst timestamp)
  | _ => Panic
  end.

(** A write through [link_mut]. *)
Definition set_link link p : result (Packet V) :=
  match p with
  | PMessage _ data trace => Ok (PMessage link data trace)
  | PReplayPiece _ tag data context => Ok (PReplayPiece link tag data context)
  | PEvictKeys _ tag keys => Ok (PEvictKeys link tag keys)
  | PTimestamp (Some _) src timestamp => Ok (PTimestamp (Some link) src timestamp)
  | _ => Panic
  end.

Definition packet_data p : result (list (Record V)) :=
  match p with PMessage _ data _ | PReplayPiece _ _ data _ => Ok data | _ => Panic end.

(** A write through [mut_data]. *)
Definition set_data (data : list (Record V)) p : result (Packet V) :=
  match p with
  | PMessage link _ trace => Ok (PMessage link data trace)
  | PReplayPiece link tag _ context => Ok (PReplayPiece link tag data context)
  | _ => Panic
  end.

Definition packet_is_empty p : result bool :=
  match p with
  | PMessage _ data _ | PReplayPiece _ _ data _ => Ok match data with [] => true | _ => false end
  | _ => Panic
  end.

Definition is_regular p : bool := match p with PMessage _ _ _ => true | _ => false end.

Definition packet_tag p : option nat :=
  match p with PReplayPiece _ tag _ _ | PEvictKeys _ tag _ => Some tag | _ => None end.

(** The records, and the packet left without them. *)
Definition take_data p : result (list (Record V) * Packet V) :=
  match p with
  | PMessage link data trace => Ok (data, PMessage link [] trace)
  | PReplayPiece link tag data context => Ok (data, PReplayPiece link tag [] context)
  | _ => Panic
  end.

Definition clone_data p : result (Packet V) :=
  match p with
  | PMessage link data trace => Ok (PMessage link data trace)
  | PReplayPiece link tag data context => Ok (PReplayPiece link tag data context)
  | PTimestamp link src timestamp => Ok (PTimestamp link src timestamp)
  | _ => Panic
  end.

Definition replay_piece_context p : option (ReplayPieceContext V) :=
  match p with PReplayPiece _ _ _ context => Some context | _ => None end.
End packets.

(** What an [Executor] is sent, in order. *)
Definition sends (V : Type) : Type := list (ReplicaAddress * Packet V).
