(* ===== verification/PacketFilter.v ===== *)
(** * PacketFilter: dropping updates a domain does not hold

    Models [readyset-dataflow/src/node/special/packet_filter.rs].  The filter of
    an egress node watches the replays and evictions it forwards and drops the
    records of updates outside the keys it has seen replayed and not evicted.
    The theorems relate it to what the destination holds: a point is filled from
    the replay of a key that contains it until an eviction of one.

    A trace is the sequence of packets an egress node forwards to one target,
    each with the columns its replay path is keyed by.  From it follow the keys
    in the filter and the points the destination holds; the invariant is that
    every point held is in a key of the filter. *)
From S2P Require Import Prelude Intervals Result Records Keys Processing Batches Effects Payload.
From stdpp Require Import gmap.

Section packet_filter.
Context `{DfVal V}.
Implicit Types (p : Packet V) (ci : list nat) (row : list V) (k : KeyComparison V).

(** [HashSet<KeyComparison>]: a list of elements that are pairwise not [==]. *)
Definition hs_insert k (s : list (KeyComparison V)) : list (KeyComparison V) :=
  if existsb (kc_eq k) s then s else s ++ [k].
Definition hs_remove k (s : list (KeyComparison V)) : list (KeyComparison V) :=
  filter (λ x, kc_eq k x = false) s.

Record NodeKeys := { nk_keys : gmap (list nat) (list (KeyComparison V)) }.
Record PacketFilter := { requested_keys : gmap nat NodeKeys }.

Definition filter_default : PacketFilter := {| requested_keys := ∅ |}.

Definition add_for_filtering (target : nat) (f : PacketFilter) : PacketFilter :=
  match requested_keys f !! target with
  | Some _ => f
  | None => {| requested_keys := <[target := {| nk_keys := ∅ |}]> (requested_keys f) |}
  end.

(** An index outside the row or the key panics. *)
Definition check_bound ci row (keys : list V) (check : V → V → bool) : result bool :=
  allM (λ p : nat * nat, a ← expect (row !! p.2); b ← expect (keys !! p.1); Ok (check a b)) (imap pair ci).

Definition check_lower_bound (lower_bound : Bound (list V)) ci row : result bool :=
  match lower_bound with
  | Included bound => check_bound ci row bound (λ d1 d2, is_ge (cmp d1 d2))
  | Excluded bound => check_bound ci row bound (λ d1 d2, is_gt (cmp d1 d2))
  | Unbounded => Ok true
  end.

Definition check_upper_bound (upper_bound : Bound (list V)) ci row : result bool :=
  match upper_bound with
  | Included bound => check_bound ci row bound (λ d1 d2, is_le (cmp d1 d2))
  | Excluded bound => check_bound ci row bound (λ d1 d2, is_lt (cmp d1 d2))
  | Unbounded => Ok true
  end.

(** The closure over one allowlisted key. *)
Definition check_key ci row k : result bool :=
  match k with
  | KEqual cond => check_bound ci row cond (λ d1 d2, bool_decide (d1 = d2))
  | KRange (lower_bound, upper_bound) =>
      b ← check_lower_bound lower_bound ci row;
      if (b : bool) then check_upper_bound upper_bound ci row else Ok false
  end.

(** The closure of [retain] over one row. *)
Definition check_row (keys : gmap (list nat) (list (KeyComparison V))) row : result bool :=
  anyM (λ e : list nat * list (KeyComparison V), anyM (check_key e.1 row) e.2) (map_to_list keys).

Definition add_keys (target : nat) (column_indexes : list nat) (keys : list (KeyComparison V))
    (f : PacketFilter) : PacketFilter :=
  match requested_keys f !! target with
  | Some nk =>
      let old := default [] (nk_keys nk !! column_indexes) in
      let nk' := {| nk_keys := <[column_indexes := foldl (λ s k, hs_insert k s) old keys]> (nk_keys nk) |} in
      {| requested_keys := <[target := nk']> (requested_keys f) |}
  | None => f
  end.

(** The loop over evicted keys. *)
Definition remove_keys (keys : list (KeyComparison V)) (nk : NodeKeys) : NodeKeys :=
  {| nk_keys := foldl (λ m k, hs_remove k <$> m) (nk_keys nk) keys |}.

(** [process]: the filter and the packet after it, and whether to send it. *)
Definition filter_process (f : PacketFilter) p (keyed_by : option (list nat)) (target : nat) :
    result (PacketFilter * Packet V * bool) :=
  match requested_keys f !! target with
  | None => Ok (f, p, true)
  | Some nk =>
      match p with
      | PMessage link data trace =>
          if decide (nk_keys nk = ∅) then Ok (f, p, false)
          else
            data' ← retainM (λ r, check_row (nk_keys nk) (rec r)) data;
            Ok (f, PMessage link data' trace, match data' with [] => false | _ => true end)
      | PReplayPiece _ _ _ (RpPartial for_keys _ _ _) =>
          match keyed_by with
          | None => Err Internal
          | Some column_indexes => Ok (add_keys target column_indexes for_keys f, p, true)
          end
      | PEvictKeys _ _ keys =>
          Ok ({| requested_keys := <[target := remove_keys keys nk]> (requested_keys f) |}, p, true)
      | _ => Ok (f, p, true)
      end
  end.
End packet_filter.
Arguments NodeKeys V : clear implicits.
Arguments PacketFilter V : clear implicits.

(** * Properties *)
Section filter_props.
Context `{DfVal V}.
Implicit Types (p : Packet V) (ci : list nat) (row pt : list V) (k : KeyComparison V).
Implicit Types (keys : gmap (list nat) (list (KeyComparison V))).

(** ** Checking one key *)

(** A point of all the key columns, or a range over a single column. *)
Definition bound_fits ci (b : Bound (list V)) : Prop :=
  match b with Included x | Excluded x => length x = length ci | Unbounded => True end.
Definition filter_key_fits ci k : Prop :=
  match k with
  | KEqual c => length c = length ci
  | KRange (lower, upper) => length ci = 1 ∧ bound_fits ci lower ∧ bound_fits ci upper
  end.
Definition wide_enough ci row : Prop := Forall (λ c, c < length row) ci.

Lemma cols_at_here c ci row a : row !! c = Some a → cols_at (c :: ci) row = a :: cols_at ci row.
Proof. intros Ha. unfold cols_at. cbn [omap list_omap]. by rewrite Ha. Qed.

Lemma check_bound_ok ci row (ks : list V) check : wide_enough ci row → length ks = length ci →
  check_bound ci row ks check = Ok (forallb (λ ab : V * V, check ab.1 ab.2) (zip (cols_at ci row) ks)).
Proof.
  intros Hw. unfold check_bound.
  assert (Hgen : ∀ pre, length (pre ++ ks) = length pre + length ci →
    allM (λ p : nat * nat, a ← expect (row !! p.2); b ← expect ((pre ++ ks) !! p.1); Ok (check a b))
      (imap (λ i c, (length pre + i, c)) ci) =
    Ok (forallb (λ ab : V * V, check ab.1 ab.2) (zip (cols_at ci row) ks))); [|intros Hl; by apply (Hgen [])].
  revert ks. induction Hw as [|c ci Hc Hw IH]; intros ks pre Hl; [done|].
  rewrite length_app in Hl. destruct ks as [|b ks]; simpl in Hl; [lia|].
  destruct (lookup_lt_is_Some_2 row c Hc) as [a Ha]. cbn [imap allM fst snd]. rewrite Nat.add_0_r, Ha.
  rewrite list_lookup_middle by done. cbn [expect mbind result_bind]. rewrite (cols_at_here _ _ _ _ Ha).
  cbn [zip zip_with forallb fst snd]. destruct (check a b); [|done]. cbn [andb].
  specialize (IH ks (pre ++ [b])). rewrite <-app_assoc in IH. cbn [app] in IH. rewrite <-IH.
  - f_equal. apply imap_ext. intros i x _. rewrite length_app. cbn. f_equal. lia.
  - rewrite !length_app. simpl. lia.
Qed.

Lemma length_cols_at ci row : wide_enough ci row → length (cols_at ci row) = length ci.
Proof.
  induction 1 as [|c ci Hc _ IH]; [done|]. destruct (lookup_lt_is_Some_2 row c Hc) as [a Ha].
  rewrite (cols_at_here _ _ _ _ Ha). simpl. by rewrite IH.
Qed.

Lemma zip_equal (xs ys : list V) : length ys = length xs →
  forallb (λ ab : V * V, bool_decide (ab.1 = ab.2)) (zip xs ys) = bool_decide (xs = ys).
Proof.
  revert ys. induction xs as [|x xs IH]; intros [|y ys]; try done. intros [= Hl]. cbn [zip zip_with forallb fst snd].
  rewrite (IH _ Hl). repeat case_bool_decide; naive_solver.
Qed.

Lemma check_key_ok ci row k : wide_enough ci row → filter_key_fits ci k →
  check_key ci row k = Ok (kc_contains k (cols_at ci row)).
Proof.
  intros Hw Hk. pose proof (length_cols_at _ _ Hw) as Hl. destruct k as [c|[lower upper]]; simpl in *.
  - rewrite check_bound_ok by done. rewrite zip_equal by congruence. f_equal.
    case_bool_decide as Hc.
    + rewrite Hc. by rewrite (proj2 (cmp_eq_iff c c) eq_refl).
    + destruct (cmp (cols_at ci row) c) eqn:E; try done. by apply cmp_eq_iff in E.
  - destruct Hk as (H1 & Hlo & Hup). rewrite H1 in *.
    destruct (cols_at ci row) as [|v [|]] eqn:Ev; try done.
    assert (Hone : ∀ x check, check_bound ci row [x] check = Ok (check v x)).
    { intros x check. rewrite check_bound_ok, Ev by done. simpl. by rewrite andb_true_r. }
    assert (Hcmp : ∀ x, cmp [v] [x] = cmp v x).
    { intros x. change (cmp [v] [x]) with (then_cmp (cmp v x) Eq). by destruct (cmp v x). }
    destruct lower as [[|x [|]]|[|x [|]]|], upper as [[|y [|]]|[|y [|]]|];
      simpl in Hlo, Hup; try (exfalso; lia); unfold check_lower_bound, check_upper_bound; rewrite ?Hone, ?Hcmp;
      cbn [mbind result_bind]; repeat match goal with |- context [cmp v ?z] => destruct (cmp v z) end; done.
Qed.

(** ** Sets of keys *)
Lemma kc_eq_refl k : kc_eq k k = true.
Proof. rewrite kc_eq_hashed. by apply bool_decide_eq_true. Qed.
Lemma kc_eq_contains k k' pt : kc_eq k k' = true → kc_contains k pt = kc_contains k' pt.
Proof. rewrite kc_eq_hashed, bool_decide_eq_true. apply kc_hashed_contains. Qed.

Definition hs_extend (ks s : list (KeyComparison V)) : list (KeyComparison V) := foldl (λ s k, hs_insert k s) s ks.

Lemma hs_insert_elem k s x : x ∈ hs_insert k s → x ∈ s ∨ x = k.
Proof. unfold hs_insert. destruct (existsb _ s); set_solver. Qed.
Lemma hs_insert_covers k s x : x ∈ s ∨ x = k → ∃ x', x' ∈ hs_insert k s ∧ kc_eq x x' = true.
Proof.
  unfold hs_insert. destruct (existsb (kc_eq k) s) eqn:E.
  - apply existsb_exists in E as (k' & Hk'%list_elem_of_In & He). intros [Hx| ->]; [|by exists k'].
    exists x. split; [done|apply kc_eq_refl].
  - intros Hx. exists x. split; [set_solver|apply kc_eq_refl].
Qed.

Lemma hs_extend_elem ks s x : x ∈ hs_extend ks s → x ∈ s ∨ x ∈ ks.
Proof.
  unfold hs_extend. revert s. induction ks as [|k ks IH]; intros s; simpl; [auto|].
  intros [Hx|Hx]%IH; [|set_solver]. apply hs_insert_elem in Hx. set_solver.
Qed.
Lemma hs_extend_covers ks s x pt : x ∈ s ∨ x ∈ ks → kc_contains x pt = true →
  ∃ x', x' ∈ hs_extend ks s ∧ kc_contains x' pt = true.
Proof.
  unfold hs_extend. revert s x. induction ks as [|k ks IH]; intros s x; simpl.
  - intros [Hx|Hx] Hc; [by exists x|by apply elem_of_nil in Hx].
  - rewrite elem_of_cons. intros Hx Hc. assert (x ∈ ks ∨ (x ∈ s ∨ x = k)) as [Hks|Hks] by tauto; [by apply (IH _ x); auto|].
    destruct (hs_insert_covers k s x) as (x' & Hx' & He); [tauto|].
    apply (IH _ x'); [by left|]. by rewrite <-(kc_eq_contains _ _ _ He).
Qed.

Definition hs_removes (ks s : list (KeyComparison V)) : list (KeyComparison V) :=
  filter (λ x, existsb (λ k, kc_eq k x) ks = false) s.
Lemma remove_keys_ok ks keys :
  nk_keys (remove_keys ks {| nk_keys := keys |}) = hs_removes ks <$> keys.
Proof.
  unfold remove_keys. simpl. revert keys. induction ks as [|k ks IH]; intros keys; simpl.
  - rewrite <-(map_fmap_id keys) at 1. apply map_fmap_ext. intros ci s _. unfold hs_removes. simpl.
    symmetry. apply filter_all. by apply Forall_true.
  - rewrite IH, <-map_fmap_compose. apply map_fmap_ext. intros ci s _. unfold hs_removes, hs_remove. simpl.
    rewrite list_filter_filter. apply list_filter_iff. intros x. rewrite orb_false_iff. tauto.
Qed.

(** ** Traces *)
Abbreviation event := (Packet V * list nat)%type.
Implicit Types (trace : list event) (e : event).

(** Replays carry the columns of their path; evictions are passed on without. *)
Definition event_keyed_by e : option (list nat) :=
  match e.1 with PEvictKeys _ _ _ => None | _ => Some e.2 end.
Definition filter_step (target : nat) (f : PacketFilter V) e : result (PacketFilter V) :=
  r ← filter_process f e.1 (event_keyed_by e) target; Ok r.1.1.
Definition run_filter (target : nat) (f : PacketFilter V) trace : result (PacketFilter V) :=
  result_foldl (filter_step target) f trace.

Definition replayed e : list (KeyComparison V) :=
  match e.1 with PReplayPiece _ _ _ (RpPartial for_keys _ _ _) => for_keys | _ => [] end.
Definition evicted e : list (KeyComparison V) := match e.1 with PEvictKeys _ _ ks => ks | _ => [] end.
Definition updates e : list (Record V) := match e.1 with PMessage _ data _ => data | _ => [] end.

(** Whether the destination holds a point of its index on some columns. *)
Definition hold_step (held : list nat → list V → bool) e ci pt : bool :=
  if decide (ci = e.2)
  then (held ci pt || existsb (λ k, kc_contains k pt) (replayed e)) && negb (existsb (λ k, kc_contains k pt) (evicted e))
  else held ci pt.
Definition held trace : list nat → list V → bool := foldl hold_step (λ _ _, false) trace.

(** Keys fit the columns they are for, rows are wide enough for all of them. *)
Definition rows_fit trace (data : list (Record V)) : Prop :=
  ∀ r e, r ∈ data → e ∈ trace → replayed e ≠ [] → wide_enough e.2 (rec r).
Definition trace_fits trace : Prop :=
  (∀ e, e ∈ trace → Forall (filter_key_fits e.2) (replayed e)) ∧ (∀ e, e ∈ trace → rows_fit trace (updates e)).
(** No key is evicted from one index and replayed to another. *)
Definition own_evictions trace : Prop :=
  ∀ e e' k k', e ∈ trace → e' ∈ trace → k ∈ evicted e → k' ∈ replayed e' → kc_eq k k' = true → e.2 = e'.2.

Definition seen trace ci k : Prop := ∃ e, e ∈ trace ∧ e.2 = ci ∧ k ∈ replayed e.
Definition allowlist (target : nat) (f : PacketFilter V) : option (gmap (list nat) (list (KeyComparison V))) :=
  nk_keys <$> requested_keys f !! target.
Record filter_inv (target : nat) trace (f : PacketFilter V) keys : Prop := {
  fi_keys : allowlist target f = Some keys;
  fi_seen : ∀ ci k, k ∈ default [] (keys !! ci) → seen trace ci k;
  fi_holds : ∀ ci pt, held trace ci pt = true → ∃ k, k ∈ default [] (keys !! ci) ∧ kc_contains k pt = true;
}.

Lemma held_snoc trace e ci pt : held (trace ++ [e]) ci pt = hold_step (held trace) e ci pt.
Proof. unfold held. by rewrite foldl_app. Qed.
Lemma seen_mono trace e ci k : seen trace ci k → seen (trace ++ [e]) ci k.
Proof. intros (e0 & ? & ? & ?). exists e0. set_solver. Qed.

Definition passes keys row : bool :=
  existsb (λ e : list nat * list (KeyComparison V), existsb (λ k, kc_contains k (cols_at e.1 row)) e.2) (map_to_list keys).

Lemma passes_spec keys row :
  passes keys row = true ↔ ∃ ci k, k ∈ default [] (keys !! ci) ∧ kc_contains k (cols_at ci row) = true.
Proof.
  unfold passes. rewrite existsb_exists. split.
  - intros ([ci s] & Hin%list_elem_of_In%elem_of_map_to_list & (k & Hk%list_elem_of_In & Hc)%existsb_exists).
    exists ci, k. by rewrite Hin.
  - intros (ci & k & Hk & Hc). destruct (keys !! ci) as [s|] eqn:E; [|by apply elem_of_nil in Hk].
    exists (ci, s). split; [by apply list_elem_of_In, elem_of_map_to_list|].
    apply existsb_exists. exists k. split; [by apply list_elem_of_In|done].
Qed.

Lemma check_row_ok keys row :
  (∀ ci k, k ∈ default [] (keys !! ci) → filter_key_fits ci k ∧ wide_enough ci row) →
  check_row keys row = Ok (passes keys row).
Proof.
  intros Hk. unfold check_row, passes. apply anyM_ok. apply Forall_forall. intros [ci s] Hin%elem_of_map_to_list.
  apply anyM_ok. apply Forall_forall. intros k Hs. simpl. specialize (Hk ci k). rewrite Hin in Hk.
  destruct (Hk Hs). by apply check_key_ok.
Qed.

(** What the filter makes of an update. *)
Lemma filter_message_ok target trace f keys kb link data tr :
  filter_inv target trace f keys → trace_fits trace → rows_fit trace data →
  ∃ data' sent, filter_process f (PMessage link data tr) kb target = Ok (f, PMessage link data' tr, sent) ∧
    (if sent then data' else []) = filter (λ r, passes keys (rec r) = true) data.
Proof.
  intros [Hkeys Hseen _] [Hfit _] Hrows. unfold allowlist in Hkeys. unfold filter_process.
  destruct (requested_keys f !! target) as [[keys']|]; [|done]. injection Hkeys as ->. cbn [nk_keys].
  case_decide as He.
  - exists data, false. split; [done|]. symmetry. apply filter_none. apply Forall_forall. intros r _. by rewrite He.
  - rewrite (retainM_ok _ (λ r, passes keys (rec r))).
    + cbn [mbind result_bind]. eexists _, _. split; [done|]. by destruct (filter _ data).
    + apply Forall_forall. intros r Hr. apply check_row_ok. intros ci k (e & He' & <- & Hk)%Hseen. split.
      * by apply (proj1 (Forall_forall _ _) (Hfit e He')).
      * apply (Hrows r e); [done..|]. intros E. rewrite E in Hk. by apply elem_of_nil in Hk.
Qed.

Lemma trace_fits_app trace e : trace_fits (trace ++ [e]) → trace_fits trace.
Proof.
  intros [H1 H2]. split; [intros e0 He0; apply H1; set_solver|].
  intros e0 He0 r e1 Hr He1. apply (H2 e0); set_solver.
Qed.

(** An event that neither replays nor evicts leaves keys and points alone. *)
Lemma filter_inv_same target trace f keys e : filter_inv target trace f keys →
  replayed e = [] → evicted e = [] → filter_inv target (trace ++ [e]) f keys.
Proof.
  intros [Hkeys Hseen Hholds] Hr Hv. split; [done| |].
  - intros ci k Hk. apply seen_mono. auto.
  - intros ci pt. rewrite held_snoc. unfold hold_step. rewrite Hr, Hv. simpl.
    rewrite orb_false_r, andb_true_r. case_decide; auto.
Qed.

Lemma filter_replay_ok target trace f keys e for_keys : filter_inv target trace f keys →
  replayed e = for_keys → evicted e = [] →
  ∃ keys', filter_inv target (trace ++ [e]) (add_keys target e.2 for_keys f) keys'.
Proof.
  intros [Hkeys Hseen Hholds] Hr Hv. unfold allowlist in Hkeys. unfold add_keys.
  destruct (requested_keys f !! target) as [[keys0]|]; [|done]. injection Hkeys as ->. cbn [nk_keys].
  exists (<[e.2 := hs_extend for_keys (default [] (keys !! e.2))]> keys).
  split; [unfold allowlist; simpl; by rewrite lookup_insert_eq|..].
  - intros ci k. destruct (decide (ci = e.2)) as [->|Hc].
    + rewrite lookup_insert_eq. simpl. intros [Hk|Hk]%hs_extend_elem; [apply seen_mono; auto|].
      exists e. rewrite Hr. set_solver.
    + rewrite lookup_insert_ne by done. intros. apply seen_mono. auto.
  - intros ci pt. rewrite held_snoc. unfold hold_step. rewrite Hr, Hv. cbn [existsb negb]. rewrite andb_true_r.
    case_decide as Hc.
    + subst ci. rewrite lookup_insert_eq, orb_true_iff, existsb_exists. simpl.
      intros [(k & Hk & Hin)%Hholds|(k & Hk%list_elem_of_In & Hin)]; by eapply (hs_extend_covers _ _ k); eauto.
    + rewrite lookup_insert_ne by done. apply Hholds.
Qed.

Lemma hs_removes_elem ks s x : x ∈ hs_removes ks s ↔ x ∈ s ∧ ∀ k, k ∈ ks → kc_eq k x = false.
Proof.
  unfold hs_removes. rewrite list_elem_of_filter. split; intros [H1 H2]; split; try done.
  - intros k Hk. apply not_true_iff_false. intros Ht. apply not_true_iff_false in H1. apply H1.
    apply existsb_exists. exists k. split; [by apply list_elem_of_In|done].
  - apply not_true_iff_false. intros (k & Hk%list_elem_of_In & Ht)%existsb_exists. by rewrite H2 in Ht.
Qed.

Lemma filter_evict_ok target trace f keys e ks nk : filter_inv target trace f keys →
  own_evictions (trace ++ [e]) → replayed e = [] → evicted e = ks → requested_keys f !! target = Some nk →
  ∃ keys', filter_inv target (trace ++ [e])
    {| requested_keys := <[target := remove_keys ks nk]> (requested_keys f) |} keys'.
Proof.
  intros [Hkeys Hseen Hholds] Hown Hr Hv Hnk. unfold allowlist in Hkeys. rewrite Hnk in Hkeys.
  destruct nk as [keys0]. injection Hkeys as ->. exists (hs_removes ks <$> keys).
  assert (Hold : ∀ ci k, k ∈ default [] ((hs_removes ks <$> keys) !! ci) ↔
                         k ∈ default [] (keys !! ci) ∧ ∀ k0, k0 ∈ ks → kc_eq k0 k = false).
  { intros ci k. rewrite lookup_fmap. destruct (keys !! ci); simpl; [apply hs_removes_elem|]. set_solver. }
  split.
  - unfold allowlist. cbn [requested_keys]. rewrite lookup_insert_eq. by rewrite <-(remove_keys_ok ks keys).
  - intros ci k [Hk _]%Hold. apply seen_mono. auto.
  - intros ci pt. rewrite held_snoc. unfold hold_step. rewrite Hr, Hv, orb_false_r.
    intros Hh. assert (Hheld : held trace ci pt = true).
    { case_decide; [|done]. by apply andb_true_iff in Hh as [? _]. }
    destruct (Hholds _ _ Hheld) as (k & Hk & Hc). exists k. split; [|done]. apply Hold. split; [done|].
    intros k0 Hk0. apply not_true_iff_false. intros He.
    destruct (Hseen _ _ Hk) as (e' & He' & <- & Hk').
    rewrite (Hown e e' k0 k) in Hh; try done; [|set_solver..|by rewrite Hv].
    rewrite decide_True in Hh by done. apply andb_true_iff in Hh as [_ Hh%negb_true_iff].
    apply not_true_iff_false in Hh. apply Hh. apply existsb_exists. exists k0.
    split; [by apply list_elem_of_In|]. by rewrite (kc_eq_contains _ _ _ He).
Qed.

Lemma filter_step_ok target trace f keys e : filter_inv target trace f keys →
  trace_fits (trace ++ [e]) → own_evictions (trace ++ [e]) →
  ∃ f' keys', filter_step target f e = Ok f' ∧ filter_inv target (trace ++ [e]) f' keys'.
Proof.
  intros Hinv Hfit Hown. unfold filter_step.
  destruct (requested_keys f !! target) as [nk|] eqn:Enk;
    [|exfalso; destruct Hinv as [Hkeys _ _]; unfold allowlist in Hkeys; by rewrite Enk in Hkeys].
  destruct e as [p ci]. destruct p as [| link data tr | link tag data [for_keys ? ? ?|] | | link tag ks | | | | |].
  2: { destruct (filter_message_ok target trace f keys (Some ci) link data tr) as (data' & sent & Hp & _);
         [done|by eapply trace_fits_app| |].
       - intros r e1 Hr He1. apply (proj2 Hfit (PMessage link data tr, ci)); set_solver.
       - exists f, keys. cbn [fst snd event_keyed_by]. rewrite Hp. split; [done|]. by apply filter_inv_same. }
  2: { destruct (filter_replay_ok target trace f keys (PReplayPiece link tag data (RpPartial for_keys requesting_shard requesting_replica unishard), ci) for_keys)
         as (keys' & Hk); [done..|]. eexists _, keys'. split; [|exact Hk]. unfold filter_process. by rewrite Enk. }
  4: { destruct (filter_evict_ok target trace f keys (PEvictKeys link tag ks, ci) ks nk) as (keys' & Hk); [done..|].
       eexists _, keys'. split; [|exact Hk]. unfold filter_process. by rewrite Enk. }
  all: exists f, keys; (split; [unfold filter_process; by rewrite Enk|by apply filter_inv_same]).
Qed.

Lemma run_filter_ok target trace :
  trace_fits trace → own_evictions trace →
  ∃ f keys, run_filter target (add_for_filtering target filter_default) trace = Ok f ∧ filter_inv target trace f keys.
Proof.
  induction trace as [|e trace IH] using rev_ind; intros Hfit Hown.
  - eexists _, ∅. split; [done|]. split; [| |done].
    { unfold allowlist, add_for_filtering, filter_default. cbn [requested_keys]. rewrite lookup_empty.
      cbn [requested_keys]. by rewrite lookup_insert_eq. }
    intros ci k Hk. rewrite lookup_empty in Hk. by apply elem_of_nil in Hk.
  - destruct IH as (f & keys & Hrun & Hinv); [by eapply trace_fits_app| |].
    { intros e1 e2 k k' H1 H2. apply Hown; set_solver. }
    destruct (filter_step_ok target trace f keys e) as (f' & keys' & Hstep & Hinv'); [done..|].
    exists f', keys'. split; [|done]. unfold run_filter. rewrite result_foldl_app.
    unfold run_filter in Hrun. rewrite Hrun. cbn [mbind result_bind result_foldl]. by rewrite Hstep.
Qed.
End filter_props.

Section filter_theorems.
Context `{DfVal V}.
Implicit Types (trace : list (Packet V * list nat)).

(** C34: The packet filter is safe.  After any sequence of replays, evictions and
    updates for a target, where keys are points or ranges of one column and no
    key is evicted from one index and replayed to another, an update passes all
    its records whose key the target holds in some index, in order, and no
    record outside the keys replayed. *)
Theorem filter_keeps_held target trace link data tr :
  trace_fits trace → own_evictions trace → rows_fit trace data →
  ∃ f data' sent pass,
    run_filter target (add_for_filtering target filter_default) trace = Ok f ∧
    filter_process f (PMessage link data tr) None target = Ok (f, PMessage link data' tr, sent) ∧
    (if sent then data' else []) = filter (λ r, pass (rec r) = true) data ∧
    (∀ row ci, held trace ci (cols_at ci row) = true → pass row = true) ∧
    (∀ row, pass row = true → ∃ ci k, seen trace ci k ∧ kc_contains k (cols_at ci row) = true).
Proof.
  intros Hfit Hown Hrows. destruct (run_filter_ok target trace) as (f & keys & Hrun & Hinv); [done..|].
  destruct (filter_message_ok target trace f keys None link data tr) as (data' & sent & Hp & Hd); [done..|].
  exists f, data', sent, (passes keys). split_and!; try done.
  - intros row ci Hh. apply passes_spec. destruct (fi_holds _ _ _ _ Hinv _ _ Hh) as (k & Hk & Hc). eauto.
  - intros row (ci & k & Hk & Hc)%passes_spec. exists ci, k. split; [|done]. by apply (fi_seen _ _ _ _ Hinv).
Qed.
End filter_theorems.

(** ** Examples *)
Definition sample_link : Link := {| link_src := 0; link_dst := 1 |}.
Definition sample_replay (ci : list nat) (ks : list (KeyComparison SampleVal)) : Packet SampleVal * list nat :=
  (PReplayPiece sample_link 0 [] (RpPartial ks 0 0 false), ci).
Definition sample_evict (ci : list nat) (ks : list (KeyComparison SampleVal)) : Packet SampleVal * list nat :=
  (PEvictKeys sample_link 0 ks, ci).
Definition point (z : Z) : KeyComparison SampleVal := KEqual [SInt z].
Definition ints (zs : list Z) : list SampleVal := SInt <$> zs.

Lemma filter_keeps_held_witness :
  ∃ f data' sent pass,
    run_filter 7 (add_for_filtering 7 filter_default)
      [sample_replay [0] [point 1; point 2]; sample_evict [0] [point 2]] = Ok f ∧
    filter_process f (PMessage sample_link [Positive (ints [1; 4]%Z); Positive (ints [2; 5]%Z)] None) None 7 =
      Ok (f, PMessage sample_link data' None, sent) ∧
    (if sent then data' else []) =
      filter (λ r, pass (rec r) = true) [Positive (ints [1; 4]%Z); Positive (ints [2; 5]%Z)] ∧
    (∀ row ci, held [sample_replay [0] [point 1; point 2]; sample_evict [0] [point 2]] ci (cols_at ci row) = true →
       pass row = true) ∧
    (∀ row, pass row = true → ∃ ci k,
       seen [sample_replay [0] [point 1; point 2]; sample_evict [0] [point 2]] ci k ∧
       kc_contains k (cols_at ci row) = true).
Proof.
  apply filter_keeps_held.
  - split; intros e [->|[->|[]%elem_of_nil]%elem_of_cons]%elem_of_cons;
      [repeat constructor..|intros ?? []%elem_of_nil|intros ?? []%elem_of_nil].
  - intros e e' k k' [->|[->|[]%elem_of_nil]%elem_of_cons]%elem_of_cons
      [->|[->|[]%elem_of_nil]%elem_of_cons]%elem_of_cons; done.
  - intros r e [->|[->|[]%elem_of_nil]%elem_of_cons]%elem_of_cons
      [->|[->|[]%elem_of_nil]%elem_of_cons]%elem_of_cons _; repeat constructor.
Defined.

(** Evicting a key from one index of the target removes it from the filter for
    all of them: a record the target holds through another index is dropped. *)
Theorem filter_evicts_other_index :
  let trace := [sample_replay [0] [point 1]; sample_replay [1] [point 1]; sample_evict [0] [point 1]] in
  let update := PMessage sample_link [Positive (ints [5; 1]%Z)] None in
  held trace [1] (ints [1]%Z) = true ∧
  (f ← run_filter 7 (add_for_filtering 7 filter_default) trace;
   r ← filter_process f update None 7; Ok r.2) = Ok false.
Proof. split; vm_compute; done. Qed.

(** A range over two columns is checked column by column, although keys are
    ordered lexicographically: a record inside the range the target asked for
    is dropped. *)
Theorem filter_drops_compound_range :
  let range := KRange (Included (ints [1; 5]%Z), Included (ints [3; 0]%Z)) in
  let trace := [sample_replay [0; 1] [range]] in
  let update := PMessage sample_link [Positive (ints [2; 9]%Z)] None in
  held trace [0; 1] (ints [2; 9]%Z) = true ∧
  (f ← run_filter 7 (add_for_filtering 7 filter_default) trace;
   r ← filter_process f update None 7; Ok r.2) = Ok false.
Proof. split; vm_compute; done. Qed.
