(* ===== verification/Sharder.v ===== *)
(** * Sharder: splitting packets over the shards of a domain

    Models [readyset-dataflow/src/node/special/sharder.rs].  A method runs on the
    sharder and the packets sent so far; the packet it is given is taken from the
    caller.  The theorems say which packet every shard receives. *)
From S2P Require Import Prelude Intervals Result Records Keys Effects Payload.
From stdpp Require Import gmap.

Record SharderTx := {
  tx_node : nat;
  tx_domain_index : nat;
  tx_shard : nat;
  tx_replication : SenderReplication;
}.

Record Sharder (V : Type) := {
  sh_txs : list SharderTx;
  sh_sharded : gmap nat (Packet V);
  sh_shard_by : nat;
}.
Arguments sh_txs {V}.
Arguments sh_sharded {V}.
Arguments sh_shard_by {V}.

Inductive Destination := DestAll | DestOne (shard : nat) | DestAny.

Section sharder.
Context `{DfVal V} (shard_hash : V → option N).
Implicit Types (m : Packet V).

Definition sharder_new (by_ : nat) : Sharder V := {| sh_txs := []; sh_sharded := ∅; sh_shard_by := by_ |}.

(** The sharder taken, and what is left of the old one. *)
Definition sharder_take (s : Sharder V) : Sharder V * Sharder V :=
  ({| sh_txs := sh_txs s; sh_sharded := ∅; sh_shard_by := sh_shard_by s |},
   {| sh_txs := []; sh_sharded := sh_sharded s; sh_shard_by := sh_shard_by s |}).

Definition add_sharded_child (dst_domain dst_node num_shards : nat) (replication : SenderReplication)
    (s : Sharder V) : Sharder V :=
  {| sh_txs := sh_txs s ++ ((λ shard, {| tx_node := dst_node; tx_domain_index := dst_domain;
                                         tx_shard := shard; tx_replication := replication |}) <$> seq 0 num_shards);
     sh_sharded := sh_sharded s; sh_shard_by := sh_shard_by s |}.

Abbreviation run := (eff (Sharder V * sends V)).

Definition output_send (dest : ReplicaAddress) m : run () := modify (λ s, (s.1, s.2 ++ [(dest, m)])).
Definition set_sharded (f : gmap nat (Packet V) → gmap nat (Packet V)) : run () :=
  modify (λ s, ({| sh_txs := sh_txs s.1; sh_sharded := f (sh_sharded s.1); sh_shard_by := sh_shard_by s.1 |}, s.2)).

Definition tx_address (tx : SharderTx) (replica : nat) : ReplicaAddress :=
  {| ra_domain_index := tx_domain_index tx; ra_shard := tx_shard tx; ra_replica := replica |}.

Definition tx_send (tx : SharderTx) m (from_replica : nat) : run () :=
  match tx_replication tx with
  | RepSame => output_send (tx_address tx from_replica) m
  | RepFanout num_replicas =>
      match replay_piece_context m with
      | Some (RpPartial _ _ requesting_replica _) =>
          if decide (requesting_replica < num_replicas)
          then output_send (tx_address tx from_replica) m
          else fail Internal
      | _ => eff_iter (λ replica, output_send (tx_address tx replica) m) (seq 0 num_replicas)
      end
  end.

Definition shard_of (s : Sharder V) (dt : V) : result nat := shard_by shard_hash dt (length (sh_txs s)).
Definition to_shard (s : Sharder V) (r : Record V) : result nat :=
  v ← expect (rec r !! sh_shard_by s); shard_of s v.

(** [entry(shard).or_insert_with(|| m.clone_data())]. *)
Definition entry_or_clone m (shard : nat) : run (Packet V) :=
  s ← get;
  match sh_sharded s.1 !! shard with
  | Some p => mret p
  | None => p ← lift (clone_data m); _ ← set_sharded <[shard := p]>; mret p
  end.

Definition shard_record m (record : Record V) : run () :=
  s ← get;
  shard ← lift (to_shard s.1 record);
  p ← entry_or_clone m shard;
  data ← lift (packet_data p);
  p' ← lift (set_data (data ++ [record]) p);
  set_sharded <[shard := p']>.

Definition destination m (is_last_sharder_for_tag : option bool) : result Destination :=
  match m with
  | PReplayPiece _ _ _ (RpRegular true) => Ok DestAll
  | PReplayPiece _ _ _ (RpPartial _ requesting_shard _ _) =>
      match is_last_sharder_for_tag with
      | Some true => Ok (DestOne requesting_shard)
      | _ => Ok DestAll
      end
  | _ => match is_last_sharder_for_tag with None => Ok DestAny | Some _ => Err Internal end
  end.

Definition ensure_packets m (dest : Destination) : run () :=
  match dest with
  | DestAll => s ← get; eff_iter (λ shard, _ ← entry_or_clone m shard; mret ()) (seq 0 (length (sh_txs s.1)))
  | DestOne shard =>
      _ ← entry_or_clone m shard;
      set_sharded (filter (λ e, e.1 = shard))
  | DestAny => mret ()
  end.

(** The loop that sends the packets of the shards, with [prepare] what it does to
    a packet before. *)
Definition send_sharded (prepare : SharderTx → Packet V → result (Packet V)) (replica : nat) (i_tx : nat * SharderTx) : run () :=
  s ← get;
  match sh_sharded s.1 !! i_tx.1 with
  | Some m =>
      _ ← set_sharded (delete i_tx.1);
      m' ← lift (prepare i_tx.2 m);
      tx_send i_tx.2 m' replica
  | None => mret ()
  end.

Definition sharder_process (m : Packet V) (index : nat) (is_sharded : bool)
    (is_last_sharder_for_tag : option bool) (replica : nat) : run () :=
  dm ← lift (take_data m);
  _ ← eff_iter (shard_record dm.2) dm.1;
  dest ← lift (destination dm.2 is_last_sharder_for_tag);
  _ ← ensure_packets dm.2 dest;
  if is_sharded then fail Unsupported
  else
    s ← get;
    eff_iter (send_sharded (λ tx, set_link {| link_src := index; link_dst := tx_node tx |}) replica)
      (imap pair (sh_txs s.1)).

(** Bitwise negation of a [usize]. *)
Definition usize_not (n : nat) : N := (2 ^ 64 - 1 - N.of_nat n)%N.

Definition evict_from (tag src : nat) (key : KeyComparison V) (shard : nat) : run () :=
  s ← get;
  tx ← lift (expect (sh_txs s.1 !! shard));
  let p := default (PEvictKeys {| link_src := src; link_dst := tx_node tx |} tag []) (sh_sharded s.1 !! shard) in
  match p with
  | PEvictKeys link tag keys => set_sharded <[shard := PEvictKeys link tag (keys ++ [key])]>
  | _ => _ ← set_sharded <[shard := p]>; lift Panic
  end.

Definition sharder_process_eviction (key_columns : list nat) (tag : nat) (keys : list (KeyComparison V))
    (src : nat) (is_sharded : bool) (replica : nat) : run () :=
  if is_sharded then fail Internal
  else
    s ← get;
    if decide (key_columns = [sh_shard_by s.1])
    then
      _ ← eff_iter (λ key,
            s ← get;
            shards ← lift (shard_keys shard_hash key (length (sh_txs s.1)));
            eff_iter (evict_from tag src key) shards) keys;
      eff_iter (send_sharded (λ _, Ok) replica) (imap pair (sh_txs s.1))
    else if decide (usize_not (length key_columns) ≠ 0%N) then fail Internal
    else if decide (sh_shard_by s.1 ∈ key_columns) then fail Internal
    else
      eff_iter (λ tx, tx_send tx (PEvictKeys {| link_src := src; link_dst := tx_node tx |} tag keys) replica) (sh_txs s.1).
End sharder.
