(* ===== verification/SharderProps.v ===== *)
(** * SharderProps: what every shard receives *)
From S2P Require Import Prelude Intervals Result Records Keys Effects Payload Sharder.
From stdpp Require Import gmap.

Section sharder_props.
Context `{DfVal V} (shard_hash : V → option N).
Implicit Types (m : Packet V) (s : Sharder V) (out : sends V) (r : Record V) (shape : list (Record V) → Packet V).

(** The packets with records, as functions of their records. *)
Inductive data_packet : (list (Record V) → Packet V) → Prop :=
  | dp_message link trace : data_packet (λ ds, PMessage link ds trace)
  | dp_replay link tag context : data_packet (λ ds, PReplayPiece link tag ds context).

Definition with_sharded s (g : gmap nat (Packet V)) : Sharder V :=
  {| sh_txs := sh_txs s; sh_sharded := g; sh_shard_by := sh_shard_by s |}.

(** The shard of a value, and of a record that has the column. *)
Definition shard_index s (v : V) : nat :=
  match shard_hash v with None => 0 | Some h => N.to_nat (h mod N.of_nat (length (sh_txs s))) end.
Definition record_shard s r : nat :=
  match rec r !! sh_shard_by s with Some v => shard_index s v | None => 0 end.
Definition records_of s (data : list (Record V)) (i : nat) : list (Record V) :=
  filter (λ r, record_shard s r = i) data.

Lemma shard_by_ok s v : sh_txs s ≠ [] →
  shard_by shard_hash v (length (sh_txs s)) = Ok (shard_index s v) ∧ shard_index s v < length (sh_txs s).
Proof.
  intros Hn. unfold shard_by, shard_index. destruct (sh_txs s) as [|tx txs]; [done|].
  destruct (shard_hash v) as [h|]; cbn [length]; [|split; [done|lia]].
  rewrite decide_False by lia. split; [done|].
  pose proof (N.mod_lt h (N.of_nat (S (length txs)))) as Hlt. lia.
Qed.

Lemma to_shard_ok s r : sh_txs s ≠ [] → sh_shard_by s < length (rec r) →
  to_shard shard_hash s r = Ok (record_shard s r) ∧ record_shard s r < length (sh_txs s).
Proof.
  intros Hn [v Hv]%lookup_lt_is_Some_2. unfold to_shard, record_shard, shard_of. rewrite Hv.
  cbn [expect mbind result_bind]. by apply shard_by_ok.
Qed.

(** ** Splitting the records *)
Definition pieces_of s shape (data : list (Record V)) (g : gmap nat (Packet V)) : Prop :=
  ∀ i, g !! i = match records_of s data i with [] => None | rs => Some (shape rs) end.

Lemma records_of_snoc s data r i :
  records_of s (data ++ [r]) i = records_of s data i ++ (if decide (record_shard s r = i) then [r] else []).
Proof. unfold records_of. by rewrite filter_app, filter_cons, filter_nil. Qed.

Lemma shard_record_ok s shape data r out : data_packet shape → sh_txs s ≠ [] → sh_shard_by s < length (rec r) →
  pieces_of s shape data (sh_sharded s) →
  ∃ g, shard_record shard_hash (shape []) r (s, out) = ((with_sharded s g, out), Ok ()) ∧
       pieces_of s shape (data ++ [r]) g.
Proof.
  intros Hshape Hn Hr Hg. destruct (to_shard_ok s r Hn Hr) as [Hto Hlt].
  set (i := record_shard s r) in *.
  exists (<[i := shape (records_of s data i ++ [r])]> (sh_sharded s)). split.
  - unfold shard_record, mbind, eff_bind, get, lift. cbn [fst snd]. rewrite Hto.
    unfold entry_or_clone, mbind, eff_bind, get, lift, mret, eff_ret. cbn [fst snd]. rewrite (Hg i).
    destruct Hshape; destruct (records_of s data i) as [|r0 rs]; cbn; unfold with_sharded, set_sharded, modify; simpl;
      by rewrite ?insert_insert_eq.
  - intros j. rewrite records_of_snoc. fold i. destruct (decide (j = i)) as [->|Hj].
    + rewrite lookup_insert_eq, decide_True by done. by destruct (records_of s data i).
    + rewrite lookup_insert_ne, decide_False, app_nil_r by congruence. apply Hg.
Qed.

Lemma shard_records_ok s shape data out : data_packet shape → sh_txs s ≠ [] → sh_sharded s = ∅ →
  Forall (λ r, sh_shard_by s < length (rec r)) data →
  ∃ g, eff_iter (shard_record shard_hash (shape [])) data (s, out) = ((with_sharded s g, out), Ok ()) ∧
       pieces_of s shape data g.
Proof.
  intros Hshape Hn He. induction data as [|r data IH] using rev_ind; intros Hd.
  - exists ∅. split; [|intros i; by rewrite lookup_empty]. unfold with_sharded. rewrite <-He. by destruct s.
  - apply Forall_app in Hd as [Hd Hr]. rewrite Forall_singleton in Hr. destruct (IH Hd) as (g & Hrun & Hg).
    destruct (shard_record_ok (with_sharded s g) shape data r out) as (g' & Hstep & Hg'); [done|exact Hn|exact Hr|exact Hg|].
    exists g'. split; [|exact Hg']. rewrite (eff_iter_app _ _ _ _ _ Hrun).
    by rewrite (eff_iter_cons _ _ _ _ _ Hstep).
Qed.

(** ** Making sure the destinations get a packet *)
Definition wanted s (dest : Destination) (data : list (Record V)) (i : nat) : bool :=
  match dest with
  | DestAll => bool_decide (i < length (sh_txs s))
  | DestOne shard => bool_decide (i = shard)
  | DestAny => match records_of s data i with [] => false | _ => true end
  end.
Definition ready_for s shape (dest : Destination) data (g : gmap nat (Packet V)) : Prop :=
  ∀ i, g !! i = if wanted s dest data i then Some (shape (records_of s data i)) else None.

Definition add_entry m (g : gmap nat (Packet V)) (i : nat) : gmap nat (Packet V) :=
  match g !! i with Some _ => g | None => <[i := m]> g end.

Lemma entry_or_clone_ok s shape out i : data_packet shape →
  entry_or_clone (shape []) i (s, out) =
  ((with_sharded s (add_entry (shape []) (sh_sharded s) i), out), Ok (default (shape []) (sh_sharded s !! i))).
Proof.
  intros Hshape. unfold entry_or_clone, add_entry, mbind, eff_bind, get. cbn [fst snd].
  destruct (sh_sharded s !! i) as [p|]; [by destruct s|]. by destruct Hshape.
Qed.

Lemma add_entry_lookup m g i j :
  add_entry m g i !! j = if decide (j = i) then Some (default m (g !! i)) else g !! j.
Proof.
  unfold add_entry. destruct (g !! i) as [p|] eqn:E; case_decide; subst; rewrite ?lookup_insert_eq, ?lookup_insert_ne by done;
    done || by rewrite E.
Qed.

Lemma add_entries_lookup m l g j :
  foldl (add_entry m) g l !! j = if decide (j ∈ l) then Some (default m (g !! j)) else g !! j.
Proof.
  revert g. induction l as [|i l IH]; intros g; cbn [foldl].
  - by rewrite decide_False by apply not_elem_of_nil.
  - rewrite IH, add_entry_lookup. destruct (decide (j = i)) as [->|Hj].
    + rewrite (decide_True (P := i ∈ i :: l)) by set_solver. by case_decide.
    + destruct (decide (j ∈ l)), (decide (j ∈ i :: l)); set_solver.
Qed.

Lemma records_of_outside s data i : sh_txs s ≠ [] → Forall (λ r, sh_shard_by s < length (rec r)) data →
  length (sh_txs s) ≤ i → records_of s data i = [].
Proof.
  intros Hn Hd Hi. apply filter_none. eapply Forall_impl; [exact Hd|]. intros r Hr <-.
  destruct (to_shard_ok s r Hn Hr). lia.
Qed.

Lemma pieces_default s shape data g i : pieces_of s shape data g →
  default (shape []) (g !! i) = shape (records_of s data i).
Proof. intros Hg. rewrite (Hg i). by destruct (records_of s data i). Qed.

Lemma ensure_all m l s out shape : data_packet shape → m = shape [] →
  eff_iter (λ shard, _ ← entry_or_clone m shard; mret ()) l (s, out) =
  ((with_sharded s (foldl (add_entry m) (sh_sharded s) l), out), Ok ()).
Proof.
  intros Hshape ->. revert s. induction l as [|i l IH]; intros s; [by destruct s|].
  erewrite eff_iter_cons by (by rewrite (bind_ok _ _ _ _ _ (entry_or_clone_ok s shape out i Hshape))).
  apply (IH (with_sharded s _)).
Qed.

Lemma ensure_packets_ok s shape data dest out :
  data_packet shape → sh_txs s ≠ [] → Forall (λ r, sh_shard_by s < length (rec r)) data →
  pieces_of s shape data (sh_sharded s) →
  ∃ g, ensure_packets (shape []) dest (s, out) = ((with_sharded s g, out), Ok ()) ∧ ready_for s shape dest data g.
Proof.
  intros Hshape Hn Hd Hg. destruct dest as [|shard|]; unfold ensure_packets.
  - eexists. split.
    + erewrite bind_ok by done. by apply (ensure_all _ _ _ _ shape).
    + intros i. rewrite add_entries_lookup, (pieces_default _ _ _ _ _ Hg). unfold wanted.
      case_decide as Hi; rewrite elem_of_seq in Hi; cbn [fst] in Hi.
      * by rewrite bool_decide_true by lia.
      * rewrite bool_decide_false by lia. rewrite (Hg i). by rewrite records_of_outside by (done || lia).
  - eexists. split.
    + by rewrite (bind_ok _ _ _ _ _ (entry_or_clone_ok s shape out shard Hshape)).
    + intros i. simpl. destruct (decide (i = shard)) as [->|Hi].
      * rewrite bool_decide_true by done. apply map_lookup_filter_Some. split; [|done].
        by rewrite add_entry_lookup, decide_True, (pieces_default _ _ _ _ _ Hg) by done.
      * rewrite bool_decide_false by done. apply map_lookup_filter_None. right. intros p _. done.
  - exists (sh_sharded s). split; [by destruct s|]. intros i. rewrite (Hg i). simpl. by destruct (records_of s data i).
Qed.

(** ** Sending *)
Definition replicas_ok (tx : SharderTx) m : Prop :=
  match tx_replication tx, replay_piece_context m with
  | RepFanout num_replicas, Some (RpPartial _ _ requesting_replica _) => requesting_replica < num_replicas
  | _, _ => True
  end.
Definition deliver (tx : SharderTx) m (replica : nat) : sends V :=
  match tx_replication tx, replay_piece_context m with
  | RepSame, _ | RepFanout _, Some (RpPartial _ _ _ _) => [(tx_address tx replica, m)]
  | RepFanout num_replicas, _ => (λ replica, (tx_address tx replica, m)) <$> seq 0 num_replicas
  end.

(** Where a packet has to go: to the replica of the sender if the destination is
    replicated like it, else a piece of a partial replay to the replica that asked for
    it, and anything else to all replicas. *)
Definition recipients (tx : SharderTx) m (replica : nat) : list nat :=
  match tx_replication tx, replay_piece_context m with
  | RepSame, _ => [replica]
  | RepFanout _, Some (RpPartial _ _ requesting_replica _) => [requesting_replica]
  | RepFanout num_replicas, _ => seq 0 num_replicas
  end.
(** A partial replay that is fanned out was asked for by the replica of the sender. *)
Definition asked_here (tx : SharderTx) m (replica : nat) : Prop :=
  match tx_replication tx, replay_piece_context m with
  | RepFanout num_replicas, Some (RpPartial _ _ requesting_replica _) => requesting_replica = replica ∧ replica < num_replicas
  | _, _ => True
  end.

Lemma asked_here_ok tx m replica : asked_here tx m replica → replicas_ok tx m.
Proof. unfold asked_here, replicas_ok. destruct (tx_replication tx), (replay_piece_context m) as [[]|]; naive_solver. Qed.
Lemma deliver_recipients tx m replica : asked_here tx m replica →
  deliver tx m replica = (λ to, (tx_address tx to, m)) <$> recipients tx m replica.
Proof.
  unfold asked_here, deliver, recipients. destruct (tx_replication tx), (replay_piece_context m) as [[]|]; try done.
  by intros [-> _].
Qed.

Lemma send_each s out (f : nat → ReplicaAddress) m l :
  eff_iter (λ replica, output_send (f replica) m) l (s, out) = ((s, out ++ ((λ replica, (f replica, m)) <$> l)), Ok ()).
Proof.
  revert out. induction l as [|x l IH]; intros out; [by rewrite app_nil_r|].
  erewrite eff_iter_cons by done. cbn [fst snd]. rewrite IH. by rewrite <-app_assoc.
Qed.

Lemma tx_send_ok tx m replica s out : replicas_ok tx m →
  tx_send tx m replica (s, out) = ((s, out ++ deliver tx m replica), Ok ()).
Proof.
  unfold replicas_ok, tx_send, deliver. destruct (tx_replication tx) as [|n]; [done|].
  destruct (replay_piece_context m) as [[]|]; intros Hr; [by rewrite decide_True|apply send_each|apply send_each].
Qed.

Definition sent_by (prepare : SharderTx → Packet V → result (Packet V)) (g : gmap nat (Packet V)) (replica : nat)
    (i_tx : nat * SharderTx) : sends V :=
  match g !! i_tx.1 with
  | Some m => match prepare i_tx.2 m with Ok m' => deliver i_tx.2 m' replica | _ => [] end
  | None => []
  end.

Lemma send_sharded_ok prepare replica l s out :
  NoDup l.*1 →
  (∀ i tx m, (i, tx) ∈ l → sh_sharded s !! i = Some m → ∃ m', prepare tx m = Ok m' ∧ replicas_ok tx m') →
  ∃ g, eff_iter (send_sharded prepare replica) l (s, out) =
    ((with_sharded s g, out ++ concat (sent_by prepare (sh_sharded s) replica <$> l)), Ok ()) ∧
    ∀ i, g !! i = if decide (i ∈ l.*1) then None else sh_sharded s !! i.
Proof.
  revert s out. induction l as [|[i tx] l IH]; intros s out Hnd Hok.
  - exists (sh_sharded s). split; [rewrite app_nil_r; by destruct s|]. intros i. by rewrite decide_False by apply not_elem_of_nil.
  - apply NoDup_cons in Hnd as [Hi Hnd]. cbn [fst] in Hi.
    set (s1 := with_sharded s (delete i (sh_sharded s))).
    assert (Hstep : send_sharded prepare replica (i, tx) (s, out) =
      ((s1, out ++ sent_by prepare (sh_sharded s) replica (i, tx)), Ok ())).
    { unfold send_sharded, sent_by. rewrite (bind_ok _ _ _ (s, out) (s, out)) by done. cbn [fst snd].
      destruct (sh_sharded s !! i) as [m|] eqn:Em.
      - destruct (Hok i tx m) as (m' & Hm' & Hr); [set_solver|done|].
        erewrite bind_ok by done. erewrite bind_ok by (unfold lift; by rewrite Hm'). rewrite Hm'.
        by apply (tx_send_ok tx m' replica s1 out).
      - rewrite app_nil_r. unfold s1, with_sharded. rewrite delete_id by done. by destruct s. }
    destruct (IH s1 (out ++ sent_by prepare (sh_sharded s) replica (i, tx))) as (g & Hrun & Hg); [done| |].
    { intros j tx' m Hin Hm. apply (Hok j tx' m); [set_solver|]. simpl in Hm.
      rewrite lookup_delete_ne in Hm; [done|]. intros <-. apply Hi. apply list_elem_of_fmap. by exists (i, tx'). }
    exists g. split.
    + etransitivity; [apply (eff_iter_cons _ _ _ _ _ Hstep)|]. etransitivity; [exact Hrun|]. unfold s1, with_sharded. cbn [sh_txs sh_shard_by sh_sharded].
      rewrite <-app_assoc. cbn [fmap list_fmap concat]. do 4 f_equal. f_equal.
      apply list_fmap_ext. intros k [j tx'] Hk. unfold sent_by. cbn [fst snd].
      rewrite lookup_delete_ne; [done|]. intros <-. apply Hi. apply list_elem_of_fmap. exists (i, tx').
      split; [done|]. by eapply list_elem_of_lookup_2.
    + intros j. rewrite Hg. unfold s1. cbn [sh_sharded with_sharded fmap list_fmap fst].
      destruct (decide (j = i)) as [->|Hj].
      * rewrite lookup_delete_eq. rewrite (decide_True (P := i ∈ i :: l.*1)) by set_solver. by case_decide.
      * rewrite lookup_delete_ne by done. destruct (decide (j ∈ l.*1)), (decide (j ∈ i :: l.*1)); set_solver.
Qed.

Lemma imap_pair_fst {A} (l : list A) : (imap pair l).*1 = seq 0 (length l).
Proof.
  apply list_eq. intros i. rewrite list_lookup_fmap, list_lookup_imap.
  destruct (l !! i) as [x|] eqn:E; simpl.
  - symmetry. apply lookup_seq. pose proof (lookup_lt_Some _ _ _ E). lia.
  - symmetry. apply lookup_seq_ge. by apply lookup_ge_None.
Qed.

Definition relink (index : nat) (tx : SharderTx) m : Packet V :=
  match set_link {| link_src := index; link_dst := tx_node tx |} m with Ok m' => m' | _ => m end.
Definition in_range_dest s (dest : Destination) : Prop :=
  match dest with DestOne shard => shard < length (sh_txs s) | _ => True end.

Lemma wanted_in_range s dest data i : sh_txs s ≠ [] → Forall (λ r, sh_shard_by s < length (rec r)) data →
  in_range_dest s dest → wanted s dest data i = true → i < length (sh_txs s).
Proof.
  intros Hn Hd Hr. destruct dest; simpl in *; try case_bool_decide; subst; try done.
  intros Hw. apply not_ge. intros Hi. by rewrite records_of_outside in Hw by (done || lia).
Qed.

(** All the records, shard by shard. *)
Lemma records_of_all s data : sh_txs s ≠ [] → Forall (λ r, sh_shard_by s < length (rec r)) data →
  concat (records_of s data <$> seq 0 (length (sh_txs s))) ≡ₚ data.
Proof.
  intros Hn. induction 1 as [|r data Hr Hd IH].
  - by induction (seq 0 _).
  - destruct (to_shard_ok s r Hn Hr) as [_ Hlt].
    assert (Hcons : ∀ i, records_of s (r :: data) i =
      if decide (record_shard s r = i) then r :: records_of s data i else records_of s data i)
      by (intros; unfold records_of; by rewrite filter_cons).
    assert (Hin : record_shard s r ∈ seq 0 (length (sh_txs s))) by (apply elem_of_seq; lia).
    apply list_elem_of_split in Hin as (l1 & l2 & Hl). pose proof (NoDup_seq 0 (length (sh_txs s))) as Hnd.
    transitivity (r :: concat (records_of s data <$> seq 0 (length (sh_txs s)))); [|by constructor].
    rewrite Hl in *. apply NoDup_app in Hnd as (_ & H1 & [H2 _]%NoDup_cons).
    rewrite !fmap_app, !concat_app, !fmap_cons. cbn [concat]. rewrite Hcons, decide_True by done.
    assert (Hother : ∀ l : list nat, record_shard s r ∉ l → records_of s (r :: data) <$> l = records_of s data <$> l).
    { intros l Hl'. apply list_fmap_ext. intros k j Hj. rewrite Hcons, decide_False; [done|].
      intros <-. apply Hl'. by eapply list_elem_of_lookup_2. }
    rewrite !Hother by set_solver. simpl. by rewrite <-Permutation_middle.
Qed.

Lemma sharder_process_ok s out shape data index is_last replica dest :
  data_packet shape → sh_txs s ≠ [] → sh_sharded s = ∅ → Forall (λ r, sh_shard_by s < length (rec r)) data →
  destination (shape []) is_last = Ok dest → in_range_dest s dest →
  Forall (λ tx, replicas_ok tx (shape [])) (sh_txs s) →
  sharder_process shard_hash (shape data) index false is_last replica (s, out) =
  ((s, out ++ concat (imap (λ i tx, if wanted s dest data i
                                    then deliver tx (relink index tx (shape (records_of s data i))) replica
                                    else []) (sh_txs s))), Ok ()).
Proof.
  intros Hshape Hn He Hd Hdest Hrange Hrep. unfold sharder_process.
  assert (Htake : lift (take_data (shape data)) (s, out) = ((s, out), Ok (data, shape []))) by (by destruct Hshape).
  rewrite (bind_ok _ _ _ _ _ Htake). cbn [fst snd].
  destruct (shard_records_ok s shape data out) as (g & Hrun & Hg); [done..|]. rewrite (bind_ok _ _ _ _ _ Hrun).
  erewrite bind_ok by (unfold lift; by rewrite Hdest).
  destruct (ensure_packets_ok (with_sharded s g) shape data dest out) as (g1 & Hrun1 & Hg1); [done|exact Hn|exact Hd|exact Hg|].
  rewrite (bind_ok _ _ _ _ _ Hrun1). rewrite (bind_ok _ _ _ (with_sharded (with_sharded s g) g1, out) (with_sharded (with_sharded s g) g1, out)) by done. cbn [fst].
  destruct (send_sharded_ok (λ tx, set_link {| link_src := index; link_dst := tx_node tx |}) replica
    (imap pair (sh_txs s)) (with_sharded s g1) out) as (g2 & Hrun2 & Hg2).
  { rewrite imap_pair_fst. apply NoDup_seq. }
  { intros i tx m Hin Hm. exists (relink index tx (shape (records_of s data i))).
    cbn [sh_sharded with_sharded] in Hm. rewrite (Hg1 i) in Hm. destruct (wanted _ _ _ _); [|done]. injection Hm as <-.
    assert (Htx : tx ∈ sh_txs s).
    { apply elem_of_lookup_imap in Hin as (j & y & [= -> ->] & Hy). by eapply list_elem_of_lookup_2. }
    pose proof (proj1 (Forall_forall _ _) Hrep tx Htx) as Hr. by destruct Hshape. }
  assert (g2 = ∅) as ->.
  { apply map_empty. intros i. rewrite Hg2, imap_pair_fst. case_decide as Hi; [done|]. cbn [sh_sharded with_sharded].
    rewrite (Hg1 i). destruct (wanted (with_sharded s g) dest data i) eqn:Hw; [|done].
    exfalso. apply Hi, elem_of_seq. pose proof (wanted_in_range s dest data i Hn Hd Hrange Hw). lia. }
  etransitivity; [exact Hrun2|]. unfold with_sharded. cbn [sh_txs sh_shard_by sh_sharded]. rewrite <-He, fmap_imap.
  assert (Himap : ∀ f g : nat → SharderTx → sends V, (∀ i tx, f i tx = g i tx) → imap f (sh_txs s) = imap g (sh_txs s))
    by (intros; apply imap_ext; auto).
  erewrite (Himap _ _); [by destruct s|]. intros i tx. unfold sent_by. cbn [compose fst snd]. rewrite (Hg1 i).
  unfold wanted, records_of, record_shard, shard_index. cbn [sh_txs sh_shard_by with_sharded].
  match goal with |- context [if ?b then Some _ else None] => destruct b end; [|done].
  unfold relink. by destruct Hshape.
Qed.

(** ** Evictions *)
Definition targets s (i : nat) (key : KeyComparison V) : Prop :=
  match key with KEqual (v :: _) => shard_index s v = i | KEqual [] => False | KRange _ => i < length (sh_txs s) end.
#[local] Instance targets_dec s i key : Decision (targets s i key).
Proof. destruct key as [[|]|]; simpl; apply _. Defined.
Definition evicts_of s (keys : list (KeyComparison V)) (i : nat) : list (KeyComparison V) := filter (targets s i) keys.
Definition eviction s (tag src i : nat) (ks : list (KeyComparison V)) : option (Packet V) :=
  match ks, sh_txs s !! i with
  | _ :: _, Some tx => Some (PEvictKeys {| link_src := src; link_dst := tx_node tx |} tag ks)
  | _, _ => None
  end.

Lemma evict_from_ok s out tag src key i ks : i < length (sh_txs s) → sh_sharded s !! i = eviction s tag src i ks →
  ∃ g, evict_from tag src key i (s, out) = ((with_sharded s g, out), Ok ()) ∧
    g !! i = eviction s tag src i (ks ++ [key]) ∧ ∀ j, j ≠ i → g !! j = sh_sharded s !! j.
Proof.
  intros [tx Htx]%lookup_lt_is_Some_2 Hi. unfold eviction in *. rewrite Htx in *.
  exists (<[i := PEvictKeys {| link_src := src; link_dst := tx_node tx |} tag (ks ++ [key])]> (sh_sharded s)).
  split_and!.
  - unfold evict_from. erewrite bind_ok by done. erewrite bind_ok by (unfold lift; cbn [fst]; by rewrite Htx).
    cbn [fst]. rewrite Hi. by destruct ks.
  - rewrite lookup_insert_eq. by destruct ks.
  - intros j Hj. by rewrite lookup_insert_ne.
Qed.

Lemma evict_from_all s out tag src key l (ks : nat → list (KeyComparison V)) :
  NoDup l → (∀ i, i ∈ l → i < length (sh_txs s)) → (∀ i, sh_sharded s !! i = eviction s tag src i (ks i)) →
  ∃ g, eff_iter (evict_from tag src key) l (s, out) = ((with_sharded s g, out), Ok ()) ∧
    ∀ i, g !! i = eviction s tag src i (if decide (i ∈ l) then ks i ++ [key] else ks i).
Proof.
  intros Hnd Hlt Hg. induction l as [|i l IH] using rev_ind.
  - exists (sh_sharded s). split; [by destruct s|]. intros i. by rewrite decide_False by apply not_elem_of_nil.
  - apply NoDup_app in Hnd as (Hnd & Hi & _).
    destruct IH as (g & Hrun & Hgi); [done|intros j Hj; apply Hlt; set_solver|].
    destruct (evict_from_ok (with_sharded s g) out tag src key i (ks i)) as (g' & Hstep & Hi' & Hj).
    { apply Hlt. set_solver. }
    { cbn [sh_sharded with_sharded]. rewrite Hgi, decide_False by set_solver. done. }
    exists g'. split.
    + rewrite (eff_iter_app _ _ _ _ _ Hrun). by rewrite (eff_iter_cons _ _ _ _ _ Hstep).
    + intros j. destruct (decide (j = i)) as [->|Hne].
      * rewrite decide_True by set_solver. exact Hi'.
      * rewrite (Hj j Hne). cbn [sh_sharded with_sharded]. rewrite Hgi.
        destruct (decide (j ∈ l)), (decide (j ∈ l ++ [i])); set_solver.
Qed.

(** The shards a key goes to. *)
Lemma shard_keys_ok s key : sh_txs s ≠ [] → key ≠ KEqual [] →
  ∃ l, shard_keys shard_hash key (length (sh_txs s)) = Ok l ∧ NoDup l ∧ ∀ i, i ∈ l ↔ targets s i key.
Proof.
  intros Hn Hk. unfold shard_keys, shard_keys_at. destruct key as [[|v k]|r]; [done| |].
  - destruct (shard_by_ok s v Hn) as [Hs Hlt]. exists [shard_index s v]. split_and!.
    + cbn [lookup list_lookup expect mbind result_bind]. by rewrite Hs.
    + apply NoDup_singleton.
    + intros i. rewrite list_elem_of_singleton. simpl. split; congruence.
  - exists (seq 0 (length (sh_txs s))). split_and!; [done|apply NoDup_seq|]. intros i. rewrite elem_of_seq. simpl. lia.
Qed.

Lemma targets_lt s i key : sh_txs s ≠ [] → targets s i key → i < length (sh_txs s).
Proof. intros Hn. destruct key as [[|v k]|r]; simpl; [done| |done]. intros <-. by apply shard_by_ok. Qed.

Lemma evict_keys_loop s out tag src keys :
  sh_txs s ≠ [] → sh_sharded s = ∅ → Forall (λ key, key ≠ KEqual []) keys →
  ∃ g, eff_iter (λ key,
      s ← get; shards ← lift (shard_keys shard_hash key (length (sh_txs s.1))); eff_iter (evict_from tag src key) shards)
      keys (s, out) = ((with_sharded s g, out), Ok ()) ∧
    ∀ i, g !! i = eviction s tag src i (evicts_of s keys i).
Proof.
  intros Hn He. induction keys as [|key keys IH] using rev_ind; intros Hk.
  - exists ∅. split; [|intros i; by rewrite lookup_empty]. unfold with_sharded. rewrite <-He. by destruct s.
  - apply Forall_app in Hk as [Hk Hkey]. rewrite Forall_singleton in Hkey. destruct (IH Hk) as (g & Hrun & Hg).
    destruct (shard_keys_ok s key Hn Hkey) as (l & Hl & Hnd & Hin).
    destruct (evict_from_all (with_sharded s g) out tag src key l (evicts_of s keys)) as (g' & Hstep & Hg'); [done| |exact Hg|].
    { intros i Hi. apply (targets_lt s i key Hn). by apply Hin. }
    exists g'. split.
    + rewrite (eff_iter_app _ _ _ _ _ Hrun). erewrite eff_iter_cons; [done|].
      erewrite bind_ok by done. erewrite bind_ok by (unfold lift; cbn [fst sh_txs with_sharded]; by rewrite Hl). exact Hstep.
    + intros i. rewrite Hg'. unfold evicts_of. rewrite filter_app, filter_cons, filter_nil.
      unfold eviction. cbn [sh_txs with_sharded].
      destruct (decide (i ∈ l)) as [Hi|Hi], (decide (targets s i key)) as [Ht|Ht]; rewrite ?app_nil_r; try done;
        by apply Hin in Ht || by apply Hin in Hi.
Qed.

Lemma sharder_evicts_ok s out tag keys src replica :
  sh_txs s ≠ [] → sh_sharded s = ∅ → Forall (λ key, key ≠ KEqual []) keys →
  sharder_process_eviction shard_hash [sh_shard_by s] tag keys src false replica (s, out) =
  ((s, out ++ concat (imap (λ i tx,
      match evicts_of s keys i with
      | [] => []
      | ks => deliver tx (PEvictKeys {| link_src := src; link_dst := tx_node tx |} tag ks) replica
      end) (sh_txs s))), Ok ()).
Proof.
  intros Hn He Hk. unfold sharder_process_eviction. rewrite (bind_ok _ _ _ (s, out) (s, out)) by done. cbn [fst].
  rewrite decide_True by done. destruct (evict_keys_loop s out tag src keys) as (g & Hrun & Hg); [done..|].
  rewrite (bind_ok _ _ _ _ _ Hrun).
  destruct (send_sharded_ok (λ _, Ok) replica (imap pair (sh_txs s)) (with_sharded s g) out) as (g2 & Hrun2 & Hg2).
  { rewrite imap_pair_fst. apply NoDup_seq. }
  { intros i tx m _ Hm. exists m. split; [done|]. cbn [sh_sharded with_sharded] in Hm. rewrite Hg in Hm.
    unfold eviction in Hm. destruct (evicts_of s keys i), (sh_txs s !! i); try done. injection Hm as <-.
    unfold replicas_ok. by destruct (tx_replication tx). }
  assert (g2 = ∅) as ->.
  { apply map_empty. intros i. rewrite Hg2, imap_pair_fst. case_decide as Hi; [done|]. cbn [sh_sharded with_sharded].
    rewrite Hg. unfold eviction. rewrite (lookup_ge_None_2 (sh_txs s) i); [by destruct (evicts_of s keys i)|].
    rewrite elem_of_seq in Hi. lia. }
  etransitivity; [exact Hrun2|]. unfold with_sharded. cbn [sh_txs sh_shard_by sh_sharded]. rewrite <-He, fmap_imap.
  erewrite (imap_ext _ _ (sh_txs s)); [by destruct s|]. intros i tx Htx. unfold sent_by. cbn [compose fst snd]. rewrite Hg.
  unfold eviction. rewrite Htx. by destruct (evicts_of s keys i).
Qed.

Lemma evicts_of_contains s keys key v : key ∈ keys → kc_contains key [v] = true → sh_txs s ≠ [] →
  key ∈ evicts_of s keys (shard_index s v).
Proof.
  intros Hin Hc Hn. apply list_elem_of_filter. split; [|done]. destruct key as [k|r]; simpl in *.
  - destruct (cmp [v] k) eqn:E; try done. by apply cmp_eq_iff in E as <-.
  - by apply shard_by_ok.
Qed.
End sharder_props.

Section sharder_theorems.
Context `{DfVal V} (shard_hash : V → option N).
Implicit Types (s : Sharder V) (out : sends V) (shape : list (Record V) → Packet V).

(** C27: A sharder splits a packet completely.  Every record is in the part of exactly
    one shard; an update goes to the shards with records, the last piece of a
    full replay and a partial replay on its way to a shard merger go to all
    shards, a partial replay whose target is sharded only to the shard that asked
    for it.  Each shard gets one packet with its records in order, sent to the
    replica of the sender, to all replicas, or for a partial replay to the replica
    that asked for it, which has to be that of the sender if there are several; the
    sharder keeps nothing. *)
Theorem sharder_splits s out shape data index is_last replica dest :
  data_packet shape → sh_txs s ≠ [] → sh_sharded s = ∅ → Forall (λ r, sh_shard_by s < length (rec r)) data →
  destination (shape []) is_last = Ok dest → in_range_dest s dest →
  Forall (λ tx, asked_here tx (shape []) replica) (sh_txs s) →
  sharder_process shard_hash (shape data) index false is_last replica (s, out) =
    ((s, out ++ concat (imap (λ i tx,
        if wanted shard_hash s dest data i then
          let m := relink index tx (shape (records_of shard_hash s data i)) in
          (λ to, (tx_address tx to, m)) <$> recipients tx m replica
        else []) (sh_txs s))), Ok ()) ∧
  concat (records_of shard_hash s data <$> seq 0 (length (sh_txs s))) ≡ₚ data.
Proof.
  intros Hshape Hne Hsh Hd Hdest Hrange Hasked. split; [|by apply records_of_all].
  rewrite (sharder_process_ok shard_hash s out shape data index is_last replica dest); try done.
  2: { eapply Forall_impl; [exact Hasked|]. intros tx. apply asked_here_ok. }
  do 4 f_equal. apply imap_ext. intros i tx Htx. destruct (wanted shard_hash s dest data i); [|done].
  apply deliver_recipients. rewrite Forall_forall in Hasked.
  specialize (Hasked tx (list_elem_of_lookup_2 _ _ _ Htx)). by destruct Hshape.
Qed.

(** Evictions by the sharding column reach the records.  Each shard is sent the
    keys that can match a row it holds, in order, and no shard is sent nothing;
    a row is held by the shard of its value, which is sent every key that
    contains the value. *)
Theorem sharder_evicts s out tag keys src replica :
  sh_txs s ≠ [] → sh_sharded s = ∅ → Forall (λ key, key ≠ KEqual []) keys →
  sharder_process_eviction shard_hash [sh_shard_by s] tag keys src false replica (s, out) =
    ((s, out ++ concat (imap (λ i tx,
        match evicts_of shard_hash s keys i with
        | [] => []
        | ks => deliver tx (PEvictKeys {| link_src := src; link_dst := tx_node tx |} tag ks) replica
        end) (sh_txs s))), Ok ()) ∧
  ∀ r v key, rec r !! sh_shard_by s = Some v → key ∈ keys → kc_contains key [v] = true →
    key ∈ evicts_of shard_hash s keys (record_shard shard_hash s r).
Proof.
  intros. split; [by apply sharder_evicts_ok|]. intros r v key Hv Hk Hc. unfold record_shard. rewrite Hv.
  by apply evicts_of_contains.
Qed.

(** An eviction by any other columns fails and reaches no shard: the check that
    the key has columns negates the bits of their number. *)
Theorem sharder_eviction_other_columns s out key_columns tag keys src replica :
  key_columns ≠ [sh_shard_by s] → (N.of_nat (length key_columns) < 2 ^ 64 - 1)%N →
  sharder_process_eviction shard_hash key_columns tag keys src false replica (s, out) = ((s, out), Err Internal).
Proof.
  intros Hne Hlt. unfold sharder_process_eviction. rewrite (bind_ok _ _ _ (s, out) (s, out)) by done. cbn [fst].
  rewrite decide_False by done. rewrite decide_True; [done|]. unfold usize_not. lia.
Qed.
End sharder_theorems.

(** ** Examples *)
Definition sample_shard_hash (v : SampleVal) : option N := match v with SInt z => Some (Z.to_N z) | _ => None end.
Definition sample_tx (replication : SenderReplication) (i : nat) : SharderTx :=
  {| tx_node := 3; tx_domain_index := 9; tx_shard := i; tx_replication := replication |}.
Definition sample_sharder (replication : SenderReplication) : Sharder SampleVal :=
  {| sh_txs := sample_tx replication <$> seq 0 2; sh_sharded := ∅; sh_shard_by := 0 |}.
Definition no_link : Link := {| link_src := 0; link_dst := 0 |}.
Definition sample_records : list (Record SampleVal) :=
  [Positive [SInt 4; SInt 7]; Positive [SInt 5; SInt 8]; Negative [SNone; SInt 9]].

Lemma sharder_splits_witness :
  sharder_process sample_shard_hash (PMessage no_link sample_records None) 2 false None 0 (sample_sharder (RepFanout 2), []) =
    ((sample_sharder (RepFanout 2),
      [({| ra_domain_index := 9; ra_shard := 0; ra_replica := 0 |},
        PMessage {| link_src := 2; link_dst := 3 |} [Positive [SInt 4; SInt 7]; Negative [SNone; SInt 9]] None);
       ({| ra_domain_index := 9; ra_shard := 0; ra_replica := 1 |},
        PMessage {| link_src := 2; link_dst := 3 |} [Positive [SInt 4; SInt 7]; Negative [SNone; SInt 9]] None);
       ({| ra_domain_index := 9; ra_shard := 1; ra_replica := 0 |},
        PMessage {| link_src := 2; link_dst := 3 |} [Positive [SInt 5; SInt 8]] None);
       ({| ra_domain_index := 9; ra_shard := 1; ra_replica := 1 |},
        PMessage {| link_src := 2; link_dst := 3 |} [Positive [SInt 5; SInt 8]] None)]), Ok ()).
Proof.
  apply (sharder_splits sample_shard_hash (sample_sharder (RepFanout 2)) [] (λ ds, PMessage no_link ds None) sample_records
    2 None 0 DestAny); try done; [constructor|repeat constructor; simpl; lia|repeat constructor].
Defined.

Lemma sharder_evicts_witness :
  sharder_process_eviction sample_shard_hash [0] 1 [KEqual [SInt 5]; KRange (Unbounded, Unbounded)] 2 false 0
    (sample_sharder RepSame, []) =
    ((sample_sharder RepSame,
      [({| ra_domain_index := 9; ra_shard := 0; ra_replica := 0 |},
        PEvictKeys {| link_src := 2; link_dst := 3 |} 1 [KRange (Unbounded, Unbounded)]);
       ({| ra_domain_index := 9; ra_shard := 1; ra_replica := 0 |},
        PEvictKeys {| link_src := 2; link_dst := 3 |} 1 [KEqual [SInt 5]; KRange (Unbounded, Unbounded)])]), Ok ()).
Proof.
  apply (sharder_evicts sample_shard_hash (sample_sharder RepSame) [] 1 [KEqual [SInt 5]; KRange (Unbounded, Unbounded)] 2 0);
    try done. repeat constructor; done.
Defined.

Lemma sharder_eviction_other_columns_witness :
  sharder_process_eviction sample_shard_hash [0; 1] 1 [KEqual [SInt 5; SInt 6]] 2 false 0 (sample_sharder RepSame, []) =
    ((sample_sharder RepSame, []), Err Internal).
Proof. apply sharder_eviction_other_columns; [done|]. simpl. lia. Defined.

(** A partial replay that replica 1 asked for is sent to the replica the sharder
    runs on. *)
Theorem sharder_replay_replica :
  let replay := PReplayPiece no_link 4 [Positive [SInt 4; SInt 7]] (RpPartial [KEqual [SInt 4]] 0 1 false) in
  (sharder_process sample_shard_hash replay 2 false (Some true) 0 (sample_sharder (RepFanout 2), [])).1.2.*1 =
  [{| ra_domain_index := 9; ra_shard := 0; ra_replica := 0 |}].
Proof. vm_compute. done. Qed.
