(* ===== verification/Egress.v ===== *)
(** * Egress: sending packets to other domains

    Models [readyset-dataflow/src/node/special/egress.rs], without its counters.
    An egress node sends updates to the ingress nodes of all its target domains
    and replays and evictions only along their path, through the packet filter.

    The packets an egress node processes project to one trace per target; the
    filter's invariant for every target is kept, so updates reach every target
    that holds their keys. *)
From S2P Require Import Prelude Intervals Result Records Keys Processing Batches Effects Payload PacketFilter.
From stdpp Require Import gmap.

Record EgressTx := {
  etx_node : nat;
  etx_local : nat;
  etx_domain_index : nat;
  etx_shard : nat;
  etx_replication : SenderReplication;
}.

Record Egress (V : Type) := {
  eg_txs : list EgressTx;
  eg_tags : gmap nat nat;
  eg_filter : PacketFilter V;
}.
Arguments eg_txs {V}.
Arguments eg_tags {V}.
Arguments eg_filter {V}.

Section egress.
Context `{DfVal V}.
Implicit Types (m : Packet V) (e : Egress V).

Definition egress_default : Egress V := {| eg_txs := []; eg_tags := ∅; eg_filter := filter_default |}.
Definition add_tx (tx : EgressTx) e : Egress V :=
  {| eg_txs := eg_txs e ++ [tx]; eg_tags := eg_tags e; eg_filter := eg_filter e |}.
Definition egress_add_for_filtering (target : nat) e : Egress V :=
  {| eg_txs := eg_txs e; eg_tags := eg_tags e; eg_filter := add_for_filtering target (eg_filter e) |}.
Definition add_tag (tag dst : nat) e : Egress V :=
  {| eg_txs := eg_txs e; eg_tags := <[tag := dst]> (eg_tags e); eg_filter := eg_filter e |}.

(** The loop over the targets runs on the filter and the packets sent. *)
Abbreviation run := (eff (PacketFilter V * sends V)).

Definition etx_address (tx : EgressTx) (replica : nat) : ReplicaAddress :=
  {| ra_domain_index := etx_domain_index tx; ra_shard := etx_shard tx; ra_replica := replica |}.
Definition egress_send (dest : ReplicaAddress) m : run () := modify (λ s, (s.1, s.2 ++ [(dest, m)])).

(** [match tx.replication]. *)
Definition etx_send (tx : EgressTx) m (replica : nat) : run () :=
  match etx_replication tx with
  | RepSame => egress_send (etx_address tx replica) m
  | RepFanout num_replicas =>
      match replay_piece_context m with
      | Some (RpPartial _ _ requesting_replica _) =>
          if decide (requesting_replica < num_replicas)
          then egress_send (etx_address tx requesting_replica) m
          else fail Internal
      | _ => eff_iter (λ replica, egress_send (etx_address tx replica) m) (seq 0 num_replicas)
      end
  end.

(** A call of the packet filter. *)
Definition through_filter m (keyed_by : option (list nat)) (target : nat) : run (Packet V * bool) :=
  s ← get;
  r ← lift (filter_process s.1 m keyed_by target);
  _ ← modify (λ s, (r.1.1, s.2));
  mret (r.1.2, r.2).

(** The packet a target is sent: the message itself, which leaves [None], or a copy. *)
Definition pick (take : bool) (message : option (Packet V)) : result (Packet V * option (Packet V)) :=
  m ← expect message;
  if take then Ok (m, None) else c ← clone_data m; Ok (c, message).

Fixpoint egress_loop (keyed_by : option (list nat)) (shard replica : nat) (replay_to : option nat)
    (txs : list EgressTx) (message : option (Packet V)) : run () :=
  match txs with
  | [] => mret ()
  | tx :: rest =>
      let forward (take : bool) : run () :=
        mm ← lift (pick take message);
        m ← lift (set_link {| link_src := shard; link_dst := etx_local tx |} mm.1);
        r ← through_filter m keyed_by (etx_node tx);
        if (r.2 : bool)
        then
          _ ← etx_send tx r.1 replica;
          if take then mret () else egress_loop keyed_by shard replica replay_to rest mm.2
        else egress_loop keyed_by shard replica replay_to rest mm.2 in
      match replay_to with
      | Some to =>
          if decide (to = etx_node tx) then forward true
          else egress_loop keyed_by shard replica replay_to rest message
      | None => forward match rest with [] => true | _ => false end
      end
  end.

Definition replay_target e m : result (option nat) :=
  match packet_tag m with
  | Some tag => match eg_tags e !! tag with Some to => Ok (Some to) | None => Err Internal end
  | None => Ok None
  end.

(** [process]; the message is taken from the caller. *)
Definition egress_process (message : Packet V) (keyed_by : option (list nat)) (shard replica : nat) :
    eff (Egress V * sends V) () := λ s,
  let e := s.1 in
  match eg_txs e with
  | [] => (s, Err Internal)
  | _ =>
      match replay_target e message with
      | Ok replay_to =>
          let '((f, out), r) := egress_loop keyed_by shard replica replay_to (eg_txs e) (Some message) (eg_filter e, s.2) in
          (({| eg_txs := eg_txs e; eg_tags := eg_tags e; eg_filter := f |}, out), r)
      | Err x => (s, Err x)
      | Panic => (s, Panic)
      end
  end.
End egress.

(** * Properties *)
Section egress_props.
Context `{DfVal V}.
Implicit Types (m p : Packet V) (f : PacketFilter V) (out : sends V) (tx : EgressTx) (ev : Packet V * list nat).

Definition ereplicas_ok tx m : Prop :=
  match etx_replication tx, replay_piece_context m with
  | RepFanout num_replicas, Some (RpPartial _ _ requesting_replica _) => requesting_replica < num_replicas
  | _, _ => True
  end.
(** Where a target's packet goes: replicas follow the replica of the sender or
    all get it, except that a partial replay goes to the replica that asked. *)
Definition edeliver tx m (replica : nat) : sends V :=
  match etx_replication tx, replay_piece_context m with
  | RepSame, _ => [(etx_address tx replica, m)]
  | RepFanout _, Some (RpPartial _ _ requesting_replica _) => [(etx_address tx requesting_replica, m)]
  | RepFanout num_replicas, _ => (λ replica, (etx_address tx replica, m)) <$> seq 0 num_replicas
  end.

Lemma egress_send_each f out (g : nat → ReplicaAddress) m l :
  eff_iter (λ replica, egress_send (g replica) m) l (f, out) = ((f, out ++ ((λ replica, (g replica, m)) <$> l)), Ok ()).
Proof.
  revert out. induction l as [|x l IH]; intros out; [by rewrite app_nil_r|].
  erewrite eff_iter_cons by done. cbn [fst snd]. rewrite IH. by rewrite <-app_assoc.
Qed.

Lemma etx_send_ok tx m replica f out : ereplicas_ok tx m →
  etx_send tx m replica (f, out) = ((f, out ++ edeliver tx m replica), Ok ()).
Proof.
  unfold ereplicas_ok, etx_send, edeliver. destruct (etx_replication tx) as [|n]; [done|].
  destruct (replay_piece_context m) as [[]|]; intros Hr;
    [by rewrite decide_True|apply egress_send_each|apply egress_send_each].
Qed.

Definition stamped (shard : nat) tx m : Packet V :=
  match set_link {| link_src := shard; link_dst := etx_local tx |} m with Ok m' => m' | _ => m end.
(** The packets an egress node can be given. *)
Definition egress_packet m : Prop :=
  match m with
  | PMessage _ _ _ | PReplayPiece _ _ _ _ | PEvictKeys _ _ _ | PTimestamp (Some _) _ _ => True
  | _ => False
  end.

Lemma stamped_ok shard tx m : egress_packet m →
  set_link {| link_src := shard; link_dst := etx_local tx |} m = Ok (stamped shard tx m).
Proof. by destruct m as [| | | | | | | | |[] ? ?]. Qed.

Lemma through_filter_ok f out m kb target f' m' b : filter_process f m kb target = Ok (f', m', b) →
  through_filter m kb target (f, out) = ((f', out), Ok (m', b)).
Proof.
  intros Hf. unfold through_filter. erewrite bind_ok by done.
  erewrite bind_ok by (unfold lift; cbn [fst]; by rewrite Hf). by erewrite bind_ok by done.
Qed.

(** ** Updates go to all targets *)
Definition forwarded f kb shard replica m tx : sends V :=
  match filter_process f (stamped shard tx m) kb (etx_node tx) with
  | Ok (_, m', true) => edeliver tx m' replica
  | _ => []
  end.

Lemma loop_untagged f kb shard replica m txs out :
  egress_packet m → packet_tag m = None →
  (∀ tx, tx ∈ txs → ∃ m' b, filter_process f (stamped shard tx m) kb (etx_node tx) = Ok (f, m', b) ∧ ereplicas_ok tx m') →
  egress_loop kb shard replica None txs (Some m) (f, out) =
  ((f, out ++ concat (forwarded f kb shard replica m <$> txs)), Ok ()).
Proof.
  intros Hm Ht. revert out. induction txs as [|tx txs IH]; intros out Hf; [by rewrite app_nil_r|].
  destruct (Hf tx) as (m' & b & Hb & Hr); [set_solver|]. cbn [egress_loop].
  set (take := match txs with [] => true | _ => false end).
  assert (Hpick : pick take (Some m) = Ok (m, if take then None else Some m)).
  { unfold pick. cbn [expect mbind result_bind]. destruct take; [done|].
    by destruct m as [| | | | | | | | |[] ? ?]. }
  erewrite bind_ok by (unfold lift; by rewrite Hpick). cbn [fst snd].
  erewrite bind_ok by (unfold lift; by rewrite stamped_ok).
  rewrite (bind_ok _ _ _ _ _ (through_filter_ok _ out _ _ _ _ _ _ Hb)). cbn [fst snd].
  assert (Hrest : ∀ out', (if take then txs = [] else True) →
    egress_loop kb shard replica None txs (if take then None else Some m) (f, out') =
    ((f, out' ++ concat (forwarded f kb shard replica m <$> txs)), Ok ())).
  { intros out' Htake. destruct take eqn:Et.
    - rewrite Htake. by rewrite app_nil_r.
    - apply IH. intros tx' Htx'. apply Hf. set_solver. }
  assert (Htake : if take then txs = [] else True) by (unfold take; by destruct txs).
  cbn [fmap list_fmap concat]. unfold forwarded at 1. rewrite Hb. destruct b.
  - rewrite (bind_ok _ _ _ _ _ (etx_send_ok tx m' replica f out Hr)). rewrite app_assoc. destruct take eqn:Et.
    + rewrite Htake. by rewrite app_nil_r.
    + by apply Hrest.
  - by apply Hrest.
Qed.

(** ** Replays and evictions go along their path *)
Lemma loop_tagged f kb shard replica m txs out to f' :
  egress_packet m → (∀ tx, tx ∈ txs → ereplicas_ok tx m) →
  (∀ tx, tx ∈ txs → filter_process f (stamped shard tx m) kb to = Ok (f', stamped shard tx m, true)) →
  egress_loop kb shard replica (Some to) txs (Some m) (f, out) =
  match list_find (λ tx, etx_node tx = to) txs with
  | Some (_, tx) => ((f', out ++ edeliver tx (stamped shard tx m) replica), Ok ())
  | None => ((f, out), Ok ())
  end.
Proof.
  intros Hm Hr Hf. induction txs as [|tx txs IH]; [done|]. cbn [egress_loop list_find].
  destruct (decide (to = etx_node tx)) as [->|Hne].
  - rewrite (decide_True (P := etx_node tx = etx_node tx)) by done.
    erewrite bind_ok by done. cbn [fst snd]. erewrite bind_ok by (unfold lift; by rewrite stamped_ok).
    rewrite (bind_ok _ _ _ _ _ (through_filter_ok _ out _ _ _ _ _ _ (Hf tx (elem_of_here _ _)))). cbn [fst snd].
    assert (Hr' : ereplicas_ok tx (stamped shard tx m)).
    { specialize (Hr tx (elem_of_here _ _)). clear -Hr Hm. by destruct m as [| | | | | | | | |[] ? ?]. }
    by rewrite (bind_ok _ _ _ _ _ (etx_send_ok tx _ replica f' out Hr')).
  - rewrite decide_False by congruence. rewrite IH.
    + by destruct (list_find _ txs) as [[]|].
    + intros tx' Htx'. apply Hr. set_solver.
    + intros tx' Htx'. apply Hf. set_solver.
Qed.
End egress_props.

(** ** Traces through an egress node *)
Section egress_traces.
Context `{DfVal V} (txs : list EgressTx) (tags : gmap nat nat) (filtered : list nat) (shard replica : nat).
Implicit Types (m p : Packet V) (f : PacketFilter V) (out : sends V) (tx : EgressTx).
Implicit Types (ev : Packet V * list nat) (trace : list (Packet V * list nat)).

Definition with_filter f : Egress V := {| eg_txs := txs; eg_tags := tags; eg_filter := f |}.
Definition initial_filter : PacketFilter V := foldl (λ f n, add_for_filtering n f) filter_default filtered.

(** What a target sees of a trace: untagged packets and those of its paths. *)
Definition event_for (n : nat) ev : Prop :=
  match packet_tag ev.1 with None => True | Some tag => tags !! tag = Some n end.
#[export] Instance event_for_dec n ev : Decision (event_for n ev).
Proof. unfold event_for. destruct (packet_tag ev.1); apply _. Defined.
Definition project (n : nat) trace : list (Packet V * list nat) := filter (event_for n) trace.

Record egress_trace trace : Prop := {
  et_packet : ∀ ev, ev ∈ trace → egress_packet ev.1;
  et_tags : ∀ ev tag, ev ∈ trace → packet_tag ev.1 = Some tag → ∃ tx, tx ∈ txs ∧ tags !! tag = Some (etx_node tx);
  et_replicas : ∀ ev tx, ev ∈ trace → tx ∈ txs → ereplicas_ok tx ev.1;
  et_fits : ∀ n, n ∈ filtered → trace_fits (project n trace) ∧ own_evictions (project n trace);
}.
Definition egress_inv trace f : Prop :=
  (∀ n, n ∈ filtered → ∃ keys, filter_inv n (project n trace) f keys) ∧
  (∀ n, n ∉ filtered → requested_keys f !! n = None).

Lemma project_snoc n trace ev :
  project n (trace ++ [ev]) = project n trace ++ (if decide (event_for n ev) then [ev] else []).
Proof. unfold project. by rewrite filter_app, filter_cons, filter_nil. Qed.

Lemma egress_trace_app trace ev : egress_trace (trace ++ [ev]) → egress_trace trace.
Proof.
  intros [H1 H2 H3 H4]. split.
  - intros ev' Hev'. apply H1. set_solver.
  - intros ev' tag Hev'. apply H2. set_solver.
  - intros ev' tx Hev'. apply H3. set_solver.
  - intros n Hn. destruct (H4 n Hn) as [Hf Ho]. rewrite project_snoc in Hf, Ho. case_decide.
    + split; [by eapply trace_fits_app|]. intros e e' k k' He He'. apply Ho; set_solver.
    + by rewrite app_nil_r in Hf, Ho.
Qed.

Lemma filter_process_other f p kb n f' p' b n' : filter_process f p kb n = Ok (f', p', b) → n' ≠ n →
  requested_keys f' !! n' = requested_keys f !! n'.
Proof.
  unfold filter_process. destruct (requested_keys f !! n) as [nk|] eqn:En; [|by intros [= <-]].
  destruct p as [|link data tr|? ? ? []| |? ? ks| | | | |]; try (by intros [= <-]).
  - case_decide; [by intros [= <-]|]. destruct (retainM _ data); [|done|done]. by intros [= <-].
  - destruct kb; [|done]. intros [= <-] Hne. unfold add_keys. rewrite En. cbn [requested_keys].
    by rewrite lookup_insert_ne.
  - intros [= <-] Hne. cbn [requested_keys]. by rewrite lookup_insert_ne.
Qed.

Lemma filter_inv_lookup n trace f f' keys : filter_inv n trace f keys →
  requested_keys f' !! n = requested_keys f !! n → filter_inv n trace f' keys.
Proof. intros [Hk Hs Hh] He. split; [|done|done]. unfold allowlist in *. by rewrite He. Qed.

Lemma filter_tagged f p ci n f' tx tag : egress_packet p → packet_tag p = Some tag →
  filter_step n f (p, ci) = Ok f' →
  filter_process f (stamped shard tx p) (event_keyed_by (p, ci)) n = Ok (f', stamped shard tx p, true).
Proof.
  intros Hp Ht. unfold filter_step, filter_process.
  destruct p as [| |link tag' data []| |link tag' ks| | | | |]; try done; cbn [fst event_keyed_by stamped set_link];
    destruct (requested_keys f !! n); by intros [= <-].
Qed.

Lemma tagged_step trace f ev tag n0 : egress_inv trace f → egress_trace (trace ++ [ev]) →
  packet_tag ev.1 = Some tag → tags !! tag = Some n0 →
  ∃ f', filter_step n0 f ev = Ok f' ∧ egress_inv (trace ++ [ev]) f'.
Proof.
  intros [Hin Hout] Htr Htag Hn0.
  assert (Hproj : ∀ n, n ≠ n0 → project n (trace ++ [ev]) = project n trace).
  { intros n Hn. rewrite project_snoc, decide_False, app_nil_r; [done|]. unfold event_for. rewrite Htag. congruence. }
  assert (Hev : event_for n0 ev) by (unfold event_for; by rewrite Htag).
  destruct (decide (n0 ∈ filtered)) as [Hf|Hf].
  - destruct (Hin n0 Hf) as (keys & Hinv). destruct (et_fits _ Htr n0 Hf) as [Hfit Hown].
    rewrite project_snoc, decide_True in Hfit, Hown by done.
    destruct (filter_step_ok n0 (project n0 trace) f keys ev Hinv Hfit Hown) as (f' & keys' & Hstep & Hinv').
    exists f'. split; [done|].
    assert (Hother : ∀ n, n ≠ n0 → requested_keys f' !! n = requested_keys f !! n).
    { unfold filter_step in Hstep. destruct (filter_process f ev.1 (event_keyed_by ev) n0) as [[[f1 p1] b1]| |] eqn:Ef; [|done|done].
      injection Hstep as <-. intros n Hn. by eapply filter_process_other. }
    split.
    + intros n Hn. destruct (decide (n = n0)) as [->|Hne].
      * exists keys'. by rewrite project_snoc, decide_True.
      * destruct (Hin n Hn) as (k & Hk). exists k. rewrite Hproj by done. eapply filter_inv_lookup; [done|auto].
    + intros n Hn. rewrite Hother by congruence. auto.
  - exists f. split.
    + unfold filter_step, filter_process. by rewrite (Hout n0 Hf).
    + split; [|done]. intros n Hn. rewrite Hproj by congruence. auto.
Qed.

(** What a target is sent of an update, [None] if it is dropped. *)
Definition part_of f (data : list (Record V)) tx : option (list (Record V)) :=
  match filter_process f (PMessage {| link_src := 0; link_dst := 0 |} data None) None (etx_node tx) with
  | Ok (_, PMessage _ data' _, true) => Some data'
  | _ => None
  end.

Lemma message_step trace f kb link data tr tx : egress_inv trace f → egress_trace trace →
  (∀ n, n ∈ filtered → rows_fit (project n trace) data) →
  (∃ data' b, filter_process f (stamped shard tx (PMessage link data tr)) kb (etx_node tx) =
     Ok (f, PMessage {| link_src := shard; link_dst := etx_local tx |} data' tr, b) ∧
     part_of f data tx = if b then Some data' else None) ∧
  (etx_node tx ∉ filtered → part_of f data tx = Some data) ∧
  (etx_node tx ∈ filtered → ∃ keys, filter_inv (etx_node tx) (project (etx_node tx) trace) f keys ∧
     default [] (part_of f data tx) = filter (λ r, passes keys (rec r) = true) data).
Proof.
  intros [Hin Hout] Htr Hrows. cbn [stamped set_link].
  destruct (decide (etx_node tx ∈ filtered)) as [Hn|Hn].
  - destruct (Hin _ Hn) as (keys & Hinv). destruct (et_fits _ Htr _ Hn) as [Hfit _].
    assert (Hmsg : ∀ kb link tr, ∃ data' b,
      filter_process f (PMessage link data tr) kb (etx_node tx) = Ok (f, PMessage link data' tr, b) ∧
      (if b then data' else []) = filter (λ r, passes keys (rec r) = true) data).
    { intros. eapply filter_message_ok; [done|done|]. by apply Hrows. }
    destruct (Hmsg None {| link_src := 0; link_dst := 0 |} None) as (d0 & b0 & H0 & Hd0).
    destruct (Hmsg kb {| link_src := shard; link_dst := etx_local tx |} tr) as (d & b & Hd & Hpass).
    assert (Hpart : part_of f data tx = if b0 then Some d0 else None) by (unfold part_of; rewrite H0; by destruct b0).
    split_and!; [|done|intros _; exists keys; rewrite Hpart; split; [done|]; by rewrite <-Hd0; destruct b0].
    exists d, b. split; [done|]. rewrite Hpart. revert Hd H0. unfold filter_process.
    destruct (requested_keys f !! etx_node tx) as [nk|]; [|by intros [= <- <-] [= <- <-]].
    case_decide; [by intros [= <- <-] [= <- <-]|]. destruct (retainM _ data); [|done|done]. by intros [= <- <-] [= <- <-].
  - assert (Hpart : part_of f data tx = Some data) by (unfold part_of, filter_process; by rewrite (Hout _ Hn)).
    split_and!; [|done|done]. exists data, true. split; [|done]. unfold filter_process. by rewrite (Hout _ Hn).
Qed.

Lemma egress_process_untagged f p kb out : txs ≠ [] → packet_tag p = None →
  egress_process p kb shard replica (with_filter f, out) =
  let '((f', out'), r) := egress_loop kb shard replica None txs (Some p) (f, out) in ((with_filter f', out'), r).
Proof. intros Hn Ht. unfold egress_process, replay_target. rewrite Ht. unfold with_filter. cbn [fst snd eg_txs eg_filter eg_tags]. by destruct txs. Qed.

Lemma egress_update trace f kb link data tr out : txs ≠ [] → egress_inv trace f → egress_trace trace →
  (∀ n, n ∈ filtered → rows_fit (project n trace) data) →
  egress_process (PMessage link data tr) kb shard replica (with_filter f, out) =
  ((with_filter f, out ++ concat ((λ tx, match part_of f data tx with
     | Some rs => edeliver tx (PMessage {| link_src := shard; link_dst := etx_local tx |} rs tr) replica
     | None => []
     end) <$> txs)), Ok ()).
Proof.
  intros Hn Hinv Htr Hrows. rewrite egress_process_untagged, loop_untagged by
    (done || (intros tx _; destruct (message_step trace f kb link data tr tx Hinv Htr Hrows) as [(d & b & Hd & _) _];
              exists (PMessage {| link_src := shard; link_dst := etx_local tx |} d tr), b; split; [done|];
              unfold ereplicas_ok; by destruct (etx_replication tx))).
  erewrite (list_fmap_ext _ _ txs); [done|]. intros i tx _. unfold forwarded.
  destruct (message_step trace f kb link data tr tx Hinv Htr Hrows) as [(d & b & -> & ->) _]. by destruct b.
Qed.

Lemma egress_step_ok trace f ev out : txs ≠ [] → egress_inv trace f → egress_trace (trace ++ [ev]) →
  ∃ f' out', egress_process ev.1 (event_keyed_by ev) shard replica (with_filter f, out) =
    ((with_filter f', out'), Ok ()) ∧ egress_inv (trace ++ [ev]) f'.
Proof.
  intros Hn Hinv Htr. destruct (packet_tag ev.1) as [tag|] eqn:Htag.
  - destruct (et_tags _ Htr ev tag) as (tx & Htx & Htags); [set_solver|done|].
    destruct (tagged_step trace f ev tag (etx_node tx)) as (f' & Hstep & Hinv'); [done..|].
    assert (Hpkt : egress_packet ev.1) by (apply (et_packet _ Htr); set_solver).
    assert (Hloop : egress_loop (event_keyed_by ev) shard replica (Some (etx_node tx)) txs (Some ev.1) (f, out) =
      match list_find (λ tx', etx_node tx' = etx_node tx) txs with
      | Some (_, tx') => ((f', out ++ edeliver tx' (stamped shard tx' ev.1) replica), Ok ())
      | None => ((f, out), Ok ())
      end).
    { apply loop_tagged; [done| |].
      - intros tx' Htx'. apply (et_replicas _ Htr); set_solver.
      - intros tx' _. destruct ev as [p ci]. by eapply filter_tagged. }
    destruct (list_find (λ tx', etx_node tx' = etx_node tx) txs) as [[i tx']|] eqn:Ef.
    + exists f', (out ++ edeliver tx' (stamped shard tx' ev.1) replica). split; [|done].
      unfold egress_process, replay_target, with_filter. cbn [fst snd eg_txs eg_tags eg_filter]. rewrite Htag, Htags.
      rewrite Hloop. by destruct txs.
    + exfalso. apply list_find_None in Ef. by apply (proj1 (Forall_forall _ _) Ef tx Htx).
  - assert (Hinv' : egress_inv (trace ++ [ev]) f).
    { destruct Hinv as [Hin Hout]. split; [|done]. intros n Hf. destruct (Hin n Hf) as (keys & Hk). exists keys.
      rewrite project_snoc, decide_True by (unfold event_for; by rewrite Htag).
      apply filter_inv_same; [done|..]; destruct ev as [[] ?]; done. }
    assert (Hpkt : egress_packet ev.1) by (apply (et_packet _ Htr); set_solver).
    destruct ev as [[| link data tr | | | | | | | |link src ts] ci]; try done; try (exfalso; exact Hpkt).
    + eexists _, _. split; [|exact Hinv']. apply (egress_update trace); try done; [by eapply egress_trace_app|].
      intros n Hf. destruct (et_fits _ Htr n Hf) as [[_ Hfit] _]. rewrite project_snoc, decide_True in Hfit by done.
      intros r e Hr He. apply (Hfit (PMessage link data tr, ci)); set_solver.
    + eexists f, _. split; [|exact Hinv']. cbn [fst]. rewrite egress_process_untagged, loop_untagged; [done|..]; try done.
      * intros tx _. exists (stamped shard tx (PTimestamp link src ts)), true. split.
        -- unfold filter_process, stamped, set_link. destruct (requested_keys f !! etx_node tx), link; done.
        -- unfold ereplicas_ok, stamped, set_link. by destruct (etx_replication tx), link.
Qed.

Lemma initial_filter_inv : egress_inv [] initial_filter.
Proof.
  assert (Hkeys : ∀ n, requested_keys initial_filter !! n =
    if decide (n ∈ filtered) then Some {| nk_keys := ∅ |} else None).
  { intros n. unfold initial_filter. induction filtered as [|n0 l IH] using rev_ind; [done|].
    rewrite foldl_app. cbn [foldl]. unfold add_for_filtering at 1.
    destruct (requested_keys (foldl _ _ l) !! n0) eqn:E0.
    - rewrite IH. destruct (decide (n ∈ l)), (decide (n ∈ l ++ [n0])); set_solver.
    - cbn [requested_keys]. destruct (decide (n = n0)) as [->|Hne].
      + rewrite lookup_insert_eq, decide_True by set_solver. done.
      + rewrite lookup_insert_ne, IH by done. destruct (decide (n ∈ l)), (decide (n ∈ l ++ [n0])); set_solver. }
  split; intros n Hn; [|by rewrite Hkeys, decide_False].
  exists ∅. split; [unfold allowlist; by rewrite Hkeys, decide_True| |done].
  intros ci k Hk. rewrite lookup_empty in Hk. by apply elem_of_nil in Hk.
Qed.

Lemma egress_run_ok trace : txs ≠ [] → egress_trace trace →
  ∃ f out, eff_iter (λ ev, egress_process ev.1 (event_keyed_by ev) shard replica) trace (with_filter initial_filter, []) =
    ((with_filter f, out), Ok ()) ∧ egress_inv trace f.
Proof.
  intros Hn. induction trace as [|ev trace IH] using rev_ind; intros Htr.
  - eexists _, []. split; [done|apply initial_filter_inv].
  - destruct IH as (f & out & Hrun & Hinv); [by eapply egress_trace_app|].
    destruct (egress_step_ok trace f ev out) as (f' & out' & Hstep & Hinv'); [done..|].
    exists f', out'. split; [|done]. rewrite (eff_iter_app _ _ _ _ _ Hrun). by rewrite (eff_iter_cons (λ ev, egress_process ev.1 (event_keyed_by ev) shard replica) ev [] _ _ Hstep).
Qed.
End egress_traces.

Section egress_theorems.
Context `{DfVal V}.

(** C8: An egress node delivers what its targets hold.  After any sequence of
    updates, replays and evictions whose tags are known, where the keys for a
    filtered target are points or ranges of one column and none is evicted from one
    index and replayed to another, an update is sent to every target: whole to the targets that are not filtered, and to the others
    at least the records with a key they hold, which depends only on the replays
    and evictions along their own paths. *)
Theorem egress_keeps_held txs tags filtered shard replica (trace : list (Packet V * list nat)) link data tr :
  txs ≠ [] → egress_trace txs tags filtered trace →
  (∀ n, n ∈ filtered → rows_fit (project tags n trace) data) →
  ∃ f out (part : EgressTx → option (list (Record V))),
    eff_iter (λ ev, egress_process ev.1 (event_keyed_by ev) shard replica) trace
      (with_filter txs tags (initial_filter filtered), []) = ((with_filter txs tags f, out), Ok ()) ∧
    egress_process (PMessage link data tr) None shard replica (with_filter txs tags f, out) =
      ((with_filter txs tags f, out ++ concat ((λ tx, match part tx with
         | Some rs => edeliver tx (PMessage {| link_src := shard; link_dst := etx_local tx |} rs tr) replica
         | None => []
         end) <$> txs)), Ok ()) ∧
    ∀ tx, tx ∈ txs →
      (etx_node tx ∉ filtered → part tx = Some data) ∧
      (etx_node tx ∈ filtered → ∃ pass : list V → bool,
         default [] (part tx) = filter (λ r, pass (rec r) = true) data ∧
         ∀ row ci, held (project tags (etx_node tx) trace) ci (cols_at ci row) = true → pass row = true).
Proof.
  intros Hn Htr Hrows. destruct (egress_run_ok txs tags filtered shard replica trace Hn Htr) as (f & out & Hrun & Hinv).
  exists f, out, (part_of f data). split_and!; [done|by apply (egress_update txs tags filtered shard replica trace)|].
  intros tx Htx. destruct (message_step txs tags filtered shard trace f None link data tr tx Hinv Htr Hrows) as (_ & Hout & Hin).
  split; [done|]. intros Hf. destruct (Hin Hf) as (keys & Hk & Hp). exists (passes keys). split; [done|].
  intros row ci Hh. apply passes_spec. destruct (fi_holds _ _ _ _ Hk _ _ Hh) as (k & ? & ?). eauto.
Qed.
End egress_theorems.

Definition sample_etx (node : nat) : EgressTx :=
  {| etx_node := node; etx_local := 0; etx_domain_index := node; etx_shard := 0; etx_replication := RepSame |}.
Definition sample_trace : list (Packet SampleVal * list nat) := [sample_replay [0] [point 1]; sample_evict [0] [point 2]].

Lemma egress_keeps_held_witness :
  ∃ f out (part : EgressTx → option (list (Record SampleVal))),
    eff_iter (λ ev, egress_process ev.1 (event_keyed_by ev) 0 0) sample_trace
      (with_filter [sample_etx 7; sample_etx 8] {[ 0 := 7 ]} (initial_filter [7]), []) =
      ((with_filter [sample_etx 7; sample_etx 8] {[ 0 := 7 ]} f, out), Ok ()) ∧
    egress_process (PMessage sample_link [Positive (ints [1; 4]%Z)] None) None 0 0
        (with_filter [sample_etx 7; sample_etx 8] {[ 0 := 7 ]} f, out) =
      ((with_filter [sample_etx 7; sample_etx 8] {[ 0 := 7 ]} f, out ++ concat ((λ tx, match part tx with
         | Some rs => edeliver tx (PMessage {| link_src := 0; link_dst := etx_local tx |} rs None) 0
         | None => []
         end) <$> [sample_etx 7; sample_etx 8])), Ok ()) ∧
    ∀ tx, tx ∈ [sample_etx 7; sample_etx 8] →
      (etx_node tx ∉ [7] → part tx = Some [Positive (ints [1; 4]%Z)]) ∧
      (etx_node tx ∈ [7] → ∃ pass : list SampleVal → bool,
         default [] (part tx) = filter (λ r, pass (rec r) = true) [Positive (ints [1; 4]%Z)] ∧
         ∀ row ci, held (project {[ 0 := 7 ]} (etx_node tx) sample_trace) ci (cols_at ci row) = true → pass row = true).
Proof.
  apply egress_keeps_held; [done| |].
  - split.
    + intros ev [->|[->|[]%elem_of_nil]%elem_of_cons]%elem_of_cons; exact I.
    + intros ev tag [->|[->|[]%elem_of_nil]%elem_of_cons]%elem_of_cons [= <-]; exists (sample_etx 7); (split; [set_solver|done]).
    + intros ev tx [->|[->|[]%elem_of_nil]%elem_of_cons]%elem_of_cons
        [->|[->|[]%elem_of_nil]%elem_of_cons]%elem_of_cons; exact I.
    + intros n ->%list_elem_of_singleton. change (project {[ 0 := 7 ]} 7 sample_trace) with sample_trace. split; [split|].
      * intros e [->|[->|[]%elem_of_nil]%elem_of_cons]%elem_of_cons; repeat constructor.
      * intros e [->|[->|[]%elem_of_nil]%elem_of_cons]%elem_of_cons ? ? []%elem_of_nil.
      * intros e e' k k' [->|[->|[]%elem_of_nil]%elem_of_cons]%elem_of_cons
          [->|[->|[]%elem_of_nil]%elem_of_cons]%elem_of_cons; done.
  - intros n ->%list_elem_of_singleton. change (project {[ 0 := 7 ]} 7 sample_trace) with sample_trace.
    intros r e ->%list_elem_of_singleton [->|[->|[]%elem_of_nil]%elem_of_cons]%elem_of_cons _; repeat constructor.
Defined.
