(* ===== verification/InsertionOrder.v ===== *)
(** * InsertionOrder: where a reader keeps a row

    Models the insertion orders of reader maps: the trait [InsertionOrder] of
    [partial-map/src/lib.rs], [DefaultInsertionOrder] of [reader-map/src/lib.rs]
    and [PreInsertion] of [dataflow-expression/src/post_lookup.rs], on top of the
    standard library's [slice::binary_search_by].  The rows of a key are kept
    sorted, so that a row can be found by binary search when it is removed; the
    class [InsertionOrderLaws] is what reader maps rely on, and both
    implementations satisfy it. *)
From S2P Require Import Prelude Result Records OpTopK OpTopKProps.

(** ** [slice::binary_search_by]

    [inl] is [Ok], the position of an equal element; [inr] is [Err], the position
    at which the element would keep the order. *)
Section binary_search.
Context {A : Type} (f : A → result comparison).

Fixpoint bs_loop (fuel : nat) (l : list A) (left right : nat) : result (nat + nat) :=
  match fuel with
  | 0 => Panic
  | S fuel' =>
      if left <? right then
        let mid := left + (right - left) / 2 in
        x ← expect (l !! mid); c ← f x;
        match c with
        | Lt => bs_loop fuel' l (S mid) right
        | Gt => bs_loop fuel' l left mid
        | Eq => Ok (inl mid)
        end
      else Ok (inr left)
  end.
Definition binary_search_by (l : list A) : result (nat + nat) :=
  bs_loop (S (length l)) l 0 (length l).
End binary_search.

(** [slice::binary_search]. *)
Definition binary_search `{Ord A} (l : list A) (x : A) : result (nat + nat) :=
  binary_search_by (λ y, Ok (cmp y x)) l.

(** ** The trait and its implementations *)
Class InsertionOrder (I A : Type) := get_insertion_order : I → list A → A → result (nat + nat).

Inductive DefaultInsertionOrder := MkDefaultInsertionOrder.
#[export] Instance default_insertion_order `{Ord A} : InsertionOrder DefaultInsertionOrder A :=
  λ _ values elem, binary_search values elem.

Record PreInsertion := {
  pi_order_by : option (list (nat * OrderType));
  pi_group_by : option (list nat);
}.

(** [OrderType::apply]. *)
Definition order_type_apply (t : OrderType) (ord : comparison) : comparison :=
  match t with OrderAscending => ord | OrderDescending => CompOpp ord end.

Section pre_insertion.
Context `{DfVal V}.
Implicit Types (r : list V).

(** [try_fold(Ordering::Equal, ...)]: a comparison is made before the
    accumulated one is looked at. *)
Fixpoint try_fold_cmp (acc : comparison) (cs : list (result comparison)) : result comparison :=
  match cs with
  | [] => Ok acc
  | c :: cs' => next ← c; match acc with Eq => try_fold_cmp next cs' | _ => Ok acc end
  end.

(** [cur_row[idx].cmp(&elem[idx])], reversed for a descending column. *)
Definition col_cmp (t : OrderType) (idx : nat) (cur_row elem : list V) : result comparison :=
  x ← expect (cur_row !! idx); y ← expect (elem !! idx); Ok (order_type_apply t (cmp x y)).

Definition pre_insertion_cmp (cols : list (nat * OrderType)) (cur_row elem : list V) : result comparison :=
  c ← try_fold_cmp Eq ((λ ct, col_cmp ct.2 ct.1 cur_row elem) <$> cols);
  Ok (then_cmp c (cmp cur_row elem)).

Definition pre_insertion_order (p : PreInsertion) (values : list (list V)) (elem : list V) :
    result (nat + nat) :=
  match pi_group_by p, pi_order_by p with
  | Some cols, _ => binary_search_by (λ cur, pre_insertion_cmp ((λ c, (c, OrderAscending)) <$> cols) cur elem) values
  | None, Some indices => binary_search_by (λ cur, pre_insertion_cmp indices cur elem) values
  | None, None => binary_search values elem
  end.
#[export] Instance pre_insertion_insertion_order : InsertionOrder PreInsertion (list V) := pre_insertion_order.

(** The columns that decide the order before the whole row does. *)
Definition pi_cols (p : PreInsertion) : list (nat * OrderType) :=
  match pi_group_by p, pi_order_by p with
  | Some cols, _ => (λ c, (c, OrderAscending)) <$> cols
  | None, Some indices => indices
  | None, None => []
  end.
End pre_insertion.

(** ** What reader maps rely on

    Strict sorting is not required, equal values sit next to each other. *)
Definition found_at {A} (c : A → A → comparison) (l : list A) (x : A) (res : nat + nat) : Prop :=
  match res with
  | inl i => l !! i = Some x
  | inr i => i ≤ length l ∧ Forall (λ y, c y x = Lt) (take i l) ∧ Forall (λ y, c y x = Gt) (drop i l)
  end.

Class InsertionOrderLaws (I A : Type) `{!InsertionOrder I A} := {
  io_cmp : I → A → A → comparison;
  io_fits : I → A → Prop;
  io_cmp_eq o x y : io_cmp o x y = Eq ↔ x = y;
  io_cmp_antisym o x y : io_cmp o y x = CompOpp (io_cmp o x y);
  io_cmp_trans o x y z : io_cmp o x y = Lt → io_cmp o y z = Lt → io_cmp o x z = Lt;
  io_search o l x :
    StronglySorted (λ a b, io_cmp o a b ≠ Gt) l → Forall (io_fits o) (x :: l) →
    ∃ res, get_insertion_order o l x = Ok res ∧ found_at (io_cmp o) l x res;
}.

Lemma sorted_lookup {A} (R : A → A → Prop) l i j a b :
  StronglySorted R l → i < j → l !! i = Some a → l !! j = Some b → R a b.
Proof.
  intros Hs. revert i j. induction Hs as [|x l Hs IH Hx]; intros i j Hij Ha Hb; [done|].
  destruct j as [|j]; [lia|]. destruct i as [|i]; simpl in *.
  - injection Ha as <-. rewrite Forall_lookup in Hx. by eapply Hx.
  - eapply IH; [|exact Ha|exact Hb]. lia.
Qed.

Section binary_search_lemmas.
Context {A : Type} (f : A → result comparison) (g : A → comparison).

(** Everything left of [left] is below, everything from [right] on is above. *)
Lemma bs_loop_spec fuel l left right :
  right - left < fuel → left ≤ right → right ≤ length l →
  Forall (λ y, f y = Ok (g y)) l →
  (∀ i j a b, i ≤ j → l !! i = Some a → l !! j = Some b → g b = Lt → g a = Lt) →
  (∀ i j a b, i ≤ j → l !! i = Some a → l !! j = Some b → g a = Gt → g b = Gt) →
  (∀ i a, i < left → l !! i = Some a → g a = Lt) →
  (∀ i a, right ≤ i → l !! i = Some a → g a = Gt) →
  ∃ res, bs_loop f fuel l left right = Ok res ∧
    match res with
    | inl i => ∃ a, l !! i = Some a ∧ g a = Eq
    | inr i => i ≤ length l ∧ (∀ j a, j < i → l !! j = Some a → g a = Lt) ∧
               (∀ j a, i ≤ j → l !! j = Some a → g a = Gt)
    end.
Proof.
  intros Hfuel Hlr Hr Hf Hlt Hgt. revert left right Hfuel Hlr Hr.
  induction fuel as [|fuel IH]; intros left right Hfuel Hlr Hr Hbelow Habove; [lia|]. cbn [bs_loop].
  destruct (Nat.ltb_spec left right) as [Hlt'|Hge].
  2:{ assert (left = right) as -> by lia. exists (inr right). eauto. }
  pose proof (Nat.Div0.div_lt_upper_bound (right - left) 2 (right - left) ltac:(lia)) as Hd.
  set (mid := left + (right - left) / 2) in *.
  destruct (lookup_lt_is_Some_2 l mid) as [x Hx]; [lia|]. rewrite Hx. cbn [mbind result_bind expect].
  rewrite (proj1 (Forall_lookup _ _) Hf _ _ Hx). cbn [mbind result_bind].
  destruct (g x) eqn:E; [exists (inl mid); eauto|apply IH; try lia|apply IH; try lia].
  - intros i a Hi Ha. by apply (Hlt i mid a x); [lia|..].
  - done.
  - done.
  - intros i a Hi Ha. by apply (Hgt mid i x a); [lia|..].
Qed.
End binary_search_lemmas.

Section search_sorted.
Context {A : Type} (c : A → A → comparison).
Context (c_eq : ∀ x y, c x y = Eq ↔ x = y) (c_anti : ∀ x y, c y x = CompOpp (c x y)).
Context (c_trans : ∀ x y z, c x y = Lt → c y z = Lt → c x z = Lt).

Lemma le_lt_trans x y z : c x y ≠ Gt → c y z = Lt → c x z = Lt.
Proof using c_eq c_trans.
  intros Hxy Hyz. destruct (c x y) eqn:E; [apply c_eq in E as ->; done|eauto|done].
Qed.
Lemma gt_le_trans x y z : c x z = Gt → c x y ≠ Gt → c y z = Gt.
Proof using c_eq c_anti c_trans.
  intros Hxz Hxy. destruct (c y z) eqn:E; [|by rewrite (le_lt_trans x y z) in Hxz|done].
  apply c_eq in E as ->. congruence.
Qed.

(** [binary_search_by] on a sorted slice, comparing by a total order. *)
Lemma binary_search_sorted (f : A → result comparison) l x :
  StronglySorted (λ a b, c a b ≠ Gt) l → Forall (λ y, f y = Ok (c y x)) l →
  ∃ res, binary_search_by f l = Ok res ∧ found_at c l x res.
Proof using c_eq c_anti c_trans.
  intros Hs Hf.
  assert (∀ i j a b, i ≤ j → l !! i = Some a → l !! j = Some b → c a b ≠ Gt) as Hle.
  { intros i j a b Hij Ha Hb. destruct (decide (i = j)) as [->|].
    - assert (a = b) as -> by congruence. by rewrite (proj2 (c_eq b b) eq_refl).
    - apply (sorted_lookup (λ a b, c a b ≠ Gt) l i j); [done|lia|done|done]. }
  destruct (bs_loop_spec f (λ y, c y x) (S (length l)) l 0 (length l)) as (res & Hres & Hspec); try lia; eauto.
  - intros i j a b Hij Ha Hb Hlt. eapply le_lt_trans; eauto.
  - intros i j a b Hij Ha Hb Hgt. eapply gt_le_trans; eauto.
  - intros i a Hi Ha. apply lookup_lt_Some in Ha. lia.
  - exists res. split; [done|]. destruct res as [i|i].
    + destruct Hspec as (a & Ha & E). apply c_eq in E as ->. done.
    + destruct Hspec as (Hi & Hl & Hg). split_and!; [done|..].
      * apply Forall_lookup. intros j a Ha. apply lookup_take_Some in Ha as [Ha Hj]. by apply (Hl j).
      * apply Forall_lookup. intros j a Ha. rewrite lookup_drop in Ha. apply (Hg (i + j)); [lia|done].
Qed.
End search_sorted.

(** ** The implementations satisfy the laws *)
#[export] Instance default_insertion_order_laws `{Ord A} : InsertionOrderLaws DefaultInsertionOrder A.
Proof.
  refine {| io_cmp _ := cmp; io_fits _ _ := True |}.
  - intros _. apply cmp_eq_iff.
  - intros _. apply cmp_antisym.
  - intros _. apply cmp_lt_trans.
  - intros ? l x Hs _. apply (binary_search_sorted cmp); [apply cmp_eq_iff|apply cmp_antisym|apply cmp_lt_trans|done|].
    by apply Forall_true.
Defined.

Section pre_insertion_laws.
Context `{DfVal V}.
Implicit Types (r : list V).

(** The order of [PreInsertion]: the columns, then the row itself. *)
Definition pi_cmp (p : PreInsertion) (x y : list V) : comparison :=
  then_cmp (order_cmp (pi_cols p) x y) (cmp x y).

Lemma try_fold_cmp_spec cols x y acc :
  order_fits cols x = true → order_fits cols y = true →
  try_fold_cmp acc ((λ ct, col_cmp ct.2 ct.1 x y) <$> cols) = Ok (then_cmp acc (order_cmp cols x y)).
Proof.
  revert acc. induction cols as [|[c t] cols IH]; intros acc; [by destruct acc|].
  unfold order_fits. simpl. rewrite !andb_true_iff, !Nat.ltb_lt. intros [Hx Hxs] [Hy Hys].
  destruct (lookup_lt_is_Some_2 x c Hx) as [a Ha], (lookup_lt_is_Some_2 y c Hy) as [b Hb].
  assert (col_cmp t c x y = Ok (order_type_apply t (cmp a b))) as ->
    by (unfold col_cmp; by rewrite Ha, Hb).
  rewrite Ha, Hb. cbn [mbind result_bind default].
  destruct acc; [|done|done]. rewrite IH by done. simpl.
  by destruct t; simpl; [|rewrite (cmp_antisym a b)].
Qed.

Lemma pre_insertion_cmp_spec cols x y :
  order_fits cols x = true → order_fits cols y = true →
  pre_insertion_cmp cols x y = Ok (then_cmp (order_cmp cols x y) (cmp x y)).
Proof. intros Hx Hy. unfold pre_insertion_cmp. by rewrite try_fold_cmp_spec. Qed.

Lemma order_cmp_le_lt o (x y z : list V) :
  order_cmp o x y ≠ Gt → order_cmp o y z ≠ Gt →
  order_cmp o x z ≠ Gt ∧ (order_cmp o x z = Eq → order_cmp o x y = Eq ∧ order_cmp o y z = Eq).
Proof.
  induction o as [|[c t] o IH]; simpl; [done|].
  set (a := default dfv_none (x !! c)). set (b := default dfv_none (y !! c)). set (d := default dfv_none (z !! c)).
  destruct t.
  - destruct (cmp a b) eqn:E1; [| |done]; (destruct (cmp b d) eqn:E2; [| |done]); simpl; intros H1 H2.
    all: first [assert (cmp a d = Eq) as -> by ord_lia; simpl; by apply IH
               |assert (cmp a d = Lt) as -> by ord_lia; done].
  - destruct (cmp b a) eqn:E1; [| |done]; (destruct (cmp d b) eqn:E2; [| |done]); simpl; intros H1 H2.
    all: first [assert (cmp d a = Eq) as -> by ord_lia; simpl; by apply IH
               |assert (cmp d a = Lt) as -> by ord_lia; done].
Qed.

Lemma pi_cmp_eq p x y : pi_cmp p x y = Eq ↔ x = y.
Proof.
  unfold pi_cmp. split.
  - destruct (order_cmp _ x y); [apply cmp_eq_iff|done|done].
  - intros ->. pose proof (order_cmp_antisym (pi_cols p) y y).
    destruct (order_cmp (pi_cols p) y y); [apply cmp_refl|done|done].
Qed.
Lemma pi_cmp_antisym p x y : pi_cmp p y x = CompOpp (pi_cmp p x y).
Proof.
  unfold pi_cmp. rewrite (order_cmp_antisym _ x y), (cmp_antisym x y). by destruct (order_cmp _ x y).
Qed.
Lemma pi_cmp_trans p x y z : pi_cmp p x y = Lt → pi_cmp p y z = Lt → pi_cmp p x z = Lt.
Proof.
  unfold pi_cmp. intros H1 H2.
  destruct (order_cmp_le_lt (pi_cols p) x y z) as [Hle Heq];
    [destruct (order_cmp (pi_cols p) x y); done|destruct (order_cmp (pi_cols p) y z); done|].
  destruct (order_cmp (pi_cols p) x z) eqn:E; [|done|done].
  destruct Heq as [E1 E2]; [done|]. rewrite E1 in H1. rewrite E2 in H2. simpl in *. by eapply cmp_lt_trans.
Qed.

#[export] Instance pre_insertion_laws : InsertionOrderLaws PreInsertion (list V).
Proof.
  refine {| io_cmp := pi_cmp; io_fits p r := order_fits (pi_cols p) r = true;
            io_cmp_eq := pi_cmp_eq; io_cmp_antisym := pi_cmp_antisym; io_cmp_trans := pi_cmp_trans |}.
  - intros p l x Hs [Hx Hl]%Forall_cons.
    assert (∀ cols, pi_cols p = cols →
      ∃ res, binary_search_by (λ cur, pre_insertion_cmp cols cur x) l = Ok res ∧ found_at (pi_cmp p) l x res) as Hsearch.
    { intros cols <-. apply binary_search_sorted;
        [apply pi_cmp_eq|apply pi_cmp_antisym|apply pi_cmp_trans|done|].
      eapply Forall_impl; [exact Hl|]. intros y Hy. by apply pre_insertion_cmp_spec. }
    unfold get_insertion_order, pre_insertion_insertion_order, pre_insertion_order.
    destruct (pi_group_by p) as [g|] eqn:Eg; [apply Hsearch; unfold pi_cols; by rewrite Eg|].
    destruct (pi_order_by p) as [o|] eqn:Eo; [apply Hsearch; unfold pi_cols; by rewrite Eg, Eo|].
    change (binary_search l x) with (binary_search_by (λ cur, pre_insertion_cmp [] cur x) l).
    apply Hsearch. unfold pi_cols. by rewrite Eg, Eo.
Defined.
End pre_insertion_laws.
