(* ===== verification/Eviction.v ===== *)
(** * Eviction: which keys a reader gives up

    Models [reader-map/src/eviction.rs].  Every key of a reader map carries a
    counter, an atomic that readers may update while the strategy reads it: the
    functions below take the values that were loaded ([ctrs], one per entry of the
    map) as an argument, whatever they are.  Counters are 64 bits wide.  The crate
    [rand] is the argument [gen_bool]: [gen_bool num den i] is the outcome of the
    [i]-th call, with probability [num / den].

    Properties of [Eviction]: the least-recently-used strategy picks one key more
    than it is asked for, the oldest ones; the generational strategy picks nothing
    when it is asked for every key of one generation, and the whole generation when
    it is asked for a part of it as ranges. *)
From S2P Require Import Prelude Result.

Definition NUM_GENERATIONS : nat := 100.
Definition u64_max : Z := 2 ^ 64 - 1.

(** The strategies, with the value of the shared counter of the last two. *)
Inductive EvictionStrategy :=
  | Random
  | LeastRecentlyUsed (counter : Z)
  | Generational (generation : Z).

(** [fetch_add(1)]: the old value is returned, the sum wraps around. *)
Definition fetch_add (c : Z) : Z := ((c + 1) mod 2 ^ 64)%Z.

(** [new_meta]: the counter of a new key. *)
Definition new_meta (s : EvictionStrategy) : Z * EvictionStrategy :=
  match s with
  | Random => (0%Z, s)
  | LeastRecentlyUsed c => (c, LeastRecentlyUsed (fetch_add c))
  | Generational g => (g, s)
  end.
(** [on_read]: the counter of a key after it was read. *)
Definition on_read (s : EvictionStrategy) (meta : Z) : Z * EvictionStrategy :=
  match s with
  | Random => (meta, s)
  | LeastRecentlyUsed c => (c, LeastRecentlyUsed (fetch_add c))
  | Generational g => (g, s)
  end.

Section pick.
Context {E : Type} (gen_bool : nat → nat → nat → result bool).
Implicit Types (ctrs : list Z) (entries : list E) (nkeys : nat).

(** *** Least recently used

    [select_nth_unstable(nkeys)]: the element a sort would put there. *)
Definition lru_cutoff ctrs nkeys : Z :=
  if length ctrs <=? nkeys then u64_max
  else default u64_max (sort_by Z.compare ctrs !! nkeys).
Definition lru_pick_keys ctrs entries nkeys : list E :=
  snd <$> filter (λ ce, (ce.1 <=? lru_cutoff ctrs nkeys)%Z = true) (zip ctrs entries).
Definition lru_group_by ctrs nkeys : Z → bool := λ ctr, (ctr <=? lru_cutoff ctrs nkeys)%Z.

(** *** Random *)
Fixpoint random_pick_from (len nkeys i : nat) entries : result (list E) :=
  match entries with
  | [] => Ok []
  | e :: entries' =>
      b ← gen_bool nkeys len i; rest ← random_pick_from len nkeys (S i) entries';
      Ok (if (b : bool) then e :: rest else rest)
  end.
Definition random_pick_keys entries nkeys : result (list E) :=
  random_pick_from (length entries) nkeys 0 entries.
(** [repeat_with(gen_bool as u64).zip(data.iter())]: the number is drawn first,
    so that one more is drawn than there are entries. *)
Fixpoint random_ranges_from (len nkeys i : nat) entries : result (list (Z * E)) :=
  b ← gen_bool nkeys len i;
  match entries with
  | [] => Ok []
  | e :: entries' =>
      rest ← random_ranges_from len nkeys (S i) entries'; Ok ((if (b : bool) then 1 else 0, e) :: rest)%Z
  end.
Definition random_pick_ranges entries nkeys : result (list (Z * E)) :=
  random_ranges_from (length entries) nkeys 0 entries.

(** *** Generational *)

(** [(current_gen - gen) as usize], capped; the subtraction wraps around. *)
Definition gen_bucket (current_gen gen : Z) : nat :=
  Nat.min (Z.to_nat ((current_gen - gen) mod 2 ^ 64)) (NUM_GENERATIONS - 1).
Definition gen_buckets (current_gen : Z) ctrs : list nat :=
  foldl (λ buckets gen, alter S (gen_bucket current_gen gen) buckets) (replicate NUM_GENERATIONS 0) ctrs.

(** The loop over the buckets, the oldest first: the last bucket looked at and
    the number of keys left to evict. *)
Fixpoint gen_loop (buckets_rev : list nat) (last nkeys : nat) : nat * nat :=
  match buckets_rev with
  | [] => (last, nkeys)
  | cnt :: rest => if cnt <=? nkeys then gen_loop rest (last - 1) (nkeys - cnt) else (last - 1, nkeys)
  end.
Definition gen_plan (current_gen : Z) ctrs nkeys : nat * nat :=
  gen_loop (rev (gen_buckets current_gen ctrs)) NUM_GENERATIONS nkeys.
Definition last_gen_to_evict (current_gen : Z) ctrs nkeys : Z :=
  ((current_gen - Z.of_nat (gen_plan current_gen ctrs nkeys).1) mod 2 ^ 64)%Z.

(** [pick_keys_to_evict]: older generations, and keys of the last one at random. *)
Fixpoint gen_pick_from (last_gen : Z) (num den i : nat) (l : list (Z * E)) : result (list E) :=
  match l with
  | [] => Ok []
  | (g, e) :: l' =>
      if (g <? last_gen)%Z then cons e <$> gen_pick_from last_gen num den i l'
      else if (g =? last_gen)%Z then
        b ← gen_bool num den i; rest ← gen_pick_from last_gen num den (S i) l';
        Ok (if (b : bool) then e :: rest else rest)
      else gen_pick_from last_gen num den i l'
  end.
Definition gen_pick_keys (current_gen : Z) ctrs entries nkeys : result (list E) :=
  let '(last, remaining) := gen_plan current_gen ctrs nkeys in
  gen_pick_from (last_gen_to_evict current_gen ctrs nkeys) remaining
    (default 0 (gen_buckets current_gen ctrs !! last)) 0 (zip ctrs entries).
(** The predicate of [pick_ranges_to_evict]. *)
Definition gen_group_by (current_gen : Z) ctrs nkeys : Z → bool := λ g,
  let last_gen := last_gen_to_evict current_gen ctrs nkeys in
  (g <? last_gen)%Z || ((g =? last_gen)%Z && (0 <? (gen_plan current_gen ctrs nkeys).2)).

(** *** [EvictRangeIter]

    The maximal runs of consecutive entries whose counters satisfy the predicate. *)
Fixpoint evict_ranges (group_by : Z → bool) (l : list (Z * E)) : list (list E) :=
  match l with
  | [] => []
  | (c, e) :: l' =>
      let runs := evict_ranges group_by l' in
      let joined := match head l' with Some (c', _) => group_by c' | None => false end in
      if group_by c then
        match runs with
        | run :: runs' => if joined then (e :: run) :: runs' else [e] :: runs
        | [] => [[e]]
        end
      else runs
  end.

(** *** [EvictionStrategy]: the entries to evict, and the strategy afterwards *)
Definition pick_keys_to_evict (s : EvictionStrategy) ctrs entries nkeys : result (list E * EvictionStrategy) :=
  match s with
  | Random => es ← random_pick_keys entries nkeys; Ok (es, s)
  | LeastRecentlyUsed _ => Ok (lru_pick_keys ctrs entries nkeys, s)
  | Generational g => es ← gen_pick_keys g ctrs entries nkeys; Ok (es, Generational (fetch_add g))
  end.
Definition pick_ranges_to_evict (s : EvictionStrategy) ctrs entries nkeys :
    result (list (list E) * EvictionStrategy) :=
  match s with
  | Random => l ← random_pick_ranges entries nkeys; Ok (evict_ranges (λ v, v =? 1)%Z l, s)
  | LeastRecentlyUsed _ => Ok (evict_ranges (lru_group_by ctrs nkeys) (zip ctrs entries), s)
  | Generational g =>
      Ok (evict_ranges (gen_group_by g ctrs nkeys) (zip ctrs entries), Generational (fetch_add g))
  end.
End pick.

(** * Properties *)
Section counting.
Implicit Types (l : list Z).

Lemma Zcmp_total (x y : Z) : (x ?= y)%Z = Gt → (y ?= x)%Z ≠ Gt.
Proof. rewrite Z.compare_gt_iff. intros ?. rewrite Z.compare_le_iff. lia. Qed.
Lemma Zcmp_trans (x y z : Z) : (x ?= y)%Z ≠ Gt → (y ?= z)%Z ≠ Gt → (x ?= z)%Z ≠ Gt.
Proof. rewrite !Z.compare_le_iff. lia. Qed.

(** In a sorted list without repetitions, [S n] elements are at most the [n]-th. *)
Lemma count_le_nth l n x :
  StronglySorted (λ a b, (a ?= b)%Z ≠ Gt) l → NoDup l → l !! n = Some x →
  length (filter (λ y, (y <=? x)%Z = true) l) = S n.
Proof.
  intros Hs. revert n. induction Hs as [|y l Hs IH Hy]; intros n Hnd Hn; [done|].
  apply NoDup_cons in Hnd as [Hni Hnd]. rewrite Forall_forall in Hy. destruct n as [|n].
  - injection Hn as ->. rewrite filter_cons_True by (apply Z.leb_refl). rewrite filter_none; [done|].
    apply Forall_forall. intros z Hz Hle. specialize (Hy z Hz). rewrite Z.compare_le_iff in Hy.
    apply Z.leb_le in Hle. assert (z = x) as -> by lia. done.
  - simpl in Hn. rewrite filter_cons_True; [simpl; by rewrite (IH n)|].
    apply Z.leb_le, Z.compare_le_iff, Hy. by eapply list_elem_of_lookup_2.
Qed.

Lemma filter_zip_length {E} (P : Z → Prop) `{∀ x, Decision (P x)} l (es : list E) :
  length l = length es → length (filter (λ ce, P ce.1) (zip l es)) = length (filter P l).
Proof.
  revert es. induction l as [|x l IH]; intros [|e es] Hl; try done. simpl zip.
  rewrite !filter_cons. simpl. case_decide; simpl; rewrite IH; auto.
Qed.
End counting.

Lemma lru_cutoff_count ctrs nkeys :
  NoDup ctrs → nkeys < length ctrs →
  length (filter (λ c, (c <=? lru_cutoff ctrs nkeys)%Z = true) ctrs) = S nkeys.
Proof.
  intros Hnd Hlt. unfold lru_cutoff. destruct (Nat.leb_spec (length ctrs) nkeys); [lia|].
  pose proof (sort_by_perm Z.compare ctrs) as Hp.
  destruct (lookup_lt_is_Some_2 (sort_by Z.compare ctrs) nkeys) as [x Hx]; [by rewrite Hp|].
  rewrite Hx. simpl default. rewrite <-(count_le_nth (sort_by Z.compare ctrs) nkeys x).
  - apply Permutation_length. by rewrite Hp.
  - apply sort_by_sorted; [apply Zcmp_total|apply Zcmp_trans].
  - by rewrite Hp.
  - done.
Qed.

(** The least-recently-used strategy, asked for fewer keys than there are, picks
    exactly one key more than it was asked for; when the counters of the keys are
    distinct these are the keys that were read the longest ago: every picked key
    has a smaller counter than every key that stays. *)
Theorem lru_picks_oldest {E} (ctrs : list Z) (entries : list E) nkeys :
  NoDup ctrs → length ctrs = length entries → nkeys < length ctrs →
  ∃ picked kept : list (Z * E),
    zip ctrs entries ≡ₚ picked ++ kept ∧
    lru_pick_keys ctrs entries nkeys = picked.*2 ∧
    length picked = S nkeys ∧
    ∀ x y, x ∈ picked → y ∈ kept → (x.1 < y.1)%Z.
Proof.
  intros Hnd Hlen Hlt.
  exists (filter (λ ce : Z * E, (ce.1 <=? lru_cutoff ctrs nkeys)%Z = true) (zip ctrs entries)),
         (filter (λ ce : Z * E, ¬ (ce.1 <=? lru_cutoff ctrs nkeys)%Z = true) (zip ctrs entries)). split_and!.
  - symmetry. apply filter_app_complement.
  - done.
  - etrans; [|by apply lru_cutoff_count].
    exact (filter_zip_length (λ c, (c <=? lru_cutoff ctrs nkeys)%Z = true) ctrs entries Hlen).
  - intros x y [Hx _]%list_elem_of_filter [Hy _]%list_elem_of_filter. lia.
Qed.

Lemma lru_picks_oldest_witness :
  ∃ picked kept : list (Z * nat),
    zip [3; 1; 2]%Z [10; 20; 30] ≡ₚ picked ++ kept ∧
    lru_pick_keys [3; 1; 2]%Z [10; 20; 30] 1 = picked.*2 ∧ length picked = 2 ∧
    ∀ x y, x ∈ picked → y ∈ kept → (x.1 < y.1)%Z.
Proof.
  apply (lru_picks_oldest [3; 1; 2]%Z [10; 20; 30] 1).
  - apply (bool_decide_unpack _). vm_compute. exact I.
  - reflexivity.
  - simpl; lia.
Defined.

(** ** One generation *)
Section one_generation.
Context {E : Type} (gen_bool : nat → nat → nat → result bool).
Context (g : Z) (Hg : (0 <= g < 2 ^ 64)%Z).
Implicit Types (ctrs : list Z) (entries : list E).

Lemma gen_buckets_one ctrs :
  Forall (eq g) ctrs → gen_buckets g ctrs = length ctrs :: replicate (NUM_GENERATIONS - 1) 0.
Proof using Hg.
  intros Hc. unfold gen_buckets. change (replicate NUM_GENERATIONS 0) with (0 :: replicate (NUM_GENERATIONS - 1) 0).
  assert (∀ n, foldl (λ buckets gen, alter S (gen_bucket g gen) buckets) (n :: replicate (NUM_GENERATIONS - 1) 0) ctrs
               = (n + length ctrs) :: replicate (NUM_GENERATIONS - 1) 0) as Hfold; [|apply Hfold].
  induction Hc as [|c ctrs <- _ IH]; intros n; [by rewrite Nat.add_0_r|]. cbn [foldl length].
  assert (gen_bucket g g = 0) as -> by (unfold gen_bucket; by rewrite Z.sub_diag, Zmod_0_l).
  change (alter S 0 (n :: replicate (NUM_GENERATIONS - 1) 0)) with (S n :: replicate (NUM_GENERATIONS - 1) 0).
  rewrite IH. f_equal. lia.
Qed.

Lemma gen_loop_zeros k rest last nkeys : k ≤ last → gen_loop (replicate k 0 ++ rest) last nkeys = gen_loop rest (last - k) nkeys.
Proof.
  revert last. induction k as [|k IH]; intros last Hk; simpl; [by rewrite Nat.sub_0_r|].
  rewrite Nat.sub_0_r, IH by lia. f_equal. lia.
Qed.

Lemma gen_plan_one ctrs nkeys :
  Forall (eq g) ctrs → gen_plan g ctrs nkeys = (0, if length ctrs <=? nkeys then nkeys - length ctrs else nkeys).
Proof using Hg.
  intros Hc. unfold gen_plan. rewrite gen_buckets_one by done. cbn [rev].
  assert (rev (replicate (NUM_GENERATIONS - 1) 0) = replicate (NUM_GENERATIONS - 1) 0) as -> by reflexivity.
  rewrite gen_loop_zeros by (unfold NUM_GENERATIONS; lia). cbn [gen_loop].
  by destruct (length ctrs <=? nkeys).
Qed.

Lemma last_gen_one ctrs nkeys : Forall (eq g) ctrs → last_gen_to_evict g ctrs nkeys = g.
Proof using Hg.
  intros Hc. unfold last_gen_to_evict. rewrite gen_plan_one by done. cbn [fst].
  rewrite Z.sub_0_r. by apply Z.mod_small.
Qed.
End one_generation.

(** When every key is of the current generation and the strategy is asked for all
    of them, the loop over the generations counts the whole current one as evicted
    and leaves a probability of zero for its keys: no key is picked. *)
Theorem generational_full_eviction_picks_nothing {E} (gen_bool : nat → nat → nat → result bool)
    (g : Z) (ctrs : list Z) (entries : list E) :
  (∀ den i, gen_bool 0 den i = Ok false) → (0 <= g < 2 ^ 64)%Z →
  Forall (eq g) ctrs →
  gen_pick_keys gen_bool g ctrs entries (length ctrs) = Ok [].
Proof.
  intros Hb Hg Hc. unfold gen_pick_keys. rewrite last_gen_one, gen_plan_one by done.
  rewrite Nat.leb_refl, Nat.sub_diag. generalize (default 0 (gen_buckets g ctrs !! 0)). intros den.
  assert (∀ i, gen_pick_from gen_bool g 0 den i (zip ctrs entries) = Ok []) as Hp; [|apply Hp].
  revert entries. induction Hc as [|c ctrs <- _ IH]; intros [|e entries] i; try done.
  cbn [zip zip_with gen_pick_from]. rewrite Z.ltb_irrefl, Z.eqb_refl, Hb. cbn [mbind result_bind].
  unfold zip in IH. by rewrite IH.
Qed.

Lemma generational_full_eviction_picks_nothing_witness :
  gen_pick_keys (λ num _ _, Ok (0 <? num)) 7 [7; 7; 7]%Z [10; 20; 30] 3 = Ok [].
Proof.
  apply (generational_full_eviction_picks_nothing (λ num _ _, Ok (0 <? num)) 7 [7; 7; 7]%Z [10; 20; 30]).
  - reflexivity.
  - lia.
  - by repeat constructor.
Defined.

Lemma evict_ranges_all {E} (f : Z → bool) (l : list (Z * E)) :
  l ≠ [] → Forall (λ ce, f ce.1 = true) l → evict_ranges f l = [l.*2].
Proof.
  intros Hne Hf. induction Hf as [|[c e] l Hc Hl IH]; [done|]. cbn [evict_ranges fst] in *.
  rewrite Hc. destruct l as [|[c' e'] l]; [done|]. rewrite IH by done.
  apply Forall_cons in Hl as [Hc' _]. simpl in Hc' |- *. by rewrite Hc'.
Qed.

(** Asked for part of a single generation as ranges, the generational strategy
    picks the whole generation: the number of keys left to evict is tested but
    never decreased. *)
Theorem generational_ranges_pick_whole_generation {E} (gen_bool : nat → nat → nat → result bool)
    (g : Z) (ctrs : list Z) (entries : list E) nkeys :
  (0 <= g < 2 ^ 64)%Z → Forall (eq g) ctrs → length ctrs = length entries →
  0 < nkeys < length ctrs →
  pick_ranges_to_evict gen_bool (Generational g) ctrs entries nkeys
  = Ok ([entries], Generational (fetch_add g)).
Proof.
  intros Hg Hc Hlen Hn. unfold pick_ranges_to_evict. do 2 f_equal.
  rewrite evict_ranges_all.
  - f_equal. apply snd_zip. lia.
  - destruct ctrs, entries; simpl in *; try lia; done.
  - apply Forall_forall. intros [c e] Hce. apply elem_of_zip_l in Hce. rewrite Forall_forall in Hc.
    rewrite <-(Hc c Hce). cbn [fst]. unfold gen_group_by.
    rewrite last_gen_one, gen_plan_one by (try apply Forall_forall; done). cbn [snd].
    rewrite Z.eqb_refl. destruct (Nat.leb_spec (length ctrs) nkeys); [lia|].
    rewrite (proj2 (Nat.ltb_lt 0 nkeys)) by lia. apply orb_true_r.
Qed.

Lemma generational_ranges_pick_whole_generation_witness :
  pick_ranges_to_evict (λ _ _ _, Panic) (Generational 7) [7; 7; 7]%Z [10; 20; 30] 1
  = Ok ([[10; 20; 30]], Generational 8).
Proof.
  apply (generational_ranges_pick_whole_generation (λ _ _ _, Panic) 7 [7; 7; 7]%Z [10; 20; 30] 1).
  - lia.
  - by repeat constructor.
  - reflexivity.
  - simpl; lia.
Defined.
