(* ===== verification/ReaderMap.v ===== *)
(** * ReaderMap: the map behind a reader

    Models [reader-map/src/]: the values of a key and the two kinds of index
    ([values.rs], [inner.rs]), the pending operations and how a copy of the map
    absorbs them, the write handle ([write.rs]) and the read guard
    ([read/read_ref.rs], [read.rs]).

    The map is kept twice by the crate [left-right], a type class here
    ([LeftRight]): operations appended to the write handle reach readers with the
    next [publish], which lets one copy absorb them with [absorb_first] and the
    other with [absorb_second].  The crate's documented contract with the map is
    the class [Absorb], which the map implements.

    The counters that eviction strategies attach to keys ([EvictionMeta]) are
    atomics that readers update concurrently; they are not part of the values
    here, see [Eviction]. *)
From S2P Require Import Prelude Intervals BTreeMap IntervalTree PartialMap Result KeyedState InsertionOrder Eviction.

(** ** [std::collections::HashMap]

    Hashers are seeded at random, so the order of the entries is left open. *)
Class HashMap (K A M : Type) `{EqDecision K} := {
  hm_new : M;
  hm_get : M → K → option A;
  hm_insert : M → K → A → M;
  hm_remove : M → K → M;
  hm_iter : M → list (K * A);
  hm_iter_new : hm_iter hm_new = [];
  hm_iter_nodup m : NoDup (hm_iter m).*1;
  hm_iter_get m k a : (k, a) ∈ hm_iter m ↔ hm_get m k = Some a;
  hm_insert_get m k a k' : hm_get (hm_insert m k a) k' = if decide (k' = k) then Some a else hm_get m k';
  hm_remove_get m k k' : hm_get (hm_remove m k) k' = if decide (k' = k) then None else hm_get m k';
}.

Section gmap_hash_map.
Context {K A : Type} `{Countable K}.
#[export] Instance gmap_hash_map : HashMap K A (gmap K A).
Proof.
  refine {| hm_new := ∅; hm_get m k := m !! k; hm_insert m k a := <[k:=a]> m;
            hm_remove m k := delete k m; hm_iter := map_to_list |}.
  - apply map_to_list_empty.
  - intros m. apply NoDup_fst_map_to_list.
  - intros m k a. apply elem_of_map_to_list.
  - intros m k a k'. case_decide; subst; [apply lookup_insert_eq|by apply lookup_insert_ne].
  - intros m k k'. case_decide; subst; [apply lookup_delete_eq|by apply lookup_delete_ne].
Defined.
End gmap_hash_map.

(** ** Values

    [SmallVec::insert] and [SmallVec::remove] panic outside of the vector. *)
#[export] Instance values_default A : Default (list A) | 0 := [].

Definition values_insert {A} (values : list A) (index : nat) (element : A) : result (list A) :=
  if index <=? length values then Ok (take index values ++ element :: drop index values) else Panic.
Definition values_remove {A} (values : list A) (index : nat) : result (list A) :=
  if index <? length values then Ok (take index values ++ drop (S index) values) else Panic.

(** A predicate of [retain]: a closure that may keep a state between calls; its
    boolean argument asks it to reset that state. *)
Record Predicate (A : Type) := {
  pr_state : Type;
  pr_init : pr_state;
  pr_call : pr_state → A → bool → bool * pr_state;
}.
Arguments pr_state {A}.
Arguments pr_init {A}.
Arguments pr_call {A}.
Definition pr_with {A} (p : Predicate A) (s : pr_state p) : Predicate A :=
  {| pr_state := pr_state p; pr_init := s; pr_call := pr_call p |}.

(** [Values::retain] with the closure of [absorb_first] and [absorb_second]. *)
Fixpoint retain_from {A} (p : Predicate A) (s : pr_state p) (first : bool) (values : list A) :
    list A * pr_state p :=
  match values with
  | [] => ([], s)
  | v :: values' =>
      let '(keep, s') := pr_call p s v first in
      let '(rest, s'') := retain_from p s' false values' in
      (if keep then v :: rest else rest, s'')
  end.
Definition values_retain {A} (p : Predicate A) (values : list A) : list A * Predicate A :=
  let '(rest, s) := retain_from p (pr_init p) true values in (rest, pr_with p s).

(** ** Data *)
Inductive Data (K A HM : Type) :=
  | DBTreeMap (map : PartialMap K (list A))
  | DHashMap (map : HM).
Arguments DBTreeMap {K A HM}.
Arguments DHashMap {K A HM}.

Section data.
Context `{Ord K} {A HM : Type} `{!HashMap K (list A) HM}.
Implicit Types (d : Data K A HM) (k : K) (r : BoundPair K).

Definition data_with_index_type (t : IndexType) : Data K A HM :=
  match t with IxHashMap => DHashMap hm_new | IxBTreeMap => DBTreeMap pm_new end.
Definition data_index_type d : IndexType :=
  match d with DBTreeMap _ => IxBTreeMap | DHashMap _ => IxHashMap end.
Definition data_is_empty d : bool :=
  match d with
  | DBTreeMap m => pm_is_empty m
  | DHashMap m => match hm_iter m with [] => true | _ => false end
  end.
Definition data_len d : nat :=
  match d with DBTreeMap m => pm_num_keys m | DHashMap m => length (hm_iter m) end.
Definition data_iter d : list (K * list A) :=
  match d with DBTreeMap m => pm_map m | DHashMap m => hm_iter m end.
Definition data_clear d : Data K A HM :=
  match d with DBTreeMap m => DBTreeMap (pm_clear m) | DHashMap _ => DHashMap hm_new end.

(** [range]: [inl] are the entries of the range, [inr] the missing ranges. *)
Definition data_range d r : result (list (K * list A) + list (BoundPair K)) :=
  match d with DBTreeMap m => expect (pm_range m r) | DHashMap _ => Panic end.
Definition data_add_range d r : result (Data K A HM) :=
  match d with
  | DBTreeMap m => DBTreeMap <$> expect (pm_insert_range m r)
  | DHashMap _ => Ok d
  end.
Definition data_remove_range d r : result (Data K A HM) :=
  match d with
  | DBTreeMap m => '(_, m') ← expect (pm_remove_range m r); Ok (DBTreeMap m')
  | DHashMap _ => Panic
  end.
Definition data_contains_range d r : result bool :=
  match d with DBTreeMap m => expect (pm_contains_range m r) | DHashMap _ => Panic end.
Definition data_overlaps_range d r : result bool :=
  match d with DBTreeMap m => expect (pm_overlaps_range m r) | DHashMap _ => Panic end.
Definition data_get d k : option (list A) :=
  match d with DBTreeMap m => pm_get m k | DHashMap m => hm_get m k end.

(** References into the map: the value, and the map after a write through it. *)
Definition data_get_mut d k : option (list A * (list A → Data K A HM)) :=
  match d with
  | DBTreeMap m =>
      match pm_get_mut m k with Some (vs, write) => Some (vs, λ vs', DBTreeMap (write vs')) | None => None end
  | DHashMap m =>
      match hm_get m k with Some vs => Some (vs, λ vs', DHashMap (hm_insert m k vs')) | None => None end
  end.
Definition data_remove d k : result (Data K A HM) :=
  match d with
  | DBTreeMap m => '(_, m') ← expect (pm_remove m k); Ok (DBTreeMap m')
  | DHashMap m => Ok (DHashMap (hm_remove m k))
  end.
Definition data_contains_key d k : bool :=
  match d with
  | DBTreeMap m => pm_contains_key m k
  | DHashMap m => match hm_get m k with Some _ => true | None => false end
  end.
(** [entry(key).or_insert_with(Values::new)]. *)
Definition data_entry d k : result (list A * (list A → Data K A HM)) :=
  match d with
  | DBTreeMap m =>
      match pm_entry m k with
      | EntryVacant k =>
          match vacant_insert m k [] with Some (vs, write) => Ok (vs, λ vs', DBTreeMap (write vs')) | None => Panic end
      | EntryOccupied e => let '(vs, write) := occupied_into_mut m e in Ok (vs, λ vs', DBTreeMap (write vs'))
      end
  | DHashMap m => Ok (default [] (hm_get m k), λ vs, DHashMap (hm_insert m k vs))
  end.
End data.

(** ** Operations *)
Inductive Operation (K A M T : Type) :=
  | OAdd (k : K) (v : A) (idx : option nat)
  | OAddRange (r : BoundPair K)
  | ORemoveValue (k : K) (v : A) (idx : option nat)
  | ORemoveEntry (k : K)
  | ORemoveRange (r : BoundPair K)
  | OClear (k : K)
  | OPurge
  | ORetain (k : K) (p : Predicate A)
  | OMarkReady
  | OSetMeta (m : M)
  | OSetTimestamp (t : T).
Arguments OAdd {K A M T}.
Arguments OAddRange {K A M T}.
Arguments ORemoveValue {K A M T}.
Arguments ORemoveEntry {K A M T}.
Arguments ORemoveRange {K A M T}.
Arguments OClear {K A M T}.
Arguments OPurge {K A M T}.
Arguments ORetain {K A M T}.
Arguments OMarkReady {K A M T}.
Arguments OSetMeta {K A M T}.
Arguments OSetTimestamp {K A M T}.

Record Inner (K A HM M T I : Type) := {
  in_data : Data K A HM;
  in_meta : M;
  in_timestamp : T;
  in_ready : bool;
  in_insertion_order : option I;
}.
Arguments in_data {K A HM M T I}.
Arguments in_meta {K A HM M T I}.
Arguments in_timestamp {K A HM M T I}.
Arguments in_ready {K A HM M T I}.
Arguments in_insertion_order {K A HM M T I}.

Section inner.
Context `{Ord K} `{Ord A} {HM M T I : Type} `{!HashMap K (list A) HM} `{!InsertionOrder I A}.
Implicit Types (self other : Inner K A HM M T I) (op : Operation K A M T).

Definition inner_new (t : IndexType) (meta : M) (timestamp : T) (order : option I) : Inner K A HM M T I :=
  {| in_data := data_with_index_type t; in_meta := meta; in_timestamp := timestamp;
     in_ready := false; in_insertion_order := order |}.

Definition set_data self (d : Data K A HM) : Inner K A HM M T I :=
  {| in_data := d; in_meta := in_meta self; in_timestamp := in_timestamp self;
     in_ready := in_ready self; in_insertion_order := in_insertion_order self |}.

(** The position of a value in the values of its key. *)
Definition search other (values : list A) (value : A) : result (nat + nat) :=
  match in_insertion_order other with
  | Some order => get_insertion_order order values value
  | None => binary_search values value
  end.
(** [unwrap_or_else(|i| i)]. *)
Definition either_idx (res : nat + nat) : nat := match res with inl i | inr i => i end.

Definition absorb_add self k v (insert_idx : list A → result nat) : result (Inner K A HM M T I * nat) :=
  '(values, write) ← data_entry (in_data self) k;
  i ← insert_idx values;
  values' ← values_insert values i v;
  Ok (set_data self (write values'), i).

(** [get_mut] writes the default value to a key that is only marked as filled. *)
Definition absorb_remove_value self k (remove_idx : list A → result (nat + nat)) :
    result (Inner K A HM M T I * option nat) :=
  match data_get_mut (in_data self) k with
  | Some (e, write) =>
      res ← remove_idx e;
      match res with
      | inl i => e' ← values_remove e i; Ok (set_data self (write e'), Some i)
      | inr _ => Ok (set_data self (write e), None)
      end
  | None => Ok (self, None)
  end.
Definition absorb_retain self k (p : Predicate A) : Inner K A HM M T I * Predicate A :=
  match data_get_mut (in_data self) k with
  | Some (e, write) => let '(e', p') := values_retain p e in (set_data self (write e'), p')
  | None => (self, p)
  end.

(** The operations both copies absorb in the same way. *)
Definition absorb_plain self op : result (Inner K A HM M T I) :=
  match op with
  | OAddRange r => set_data self <$> data_add_range (in_data self) r
  | OClear k => '(_, write) ← data_entry (in_data self) k; Ok (set_data self (write []))
  | ORemoveEntry k => set_data self <$> data_remove (in_data self) k
  | OPurge => Ok (set_data self (data_clear (in_data self)))
  | ORemoveRange r => set_data self <$> data_remove_range (in_data self) r
  | OMarkReady => Ok {| in_data := in_data self; in_meta := in_meta self; in_timestamp := in_timestamp self;
                        in_ready := true; in_insertion_order := in_insertion_order self |}
  | OSetMeta m => Ok {| in_data := in_data self; in_meta := m; in_timestamp := in_timestamp self;
                        in_ready := in_ready self; in_insertion_order := in_insertion_order self |}
  | OSetTimestamp t => Ok {| in_data := in_data self; in_meta := in_meta self; in_timestamp := t;
                             in_ready := in_ready self; in_insertion_order := in_insertion_order self |}
  | OAdd _ _ _ | ORemoveValue _ _ _ | ORetain _ _ => Ok self
  end.

(** [absorb_first]; the operation comes back with the positions it found. *)
Definition inner_absorb_first self op other : result (Inner K A HM M T I * Operation K A M T) :=
  match op with
  | OAdd k v _ =>
      '(self', i) ← absorb_add self k v (λ values, either_idx <$> search other values v);
      Ok (self', OAdd k v (Some i))
  | ORemoveValue k v idx =>
      '(self', found) ← absorb_remove_value self k (λ e, search other e v);
      Ok (self', ORemoveValue k v match found with Some i => Some i | None => idx end)
  | ORetain k p => let '(self', p') := absorb_retain self k p in Ok (self', ORetain k p')
  | _ => self' ← absorb_plain self op; Ok (self', op)
  end.

Definition inner_absorb_second self op other : result (Inner K A HM M T I) :=
  match op with
  | OAdd k v idx =>
      fst <$> absorb_add self k v (λ values,
        match idx with Some i => Ok i | None => either_idx <$> search other values v end)
  | ORemoveValue k v idx =>
      fst <$> absorb_remove_value self k (λ e,
        match idx with Some i => Ok (inl i) | None => search other e v end)
  | ORetain k p => Ok (absorb_retain self k p).1
  | _ => absorb_plain self op
  end.

Definition inner_sync_with self (first : Inner K A HM M T I) : Inner K A HM M T I :=
  {| in_data := in_data first; in_meta := in_meta self; in_timestamp := in_timestamp self;
     in_ready := in_ready first; in_insertion_order := in_insertion_order self |}.
End inner.

(** ** [left_right]

    [Absorb]: what the crate asks of a type it keeps in two copies.  [copies_agree]
    says in what the copies are to agree, [op_sound] which operations may be
    appended and [same_config] what operations never change. *)
Class Absorb (T Op : Type) := {
  absorb_first : T → Op → T → result (T * Op);
  absorb_second : T → Op → T → result T;
  sync_with : T → T → T;
  copies_agree : T → T → Prop;
  same_config : T → T → Prop;
  op_sound : Op → Prop;
  copies_agree_equiv :: Equivalence copies_agree;
  same_config_equiv :: Equivalence same_config;
  copies_agree_config a b : copies_agree a b → same_config a b;
  absorb_first_config a op other a' op' : absorb_first a op other = Ok (a', op') → same_config a a';
  absorb_second_config a op other a' : absorb_second a op other = Ok a' → same_config a a';
  (** The first application does the same to copies that agree. *)
  absorb_first_agree a b op other other' a' op' :
    op_sound op → copies_agree a b → same_config other other' →
    absorb_first a op other = Ok (a', op') →
    ∃ b', absorb_first b op other' = Ok (b', op') ∧ copies_agree a' b';
  (** The second application of an operation does what the first one did. *)
  absorb_second_agree a b op other other' a' op' :
    op_sound op → copies_agree a b → same_config other other' →
    absorb_first a op other = Ok (a', op') →
    ∃ b', absorb_second b op' other' = Ok b' ∧ copies_agree a' b';
  (** So does the second application alone, of which the crate makes use before
      the first publication. *)
  absorb_second_alone a op other a' op' :
    op_sound op → absorb_first a op other = Ok (a', op') →
    ∃ b', absorb_second a op other = Ok b' ∧ copies_agree a' b';
  sync_with_agree a b : same_config a b → copies_agree (sync_with a b) b;
}.

(** The effect of a sequence of operations on one copy. *)
Definition absorb_all `{Absorb T Op} (t : T) (ops : list Op) : result T :=
  result_foldl (λ t op, fst <$> absorb_first t op t) t ops.

(** [LeftRight]: the handles of the crate.  [lr_enter] is the copy readers see,
    [lr_pending] the operations appended since the last [publish]. *)
Class LeftRight (T Op H : Type) `{!Absorb T Op} := {
  lr_new : T → H;
  lr_append : H → Op → H;
  lr_publish : H → result H;
  lr_enter : H → T;
  lr_pending : H → list Op;
  lr_wf : H → Prop;
  lr_new_spec t : lr_wf (lr_new t) ∧ lr_enter (lr_new t) = t ∧ lr_pending (lr_new t) = [];
  lr_append_spec h op :
    lr_wf h → op_sound op →
    lr_wf (lr_append h op) ∧ lr_enter (lr_append h op) = lr_enter h ∧
    lr_pending (lr_append h op) = lr_pending h ++ [op];
  lr_publish_spec h t :
    lr_wf h → absorb_all (lr_enter h) (lr_pending h) = Ok t →
    ∃ h', lr_publish h = Ok h' ∧ lr_wf h' ∧ copies_agree (lr_enter h') t ∧ lr_pending h' = [];
}.

(** [reader_map::Error]; the write handle outlives the model, so maps are never
    destroyed. *)
Inductive ReaderMapError := NotPublished | Destroyed.

(** ** Handles *)
Section handles.
Context `{Ord K} `{Ord A} {HM M T I W : Type} `{!HashMap K (list A) HM} `{!InsertionOrder I A}.
Context `{!Absorb (Inner K A HM M T I) (Operation K A M T)}.
Context `{!LeftRight (Inner K A HM M T I) (Operation K A M T) W}.
Implicit Types (h : W) (k : K) (v : A).

(** [Options::construct]. *)
Definition construct (t : IndexType) (meta : M) (timestamp : T) (order : option I) : W :=
  lr_append (lr_new (inner_new (HM:=HM) (A:=A) (K:=K) t meta timestamp order)) OMarkReady.

Definition publish h : result W := lr_publish h.
Definition set_meta h (meta : M) : W := lr_append h (OSetMeta meta).
Definition set_timestamp h (timestamp : T) : W := lr_append h (OSetTimestamp timestamp).
Definition insert h k v : W := lr_append h (OAdd k v None).
Definition insert_range h (r : BoundPair K) : W := lr_append h (OAddRange r).
Definition clear h k : W := lr_append h (OClear k).
Definition remove_value h k v : W := lr_append h (ORemoveValue k v None).
Definition remove_entry h k : W := lr_append h (ORemoveEntry k).
Definition remove_range h (r : BoundPair K) : W := lr_append h (ORemoveRange r).
Definition purge h : W := lr_append h OPurge.
Definition retain h k (p : Predicate A) : W := lr_append h (ORetain k p).

(** [ReadHandle::enter]. *)
Definition enter h : Inner K A HM M T I + ReaderMapError :=
  let inner := lr_enter h in if in_ready inner then inl inner else inr NotPublished.
Definition handle_len h : nat := match enter h with inl x => data_len (in_data x) | inr _ => 0 end.
Definition handle_is_empty h : bool := match enter h with inl x => data_is_empty (in_data x) | inr _ => true end.
Definition handle_timestamp h : T + ReaderMapError :=
  match enter h with inl x => inl (in_timestamp x) | inr e => inr e end.

(** [evict_keys]: [ctrs] are the counters of the entries, [nkeys] stands for
    [(len as f64 * ratio) as usize], [mem_cnt] for the given closure. *)
Definition evict_keys (gen_bool : nat → nat → nat → result bool) h (strategy : EvictionStrategy) (ctrs : list Z)
    (nkeys : nat) (mem_cnt : K → list A → Z) : result (W * EvictionStrategy * Z) :=
  h ← publish h;
  let d := in_data (lr_enter h) in
  let nkeys := Nat.min nkeys (data_len d) in
  match data_index_type d with
  | IxBTreeMap =>
      '(ranges, strategy) ← pick_ranges_to_evict gen_bool strategy ctrs (data_iter d) nkeys;
      let freed := foldl (λ n kv, n + mem_cnt kv.1 kv.2)%Z 0%Z (concat ranges) in
      h ← result_foldl (λ h run,
            '(start, _) ← expect (head run);
            '(end_, _) ← expect (last run);
            Ok (remove_range h (Included start, Included end_))) h ranges;
      Ok (h, strategy, freed)
  | IxHashMap =>
      '(kvs, strategy) ← pick_keys_to_evict gen_bool strategy ctrs (data_iter d) nkeys;
      Ok (foldl (λ h kv, remove_entry h kv.1) h kvs, strategy,
          foldl (λ n kv, n + mem_cnt kv.1 kv.2)%Z 0%Z kvs)
  end.
End handles.
