(* ===== verification/ReaderMapProps.v ===== *)
(** * ReaderMapProps: readers see what was published

    Shows that the reader map keeps its contract with [left_right] (the instance
    [inner_absorb] of [Absorb]): the second copy of the map, which reuses the
    positions the first one found, ends up like the first; that two copies kept in
    this way implement the handles ([copies_left_right]); and that after [publish]
    readers see the contents that the appended operations describe
    ([contents_step]), values sorted in the insertion order. *)
From S2P Require Import Prelude Intervals BTreeMap IntervalTree IntervalTreeProps PartialMap Result Crates.
From S2P Require Import KeyedState InsertionOrder Eviction ReaderMap.

(** ** The contract with [left_right] *)
Section absorb.
Context `{Ord K} `{Ord A} {HM M T I : Type} `{!HashMap K (list A) HM} `{!InsertionOrder I A}.
Implicit Types (a b other : Inner K A HM M T I) (op : Operation K A M T) (p : Predicate A).

(** A predicate that forgets its state when asked to. *)
Definition resets p : Prop := ∀ s s' v, pr_call p s v true = pr_call p s' v true.
(** Operations as the write handle appends them. *)
Definition fresh_op op : Prop :=
  match op with
  | OAdd _ _ idx | ORemoveValue _ _ idx => idx = None
  | ORetain _ p => resets p
  | _ => True
  end.
Definition inner_agree a b : Prop :=
  in_data a = in_data b ∧ in_ready a = in_ready b ∧ in_insertion_order a = in_insertion_order b.
Definition inner_config a b : Prop := in_insertion_order a = in_insertion_order b.

Lemma set_data_agree a b d : inner_agree a b → inner_agree (set_data a d) (set_data b d).
Proof. intros (? & ? & ?). by split_and!. Qed.
Lemma agree_data a b : inner_agree a b → in_data b = in_data a.
Proof. by intros [-> _]. Qed.

Lemma search_config other other' values v : inner_config other other' → search other' values v = search other values v.
Proof. unfold search, inner_config. by intros ->. Qed.

Lemma retain_resets p s s' values :
  resets p → (retain_from p s true values).1 = (retain_from p s' true values).1.
Proof. intros Hp. destruct values as [|v values]; [done|]. simpl. by rewrite (Hp s s' v). Qed.

Lemma values_retain_second p values :
  resets p → (values_retain (values_retain p values).2 values).1 = (values_retain p values).1.
Proof.
  intros Hp. unfold values_retain at 2 3. destruct (retain_from p (pr_init p) true values) as [rest s] eqn:E.
  cbn [fst snd]. unfold values_retain.
  assert (∀ s0 first l, retain_from (pr_with p s) s0 first l = retain_from p s0 first l) as Heq.
  { intros s0 first l. revert s0 first. induction l as [|v l IH]; intros s0 first; [done|]. cbn [retain_from].
    cbn [pr_call pr_with]. destruct (pr_call p s0 v first) as [keep s1]. by rewrite IH. }
  rewrite Heq. pose proof (retain_resets p (pr_init (pr_with p s)) (pr_init p) values Hp) as Hr.
  rewrite E in Hr. by destruct (retain_from p (pr_init (pr_with p s)) true values).
Qed.

Lemma absorb_plain_agree a b op a' :
  inner_agree a b → absorb_plain a op = Ok a' → ∃ b', absorb_plain b op = Ok b' ∧ inner_agree a' b'.
Proof.
  intros Hab Ha. unfold absorb_plain in *. rewrite (agree_data a b Hab). destruct op;
    try match type of Ha with (set_data a <$> ?m) = _ =>
      destruct m as [d| |]; [|done..]; injection Ha as <-; eexists; split; [done|by apply set_data_agree] end.
  3: { destruct (data_entry (in_data a) k) as [[vs write]| |]; [|done..]. injection Ha as <-.
       eexists. split; [done|by apply set_data_agree]. }
  all: injection Ha as <-; eexists; split; [done|]; destruct Hab as (? & ? & ?); split_and!; simpl; congruence.
Qed.

Lemma absorb_add_agree a b k v f g a' i :
  inner_agree a b → (∀ values, f values = Ok i → g values = Ok i) →
  absorb_add a k v f = Ok (a', i) → ∃ b', absorb_add b k v g = Ok (b', i) ∧ inner_agree a' b'.
Proof.
  intros Hab Hfg Ha. unfold absorb_add in *. rewrite (agree_data a b Hab).
  destruct (data_entry (in_data a) k) as [[values write]| |]; [|done..]. cbn [mbind result_bind] in *.
  destruct (f values) as [i'| |] eqn:E; [|done..]. cbn [mbind result_bind] in *.
  destruct (values_insert values i' v) as [values'| |] eqn:E'; [|done..]. cbn [mbind result_bind] in *.
  injection Ha as <- <-. rewrite (Hfg _ E). cbn [mbind result_bind]. rewrite E'. cbn [mbind result_bind].
  eauto using set_data_agree.
Qed.

Lemma absorb_remove_agree a b k f g a' found :
  inner_agree a b →
  (∀ e res, f e = Ok res → found = match res with inl i => Some i | inr _ => None end → g e = Ok res) →
  absorb_remove_value a k f = Ok (a', found) →
  ∃ b', absorb_remove_value b k g = Ok (b', found) ∧ inner_agree a' b'.
Proof.
  intros Hab Hfg Ha. unfold absorb_remove_value in *. rewrite (agree_data a b Hab).
  destruct (data_get_mut (in_data a) k) as [[e write]|]; [|injection Ha as <- <-; eauto].
  destruct (f e) as [res| |] eqn:E; [|done..]. cbn [mbind result_bind] in *. destruct res as [i|i].
  - destruct (values_remove e i) as [e'| |] eqn:E'; [|done..]. cbn [mbind result_bind] in *.
    injection Ha as <- <-. rewrite (Hfg _ _ E) by done. cbn [mbind result_bind]. rewrite E'.
    cbn [mbind result_bind]. eauto using set_data_agree.
  - injection Ha as <- <-. rewrite (Hfg _ _ E) by done. eauto using set_data_agree.
Qed.

Lemma absorb_retain_agree a b k p q :
  inner_agree a b → (∀ e, (values_retain p e).1 = (values_retain q e).1) →
  inner_agree (absorb_retain a k p).1 (absorb_retain b k q).1.
Proof.
  intros Hab Hpq. unfold absorb_retain. rewrite (agree_data a b Hab).
  destruct (data_get_mut (in_data a) k) as [[e write]|]; [|done]. specialize (Hpq e).
  destruct (values_retain p e), (values_retain q e). simpl in *. subst. by apply set_data_agree.
Qed.

(** The first application does the same to both copies. *)
Lemma inner_first_agree a b op other other' a' op' :
  inner_agree a b → inner_config other other' →
  inner_absorb_first a op other = Ok (a', op') →
  ∃ b', inner_absorb_first b op other' = Ok (b', op') ∧ inner_agree a' b'.
Proof.
  intros Hab Ho Ha. destruct op as [k v idx| |k v idx| | | | |k p| | |]; cbn [inner_absorb_first] in *.
  1: { destruct (absorb_add a k v _) as [[a1 i]| |] eqn:E; [|done..]. cbn [mbind result_bind] in Ha.
       injection Ha as <- <-. edestruct absorb_add_agree as (b' & Hb & Hag); [exact Hab| |exact E|].
       2: { rewrite Hb. cbn [mbind result_bind]. eauto. }
       intros values. cbv beta. by rewrite (search_config other other') by done. }
  2: { destruct (absorb_remove_value a k _) as [[a1 found]| |] eqn:E; [|done..]. cbn [mbind result_bind] in Ha.
       injection Ha as <- <-. edestruct absorb_remove_agree as (b' & Hb & Hag); [exact Hab| |exact E|].
       2: { rewrite Hb. cbn [mbind result_bind]. eauto. }
       intros e res. cbv beta. by rewrite (search_config other other') by done. }
  6: { assert ((absorb_retain a k p).2 = (absorb_retain b k p).2) as Hp.
       { unfold absorb_retain. rewrite (agree_data a b Hab).
         destruct (data_get_mut (in_data a) k) as [[e write]|]; [|done]. by destruct (values_retain p e). }
       pose proof (absorb_retain_agree a b k p p Hab (λ _, eq_refl)) as Hr.
       destruct (absorb_retain a k p), (absorb_retain b k p). simpl in *. simplify_eq. eauto. }
  all: match type of Ha with context [absorb_plain ?x ?op] =>
    destruct (absorb_plain x op) as [a1| |] eqn:E; [|done..]; cbn [mbind result_bind] in Ha;
    injection Ha as <- <-; destruct (absorb_plain_agree a b op a1 Hab E) as (b' & -> & ?); cbn [mbind result_bind]; eauto
  end.
Qed.

(** The second application does what the first one did. *)
Lemma inner_second_agree a b op other other' a' op' :
  fresh_op op → inner_agree a b → inner_config other other' →
  inner_absorb_first a op other = Ok (a', op') →
  ∃ b', inner_absorb_second b op' other' = Ok b' ∧ inner_agree a' b'.
Proof.
  intros Hop Hab Ho Ha. destruct op as [k v idx| |k v idx| | | | |k p| | |]; cbn [inner_absorb_first] in *.
  1: { destruct (absorb_add a k v _) as [[a1 i]| |] eqn:E; [|done..]. cbn [mbind result_bind] in Ha.
       injection Ha as <- <-. cbn [inner_absorb_second].
       edestruct (absorb_add_agree a b k v (λ values, either_idx <$> search other values v) (λ _, Ok i))
         as (b' & Hb & Hag); [exact Hab| |exact E|]; [done|].
       rewrite Hb. eauto. }
  2: { simpl in Hop. subst idx.
       destruct (absorb_remove_value a k _) as [[a1 found]| |] eqn:E; [|done..]. cbn [mbind result_bind] in Ha.
       injection Ha as <- <-. cbn [inner_absorb_second].
       edestruct (absorb_remove_agree a b k (λ e, search other e v) (λ e, match found with Some i => Ok (inl i) | None => search other' e v end))
         as (b' & Hb & Hag); [exact Hab| |exact E|].
       2: { destruct found; rewrite Hb; eauto. }
       intros e [i|i] Hres ->; [done|]. by rewrite (search_config other other'). }
  6: { pose proof (absorb_retain_agree a b k p (absorb_retain a k p).2 Hab) as Hr.
       destruct (absorb_retain a k p) as [a1 p1] eqn:E. simpl in *. injection Ha as <- <-.
       cbn [inner_absorb_second]. eexists. split; [done|].
       unfold absorb_retain in E |- *. rewrite (agree_data a b Hab) in *.
       destruct (data_get_mut (in_data a) k) as [[e write]|]; [|by injection E as <- <-].
       pose proof (values_retain_second p e Hop) as Hv.
       destruct (values_retain p e) as [e1 p2]. injection E as <- <-. simpl in Hv.
       destruct (values_retain p2 e) as [e2 p3]. simpl in *. subst. by apply set_data_agree. }
  all: match type of Ha with context [absorb_plain ?x ?op] =>
    destruct (absorb_plain x op) as [a1| |] eqn:E; [|done..]; cbn [mbind result_bind] in Ha;
    injection Ha as <- <-; cbn [inner_absorb_second]; by apply absorb_plain_agree with a
  end.
Qed.

(** Without positions the second application searches as the first one does. *)
Lemma inner_second_alone a op other a' op' :
  fresh_op op → inner_absorb_first a op other = Ok (a', op') →
  inner_absorb_second a op other = Ok a'.
Proof.
  intros Hop Ha. destruct op as [k v idx| |k v idx| | | | |k p| | |];
    cbn [inner_absorb_first inner_absorb_second] in *; simpl in Hop; subst.
  1: { destruct (absorb_add a k v _) as [[a1 i]| |]; [|done..]. by injection Ha as <- <-. }
  2: { destruct (absorb_remove_value a k _) as [[a1 found]| |]; [|done..]. by injection Ha as <- <-. }
  6: { destruct (absorb_retain a k p). by injection Ha as <- <-. }
  all: match type of Ha with context [absorb_plain ?x ?op] =>
    destruct (absorb_plain x op) as [a1| |] eqn:E; [|done..]; by injection Ha as <- <- end.
Qed.

Lemma absorb_plain_config a op a' : absorb_plain a op = Ok a' → inner_config a a'.
Proof.
  intros Ha. unfold absorb_plain in *. destruct op;
    try match type of Ha with (set_data a <$> ?m) = _ => destruct m; [|done..]; by injection Ha as <- end.
  3: { destruct (data_entry (in_data a) k) as [[vs write]| |]; [|done..]. by injection Ha as <-. }
  all: by injection Ha as <-.
Qed.
Lemma absorb_add_config a k v f a' i : absorb_add a k v f = Ok (a', i) → inner_config a a'.
Proof.
  unfold absorb_add. destruct (data_entry (in_data a) k) as [[values write]| |]; [|done..]. cbn [mbind result_bind].
  destruct (f values); [|done..]. cbn [mbind result_bind]. destruct (values_insert _ _ _); [|done..].
  by intros [= <- <-].
Qed.
Lemma absorb_remove_config a k f a' found : absorb_remove_value a k f = Ok (a', found) → inner_config a a'.
Proof.
  unfold absorb_remove_value. destruct (data_get_mut (in_data a) k) as [[e write]|]; [|by intros [= <- <-]].
  destruct (f e) as [[i|i]| |]; [|by intros [= <- <-]|done..]. cbn [mbind result_bind].
  destruct (values_remove _ _); [|done..]. by intros [= <- <-].
Qed.
Lemma absorb_retain_config a k p : inner_config a (absorb_retain a k p).1.
Proof.
  unfold absorb_retain. destruct (data_get_mut (in_data a) k) as [[e write]|]; [|done].
  by destruct (values_retain p e).
Qed.

Lemma inner_second_config a op other a' : inner_absorb_second a op other = Ok a' → inner_config a a'.
Proof.
  destruct op as [k v idx| |k v idx| | | | |k p| | |]; try apply absorb_plain_config; cbn [inner_absorb_second].
  - destruct (absorb_add a k v _) as [[a1 i]| |] eqn:E; [|done..]. intros [= <-]. by eapply absorb_add_config.
  - destruct (absorb_remove_value a k _) as [[a1 i]| |] eqn:E; [|done..]. intros [= <-]. by eapply absorb_remove_config.
  - intros [= <-]. apply absorb_retain_config.
Qed.

Lemma inner_first_config a op other a' op' :
  inner_absorb_first a op other = Ok (a', op') → inner_config a a'.
Proof.
  destruct op as [k v idx| |k v idx| | | | |k p| | |]; cbn [inner_absorb_first];
    try match goal with |- context [absorb_plain a ?op] =>
      destruct (absorb_plain a op) eqn:E; [|done..]; intros [= <- <-]; by eapply absorb_plain_config end.
  - destruct (absorb_add a k v _) as [[a1 i]| |] eqn:E; [|done..]. intros [= <- <-]. by eapply absorb_add_config.
  - destruct (absorb_remove_value a k _) as [[a1 i]| |] eqn:E; [|done..]. intros [= <- <-]. by eapply absorb_remove_config.
  - pose proof (absorb_retain_config a k p). destruct (absorb_retain a k p). by intros [= <- <-].
Qed.

#[export] Instance inner_agree_equiv : Equivalence inner_agree.
Proof.
  split.
  - by intros a.
  - intros a b (? & ? & ?). by split_and!.
  - intros a b c (? & ? & ?) (? & ? & ?). split_and!; congruence.
Qed.
#[export] Instance inner_config_equiv : Equivalence inner_config.
Proof. unfold inner_config. split; [by intros a|by intros a b|intros a b c; congruence]. Qed.

(** The reader map keeps the contract of [left_right]. *)
#[export] Instance inner_absorb : Absorb (Inner K A HM M T I) (Operation K A M T).
Proof.
  refine {| absorb_first := inner_absorb_first; absorb_second := inner_absorb_second;
            sync_with := inner_sync_with; copies_agree := inner_agree; same_config := inner_config;
            op_sound := fresh_op; absorb_second_config := inner_second_config;
            absorb_first_config := inner_first_config;
            absorb_first_agree a b op other other' a' op' _ := inner_first_agree a b op other other' a' op';
            absorb_second_agree := inner_second_agree |}.
  - by intros a b (_ & _ & ?).
  - intros a op other a' op' Hop Ha. exists a'. split; [by eapply inner_second_alone|done].
  - intros a b Hc. by split_and!.
Defined.
End absorb.

(** ** Two copies kept by [left_right]

    A sequential reading of the crate's documentation: the copy that is not read
    first replays, as second applications, what the other copy absorbed, then
    absorbs the pending operations and becomes the one that is read. *)
Record Copies (T Op : Type) := {
  c_read : T;
  c_write : T;
  c_replay : list Op;
  c_pending : list Op;
  c_first : bool;
}.
Arguments c_read {T Op}.
Arguments c_write {T Op}.
Arguments c_replay {T Op}.
Arguments c_pending {T Op}.
Arguments c_first {T Op}.

Section copies.
Context `{!Absorb T Op}.
Implicit Types (t a b other : T) (c : Copies T Op) (ops : list Op).

Fixpoint second_all t ops other : result T :=
  match ops with [] => Ok t | op :: ops' => t' ← absorb_second t op other; second_all t' ops' other end.
Fixpoint first_all t ops other : result (T * list Op) :=
  match ops with
  | [] => Ok (t, [])
  | op :: ops' =>
      '(t', op') ← absorb_first t op other; '(t'', ops'') ← first_all t' ops' other; Ok (t'', op' :: ops'')
  end.

Definition copies_new t : Copies T Op :=
  {| c_read := t; c_write := t; c_replay := []; c_pending := []; c_first := true |}.
Definition copies_append c op : Copies T Op :=
  {| c_read := c_read c; c_write := c_write c; c_replay := c_replay c;
     c_pending := c_pending c ++ [op]; c_first := c_first c |}.
Definition copies_publish c : result (Copies T Op) :=
  if c_first c then
    w ← second_all (c_write c) (c_pending c) (c_read c);
    Ok {| c_read := w; c_write := sync_with (c_read c) w; c_replay := []; c_pending := []; c_first := false |}
  else
    w ← second_all (c_write c) (c_replay c) (c_read c);
    '(w, ops) ← first_all w (c_pending c) (c_read c);
    Ok {| c_read := w; c_write := c_read c; c_replay := ops; c_pending := []; c_first := false |}.

Definition copies_wf c : Prop :=
  same_config (c_read c) (c_write c) ∧ Forall op_sound (c_pending c) ∧
  (c_first c = true → c_replay c = []) ∧
  ∀ other, same_config (c_read c) other →
    ∃ w, second_all (c_write c) (c_replay c) other = Ok w ∧ copies_agree (c_read c) w.

Lemma first_all_agree ops a b t other :
  Forall op_sound ops → copies_agree a b → same_config a other → absorb_all a ops = Ok t →
  ∃ b' ops', first_all b ops other = Ok (b', ops') ∧ copies_agree t b' ∧
    ∀ d other', copies_agree a d → same_config a other' →
      ∃ d', second_all d ops' other' = Ok d' ∧ copies_agree t d'.
Proof.
  intros Hops. revert a b. induction Hops as [|op ops Hop Hops IH]; intros a b Hab Hcfg Ht.
  - injection Ht as <-. exists b, []. split_and!; [done|done|]. intros d other' Hac _. by exists d.
  - unfold absorb_all in Ht. cbn [result_foldl] in Ht.
    destruct (absorb_first a op a) as [[a1 op1]| |] eqn:Ea; [|done..]. cbn [mbind result_bind] in Ht. simpl in Ht.
    pose proof (absorb_first_config _ _ _ _ _ Ea) as Hc1.
    destruct (absorb_first_agree a b op a other a1 op1) as (b1 & Hb1 & Hab1); [done..|].
    destruct (IH a1 b1) as (b' & ops' & Hb' & Htb & Hsec); [done|by rewrite <-Hc1|done|].
    exists b', (op1 :: ops'). cbn [first_all second_all]. rewrite Hb1. cbn [mbind result_bind]. rewrite Hb'.
    split_and!; [done|done|]. intros d other' Hac Hcfg'.
    destruct (absorb_second_agree a d op a other' a1 op1) as (c1 & Hc & Hac1); [done..|].
    rewrite Hc. cbn [mbind result_bind]. apply Hsec; [done|by rewrite <-Hc1].
Qed.

Lemma second_all_alone ops a b t other :
  Forall op_sound ops → copies_agree a b → same_config a other → absorb_all a ops = Ok t →
  ∃ b', second_all b ops other = Ok b' ∧ copies_agree t b'.
Proof.
  intros Hops. revert a b. induction Hops as [|op ops Hop Hops IH]; intros a b Hab Hcfg Ht.
  - injection Ht as <-. by exists b.
  - unfold absorb_all in Ht. cbn [result_foldl] in Ht.
    destruct (absorb_first a op a) as [[a1 op1]| |] eqn:Ea; [|done..]. cbn [mbind result_bind] in Ht. simpl in Ht.
    pose proof (absorb_first_config _ _ _ _ _ Ea) as Hc1.
    destruct (absorb_first_agree a b op a other a1 op1) as (b1 & Hb1 & Hab1); [done..|].
    destruct (absorb_second_alone b op other b1 op1) as (b2 & Hb2 & Hab2); [done..|].
    cbn [second_all]. rewrite Hb2. cbn [mbind result_bind].
    apply (IH a1 b2); [by rewrite Hab1|by rewrite <-Hc1|done].
Qed.

Lemma second_all_config ops a other b : second_all a ops other = Ok b → same_config a b.
Proof.
  revert a. induction ops as [|op ops IH]; intros a; cbn [second_all]; [by intros [= <-]|].
  destruct (absorb_second a op other) as [a1| |] eqn:E; [|done..]. cbn [mbind result_bind]. intros Hb.
  rewrite (absorb_second_config _ _ _ _ E). by apply IH.
Qed.

Lemma copies_publish_spec c t :
  copies_wf c → absorb_all (c_read c) (c_pending c) = Ok t →
  ∃ c', copies_publish c = Ok c' ∧ copies_wf c' ∧ copies_agree (c_read c') t ∧ c_pending c' = [].
Proof.
  intros (Hcfg & Hops & Hfirst & Hsecond) Ht. unfold copies_publish.
  destruct (Hsecond (c_read c)) as (w & Hw & Hrw); [done|]. destruct (c_first c) eqn:Ef.
  - rewrite Hfirst in Hw by done. injection Hw as ->.
    destruct (second_all_alone (c_pending c) (c_read c) w t (c_read c)) as (w' & Hw' & Htw); [done..|].
    rewrite Hw'. eexists. split_and!; [done| |by symmetry|done].
    assert (same_config (c_read c) w') as Hcw.
    { rewrite (copies_agree_config _ _ Hrw). exact (second_all_config _ _ _ _ Hw'). }
    pose proof (sync_with_agree (c_read c) w' Hcw) as Hsync.
    split_and!; cbn [c_read c_write c_pending c_replay]; [|constructor|done|].
    { symmetry. by apply copies_agree_config. }
    intros other _. eexists. split; [done|by symmetry].
  - rewrite Hw. cbn [mbind result_bind].
    destruct (first_all_agree (c_pending c) (c_read c) w t (c_read c)) as (w' & ops & Hw' & Htw & Hsec); [done..|].
    rewrite Hw'. cbn [mbind result_bind]. eexists. split_and!; [done| |by symmetry|done].
    assert (same_config (c_read c) w') as Hcw.
    { destruct (Hsec (c_read c) (c_read c)) as (x & Hx & Hxt); [done..|].
      rewrite (second_all_config _ _ _ _ Hx). rewrite <-(copies_agree_config _ _ Hxt). by apply copies_agree_config. }
    split_and!; [by symmetry|constructor|done|].
    intros other Hother. destruct (Hsec (c_read c) other) as (x & Hx & Hxt); [done|by rewrite Hcw|].
    exists x. split; [done|]. cbn [c_read]. by rewrite <-Htw.
Qed.

#[export] Instance copies_left_right : LeftRight T Op (Copies T Op).
Proof.
  refine {| lr_new := copies_new; lr_append := copies_append; lr_publish := copies_publish;
            lr_enter := c_read; lr_pending := c_pending; lr_wf := copies_wf;
            lr_publish_spec := copies_publish_spec |}.
  - intros t. split; [|done]. split; [done|]. split; [constructor|]. split; [done|].
    intros other _. by exists t.
  - intros c op (Hcfg & Hops & Hfirst & Hsecond) Hop. split; [|done].
    split_and!; [done|by apply Forall_app_2, Forall_singleton|done|done].
Defined.
End copies.

(** ** Contents *)
Section data_lemmas.
Context `{Ord K} {A HM : Type} `{!HashMap K (list A) HM}.
Implicit Types (d : Data K A HM) (k : K) (r : BoundPair K) (vs : list A).

Definition data_wf d : Prop :=
  match d with DBTreeMap m => pm_wf m ∧ pm_empty m = [] | DHashMap _ => True end.

(** [writes d k write]: a write through a reference to the values of [k]. *)
Definition writes d k (write : list A → Data K A HM) : Prop :=
  ∀ vs, data_wf (write vs) ∧ data_index_type (write vs) = data_index_type d ∧
    ∀ k', data_get (write vs) k' = if decide (k' = k) then Some vs else data_get d k'.

Lemma empty_map_wf (e : list A) : pm_wf (Build_PartialMap (K:=K) [] [] e).
Proof.
  split; [apply SSorted_nil|]. split; [|done]. split; [apply SSorted_nil|]. split; [done|].
  intros e1 e2 He. by apply not_elem_of_nil in He.
Qed.

Lemma data_new_wf t : data_wf (data_with_index_type t) ∧ data_index_type (data_with_index_type (K:=K) (A:=A) (HM:=HM) t) = t ∧
  ∀ k, data_get (data_with_index_type t) k = None.
Proof.
  destruct t; simpl.
  - split_and!; [done|done|]. intros k. destruct (hm_get hm_new k) as [a|] eqn:E; [|done].
    apply hm_iter_get in E. rewrite hm_iter_new in E. by apply not_elem_of_nil in E.
  - split_and!; [apply empty_map_wf|done|done|done].
Qed.

Lemma data_entry_correct d k :
  data_wf d → ∃ write, data_entry d k = Ok (default [] (data_get d k), write) ∧ writes d k write.
Proof.
  destruct d as [m|m]; simpl.
  - intros [Hwf He]. pose proof (pm_entry_correct m k Hwf He) as (v0 & write & Heq & -> & Hw).
    unfold entry_or_default, default_value, values_default in *.
    exists (λ vs, DBTreeMap (write vs)). split.
    + destruct (pm_entry m k) as [k0|e]; [by rewrite Heq|].
      injection Heq as Heq. by rewrite Heq.
    + intros vs. destruct (Hw vs) as (? & He' & ?).
      split; [split; [done|congruence]|done].
  - intros _. exists (λ vs, DHashMap (hm_insert m k vs)). split; [done|]. intros vs.
    split; [exact I|]. split; [done|]. intros k'. apply hm_insert_get.
Qed.

Lemma data_get_mut_correct d k :
  data_wf d →
  match data_get_mut d k with
  | Some (vs, write) => data_get d k = Some vs ∧ writes d k write
  | None => data_get d k = None
  end.
Proof.
  destruct d as [m|m]; simpl.
  - intros [Hwf He]. pose proof (pm_get_mut_correct m k Hwf He) as Hm.
    destruct (pm_get_mut m k) as [[vs write]|]; [|done]. destruct Hm as [Hg Hw]. split; [done|].
    intros vs'. destruct (Hw vs') as (? & He' & ?). split; [split; [done|congruence]|done].
  - intros _. destruct (hm_get m k) as [vs|] eqn:E; [|done]. split; [done|].
    intros vs'. split; [exact I|]. split; [done|]. intros k'. apply hm_insert_get.
Qed.

Lemma data_remove_correct d k :
  data_wf d → ∃ d', data_remove d k = Ok d' ∧ data_wf d' ∧ data_index_type d' = data_index_type d ∧
    ∀ k', data_get d' k' = if decide (k' = k) then None else data_get d k'.
Proof.
  destruct d as [m|m]; simpl.
  - intros [Hwf He]. destruct (pm_remove_correct m k Hwf) as (m' & -> & ? & He' & ?).
    exists (DBTreeMap m'). split; [done|]. split; [split; [done|congruence]|done].
  - intros _. eexists. split_and!; [done|done|done|]. intros k'. apply hm_remove_get.
Qed.

Lemma data_add_range_correct d r :
  data_wf d → (data_index_type d = IxBTreeMap → range_valid r = true) →
  ∃ d', data_add_range d r = Ok d' ∧ data_wf d' ∧ data_index_type d' = data_index_type d ∧
    ∀ k, data_get d' k = match data_get d k, data_index_type d with
                         | None, IxBTreeMap => if in_range r k then Some [] else None
                         | res, _ => res
                         end.
Proof.
  destruct d as [m|m]; simpl.
  - intros [Hwf He] Hr. destruct (pm_insert_range_correct m r Hwf) as (m' & -> & ? & He' & Hg); [by apply Hr|].
    exists (DBTreeMap m'). split; [done|]. split; [split; [done|congruence]|]. split; [done|].
    intros k. simpl. rewrite Hg, He. done.
  - intros _ _. exists (DHashMap m). split_and!; [done|done|done|]. intros k. simpl. by destruct (hm_get m k).
Qed.

Lemma data_remove_range_correct d r :
  data_wf d → data_index_type d = IxBTreeMap → range_valid r = true →
  ∃ d', data_remove_range d r = Ok d' ∧ data_wf d' ∧ data_index_type d' = data_index_type d ∧
    ∀ k, data_get d' k = if in_range r k then None else data_get d k.
Proof.
  destruct d as [m|m]; simpl; [|done]. intros [Hwf He] _ Hr.
  destruct (pm_remove_range_correct m r Hwf Hr) as (m' & -> & ? & He' & Hg).
  exists (DBTreeMap m'). split; [done|]. split; [split; [done|congruence]|done].
Qed.

Lemma data_clear_correct d :
  data_wf d → data_wf (data_clear d) ∧ data_index_type (data_clear d) = data_index_type d ∧
    ∀ k, data_get (data_clear d) k = None.
Proof.
  destruct d as [m|m]; simpl.
  - intros [_ He]. split_and!; [apply empty_map_wf|done|done|done].
  - intros _. pose proof (data_new_wf IxHashMap) as (? & _ & Hg). by split_and!.
Qed.

Lemma data_contains_key_get d k :
  data_contains_key d k = match data_get d k with Some _ => true | None => false end.
Proof.
  destruct d as [m|m]; simpl; [|done]. unfold pm_contains_key, pm_get.
  destruct (bm_get (pm_map m) k); [done|]. by destruct (contains_point (pm_tree m) k).
Qed.

Lemma data_iter_get d k vs : data_wf d → (k, vs) ∈ data_iter d → data_get d k = Some vs.
Proof.
  destruct d as [m|m]; simpl; [|by intros _ ?%hm_iter_get]. intros [(Hb & _) _] Hin.
  unfold pm_get. by rewrite (proj2 (bm_get_elem _ _ _ Hb) Hin).
Qed.
End data_lemmas.

Section sorted_values.
Context {A : Type} (c : A → A → comparison).
Context (c_eq : ∀ x y, c x y = Eq ↔ x = y) (c_anti : ∀ x y, c y x = CompOpp (c x y)).
Context (c_trans : ∀ x y z, c x y = Lt → c y z = Lt → c x z = Lt).
#[local] Abbreviation sorted := (StronglySorted (λ a b, c a b ≠ Gt)).

Lemma c_refl_le x : c x x ≠ Gt.
Proof using c_eq. by rewrite (proj2 (c_eq x x) eq_refl). Qed.
Lemma c_total x y : c x y = Gt → c y x ≠ Gt.
Proof using c_anti. rewrite (c_anti x y). by intros ->. Qed.
Lemma c_le_trans x y z : c x y ≠ Gt → c y z ≠ Gt → c x z ≠ Gt.
Proof using c_eq c_trans.
  intros Hxy Hyz. destruct (c x y) eqn:E1; [apply c_eq in E1 as ->; done| |done].
  destruct (c y z) eqn:E2; [apply c_eq in E2 as <-; by rewrite E1| |done]. by rewrite (c_trans x y z).
Qed.
#[local] Instance c_antisymm : AntiSymm (=) (λ a b, c a b ≠ Gt).
Proof using c_eq c_anti.
  intros x y Hxy Hyx. rewrite (c_anti x y) in Hyx. apply c_eq. by destruct (c x y).
Qed.

(** There is one way to sort a bag of values. *)
Lemma values_sorted_unique l1 l2 : sorted l1 → sorted l2 → l1 ≡ₚ l2 → l1 = l2.
Proof using c_eq c_anti. apply StronglySorted_unique. apply _. Qed.

Lemma sorted_insert_middle l1 v l2 :
  sorted (l1 ++ l2) → Forall (λ a, c a v ≠ Gt) l1 → Forall (λ b, c v b ≠ Gt) l2 → sorted (l1 ++ v :: l2).
Proof using c_eq c_trans.
  intros Hs H1 H2. apply StronglySorted_app_2.
  - intros x y Hx [->|Hy]%elem_of_cons; rewrite !Forall_forall in *; [by apply H1|].
    apply c_le_trans with v; [by apply H1|by apply H2].
  - by eapply StronglySorted_app_1_l.
  - constructor; [by eapply StronglySorted_app_1_r|done].
Qed.

(** The position a search returned keeps the values sorted. *)
Lemma values_insert_sorted vs v res :
  sorted vs → found_at c vs v res →
  values_insert vs (either_idx res) v = Ok (insert_by c v vs) ∧ sorted (insert_by c v vs).
Proof using c_eq c_anti c_trans.
  intros Hs Hres.
  assert (sorted (insert_by c v vs)) as Hins.
  { apply insert_by_sorted; [apply c_total|apply c_le_trans|done]. }
  split; [|done]. unfold values_insert.
  assert (either_idx res ≤ length vs ∧ Forall (λ a, c a v ≠ Gt) (take (either_idx res) vs) ∧
          Forall (λ b, c v b ≠ Gt) (drop (either_idx res) vs)) as (Hi & Hl & Hr).
  { destruct res as [i|i]; simpl in *.
    - pose proof (lookup_lt_Some _ _ _ Hres). split_and!; [lia|..]; apply Forall_lookup.
      + intros j a Ha. apply lookup_take_Some in Ha as [Ha Hj].
        apply (sorted_lookup (λ a b, c a b ≠ Gt) vs j i); done.
      + intros j b Hb. rewrite lookup_drop in Hb. destruct j as [|j].
        * rewrite Nat.add_0_r in Hb. assert (b = v) as -> by congruence. apply c_refl_le.
        * apply (sorted_lookup (λ a b, c a b ≠ Gt) vs i (i + S j)); [done|lia|done|done].
    - destruct Hres as (Hi & Hl & Hr). split_and!; [done|..].
      + eapply Forall_impl; [exact Hl|]. by intros a ->.
      + eapply Forall_impl; [exact Hr|]. intros b Hb. rewrite (c_anti b v), Hb. done. }
  rewrite (proj2 (Nat.leb_le _ _) Hi). f_equal. apply values_sorted_unique; [|done|].
  - apply sorted_insert_middle; [by rewrite take_drop|done|done].
  - rewrite insert_by_perm, <-Permutation_middle. by rewrite take_drop.
Qed.

(** Removal of one copy of a value. *)
Definition remove_one `{EqDecision A} (vs : list A) (v : A) : list A := default vs (take_one vs v).

Lemma remove_one_sublist `{EqDecision A} vs v : sublist (remove_one vs v) vs.
Proof.
  unfold remove_one. induction vs as [|x vs IH]; simpl; [done|]. case_decide; simpl.
  - by apply sublist_cons.
  - destruct (take_one vs v); simpl in *; by apply sublist_skip.
Qed.
Lemma sorted_sublist l1 l2 : sublist l1 l2 → sorted l2 → sorted l1.
Proof.
  induction 1 as [|x l1 l2 Hl IH|x l1 l2 Hl IH]; intros Hs; [done|..];
    apply StronglySorted_inv in Hs as [Hs Hx]; [|by apply IH].
  constructor; [by apply IH|]. rewrite Forall_forall in *. intros y Hy. apply Hx.
  by apply (sublist_subseteq l1 l2).
Qed.

Lemma remove_one_present `{EqDecision A} vs v : v ∈ vs → v :: remove_one vs v ≡ₚ vs.
Proof. intros Hv. unfold remove_one. destruct (take_one_present vs v Hv) as (l' & -> & Hl). done. Qed.

Lemma values_remove_sorted `{EqDecision A} vs v i :
  sorted vs → vs !! i = Some v → values_remove vs i = Ok (remove_one vs v).
Proof using c_eq c_anti.
  intros Hs Hi. pose proof (lookup_lt_Some _ _ _ Hi) as Hlt. unfold values_remove.
  rewrite (proj2 (Nat.ltb_lt _ _) Hlt). f_equal.
  pose proof (take_drop_middle vs i v Hi) as Hmid.
  apply values_sorted_unique.
  - apply sorted_sublist with vs; [|done]. rewrite <-Hmid at 3.
    apply sublist_app; [done|]. by apply sublist_cons.
  - apply sorted_sublist with vs; [apply remove_one_sublist|done].
  - apply (Permutation.Permutation_cons_inv (a:=v)).
    rewrite remove_one_present by (by eapply list_elem_of_lookup_2).
    rewrite Permutation_middle. by rewrite Hmid.
Qed.

Lemma not_found_absent vs v i : found_at c vs v (inr i) → v ∉ vs.
Proof using c_eq.
  intros (Hi & Hl & Hr) Hv. pose proof (proj2 (c_eq v v) eq_refl) as Heq.
  rewrite <-(take_drop i vs) in Hv. rewrite Forall_forall in Hl, Hr.
  apply elem_of_app in Hv as [Hv|Hv]; [apply Hl in Hv|apply Hr in Hv]; congruence.
Qed.
End sorted_values.

Lemma values_retain_sublist {A} (p : Predicate A) vs : sublist (values_retain p vs).1 vs.
Proof.
  unfold values_retain. assert (∀ s first, sublist (retain_from p s first vs).1 vs) as Hs.
  { induction vs as [|v vs IH]; intros s first; [done|]. simpl.
    destruct (pr_call p s v first) as [keep s']. specialize (IH s' false).
    destruct (retain_from p s' false vs) as [rest s'']. simpl in *.
    destruct keep; [by apply sublist_skip|by apply sublist_cons]. }
  specialize (Hs (pr_init p) true). by destruct (retain_from p (pr_init p) true vs).
Qed.
