(* ===== verification/ReaderMapContents.v ===== *)
(** * ReaderMapContents: what readers of a map see

    The contents of a reader map are a partial function from keys to sorted
    lists of values, a key outside its domain being a hole.  [contents_step] says
    what an operation does to them.  The theorems show that the operations of the
    write handle act in this way on what readers see, once they are published, and
    that eviction only makes holes. *)
From S2P Require Import Prelude Intervals BTreeMap IntervalTree IntervalTreeProps PartialMap Result Records Crates.
From S2P Require Import KeyedState InsertionOrder Eviction ReaderMap ReaderMapProps.

Section contents.
Context `{Ord K} `{Ord A} {HM M T I : Type} `{!HashMap K (list A) HM}.
Context `{!InsertionOrder I A} `{!InsertionOrderLaws I A}.
Implicit Types (a other : Inner K A HM M T I) (op : Operation K A M T) (g : K → option (list A)).
Implicit Types (o : option I) (v : A) (vs : list A) (t : IndexType).

Definition inner_cmp o : A → A → comparison := match o with Some i => io_cmp i | None => cmp end.
Definition inner_fits o v : Prop := match o with Some i => io_fits i v | None => True end.
Definition values_wf o vs : Prop :=
  StronglySorted (λ x y, inner_cmp o x y ≠ Gt) vs ∧ Forall (inner_fits o) vs.
Definition inner_wf a : Prop :=
  data_wf (in_data a) ∧ ∀ k vs, data_get (in_data a) k = Some vs → values_wf (in_insertion_order a) vs.

(** What an operation needs so as not to panic. *)
Definition op_fits t o op : Prop :=
  match op with
  | OAdd _ v _ | ORemoveValue _ v _ => inner_fits o v
  | OAddRange r => t = IxBTreeMap → range_valid r = true
  | ORemoveRange r => t = IxBTreeMap ∧ range_valid r = true
  | _ => True
  end.

(** The effect of an operation on the contents. *)
Definition contents_step t o op g : K → option (list A) := λ k',
  match op with
  | OAdd k v _ => if decide (k' = k) then Some (insert_by (inner_cmp o) v (default [] (g k))) else g k'
  | OAddRange r =>
      match g k', t with None, IxBTreeMap => if in_range r k' then Some [] else None | res, _ => res end
  | ORemoveValue k v _ => if decide (k' = k) then (λ vs, remove_one vs v) <$> g k else g k'
  | ORemoveEntry k => if decide (k' = k) then None else g k'
  | ORemoveRange r => if in_range r k' then None else g k'
  | OClear k => if decide (k' = k) then Some [] else g k'
  | OPurge => None
  | ORetain k p => if decide (k' = k) then (λ vs, (values_retain p vs).1) <$> g k else g k'
  | OMarkReady | OSetMeta _ | OSetTimestamp _ => g k'
  end.
Definition contents_steps t o (ops : list (Operation K A M T)) g : K → option (list A) :=
  foldl (λ g op, contents_step t o op g) g ops.

(** Operations that take no key its last value by [ORemoveValue]; what that leaves is
    [reader_map_last_value]. *)
Fixpoint keeps_values t o (ops : list (Operation K A M T)) g : Prop :=
  match ops with
  | [] => True
  | op :: ops =>
      match op with ORemoveValue k v _ => g k ≠ Some [v] | _ => True end ∧ keeps_values t o ops (contents_step t o op g)
  end.

Lemma inner_cmp_eq o x y : inner_cmp o x y = Eq ↔ x = y.
Proof. destruct o; [apply io_cmp_eq|apply cmp_eq_iff]. Qed.
Lemma inner_cmp_antisym o x y : inner_cmp o y x = CompOpp (inner_cmp o x y).
Proof. destruct o; [apply io_cmp_antisym|apply cmp_antisym]. Qed.
Lemma inner_cmp_trans o x y z : inner_cmp o x y = Lt → inner_cmp o y z = Lt → inner_cmp o x z = Lt.
Proof. destruct o; [apply io_cmp_trans|apply cmp_lt_trans]. Qed.

Lemma search_spec other vs v :
  values_wf (in_insertion_order other) vs → inner_fits (in_insertion_order other) v →
  ∃ res, search other vs v = Ok res ∧ found_at (inner_cmp (in_insertion_order other)) vs v res.
Proof.
  unfold search, values_wf. intros [Hs Hf] Hv. destruct (in_insertion_order other) as [i|].
  - by apply io_search; [|constructor].
  - apply (binary_search_sorted cmp); [apply cmp_eq_iff|apply cmp_antisym|apply cmp_lt_trans|done|].
    by apply Forall_true.
Qed.

Lemma values_wf_nil o : values_wf o [].
Proof. split; constructor. Qed.
Lemma values_wf_sublist o vs vs' : sublist vs' vs → values_wf o vs → values_wf o vs'.
Proof.
  intros Hsub [Hs Hf]. split; [by eapply sorted_sublist|]. rewrite Forall_forall in *.
  intros x Hx. apply Hf. by eapply elem_of_sublist.
Qed.
Lemma values_wf_insert o vs v : values_wf o vs → inner_fits o v → values_wf o (insert_by (inner_cmp o) v vs).
Proof.
  intros [Hs Hf] Hv. split; [|by rewrite insert_by_perm; constructor].
  apply insert_by_sorted; [|apply c_le_trans, inner_cmp_trans|done].
  - intros x y. rewrite (inner_cmp_antisym o x y). by intros ->.
  - apply inner_cmp_eq.
Qed.

Lemma contents_step_ext t o op g g' :
  (∀ k, g k = g' k) → ∀ k, contents_step t o op g k = contents_step t o op g' k.
Proof. intros Hg k. unfold contents_step. destruct op; by rewrite ?Hg. Qed.
Lemma contents_steps_ext t o ops g g' :
  (∀ k, g k = g' k) → ∀ k, contents_steps t o ops g k = contents_steps t o ops g' k.
Proof.
  revert g g'. induction ops as [|op ops IH]; intros g g' Hg; [done|]. simpl.
  apply IH. by apply contents_step_ext.
Qed.

Lemma contents_steps_cons t o op ops g :
  contents_steps t o (op :: ops) g = contents_steps t o ops (contents_step t o op g).
Proof. done. Qed.
Lemma contents_steps_app t o ops ops' g :
  contents_steps t o (ops ++ ops') g = contents_steps t o ops' (contents_steps t o ops g).
Proof. apply foldl_app. Qed.

(** [absorbed a op a']: a copy absorbed an operation as [contents_step] says. *)
Definition absorbed a op a' : Prop :=
  inner_wf a' ∧ data_index_type (in_data a') = data_index_type (in_data a) ∧ inner_config a a' ∧
  in_ready a' = match op with OMarkReady => true | _ => in_ready a end ∧
  ∀ k, data_get (in_data a') k =
       contents_step (data_index_type (in_data a)) (in_insertion_order a) op (data_get (in_data a)) k.

(** A write through a reference to the values of a key. *)
Lemma absorbed_write a op k write vs :
  inner_wf a → writes (in_data a) k write → values_wf (in_insertion_order a) vs → op ≠ OMarkReady →
  (∀ k', contents_step (data_index_type (in_data a)) (in_insertion_order a) op (data_get (in_data a)) k'
         = if decide (k' = k) then Some vs else data_get (in_data a) k') →
  absorbed a op (set_data a (write vs)).
Proof.
  intros [Hwf Hvs] Hw Hv Hop Hstep. destruct (Hw vs) as (Hwf' & Hty & Hg). split; [split|]; cbn [in_data set_data].
  - done.
  - intros k' vs'. rewrite Hg. case_decide; [by intros [= <-]|]. apply Hvs.
  - split; [done|]. split; [done|]. split; [by destruct op|]. intros k'. by rewrite Hg, Hstep.
Qed.

(** An operation on the whole map. *)
Lemma absorbed_data a op d' :
  inner_wf a → data_wf d' → data_index_type d' = data_index_type (in_data a) → op ≠ OMarkReady →
  (∀ k, data_get d' k = contents_step (data_index_type (in_data a)) (in_insertion_order a) op (data_get (in_data a)) k) →
  (∀ k vs, data_get d' k = Some vs → data_get (in_data a) k = Some vs ∨ vs = []) →
  absorbed a op (set_data a d').
Proof.
  intros [Hwf Hvs] Hwf' Hty Hop Hg Hsub. split; [split|]; cbn [in_data set_data]; [done| |].
  - intros k vs [Hk| ->]%Hsub; [by eapply Hvs|]. apply values_wf_nil.
  - split; [done|]. split; [done|]. split; [by destruct op|]. done.
Qed.

Lemma absorb_plain_spec a op :
  inner_wf a → op_fits (data_index_type (in_data a)) (in_insertion_order a) op →
  match op with OAdd _ _ _ | ORemoveValue _ _ _ | ORetain _ _ => False | _ => True end →
  ∃ a', absorb_plain a op = Ok a' ∧ absorbed a op a'.
Proof.
  intros Hwf Hfit Hop. pose proof Hwf as [Hd Hvs].
  destruct op as [| r| |k| r|k| | | |m|ts]; try done; cbn [absorb_plain].
  - destruct (data_add_range_correct (in_data a) r) as (d' & -> & Hwf' & Hty & Hg); [done|done|].
    eexists. split; [done|]. apply absorbed_data; try done. intros k vs. rewrite Hg.
    destruct (data_get (in_data a) k); [by left|]. destruct (data_index_type _), (in_range r k); naive_solver.
  - destruct (data_remove_correct (in_data a) k) as (d' & -> & Hwf' & Hty & Hg); [done|].
    eexists. split; [done|]. apply absorbed_data; try done. intros k' vs. rewrite Hg. case_decide; [done|by left].
  - destruct Hfit as [Ht Hr].
    destruct (data_remove_range_correct (in_data a) r) as (d' & -> & Hwf' & Hty & Hg); [done..|].
    eexists. split; [done|]. apply absorbed_data; try done. intros k' vs. rewrite Hg.
    destruct (in_range r k'); [done|by left].
  - destruct (data_entry_correct (in_data a) k) as (write & -> & Hw); [done|]. cbn [mbind result_bind].
    eexists. split; [done|]. apply absorbed_write with k; try done. apply values_wf_nil.
  - destruct (data_clear_correct (in_data a)) as (Hwf' & Hty & Hg); [done|].
    eexists. split; [done|]. apply absorbed_data; try done. intros k vs. by rewrite Hg.
  - eexists. split; [done|]. by split_and!.
  - eexists. split; [done|]. by split_and!.
  - eexists. split; [done|]. by split_and!.
Qed.

Lemma absorb_first_spec a op other :
  inner_wf a → inner_config a other →
  op_fits (data_index_type (in_data a)) (in_insertion_order a) op →
  ∃ a' op', inner_absorb_first a op other = Ok (a', op') ∧ absorbed a op a'.
Proof.
  intros Hwf Hcfg Hfit. pose proof Hwf as [Hd Hvs]. unfold inner_config in Hcfg.
  destruct op as [k v idx| |k v idx| | | | |k p| | |]; cbn [inner_absorb_first];
    try match goal with |- context [absorb_plain a ?op] =>
      destruct (absorb_plain_spec a op) as (a' & -> & Ha'); [done..|]; cbn [mbind result_bind]; by eauto end.
  - destruct (data_entry_correct (in_data a) k) as (write & Hent & Hw); [done|].
    assert (values_wf (in_insertion_order a) (default [] (data_get (in_data a) k))) as Hv.
    { destruct (data_get (in_data a) k) as [vs|] eqn:E; [by eapply Hvs|apply values_wf_nil]. }
    destruct (search_spec other (default [] (data_get (in_data a) k)) v) as (res & Hres & Hat);
      [by rewrite <-Hcfg|by rewrite <-Hcfg|].
    rewrite <-Hcfg in Hat.
    destruct (values_insert_sorted (inner_cmp (in_insertion_order a)) (inner_cmp_eq _) (inner_cmp_antisym _)
      (inner_cmp_trans _) (default [] (data_get (in_data a) k)) v res) as [Hins _]; [by destruct Hv|done|].
    unfold absorb_add. rewrite Hent. cbn [mbind result_bind]. rewrite Hres. cbn [fmap result_fmap mbind result_bind].
    rewrite Hins. cbn [mbind result_bind]. do 2 eexists. split; [done|].
    apply absorbed_write with k; [done|done|by apply values_wf_insert|done|done].
  - pose proof (data_get_mut_correct (in_data a) k Hd) as Hmut. unfold absorb_remove_value.
    destruct (data_get_mut (in_data a) k) as [[e write]|].
    2: { cbn [mbind result_bind]. do 2 eexists. split; [done|]. split_and!; try done.
         intros k'. simpl. case_decide; subst; [by rewrite Hmut|done]. }
    destruct Hmut as [Hk Hw]. pose proof (Hvs _ _ Hk) as Hv.
    destruct (search_spec other e v) as (res & -> & Hat); [by rewrite <-Hcfg|by rewrite <-Hcfg|].
    rewrite <-Hcfg in Hat. cbn [mbind result_bind].
    assert (∀ k', contents_step (data_index_type (in_data a)) (in_insertion_order a) (ORemoveValue k v idx) (data_get (in_data a)) k'
              = if decide (k' = k) then Some (remove_one e v) else data_get (in_data a) k') as Hstep.
    { intros k'. simpl. by rewrite Hk. }
    destruct res as [i|i].
    + rewrite (values_remove_sorted (inner_cmp (in_insertion_order a)) (inner_cmp_eq _) (inner_cmp_antisym _) e v i);
        [|by destruct Hv|done].
      cbn [mbind result_bind]. do 2 eexists. split; [done|].
      apply absorbed_write with k; [done|done| |done|done].
      eapply values_wf_sublist; [apply remove_one_sublist|done].
    + cbn [mbind result_bind]. do 2 eexists. split; [done|]. apply absorbed_write with k; [done|done|done|done|].
      intros k'. rewrite Hstep. unfold remove_one.
      rewrite take_one_absent by (by eapply not_found_absent; [apply inner_cmp_eq|]). done.
  - pose proof (data_get_mut_correct (in_data a) k Hd) as Hmut. unfold absorb_retain.
    destruct (data_get_mut (in_data a) k) as [[e write]|].
    + destruct Hmut as [Hk Hw]. pose proof (values_retain_sublist p e) as Hsub.
      destruct (values_retain p e) as [e' p'] eqn:Ee. simpl in Hsub.
      do 2 eexists. split; [done|]. apply absorbed_write with k; [done|done| |done|].
      * eapply values_wf_sublist; [done|by eapply Hvs].
      * intros k'. simpl. rewrite Hk. simpl. by rewrite Ee.
    + do 2 eexists. split; [done|]. split_and!; try done.
      intros k'. simpl. case_decide; subst; [by rewrite Hmut|done].
Qed.

(** A sequence of operations. *)
Lemma absorb_all_spec ops a :
  inner_wf a → Forall (op_fits (data_index_type (in_data a)) (in_insertion_order a)) ops →
  ∃ a', absorb_all a ops = Ok a' ∧ inner_wf a' ∧
    data_index_type (in_data a') = data_index_type (in_data a) ∧ inner_config a a' ∧
    (in_ready a = true ∨ OMarkReady ∈ ops → in_ready a' = true) ∧
    ∀ k, data_get (in_data a') k =
         contents_steps (data_index_type (in_data a)) (in_insertion_order a) ops (data_get (in_data a)) k.
Proof.
  revert a. induction ops as [|op ops IH]; intros a Hwf Hfits.
  - exists a. split_and!; try done. intros [?|Hn]; [done|]. by apply not_elem_of_nil in Hn.
  - apply Forall_cons in Hfits as [Hop Hops].
    destruct (absorb_first_spec a op a) as (a1 & op1 & Ha1 & Hwf1 & Hty & Hcfg & Hready & Hg); [done..|].
    unfold inner_config in Hcfg.
    destruct (IH a1) as (a' & Ha' & Hwf' & Hty' & Hcfg' & Hready' & Hg'); [done|by rewrite Hty, <-Hcfg|].
    exists a'. unfold absorb_all. cbn [result_foldl].
    change (absorb_first a op a) with (inner_absorb_first a op a). rewrite Ha1. cbn [fmap result_fmap mbind result_bind fst].
    split_and!; [done|done|congruence|unfold inner_config in *; congruence|..].
    + rewrite elem_of_cons. intros Hr. apply Hready'. rewrite Hready.
      destruct op; naive_solver.
    + intros k. rewrite Hg', Hty, <-Hcfg. simpl. by apply contents_steps_ext.
Qed.
End contents.

Section published.
Context `{Ord K} `{Ord A} {HM M T I W : Type} `{!HashMap K (list A) HM}.
Context `{!InsertionOrder I A} `{!InsertionOrderLaws I A}.
Context `{!LeftRight (Inner K A HM M T I) (Operation K A M T) W}.
Implicit Types (h : W) (op : Operation K A M T).
#[local] Abbreviation enter := (lr_enter (T:=Inner K A HM M T I) (Op:=Operation K A M T)).
#[local] Abbreviation pending := (lr_pending (T:=Inner K A HM M T I) (Op:=Operation K A M T)).
#[local] Abbreviation append := (lr_append (T:=Inner K A HM M T I) (Op:=Operation K A M T)).
#[local] Abbreviation publish := (publish (K:=K) (A:=A) (HM:=HM) (M:=M) (T:=T) (I:=I)).

(** What readers see: the contents of the published copy. *)
Definition visible h : K → option (list A) := data_get (in_data (enter h)).
Definition visible_type h : IndexType := data_index_type (in_data (enter h)).
Definition visible_order h : option I := in_insertion_order (enter h).

(** The invariant of a handle: the published copy is well formed and every
    pending operation can be absorbed. *)
Definition handle_wf h : Prop :=
  lr_wf (T:=Inner K A HM M T I) (Op:=Operation K A M T) h ∧ inner_wf (enter h) ∧ Forall (op_fits (visible_type h) (visible_order h)) (pending h).

Lemma handle_append h op :
  handle_wf h → fresh_op op → op_fits (visible_type h) (visible_order h) op →
  handle_wf (append h op) ∧ enter (append h op) = enter h ∧
  pending (append h op) = pending h ++ [op].
Proof.
  intros (Hwf & Hin & Hops) Hop Hfit.
  destruct (lr_append_spec h op Hwf Hop) as (Hwf' & He & Hp).
  split; [|done]. split; [done|]. unfold visible_type, visible_order. rewrite He, Hp.
  split; [done|]. by apply Forall_app_2, Forall_singleton.
Qed.

Lemma handle_publish h :
  handle_wf h →
  ∃ h', publish h = Ok h' ∧ handle_wf h' ∧ pending h' = [] ∧
    visible_type h' = visible_type h ∧ visible_order h' = visible_order h ∧
    (in_ready (enter h) = true ∨ OMarkReady ∈ pending h → in_ready (enter h') = true) ∧
    ∀ k, visible h' k = contents_steps (visible_type h) (visible_order h) (pending h) (visible h) k.
Proof.
  intros (Hwf & Hin & Hops).
  destruct (absorb_all_spec (pending h) (enter h) Hin Hops) as (t & Ht & Hwft & Hty & Hcfg & Hready & Hg).
  destruct (lr_publish_spec h t Hwf Ht) as (h' & Hh' & Hwf' & (Hd & Hr & Ho) & Hp').
  exists h'. unfold handle_wf, visible, visible_type, visible_order in *. rewrite Hp', Hd, Hr, Ho.
  unfold inner_wf. rewrite Hd, Ho. split_and!; try done.
  - by destruct Hwft.
  - by destruct Hwft.
Qed.
End published.

(** ** Runs of evicted entries *)
Section runs.
Context {E : Type}.
Implicit Types (l : list (Z * E)).

Lemma evict_ranges_sublist (f : Z → bool) l run :
  run ∈ evict_ranges f l → run ≠ [] ∧ sublist run l.*2.
Proof.
  revert run. induction l as [|[c e] l IH]; intros run; simpl; [by intros ?%not_elem_of_nil|].
  destruct (f c).
  2: { intros [? ?]%IH. split; [done|]. by apply sublist_cons. }
  destruct (evict_ranges f l) as [|r rs].
  { intros ->%list_elem_of_singleton. split; [done|]. apply sublist_skip, sublist_nil_l. }
  intros Hrun.
  assert ((∃ r', r' ∈ r :: rs ∧ run = e :: r') ∨ run = [e] ∨ run ∈ r :: rs) as Hcases.
  { destruct (head l) as [[c' e']|]; [destruct (f c')|].
    - apply elem_of_cons in Hrun as [->|Hrun]; [left; exists r; split; [apply elem_of_here|done]|].
      right. right. by apply elem_of_further.
    - apply elem_of_cons in Hrun as [->|Hrun]; auto.
    - apply elem_of_cons in Hrun as [->|Hrun]; auto. }
  destruct Hcases as [(r' & Hr' & ->)|[->|Hr']].
  - apply IH in Hr' as [_ ?]. split; [done|]. by apply sublist_skip.
  - split; [done|]. apply sublist_skip, sublist_nil_l.
  - apply IH in Hr' as [? ?]. split; [done|]. by apply sublist_cons.
Qed.

Lemma random_ranges_entries gen_bool len nkeys i (entries : list E) l :
  random_ranges_from gen_bool len nkeys i entries = Ok l → l.*2 = entries.
Proof.
  revert i l. induction entries as [|e entries IH]; intros i l; cbn [random_ranges_from];
    (destruct (gen_bool nkeys len i); [|done..]); cbn [mbind result_bind]; [by intros [= <-]|].
  destruct (random_ranges_from _ _ _ _ _) as [rest| |] eqn:Er; [|done..]. intros [= <-]. simpl.
  f_equal. by eapply IH.
Qed.

Lemma pick_ranges_sublist gen_bool s ctrs (entries : list E) nkeys ranges s' run :
  length ctrs = length entries →
  pick_ranges_to_evict gen_bool s ctrs entries nkeys = Ok (ranges, s') → run ∈ ranges →
  run ≠ [] ∧ sublist run entries.
Proof.
  intros Hlen. destruct s; cbn [pick_ranges_to_evict].
  - unfold random_pick_ranges. destruct (random_ranges_from _ _ _ _ _) as [l| |] eqn:El; [|done..].
    apply random_ranges_entries in El as <-. intros [= <- _]. apply evict_ranges_sublist.
  - intros [= <- _] Hrun%evict_ranges_sublist. rewrite snd_zip in Hrun by lia. done.
  - intros [= <- _] Hrun%evict_ranges_sublist. rewrite snd_zip in Hrun by lia. done.
Qed.
End runs.

(** ** Theorems *)
Section theorems.
Context `{Ord K} `{Ord A} {HM M T I W : Type} `{!HashMap K (list A) HM}.
Context `{!InsertionOrder I A} `{!InsertionOrderLaws I A}.
Context `{!LeftRight (Inner K A HM M T I) (Operation K A M T) W}.
Implicit Types (h : W) (op : Operation K A M T) (ops : list (Operation K A M T)).
#[local] Abbreviation enter := (lr_enter (T:=Inner K A HM M T I) (Op:=Operation K A M T)).
#[local] Abbreviation pending := (lr_pending (T:=Inner K A HM M T I) (Op:=Operation K A M T)).
#[local] Abbreviation append := (lr_append (T:=Inner K A HM M T I) (Op:=Operation K A M T)).
#[local] Abbreviation publish := (publish (K:=K) (A:=A) (HM:=HM) (M:=M) (T:=T) (I:=I)).
#[local] Abbreviation visible := (visible (K:=K) (A:=A) (HM:=HM) (M:=M) (T:=T) (I:=I)).
#[local] Abbreviation visible_type := (visible_type (K:=K) (A:=A) (HM:=HM) (M:=M) (T:=T) (I:=I)).
#[local] Abbreviation visible_order := (visible_order (K:=K) (A:=A) (HM:=HM) (M:=M) (T:=T) (I:=I)).
#[local] Abbreviation handle_wf := (handle_wf (K:=K) (A:=A) (HM:=HM) (M:=M) (T:=T) (I:=I)).
#[local] Abbreviation evict_keys := (evict_keys (K:=K) (A:=A) (HM:=HM) (M:=M) (T:=T) (I:=I)).

Lemma handle_appends ops h :
  handle_wf h → Forall fresh_op ops → Forall (op_fits (visible_type h) (visible_order h)) ops →
  handle_wf (foldl append h ops) ∧ enter (foldl append h ops) = enter h ∧
  pending (foldl append h ops) = pending h ++ ops.
Proof.
  revert h. induction ops as [|op ops IH]; intros h Hwf Hfr Hfit; [by rewrite app_nil_r|].
  apply Forall_cons in Hfr as [Hfr Hfrs]. apply Forall_cons in Hfit as [Hfit Hfits]. simpl.
  destruct (handle_append h op Hwf Hfr Hfit) as (Hwf' & He & Hp).
  destruct (IH (append h op)) as (Hwf'' & He' & Hp'); [done|done| |].
  - unfold visible_type, visible_order. by rewrite He.
  - split_and!; [done|congruence|]. rewrite Hp', Hp. by rewrite <-app_assoc.
Qed.

(** C23: What readers find under the keys of a reader map.  They see nothing of what was
    appended to a write handle until it is published, and then exactly the contents
    that the operations pending so far and the appended ones describe, in order:
    values are added at their place in the insertion order, one copy of a removed
    value disappears, cleared keys hold no value, removed keys and ranges become
    holes, and added ranges hold no value where there was a hole.  The operations
    take no key its last value; the timestamp and the meta value are not part of the
    contents ([sync_with_loses_timestamp]). *)
Theorem reader_map_publish h ops :
  handle_wf h → Forall fresh_op ops → Forall (op_fits (visible_type h) (visible_order h)) ops →
  keeps_values (visible_type h) (visible_order h) (pending h ++ ops) (visible h) →
  ∃ h', publish (foldl append h ops) = Ok h' ∧ handle_wf h' ∧
    ∀ k, visible (foldl append h ops) k = visible h k ∧
         visible h' k = contents_steps (visible_type h) (visible_order h) (pending h ++ ops) (visible h) k.
Proof.
  intros Hwf Hfr Hfit _. destruct (handle_appends ops h Hwf Hfr Hfit) as (Hwf' & He & Hp).
  destruct (handle_publish _ Hwf') as (h' & Hh' & Hwf'' & _ & _ & _ & _ & Hg).
  exists h'. split_and!; [done|done|]. intros k. rewrite Hg, Hp.
  unfold ReaderMapContents.visible, ReaderMapContents.visible_type, ReaderMapContents.visible_order. by rewrite He.
Qed.

(** The two copies of a reader map stay alike: when one copy has absorbed an
    operation, the other copy, applying what the first application left of the
    operation (the position at which it inserted or removed the value), ends up
    with the same data. *)
Theorem reader_map_copies_agree (a b other other' a' : Inner K A HM M T I) op op' :
  fresh_op op → inner_agree a b → inner_config other other' →
  inner_absorb_first a op other = Ok (a', op') →
  ∃ b', inner_absorb_second b op' other' = Ok b' ∧ inner_agree a' b'.
Proof. apply inner_second_agree. Qed.

(** Removing the last value of a key leaves the key filled, with no values. *)
Theorem reader_map_last_value h k v :
  handle_wf h → pending h = [] → visible h k = Some [v] → inner_fits (visible_order h) v →
  ∃ h', publish (remove_value (K:=K) (A:=A) (HM:=HM) (M:=M) (T:=T) (I:=I) h k v) = Ok h' ∧
    visible h' k = Some [].
Proof.
  intros Hwf Hp Hk Hv. destruct (handle_append h (ORemoveValue k v None) Hwf) as (Hwf' & He & Hp'); [done|done|].
  destruct (handle_publish _ Hwf') as (h' & Hh' & _ & _ & _ & _ & _ & Hg).
  exists h'. split; [done|]. rewrite Hg, Hp', Hp. cbn [app contents_steps foldl contents_step].
  unfold ReaderMapContents.visible in *. rewrite He, Hk. rewrite decide_True by done. simpl. unfold remove_one. simpl. by rewrite decide_True.
Qed.

(** *** Eviction *)
Lemma removals_only_holes t o ops (g : K → option (list A)) k :
  Forall (λ op, ∃ r, op = ORemoveRange r ∨ ∃ k', op = ORemoveEntry k') ops →
  contents_steps (M:=M) (T:=T) (I:=I) t o ops g k = None ∨ contents_steps t o ops g k = g k.
Proof.
  intros Hops. revert g. induction Hops as [|op ops Hop Hops IH]; intros g; [by right|]. simpl.
  destruct (IH (contents_step t o op g)) as [->| ->]; [by left|].
  destruct Hop as (r & [->|(k' & ->)]); simpl; [destruct (in_range r k)|case_decide]; auto.
Qed.

Lemma run_range_valid (entries run : list (K * list A)) :
  bm_wf entries → run ≠ [] → sublist run entries →
  ∃ s e, head run = Some s ∧ last run = Some e ∧ range_valid (Included s.1, Included e.1) = true.
Proof.
  intros Hwf Hne Hsub.
  assert (StronglySorted (λ x y, x.1 ≺ y.1) run) as Hs.
  { clear Hne. unfold bm_wf, bm_keys in Hwf. induction Hsub as [|x l1 l2 Hl IH|x l1 l2 Hl IH]; [constructor| |].
    - apply StronglySorted_inv in Hwf as [Hwf Hx]. constructor; [by apply IH|].
      apply Forall_fmap in Hx. rewrite Forall_forall in *. intros y Hy. apply Hx. by eapply elem_of_sublist.
    - apply StronglySorted_inv in Hwf as [Hwf Hx]. by apply IH. }
  destruct run as [|s run]; [done|]. destruct (last (s :: run)) as [e|] eqn:El; [|by apply last_None in El].
  exists s, e. split_and!; [done|done|]. unfold range_valid, check_range.
  assert (is_gt (cmp s.1 e.1) = false) as ->; [|done].
  rewrite last_cons in El. destruct (last run) as [e'|] eqn:El'; simplify_eq; [|by rewrite cmp_refl].
  apply StronglySorted_inv in Hs as [_ Hs]. rewrite Forall_forall in Hs.
  apply last_Some_elem_of in El'. specialize (Hs _ El'). simpl in Hs. by rewrite Hs.
Qed.

Lemma evict_loop h (entries : list (K * list A)) ranges :
  visible_type h = IxBTreeMap → handle_wf h → bm_wf entries →
  Forall (λ run, run ≠ [] ∧ sublist run entries) ranges →
  ∃ ops, result_foldl (λ h run,
            '(start, _) ← expect (head run); '(end_, _) ← expect (last run);
            Ok (remove_range (K:=K) (A:=A) (HM:=HM) (M:=M) (T:=T) (I:=I) h (Included start, Included end_))) h ranges
         = Ok (foldl append h ops) ∧
    Forall (λ op, ∃ r, op = ORemoveRange r ∨ ∃ k', op = ORemoveEntry k') ops ∧ Forall fresh_op ops ∧
    Forall (op_fits (visible_type h) (visible_order h)) ops.
Proof.
  intros Hty Hwf Hbm Hruns. revert h Hty Hwf. induction Hruns as [|run runs [Hne Hsub] _ IH]; intros h Hty Hwf.
  - exists []. by split_and!.
  - destruct (run_range_valid entries run Hbm Hne Hsub) as ([s1 s2] & [e1 e2] & Hs & He & Hr). cbn [result_foldl].
    rewrite Hs, He. cbn [mbind result_bind expect]. cbn [fst] in Hr.
    set (op := ORemoveRange (Included s1, Included e1) : Operation K A M T).
    assert (op_fits (visible_type h) (visible_order h) op) as Hfit by done.
    destruct (handle_append h op Hwf Logic.I Hfit) as (Hwf' & Hen & _).
    unfold remove_range. destruct (IH (append h op)) as (ops & Hops & H1 & H2 & H3).
    + unfold ReaderMapContents.visible_type. by rewrite Hen.
    + done.
    + exists (op :: ops). split_and!; [done|..]; constructor; try done; [exists (Included s1, Included e1); by left|].
      unfold ReaderMapContents.visible_type, ReaderMapContents.visible_order in *. by rewrite Hen in H3.
Qed.

Lemma evict_entries h (kvs : list (K * list A)) :
  foldl (λ h kv, remove_entry (K:=K) (A:=A) (HM:=HM) (M:=M) (T:=T) (I:=I) h kv.1) h kvs
  = foldl append h ((λ kv, ORemoveEntry kv.1) <$> kvs).
Proof. revert h. induction kvs as [|kv kvs IH]; intros h; [done|]. apply IH. Qed.

(** Whether the strategy returns: it does unless the random number generator
    refuses a probability. *)
Definition picks (gen_bool : nat → nat → nat → result bool) h (s : EvictionStrategy) (ctrs : list Z) (nkeys : nat) : bool :=
  let d := in_data (enter h) in
  let nkeys := Nat.min nkeys (data_len d) in
  match data_index_type d with
  | IxBTreeMap => is_ok (pick_ranges_to_evict gen_bool s ctrs (data_iter d) nkeys)
  | IxHashMap => is_ok (pick_keys_to_evict gen_bool s ctrs (data_iter d) nkeys)
  end.

(** What [evict_keys] does to the handle it has published. *)
Definition removal (op : Operation K A M T) : Prop := ∃ r, op = ORemoveRange r ∨ ∃ k', op = ORemoveEntry k'.

Lemma evict_keys_ops gen_bool h h1 s ctrs nkeys mem_cnt :
  handle_wf h → publish h = Ok h1 → length ctrs = length (data_iter (in_data (enter h1))) →
  if picks gen_bool h1 s ctrs nkeys
  then ∃ ops s' freed, evict_keys gen_bool h s ctrs nkeys mem_cnt = Ok (foldl append h1 ops, s', freed) ∧
         Forall removal ops ∧ Forall fresh_op ops ∧ Forall (op_fits (visible_type h1) (visible_order h1)) ops
  else is_ok (evict_keys gen_bool h s ctrs nkeys mem_cnt) = false.
Proof.
  intros Hwf Hh1 Hlen. destruct (handle_publish h Hwf) as (h1' & Heq & Hwf1 & Hp1 & _).
  rewrite Hh1 in Heq. injection Heq as <-.
  unfold evict_keys. fold (publish h). rewrite Hh1. cbn [mbind result_bind]. unfold picks.
  pose proof Hwf1 as (Hlw & Hiw & Hpw). destruct (data_index_type (in_data (enter h1))) eqn:Ety.
  - destruct (pick_keys_to_evict _ _ _ _ _) as [[kvs s']| |]; [|done..]. cbn [mbind result_bind is_ok].
    rewrite evict_entries. exists ((λ kv, ORemoveEntry kv.1) <$> kvs). do 2 eexists. split; [done|].
    split_and!; apply Forall_fmap, Forall_true; [|done|done]. intros kv. exists (Unbounded, Unbounded). eauto.
  - destruct (pick_ranges_to_evict _ _ _ _ _) as [[ranges s']| |] eqn:Epick; [|done..]. cbn [mbind result_bind is_ok].
    destruct (evict_loop h1 (data_iter (in_data (enter h1))) ranges) as (ops & -> & H1 & H2 & H3).
    + done.
    + done.
    + destruct Hiw as [Hd _]. unfold visible_type in *. destruct (in_data (enter h1)); [|done]. apply Hd.
    + apply Forall_forall. intros run Hrun. eapply pick_ranges_sublist; [|exact Epick|done]. done.
    + cbn [mbind result_bind]. exists ops. do 2 eexists. done.
Qed.

(** Eviction only makes holes: whatever the strategy and the counters of the keys
    are, [evict_keys] first publishes what is pending; its own effect is not seen
    before the next [publish], and then every key is either a hole or holds what it
    held before. *)
Theorem evict_keys_only_makes_holes gen_bool h h1 s ctrs nkeys mem_cnt :
  handle_wf h → publish h = Ok h1 → length ctrs = length (data_iter (in_data (enter h1))) →
  picks gen_bool h1 s ctrs nkeys = true →
  ∃ h' s' freed h'',
    evict_keys gen_bool h s ctrs nkeys mem_cnt = Ok (h', s', freed) ∧
    publish h' = Ok h'' ∧ handle_wf h'' ∧
    ∀ k, visible h' k = visible h1 k ∧ (visible h'' k = None ∨ visible h'' k = visible h1 k).
Proof.
  intros Hwf Hh1 Hlen Hpick. pose proof (evict_keys_ops gen_bool h h1 s ctrs nkeys mem_cnt Hwf Hh1 Hlen) as Hops.
  rewrite Hpick in Hops. destruct Hops as (ops & s' & freed & Hev & Hrem & Hfr & Hfit).
  destruct (handle_publish h Hwf) as (h1' & Heq & Hwf1 & Hp1 & _). rewrite Hh1 in Heq. injection Heq as <-.
  destruct (handle_appends ops h1 Hwf1 Hfr Hfit) as (Hwf' & He & Hp).
  destruct (handle_publish _ Hwf') as (h'' & Hh'' & Hwf'' & _ & _ & _ & _ & Hg).
  exists (foldl append h1 ops), s', freed, h''. split; [done|]. split; [done|]. split; [done|].
  intros k. rewrite Hg, Hp, Hp1. unfold ReaderMapContents.visible. rewrite He. split; [done|]. by apply removals_only_holes.
Qed.
End theorems.

(** ** A map of integers, in two copies *)
Abbreviation SMap := (gmap SampleVal (list SampleVal)).
Abbreviation SInner := (Inner SampleVal SampleVal SMap Z Z DefaultInsertionOrder).
Abbreviation SOp := (Operation SampleVal SampleVal Z Z).
Abbreviation SHandle := (Copies SInner SOp).

Definition z_inner (d : Data SampleVal SampleVal SMap) : SInner :=
  {| in_data := d; in_meta := (-1)%Z; in_timestamp := 0%Z; in_ready := true; in_insertion_order := None |}.
(** Key 1 holds 10 and 20, key 2 holds 30, both copies alike. *)
Definition z_hash : SInner := z_inner (DHashMap {[SInt 1 := [SInt 10; SInt 20]; SInt 2 := [SInt 30]]}).
Definition z_handle (a : SInner) : SHandle :=
  {| c_read := a; c_write := a; c_replay := []; c_pending := []; c_first := false |}.

Lemma z_handle_lr_wf a : copies_wf (z_handle a).
Proof.
  split; [reflexivity|]. split; [constructor|]. split; [done|].
  intros other _. exists a. split; reflexivity.
Qed.

Lemma z_hash_wf : handle_wf (K:=SampleVal) (A:=SampleVal) (HM:=SMap) (M:=Z) (T:=Z) (I:=DefaultInsertionOrder) (z_handle z_hash).
Proof.
  split; [apply z_handle_lr_wf|]. split; [|constructor]. split; [exact I|].
  intros k vs. change (data_get (in_data (lr_enter (z_handle z_hash))) k)
    with (({[SInt 1 := [SInt 10; SInt 20]; SInt 2 := [SInt 30]]} : SMap) !! k).
  rewrite lookup_insert_Some. intros [[_ <-]|[_ [_ <-]%lookup_singleton_Some]].
  all: split; [|by repeat constructor]; repeat constructor; done.
Qed.

Lemma reader_map_publish_witness :
  ∃ h', publish (K:=SampleVal) (A:=SampleVal) (HM:=SMap) (M:=Z) (T:=Z) (I:=DefaultInsertionOrder)
          (foldl lr_append (z_handle z_hash) [OAdd (SInt 1) (SInt 15) None; ORemoveValue (SInt 1) (SInt 10) None; OClear (SInt 3)]) = Ok h' ∧
    handle_wf (K:=SampleVal) (A:=SampleVal) (HM:=SMap) (M:=Z) (T:=Z) (I:=DefaultInsertionOrder) h' ∧
    visible (K:=SampleVal) (A:=SampleVal) (HM:=SMap) (M:=Z) (T:=Z) (I:=DefaultInsertionOrder) h' (SInt 1) = Some [SInt 15; SInt 20] ∧
    visible (K:=SampleVal) (A:=SampleVal) (HM:=SMap) (M:=Z) (T:=Z) (I:=DefaultInsertionOrder) h' (SInt 3) = Some [].
Proof.
  destruct (reader_map_publish (K:=SampleVal) (A:=SampleVal) (HM:=SMap) (M:=Z) (T:=Z) (I:=DefaultInsertionOrder) (z_handle z_hash)
    [OAdd (SInt 1) (SInt 15) None; ORemoveValue (SInt 1) (SInt 10) None; OClear (SInt 3)] z_hash_wf) as (h' & Hp & Hwf & Hg).
  - by repeat constructor.
  - by repeat constructor.
  - repeat split. vm_compute. discriminate.
  - exists h'. split; [exact Hp|]. split; [exact Hwf|]. split.
    + rewrite (proj2 (Hg (SInt 1))). vm_compute. reflexivity.
    + rewrite (proj2 (Hg (SInt 3))). vm_compute. reflexivity.
Defined.

Lemma reader_map_copies_agree_witness :
  ∃ b' : SInner,
    inner_absorb_second z_hash (OAdd (SInt 1) (SInt 15) (Some 1)) z_hash = Ok b' ∧
    inner_agree (z_inner (DHashMap {[SInt 1 := [SInt 10; SInt 15; SInt 20]; SInt 2 := [SInt 30]]})) b'.
Proof.
  apply (reader_map_copies_agree (K:=SampleVal) (A:=SampleVal) (HM:=SMap) (M:=Z) (T:=Z) (I:=DefaultInsertionOrder)
    z_hash z_hash z_hash z_hash _ (OAdd (SInt 1) (SInt 15) None)).
  - reflexivity.
  - reflexivity.
  - reflexivity.
  - vm_compute. reflexivity.
Defined.

Lemma reader_map_last_value_witness :
  ∃ h', publish (K:=SampleVal) (A:=SampleVal) (HM:=SMap) (M:=Z) (T:=Z) (I:=DefaultInsertionOrder)
          (remove_value (K:=SampleVal) (A:=SampleVal) (HM:=SMap) (M:=Z) (T:=Z) (I:=DefaultInsertionOrder) (z_handle z_hash) (SInt 2) (SInt 30)) = Ok h' ∧
    visible (K:=SampleVal) (A:=SampleVal) (HM:=SMap) (M:=Z) (T:=Z) (I:=DefaultInsertionOrder) h' (SInt 2) = Some [].
Proof.
  apply (reader_map_last_value (K:=SampleVal) (A:=SampleVal) (HM:=SMap) (M:=Z) (T:=Z) (I:=DefaultInsertionOrder)).
  - apply z_hash_wf.
  - reflexivity.
  - vm_compute. reflexivity.
  - exact I.
Defined.

Lemma evict_keys_only_makes_holes_witness :
  ∃ h' s' freed h'',
    evict_keys (K:=SampleVal) (A:=SampleVal) (HM:=SMap) (M:=Z) (T:=Z) (I:=DefaultInsertionOrder) (λ _ _ _, Panic)
      (z_handle z_hash) (LeastRecentlyUsed 9) [7; 3]%Z 0 (λ _ vs, Z.of_nat (length vs)) = Ok (h', s', freed) ∧
    publish (K:=SampleVal) (A:=SampleVal) (HM:=SMap) (M:=Z) (T:=Z) (I:=DefaultInsertionOrder) h' = Ok h'' ∧
    handle_wf (K:=SampleVal) (A:=SampleVal) (HM:=SMap) (M:=Z) (T:=Z) (I:=DefaultInsertionOrder) h'' ∧
    ∀ k, visible (K:=SampleVal) (A:=SampleVal) (HM:=SMap) (M:=Z) (T:=Z) (I:=DefaultInsertionOrder) h' k =
         visible (K:=SampleVal) (A:=SampleVal) (HM:=SMap) (M:=Z) (T:=Z) (I:=DefaultInsertionOrder) (z_handle z_hash) k ∧
         (visible (K:=SampleVal) (A:=SampleVal) (HM:=SMap) (M:=Z) (T:=Z) (I:=DefaultInsertionOrder) h'' k = None ∨
          visible (K:=SampleVal) (A:=SampleVal) (HM:=SMap) (M:=Z) (T:=Z) (I:=DefaultInsertionOrder) h'' k =
          visible (K:=SampleVal) (A:=SampleVal) (HM:=SMap) (M:=Z) (T:=Z) (I:=DefaultInsertionOrder) (z_handle z_hash) k).
Proof.
  apply (evict_keys_only_makes_holes (K:=SampleVal) (A:=SampleVal) (HM:=SMap) (M:=Z) (T:=Z) (I:=DefaultInsertionOrder)).
  - apply z_hash_wf.
  - reflexivity.
  - vm_compute. reflexivity.
  - vm_compute. reflexivity.
Defined.

(** The second copy is brought up to date without the timestamp and the meta
    value: a timestamp set before the first [publish] is seen after it, and is gone
    again after the second. *)
Theorem sync_with_loses_timestamp :
  let h0 : SHandle := construct (K:=SampleVal) (A:=SampleVal) (HM:=SMap) (M:=Z) (T:=Z) IxHashMap (-1)%Z 0%Z None in
  let h1 := set_timestamp (K:=SampleVal) (A:=SampleVal) (HM:=SMap) (M:=Z) (T:=Z) (I:=DefaultInsertionOrder) h0 5%Z in
  ∃ h2 h3, publish (K:=SampleVal) (A:=SampleVal) (HM:=SMap) (M:=Z) (T:=Z) (I:=DefaultInsertionOrder) h1 = Ok h2 ∧
    publish (K:=SampleVal) (A:=SampleVal) (HM:=SMap) (M:=Z) (T:=Z) (I:=DefaultInsertionOrder) h2 = Ok h3 ∧
    handle_timestamp (K:=SampleVal) (A:=SampleVal) (HM:=SMap) (M:=Z) (T:=Z) (I:=DefaultInsertionOrder) h2 = inl 5%Z ∧
    handle_timestamp (K:=SampleVal) (A:=SampleVal) (HM:=SMap) (M:=Z) (T:=Z) (I:=DefaultInsertionOrder) h3 = inl 0%Z.
Proof. do 2 eexists. split_and!; reflexivity. Qed.
