(* ===== verification/Backlog.v ===== *)
(** * Backlog: the state of a reader

    Models [readyset-dataflow/src/backlog/]: the write handle through which a
    domain fills, updates and evicts the keys of a reader ([mod.rs], [multiw.rs])
    and the read handle through which queries look keys up ([mod.rs],
    [multir.rs]), on top of [ReaderMap].

    The variants [Single] and [Many] of both [Handle] types differ in the key of
    the map, a value or a vector of values: the class [ReaderKey] has an instance
    for each.  Assertions of debug builds only are not modelled.  Sizes of rows and
    keys are arguments; memory is counted in [usize]s. *)
From S2P Require Import Prelude Intervals BTreeMap IntervalTree PartialMap Result Records Keys Crates.
From S2P Require Import KeyedState OpTopK InsertionOrder Eviction Timestamp Effects ReaderMap ReaderMapProps.

(** The key type of a reader map.  [rk_key] is the key of a point operation
    ([key_to_single]), [rk_first] the key of a bound or a lookup, [rk_pop] the one
    of a bound of [empty_range], [rk_row] the key of a row. *)
Class ReaderKey (V K : Type) := {
  rk_key : list V → result K;
  rk_first : list V → result K;
  rk_pop : list V → result K;
  rk_assert : list V → result K;
  rk_row : list nat → list V → result K;
  rk_vec : K → list V;
}.

Section reader_keys.
Context {V : Type}.

(** [Handle::Single]. *)
Definition key_to_single (k : list V) : result V :=
  match k with [v] => Ok v | _ => Panic end.
#[export] Instance single_key : ReaderKey V V := {|
  rk_key := key_to_single;
  rk_first k := expect (head k);
  rk_pop k := expect (last k);
  rk_assert := key_to_single;
  rk_row key r := match key with [c] => expect (r !! c) | _ => Panic end;
  rk_vec k := [k];
|}.
(** [Handle::Many]. *)
#[export] Instance many_key : ReaderKey V (list V) := {|
  rk_key := Ok;
  rk_first := Ok;
  rk_pop := Ok;
  rk_assert := Ok;
  rk_row key r := result_mapM (λ c, expect (r !! c)) key;
  rk_vec k := k;
|}.
End reader_keys.

Definition bound_mapM {A B} (f : A → result B) (b : Bound A) : result (Bound B) :=
  match b with
  | Included x => Included <$> f x
  | Excluded x => Excluded <$> f x
  | Unbounded => Ok Unbounded
  end.
Definition range_mapM {A B} (f : A → result B) (r : BoundPair A) : result (BoundPair B) :=
  lo ← bound_mapM f r.1; hi ← bound_mapM f r.2; Ok (lo, hi).

(** [LookupError]. *)
Inductive LookupError (V : Type) :=
  | LNotReady
  | LDestroyed
  | LError (e : ReadySetError)
  | LMiss (misses : list (KeyComparison V)).
Arguments LNotReady {V}.
Arguments LDestroyed {V}.
Arguments LError {V}.
Arguments LMiss {V}.
Definition lookup_error_from {V} (e : ReaderMapError) : LookupError V :=
  match e with NotPublished => LNotReady | Destroyed => LDestroyed end.
Definition is_miss {V} (e : LookupError V) : bool := match e with LMiss _ => true | _ => false end.

(** [WriteHandle]; the broadcast channel is the number of its receivers and the
    epochs sent on it. *)
Record WriteHandle (W : Type) := {
  wh_handle : W;
  wh_partial : bool;
  wh_cols : nat;
  wh_index : Index;
  wh_contiguous : bool;
  wh_mem_size : Z;
  wh_receivers : nat;
  wh_sent : list Z;
  wh_eviction_epoch : Z;
}.
Arguments wh_handle {W}.
Arguments wh_partial {W}.
Arguments wh_cols {W}.
Arguments wh_index {W}.
Arguments wh_contiguous {W}.
Arguments wh_mem_size {W}.
Arguments wh_receivers {W}.
Arguments wh_sent {W}.
Arguments wh_eviction_epoch {W}.

Definition with_handle {W} (w : WriteHandle W) (h : W) : WriteHandle W :=
  {| wh_handle := h; wh_partial := wh_partial w; wh_cols := wh_cols w; wh_index := wh_index w;
     wh_contiguous := wh_contiguous w; wh_mem_size := wh_mem_size w; wh_receivers := wh_receivers w;
     wh_sent := wh_sent w; wh_eviction_epoch := wh_eviction_epoch w |}.
Definition with_mem_size {W} (w : WriteHandle W) (n : Z) : WriteHandle W :=
  {| wh_handle := wh_handle w; wh_partial := wh_partial w; wh_cols := wh_cols w; wh_index := wh_index w;
     wh_contiguous := wh_contiguous w; wh_mem_size := n; wh_receivers := wh_receivers w;
     wh_sent := wh_sent w; wh_eviction_epoch := wh_eviction_epoch w |}.
Definition saturating_sub (a b : Z) : Z := Z.max 0 (a - b).

(** Whether the columns of an index follow one another. *)
Fixpoint contiguous_from (last : option nat) (cols : list nat) : bool :=
  match cols with
  | [] => true
  | k :: cols' =>
      match last with
      | Some l => if k =? l + 1 then contiguous_from (Some k) cols' else false
      | None => contiguous_from (Some k) cols'
      end
  end.
Definition contiguous (cols : list nat) : bool := contiguous_from None cols.

Section backlog.
Context `{DfVal V} `{Ord K} `{!ReaderKey V K} {HM W : Type} `{!HashMap K (list (list V)) HM}.
#[local] Abbreviation RInner := (Inner K (list V) HM Z Timestamp PreInsertion).
#[local] Abbreviation ROp := (Operation K (list V) Z Timestamp).
Context `{!LeftRight RInner ROp W}.
(** [deep_size_of] of a row, the summed sizes of the values of a key, and
    [base_value_size]. *)
Context (row_size : list V → Z) (key_size : list V → Z) (base_value_size : Z).
Implicit Types (w : WriteHandle W) (k : list V) (key : KeyComparison V) (r : list V) (rs : list (Record V)).

#[local] Abbreviation rk_key := (rk_key (V:=V) (K:=K)).
#[local] Abbreviation rk_first := (rk_first (V:=V) (K:=K)).
#[local] Abbreviation rk_pop := (rk_pop (V:=V) (K:=K)).
#[local] Abbreviation rk_assert := (rk_assert (V:=V) (K:=K)).
#[local] Abbreviation rk_row := (rk_row (V:=V) (K:=K)).
#[local] Abbreviation rk_vec := (rk_vec (V:=V) (K:=K)).
#[local] Abbreviation enter := (enter (K:=K) (A:=list V) (HM:=HM) (M:=Z) (T:=Timestamp) (I:=PreInsertion)).
#[local] Abbreviation construct := (construct (K:=K) (A:=list V) (HM:=HM) (M:=Z) (T:=Timestamp) (I:=PreInsertion)).
#[local] Abbreviation insert := (insert (K:=K) (A:=list V) (HM:=HM) (M:=Z) (T:=Timestamp) (I:=PreInsertion)).
#[local] Abbreviation insert_range := (insert_range (K:=K) (A:=list V) (HM:=HM) (M:=Z) (T:=Timestamp) (I:=PreInsertion)).
#[local] Abbreviation clear := (clear (K:=K) (A:=list V) (HM:=HM) (M:=Z) (T:=Timestamp) (I:=PreInsertion)).
#[local] Abbreviation remove_value := (remove_value (K:=K) (A:=list V) (HM:=HM) (M:=Z) (T:=Timestamp) (I:=PreInsertion)).
#[local] Abbreviation remove_entry := (remove_entry (K:=K) (A:=list V) (HM:=HM) (M:=Z) (T:=Timestamp) (I:=PreInsertion)).
#[local] Abbreviation remove_range := (remove_range (K:=K) (A:=list V) (HM:=HM) (M:=Z) (T:=Timestamp) (I:=PreInsertion)).
#[local] Abbreviation publish := (publish (K:=K) (A:=list V) (HM:=HM) (M:=Z) (T:=Timestamp) (I:=PreInsertion)).
#[local] Abbreviation set_timestamp := (set_timestamp (K:=K) (A:=list V) (HM:=HM) (M:=Z) (T:=Timestamp) (I:=PreInsertion)).
#[local] Abbreviation evict_keys := (evict_keys (K:=K) (A:=list V) (HM:=HM) (M:=Z) (T:=Timestamp) (I:=PreInsertion)).

(** [new_inner]. *)
Definition new_inner (index : Index) (cols : nat) (partial : bool) (pre : PreInsertion)
    (receivers : nat) : result (WriteHandle W) :=
  match columns index with
  | [] => Panic
  | _ =>
      let h := construct (index_type index) (-1)%Z ts_default (Some pre) in
      let h := if partial then h else insert_range h (Unbounded, Unbounded) in
      Ok {| wh_handle := h; wh_partial := partial; wh_cols := cols; wh_index := index;
            wh_contiguous := contiguous (columns index); wh_mem_size := 0; wh_receivers := receivers;
            wh_sent := []; wh_eviction_epoch := 0 |}
  end.

(** *** [multir::Handle] *)
Definition handle_get (h : W) k : result (list (list V) + LookupError V) :=
  match enter h with
  | inr e => Ok (inr (lookup_error_from e))
  | inl map =>
      key ← rk_first k;
      Ok match data_get (in_data map) key with
         | Some v => inl v
         | None => inr (LMiss [KEqual (rk_vec key)])
         end
  end.
Definition handle_contains_key (h : W) k : result (bool + ReaderMapError) :=
  key ← rk_assert k;
  Ok match enter h with inr e => inr e | inl map => inl (data_contains_key (in_data map) key) end.
Definition handle_contains_range (h : W) (r : BoundPair (list V)) : result (bool + ReaderMapError) :=
  match enter h with
  | inr e => Ok (inr e)
  | inl map => r ← range_mapM rk_assert r; inl <$> data_contains_range (in_data map) r
  end.
Definition handle_overlaps_range (h : W) (r : BoundPair (list V)) : result (bool + ReaderMapError) :=
  match enter h with
  | inr e => Ok (inr e)
  | inl map => r ← range_mapM rk_assert r; inl <$> data_overlaps_range (in_data map) r
  end.

(** [get_multi]: hits, and misses, of the keys that were not asked for before. *)
Definition has_null k : bool := existsb (λ v, bool_decide (v = dfv_none)) k.
Definition range_result (res : list (K * list (list V)) + list (BoundPair K)) :
    list (list (list V)) + list (KeyComparison V) :=
  match res with
  | inl hit => inl hit.*2
  | inr miss => inr ((λ b, KRange (Bound_map rk_vec b.1, Bound_map rk_vec b.2)) <$> miss)
  end.
Definition lookup_one (map : RInner) key : result (list (list (list V)) + list (KeyComparison V)) :=
  match key with
  | KEqual k =>
      if has_null k then Ok (inl [[]])
      else
        kk ← rk_first k;
        Ok match data_get (in_data map) kk with Some v => inl [v] | None => inr [key] end
  | KRange (lo, hi) =>
      if is_reversed_range key then Ok (inl [[]])
      else
        r ← range_mapM rk_first (lo, hi); range_result <$> data_range (in_data map) r
  end.
Fixpoint lookup_keys (map : RInner) (prev keys : list (KeyComparison V))
    (hits : list (list (list V))) (misses : list (KeyComparison V)) :
    result (list (list (list V)) * list (KeyComparison V)) :=
  match keys with
  | [] => Ok (hits, misses)
  | key :: keys' =>
      if existsb (kc_eq key) prev then lookup_keys map prev keys' hits misses
      else
        res ← lookup_one map key;
        match res with
        | inl hs => lookup_keys map (key :: prev) keys' (hits ++ hs) misses
        | inr ms => lookup_keys map (key :: prev) keys' hits (misses ++ ms)
        end
  end.
Definition handle_get_multi (h : W) (keys : list (KeyComparison V)) :
    result (list (list (list V)) + LookupError V) :=
  match enter h with
  | inr e => Ok (inr (lookup_error_from e))
  | inl map =>
      '(hits, misses) ← lookup_keys map [] keys [] [];
      Ok match misses with [] => inl hits | _ => inr (LMiss misses) end
  end.

(** *** [multiw::Handle] *)
Definition mw_clear (h : W) k : result W := clear h <$> rk_key k.
Definition mw_empty (h : W) k : result W := remove_entry h <$> rk_key k.
Definition mw_empty_range (h : W) (r : BoundPair (list V)) : result W := remove_range h <$> range_mapM rk_pop r.
Definition mw_insert_range (h : W) (r : BoundPair (list V)) : result W := insert_range h <$> range_mapM rk_first r.
(** [add]: the change in memory, and the handle. *)
Definition mw_add_one (key_cols : list nat) (acc : Z * W) (rc : Record V) : result (Z * W) :=
  k ← rk_row key_cols (rec rc);
  Ok match rc with
     | Positive r => (acc.1 + row_size r, insert acc.2 k r)%Z
     | Negative r => (acc.1 - row_size r, remove_value acc.2 k r)%Z
     end.
Definition mw_add (h : W) (key_cols : list nat) rs : result (Z * W) :=
  result_foldl (mw_add_one key_cols) (0%Z, h) rs.

(** *** [WriteHandle] *)
Definition key_value_size k : Z := base_value_size + key_size k.
(** [MutWriteHandleEntry::mark_filled] and [mark_hole]. *)
Definition entry_mark_filled w k : result (WriteHandle W) :=
  res ← handle_get (wh_handle w) k;
  match res with
  | inr e =>
      if is_miss e then
        h ← mw_clear (wh_handle w) k;
        Ok (with_handle (with_mem_size w (wh_mem_size w + key_value_size k)) h)
      else Err KeyAlreadyFilled
  | inl _ => Err KeyAlreadyFilled
  end.
Definition rows_size (rows : list (list V)) : Z := foldl (λ n r, n + row_size r)%Z 0%Z rows.
Definition entry_mark_hole w k : result (WriteHandle W) :=
  res ← handle_get (wh_handle w) k;
  let size := match res with inl rows => rows_size rows | inr _ => 0%Z end in
  h ← mw_empty (wh_handle w) k;
  Ok (with_handle (with_mem_size w (saturating_sub (wh_mem_size w) (size + key_value_size k))) h).

Definition wh_contains w key : result (bool + ReaderMapError) :=
  match key with
  | KEqual k => handle_contains_key (wh_handle w) k
  | KRange r => handle_contains_range (wh_handle w) r
  end.
(** [contains_record]: [Panic] for a row without the key columns. *)
Definition record_key w r : result (list V) :=
  let key_cols := columns (wh_index w) in
  if wh_contiguous w then
    c ← expect (head key_cols);
    if c + length key_cols <=? length r then Ok (take (length key_cols) (drop c r)) else Panic
  else result_mapM (λ c, expect (r !! c)) key_cols.
Definition contains_record w r : result (bool + ReaderMapError) :=
  k ← record_key w r; handle_contains_key (wh_handle w) k.
Definition interval_difference w key : result (option (list (KeyComparison V))) :=
  res ← handle_get_multi (wh_handle w) [key];
  Ok match res with inr (LMiss misses) => Some misses | _ => None end.

Definition swap w : result (WriteHandle W) := with_handle w <$> publish (wh_handle w).
Definition add w rs : result (WriteHandle W) :=
  '(delta, h) ← mw_add (wh_handle w) (columns (wh_index w)) rs;
  let mem := if (0 <? delta)%Z then (wh_mem_size w + delta)%Z
             else if (delta <? 0)%Z then saturating_sub (wh_mem_size w) (- delta) else wh_mem_size w in
  Ok (with_handle (with_mem_size w mem) h).
Definition wh_set_timestamp w (t : Timestamp) : WriteHandle W := with_handle w (set_timestamp (wh_handle w) t).

(** [invariant_eq!(len, self.index.len())]. *)
Definition check_len w key : result () :=
  match kc_len key with
  | Some len => if len =? length (columns (wh_index w)) then Ok () else Err Internal
  | None => Ok ()
  end.

Definition mark_hole w key : result (WriteHandle W) :=
  _ ← check_len w key;
  match key with
  | KEqual k => entry_mark_hole w k
  | KRange r =>
      res ← handle_get_multi (wh_handle w) [key];
      let size := match res with inl rows => rows_size (concat rows) | inr _ => 0%Z end in
      h ← mw_empty_range (wh_handle w) r;
      Ok (with_handle (with_mem_size w (saturating_sub (wh_mem_size w) size)) h)
  end.

Definition mark_filled w key : result (WriteHandle W) :=
  _ ← check_len w key;
  match index_type (wh_index w), key with
  | IxHashMap, KEqual k => entry_mark_filled w k
  | IxHashMap, KRange _ => Panic
  | IxBTreeMap, key =>
      overlaps ← handle_overlaps_range (wh_handle w) (bounds key);
      match overlaps with
      | inl true => Err RangeAlreadyFilled
      | _ => with_handle w <$> mw_insert_range (wh_handle w) (bounds key)
      end
  end.

(** [evict_bytes]: [nkeys] stands for the keys that [bytes / mem_size] of the map
    amounts to. *)
Definition evict_bytes (gen_bool : nat → nat → nat → result bool) w (s : EvictionStrategy) (ctrs : list Z)
    (nkeys : nat) : result (WriteHandle W * EvictionStrategy * Z) :=
  if (0 <? wh_mem_size w)%Z then
    '(h, s, freed) ← evict_keys gen_bool (wh_handle w) s ctrs nkeys
       (λ (kk : K) rows, key_size (rk_vec kk) + rows_size rows + base_value_size)%Z;
    Ok (with_handle (with_mem_size w (saturating_sub (wh_mem_size w) freed)) h, s, freed)
  else Ok (w, s, 0%Z).

Definition notify_readers w : result (WriteHandle W) :=
  if wh_receivers w =? 0 then Err ReaderNotFound
  else Ok {| wh_handle := wh_handle w; wh_partial := wh_partial w; wh_cols := wh_cols w; wh_index := wh_index w;
             wh_contiguous := wh_contiguous w; wh_mem_size := wh_mem_size w; wh_receivers := wh_receivers w;
             wh_sent := wh_sent w ++ [wh_eviction_epoch w]; wh_eviction_epoch := wh_eviction_epoch w |}.
Definition notify_readers_of_eviction w : result (WriteHandle W) :=
  notify_readers {| wh_handle := wh_handle w; wh_partial := wh_partial w; wh_cols := wh_cols w;
                    wh_index := wh_index w; wh_contiguous := wh_contiguous w; wh_mem_size := wh_mem_size w;
                    wh_receivers := wh_receivers w; wh_sent := wh_sent w;
                    wh_eviction_epoch := wh_eviction_epoch w + 1 |}.

(** *** [SingleReadHandle]: [trigger] tells whether misses can be replayed. *)
Definition read_contains (h : W) key : result (bool + ReaderMapError) :=
  match key with
  | KEqual k => handle_contains_key h k
  | KRange r => handle_contains_range h r
  end.
Definition read_get_multi (trigger : bool) (h : W) (keys : list (KeyComparison V)) :
    result (list (list (list V)) + LookupError V) :=
  res ← handle_get_multi h keys;
  Ok match res with
     | inr e => if is_miss e && negb trigger then inl [] else inr e
     | r => r
     end.
End backlog.
