(* ===== verification/Reader.v ===== *)
(** * Reader: the node that serves queries

    Models [readyset-dataflow/src/node/special/reader.rs], and what a domain does
    with a reader when a replay that targets it arrives ([domain/mod.rs],
    [handle_replay]) and when keys are evicted from it ([node/process.rs],
    [process_eviction]). *)
From S2P Require Import Prelude Intervals BTreeMap IntervalTree PartialMap Result Records Keys Crates.
From S2P Require Import KeyedState OpTopK InsertionOrder Eviction Timestamp Effects Payload ReaderMap ReaderMapProps Backlog.

Section reader.
Context `{DfVal V} `{Ord K} `{!ReaderKey V K} {HM W : Type} `{!HashMap K (list (list V)) HM}.
Context `{!LeftRight (Inner K (list V) HM Z Timestamp PreInsertion) (Operation K (list V) Z Timestamp) W}.
Context (row_size : list V → Z) (key_size : list V → Z) (base_value_size : Z).
Implicit Types (w : WriteHandle W) (p : Packet V).
#[local] Abbreviation contains_record := (contains_record (K:=K) (HM:=HM)).
#[local] Abbreviation add := (add (K:=K) (HM:=HM) row_size).
#[local] Abbreviation swap := (swap (K:=K) (HM:=HM)).
#[local] Abbreviation mark_filled := (mark_filled (K:=K) (HM:=HM) key_size base_value_size).
#[local] Abbreviation mark_hole := (mark_hole (K:=K) (HM:=HM) row_size key_size base_value_size).

(** The closures of the two [retain]s. *)
Definition keep_update w (rc : Record V) : result bool :=
  res ← contains_record w (rec rc); match res with inl b => Ok b | inr _ => Panic end.
Definition keep_replay w (rc : Record V) : result bool :=
  res ← contains_record w (rec rc); Ok match res with inl b => negb b | inr _ => true end.

Definition retain_data (keep : Record V → result bool) p : result (Packet V) :=
  data ← packet_data p; data' ← retainM keep data; Payload.set_data data' p.

(** [Reader::process]. *)
Definition reader_process w p (do_swap : bool) : result (WriteHandle W * Packet V) :=
  p ← (if is_regular p && wh_partial w then retain_data (keep_update w) p else Ok p);
  p ← (if negb (is_regular p) && wh_partial w then retain_data (keep_replay w) p else Ok p);
  '(data, p) ← take_data p;
  w ← add w data;
  w ← (if do_swap then swap w else Ok w);
  Ok (w, p).

(** A replay of some keys that targets the reader: they are marked as filled, the
    packet is processed without publishing it, then everything is published. *)
Definition reader_fill w (keys : list (KeyComparison V)) p : result (WriteHandle W) :=
  w ← result_foldl mark_filled w keys;
  '(w, _) ← reader_process w p false;
  w ← swap w;
  notify_readers w.

(** The arm of [process_eviction] for readers. *)
Definition reader_evict w (keys : list (KeyComparison V)) : result (WriteHandle W) :=
  w ← result_foldl mark_hole w keys;
  w ← swap w;
  notify_readers_of_eviction w.

(** The arm of [handle_eviction] that evicts some bytes from a reader. *)
Definition reader_evict_bytes (gen_bool : nat → nat → nat → result bool) w (s : EvictionStrategy) (ctrs : list Z)
    (nkeys : nat) : result (WriteHandle W * EvictionStrategy * Z) :=
  '(w, s, freed) ← evict_bytes (K:=K) (HM:=HM) row_size key_size base_value_size gen_bool w s ctrs nkeys;
  w ← swap w;
  w ← notify_readers_of_eviction w;
  Ok (w, s, freed).
End reader.
