(* ===== verification/ReaderProps.v ===== *)
(** * ReaderProps: a partial reader serves the view

    Shows that a partially materialized reader never serves anything but the rows
    of its view: every key that is filled holds exactly the rows of the view with
    that key, through updates, replays and evictions ([reader_serves_view]).  The
    proofs are about any key type that satisfies [ReaderKeyLaws], which both
    variants of the handles do. *)
From S2P Require Import Prelude Intervals BTreeMap IntervalTree PartialMap Result Records Keys Crates Processing Batches.
From S2P Require Import KeyedState OpTopK InsertionOrder Eviction Timestamp Effects Payload.
From S2P Require Import ReaderMap ReaderMapProps ReaderMapContents Backlog Reader.

(** ** Keys of readers

    Keys stand for vectors of a width, in the order of the vectors. *)
Class ReaderKeyLaws (V K : Type) `{DfVal V} `{Ord K} `{!ReaderKey V K} := {
  rk_width : nat → Prop;
  rk_of_vec k : rk_width (length k) → ∃ kk : K,
    rk_vec kk = k ∧ rk_key k = Ok kk ∧ rk_first k = Ok kk ∧ rk_pop k = Ok kk ∧ rk_assert k = Ok kk;
  rk_of_row cols r : rk_width (length cols) → Forall (λ c, c < length r) cols →
    ∃ kk : K, rk_row cols r = Ok kk ∧ rk_vec kk = cols_at cols r;
  rk_vec_cmp (a b : K) : cmp (rk_vec (V:=V) a) (rk_vec b) = cmp a b;
}.

Section key_laws.
Context `{DfVal V}.

#[export] Instance single_key_laws : ReaderKeyLaws V V.
Proof.
  refine {| rk_width n := n = 1 |}.
  - intros [|v [|]] Hn; try done. by exists v.
  - intros [|c [|]] r Hn Hc; try done. rewrite Forall_singleton in Hc.
    destruct (lookup_lt_is_Some_2 r c Hc) as [v Hv]. exists v. simpl. unfold cols_at. simpl. by rewrite Hv.
  - intros a b. unfold cmp at 1. simpl. by destruct (cmp a b).
Defined.

#[export] Instance many_key_laws : ReaderKeyLaws V (list V).
Proof.
  refine {| rk_width _ := True |}.
  - intros k _. by exists k.
  - intros cols r _ Hc. exists (cols_at cols r). split; [|done]. by apply row_cols_at.
  - done.
Defined.
End key_laws.

Section reader_lemmas.
Context `{DfVal V} `{Ord K} `{!ReaderKey V K} `{!ReaderKeyLaws V K} {HM W : Type} `{!HashMap K (list (list V)) HM}.
#[local] Abbreviation RInner := (Inner K (list V) HM Z Timestamp PreInsertion).
#[local] Abbreviation ROp := (Operation K (list V) Z Timestamp).
Context `{!LeftRight RInner ROp W}.
Implicit Types (kk : K) (k r : list V) (rs : list (Record V)) (R : list (list V)) (rows : list (list V)).

Lemma rk_vec_inj (a b : K) : rk_vec (V:=V) a = rk_vec b → a = b.
Proof. intros Hab. apply cmp_eq_iff. rewrite <-(rk_vec_cmp (V:=V)), Hab. apply cmp_refl. Qed.

(** *** The records of one key *)
Definition apply_record (c : list V → list V → comparison) rows (rc : Record V) : list (list V) :=
  match rc with Positive r => insert_by c r rows | Negative r => @remove_one (list V) ord_eq_dec rows r end.

Lemma apply_records_view c rs old new rows :
  batch_ok old rs new → rows ≡ₚ old → foldl (apply_record c) rows rs ≡ₚ new.
Proof.
  revert old rows. induction rs as [|rc rs IH]; intros old rows Hok Hp; simpl.
  - rewrite Hp. by apply batch_ok_nil.
  - apply batch_ok_cons in Hok. destruct rc as [r|r].
    + eapply IH; [exact Hok|]. simpl. by rewrite insert_by_perm, Hp.
    + destruct Hok as (old' & Hold & Hok). eapply IH; [exact Hok|]. simpl.
      apply (Permutation.Permutation_cons_inv (a:=r)). rewrite remove_one_present; [by rewrite Hp|].
      rewrite Hp, Hold. apply elem_of_here.
Qed.

(** The operations that [add] appends for records. *)
Definition record_op kk (rc : Record V) : ROp :=
  match rc with Positive r => OAdd kk r None | Negative r => ORemoveValue kk r None end.
Definition record_ops (cols : list nat) rs : list ROp :=
  omap (λ rc, match rk_row cols (rec rc) with Ok kk => Some (record_op kk rc) | _ => None end) rs.

Lemma record_ops_contents t pre cols rs g kk :
  rk_width (length cols) → Forall (λ rc, Forall (λ c, c < length (rec rc)) cols) rs →
  match g kk with
  | Some rows => contents_steps t (Some pre) (record_ops cols rs) g kk
      = Some (foldl (apply_record (pi_cmp pre)) rows (filter (λ rc, cols_at cols (rec rc) = rk_vec kk) rs))
  | None => Forall (λ rc, cols_at cols (rec rc) ≠ rk_vec kk) rs →
      contents_steps t (Some pre) (record_ops cols rs) g kk = None
  end.
Proof.
  intros Hw Hrs. revert g. induction Hrs as [|rc rs Hrc Hrs IH]; intros g.
  { change (contents_steps t (Some pre) (record_ops cols []) g kk) with (g kk). by destruct (g kk). }
  destruct (rk_of_row cols (rec rc) Hw Hrc) as (kr & Hrow & Hvec).
  assert (record_ops cols (rc :: rs) = record_op kr rc :: record_ops cols rs) as ->.
  { unfold record_ops. simpl. by rewrite Hrow. }
  rewrite contents_steps_cons.
  specialize (IH (contents_step t (Some pre) (record_op kr rc) g)).
  rewrite filter_cons, <-Hvec. destruct (decide (kk = kr)) as [->|Hne].
  - destruct (g kr) as [rows|] eqn:Eg.
    + assert (contents_step t (Some pre) (record_op kr rc) g kr = Some (apply_record (pi_cmp pre) rows rc)) as Hstep.
      { destruct rc; simpl; rewrite decide_True, Eg by done; done. }
      rewrite Hstep in IH. rewrite decide_True by done. done.
    + intros Hall. apply Forall_cons in Hall as [Hne _]. by rewrite Hvec in Hne.
  - assert (contents_step t (Some pre) (record_op kr rc) g kk = g kk) as Hstep.
    { destruct rc; simpl; by rewrite decide_False. }
    rewrite Hstep in IH. rewrite decide_False by (intros Hv; by apply rk_vec_inj in Hv).
    destruct (g kk); [done|]. intros Hall. apply Forall_cons in Hall as [_ ?]. by apply IH.
Qed.
End reader_lemmas.

(** ** The state of a reader *)
Lemma contiguous_from_seq l cols : contiguous_from (Some l) cols = true → cols = seq (S l) (length cols).
Proof.
  revert l. induction cols as [|k cols IH]; intros l Hc; [done|]. simpl in *.
  destruct (Nat.eqb_spec k (l + 1)) as [->|]; [|done]. f_equal; [lia|].
  replace (S (S l)) with (S (l + 1)) by lia. by apply IH.
Qed.

Lemma cols_at_seq `{DfVal V} (r : list V) c n : c + n ≤ length r → cols_at (seq c n) r = take n (drop c r).
Proof.
  revert c. induction n as [|n IH]; intros c Hn; [done|]. unfold cols_at in *. simpl.
  destruct (lookup_lt_is_Some_2 r c) as [v Hv]; [lia|]. rewrite Hv. simpl.
  rewrite IH by lia. by rewrite (drop_S r v c Hv).
Qed.

Section reader_state.
Context `{DfVal V} `{Ord K} `{!ReaderKey V K} `{!ReaderKeyLaws V K} {HM W : Type} `{!HashMap K (list (list V)) HM}.
#[local] Abbreviation RInner := (Inner K (list V) HM Z Timestamp PreInsertion).
#[local] Abbreviation ROp := (Operation K (list V) Z Timestamp).
Context `{!LeftRight RInner ROp W}.
Context (row_size : list V → Z) (key_size : list V → Z) (base_value_size : Z).
Implicit Types (kk : K) (k r : list V) (rs : list (Record V)) (R rows : list (list V)) (w : WriteHandle W) (h : W).
#[local] Abbreviation enter := (lr_enter (T:=RInner) (Op:=ROp)).
#[local] Abbreviation pending := (lr_pending (T:=RInner) (Op:=ROp)).
#[local] Abbreviation append := (lr_append (T:=RInner) (Op:=ROp)).
#[local] Abbreviation visible := (visible (K:=K) (A:=list V) (HM:=HM) (M:=Z) (T:=Timestamp) (I:=PreInsertion)).
#[local] Abbreviation visible_type := (visible_type (K:=K) (A:=list V) (HM:=HM) (M:=Z) (T:=Timestamp) (I:=PreInsertion)).
#[local] Abbreviation visible_order := (visible_order (K:=K) (A:=list V) (HM:=HM) (M:=Z) (T:=Timestamp) (I:=PreInsertion)).
#[local] Abbreviation handle_wf := (handle_wf (K:=K) (A:=list V) (HM:=HM) (M:=Z) (T:=Timestamp) (I:=PreInsertion)).
#[local] Abbreviation record_ops := (record_ops (V:=V) (K:=K)).
#[local] Abbreviation rk_row := (rk_row (V:=V) (K:=K)).
#[local] Abbreviation rk_width := (rk_width (V:=V) (K:=K)).
#[local] Abbreviation mw_add := (mw_add (K:=K) (HM:=HM) row_size).
#[local] Abbreviation contains_record := (contains_record (K:=K) (HM:=HM)).
#[local] Abbreviation add := (add (K:=K) (HM:=HM) row_size).
#[local] Abbreviation swap := (swap (K:=K) (HM:=HM)).
#[local] Abbreviation mark_filled := (mark_filled (K:=K) (HM:=HM) key_size base_value_size).
#[local] Abbreviation mark_hole := (mark_hole (K:=K) (HM:=HM) row_size key_size base_value_size).
#[local] Abbreviation keep_update := (keep_update (K:=K) (HM:=HM)).
#[local] Abbreviation keep_replay := (keep_replay (K:=K) (HM:=HM)).
#[local] Abbreviation reader_process := (reader_process (K:=K) (HM:=HM) row_size).
#[local] Abbreviation reader_fill := (reader_fill (K:=K) (HM:=HM) row_size key_size base_value_size).
#[local] Abbreviation reader_evict := (reader_evict (K:=K) (HM:=HM) row_size key_size base_value_size).

(** A partial reader that was published once and whose index has the columns
    [cols]; there may be pending operations. *)
Record reader_ok (cols : list nat) (pre : PreInsertion) w : Prop := {
  ok_handle : handle_wf (wh_handle w);
  ok_ready : in_ready (enter (wh_handle w)) = true;
  ok_partial : wh_partial w = true;
  ok_columns : columns (wh_index w) = cols;
  ok_width : rk_width (length cols);
  ok_cols_ne : cols ≠ [];
  ok_contiguous : wh_contiguous w = contiguous cols;
  ok_type : visible_type (wh_handle w) = index_type (wh_index w);
  ok_order : visible_order (wh_handle w) = Some pre;
}.
Definition row_ok (cols : list nat) (pre : PreInsertion) r : Prop :=
  Forall (λ c, c < length r) cols ∧ order_fits (pi_cols pre) r = true.
(** Every filled key holds the rows of the view with that key. *)
Definition cached (cols : list nat) w R : Prop :=
  ∀ kk rows, visible (wh_handle w) kk = Some rows → rows ≡ₚ filter (λ r, cols_at cols r = rk_vec kk) R.

(** The fields that operations on the contents leave alone. *)
Definition same_reader w w' : Prop :=
  wh_partial w' = wh_partial w ∧ wh_index w' = wh_index w ∧ wh_contiguous w' = wh_contiguous w ∧
  wh_receivers w' = wh_receivers w.

Lemma mw_add_one_spec cols rc kr d h :
  rk_row cols (rec rc) = Ok kr →
  ∃ d', mw_add_one (K:=K) (HM:=HM) row_size cols (d, h) rc = Ok (d', append h (record_op kr rc)).
Proof. intros Hrow. unfold mw_add_one. rewrite Hrow. destruct rc; by eexists. Qed.

Lemma mw_add_spec cols rs h :
  rk_width (length cols) → Forall (λ rc, Forall (λ c, c < length (rec rc)) cols) rs →
  ∃ delta, mw_add h cols rs = Ok (delta, foldl append h (record_ops cols rs)).
Proof.
  intros Hw Hrs. unfold Backlog.mw_add. generalize 0%Z. revert h.
  induction Hrs as [|rc rs Hrc Hrs IH]; intros h d; [by eexists|]. cbn [result_foldl].
  destruct (rk_of_row cols (rec rc) Hw Hrc) as (kr & Hrow & _).
  destruct (mw_add_one_spec cols rc kr d h Hrow) as (d' & ->). cbn [mbind result_bind].
  unfold ReaderProps.record_ops. cbn [omap list_omap]. rewrite Hrow. apply IH.
Qed.

Lemma record_ops_fit cols pre rs t :
  Forall (λ rc, row_ok cols pre (rec rc)) rs →
  Forall fresh_op (record_ops cols rs) ∧ Forall (op_fits t (Some pre)) (record_ops cols rs).
Proof.
  induction 1 as [|rc rs [_ Hrc] _ [IH1 IH2]]; [by split; constructor|].
  unfold ReaderProps.record_ops. cbn [omap list_omap].
  destruct (rk_row cols (rec rc)) as [kr| |]; [|done..].
  split; constructor; try done; destruct rc; done.
Qed.

Lemma record_key_ok cols pre w r :
  reader_ok cols pre w → row_ok cols pre r → record_key w r = Ok (cols_at cols r).
Proof.
  intros Hw [Hr _]. unfold record_key. rewrite (ok_columns _ _ _ Hw), (ok_contiguous _ _ _ Hw).
  destruct (contiguous cols) eqn:Ec; [|by apply row_cols_at].
  pose proof (ok_cols_ne _ _ _ Hw) as Hne. destruct cols as [|c cols]; [done|]. simpl in Ec.
  apply contiguous_from_seq in Ec. cbn [head expect mbind result_bind].
  assert (c :: cols = seq c (S (length cols))) as Hseq by (simpl; by rewrite <-Ec).
  assert (c + S (length cols) ≤ length r) as Hle.
  { rewrite Hseq in Hr. rewrite Forall_forall in Hr.
    assert (c + length cols < length r); [|lia]. apply Hr, list_elem_of_In, in_seq. lia. }
  cbn [length]. rewrite (proj2 (Nat.leb_le _ _) Hle). f_equal. rewrite Hseq at 1. by rewrite cols_at_seq.
Qed.

(** Whether the key of a record is filled in what readers see. *)
Definition filled w (rc : Record V) : bool :=
  match rk_row (columns (wh_index w)) (rec rc) with
  | Ok kk => match visible (wh_handle w) kk with Some _ => true | None => false end
  | _ => false
  end.

Lemma contains_record_ok cols pre w rc :
  reader_ok cols pre w → row_ok cols pre (rec rc) → contains_record w (rec rc) = Ok (inl (filled w rc)).
Proof.
  intros Hw Hr. unfold Backlog.contains_record. rewrite (record_key_ok cols pre w) by done. cbn [mbind result_bind].
  destruct (rk_of_row cols (rec rc) (ok_width _ _ _ Hw)) as (kr & Hrow & Hvec); [apply Hr|].
  assert (rk_width (length (cols_at cols (rec rc)))) as Hlen.
  { replace (length (cols_at cols (rec rc))) with (length cols); [apply Hw|].
    destruct Hr as [Hr _]. clear -Hr. unfold cols_at. induction Hr as [|c cs Hc _ IH]; [done|]. simpl.
    destruct (lookup_lt_is_Some_2 _ _ Hc) as [v ->]. simpl. by rewrite IH. }
  destruct (rk_of_vec (cols_at cols (rec rc)) Hlen) as (k2 & Hv2 & _ & _ & _ & Ha).
  assert (k2 = kr) as -> by (apply (rk_vec_inj (V:=V)); congruence).
  unfold handle_contains_key. rewrite Ha. cbn [mbind result_bind].
  unfold ReaderMap.enter. rewrite (ok_ready _ _ _ Hw).
  unfold filled. rewrite (ok_columns _ _ _ Hw), Hrow. unfold ReaderMapContents.visible.
  by rewrite data_contains_key_get.
Qed.

(** Appending operations, and publishing them. *)
Lemma reader_append cols pre w w' ops :
  reader_ok cols pre w → same_reader w w' → wh_handle w' = foldl append (wh_handle w) ops →
  Forall fresh_op ops → Forall (op_fits (index_type (wh_index w)) (Some pre)) ops →
  reader_ok cols pre w' ∧ enter (wh_handle w') = enter (wh_handle w) ∧
  pending (wh_handle w') = pending (wh_handle w) ++ ops.
Proof.
  intros Hw (Hp & Hi & Hc & _) Hh Hfr Hfit.
  destruct (handle_appends ops (wh_handle w)) as (Hwf & He & Hpend);
    [apply Hw|done|by rewrite (ok_type _ _ _ Hw), (ok_order _ _ _ Hw)|].
  rewrite <-Hh in *. split; [|done]. destruct Hw. split; rewrite ?Hp, ?Hi, ?Hc, ?He; try done.
  - unfold ReaderMapContents.visible_type in *. by rewrite He.
  - unfold ReaderMapContents.visible_order in *. by rewrite He.
Qed.

Lemma reader_swap cols pre w :
  reader_ok cols pre w →
  ∃ w', swap w = Ok w' ∧ reader_ok cols pre w' ∧ same_reader w w' ∧ pending (wh_handle w') = [] ∧
    ∀ kk, visible (wh_handle w') kk =
          contents_steps (index_type (wh_index w)) (Some pre) (pending (wh_handle w)) (visible (wh_handle w)) kk.
Proof.
  intros Hw. destruct (handle_publish (wh_handle w) (ok_handle _ _ _ Hw)) as
    (h' & Hh' & Hwf & Hp & Hty & Ho & Hr & Hg).
  unfold Backlog.swap. rewrite Hh'. eexists. split; [done|]. rewrite (ok_type _ _ _ Hw), (ok_order _ _ _ Hw) in Hg.
  split; [|done]. destruct Hw. split; cbn [wh_handle wh_partial wh_index wh_contiguous with_handle]; try done.
  - apply Hr. by left.
  - congruence.
  - congruence.
Qed.

Lemma reader_add cols pre w rs :
  reader_ok cols pre w → Forall (λ rc, row_ok cols pre (rec rc)) rs →
  ∃ w', add w rs = Ok w' ∧ reader_ok cols pre w' ∧ same_reader w w' ∧
    enter (wh_handle w') = enter (wh_handle w) ∧
    pending (wh_handle w') = pending (wh_handle w) ++ record_ops cols rs.
Proof.
  intros Hw Hrs. pose proof (ok_width _ _ _ Hw) as Hwd.
  destruct (mw_add_spec cols rs (wh_handle w) Hwd) as (delta & Hadd).
  { eapply Forall_impl; [exact Hrs|]. by intros rc [? _]. }
  destruct (record_ops_fit cols pre rs (index_type (wh_index w)) Hrs) as [Hfr Hfit].
  unfold Backlog.add. rewrite (ok_columns _ _ _ Hw), Hadd. cbn [mbind result_bind].
  eexists. split; [done|]. match goal with |- reader_ok _ _ ?w1 ∧ _ =>
    assert (same_reader w w1) as Hsame by (by split_and!);
    destruct (reader_append cols pre w w1 (record_ops cols rs)) as (? & ? & ?); [done..|] end.
  done.
Qed.

(** *** Updates *)
Lemma keep_update_ok cols pre w rs :
  reader_ok cols pre w → Forall (λ rc, row_ok cols pre (rec rc)) rs →
  retainM (keep_update w) rs = Ok (filter (λ rc, filled w rc = true) rs).
Proof.
  intros Hw Hrs. apply retainM_ok. eapply Forall_impl; [exact Hrs|]. intros rc Hrc.
  unfold Reader.keep_update. by rewrite (contains_record_ok cols pre w rc) by done.
Qed.
Lemma keep_replay_ok cols pre w rs :
  reader_ok cols pre w → Forall (λ rc, row_ok cols pre (rec rc)) rs →
  retainM (keep_replay w) rs = Ok (filter (λ rc, negb (filled w rc) = true) rs).
Proof.
  intros Hw Hrs. apply retainM_ok. eapply Forall_impl; [exact Hrs|]. intros rc Hrc.
  unfold Reader.keep_replay. by rewrite (contains_record_ok cols pre w rc) by done.
Qed.

(** Whether the key of a row is filled, told from the row's columns. *)
Lemma filled_key cols pre w rc kk :
  reader_ok cols pre w → row_ok cols pre (rec rc) → cols_at cols (rec rc) = rk_vec kk →
  filled w rc = match visible (wh_handle w) kk with Some _ => true | None => false end.
Proof.
  intros Hw [Hr _] Hk. destruct (rk_of_row cols (rec rc) (ok_width _ _ _ Hw) Hr) as (kr & Hrow & Hvec).
  assert (kr = kk) as -> by (apply (rk_vec_inj (V:=V)); congruence).
  unfold filled. by rewrite (ok_columns _ _ _ Hw), Hrow.
Qed.

Lemma reader_update_ok cols pre w R R' link rs tr :
  reader_ok cols pre w → pending (wh_handle w) = [] → cached cols w R →
  batch_ok R rs R' → Forall (λ rc, row_ok cols pre (rec rc)) rs →
  ∃ w', reader_process w (PMessage link rs tr) true = Ok (w', PMessage link [] tr) ∧
    reader_ok cols pre w' ∧ same_reader w w' ∧ pending (wh_handle w') = [] ∧ cached cols w' R' ∧
    ∀ kk, visible (wh_handle w') kk = None ↔ visible (wh_handle w) kk = None.
Proof.
  intros Hw Hp Hc Hb Hrs. set (rs' := filter (λ rc, filled w rc = true) rs).
  assert (Forall (λ rc, row_ok cols pre (rec rc)) rs') as Hrs' by (by apply Forall_filter_keep).
  destruct (reader_add cols pre w rs' Hw Hrs') as (w1 & Hadd & Hw1 & Hs1 & He1 & Hp1).
  destruct (reader_swap cols pre w1 Hw1) as (w2 & Hswap & Hw2 & Hs2 & Hp2 & Hg).
  exists w2. unfold Reader.reader_process. cbn [is_regular negb andb].
  rewrite (ok_partial _ _ _ Hw). unfold retain_data. cbn [packet_data mbind result_bind andb].
  rewrite (keep_update_ok cols pre) by done. fold rs'. cbn [mbind result_bind Payload.set_data is_regular negb andb take_data].
  rewrite Hadd. cbn [mbind result_bind]. rewrite Hswap. split; [done|]. split; [done|].
  split; [by destruct Hs1 as (?&?&?&?), Hs2 as (?&?&?&?); split_and!; congruence|]. split; [done|].
  assert (∀ kk, match visible (wh_handle w) kk with
                | Some rows => ∃ rows', visible (wh_handle w2) kk = Some rows' ∧
                                 rows' ≡ₚ filter (λ r, cols_at cols r = rk_vec kk) R'
                | None => visible (wh_handle w2) kk = None
                end) as Hall.
  { intros kk. rewrite Hg, Hp1, Hp. destruct Hs1 as (_ & -> & _).
    assert (∀ k' : K, visible (wh_handle w1) k' = visible (wh_handle w) k') as Hv1.
    { intros k'. unfold ReaderMapContents.visible. by rewrite He1. }
    rewrite (contents_steps_ext _ _ _ _ _ Hv1).
    pose proof (record_ops_contents (index_type (wh_index w)) pre cols rs' (visible (wh_handle w)) kk (ok_width _ _ _ Hw)) as Hrec.
    assert (Forall (λ rc, Forall (λ c, c < length (rec rc)) cols) rs') as Hcols.
    { eapply Forall_impl; [exact Hrs'|]. by intros rc [? _]. }
    specialize (Hrec Hcols). destruct (visible (wh_handle w) kk) as [rows|] eqn:Ev.
    - eexists. split; [exact Hrec|]. eapply apply_records_view; [|by apply Hc].
      unfold rs'. rewrite list_filter_filter.
      rewrite (filter_ext_elem _ (λ rc, cols_at cols (rec rc) = rk_vec kk)).
      { exact (batch_ok_filter (λ r, cols_at cols r = rk_vec kk) R rs R' Hb). }
      intros rc Hrc. rewrite Forall_forall in Hrs. split; [by intros [? _]|]. intros Hk. split; [done|].
      rewrite (filled_key cols pre w rc kk) by auto. by rewrite Ev.
    - apply Hrec. apply Forall_forall. intros rc [Hf Hrc]%list_elem_of_filter Hk.
      rewrite Forall_forall in Hrs. rewrite (filled_key cols pre w rc kk) in Hf by auto. by rewrite Ev in Hf. }
  split.
  - intros kk rows Hk. specialize (Hall kk). destruct (visible (wh_handle w) kk); [|congruence].
    destruct Hall as (rows' & Hk' & ?). congruence.
  - intros kk. specialize (Hall kk). destruct (visible (wh_handle w) kk); [|done].
    destruct Hall as (rows' & -> & _). done.
Qed.

(** *** Replays *)
Definition bound_sized (n : nat) (b : Bound (list V)) : Prop :=
  match b with Included k | Excluded k => length k = n | Unbounded => True end.
Definition key_sized (n : nat) (key : KeyComparison V) : Prop :=
  bound_sized n (start_bound key) ∧ bound_sized n (end_bound key).

(** The bounds of a range keep their shape and their keys. *)
Definition bound_vec (b' : Bound K) : Bound (list V) := Bound_map rk_vec b'.

Lemma bound_mapM_sized n b :
  rk_width n → bound_sized n b → ∃ b' : Bound K,
    bound_mapM rk_first b = Ok b' ∧ bound_mapM rk_assert b = Ok b' ∧ bound_mapM rk_pop b = Ok b' ∧ b = bound_vec b'.
Proof.
  intros Hn Hb. destruct b as [k|k|]; simpl in Hb; [| |by exists Unbounded].
  all: subst n; destruct (rk_of_vec k Hn) as (kk & <- & _ & Hf & Hp & Ha);
    eexists; simpl; rewrite Hf, Hp, Ha; by split_and!.
Qed.

Lemma range_valid_vec (r : BoundPair K) : range_valid (bound_vec r.1, bound_vec r.2) = range_valid r.
Proof.
  unfold range_valid. destruct r as [[a|a|] [b|b|]]; simpl; rewrite ?rk_vec_cmp; try done; by destruct (cmp a b).
Qed.

Lemma range_mapM_sized n (r : BoundPair (list V)) :
  rk_width n → bound_sized n r.1 → bound_sized n r.2 → ∃ r' : BoundPair K,
    range_mapM rk_first r = Ok r' ∧ range_mapM rk_assert r = Ok r' ∧ range_mapM rk_pop r = Ok r' ∧
    (∀ kk, in_range r' kk = in_range r (rk_vec kk)) ∧ range_valid r' = range_valid r.
Proof.
  intros Hn H1 H2. destruct (bound_mapM_sized n r.1 Hn H1) as (lo & Hlo & Hlo' & Hlo'' & Ha).
  destruct (bound_mapM_sized n r.2 Hn H2) as (hi & Hhi & Hhi' & Hhi'' & Hb).
  exists (lo, hi). unfold range_mapM. rewrite Hlo, Hlo', Hlo'', Hhi, Hhi', Hhi''. split_and!; [done..| |].
  - intros kk. destruct r as [a b]. simpl in *. subst. unfold in_range.
    destruct lo, hi; simpl; by rewrite ?rk_vec_cmp.
  - rewrite <-range_valid_vec. destruct r. simpl in *. by subst.
Qed.

(** The contents when the holes of some keys have been marked as filled. *)
Definition covered (keys : list (KeyComparison V)) kk : bool :=
  existsb (λ key, kc_contains key (rk_vec kk)) keys.
Definition marked (keys : list (KeyComparison V)) (g : K → option (list (list V))) : K → option (list (list V)) := λ kk,
  match g kk with Some rows => Some rows | None => if covered keys kk then Some [] else None end.

Lemma overlaps_valid (d : Data K (list V) HM) (r : BoundPair K) b :
  data_overlaps_range d r = Ok b → range_valid r = true.
Proof.
  destruct d as [m|m]; simpl; [|done]. unfold pm_overlaps_range, get_interval_overlaps, range_valid.
  by destruct (check_range r).
Qed.

(** Marking one key appends one operation, which turns its holes into empty keys. *)
Lemma reader_mark_filled_ok cols pre w w' key keys :
  reader_ok cols pre w → key_sized (length cols) key → mark_filled w key = Ok w' →
  ∃ op, wh_handle w' = append (wh_handle w) op ∧ same_reader w w' ∧ fresh_op op ∧
    op_fits (index_type (wh_index w)) (Some pre) op ∧
    ∀ kk, contents_step (index_type (wh_index w)) (Some pre) op (marked keys (visible (wh_handle w))) kk
          = marked (keys ++ [key]) (visible (wh_handle w)) kk.
Proof.
  intros Hw [Hs He]. unfold Backlog.mark_filled.
  destruct (check_len w key); [|done..]. cbn [mbind result_bind].
  pose proof (ok_width _ _ _ Hw) as Hwd.
  assert (∀ kk, covered (keys ++ [key]) kk = covered keys kk || kc_contains key (rk_vec kk)) as Hcov.
  { intros kk. unfold covered. rewrite existsb_app. cbn [existsb]. by rewrite orb_false_r. }
  destruct (index_type (wh_index w)) eqn:Ety.
  - destruct key as [k|]; [|done]. simpl in Hs. rewrite <-Hs in Hwd.
    destruct (rk_of_vec k Hwd) as (kk & Hvec & Hk & Hf & _ & _).
    unfold entry_mark_filled, handle_get, ReaderMap.enter. rewrite (ok_ready _ _ _ Hw), Hf. cbn [mbind result_bind].
    destruct (data_get (in_data (enter (wh_handle w))) kk) eqn:Eg; [done|]. cbn [is_miss mbind result_bind].
    unfold mw_clear. rewrite Hk. intros [= <-]. exists (OClear kk). split_and!; try done.
    intros k2. cbn [contents_step]. unfold marked. rewrite Hcov. cbn [kc_contains].
    destruct (decide (k2 = kk)) as [->|Hne].
    + unfold ReaderMapContents.visible at 1. rewrite Eg, Hvec, cmp_refl. by rewrite orb_true_r.
    + assert (is_eq (cmp (rk_vec k2) k) = false) as ->; [|by rewrite orb_false_r].
      rewrite <-Hvec, rk_vec_cmp. destruct (cmp k2 kk) eqn:Ec; [|done|done]. by apply cmp_eq_iff in Ec.
  - destruct (range_mapM_sized (length cols) (bounds key) Hwd Hs He) as (r & Hf & Ha & _ & Hin & _).
    unfold handle_overlaps_range, ReaderMap.enter. rewrite (ok_ready _ _ _ Hw), Ha. cbn [mbind result_bind].
    destruct (data_overlaps_range (in_data (enter (wh_handle w))) r) as [b| |] eqn:Eo; [|done..].
    cbn [mbind result_bind fmap result_fmap]. destruct b; [done|].
    unfold mw_insert_range. rewrite Hf. intros [= <-]. exists (OAddRange r). split_and!; try done.
    { intros _. by eapply overlaps_valid. }
    intros kk. cbn [contents_step]. unfold marked. rewrite Hcov.
    destruct (visible (wh_handle w) kk); [done|]. destruct (covered keys kk); [done|]. simpl.
    by rewrite Hin, kc_contains_bounds.
Qed.

Lemma mark_filled_all cols pre keys w w' done_keys ops0 w0 :
  reader_ok cols pre w → Forall (key_sized (length cols)) keys →
  enter (wh_handle w) = enter (wh_handle w0) → pending (wh_handle w) = ops0 → same_reader w0 w →
  (∀ kk, contents_steps (index_type (wh_index w0)) (Some pre) ops0 (visible (wh_handle w0)) kk
         = marked done_keys (visible (wh_handle w0)) kk) →
  result_foldl mark_filled w keys = Ok w' →
  reader_ok cols pre w' ∧ enter (wh_handle w') = enter (wh_handle w0) ∧ same_reader w0 w' ∧
  ∀ kk, contents_steps (index_type (wh_index w0)) (Some pre) (pending (wh_handle w')) (visible (wh_handle w0)) kk
        = marked (done_keys ++ keys) (visible (wh_handle w0)) kk.
Proof.
  intros Hw Hkeys. revert w done_keys ops0 Hw. induction Hkeys as [|key keys Hkey Hkeys IH]; intros w done_keys ops0 Hw He Hp Hs Hg.
  - intros [= <-]. rewrite Hp, app_nil_r. done.
  - cbn [result_foldl]. destruct (mark_filled w key) as [w1| |] eqn:Em; [|done..]. cbn [mbind result_bind].
    assert (visible (wh_handle w) = visible (wh_handle w0)) as Hv.
    { unfold ReaderMapContents.visible. by rewrite He. }
    destruct (reader_mark_filled_ok cols pre w w1 key done_keys Hw Hkey Em) as (op & Hh & Hs1 & Hfr & Hfit & Hstep).
    destruct (reader_append cols pre w w1 [op]) as (Hw1 & He1 & Hp1); [done|done|done| | |].
    { by apply Forall_singleton. } { by apply Forall_singleton. }
    intros Hfold.
    assert (same_reader w0 w1) as Hs01.
    { destruct Hs as (?&?&?&?), Hs1 as (?&?&?&?). split_and!; congruence. }
    assert (wh_index w = wh_index w0) as Hix by apply Hs.
    destruct (IH w1 (done_keys ++ [key]) (ops0 ++ [op])) as (? & ? & ? & Hres);
      [done|congruence|congruence|done| |done|].
    + intros kk. rewrite contents_steps_app, contents_steps_cons. cbn [contents_steps foldl].
      rewrite (contents_step_ext _ _ _ _ _ Hg). rewrite Hv, Hix in Hstep. apply Hstep.
    + split_and!; try done. intros kk. rewrite Hres. by rewrite <-app_assoc.
Qed.

Lemma filter_positive cols k rows :
  filter (λ rc, cols_at cols (rec rc) = k) (Positive <$> rows) = Positive <$> filter (λ r, cols_at cols r = k) rows.
Proof.
  induction rows as [|r rows IH]; [done|]. rewrite fmap_cons, !filter_cons, IH. cbn [rec]. by case_decide.
Qed.

Lemma reader_fill_ok cols pre w w' R keys link tag rows ctx :
  reader_ok cols pre w → pending (wh_handle w) = [] → cached cols w R →
  Forall (key_sized (length cols)) keys → Forall (row_ok cols pre) rows →
  rows ≡ₚ filter (λ r, existsb (λ key, kc_contains key (cols_at cols r)) keys = true) R →
  reader_fill w keys (PReplayPiece link tag (Positive <$> rows) ctx) = Ok w' →
  reader_ok cols pre w' ∧ same_reader w w' ∧ pending (wh_handle w') = [] ∧ cached cols w' R ∧
  ∀ kk, visible (wh_handle w') kk = None ↔ visible (wh_handle w) kk = None ∧ covered keys kk = false.
Proof.
  intros Hw Hp Hc Hkeys Hrows Hview. unfold Reader.reader_fill.
  destruct (result_foldl mark_filled w keys) as [w1| |] eqn:Em; [|done..]. cbn [mbind result_bind].
  destruct (mark_filled_all cols pre keys w w1 [] [] w) as (Hw1 & He1 & Hs1 & Hm); try done.
  { intros kk. unfold marked. cbn [contents_steps foldl covered existsb]. by destruct (visible (wh_handle w) kk). }
  set (rs := Positive <$> rows). set (rs' := filter (λ rc, negb (filled w1 rc) = true) rs).
  assert (Forall (λ rc, row_ok cols pre (rec rc)) rs) as Hrs.
  { unfold rs. apply Forall_fmap. eapply Forall_impl; [exact Hrows|]. done. }
  assert (Forall (λ rc, row_ok cols pre (rec rc)) rs') as Hrs' by (by apply Forall_filter_keep).
  destruct (reader_add cols pre w1 rs' Hw1 Hrs') as (w2 & Hadd & Hw2 & Hs2 & He2 & Hp2).
  destruct (reader_swap cols pre w2 Hw2) as (w3 & Hswap & Hw3 & Hs3 & Hp3 & Hg).
  unfold Reader.reader_process. cbn [is_regular negb andb]. rewrite (ok_partial _ _ _ Hw1).
  unfold retain_data. cbn [packet_data mbind result_bind andb negb is_regular].
  rewrite (keep_replay_ok cols pre) by done. fold rs'.
  cbn [mbind result_bind Payload.set_data take_data]. rewrite Hadd. cbn [mbind result_bind]. rewrite Hswap.
  cbn [mbind result_bind]. unfold notify_readers. destruct (wh_receivers w3 =? 0); [done|]. intros [= <-].
  assert (∀ kk, match visible (wh_handle w) kk with
                | Some old => visible (wh_handle w3) kk = Some old
                | None => if covered keys kk
                          then ∃ new, visible (wh_handle w3) kk = Some new ∧
                                 new ≡ₚ filter (λ r, cols_at cols r = rk_vec kk) R
                          else visible (wh_handle w3) kk = None
                end) as Hall.
  { intros kk. rewrite Hg, Hp2, contents_steps_app.
    assert (∀ k' : K, visible (wh_handle w2) k' = visible (wh_handle w) k') as Hv2.
    { intros k'. unfold ReaderMapContents.visible. by rewrite He2, He1. }
    assert (wh_index w2 = wh_index w) as -> by (destruct Hs1 as (?&?&?&?), Hs2 as (?&?&?&?); congruence).
    rewrite (contents_steps_ext _ _ _ _ (contents_steps (index_type (wh_index w)) (Some pre) (pending (wh_handle w1)) (visible (wh_handle w))))
      by (by apply contents_steps_ext).
    rewrite (contents_steps_ext _ _ _ _ _ Hm). cbn [app].
    assert (Forall (λ rc, Forall (λ c, c < length (rec rc)) cols) rs') as Hcols.
    { eapply Forall_impl; [exact Hrs'|]. by intros rc [? _]. }
    pose proof (record_ops_contents (index_type (wh_index w)) pre cols rs' (marked keys (visible (wh_handle w))) kk
      (ok_width _ _ _ Hw) Hcols) as Hrec.
    assert (∀ rc, rc ∈ rs → cols_at cols (rec rc) = rk_vec kk →
      filled w1 rc = match visible (wh_handle w) kk with Some _ => true | None => false end) as Hfill.
    { intros rc Hrc Hk. rewrite Forall_forall in Hrs. rewrite (filled_key cols pre w1 rc kk) by auto.
      unfold ReaderMapContents.visible. by rewrite He1. }
    unfold marked in Hrec at 1. destruct (visible (wh_handle w) kk) as [old|] eqn:Ev; [|destruct (covered keys kk) eqn:Ec].
    - rewrite Hrec. rewrite filter_none; [done|]. apply Forall_forall. intros rc [Hf Hrc]%list_elem_of_filter Hk.
      by rewrite Hfill in Hf.
    - eexists. split; [exact Hrec|]. unfold rs'. rewrite list_filter_filter.
      rewrite (filter_ext_elem _ (λ rc, cols_at cols (rec rc) = rk_vec kk)).
      2: { intros rc Hrc. split; [by intros [? _]|]. intros Hk. split; [done|]. by rewrite Hfill. }
      unfold rs. rewrite filter_positive.
      eapply apply_records_view; [|reflexivity]. eapply batch_ok_same; [|apply batch_ok_all].
      apply same_rows_perm. rewrite (Hview : rows ≡ₚ _). rewrite list_filter_filter.
      apply Permutation_refl'. apply filter_ext_elem. intros r Hr. split; [by intros [? _]|]. intros Hk. split; [done|].
      simpl. rewrite Hk. done.
    - apply Hrec. apply Forall_forall. intros rc [Hf Hrc]%list_elem_of_filter Hk.
      apply list_elem_of_fmap in Hrc as (r & -> & Hr). rewrite Hview in Hr.
      apply list_elem_of_filter in Hr as [Hr _]. simpl in Hk. rewrite Hk in Hr. unfold covered in Ec. congruence. }
  split; [by destruct Hw3; split|]. split.
  { destruct Hs1 as (?&?&?&?), Hs2 as (?&?&?&?), Hs3 as (?&?&?&?). split_and!; simpl; congruence. }
  split; [done|]. cbn [wh_handle]. split.
  - intros kk rows' Hk. specialize (Hall kk). cbn [wh_handle] in Hk. destruct (visible (wh_handle w) kk) as [old|] eqn:Ev.
    + assert (rows' = old) as -> by congruence. by apply Hc.
    + destruct (covered keys kk); [|congruence]. destruct Hall as (new & Hn & ?). congruence.
  - intros kk. specialize (Hall kk). destruct (visible (wh_handle w) kk) as [old|].
    + rewrite Hall. split; [done|]. by intros [? _].
    + destruct (covered keys kk); [|naive_solver]. destruct Hall as (new & -> & _). split; [done|by intros [_ ?]].
Qed.

(** *** Evictions *)
(** What [mark_hole] and [publish] require of a key. *)
Definition evictable (n : nat) (ty : IndexType) (key : KeyComparison V) : Prop :=
  key_sized n key ∧ match key with KEqual _ => True | KRange r => ty = IxBTreeMap ∧ range_valid r = true end.

Lemma reader_mark_hole_ok cols pre w w' key :
  reader_ok cols pre w → evictable (length cols) (index_type (wh_index w)) key → mark_hole w key = Ok w' →
  ∃ op, wh_handle w' = append (wh_handle w) op ∧ same_reader w w' ∧ fresh_op op ∧
    op_fits (index_type (wh_index w)) (Some pre) op ∧
    ∀ g kk, contents_step (index_type (wh_index w)) (Some pre) op g kk = if kc_contains key (rk_vec kk) then None else g kk.
Proof.
  intros Hw [[Hs He] Hv]. unfold Backlog.mark_hole.
  destruct (check_len w key); [|done..]. cbn [mbind result_bind].
  pose proof (ok_width _ _ _ Hw) as Hwd. destruct key as [k|r].
  - simpl in Hs. rewrite <-Hs in Hwd. destruct (rk_of_vec k Hwd) as (kk & Hvec & Hk & _).
    unfold entry_mark_hole. destruct (handle_get (wh_handle w) k); [|done..]. cbn [mbind result_bind].
    unfold mw_empty. rewrite Hk. intros [= <-]. exists (ORemoveEntry kk). split_and!; try done.
    intros g k2. cbn [contents_step kc_contains]. rewrite <-Hvec, rk_vec_cmp.
    destruct (decide (k2 = kk)) as [->|Hne]; [by rewrite cmp_refl|].
    destruct (cmp k2 kk) eqn:Ec; [|done|done]. by apply cmp_eq_iff in Ec.
  - destruct (range_mapM_sized (length cols) (bounds (KRange r)) Hwd Hs He) as (r' & _ & _ & Hp & Hin & Hrv).
    destruct (handle_get_multi (wh_handle w) [KRange r]); [|done..]. cbn [mbind result_bind].
    unfold mw_empty_range. assert (bounds (KRange r) = r) as Hb by (by destruct r). rewrite Hb in *.
    rewrite Hp. intros [= <-]. exists (ORemoveRange r'). split_and!; try done.
    { split; [apply Hv|]. rewrite Hrv. apply Hv. }
    intros g k2. cbn [contents_step]. by rewrite Hin, kc_contains_bounds, Hb.
Qed.

Lemma mark_hole_all cols pre keys w w' :
  reader_ok cols pre w → Forall (evictable (length cols) (index_type (wh_index w))) keys →
  result_foldl mark_hole w keys = Ok w' →
  ∃ ops, reader_ok cols pre w' ∧ same_reader w w' ∧ enter (wh_handle w') = enter (wh_handle w) ∧
    pending (wh_handle w') = pending (wh_handle w) ++ ops ∧
    ∀ g kk, contents_steps (index_type (wh_index w)) (Some pre) ops g kk = if covered keys kk then None else g kk.
Proof.
  intros Hw Hkeys. revert w Hw Hkeys. induction keys as [|key keys IH]; intros w Hw Hkeys.
  - intros [= <-]. exists []. rewrite app_nil_r. by split_and!.
  - apply Forall_cons in Hkeys as [Hkey Hkeys]. cbn [result_foldl].
    destruct (mark_hole w key) as [w1| |] eqn:Em; [|done..]. cbn [mbind result_bind]. intros Hfold.
    destruct (reader_mark_hole_ok cols pre w w1 key Hw Hkey Em) as (op & Hh & Hs1 & Hfr & Hfit & Hstep).
    destruct (reader_append cols pre w w1 [op]) as (Hw1 & He1 & Hp1); [done|done|done|by apply Forall_singleton..|].
    assert (wh_index w1 = wh_index w) as Hix by apply Hs1.
    destruct (IH w1 Hw1) as (ops & Hw' & Hs' & He' & Hp' & Hg); [by rewrite Hix|done|]. rewrite Hix in Hg.
    exists (op :: ops). split; [done|]. split.
    { destruct Hs1 as (?&?&?&?), Hs' as (?&?&?&?). split_and!; congruence. }
    split; [congruence|]. split; [by rewrite Hp', Hp1, <-app_assoc|].
    intros g kk. rewrite contents_steps_cons, Hg, Hstep. unfold covered. cbn [existsb].
    by destruct (kc_contains key (rk_vec kk)), (existsb _ keys).
Qed.

Lemma reader_evict_ok cols pre w w' R keys :
  reader_ok cols pre w → pending (wh_handle w) = [] → cached cols w R →
  Forall (evictable (length cols) (index_type (wh_index w))) keys → reader_evict w keys = Ok w' →
  reader_ok cols pre w' ∧ same_reader w w' ∧ pending (wh_handle w') = [] ∧ cached cols w' R ∧
  ∀ kk, visible (wh_handle w') kk = if covered keys kk then None else visible (wh_handle w) kk.
Proof.
  intros Hw Hp Hc Hkeys. unfold Reader.reader_evict.
  destruct (result_foldl mark_hole w keys) as [w1| |] eqn:Em; [|done..]. cbn [mbind result_bind].
  destruct (mark_hole_all cols pre keys w w1 Hw Hkeys Em) as (ops & Hw1 & Hs1 & He1 & Hp1 & Hg1).
  destruct (reader_swap cols pre w1 Hw1) as (w2 & Hswap & Hw2 & Hs2 & Hp2 & Hg). rewrite Hswap. cbn [mbind result_bind].
  unfold notify_readers_of_eviction, notify_readers. cbn [wh_receivers]. destruct (wh_receivers w2 =? 0); [done|].
  intros [= <-].
  assert (∀ kk, visible (wh_handle w2) kk = if covered keys kk then None else visible (wh_handle w) kk) as Hv.
  { intros kk. rewrite Hg, Hp1, Hp. cbn [app]. destruct Hs1 as (_ & -> & _). rewrite Hg1.
    unfold ReaderMapContents.visible. by rewrite He1. }
  split; [by destruct Hw2; split|]. split.
  { destruct Hs1 as (?&?&?&?), Hs2 as (?&?&?&?). split_and!; simpl; congruence. }
  split; [done|]. split; [|done]. intros kk rows. cbn [wh_handle]. rewrite Hv. destruct (covered keys kk); [done|].
  apply Hc.
Qed.
End reader_state.
