(* ===== verification/ReaderLookup.v ===== *)
(** * ReaderLookup: what lookups of a partial reader return

    A lookup of some keys either returns the rows of the view that the keys ask
    for, or tells which of the asked keys are holes ([get_multi_ok]). *)
From S2P Require Import Prelude Intervals BTreeMap IntervalTree PartialMap Result Records Keys Crates Processing Batches.
From S2P Require Import KeyedState OpTopK InsertionOrder Eviction Timestamp Effects Payload.
From S2P Require Import ReaderMap ReaderMapProps ReaderMapContents Backlog Reader ReaderProps.

(** ** Rows grouped by key *)
Section groups.
Context {A K : Type} `{EqDecision K}.
Implicit Types (f : A → K) (l : list A) (ks : list K).

Lemma filter_split (P Q : A → Prop) `{∀ x, Decision (P x), ∀ x, Decision (Q x)} (S : A → Prop) `{∀ x, Decision (S x)} l :
  (∀ x, S x ↔ P x ∨ Q x) → (∀ x, P x → ¬ Q x) → filter S l ≡ₚ filter P l ++ filter Q l.
Proof.
  intros HS Hd. induction l as [|x l IH]; [done|]. rewrite !filter_cons.
  specialize (HS x). specialize (Hd x). destruct (decide (P x)) as [Hp|Hp].
  - rewrite decide_True, (decide_False (P:=Q x)) by tauto. simpl. by rewrite IH.
  - destruct (decide (Q x)) as [Hq|Hq].
    + rewrite decide_True, IH by tauto. by rewrite Permutation_middle.
    + by rewrite decide_False by tauto.
Qed.

Lemma groups_perm f l ks :
  NoDup ks → concat ((λ k, filter (λ x, f x = k) l) <$> ks) ≡ₚ filter (λ x, f x ∈ ks) l.
Proof.
  induction 1 as [|k ks Hk _ IH].
  - simpl. rewrite filter_none; [done|]. apply Forall_true. intros x Hx. inversion Hx.
  - simpl. rewrite IH. symmetry. apply filter_split.
    + intros x. apply elem_of_cons.
    + intros x <-. done.
Qed.

Lemma concat_perm {B} (L1 L2 : list (list B)) : Forall2 Permutation L1 L2 → concat L1 ≡ₚ concat L2.
Proof. induction 1 as [|a b L1 L2 Hab _ IH]; [done|]. simpl. by rewrite Hab, IH. Qed.
End groups.

Lemma bm_wf_NoDup `{Ord K} {A} (m : list (K * A)) : bm_wf m → NoDup m.*1.
Proof.
  unfold bm_wf, bm_keys. induction 1 as [|k ks Hs IH Hall]; constructor; [|done].
  intros Hin. rewrite Forall_forall in Hall. specialize (Hall k Hin). ord_lia.
Qed.

Section reader_lookup.
Context `{DfVal V} `{Ord K} `{!ReaderKey V K} `{!ReaderKeyLaws V K} {HM W : Type} `{!HashMap K (list (list V)) HM}.
#[local] Abbreviation RInner := (Inner K (list V) HM Z Timestamp PreInsertion).
#[local] Abbreviation ROp := (Operation K (list V) Z Timestamp).
Context `{!LeftRight RInner ROp W}.
Implicit Types (kk : K) (k r : list V) (rs : list (Record V)) (R rows : list (list V)) (w : WriteHandle W) (h : W).
#[local] Abbreviation enter := (lr_enter (T:=RInner) (Op:=ROp)).
#[local] Abbreviation pending := (lr_pending (T:=RInner) (Op:=ROp)).
#[local] Abbreviation append := (lr_append (T:=RInner) (Op:=ROp)).
#[local] Abbreviation visible := (visible (K:=K) (A:=list V) (HM:=HM) (M:=Z) (T:=Timestamp) (I:=PreInsertion)).
#[local] Abbreviation visible_type := (visible_type (K:=K) (A:=list V) (HM:=HM) (M:=Z) (T:=Timestamp) (I:=PreInsertion)).
#[local] Abbreviation visible_order := (visible_order (K:=K) (A:=list V) (HM:=HM) (M:=Z) (T:=Timestamp) (I:=PreInsertion)).
#[local] Abbreviation handle_wf := (handle_wf (K:=K) (A:=list V) (HM:=HM) (M:=Z) (T:=Timestamp) (I:=PreInsertion)).
#[local] Abbreviation record_ops := (record_ops (V:=V) (K:=K)).
#[local] Abbreviation rk_row := (rk_row (V:=V) (K:=K)).
#[local] Abbreviation rk_width := (rk_width (V:=V) (K:=K)).
#[local] Abbreviation contains_record := (contains_record (K:=K) (HM:=HM)).
#[local] Abbreviation swap := (swap (K:=K) (HM:=HM)).
#[local] Abbreviation keep_update := (keep_update (K:=K) (HM:=HM)).
#[local] Abbreviation keep_replay := (keep_replay (K:=K) (HM:=HM)).

#[local] Abbreviation reader_ok := (reader_ok (K:=K) (HM:=HM)).
#[local] Abbreviation cached := (cached (K:=K) (HM:=HM)).
#[local] Abbreviation covered := (covered (K:=K)).
#[local] Abbreviation lookup_one := (lookup_one (K:=K) (HM:=HM)).
#[local] Abbreviation lookup_keys := (lookup_keys (K:=K) (HM:=HM)).
#[local] Abbreviation handle_get_multi := (handle_get_multi (K:=K) (HM:=HM)).

(** The keys a comparison asks for: NULL is not equal to anything. *)
Definition asks (key : KeyComparison V) k : bool :=
  match key with KEqual _ => negb (has_null k) && kc_contains key k | KRange _ => kc_contains key k end.
Definition answer (cols : list nat) R (key : KeyComparison V) : list (list V) :=
  filter (λ r, asks key (cols_at cols r) = true) R.
(** The keys that are not equal to an earlier one. *)
Fixpoint distinct (prev keys : list (KeyComparison V)) : list (KeyComparison V) :=
  match keys with
  | [] => []
  | key :: keys' => if existsb (kc_eq key) prev then distinct prev keys' else key :: distinct (key :: prev) keys'
  end.
(** The keys that a lookup accepts: ranges only of an ordered index, and not both
    exclusive at the same key. *)
Definition askable (n : nat) (ty : IndexType) (key : KeyComparison V) : Prop :=
  key_sized n key ∧
  match key with
  | KEqual _ => True
  | KRange r => is_reversed_range key = true ∨ (ty = IxBTreeMap ∧ range_valid r = true)
  end.

Lemma row_key cols pre w r :
  reader_ok cols pre w → row_ok cols pre r → ∃ kk : K, rk_vec kk = cols_at cols r.
Proof.
  intros Hw [Hr _]. destruct (rk_of_row cols r (ok_width _ _ _ Hw) Hr) as (kk & _ & Hv). by exists kk.
Qed.

(** The entries of an ordered map in a range hold the rows of the view in that range. *)
Lemma entries_perm cols pre w R (l : list (K * list (list V))) (P : list V → bool) :
  reader_ok cols pre w → Forall (row_ok cols pre) R → bm_wf l →
  (∀ kk rows, bm_get l kk = Some rows → P (rk_vec kk) = true ∧ rows ≡ₚ filter (λ r, cols_at cols r = rk_vec kk) R) →
  (∀ kk r, r ∈ R → cols_at cols r = rk_vec kk → P (rk_vec kk) = true → is_Some (bm_get l kk)) →
  concat l.*2 ≡ₚ filter (λ r, P (cols_at cols r) = true) R.
Proof.
  intros Hw HR Hwf Hin Hall.
  transitivity (concat ((λ k, filter (λ r, cols_at cols r = k) R) <$> (rk_vec <$> l.*1))).
  { apply concat_perm. rewrite <-!list_fmap_compose. apply Forall2_fmap, Forall2_same_length_lookup.
    split; [done|]. intros i x y Hx Hy. assert (x = y) as <- by congruence. simpl.
    destruct x as [kk rows]. apply (Hin kk rows). apply bm_get_elem; [done|]. by eapply list_elem_of_lookup_2. }
  rewrite groups_perm.
  - apply Permutation_refl'. apply filter_ext_elem. intros r Hr. rewrite Forall_forall in HR.
    destruct (row_key cols pre w r Hw (HR _ Hr)) as (kk & Hkk). rewrite <-Hkk.
    rewrite list_elem_of_fmap. split.
    + intros (k2 & Heq & ((k3 & rows) & -> & Hl)%list_elem_of_fmap).
      apply (rk_vec_inj (V:=V)) in Heq as ->. apply (Hin _ rows). by apply bm_get_elem.
    + intros HP. destruct (Hall kk r Hr) as [rows Hrows]; [done|done|]. exists kk. split; [done|].
      apply list_elem_of_fmap. exists (kk, rows). split; [done|]. by apply bm_get_elem.
  - apply NoDup_fmap_2; [intros a b; apply rk_vec_inj|]. by apply bm_wf_NoDup.
Qed.

(** The keys that a range is missing. *)
Lemma covered_ranges (D : list (BoundPair K)) kk :
  covered ((λ b, KRange (Bound_map rk_vec b.1, Bound_map rk_vec b.2)) <$> D) kk = existsb (λ b, in_range b kk) D.
Proof.
  unfold ReaderProps.covered. induction D as [|[lo hi] D IH]; [done|]. cbn [fmap list_fmap existsb]. f_equal; [|done].
  rewrite kc_contains_bounds. unfold in_range, bounds. simpl.
  destruct lo, hi; simpl; by rewrite ?rk_vec_cmp.
Qed.

(** What the lookup of one key has to return. *)
Definition lookup_result cols w R (key : KeyComparison V) (res : list (list (list V)) + list (KeyComparison V)) : Prop :=
  match res with
  | inl hs => concat hs ≡ₚ answer cols R key ∧ ∀ kk, asks key (rk_vec kk) = true → visible (wh_handle w) kk ≠ None
  | inr ms => ms ≠ [] ∧ ∀ kk, covered ms kk = true ↔ asks key (rk_vec kk) = true ∧ visible (wh_handle w) kk = None
  end.

Lemma lookup_equal_ok cols pre w R k :
  reader_ok cols pre w → cached cols w R → length k = length cols →
  ∃ res, lookup_one (enter (wh_handle w)) (KEqual k) = Ok res ∧ lookup_result cols w R (KEqual k) res.
Proof.
  intros Hw Hc Hk. pose proof (ok_width _ _ _ Hw) as Hwd. rewrite <-Hk in Hwd.
  destruct (rk_of_vec k Hwd) as (kk & Hvec & _ & Hf & _). unfold Backlog.lookup_one.
  assert (∀ k', asks (KEqual k) k' = true ↔ has_null k = false ∧ k' = k) as Hasks.
  { intros k'. unfold asks. cbn [kc_contains]. rewrite andb_true_iff, negb_true_iff.
    split; [intros [Hn He]|intros [Hn ->]; by rewrite cmp_refl].
    destruct (cmp k' k) eqn:Ec; [|done|done]. apply cmp_eq_iff in Ec as ->. done. }
  assert (answer cols R (KEqual k) = if has_null k then [] else filter (λ r, cols_at cols r = k) R) as Hans.
  { unfold answer. destruct (has_null k) eqn:En.
    - apply filter_none, Forall_true. intros r Hr. by apply Hasks in Hr as [? _].
    - apply filter_ext_elem. intros r _. rewrite Hasks. naive_solver. }
  destruct (has_null k) eqn:En.
  { exists (inl [[]]). split; [done|]. split; [by rewrite Hans|]. intros k' Hk'. by apply Hasks in Hk' as [? _]. }
  rewrite Hf. cbn [mbind result_bind]. unfold lookup_result, ReaderMapContents.visible.
  destruct (data_get (in_data (enter (wh_handle w))) kk) as [rows|] eqn:Eg.
  - exists (inl [rows]). split; [done|]. cbn [concat]. rewrite app_nil_r, Hans. split.
    + rewrite <-Hvec. by apply Hc.
    + intros k' [_ Hk']%Hasks. assert (k' = kk) as -> by (apply (rk_vec_inj (V:=V)); congruence). by rewrite Eg.
  - exists (inr [KEqual k]). split; [done|]. split; [done|]. intros k'. unfold ReaderProps.covered. cbn [existsb kc_contains].
    rewrite orb_false_r, Hasks. split.
    + intros He. assert (rk_vec k' = k) as Hk'.
      { destruct (cmp (rk_vec k') k) eqn:Ec; [|done|done]. by apply cmp_eq_iff. }
      assert (k' = kk) as -> by (apply (rk_vec_inj (V:=V)); congruence). done.
    + intros [[_ ->] _]. by rewrite cmp_refl.
Qed.

Lemma reader_lookup_range_ok cols pre w R (r0 : BoundPair (list V)) :
  reader_ok cols pre w → cached cols w R → Forall (row_ok cols pre) R →
  askable (length cols) (index_type (wh_index w)) (KRange r0) →
  ∃ res, lookup_one (enter (wh_handle w)) (KRange r0) = Ok res ∧ lookup_result cols w R (KRange r0) res.
Proof.
  intros Hw Hc HR [[Hs He] Hv]. unfold Backlog.lookup_one. destruct r0 as [lo hi].
  destruct (is_reversed_range (KRange (lo, hi))) eqn:Er.
  { assert (∀ k, kc_contains (KRange (lo, hi)) k = false) as Hno.
    { intros k. rewrite kc_contains_bounds. by apply start_end_gt_disjoint. }
    exists (inl [[]]). split; [done|]. unfold lookup_result, answer, asks. split.
    - rewrite filter_none; [done|]. apply Forall_true. intros r. by rewrite Hno.
    - intros kk. by rewrite Hno. }
  destruct Hv as [?|[Hty Hv]]; [done|].
  destruct (range_mapM_sized (length cols) (lo, hi) (ok_width _ _ _ Hw) Hs He) as (r' & Hf & _ & _ & Hin & Hrv).
  rewrite Hf. cbn [mbind result_bind]. rewrite Hv in Hrv.
  assert (∀ kk, asks (KRange (lo, hi)) (rk_vec kk) = in_range r' kk) as Hasks.
  { intros kk. unfold asks. by rewrite Hin, kc_contains_bounds. }
  pose proof (ok_type _ _ _ Hw) as Hvt. rewrite Hty in Hvt. unfold ReaderMapContents.visible_type in Hvt.
  destruct (ok_handle _ _ _ Hw) as (_ & (Hd & _) & _). unfold lookup_result, ReaderMapContents.visible.
  destruct (in_data (enter (wh_handle w))) as [m|m] eqn:Ed; [|done]. destruct Hd as [Hpm Hpe]. cbn [data_range data_get].
  destruct (pm_range_correct m r' Hpm Hrv) as [(l & -> & Hl & Hget)|(D & -> & HD & Hmiss)].
  - exists (inl l.*2). split; [done|]. split.
    + apply (entries_perm cols pre w); try done.
      * intros kk rows Hk. destruct (Hget kk) as [Hg1 Hg2]. rewrite Hasks. destruct (in_range r' kk) eqn:Ein; [|congruence].
        split; [done|]. apply Hc. unfold ReaderMapContents.visible. rewrite Ed. cbn [data_get]. by rewrite Hg2, Hk.
      * intros kk r Hr Hkr HP. rewrite Hasks in HP. destruct (Hget kk) as [_ Hg2]. specialize (Hg2 HP).
        destruct (bm_get l kk) as [rows|]; [done|]. exfalso. simpl in Hg2. rewrite Hpe in Hg2.
        assert ([] ≡ₚ filter (λ r, cols_at cols r = rk_vec kk) R) as Hemp.
        { apply Hc. unfold ReaderMapContents.visible. by rewrite Ed. }
        apply Permutation_nil_l in Hemp. assert (r ∈ @nil (list V)) as Hbad; [|inversion Hbad].
        rewrite Hemp. by apply list_elem_of_filter.
    + intros kk. rewrite Hasks. intros Hkk. destruct (Hget kk) as [_ ->]; done.
  - exists (inr ((λ b, KRange (Bound_map rk_vec b.1, Bound_map rk_vec b.2)) <$> D)). split; [done|].
    split; [by destruct D|]. intros kk. by rewrite covered_ranges, Hmiss, Hasks.
Qed.

Lemma lookup_one_ok cols pre w R key :
  reader_ok cols pre w → cached cols w R → Forall (row_ok cols pre) R →
  askable (length cols) (index_type (wh_index w)) key →
  ∃ res, lookup_one (enter (wh_handle w)) key = Ok res ∧ lookup_result cols w R key res.
Proof.
  intros Hw Hc HR Hk. destruct key as [k|r]; [|by eapply reader_lookup_range_ok].
  eapply lookup_equal_ok; [done|done|]. by destruct Hk as [[? _] _].
Qed.

(** *** Several keys *)
Definition asked (keys : list (KeyComparison V)) kk : bool := existsb (λ key, asks key (rk_vec kk)) keys.

Lemma covered_app ms1 ms2 kk : covered (ms1 ++ ms2) kk = covered ms1 kk || covered ms2 kk.
Proof. apply existsb_app. Qed.

Lemma lookup_keys_ok cols pre w R keys :
  reader_ok cols pre w → cached cols w R → Forall (row_ok cols pre) R →
  Forall (askable (length cols) (index_type (wh_index w))) keys →
  ∀ prev hits misses, ∃ hs ms,
    lookup_keys (enter (wh_handle w)) prev keys hits misses = Ok (hits ++ hs, misses ++ ms) ∧
    (∀ kk, covered ms kk = true ↔ asked (distinct prev keys) kk = true ∧ visible (wh_handle w) kk = None) ∧
    (ms = [] → concat hs ≡ₚ concat (answer cols R <$> distinct prev keys)).
Proof.
  intros Hw Hc HR Hkeys. induction Hkeys as [|key keys Hkey Hkeys IH]; intros prev hits misses.
  { exists [], []. rewrite !app_nil_r. split_and!; [done| |done]. intros kk. split; [done|by intros [? _]]. }
  cbn [Backlog.lookup_keys distinct]. destruct (existsb (kc_eq key) prev); [apply IH|].
  destruct (lookup_one_ok cols pre w R key Hw Hc HR Hkey) as (res & Hres & Hspec). rewrite Hres. cbn [mbind result_bind].
  destruct res as [hs0|ms0]; unfold lookup_result in Hspec; destruct Hspec as [Hs1 Hs2].
  - destruct (IH (key :: prev) (hits ++ hs0) misses) as (hs & ms & Heq & Hcov & Hhit).
    exists (hs0 ++ hs), ms. rewrite Heq, app_assoc. split; [done|]. split.
    + intros kk. unfold asked. cbn [existsb]. rewrite Hcov, orb_true_iff. unfold asked. specialize (Hs2 kk). naive_solver.
    + intros Hms. cbn [fmap list_fmap concat]. by rewrite concat_app, Hs1, Hhit.
  - destruct (IH (key :: prev) hits (misses ++ ms0)) as (hs & ms & Heq & Hcov & _).
    exists hs, (ms0 ++ ms). rewrite Heq, app_assoc. split; [done|]. split.
    + intros kk. unfold asked. cbn [existsb]. rewrite covered_app, !orb_true_iff, Hcov, Hs2. unfold asked. tauto.
    + intros Hms. apply app_eq_nil in Hms as [? _]. done.
Qed.

(** What a lookup returns: the rows that the keys ask for, or the asked keys that
    are holes. *)
Definition multi_result cols w R (keys : list (KeyComparison V))
    (res : list (list (list V)) + LookupError V) : Prop :=
  match res with
  | inl hits => concat hits ≡ₚ concat (answer cols R <$> distinct [] keys) ∧
      ∀ kk, asked (distinct [] keys) kk = true → visible (wh_handle w) kk ≠ None
  | inr (LMiss ms) => ms ≠ [] ∧
      ∀ kk, covered ms kk = true ↔ asked (distinct [] keys) kk = true ∧ visible (wh_handle w) kk = None
  | inr _ => False
  end.

Lemma get_multi_ok cols pre w R keys :
  reader_ok cols pre w → cached cols w R → Forall (row_ok cols pre) R →
  Forall (askable (length cols) (index_type (wh_index w))) keys →
  ∃ res, handle_get_multi (wh_handle w) keys = Ok res ∧ multi_result cols w R keys res.
Proof.
  intros Hw Hc HR Hkeys. destruct (lookup_keys_ok cols pre w R keys Hw Hc HR Hkeys [] [] []) as (hs & ms & Heq & Hcov & Hhit).
  unfold Backlog.handle_get_multi, ReaderMap.enter. rewrite (ok_ready _ _ _ Hw), Heq. cbn [mbind result_bind app].
  destruct ms as [|m ms].
  - exists (inl hs). split; [done|]. split; [by apply Hhit|]. intros kk Ha Hn.
    assert (covered [] kk = true) by (by apply Hcov). done.
  - exists (inr (LMiss (m :: ms))). split; [done|]. done.
Qed.

(** *** Evictions of some bytes *)
Context (row_size : list V → Z) (key_size : list V → Z) (base_value_size : Z).

Lemma reader_evict_bytes_ok cols pre w w' R gen_bool s s' ctrs nkeys freed :
  reader_ok cols pre w → pending (wh_handle w) = [] → cached cols w R →
  (∀ h1, publish (K:=K) (A:=list V) (HM:=HM) (M:=Z) (T:=Timestamp) (I:=PreInsertion) (wh_handle w) = Ok h1 →
     length ctrs = length (data_iter (in_data (enter h1)))) →
  reader_evict_bytes (K:=K) (HM:=HM) row_size key_size base_value_size gen_bool w s ctrs nkeys = Ok (w', s', freed) →
  reader_ok cols pre w' ∧ same_reader w w' ∧ pending (wh_handle w') = [] ∧ cached cols w' R ∧
  ∀ kk, visible (wh_handle w') kk = None ∨ visible (wh_handle w') kk = visible (wh_handle w) kk.
Proof.
  intros Hw Hp Hc Hctrs. unfold reader_evict_bytes, evict_bytes.
  assert (∀ w1, reader_ok cols pre w1 → same_reader w w1 →
    (∀ kk, contents_steps (index_type (wh_index w)) (Some pre) (pending (wh_handle w1)) (visible (wh_handle w1)) kk = None ∨
           contents_steps (index_type (wh_index w)) (Some pre) (pending (wh_handle w1)) (visible (wh_handle w1)) kk
           = visible (wh_handle w) kk) →
    ∀ s1 freed1, (w2 ← swap w1; w2 ← notify_readers_of_eviction w2; Ok (w2, s1, freed1)) = Ok (w', s', freed) →
    reader_ok cols pre w' ∧ same_reader w w' ∧ pending (wh_handle w') = [] ∧ cached cols w' R ∧
    ∀ kk, visible (wh_handle w') kk = None ∨ visible (wh_handle w') kk = visible (wh_handle w) kk) as Hend.
  { intros w1 Hw1 Hs1 Hg1 s1 freed1. destruct (reader_swap cols pre w1 Hw1) as (w2 & -> & Hw2 & Hs2 & Hp2 & Hg2).
    cbn [mbind result_bind]. unfold notify_readers_of_eviction, notify_readers. cbn [wh_receivers].
    destruct (wh_receivers w2 =? 0); [done|]. cbn [mbind result_bind]. intros [= <- _ _].
    assert (∀ kk, visible (wh_handle w2) kk = None ∨ visible (wh_handle w2) kk = visible (wh_handle w) kk) as Hv.
    { intros kk. rewrite Hg2. destruct Hs1 as (_ & -> & _). apply Hg1. }
    split; [by destruct Hw2; split|]. split.
    { destruct Hs1 as (?&?&?&?), Hs2 as (?&?&?&?). split_and!; simpl; congruence. }
    split; [done|]. split; [|done]. intros kk rows. cbn [wh_handle].
    destruct (Hv kk) as [->| ->]; [done|]. apply Hc. }
  destruct (0 <? wh_mem_size w)%Z.
  2: { cbn [mbind result_bind]. apply Hend; [done|by split_and!|]. intros kk. right. by rewrite Hp. }
  destruct (handle_publish (wh_handle w) (ok_handle _ _ _ Hw)) as (h1 & Hh1 & Hwf1 & Hp1 & Hty1 & Ho1 & Hr1 & Hg1).
  match goal with |- context [evict_keys gen_bool _ s ctrs nkeys ?mc] =>
    pose proof (evict_keys_ops gen_bool (wh_handle w) h1 s ctrs nkeys mc (ok_handle _ _ _ Hw) Hh1 (Hctrs h1 Hh1)) as Hops end.
  destruct (picks _ _ _ _ _).
  2: { destruct (evict_keys _ _ _ _ _ _); [done|done..]. }
  destruct Hops as (ops & s1 & freed1 & -> & Hrem & Hfr & Hfit). cbn [mbind result_bind].
  destruct (handle_appends ops h1 Hwf1 Hfr Hfit) as (Hwf2 & He2 & Hp2).
  apply Hend; cbn [wh_handle with_handle with_mem_size].
  - destruct Hw. split; cbn [wh_handle wh_partial wh_index wh_contiguous with_handle with_mem_size];
      unfold ReaderMapContents.visible_type, ReaderMapContents.visible_order in *; rewrite ?He2; try done; try congruence.
    apply Hr1. by left.
  - by split_and!.
  - intros kk. rewrite Hp2, Hp1. cbn [app].
    assert (visible h1 kk = visible (wh_handle w) kk) as <- by (by rewrite Hg1, Hp).
    assert (visible (foldl append h1 ops) = visible h1) as -> by (unfold ReaderMapContents.visible; by rewrite He2).
    by apply removals_only_holes.
Qed.
End reader_lookup.
