(* ===== verification/ReaderTheorems.v ===== *)
(** * ReaderTheorems: a partial reader serves its view

    The steps a partial reader takes (updates, replays, evictions) as a relation on
    the reader and the view it caches, and what holds in every reachable state: a
    lookup returns exactly the rows of the view that were asked for, or the holes
    among the asked keys ([reader_serves_view]); after the replay of the missed keys
    the same lookup hits ([reader_upquery_completes]). *)
From S2P Require Import Prelude Intervals BTreeMap IntervalTree PartialMap Result Records Keys Crates Processing Batches.
From S2P Require Import KeyedState OpTopK InsertionOrder Eviction Timestamp Effects Payload.
From S2P Require Import ReaderMap ReaderMapProps ReaderMapContents Backlog Reader ReaderProps ReaderLookup.

Section reader_theorems.
Context `{DfVal V} `{Ord K} `{!ReaderKey V K} `{!ReaderKeyLaws V K} {HM W : Type} `{!HashMap K (list (list V)) HM}.
#[local] Abbreviation RInner := (Inner K (list V) HM Z Timestamp PreInsertion).
#[local] Abbreviation ROp := (Operation K (list V) Z Timestamp).
Context `{!LeftRight RInner ROp W}.
Context (row_size : list V → Z) (key_size : list V → Z) (base_value_size : Z).
Implicit Types (kk : K) (k r : list V) (rs : list (Record V)) (R rows : list (list V)) (w : WriteHandle W) (h : W).
#[local] Abbreviation enter := (lr_enter (T:=RInner) (Op:=ROp)).
#[local] Abbreviation pending := (lr_pending (T:=RInner) (Op:=ROp)).
#[local] Abbreviation append := (lr_append (T:=RInner) (Op:=ROp)).
#[local] Abbreviation visible := (visible (K:=K) (A:=list V) (HM:=HM) (M:=Z) (T:=Timestamp) (I:=PreInsertion)).
#[local] Abbreviation visible_type := (visible_type (K:=K) (A:=list V) (HM:=HM) (M:=Z) (T:=Timestamp) (I:=PreInsertion)).
#[local] Abbreviation visible_order := (visible_order (K:=K) (A:=list V) (HM:=HM) (M:=Z) (T:=Timestamp) (I:=PreInsertion)).
#[local] Abbreviation handle_wf := (handle_wf (K:=K) (A:=list V) (HM:=HM) (M:=Z) (T:=Timestamp) (I:=PreInsertion)).
#[local] Abbreviation record_ops := (record_ops (V:=V) (K:=K)).
#[local] Abbreviation rk_row := (rk_row (V:=V) (K:=K)).
#[local] Abbreviation rk_width := (rk_width (V:=V) (K:=K)).
#[local] Abbreviation mw_add := (mw_add (K:=K) (HM:=HM) row_size).
#[local] Abbreviation contains_record := (contains_record (K:=K) (HM:=HM)).
#[local] Abbreviation add := (add (K:=K) (HM:=HM) row_size).
#[local] Abbreviation swap := (swap (K:=K) (HM:=HM)).
#[local] Abbreviation mark_filled := (mark_filled (K:=K) (HM:=HM) key_size base_value_size).
#[local] Abbreviation mark_hole := (mark_hole (K:=K) (HM:=HM) row_size key_size base_value_size).
#[local] Abbreviation keep_update := (keep_update (K:=K) (HM:=HM)).
#[local] Abbreviation keep_replay := (keep_replay (K:=K) (HM:=HM)).
#[local] Abbreviation reader_process := (reader_process (K:=K) (HM:=HM) row_size).
#[local] Abbreviation reader_fill := (reader_fill (K:=K) (HM:=HM) row_size key_size base_value_size).
#[local] Abbreviation reader_evict := (reader_evict (K:=K) (HM:=HM) row_size key_size base_value_size).

#[local] Abbreviation reader_ok := (reader_ok (K:=K) (HM:=HM)).
#[local] Abbreviation cached := (cached (K:=K) (HM:=HM)).
#[local] Abbreviation covered := (covered (K:=K)).
#[local] Abbreviation lookup_one := (lookup_one (K:=K) (HM:=HM)).
#[local] Abbreviation lookup_keys := (lookup_keys (K:=K) (HM:=HM)).
#[local] Abbreviation handle_get_multi := (handle_get_multi (K:=K) (HM:=HM)).

#[local] Abbreviation new_inner := (new_inner (K:=K) (HM:=HM)).
#[local] Abbreviation multi_result := (multi_result (K:=K) (HM:=HM)).
#[local] Abbreviation publish := (publish (K:=K) (A:=list V) (HM:=HM) (M:=Z) (T:=Timestamp) (I:=PreInsertion)).
#[local] Abbreviation read_get_multi := (read_get_multi (K:=K) (HM:=HM)).

(** The steps of a reader, with the view before and after: an update brings a batch
    of records of the view; a replay brings the rows of the view under its keys; an
    eviction names keys, or some bytes. *)
Inductive reader_step (cols : list nat) (pre : PreInsertion) : WriteHandle W * list (list V) → WriteHandle W * list (list V) → Prop :=
  | step_update w w' R R' link rs tr p' :
      batch_ok R rs R' → Forall (λ rc, row_ok cols pre (rec rc)) rs → Forall (row_ok cols pre) R' →
      reader_process w (PMessage link rs tr) true = Ok (w', p') →
      reader_step cols pre (w, R) (w', R')
  | step_fill w w' R keys link tag rows ctx :
      Forall (key_sized (length cols)) keys →
      rows ≡ₚ filter (λ r, existsb (λ key, kc_contains key (cols_at cols r)) keys = true) R →
      reader_fill w keys (PReplayPiece link tag (Positive <$> rows) ctx) = Ok w' →
      reader_step cols pre (w, R) (w', R)
  | step_evict w w' R keys :
      Forall (evictable (length cols) (index_type (wh_index w))) keys →
      reader_evict w keys = Ok w' →
      reader_step cols pre (w, R) (w', R)
  | step_evict_bytes w w' R gen_bool s s' ctrs nkeys freed :
      (∀ h1, publish (wh_handle w) = Ok h1 → length ctrs = length (data_iter (in_data (enter h1)))) →
      reader_evict_bytes (K:=K) (HM:=HM) row_size key_size base_value_size gen_bool w s ctrs nkeys = Ok (w', s', freed) →
      reader_step cols pre (w, R) (w', R).

(** The invariant of the reachable states. *)
Definition reader_inv (cols : list nat) (pre : PreInsertion) (st : WriteHandle W * list (list V)) : Prop :=
  reader_ok cols pre st.1 ∧ pending (wh_handle st.1) = [] ∧ cached cols st.1 st.2 ∧ Forall (row_ok cols pre) st.2.

Lemma reader_step_inv cols pre st st' : reader_step cols pre st st' → reader_inv cols pre st → reader_inv cols pre st'
  ∧ same_reader st.1 st'.1.
Proof.
  intros Hstep (Hw & Hp & Hc & HR). unfold reader_inv.
  destruct Hstep as [w w' R R' link rs tr p' Hb Hrs HR' Heq|w w' R keys link tag rows ctx Hk Hrows Heq
    |w w' R keys Hk Heq|w w' R gen_bool s s' ctrs nkeys freed Hctrs Heq]; cbn [fst snd] in *.
  - destruct (reader_update_ok row_size cols pre w R R' link rs tr Hw Hp Hc Hb Hrs) as (w1 & Heq1 & ? & ? & ? & ? & _).
    rewrite Heq in Heq1. injection Heq1 as <- _. done.
  - destruct (reader_fill_ok row_size key_size base_value_size cols pre w w' R keys link tag rows ctx) as (? & ? & ? & ? & _); try done.
    rewrite Hrows. by apply Forall_filter_keep.
  - destruct (reader_evict_ok row_size key_size base_value_size cols pre w w' R keys) as (? & ? & ? & ? & _); done.
  - destruct (reader_evict_bytes_ok row_size key_size base_value_size cols pre w w' R gen_bool s s' ctrs nkeys freed)
      as (? & ? & ? & ? & _); done.
Qed.

Lemma reader_steps_inv cols pre st st' :
  rtc (reader_step cols pre) st st' → reader_inv cols pre st → reader_inv cols pre st' ∧ same_reader st.1 st'.1.
Proof.
  induction 1 as [st|st st1 st' Hstep _ IH]; intros Hinv; [by split|].
  destruct (reader_step_inv _ _ _ _ Hstep Hinv) as [Hinv1 Hs1]. destruct (IH Hinv1) as [Hinv2 Hs2]. split; [done|].
  destruct Hs1 as (?&?&?&?), Hs2 as (?&?&?&?). split_and!; congruence.
Qed.

(** A new partial reader is ready once it is published, and has only holes. *)
Lemma reader_new_inv index n pre receivers w0 w R :
  rk_width (length (columns index)) → new_inner index n true pre receivers = Ok w0 → swap w0 = Ok w →
  Forall (row_ok (columns index) pre) R →
  reader_inv (columns index) pre (w, R) ∧ wh_index w = index ∧ wh_receivers w = receivers.
Proof.
  intros Hwd Hnew. unfold Backlog.new_inner in Hnew. destruct (columns index) as [|c cs] eqn:Ecols; [done|].
  injection Hnew as <-. unfold Backlog.swap, ReaderMap.publish. cbn [wh_handle].
  unfold ReaderMap.construct. set (t0 := inner_new _ _ _ _).
  destruct (lr_new_spec (T:=RInner) (Op:=ROp) t0) as (Hwf & Hen & Hpe).
  destruct (data_new_wf (K:=K) (A:=list V) (HM:=HM) (index_type index)) as (Hd1 & Hd2 & Hd3).
  set (h0 := lr_new t0) in *.
  assert (handle_wf h0) as Hh0.
  { split; [done|]. rewrite Hpe. split; [|constructor]. rewrite Hen. split; [done|]. intros k vs. simpl. by rewrite Hd3. }
  destruct (handle_append h0 OMarkReady Hh0 Logic.I Logic.I) as (Hh1 & He1 & Hp1).
  destruct (handle_publish _ Hh1) as (h2 & Hh2 & Hwf2 & Hp2 & Hty2 & Ho2 & Hr2 & Hg2).
  unfold ReaderMap.publish in Hh2. rewrite Hh2. cbn [fmap result_fmap]. intros [= <-] HR.
  assert (∀ kk, visible h2 kk = None) as Hnone.
  { intros kk. rewrite Hg2, Hp1, Hpe. cbn [app contents_steps foldl contents_step].
    unfold ReaderMapContents.visible. rewrite He1, Hen. apply Hd3. }
  split; [|done]. split; [|split; [done|split; [|done]]].
  - split; cbn [fst wh_handle wh_partial wh_index wh_contiguous with_handle]; try done.
    + apply Hr2. right. rewrite Hp1, Hpe. apply elem_of_here.
    + rewrite Hty2. unfold ReaderMapContents.visible_type. by rewrite He1, Hen.
    + rewrite Ho2. unfold ReaderMapContents.visible_order. by rewrite He1, Hen.
  - intros kk rows. cbn [fst wh_handle with_handle]. by rewrite Hnone.
Qed.

(** C4: A partial reader serves its view.  In every state that updates, replays and
    evictions lead to from a new reader, a lookup of some keys returns: either
    exactly the rows of the view that the keys ask for, each distinct key once, or
    the keys among those asked that are holes.  A NULL key asks for nothing. *)
Theorem reader_serves_view index n pre receivers w0 w R0 w' R keys :
  rk_width (length (columns index)) → new_inner index n true pre receivers = Ok w0 → swap w0 = Ok w →
  Forall (row_ok (columns index) pre) R0 → rtc (reader_step (columns index) pre) (w, R0) (w', R) →
  Forall (askable (length (columns index)) (index_type index)) keys →
  ∃ res, handle_get_multi (wh_handle w') keys = Ok res ∧ multi_result (columns index) w' R keys res.
Proof.
  intros Hwd Hnew Hswap HR0 Hsteps Hkeys.
  destruct (reader_new_inv index n pre receivers w0 w R0) as (Hinv & Hix & _); [done..|].
  destruct (reader_steps_inv _ _ _ _ Hsteps Hinv) as ((Hw & _ & Hc & HR) & _ & Hix' & _).
  cbn [fst snd] in *. eapply get_multi_ok; [done..|]. by rewrite Hix', Hix.
Qed.

(** *** Replays of missed keys *)
Lemma lookup_misses_from (P : KeyComparison V → Prop) map keys prev hits misses hs ms :
  Forall (λ key, P key ∧ kc_is_equal key = true) keys →
  lookup_keys map prev keys hits misses = Ok (hs, ms) →
  Forall (λ key, P key ∧ kc_is_equal key = true) misses → Forall (λ key, P key ∧ kc_is_equal key = true) ms.
Proof.
  intros Hkeys. revert prev hits misses. induction Hkeys as [|key keys Hkey _ IH]; intros prev hits misses.
  - by intros [= <- <-].
  - cbn [Backlog.lookup_keys]. destruct (existsb (kc_eq key) prev); [apply IH|].
    destruct key as [k|]; [|by destruct Hkey]. unfold Backlog.lookup_one. destruct (has_null k); [apply IH|].
    destruct (rk_first k); [|done..]. cbn [mbind result_bind]. destruct (data_get _ _); [apply IH|].
    intros Hl Hm. eapply IH; [exact Hl|]. apply Forall_app. split; [done|]. by apply Forall_singleton.
Qed.

(** Marking keys that are holes in what readers see succeeds. *)
Lemma mark_filled_holes cols pre keys w :
  reader_ok cols pre w → index_type (wh_index w) = IxHashMap →
  Forall (λ key, key_sized (length cols) key ∧ kc_is_equal key = true) keys →
  (∀ kk, covered keys kk = true → visible (wh_handle w) kk = None) →
  ∃ w', result_foldl mark_filled w keys = Ok w' ∧ wh_receivers w' = wh_receivers w.
Proof.
  intros Hw Hty Hkeys. revert w Hw Hty.
  induction Hkeys as [|key keys [[Hs He] Heq] _ IH]; intros w Hw Hty Hholes; [by exists w|].
  destruct key as [k|]; [|done]. simpl in Hs. cbn [result_foldl].
  pose proof (ok_width _ _ _ Hw) as Hwd. rewrite <-Hs in Hwd.
  destruct (rk_of_vec k Hwd) as (kk & Hvec & Hk & Hf & _).
  assert (visible (wh_handle w) kk = None) as Hnone.
  { apply Hholes. unfold ReaderProps.covered. cbn [existsb kc_contains]. by rewrite Hvec, cmp_refl. }
  assert (∃ w1, mark_filled w (KEqual k) = Ok w1 ∧ wh_handle w1 = append (wh_handle w) (OClear kk) ∧ same_reader w w1)
    as (w1 & Hm & Hh1 & Hs1).
  { unfold Backlog.mark_filled, check_len. cbn [kc_len]. rewrite (ok_columns _ _ _ Hw), <-Hs, Nat.eqb_refl.
    cbn [mbind result_bind]. rewrite Hty. unfold entry_mark_filled, handle_get, ReaderMap.enter.
    rewrite (ok_ready _ _ _ Hw), Hf. cbn [mbind result_bind]. unfold ReaderMapContents.visible in Hnone. rewrite Hnone.
    cbn [is_miss]. unfold mw_clear. rewrite Hk. cbn [fmap result_fmap mbind result_bind]. eexists. by split_and!. }
  destruct (reader_append cols pre w w1 [OClear kk]) as (Hw1 & He1 & _); [done|done|done|by repeat constructor..|].
  rewrite Hm. cbn [mbind result_bind]. destruct Hs1 as (? & Hi1 & ? & Hr1).
  destruct (IH w1) as (w' & Hw' & Hr'); [done|by rewrite Hi1| |].
  - intros k2 Hk2. unfold ReaderMapContents.visible. rewrite He1. apply Hholes.
    unfold ReaderProps.covered in *. cbn [existsb]. by rewrite Hk2, orb_true_r.
  - exists w'. split; [done|]. congruence.
Qed.

(** [reader_fill] of holes succeeds. *)
Lemma reader_fill_succeeds cols pre w R keys link tag rows ctx :
  reader_inv cols pre (w, R) → index_type (wh_index w) = IxHashMap → wh_receivers w ≠ 0 →
  Forall (λ key, key_sized (length cols) key ∧ kc_is_equal key = true) keys →
  (∀ kk, covered keys kk = true → visible (wh_handle w) kk = None) → Forall (row_ok cols pre) rows →
  ∃ w', reader_fill w keys (PReplayPiece link tag (Positive <$> rows) ctx) = Ok w'.
Proof.
  intros (Hw & Hp & _) Hty Hrecv Hkeys Hholes Hrows. cbn [fst] in *. unfold Reader.reader_fill.
  destruct (mark_filled_holes cols pre keys w Hw Hty Hkeys Hholes) as (w1 & Hm & Hr1). rewrite Hm. cbn [mbind result_bind].
  destruct (mark_filled_all key_size base_value_size cols pre keys w w1 [] [] w) as (Hw1 & _); try done.
  { eapply Forall_impl; [exact Hkeys|]. by intros key [? _]. }
  { intros kk. unfold marked. cbn [contents_steps foldl ReaderProps.covered existsb]. by destruct (visible (wh_handle w) kk). }
  assert (Forall (λ rc, row_ok cols pre (rec rc)) (Positive <$> rows)) as Hrs by (by apply Forall_fmap).
  unfold Reader.reader_process. cbn [is_regular negb andb]. rewrite (ok_partial _ _ _ Hw1).
  unfold retain_data. cbn [packet_data mbind result_bind andb negb is_regular]. rewrite (keep_replay_ok cols pre) by done.
  cbn [mbind result_bind Payload.set_data take_data].
  match goal with |- context [add w1 ?rs] =>
    destruct (reader_add row_size cols pre w1 rs Hw1) as (w2 & Hadd & Hw2 & (_ & _ & _ & Hr2) & _);
      [by apply Forall_filter_keep|]; rewrite Hadd end.
  cbn [mbind result_bind].
  destruct (reader_swap cols pre w2 Hw2) as (w3 & Hswap & _ & (_ & _ & _ & Hr3) & _). rewrite Hswap. cbn [mbind result_bind].
  unfold notify_readers. destruct (Nat.eqb_spec (wh_receivers w3) 0) as [Hz|_]; [congruence|]. by eexists.
Qed.

Lemma reader_upquery_ok cols pre w R keys ms link tag rows ctx :
  reader_inv cols pre (w, R) → index_type (wh_index w) = IxHashMap → wh_receivers w ≠ 0 →
  Forall (λ key, key_sized (length cols) key ∧ kc_is_equal key = true) keys →
  handle_get_multi (wh_handle w) keys = Ok (inr (LMiss ms)) →
  rows ≡ₚ filter (λ r, existsb (λ key, kc_contains key (cols_at cols r)) ms = true) R →
  ∃ w' hits, reader_fill w ms (PReplayPiece link tag (Positive <$> rows) ctx) = Ok w' ∧
    reader_inv cols pre (w', R) ∧ handle_get_multi (wh_handle w') keys = Ok (inl hits) ∧
    concat hits ≡ₚ concat (answer cols R <$> distinct [] keys).
Proof.
  intros Hinv Hty Hrecv Hkeys Hget Hrows. pose proof Hinv as (Hw & Hp & Hc & HR). cbn [fst snd] in *.
  assert (∀ t, Forall (askable (length cols) t) keys) as Hask.
  { intros t. eapply Forall_impl; [exact Hkeys|]. intros [k|] [? ?]; [|done]. by split. }
  destruct (get_multi_ok cols pre w R keys Hw Hc HR (Hask _)) as (res & Hres & Hspec).
  rewrite Hget in Hres. injection Hres as <-. destruct Hspec as [_ Hmiss].
  assert (Forall (λ key, key_sized (length cols) key ∧ kc_is_equal key = true) ms) as Hms.
  { revert Hget. unfold Backlog.handle_get_multi, ReaderMap.enter. rewrite (ok_ready _ _ _ Hw).
    destruct (lookup_keys _ _ _ _ _) as [[hs ms']| |] eqn:El; [|done..]. cbn [mbind result_bind].
    pose proof (lookup_misses_from _ _ _ _ _ _ _ _ Hkeys El (Forall_nil_2 _)) as Hfrom.
    destruct ms'; [done|]. by intros [= <-]. }
  destruct (reader_fill_succeeds cols pre w R ms link tag rows ctx) as (w' & Hfill); try done.
  { intros kk Hkk. by apply Hmiss in Hkk as [_ ?]. }
  { rewrite Hrows. by apply Forall_filter_keep. }
  destruct (reader_fill_ok row_size key_size base_value_size cols pre w w' R ms link tag rows ctx)
    as (Hw' & Hs' & Hp' & Hc' & Hv'); try done.
  { eapply Forall_impl; [exact Hms|]. by intros key [? _]. }
  { rewrite Hrows. by apply Forall_filter_keep. }
  destruct (get_multi_ok cols pre w' R keys Hw' Hc' HR (Hask _)) as (res' & Hres' & Hspec').
  assert (Forall (λ key, key_sized (length cols) key ∧ kc_is_equal key = true) keys) as Hkeys2 by done.
  destruct res' as [hits|e].
  { exists w', hits. destruct Hspec' as [Hh _]. by split_and!. }
  exfalso. destruct e as [| |e|ms']; try done. destruct Hspec' as [Hne Hmiss'].
  assert (Forall (λ key, key_sized (length cols) key ∧ kc_is_equal key = true) ms') as Hms'.
  { revert Hres'. unfold Backlog.handle_get_multi, ReaderMap.enter. rewrite (ok_ready _ _ _ Hw').
    destruct (lookup_keys _ _ _ _ _) as [[hs ms2]| |] eqn:El; [|done..]. cbn [mbind result_bind].
    pose proof (lookup_misses_from _ _ _ _ _ _ _ _ Hkeys El (Forall_nil_2 _)) as Hfrom.
    destruct ms2; [done|]. by intros [= <-]. }
  destruct ms' as [|key ms']; [done|]. apply Forall_cons in Hms' as [[[Hs _] Heq] _].
  destruct key as [k|]; [|done]. simpl in Hs. pose proof (ok_width _ _ _ Hw) as Hwd. rewrite <-Hs in Hwd.
  destruct (rk_of_vec k Hwd) as (kk & Hvec & _).
  destruct (proj1 (Hmiss' kk)) as [Ha Hn].
  { unfold ReaderProps.covered. cbn [existsb kc_contains]. by rewrite Hvec, cmp_refl. }
  apply Hv' in Hn as [Hn1 Hn2]. assert (covered ms kk = true) by (by apply Hmiss). congruence.
Qed.

(** C17: An upquery completes: when a lookup of single keys misses in a reader with
    a hash index, the replay of the missed keys succeeds, and afterwards the same lookup
    hits and returns the rows of the view. *)
Theorem reader_upquery_completes cols pre w R keys ms link tag rows ctx :
  reader_inv cols pre (w, R) → index_type (wh_index w) = IxHashMap → wh_receivers w ≠ 0 →
  Forall (λ key, key_sized (length cols) key ∧ kc_is_equal key = true) keys →
  handle_get_multi (wh_handle w) keys = Ok (inr (LMiss ms)) →
  rows ≡ₚ filter (λ r, existsb (λ key, kc_contains key (cols_at cols r)) ms = true) R →
  ∃ w' hits, reader_fill w ms (PReplayPiece link tag (Positive <$> rows) ctx) = Ok w' ∧
    reader_inv cols pre (w', R) ∧ handle_get_multi (wh_handle w') keys = Ok (inl hits) ∧
    concat hits ≡ₚ concat (answer cols R <$> distinct [] keys).
Proof. apply reader_upquery_ok. Qed.

(** A reader without a replay path answers a lookup of several keys with nothing at
    all when any of them is missing, although another key has rows; the lookup of
    that key alone returns them. *)
Theorem full_reader_drops_hits (h : W) (k1 k2 : list V) kk1 kk2 rows :
  in_ready (enter h) = true → rk_first k1 = Ok kk1 → rk_first k2 = Ok kk2 → k1 ≠ k2 →
  has_null k1 = false → has_null k2 = false →
  visible h kk1 = Some rows → visible h kk2 = None →
  read_get_multi false h [KEqual k1] = Ok (inl [rows]) ∧
  read_get_multi false h [KEqual k2] = Ok (inl []) ∧
  read_get_multi false h [KEqual k1; KEqual k2] = Ok (inl []).
Proof.
  intros Hr H1 H2 Hne Hn1 Hn2. unfold ReaderMapContents.visible. intros Hv1 Hv2.
  assert (kc_eq (KEqual k2) (KEqual k1) = false) as Hk by (simpl; by apply bool_decide_eq_false).
  unfold Backlog.read_get_multi, Backlog.handle_get_multi, ReaderMap.enter. rewrite Hr.
  cbn [Backlog.lookup_keys existsb]. rewrite Hk. unfold Backlog.lookup_one.
  rewrite Hn1, Hn2, H1, H2. cbn [mbind result_bind]. rewrite Hv1, Hv2. by split_and!.
Qed.
End reader_theorems.

(** ** A reader of two columns, keyed by the first *)
Abbreviation RMap := (gmap SampleVal (list (list SampleVal))).
Abbreviation SReaderInner := (Inner SampleVal (list SampleVal) RMap Z Timestamp PreInsertion).
Abbreviation SReaderOp := (Operation SampleVal (list SampleVal) Z Timestamp).
Abbreviation RHandle := (Copies SReaderInner SReaderOp).
Definition sample_index : Index := {| index_type := IxHashMap; columns := [0] |}.
Definition sample_order : PreInsertion := {| pi_order_by := Some [(1, OrderDescending)]; pi_group_by := None |}.
Definition sample_size (r : list SampleVal) : Z := Z.of_nat (length r).
Definition sample_link : Link := {| link_src := 0; link_dst := 1 |}.
Definition sample_view : list (list SampleVal) := [[SInt 1; SInt 10]; [SInt 2; SInt 20]].
Definition sample_reader : result (WriteHandle RHandle) :=
  w ← new_inner (K:=SampleVal) (HM:=RMap) sample_index 2 true sample_order 1; swap (K:=SampleVal) (HM:=RMap) w.

(** The reader after the replay of key 1, and after an update of that key. *)
Definition sample_filled : result (WriteHandle RHandle) :=
  w ← sample_reader;
  reader_fill (K:=SampleVal) (HM:=RMap) sample_size sample_size 8 w [KEqual [SInt 1]]
    (PReplayPiece sample_link 7 (Positive <$> [[SInt 1; SInt 10]]) (RpPartial [KEqual [SInt 1]] 0 0 false)).
Definition sample_updated : result (WriteHandle RHandle) :=
  w ← sample_filled;
  '(w, _) ← reader_process (K:=SampleVal) (HM:=RMap) sample_size w
    (PMessage sample_link [Positive [SInt 1; SInt 11]; Positive [SInt 2; SInt 21]] None) true;
  Ok w.
Definition sample_view' : list (list SampleVal) := sample_view ++ [[SInt 1; SInt 11]; [SInt 2; SInt 21]].

Lemma batch_ok_positive `{DfVal V} (old rows : list (list V)) : batch_ok old (Positive <$> rows) (old ++ rows).
Proof.
  split.
  - intros r n. rewrite <-fmap_take, wt_positive.
    pose proof (occ_nonneg r (take n rows)). pose proof (occ_nonneg r old). lia.
  - intros r. by rewrite wt_positive, occ_app.
Qed.

Lemma is_ok_inv {A} (res : result A) : is_ok res = true → ∃ x, res = Ok x.
Proof. destruct res; [by eexists|done..]. Qed.

Lemma sample_rows_ok (R : list (list SampleVal)) :
  forallb (λ r, length r =? 2) R = true → Forall (row_ok (columns sample_index) sample_order) R.
Proof.
  intros HR. apply Forall_forall. intros r Hr. rewrite forallb_forall in HR. apply list_elem_of_In, HR, Nat.eqb_eq in Hr.
  split; [constructor; [lia|constructor]|]. unfold order_fits. cbn. by rewrite Hr.
Qed.

Lemma reader_serves_view_witness :
  ∃ w', sample_updated = Ok w' ∧ ∃ res,
    handle_get_multi (K:=SampleVal) (HM:=RMap) (wh_handle w') [KEqual [SInt 1]; KEqual [SNone]; KEqual [SInt 1]] = Ok res ∧
    multi_result (K:=SampleVal) (HM:=RMap) (columns sample_index) w' sample_view'
      [KEqual [SInt 1]; KEqual [SNone]; KEqual [SInt 1]] res.
Proof.
  destruct (is_ok_inv sample_reader) as [w E1]; [vm_compute; reflexivity|].
  destruct (is_ok_inv sample_filled) as [w1 E2]; [vm_compute; reflexivity|].
  destruct (is_ok_inv sample_updated) as [w2 E3]; [vm_compute; reflexivity|].
  exists w2. split; [exact E3|]. unfold sample_filled in E2. rewrite E1 in E2. cbn [mbind result_bind] in E2.
  unfold sample_updated, sample_filled in E3. rewrite E1 in E3. cbn [mbind result_bind] in E3. rewrite E2 in E3.
  cbn [mbind result_bind] in E3. unfold sample_reader in E1.
  destruct (is_ok_inv (new_inner (K:=SampleVal) (HM:=RMap) (W:=RHandle) sample_index 2 true sample_order 1)) as [w0 E0];
    [vm_compute; reflexivity|]. rewrite E0 in E1. cbn [mbind result_bind] in E1.
  apply (reader_serves_view (K:=SampleVal) (HM:=RMap) sample_size sample_size 8
    sample_index 2 sample_order 1 w0 w sample_view).
  - reflexivity.
  - exact E0.
  - exact E1.
  - apply sample_rows_ok. reflexivity.
  - eapply rtc_l; [|apply rtc_once].
    + eapply step_fill; [|  |exact E2]; [by repeat constructor|reflexivity].
    + destruct (reader_process _ _ _ _) as [[w3 p3]| |] eqn:E4; [|discriminate E3..]. injection E3 as <-.
      eapply step_update; [| | |exact E4].
      * apply (batch_ok_positive sample_view [[SInt 1; SInt 11]; [SInt 2; SInt 21]]).
      * by repeat constructor.
      * apply sample_rows_ok. reflexivity.
  - by repeat constructor.
Defined.

Lemma reader_upquery_completes_witness :
  ∃ w w' hits, sample_reader = Ok w ∧
    reader_fill (K:=SampleVal) (HM:=RMap) sample_size sample_size 8 w [KEqual [SInt 1]]
      (PReplayPiece sample_link 7 (Positive <$> [[SInt 1; SInt 10]]) (RpPartial [KEqual [SInt 1]] 0 0 false)) = Ok w' ∧
    reader_inv (K:=SampleVal) (HM:=RMap) (columns sample_index) sample_order (w', sample_view) ∧
    handle_get_multi (K:=SampleVal) (HM:=RMap) (wh_handle w') [KEqual [SInt 1]] = Ok (inl hits) ∧
    concat hits ≡ₚ concat (answer (columns sample_index) sample_view <$> distinct [] [KEqual [SInt 1]]).
Proof.
  destruct (is_ok_inv sample_reader) as [w E1]; [vm_compute; reflexivity|]. exists w.
  assert (handle_get_multi (K:=SampleVal) (HM:=RMap) (wh_handle w) [KEqual [SInt 1]] = Ok (inr (LMiss [KEqual [SInt 1]]))) as Hm.
  { assert ((w ← sample_reader; handle_get_multi (K:=SampleVal) (HM:=RMap) (wh_handle w) [KEqual [SInt 1]])
            = Ok (inr (LMiss [KEqual [SInt 1]]))) as Hm by (vm_compute; reflexivity). by rewrite E1 in Hm. }
  pose proof E1 as E1'. unfold sample_reader in E1.
  destruct (is_ok_inv (new_inner (K:=SampleVal) (HM:=RMap) (W:=RHandle) sample_index 2 true sample_order 1)) as [w0 E0];
    [vm_compute; reflexivity|]. rewrite E0 in E1. cbn [mbind result_bind] in E1.
  destruct (reader_new_inv (K:=SampleVal) (HM:=RMap) sample_index 2 sample_order 1 w0 w sample_view)
    as (Hinv & Hix & Hrc); [reflexivity|exact E0|exact E1|apply sample_rows_ok; reflexivity|].
  destruct (reader_upquery_completes (K:=SampleVal) (HM:=RMap) sample_size sample_size 8 (columns sample_index) sample_order w
    sample_view [KEqual [SInt 1]] [KEqual [SInt 1]] sample_link 7 [[SInt 1; SInt 10]] (RpPartial [KEqual [SInt 1]] 0 0 false))
    as (w' & hits & Hf & Hi & Hg & Hp).
  - exact Hinv.
  - by rewrite Hix.
  - by rewrite Hrc.
  - by repeat constructor.
  - exact Hm.
  - reflexivity.
  - exists w', hits. split; [exact E1'|]. split; [exact Hf|]. split; [exact Hi|]. split; [exact Hg|exact Hp].
Defined.

(** A fully materialized reader with a hash index and one row. *)
Definition sample_full : result (WriteHandle RHandle) :=
  w ← new_inner (K:=SampleVal) (HM:=RMap) sample_index 2 false sample_order 1;
  '(w, _) ← reader_process (K:=SampleVal) (HM:=RMap) sample_size w
    (PMessage sample_link [Positive [SInt 1; SInt 10]] None) true;
  Ok w.

Lemma full_reader_drops_hits_witness :
  ∃ w, sample_full = Ok w ∧
    read_get_multi (K:=SampleVal) (HM:=RMap) false (wh_handle w) [KEqual [SInt 1]] = Ok (inl [[[SInt 1; SInt 10]]]) ∧
    read_get_multi (K:=SampleVal) (HM:=RMap) false (wh_handle w) [KEqual [SInt 2]] = Ok (inl []) ∧
    read_get_multi (K:=SampleVal) (HM:=RMap) false (wh_handle w) [KEqual [SInt 1]; KEqual [SInt 2]] = Ok (inl []).
Proof.
  destruct (is_ok_inv sample_full) as [w E]; [vm_compute; reflexivity|]. exists w. split; [exact E|].
  assert (((λ w : WriteHandle RHandle, (in_ready (lr_enter (T:=SReaderInner) (Op:=SReaderOp) (wh_handle w)),
      visible (K:=SampleVal) (A:=list SampleVal) (HM:=RMap) (M:=Z) (T:=Timestamp) (I:=PreInsertion) (wh_handle w) (SInt 1),
      visible (K:=SampleVal) (A:=list SampleVal) (HM:=RMap) (M:=Z) (T:=Timestamp) (I:=PreInsertion) (wh_handle w) (SInt 2)))
      <$> sample_full) = Ok (true, Some [[SInt 1; SInt 10]], None)) as Hv by (vm_compute; reflexivity).
  rewrite E in Hv. cbn [fmap result_fmap] in Hv. injection Hv as Hr H1 H2.
  apply (full_reader_drops_hits (K:=SampleVal) (HM:=RMap) _ [SInt 1] [SInt 2] (SInt 1) (SInt 2)); try reflexivity.
  - exact Hr.
  - discriminate.
  - exact H1.
  - exact H2.
Defined.
