(* ===== verification/Hashing.v ===== *)
(** * Hashing: hash maps and sets whose keys are compared by [==]

    [std::collections::HashMap] and [HashSet] for keys whose [==] is coarser than
    equality of their fields, such as key comparisons: a point equals the closed
    range at that point.  A type of such keys is an instance of [Hashed]: two keys
    are equal when their canonical forms are.  A map keeps the key it was first
    given; the order of the entries stands for the arbitrary order of iteration. *)
From S2P Require Import Prelude Intervals Result Records Keys.

Class Hashed (K : Type) := {
  canonical : Type;
  canonical_dec :: EqDecision canonical;
  canon : K → canonical;
}.

#[export] Hint Mode Hashed ! : typeclass_instances.

(** Keys whose [==] is equality. *)
Definition plain_hashed (K : Type) `{EqDecision K} : Hashed K :=
  {| canonical := K; canon := λ k, k |}.
#[export] Instance nat_hashed : Hashed nat := plain_hashed nat.
#[export] Instance bool_hashed : Hashed bool := plain_hashed bool.
#[export] Instance columns_hashed : Hashed (list nat) := plain_hashed (list nat).
#[export] Instance pair_hashed `{Hashed A, Hashed B} : Hashed (A * B) :=
  {| canonical := @canonical A _ * @canonical B _; canon := λ ab, (canon ab.1, canon ab.2) |}.
(** Key comparisons: what the hasher is fed ([Keys.kc_eq_hashed]). *)
#[export] Instance key_hashed `{DfVal V} : Hashed (KeyComparison V) :=
  {| canonical := list V + BoundPair (list V); canon := kc_hashed |}.
#[export] Instance keys_hashed `{DfVal V} : Hashed (list (KeyComparison V)) :=
  {| canonical := list (list V + BoundPair (list V)); canon := fmap kc_hashed |}.

Section hash_maps.
Context `{Hashed K} {A : Type}.
Implicit Types (k : K) (a : A) (m : list (K * A)) (s : list K).

Definition same_key k1 k2 : bool := bool_decide (canon k1 = canon k2).

Fixpoint am_get m k : option A :=
  match m with
  | [] => None
  | (k', a) :: m' => if same_key k' k then Some a else am_get m' k
  end.
(** [entry(k)], with the value it has and the value it gets. *)
Fixpoint am_update (f : option A → A) m k : list (K * A) :=
  match m with
  | [] => [(k, f None)]
  | (k', a) :: m' => if same_key k' k then (k', f (Some a)) :: m' else (k', a) :: am_update f m' k
  end.
Definition am_remove m k : list (K * A) := filter (λ ka, same_key ka.1 k = false) m.

Definition as_mem s k : bool := existsb (λ k', same_key k' k) s.
Definition as_insert s k : list K := if as_mem s k then s else s ++ [k].
Definition as_remove s k : list K := filter (λ k', same_key k' k = false) s.
End hash_maps.

Section hash_lemmas.
Context `{Hashed K} {A : Type}.
Implicit Types (k : K) (a : A) (m : list (K * A)) (s : list K).

Lemma same_key_true k1 k2 : same_key k1 k2 = true ↔ canon k1 = canon k2.
Proof. apply bool_decide_eq_true. Qed.
Lemma same_key_false k1 k2 : same_key k1 k2 = false ↔ canon k1 ≠ canon k2.
Proof. apply bool_decide_eq_false. Qed.
Lemma same_key_refl k : same_key k k = true.
Proof. by apply same_key_true. Qed.
Lemma same_key_sym k1 k2 : same_key k1 k2 = same_key k2 k1.
Proof. unfold same_key. apply bool_decide_ext. by split. Qed.
Lemma same_key_trans k1 k2 k3 : same_key k1 k2 = true → same_key k1 k3 = same_key k2 k3.
Proof. intros Hk. apply same_key_true in Hk. unfold same_key. by rewrite Hk. Qed.

Lemma am_get_same m k1 k2 : same_key k1 k2 = true → am_get m k1 = am_get m k2.
Proof.
  intros Hk. induction m as [|[k a] m IH]; [done|]. simpl.
  by rewrite (same_key_sym k k1), (same_key_sym k k2), (same_key_trans _ _ k Hk), IH.
Qed.

Lemma am_get_update f m k k' :
  am_get (am_update f m k) k' = if same_key k k' then Some (f (am_get m k)) else am_get m k'.
Proof.
  induction m as [|[k0 a] m IH]; simpl; [done|].
  destruct (same_key k0 k) eqn:E0; simpl.
  - rewrite (same_key_trans _ _ k' E0). by destruct (same_key k k').
  - destruct (same_key k0 k') eqn:E1; [|done].
    destruct (same_key k k') eqn:E2; [|done]. exfalso.
    apply same_key_true in E1, E2. apply same_key_false in E0. congruence.
Qed.

Lemma am_get_remove m k k' :
  am_get (am_remove m k) k' = if same_key k k' then None else am_get m k'.
Proof.
  unfold am_remove. induction m as [|[k0 a] m IH]; simpl; [by destruct (same_key k k')|].
  rewrite filter_cons. simpl. destruct (decide (same_key k0 k = false)) as [E|E]; simpl.
  - destruct (same_key k0 k') eqn:E1; [|done]. destruct (same_key k k') eqn:E2; [|done].
    exfalso. apply same_key_true in E1, E2. apply same_key_false in E. congruence.
  - apply not_false_is_true in E. rewrite IH, (same_key_trans _ _ k' E). by destruct (same_key k k').
Qed.

Lemma am_get_None m k : am_get m k = None ↔ ∀ k' a, (k', a) ∈ m → same_key k' k = false.
Proof.
  induction m as [|[k0 a0] m IH]; simpl.
  - split; [|done]. intros _ k' a Hin. inversion Hin.
  - destruct (same_key k0 k) eqn:E.
    + split; [done|]. intros Hall. rewrite (Hall k0 a0) in E; [done|]. apply elem_of_here.
    + rewrite IH. split.
      * intros Hall k' a [[= -> ->]|Hin]%elem_of_cons; [done|eauto].
      * intros Hall k' a Hin. apply (Hall k' a). by apply elem_of_cons; right.
Qed.

(** Keys of a map are distinct. *)
Definition am_wf m : Prop := NoDup (canon ∘ fst <$> m).
Definition as_wf s : Prop := NoDup (canon <$> s).

Lemma am_wf_nil : am_wf [].
Proof. constructor. Qed.
Lemma am_wf_cons k a m : am_wf ((k, a) :: m) ↔ am_get m k = None ∧ am_wf m.
Proof.
  unfold am_wf. rewrite fmap_cons, NoDup_cons. simpl. rewrite am_get_None. f_equiv.
  rewrite list_elem_of_fmap. split.
  - intros Hno k' a' Hin. apply same_key_false. intros Heq. apply Hno. exists (k', a'). by split.
  - intros Hall ((k' & a') & Heq & Hin). specialize (Hall k' a' Hin). apply same_key_false in Hall. by apply Hall.
Qed.
Lemma am_wf_update f m k : am_wf m → am_wf (am_update f m k).
Proof.
  induction m as [|[k0 a] m IH]; intros Hwf; simpl; [apply am_wf_cons; by split; [|apply am_wf_nil]|].
  apply am_wf_cons in Hwf as [Hn Hwf]. destruct (same_key k0 k) eqn:E; apply am_wf_cons; [by split|].
  split; [|by apply IH]. rewrite am_get_update, same_key_sym, E. done.
Qed.
Lemma am_wf_remove m k : am_wf m → am_wf (am_remove m k).
Proof.
  unfold am_remove. induction m as [|[k0 a] m IH]; intros Hwf; [done|]. rewrite filter_cons.
  apply am_wf_cons in Hwf as [Hn Hwf]. case_decide; [|by apply IH].
  apply am_wf_cons. split; [|by apply IH]. fold (am_remove m k). rewrite am_get_remove, Hn. by destruct (same_key k k0).
Qed.

Lemma as_mem_true s k : as_mem s k = true ↔ canon k ∈ canon <$> s.
Proof.
  unfold as_mem. rewrite existsb_exists, list_elem_of_fmap. split.
  - intros (k' & Hin & Hk). exists k'. apply same_key_true in Hk. split; [done|]. by apply list_elem_of_In.
  - intros (k' & Hk & Hin). exists k'. split; [by apply list_elem_of_In|]. by apply same_key_true.
Qed.
Lemma as_mem_same s k1 k2 : same_key k1 k2 = true → as_mem s k1 = as_mem s k2.
Proof. intros Hk. apply same_key_true in Hk. apply eq_true_iff_eq. rewrite !as_mem_true. by rewrite Hk. Qed.
Lemma as_mem_insert s k k' : as_mem (as_insert s k) k' = as_mem s k' || same_key k k'.
Proof.
  unfold as_insert. destruct (as_mem s k) eqn:E.
  - destruct (same_key k k') eqn:Ek; [|by rewrite orb_false_r]. rewrite (as_mem_same _ _ _ Ek) in E. by rewrite E.
  - unfold as_mem at 1. rewrite existsb_app. simpl. by rewrite orb_false_r.
Qed.
Lemma as_wf_insert s k : as_wf s → as_wf (as_insert s k).
Proof.
  unfold as_insert, as_wf. intros Hwf. destruct (as_mem s k) eqn:E; [done|]. rewrite fmap_app. apply NoDup_app.
  split; [done|]. split; [|apply NoDup_singleton]. intros x Hx Hx'. apply list_elem_of_singleton in Hx' as ->.
  apply as_mem_true in Hx. congruence.
Qed.
End hash_lemmas.
