(* ===== verification/ReplayPaths.v ===== *)
(** * ReplayPaths: the replay paths of a domain

    Models [readyset-dataflow/src/domain/replay_paths.rs], the replay paths that go
    through a domain and the ways they are resolved, and [RemappedKeys] of
    [domain/mod.rs], the downstream keys that a node with generated columns has
    turned into upstream keys.

    A path that was inserted is found by its tag and by the index it fills
    ([replay_paths_insert_resolves]); what was remapped is given back once, under
    exactly the keys it was recorded with ([remapped_roundtrip]), which is why an
    eviction of several keys at once does not find it
    ([remapped_batch_eviction_lost]). *)
From S2P Require Import Prelude Intervals BTreeMap Result Records Keys KeyedState Hashing.

#[export] Instance Index_eq_dec : EqDecision Index.
Proof. solve_decision. Defined.
#[export] Instance index_hashed : Hashed Index := plain_hashed Index.

Record ReplayPathSegment := {
  seg_node : nat;
  seg_force_tag_to : option nat;
  seg_partial_index : option Index;
  seg_is_target : bool;
}.

Inductive SourceSelection :=
  | KeyShard (key_i_to_shard nshards : nat)
  | SameShard
  | AllShards (nshards : nat).

(** [TriggerEndpoint] of the domain; [options] is the number of senders. *)
Inductive TriggerEndpoint :=
  | TriggerNone
  | TriggerStart (ix : Index)
  | TriggerEnd (source : SourceSelection) (options : nat)
  | TriggerLocal (ix : Index).
Definition trigger_is_local (t : TriggerEndpoint) : bool := match t with TriggerLocal _ => true | _ => false end.
Definition trigger_is_end (t : TriggerEndpoint) : bool := match t with TriggerEnd _ _ => true | _ => false end.

Record ReplayPath := {
  rp_source : option nat;
  rp_target_index : option Index;
  rp_path : list ReplayPathSegment;
  rp_notify_done : bool;
  rp_partial_unicast_sharder : option nat;
  rp_trigger : TriggerEndpoint;
}.

(** The path is a [Vec1]: without a last segment there is nothing to return. *)
Definition last_segment (p : ReplayPath) : result ReplayPathSegment := expect (last (rp_path p)).
Definition find_target (path : list ReplayPathSegment) : option ReplayPathSegment :=
  head (filter (λ s, seg_is_target s = true) path).
Definition target_node (p : ReplayPath) : option nat :=
  match find_target (rp_path p) with Some s => Some (seg_node s) | None => rp_source p end.

Record ReplayPathSpec := {
  rs_tag : nat;
  rs_source : option nat;
  rs_source_index : option Index;
  rs_path : list ReplayPathSegment;
  rs_partial_unicast_sharder : option nat;
  rs_notify_done : bool;
  rs_trigger : TriggerEndpoint;
}.

Record ReplayPaths := {
  by_tag : BTreeMap nat ReplayPath;
  by_dst : list (nat * list (nat * list (Index * list nat)));
  generated_columns : list (nat * list (list nat * list nat));
}.
Definition replay_paths_default : ReplayPaths := {| by_tag := []; by_dst := []; generated_columns := [] |}.

Section remapped.
Context `{DfVal V}.
#[local] Abbreviation Key := (KeyComparison V).
Implicit Types (keys : list Key).

(** [ColumnMiss]. *)
Record ColumnMiss := { cm_node : nat; cm_column_indices : list nat; cm_missed_keys : list Key }.

(** From nodes that generate columns, to the nodes these come from, to the columns
    there, to the upstream keys, to the downstream tags and keys. *)
Definition RemappedKeys : Type :=
  list (nat * list (nat * list (list nat * list (list Key * list (nat * list Key))))).
Implicit Types (r : RemappedKeys).

Definition remapped_insert r (miss_in : nat) (upstream : ColumnMiss) (downstream_key : Key) (downstream_tag : nat) :
    RemappedKeys :=
  am_update (λ m1, am_update (λ m2, am_update (λ m3, am_update (λ m4, am_update (λ ks,
    default [] ks ++ [downstream_key])
    (default [] m4) downstream_tag)
    (default [] m3) (cm_missed_keys upstream))
    (default [] m2) (cm_column_indices upstream))
    (default [] m1) (cm_node upstream))
    r miss_in.

Definition remapped_get r (node target : nat) (columns : list nat) keys : option (list (nat * list Key)) :=
  m1 ← am_get r node; m2 ← am_get m1 target; m3 ← am_get m2 columns; am_get m3 keys.
Definition remapped_remove r (node target : nat) (columns : list nat) keys :
    option (list (nat * list Key)) * RemappedKeys :=
  match am_get r node with
  | None => (None, r)
  | Some m1 =>
      match am_get m1 target with
      | None => (None, r)
      | Some m2 =>
          match am_get m2 columns with
          | None => (None, r)
          | Some m3 =>
              (am_get m3 keys,
               am_update (λ _, am_update (λ _, am_update (λ _, am_remove m3 keys) m2 columns) m1 target) r node)
          end
      end
  end.
End remapped.
Arguments ColumnMiss V : clear implicits.
Arguments RemappedKeys V : clear implicits.

Section replay_paths.
Context `{DfVal V}.
#[local] Abbreviation Key := (KeyComparison V).
Implicit Types (ps : ReplayPaths) (keys : list Key).

Definition rp_get ps (tag : nat) : option ReplayPath := bm_get (by_tag ps) tag.

Definition tags_for_index ps (destination target : nat) (ix : Index) : option (list nat) :=
  by_target ← am_get (by_dst ps) destination;
  indexes ← am_get by_target target;
  match am_get indexes ix with
  | Some tags => Some tags
  | None =>
      match index_type ix with
      | IxHashMap => am_get indexes {| index_type := IxBTreeMap; columns := columns ix |}
      | IxBTreeMap => None
      end
  end.

(** The paths that one path makes dependent: the rewritten ones if its keys were
    remapped, else the path itself if it starts at the index. *)
Definition dependent_paths ps (index : Index) keys (r : RemappedKeys V) (tag : nat) (path : ReplayPath) :
    result (list (nat * ReplayPath * list Key) * RemappedKeys V) :=
  match rp_trigger path with
  | TriggerLocal key | TriggerStart key =>
      '(downstream, r) ←
        match target_node path, rp_target_index path with
        | Some target, Some target_index =>
            seg ← last_segment path; Ok (remapped_remove r (seg_node seg) target (columns target_index) keys)
        | _, _ => Ok (None, r)
        end;
      match downstream with
      | Some ds => paths ← result_mapM (λ tk, p ← expect (rp_get ps tk.1); Ok (tk.1, p, tk.2)) ds; Ok (paths, r)
      | None => Ok (if bool_decide (key = index) then [(tag, path, keys)] else [], r)
      end
  | _ => Ok ([], r)
  end.
Definition downstream_dependent_paths ps (node : nat) (index : Index) keys (r : RemappedKeys V) :
    result (list (nat * ReplayPath * list Key) * RemappedKeys V) :=
  result_foldl (λ acc tp,
      if bool_decide (rp_source tp.2 = Some node) then
        '(paths, r) ← dependent_paths ps index keys acc.2 tp.1 tp.2; Ok (acc.1 ++ paths, r)
      else Ok acc) ([], r) (by_tag ps).

Definition tags_for_generated_columns ps (node : nat) (cols : list nat) : option (list nat) :=
  by_cols ← am_get (generated_columns ps) node; am_get by_cols cols.
Definition columns_are_generated ps (node : nat) (cols : list nat) : bool :=
  match am_get (generated_columns ps) node with
  | Some by_cols => match am_get by_cols cols with Some _ => true | None => false end
  | None => false
  end.

(** [paths_through]: [parent_columns] is the method of the node. *)
Definition path_columns (parent_columns : nat → result (list (nat * option nat))) (node from : nat) (rp : ReplayPath) :
    result (option (list nat)) :=
  match columns <$> (head (filter (λ s, seg_node s = node) (rp_path rp)) ≫= seg_partial_index) with
  | Some cols =>
      cols ← result_mapM (λ k, pcs ← parent_columns k;
                               Ok match head (filter (λ nc : nat * option nat, nc.1 = from) pcs) with
                                  | Some pc => pc.2 | None => None end) cols;
      Ok (mapM (M := option) id cols)
  | None => Ok None
  end.
Definition paths_through ps (parent_columns : nat → result (list (nat * option nat))) (node from : nat) :
    result (list (nat * list nat)) :=
  paths ← result_mapM (λ tp : nat * ReplayPath,
            match path_columns parent_columns node from tp.2 with
            | Ok (Some cols) => Ok [(tp.1, cols)]
            | Ok None => Ok []
            | Err e => Err e
            | Panic => Panic
            end) (by_tag ps);
  Ok (concat paths).

(** The node and the index that a path fills. *)
Definition path_target (spec : ReplayPathSpec) : result (nat * Index) :=
  match find_target (rs_path spec) with
  | Some s => ix ← expect (seg_partial_index s); Ok (seg_node s, ix)
  | None =>
      match rs_source spec, rs_source_index spec with
      | Some node, Some ix => Ok (node, ix)
      | _, _ => Err Internal
      end
  end.
Definition replay_paths_insert ps (spec : ReplayPathSpec) : result ReplayPaths :=
  '(target_index, dst) ←
    match rs_trigger spec with
    | TriggerEnd _ _ | TriggerLocal _ =>
        '(node, ix) ← path_target spec;
        seg ← expect (last (rs_path spec));
        Ok (Some ix, am_update (λ m1, am_update (λ m2, am_update (λ tags, default [] tags ++ [rs_tag spec])
              (default [] m2) ix) (default [] m1) node) (by_dst ps) (seg_node seg))
    | _ => Ok (None, by_dst ps)
    end;
  Ok {| by_tag := bm_insert (by_tag ps) (rs_tag spec)
          {| rp_source := rs_source spec; rp_target_index := target_index; rp_path := rs_path spec;
             rp_notify_done := rs_notify_done spec;
             rp_partial_unicast_sharder := rs_partial_unicast_sharder spec; rp_trigger := rs_trigger spec |};
        by_dst := dst; generated_columns := generated_columns ps |}.
Definition insert_generated_columns ps (node : nat) (cols : list nat) (tag : nat) : ReplayPaths :=
  {| by_tag := by_tag ps; by_dst := by_dst ps;
     generated_columns := am_update (λ m, am_update (λ tags, default [] tags ++ [tag]) (default [] m) cols)
                            (generated_columns ps) node |}.
End replay_paths.

(** * Properties *)
(** The tags of the paths that fill an index, without falling back to another index. *)
Definition index_tags (ps : ReplayPaths) (destination target : nat) (ix : Index) : option (list nat) :=
  by_target ← am_get (by_dst ps) destination; indexes ← am_get by_target target; am_get indexes ix.
Definition ordered (ix : Index) : Index := {| index_type := IxBTreeMap; columns := columns ix |}.

Section paths.
Implicit Types (ps : ReplayPaths) (spec : ReplayPathSpec).

Lemma tags_for_index_tags ps d t ix :
  tags_for_index ps d t ix =
  match index_tags ps d t ix, index_type ix with
  | Some tags, _ => Some tags
  | None, IxHashMap => index_tags ps d t (ordered ix)
  | None, IxBTreeMap => None
  end.
Proof.
  unfold tags_for_index, index_tags, ordered. destruct (am_get (by_dst ps) d) as [m|]; simpl; [|by destruct (index_type ix)].
  destruct (am_get m t) as [m'|]; simpl; [|by destruct (index_type ix)]. by destruct (am_get m' ix), (index_type ix).
Qed.

(** Whether a path ends in this domain, so that replays along it are asked for here. *)
Definition ends_here spec : bool :=
  match rs_trigger spec with TriggerEnd _ _ | TriggerLocal _ => true | _ => false end.

Lemma insert_index_tags ps spec ps' :
  replay_paths_insert ps spec = Ok ps' →
  if ends_here spec then
    ∃ node ix seg, path_target spec = Ok (node, ix) ∧ last (rs_path spec) = Some seg ∧
      ∀ d t i, index_tags ps' d t i = if bool_decide ((d, t, i) = (seg_node seg, node, ix))
                                      then Some (default [] (index_tags ps d t i) ++ [rs_tag spec])
                                      else index_tags ps d t i
  else ∀ d t i, index_tags ps' d t i = index_tags ps d t i.
Proof.
  unfold replay_paths_insert, ends_here. intros Hins.
  assert (∀ node ix seg,
    let dst := am_update (λ m1, am_update (λ m2, am_update (λ tags, default [] tags ++ [rs_tag spec])
              (default [] m2) ix) (default [] m1) node) (by_dst ps) (seg_node seg) in
    ∀ d t i, (by_target ← am_get dst d; indexes ← am_get by_target t; am_get indexes i)
     = if bool_decide ((d, t, i) = (seg_node seg, node, ix))
       then Some (default [] (index_tags ps d t i) ++ [rs_tag spec]) else index_tags ps d t i) as Hdst.
  { intros node ix seg dst d t i. unfold dst, index_tags. rewrite am_get_update.
    destruct (same_key (seg_node seg) d) eqn:Ed; apply bool_decide_eq_true in Ed || apply bool_decide_eq_false in Ed; simpl in Ed.
    2: { rewrite bool_decide_false by (intros [=]; done). done. }
    subst d. simpl. rewrite am_get_update.
    destruct (same_key node t) eqn:Et; apply bool_decide_eq_true in Et || apply bool_decide_eq_false in Et; simpl in Et.
    2: { rewrite bool_decide_false by (intros [=]; done). by destruct (am_get (by_dst ps) (seg_node seg)). }
    subst t. simpl. rewrite am_get_update.
    destruct (same_key ix i) eqn:Ei; apply bool_decide_eq_true in Ei || apply bool_decide_eq_false in Ei; simpl in Ei.
    - subst i. rewrite bool_decide_true by done. f_equal. f_equal.
      destruct (am_get (by_dst ps) (seg_node seg)) as [m|]; simpl; [|done]. by destruct (am_get m node).
    - rewrite bool_decide_false by (intros [=]; done).
      destruct (am_get (by_dst ps) (seg_node seg)) as [m|]; simpl; [|done]. by destruct (am_get m node). }
  destruct (rs_trigger spec) as [|key|src opts|key]; cbn [mbind result_bind] in Hins; try (injection Hins as <-; done).
  all: destruct (path_target spec) as [[node ix]| |]; try done; cbn [mbind result_bind] in Hins;
    destruct (last (rs_path spec)) as [seg|]; try done; cbn [mbind result_bind expect] in Hins; injection Hins as <-;
    exists node, ix, seg; split_and!; [done|done|]; intros d t i; apply Hdst.
Qed.

Lemma insert_by_tag ps spec ps' tag :
  bm_wf (by_tag ps) → replay_paths_insert ps spec = Ok ps' →
  ∃ p, rp_get ps' (rs_tag spec) = Some p ∧ rp_path p = rs_path spec ∧ rp_trigger p = rs_trigger spec ∧
    rp_source p = rs_source spec ∧
    (tag ≠ rs_tag spec → rp_get ps' tag = rp_get ps tag) ∧ bm_wf (by_tag ps') ∧
    (ends_here spec = true → ∀ node ix, path_target spec = Ok (node, ix) →
       target_node p = Some node ∧ rp_target_index p = Some ix).
Proof.
  unfold replay_paths_insert. intros Hwf Hins.
  destruct (match rs_trigger spec with TriggerEnd _ _ | TriggerLocal _ => _ | _ => _ end) as [[ti dst]| |] eqn:Et; [|done..].
  cbn [mbind result_bind] in Hins. injection Hins as <-. eexists. unfold rp_get. cbn [by_tag].
  rewrite !bm_get_insert. rewrite decide_True by done. split; [done|]. split_and!; try done.
  - intros Hne. by rewrite decide_False.
  - by apply bm_insert_wf.
  - unfold ends_here. intros He node ix Hpt. unfold target_node. cbn [rp_path rp_source rp_target_index].
    split.
    + unfold path_target in Hpt. destruct (find_target (rs_path spec)) as [s|].
      * destruct (seg_partial_index s); [|done]. by injection Hpt as <- <-.
      * destruct (rs_source spec), (rs_source_index spec); try done. by injection Hpt as <- <-.
    + rewrite Hpt in Et. destruct (rs_trigger spec) as [|key|src opts|key]; try done; cbn [mbind result_bind] in Et;
        destruct (last (rs_path spec)); try done; cbn [mbind result_bind expect] in Et; by injection Et as <- <-.
Qed.
End paths.

(** A replay path that was inserted is found again: by its tag, and, if replays along
    it are asked for in this domain, by its destination, its target node and the
    index it fills there, after the paths that filled that index before.  An ordered
    index also answers point lookups as long as there is no hash index on its
    columns.  All other paths and indexes are found as before. *)
Theorem replay_paths_insert_resolves ps spec ps' :
  bm_wf (by_tag ps) → replay_paths_insert ps spec = Ok ps' →
  (∃ p, rp_get ps' (rs_tag spec) = Some p ∧ rp_path p = rs_path spec ∧ rp_trigger p = rs_trigger spec ∧
     (ends_here spec = true → ∃ seg target ix,
        last (rs_path spec) = Some seg ∧ target_node p = Some target ∧ rp_target_index p = Some ix ∧
        tags_for_index ps' (seg_node seg) target ix =
          Some (default [] (index_tags ps (seg_node seg) target ix) ++ [rs_tag spec]) ∧
        (∀ h, ordered h = ix → index_tags ps' (seg_node seg) target h = None →
           tags_for_index ps' (seg_node seg) target h = tags_for_index ps' (seg_node seg) target ix) ∧
        ∀ d t i, (d, t, columns i) ≠ (seg_node seg, target, columns ix) →
          tags_for_index ps' d t i = tags_for_index ps d t i)) ∧
  (∀ tag, tag ≠ rs_tag spec → rp_get ps' tag = rp_get ps tag).
Proof.
  intros Hwf Hins. destruct (insert_by_tag ps spec ps' 0 Hwf Hins) as (p & Hp & Hpath & Htr & _ & _ & _ & Htgt).
  pose proof (insert_index_tags ps spec ps' Hins) as Htags. split.
  - exists p. split_and!; [done..|]. intros He. rewrite He in Htags.
    destruct Htags as (node & ix & seg & Hpt & Hlast & Hix). destruct (Htgt He node ix Hpt) as [Ht1 Ht2].
    exists seg, node, ix.
    assert (tags_for_index ps' (seg_node seg) node ix = Some (default [] (index_tags ps (seg_node seg) node ix) ++ [rs_tag spec])) as Hnew.
    { rewrite tags_for_index_tags, Hix, bool_decide_true by done. done. }
    split_and!; try done.
    + intros h Hh Hnone. rewrite (tags_for_index_tags _ _ _ h), Hnone, Hnew.
      destruct (index_type h) eqn:Ety.
      * rewrite Hh, Hix, bool_decide_true by done. done.
      * assert (h = ix) as -> by (rewrite <-Hh; destruct h; simpl in *; by subst).
        rewrite Hix, bool_decide_true in Hnone by done. done.
    + intros d t i Hne. rewrite !tags_for_index_tags, !Hix.
      rewrite !bool_decide_false by (intros [=]; subst; done). done.
  - intros tag Hne. destruct (insert_by_tag ps spec ps' tag Hwf Hins) as (_ & _ & _ & _ & _ & Hother & _). by apply Hother.
Qed.

Section remapped_lemmas.
Context `{DfVal V}.
Implicit Types (r : RemappedKeys V) (keys : list (KeyComparison V)).

(** The place of an entry of [RemappedKeys]. *)
Definition same_place (n1 t1 : nat) (c1 : list nat) keys1 (n2 t2 : nat) (c2 : list nat) keys2 : bool :=
  same_key n1 n2 && same_key t1 t2 && same_key c1 c2 && same_key keys1 keys2.

Lemma remapped_get_insert r miss_in u k tag node target cols keys :
  remapped_get (remapped_insert r miss_in u k tag) node target cols keys =
  if same_place miss_in (cm_node u) (cm_column_indices u) (cm_missed_keys u) node target cols keys
  then Some (am_update (λ ks, default [] ks ++ [k])
         (default [] (remapped_get r miss_in (cm_node u) (cm_column_indices u) (cm_missed_keys u))) tag)
  else remapped_get r node target cols keys.
Proof.
  unfold remapped_get, remapped_insert, same_place. rewrite am_get_update.
  destruct (same_key miss_in node) eqn:E1; cbn [mbind option_bind from_option id andb]; [|done].
  rewrite <-(am_get_same r _ _ E1). rewrite am_get_update.
  destruct (same_key (cm_node u) target) eqn:E2; cbn [mbind option_bind from_option id andb]; [|by destruct (am_get r miss_in)].
  destruct (am_get r miss_in) as [m1|]; cbn [mbind option_bind from_option id andb].
  2: { rewrite am_get_update. destruct (same_key (cm_column_indices u) cols); cbn [mbind option_bind from_option id andb]; [|done]. rewrite am_get_update.
       by destruct (same_key (cm_missed_keys u) keys). }
  rewrite <-(am_get_same m1 _ _ E2). rewrite am_get_update.
  destruct (same_key (cm_column_indices u) cols) eqn:E3; cbn [mbind option_bind from_option id andb]; [|by destruct (am_get m1 (cm_node u))].
  destruct (am_get m1 (cm_node u)) as [m2|]; cbn [mbind option_bind from_option id andb].
  2: { rewrite am_get_update. by destruct (same_key (cm_missed_keys u) keys). }
  rewrite <-(am_get_same m2 _ _ E3). rewrite am_get_update.
  destruct (same_key (cm_missed_keys u) keys) eqn:E4; cbn [mbind option_bind from_option id andb]; [|by destruct (am_get m2 (cm_column_indices u))].
  by destruct (am_get m2 (cm_column_indices u)).
Qed.

Lemma remapped_remove_get r node target cols keys :
  (remapped_remove r node target cols keys).1 = remapped_get r node target cols keys ∧
  ∀ node' target' cols' keys',
    remapped_get (remapped_remove r node target cols keys).2 node' target' cols' keys' =
    if same_place node target cols keys node' target' cols' keys' then None else remapped_get r node' target' cols' keys'.
Proof.
  unfold remapped_remove, remapped_get, same_place.
  destruct (am_get r node) as [m1|] eqn:G1; simpl.
  2: { split; [done|]. intros. destruct (same_key node node') eqn:E1; [|done].
       rewrite <-(am_get_same r _ _ E1), G1. by destruct (same_key target target'), (same_key cols cols'), (same_key keys keys'). }
  destruct (am_get m1 target) as [m2|] eqn:G2; simpl.
  2: { split; [done|]. intros. destruct (same_key node node') eqn:E1; [|done]. rewrite <-(am_get_same r _ _ E1), G1. simpl.
       destruct (same_key target target') eqn:E2; [|done]. rewrite <-(am_get_same m1 _ _ E2), G2.
       by destruct (same_key cols cols'), (same_key keys keys'). }
  destruct (am_get m2 cols) as [m3|] eqn:G3; simpl.
  2: { split; [done|]. intros. destruct (same_key node node') eqn:E1; [|done]. rewrite <-(am_get_same r _ _ E1), G1. simpl.
       destruct (same_key target target') eqn:E2; [|done]. rewrite <-(am_get_same m1 _ _ E2), G2. simpl.
       destruct (same_key cols cols') eqn:E3; [|done]. rewrite <-(am_get_same m2 _ _ E3), G3.
       by destruct (same_key keys keys'). }
  split; [done|]. intros. rewrite am_get_update.
  destruct (same_key node node') eqn:E1; simpl; [|done]. rewrite <-(am_get_same r _ _ E1), G1. simpl. rewrite am_get_update.
  destruct (same_key target target') eqn:E2; simpl; [|done]. rewrite <-(am_get_same m1 _ _ E2), G2. simpl. rewrite am_get_update.
  destruct (same_key cols cols') eqn:E3; simpl; [|done]. rewrite <-(am_get_same m2 _ _ E3), G3. simpl. apply am_get_remove.
Qed.

(** What is remapped is given back exactly once: after [insert], [remove] under the
    same node, source, columns and keys returns the tag with the new key after the
    keys it had, and a second [remove] nothing; under any other place both leave
    things as they were. *)
Theorem remapped_roundtrip r miss_in u k tag :
  let r1 := remapped_insert r miss_in u k tag in
  let at_ := remapped_remove r1 miss_in (cm_node u) (cm_column_indices u) (cm_missed_keys u) in
  (∃ ds, at_.1 = Some ds ∧
     am_get ds tag = Some (default [] (am_get (default [] (remapped_get r miss_in (cm_node u) (cm_column_indices u) (cm_missed_keys u))) tag) ++ [k])) ∧
  (remapped_remove at_.2 miss_in (cm_node u) (cm_column_indices u) (cm_missed_keys u)).1 = None ∧
  ∀ node target cols keys,
    same_place miss_in (cm_node u) (cm_column_indices u) (cm_missed_keys u) node target cols keys = false →
    (remapped_remove at_.2 node target cols keys).1 = (remapped_remove r node target cols keys).1.
Proof.
  intros r1 at_. destruct (remapped_remove_get r1 miss_in (cm_node u) (cm_column_indices u) (cm_missed_keys u)) as [H1 H2].
  assert (same_place miss_in (cm_node u) (cm_column_indices u) (cm_missed_keys u)
            miss_in (cm_node u) (cm_column_indices u) (cm_missed_keys u) = true) as Hsame.
  { unfold same_place. by rewrite !same_key_refl. }
  unfold at_. split_and!.
  - rewrite H1. unfold r1. rewrite remapped_get_insert, Hsame. eexists. split; [done|].
    by rewrite am_get_update, same_key_refl.
  - rewrite (proj1 (remapped_remove_get _ _ _ _ _)), H2, Hsame. done.
  - intros node target cols keys Hne. rewrite (proj1 (remapped_remove_get _ _ _ _ _)), H2, Hne.
    unfold r1. rewrite remapped_get_insert, Hne. by rewrite (proj1 (remapped_remove_get _ _ _ _ _)).
Qed.

(** C40: An eviction and the keys that were remapped from what it evicts.  The keys [k1]
    and [k2] were asked for, one miss each, in place of the downstream keys [d1] and
    [d2] of the path [tag].  Evicting one of them finds its downstream key on the
    path [tag]; evicting both of them at once finds neither: it goes along the
    upstream path, with the upstream keys, and the path [tag] is not evicted from. *)
Theorem remapped_batch_eviction_lost ps node index up_tag up seg target target_index tag down (k1 k2 d1 d2 : KeyComparison V) :
  same_key k1 k2 = false →
  by_tag ps = [(up_tag, up); (tag, down)] → up_tag ≠ tag → rp_source up = Some node → rp_source down ≠ Some node →
  rp_trigger up = TriggerLocal index → last (rp_path up) = Some seg → target_node up = Some target →
  rp_target_index up = Some target_index →
  let miss k := {| cm_node := target; cm_column_indices := columns target_index; cm_missed_keys := [k] |} in
  let r := remapped_insert (remapped_insert [] (seg_node seg) (miss k1) d1 tag) (seg_node seg) (miss k2) d2 tag in
  let evicted keys := fst <$> downstream_dependent_paths ps node index keys r in
  evicted [k1] = Ok [(tag, down, [d1])] ∧ evicted [k2] = Ok [(tag, down, [d2])] ∧
  evicted [k1; k2] = Ok [(up_tag, up, [k1; k2])].
Proof.
  intros Hne Hps Htags Hup Hdown Htrig Hseg Htarget Hti miss r evicted. apply same_key_false in Hne. simpl in Hne.
  assert (∀ a b : KeyComparison V, same_key [a] [b] = bool_decide (kc_hashed a = kc_hashed b)) as Hsingle.
  { intros a b. unfold same_key. simpl. apply bool_decide_ext. split; congruence. }
  assert (∀ a b c : KeyComparison V, same_key [a] [b; c] = false) as Hlong.
  { intros a b c. apply same_key_false. simpl. congruence. }
  assert (∀ keys ds, remapped_get r (seg_node seg) target (columns target_index) keys = ds →
    evicted keys = match ds with
                   | Some ds => result_mapM (λ tk, p ← expect (rp_get ps tk.1); Ok (tk.1, p, tk.2)) ds
                   | None => Ok [(up_tag, up, keys)]
                   end) as Hev.
  { intros keys ds Hds. unfold evicted, downstream_dependent_paths. rewrite Hps. cbn [result_foldl fst snd].
    rewrite (bool_decide_true (rp_source up = Some node)), (bool_decide_false (rp_source down = Some node)) by done.
    unfold dependent_paths. rewrite Htrig, Htarget, Hti. unfold last_segment. rewrite Hseg. cbn [expect mbind result_bind].
    destruct (remapped_remove_get r (seg_node seg) target (columns target_index) keys) as [Hfst _].
    destruct (remapped_remove _ _ _ _ _) as [found r']. cbn [fst] in Hfst. rewrite Hfst, Hds. destruct ds as [ds|].
    - by destruct (result_mapM _ ds).
    - cbn [mbind result_bind fst snd]. by rewrite bool_decide_true. }
  assert (∀ ks, result_mapM (λ tk : nat * list (KeyComparison V), p ← expect (rp_get ps tk.1); Ok (tk.1, p, tk.2)) [(tag, ks)] =
    Ok [(tag, down, ks)]) as Hmap.
  { intros ks. cbn [result_mapM fst snd]. unfold rp_get. rewrite Hps, !bm_get_cons, decide_False, decide_True by congruence. done. }
  split_and!; (erewrite Hev; [|unfold r; rewrite !remapped_get_insert; cbn [cm_node cm_column_indices cm_missed_keys miss];
    unfold same_place; rewrite !same_key_refl, ?Hlong, ?Hsingle; cbn [andb];
    rewrite ?(bool_decide_false (kc_hashed k2 = kc_hashed k1)), ?(bool_decide_false (kc_hashed k1 = kc_hashed k2)),
      ?bool_decide_true by congruence; reflexivity]).
  - exact (Hmap [d1]).
  - exact (Hmap [d2]).
  - done.
Qed.
End remapped_lemmas.

(** ** A path from node 0 to an ordered index of node 1 *)
Definition sample_btree : Index := {| index_type := IxBTreeMap; columns := [0; 2] |}.
Definition sample_spec : ReplayPathSpec :=
  {| rs_tag := 7; rs_source := Some 0; rs_source_index := None;
     rs_path := [{| seg_node := 1; seg_force_tag_to := None; seg_partial_index := Some sample_btree; seg_is_target := true |}];
     rs_partial_unicast_sharder := None; rs_notify_done := false; rs_trigger := TriggerLocal sample_btree |}.

Lemma replay_paths_insert_resolves_witness :
  ∃ ps', replay_paths_insert replay_paths_default sample_spec = Ok ps' ∧
    (∃ p, rp_get ps' 7 = Some p) ∧ tags_for_index ps' 1 1 {| index_type := IxHashMap; columns := [0; 2] |} = Some [7].
Proof.
  eexists. split; [reflexivity|].
  destruct (replay_paths_insert_resolves replay_paths_default sample_spec _ (SSorted_nil _) eq_refl) as [(p & Hp & _ & _ & Hix) _].
  split; [by exists p|].
  destruct (Hix eq_refl) as (seg & target & ix & Hseg & Htgt & Hti & Htags & Hpoint & _).
  injection Hseg as <-. vm_compute in Hp. injection Hp as <-. vm_compute in Htgt. injection Htgt as <-.
  vm_compute in Hti. injection Hti as <-.
  pose proof (Hpoint {| index_type := IxHashMap; columns := [0; 2] |} eq_refl eq_refl) as Hres.
  rewrite Htags in Hres. exact Hres.
Defined.

(** Node 3 makes its column from column 1 of node 1, which path 8 fills from node 0;
    path 9 fills a reader from node 3. *)
Definition generated_up : ReplayPath :=
  {| rp_source := Some 0; rp_target_index := Some {| index_type := IxHashMap; columns := [1] |};
     rp_path := [{| seg_node := 1; seg_force_tag_to := None;
                    seg_partial_index := Some {| index_type := IxHashMap; columns := [1] |}; seg_is_target := true |};
                 {| seg_node := 3; seg_force_tag_to := None; seg_partial_index := None; seg_is_target := false |}];
     rp_notify_done := false; rp_partial_unicast_sharder := None;
     rp_trigger := TriggerLocal {| index_type := IxHashMap; columns := [0] |} |}.
Definition generated_down : ReplayPath :=
  {| rp_source := Some 3; rp_target_index := Some {| index_type := IxHashMap; columns := [0; 1] |}; rp_path := [];
     rp_notify_done := false; rp_partial_unicast_sharder := None; rp_trigger := TriggerNone |}.

Lemma remapped_batch_eviction_lost_witness :
  let ps := {| by_tag := [(8, generated_up); (9, generated_down)]; by_dst := []; generated_columns := [] |} in
  let miss k := {| cm_node := 1; cm_column_indices := [1]; cm_missed_keys := [KEqual [SInt k]] |} in
  let r := remapped_insert (remapped_insert [] 3 (miss 5%Z) (KEqual [SInt 5; SInt 6]) 9) 3 (miss 7%Z) (KEqual [SInt 7; SInt 8]) 9 in
  let evicted keys := fst <$> downstream_dependent_paths ps 0 {| index_type := IxHashMap; columns := [0] |} keys r in
  evicted [KEqual [SInt 5]] = Ok [(9, generated_down, [KEqual [SInt 5; SInt 6]])] ∧
  evicted [KEqual [SInt 7]] = Ok [(9, generated_down, [KEqual [SInt 7; SInt 8]])] ∧
  evicted [KEqual [SInt 5]; KEqual [SInt 7]] = Ok [(8, generated_up, [KEqual [SInt 5]; KEqual [SInt 7]])].
Proof.
  apply (remapped_batch_eviction_lost
    {| by_tag := [(8, generated_up); (9, generated_down)]; by_dst := []; generated_columns := [] |} 0
    {| index_type := IxHashMap; columns := [0] |} 8 generated_up
    {| seg_node := 3; seg_force_tag_to := None; seg_partial_index := None; seg_is_target := false |} 1
    {| index_type := IxHashMap; columns := [1] |} 9 generated_down (KEqual [SInt 5]) (KEqual [SInt 7])
    (KEqual [SInt 5; SInt 6]) (KEqual [SInt 7; SInt 8])); try reflexivity; discriminate.
Defined.
