(* ===== verification/Domain.v ===== *)
(** * Domain: the replays of a domain

    Models the parts of [Domain] ([readyset-dataflow/src/domain/mod.rs]) that keep
    track of replays: which holes a replay is waiting for and which replays are to be
    redone when a hole is filled ([Waiting], [on_replay_misses], the end of
    [handle_replay]), how missing keys are asked for ([find_tags_and_replay],
    [send_partial_replay_request]), the keys that readers asked for
    ([RequestedKeys]), the pruning of a replay that arrives, the buffering of updates
    during a full replay ([DomainMode], [dispatch], [finish_replay]), and how many
    bytes are evicted from which node ([handle_eviction]). *)
From S2P Require Import Prelude Intervals BTreeMap IntervalTree Result Records Keys KeyedState Batches.
From S2P Require Import Timestamp Effects Payload Hashing ReplayPaths.

(** ** Data *)
Record Redo (V : Type) := {
  rd_tag : nat;
  rd_replay_key : KeyComparison V;
  rd_unishard : bool;
  rd_requesting_shard : nat;
  rd_requesting_replica : nat;
}.
Arguments Build_Redo {V}.
Arguments rd_tag {V}.
Arguments rd_replay_key {V}.
Arguments rd_unishard {V}.
Arguments rd_requesting_shard {V}.
Arguments rd_requesting_replica {V}.

Record Hole (V : Type) := { h_node : nat; h_column_indices : list nat; h_key : KeyComparison V }.
Arguments Build_Hole {V}.
Arguments h_node {V}.
Arguments h_column_indices {V}.
Arguments h_key {V}.

(** Derived [==], which compares the keys by theirs. *)
#[export] Instance redo_hashed `{DfVal V} : Hashed (Redo V) :=
  {| canonical := nat * (list V + BoundPair (list V)) * bool * nat * nat;
     canon := λ r, (rd_tag r, kc_hashed (rd_replay_key r), rd_unishard r, rd_requesting_shard r, rd_requesting_replica r) |}.
#[export] Instance hole_hashed `{DfVal V} : Hashed (Hole V) :=
  {| canonical := nat * list nat * (list V + BoundPair (list V));
     canon := λ h, (h_node h, h_column_indices h, kc_hashed (h_key h)) |}.

Record Waiting (V : Type) := { w_holes : list (Redo V * nat); w_redos : list (Hole V * list (Redo V)) }.
Arguments Build_Waiting {V}.
Arguments w_holes {V}.
Arguments w_redos {V}.
Definition waiting_default {V} : Waiting V := {| w_holes := []; w_redos := [] |}.

Inductive RequestedKeys (V : Type) :=
  | ReqPoints (requested : list (list V))
  | ReqRanges (requested : IntervalTreeSet (list V)).
Arguments ReqPoints {V}.
Arguments ReqRanges {V}.

Inductive DomainMode (V : Type) :=
  | Forwarding
  | Replaying (to : nat) (buffered : list (Packet V)) (passes : nat).
Arguments Forwarding {V}.
Arguments Replaying {V}.

Record TimedPurge (V : Type) := { tp_time : Z; tp_view : nat; tp_keys : list (KeyComparison V) }.
Arguments tp_time {V}.
Arguments tp_view {V}.
Arguments tp_keys {V}.

(** The fields of [Domain], without its metrics.  [d_env] is what nodes work on (the
    nodes, their state, and the readers), of any type [E] here.  [d_sent] is what was
    sent on the channels of the trigger endpoints: the tag of the path, the position
    of the channel and the packet. *)
Record Domain (V E : Type) := {
  d_shard : option nat;
  d_replica : nat;
  d_mode : DomainMode V;
  d_waiting : gmap nat (Waiting V);
  d_reader_triggered : gmap nat (RequestedKeys V);
  d_remapped_keys : RemappedKeys V;
  d_replay_paths : ReplayPaths;
  d_not_ready : gset nat;
  d_delayed_for_self : list (Packet V);
  d_replay_completed : bool;
  d_sent : list (nat * nat * Packet V);
  d_timed_purges : list (TimedPurge V);
  d_ingress_inject : gmap nat (nat * list V);
  d_env : E;
}.
Arguments d_shard {V E}.
Arguments d_replica {V E}.
Arguments d_mode {V E}.
Arguments d_waiting {V E}.
Arguments d_reader_triggered {V E}.
Arguments d_remapped_keys {V E}.
Arguments d_replay_paths {V E}.
Arguments d_not_ready {V E}.
Arguments d_delayed_for_self {V E}.
Arguments d_replay_completed {V E}.
Arguments d_sent {V E}.
Arguments d_timed_purges {V E}.
Arguments d_ingress_inject {V E}.
Arguments d_env {V E}.

(** Assignments to a field. *)
Section setters.
Context {V E : Type}.
Implicit Types d : Domain V E.
Definition set_mode (x : DomainMode V) d : Domain V E :=
  {| d_shard := d_shard d; d_replica := d_replica d; d_mode := x; d_waiting := d_waiting d;
     d_reader_triggered := d_reader_triggered d; d_remapped_keys := d_remapped_keys d;
     d_replay_paths := d_replay_paths d; d_not_ready := d_not_ready d;
     d_delayed_for_self := d_delayed_for_self d; d_replay_completed := d_replay_completed d;
     d_sent := d_sent d; d_timed_purges := d_timed_purges d; d_ingress_inject := d_ingress_inject d;
     d_env := d_env d |}.
Definition set_waiting (x : gmap nat (Waiting V)) d : Domain V E :=
  {| d_shard := d_shard d; d_replica := d_replica d; d_mode := d_mode d; d_waiting := x;
     d_reader_triggered := d_reader_triggered d; d_remapped_keys := d_remapped_keys d;
     d_replay_paths := d_replay_paths d; d_not_ready := d_not_ready d;
     d_delayed_for_self := d_delayed_for_self d; d_replay_completed := d_replay_completed d;
     d_sent := d_sent d; d_timed_purges := d_timed_purges d; d_ingress_inject := d_ingress_inject d;
     d_env := d_env d |}.
Definition set_reader_triggered (x : gmap nat (RequestedKeys V)) d : Domain V E :=
  {| d_shard := d_shard d; d_replica := d_replica d; d_mode := d_mode d; d_waiting := d_waiting d;
     d_reader_triggered := x; d_remapped_keys := d_remapped_keys d; d_replay_paths := d_replay_paths d;
     d_not_ready := d_not_ready d; d_delayed_for_self := d_delayed_for_self d;
     d_replay_completed := d_replay_completed d; d_sent := d_sent d; d_timed_purges := d_timed_purges d;
     d_ingress_inject := d_ingress_inject d; d_env := d_env d |}.
Definition set_remapped_keys (x : RemappedKeys V) d : Domain V E :=
  {| d_shard := d_shard d; d_replica := d_replica d; d_mode := d_mode d; d_waiting := d_waiting d;
     d_reader_triggered := d_reader_triggered d; d_remapped_keys := x; d_replay_paths := d_replay_paths d;
     d_not_ready := d_not_ready d; d_delayed_for_self := d_delayed_for_self d;
     d_replay_completed := d_replay_completed d; d_sent := d_sent d; d_timed_purges := d_timed_purges d;
     d_ingress_inject := d_ingress_inject d; d_env := d_env d |}.
Definition set_not_ready (x : gset nat) d : Domain V E :=
  {| d_shard := d_shard d; d_replica := d_replica d; d_mode := d_mode d; d_waiting := d_waiting d;
     d_reader_triggered := d_reader_triggered d; d_remapped_keys := d_remapped_keys d;
     d_replay_paths := d_replay_paths d; d_not_ready := x; d_delayed_for_self := d_delayed_for_self d;
     d_replay_completed := d_replay_completed d; d_sent := d_sent d; d_timed_purges := d_timed_purges d;
     d_ingress_inject := d_ingress_inject d; d_env := d_env d |}.
Definition set_delayed_for_self (x : list (Packet V)) d : Domain V E :=
  {| d_shard := d_shard d; d_replica := d_replica d; d_mode := d_mode d; d_waiting := d_waiting d;
     d_reader_triggered := d_reader_triggered d; d_remapped_keys := d_remapped_keys d;
     d_replay_paths := d_replay_paths d; d_not_ready := d_not_ready d; d_delayed_for_self := x;
     d_replay_completed := d_replay_completed d; d_sent := d_sent d; d_timed_purges := d_timed_purges d;
     d_ingress_inject := d_ingress_inject d; d_env := d_env d |}.
Definition set_replay_completed (x : bool) d : Domain V E :=
  {| d_shard := d_shard d; d_replica := d_replica d; d_mode := d_mode d; d_waiting := d_waiting d;
     d_reader_triggered := d_reader_triggered d; d_remapped_keys := d_remapped_keys d;
     d_replay_paths := d_replay_paths d; d_not_ready := d_not_ready d;
     d_delayed_for_self := d_delayed_for_self d; d_replay_completed := x; d_sent := d_sent d;
     d_timed_purges := d_timed_purges d; d_ingress_inject := d_ingress_inject d; d_env := d_env d |}.
Definition set_sent (x : list (nat * nat * Packet V)) d : Domain V E :=
  {| d_shard := d_shard d; d_replica := d_replica d; d_mode := d_mode d; d_waiting := d_waiting d;
     d_reader_triggered := d_reader_triggered d; d_remapped_keys := d_remapped_keys d;
     d_replay_paths := d_replay_paths d; d_not_ready := d_not_ready d;
     d_delayed_for_self := d_delayed_for_self d; d_replay_completed := d_replay_completed d; d_sent := x;
     d_timed_purges := d_timed_purges d; d_ingress_inject := d_ingress_inject d; d_env := d_env d |}.
Definition set_timed_purges (x : list (TimedPurge V)) d : Domain V E :=
  {| d_shard := d_shard d; d_replica := d_replica d; d_mode := d_mode d; d_waiting := d_waiting d;
     d_reader_triggered := d_reader_triggered d; d_remapped_keys := d_remapped_keys d;
     d_replay_paths := d_replay_paths d; d_not_ready := d_not_ready d;
     d_delayed_for_self := d_delayed_for_self d; d_replay_completed := d_replay_completed d;
     d_sent := d_sent d; d_timed_purges := x; d_ingress_inject := d_ingress_inject d; d_env := d_env d |}.
Definition set_env (x : E) d : Domain V E :=
  {| d_shard := d_shard d; d_replica := d_replica d; d_mode := d_mode d; d_waiting := d_waiting d;
     d_reader_triggered := d_reader_triggered d; d_remapped_keys := d_remapped_keys d;
     d_replay_paths := d_replay_paths d; d_not_ready := d_not_ready d;
     d_delayed_for_self := d_delayed_for_self d; d_replay_completed := d_replay_completed d;
     d_sent := d_sent d; d_timed_purges := d_timed_purges d; d_ingress_inject := d_ingress_inject d;
     d_env := x |}.
Definition push_delayed (p : Packet V) d : Domain V E := set_delayed_for_self (d_delayed_for_self d ++ [p]) d.
Definition domain_shard d : nat := default 0 (d_shard d).
End setters.

Section domain.
Context `{DfVal V} {E : Type}.
#[local] Abbreviation Key := (KeyComparison V).
Implicit Types (d : Domain V E) (w : Waiting V) (keys : list Key) (m : Packet V).

(** ** Keys that readers asked for *)
Definition requested_new (t : IndexType) : RequestedKeys V :=
  match t with IxHashMap => ReqPoints [] | IxBTreeMap => ReqRanges [] end.
Definition requested_is_empty (s : RequestedKeys V) : bool :=
  match s with ReqPoints l => match l with [] => true | _ => false end
             | ReqRanges t => match t with [] => true | _ => false end end.

(** [extend]: the set, and the keys or subranges that were not in it. *)
Definition extend_point (acc : list (list V) * list Key) (key : Key) : result (list (list V) * list Key) :=
  k ← expect (kc_equal key);
  Ok (if bool_decide (k ∈ acc.1) then acc else (acc.1 ++ [k], acc.2 ++ [key])).
Definition extend_range (acc : IntervalTreeSet (list V) * list Key) (key : Key) :
    result (IntervalTreeSet (list V) * list Key) :=
  diff ← expect (get_interval_difference acc.1 (bounds key));
  t ← expect (insert_interval acc.1 (bounds key));
  Ok (t, acc.2 ++ (from_range <$> diff)).
Definition requested_extend (s : RequestedKeys V) keys : result (RequestedKeys V * list Key) :=
  match s with
  | ReqPoints l => '(l, ks) ← result_foldl extend_point (l, []) keys; Ok (ReqPoints l, ks)
  | ReqRanges t => '(t, ks) ← result_foldl extend_range (t, []) keys; Ok (ReqRanges t, ks)
  end.
Definition requested_filter_keys (s : RequestedKeys V) keys : result (list Key) :=
  match s with
  | ReqPoints l => retainM (λ key : Key, k ← expect (kc_equal key); Ok (bool_decide (k ∈ l))) keys
  | ReqRanges t =>
      parts ← result_mapM (λ key : Key, ov ← expect (get_interval_overlaps t (bounds key)); Ok (from_range <$> (ov : list _))) keys;
      Ok (foldl (as_insert (K:=Key)) [] (concat parts))
  end.
Definition requested_remove (s : RequestedKeys V) (key : Key) : result (RequestedKeys V) :=
  match s with
  | ReqPoints l => k ← expect (kc_equal key); Ok (ReqPoints (filter (λ k', k' ≠ k) l))
  | ReqRanges t => t ← expect (remove_interval t (bounds key)); Ok (ReqRanges t)
  end.

(** ** Asking for replays *)
(** [send_partial_replay_request]; [shard_hash] is the hash of [shard_by]. *)
Definition request_packet d (tag : nat) keys (unishard : bool) : Packet V :=
  PRequestPartialReplay tag keys unishard (domain_shard d) (d_replica d).
Definition send_to (tag i : nat) (p : Packet V) d : Domain V E := set_sent (d_sent d ++ [(tag, i, p)]) d.
Definition keys_by_shard (shard_hash : V → option N) (key_i n : nat) keys : result (list (nat * list Key)) :=
  result_foldl (λ acc key,
    shards ← shard_keys_at shard_hash key key_i n;
    Ok (foldl (λ acc s, am_update (λ ks, default [] ks ++ [key]) acc s) acc shards)) [] keys.
Definition send_partial_replay_request (shard_hash : V → option N) (tag : nat) keys : eff (Domain V E) () :=
  d ← get;
  path ← lift (expect (rp_get (d_replay_paths d) tag));
  match rp_trigger path with
  | TriggerEnd source options =>
      let ask_shard_by_key_i := match source with KeyShard i _ => Some i | _ => None end in
      match ask_shard_by_key_i with
      | None =>
          if options =? 1 then modify (send_to tag 0 (request_packet d tag keys true))
          else eff_iter (λ i, modify (send_to tag i (request_packet d tag keys false))) (seq 0 options)
      | Some key_i =>
          if options =? 1 then modify (send_to tag 0 (request_packet d tag keys true))
          else
            shards ← lift (keys_by_shard shard_hash key_i options keys);
            eff_iter (λ sk : nat * list Key,
              if sk.1 <? options then modify (send_to tag sk.1 (request_packet d tag sk.2 true)) else lift Panic) shards
      end
  | _ => fail Internal
  end.

Definition find_tags_and_replay (shard_hash : V → option N) keys (miss_columns : list nat) (dst target : nat) :
    eff (Domain V E) () :=
  d ← get;
  let miss_index := {| index_type := best_for_keys keys; columns := miss_columns |} in
  match default [] (tags_for_index (d_replay_paths d) dst target miss_index) with
  | [] => fail Internal
  | tags =>
      eff_iter (λ tag,
        d ← get;
        path ← lift (expect (rp_get (d_replay_paths d) tag));
        if trigger_is_local (rp_trigger path) then modify (push_delayed (request_packet d tag keys true))
        else send_partial_replay_request shard_hash tag keys) tags
  end.

(** ** Holes and redos *)
(** A redo starts waiting for a hole; [true] if the hole has to be asked for. *)
Definition await_hole w (redo : Redo V) (hole : Hole V) : Waiting V * bool :=
  let holes := am_update (λ n, default 0 n + 1) (w_holes w) redo in
  match am_get (w_redos w) hole with
  | Some set =>
      if as_mem set redo then (w, false)
      else ({| w_holes := holes; w_redos := am_update (λ o, as_insert (default [] o) redo) (w_redos w) hole |}, false)
  | None => ({| w_holes := holes; w_redos := am_update (λ _, [redo]) (w_redos w) hole |}, true)
  end.

(** The keys that have to be asked for, by the node and the columns they miss in. *)
Definition Needed : Type := list ((nat * list nat) * list Key).
Definition await_column_miss (redo : Redo V) (acc : Waiting V * Needed) (miss : ColumnMiss V) : Waiting V * Needed :=
  let place := (cm_node miss, cm_column_indices miss) in
  foldl (λ acc k,
    let '(w, ask) := await_hole acc.1 redo {| h_node := cm_node miss; h_column_indices := cm_column_indices miss; h_key := k |} in
    (w, if (ask : bool) then am_update (λ ks, default [] ks ++ [k]) acc.2 place else acc.2))
    (acc.1, am_update (default []) acc.2 place) (cm_missed_keys miss).

(** [handle_upquery] of the node that missed, and whether a node has partial state. *)
Definition upstream_misses (handle_upquery : ColumnMiss V → result (list (ColumnMiss V))) (is_partial : nat → bool)
    (is_generated : bool) (needed_for : nat) (replay_key : Key) (miss : ColumnMiss V) : eff (Domain V E) (list (ColumnMiss V)) :=
  if is_generated then
    misses ← lift (handle_upquery miss);
    _ ← eff_iter (λ u, if is_partial (cm_node u)
                       then modify (λ d, set_remapped_keys (remapped_insert (d_remapped_keys d) (cm_node miss) u replay_key needed_for) d)
                       else mret ()) misses;
    match misses with [] => fail Internal | _ => mret misses end
  else mret [miss].

Definition on_replay_misses (shard_hash : V → option N) (handle_upquery : ColumnMiss V → result (list (ColumnMiss V)))
    (is_partial : nat → bool) (miss_in : nat) (miss_columns : list nat) (missed_keys : list (Key * Key))
    (was_single_shard : bool) (requesting_shard requesting_replica needed_for : nat) : eff (Domain V E) () :=
  d ← get;
  let w := default waiting_default (d_waiting d !! miss_in) in
  _ ← modify (set_waiting (delete miss_in (d_waiting d)));
  let is_generated := columns_are_generated (d_replay_paths d) miss_in miss_columns in
  '(w, needed) ← eff_foldl (λ acc rm,
      _ ← lift match miss_columns with [] => Panic | _ => Ok () end;
      misses ← upstream_misses handle_upquery is_partial is_generated needed_for rm.1
                 {| cm_node := miss_in; cm_column_indices := miss_columns; cm_missed_keys := [rm.2] |};
      let redo := {| rd_tag := needed_for; rd_replay_key := rm.1; rd_unishard := was_single_shard;
                     rd_requesting_shard := requesting_shard; rd_requesting_replica := requesting_replica |} in
      mret (foldl (await_column_miss redo) acc misses)) (w, []) missed_keys;
  _ ← modify (λ d, set_waiting (<[miss_in := w]> (d_waiting d)) d);
  eff_iter (λ pk : (nat * list nat) * list Key,
    find_tags_and_replay shard_hash pk.2 pk.1.2 miss_in pk.1.1) needed.

(** A hole is filled: the redos that were waiting for it last.  A count of zero
    underflows. *)
Definition redo_filled (acc : list (Redo V * nat) * list (Redo V)) (redo : Redo V) :
    result (list (Redo V * nat) * list (Redo V)) :=
  remaining ← expect (am_get acc.1 redo);
  match remaining with
  | 0 => Panic
  | 1 => Ok (am_remove acc.1 redo, acc.2 ++ [redo])
  | S n => Ok (am_update (λ _, n) acc.1 redo, acc.2)
  end.
Definition fill_hole w (hole : Hole V) : result (Waiting V * list (Redo V)) :=
  match am_get (w_redos w) hole with
  | None => Err Internal
  | Some set =>
      '(holes, ready) ← result_foldl redo_filled (w_holes w, []) set;
      Ok ({| w_holes := holes; w_redos := am_remove (w_redos w) hole |}, ready)
  end.

(** Redos that can be asked for together. *)
Definition group_redo (sets : list ((nat * bool * nat * nat) * list Key)) (r : Redo V) :
    list ((nat * bool * nat * nat) * list Key) :=
  am_update (λ ks, default [] ks ++ [rd_replay_key r]) sets
    (rd_tag r, rd_unishard r, rd_requesting_shard r, rd_requesting_replica r).

Definition group_packet (s : (nat * bool * nat * nat) * list Key) : Packet V :=
  let '(tag, unishard, shard, replica) := s.1 in PRequestPartialReplay tag s.2 unishard shard replica.

(** One key of the replay: the hole it fills, and the redos that it releases. *)
Definition hole_at (target : nat) (cols : list nat) (k : Key) : Hole V :=
  {| h_node := target; h_column_indices := cols; h_key := k |}.
Definition fill_keys (target : nat) (cols : list nat) (acc : Waiting V * list ((nat * bool * nat * nat) * list Key)) (k : Key) :
    result (Waiting V * list ((nat * bool * nat * nat) * list Key)) :=
  '(w, ready) ← fill_hole acc.1 (hole_at target cols k); Ok (w, foldl group_redo acc.2 ready).

(** The end of [handle_replay], when a replay has reached its destination. *)
Definition finish_waiting (tag dst target : nat) (for_keys : option (list Key)) : eff (Domain V E) () :=
  d ← get;
  match d_waiting d !! dst with
  | Some w =>
      _ ← modify (set_waiting (delete dst (d_waiting d)));
      path ← lift (expect (rp_get (d_replay_paths d) tag));
      key_index ← lift (expect (rp_target_index path));
      keys ← lift (expect for_keys);
      '(w, sets) ← lift (result_foldl (fill_keys target (columns key_index)) (w, []) keys);
      _ ← eff_iter (λ s, modify (push_delayed (group_packet s))) sets;
      match w_holes w, w_redos w with
      | [], [] => mret ()
      | _ :: _, _ :: _ => modify (λ d, set_waiting (<[dst := w]> (d_waiting d)) d)
      | _, _ => lift Panic
      end
  | None =>
      match for_keys with
      | Some _ => fail Internal
      | None =>
          _ ← modify (set_not_ready (d_not_ready d ∖ {[dst]}));
          modify (push_delayed (PFinish tag dst))
      end
  end.

(** ** A replay arrives *)
(** The part of [handle_replay] that drops the keys nobody waits for and their
    records; [None] if no key is left. *)
Definition awaited d (dst target : nat) (cols : list nat) keys : list Key :=
  match d_waiting d !! dst with
  | Some w =>
      filter (λ k, match am_get (w_redos w) (hole_at target cols k) with
                   | Some _ => true | None => false end = true) keys
  | None => keys
  end.
Definition requested_of d (dst : nat) keys : result (list Key) :=
  match d_reader_triggered d !! dst with
  | Some prev => if requested_is_empty prev then Ok keys else requested_filter_keys prev keys
  | None => Ok keys
  end.
Definition prune_replay d (path : ReplayPath) (data : list (Record V)) keys :
    result (option (list (Record V) * list Key)) :=
  seg ← last_segment path;
  target ← expect (target_node path);
  partial_index ← expect (seg_partial_index seg);
  let for_keys := awaited d (seg_node seg) target (columns partial_index) keys in
  for_keys ← requested_of d (seg_node seg) for_keys;
  match for_keys with
  | [] => Ok None
  | _ =>
      if length for_keys =? length keys then Ok (Some (data, for_keys))
      else
        first ← expect (head (rp_path path));
        ix ← expect (seg_partial_index first);
        data ← retainM (λ r : Record V,
                 anyM (λ k, row ← result_mapM (λ c, expect (rec r !! c)) (columns ix); Ok (kc_contains k row)) for_keys) data;
        Ok (Some (data, for_keys))
  end.

(** ** Full replays *)
(** [dispatch], up to the processing of the packet: whether it is to be processed.  It
    is buffered if its node is being replayed to, and dropped if the node is not ready. *)
Definition dispatch_gate (has_node : nat → bool) m : eff (Domain V E) bool :=
  _ ← lift (packet_src m);
  me ← lift (packet_dst m);
  if negb (has_node me) then mret false
  else
    d ← get;
    let ready := negb (bool_decide (me ∈ d_not_ready d)) in
    match d_mode d with
    | Replaying to buffered passes =>
        if to =? me then _ ← modify (set_mode (Replaying to (buffered ++ [m]) passes)); mret false else mret ready
    | Forwarding => mret ready
    end.

(** The loop of [finish_replay] over the backlog; what is left of it. *)
Fixpoint drain_backlog (dispatch : Packet V → eff (Domain V E) ()) (handle handled : nat) (buffered : list (Packet V)) :
    eff (Domain V E) (list (Packet V)) :=
  match buffered with
  | [] => mret []
  | m :: rest =>
      _ ← match m with
          | PMessage _ _ _ => _ ← modify (set_mode Forwarding); dispatch m
          | _ => fail Internal
          end;
      if S handled =? handle then mret rest else drain_backlog dispatch handle (S handled) rest
  end.
Definition backlog_share (n : nat) : nat := if 100 <? n then n / 2 else n.
Definition finish_replay (dispatch : Packet V → eff (Domain V E) ()) (tag node : nat) : eff (Domain V E) () :=
  d ← get;
  _ ← modify (set_mode Forwarding);
  match d_mode d with
  | Replaying to buffered passes =>
      if negb (to =? node) then fail Internal
      else
        rest ← drain_backlog dispatch (backlog_share (length buffered)) 0 buffered;
        _ ← modify (set_mode (Replaying to rest (passes + 1)));
        match rest with
        | [] =>
            _ ← modify (set_mode Forwarding);
            d ← get;
            path ← lift (expect (rp_get (d_replay_paths d) tag));
            if rp_notify_done path then modify (set_replay_completed true) else fail Internal
        | _ => modify (push_delayed (PFinish tag node))
        end
  | Forwarding => fail Internal
  end.
(** [handle_replay] starts buffering at the first piece of a full replay. *)
Definition start_buffering (path : ReplayPath) : eff (Domain V E) () :=
  d ← get;
  match d_mode d with
  | Forwarding =>
      if rp_notify_done path then
        seg ← lift (last_segment path); modify (set_mode (Replaying (seg_node seg) [] 0))
      else mret ()
  | Replaying _ _ _ => mret ()
  end.
End domain.

(** ** How much is evicted from which node *)
(** Arithmetic on [usize] and [i64], which wraps around. *)
Definition wrap_usize (z : Z) : Z := z mod 2 ^ 64.
Definition wrap_i64 (z : Z) : Z := (z + 2 ^ 63) mod 2 ^ 64 - 2 ^ 63.
(** The sort key [-(s as i64)]. *)
Definition size_key (s : nat) : Z := wrap_i64 (- wrap_i64 (Z.of_nat s)).
(** The nodes to evict from: at most the three largest, and none smaller than a tenth
    of the largest. *)
Definition eviction_candidates (sizes : list (nat * nat)) : list (nat * nat) :=
  let largest := take 3 (sort_by (λ a b, Z.compare (size_key a.2) (size_key b.2)) (filter (λ ns, 0 < ns.2) sizes)) in
  match largest with
  | [] => []
  | first :: _ =>
      match list_find (λ ns : nat * nat, ns.2 < first.2 / 10) largest with
      | Some (i, _) => take i largest
      | None => largest
      end
  end.
(** [(num_bytes + n - 1) / n]. *)
Definition eviction_share (num_bytes n : nat) : nat :=
  Z.to_nat (wrap_usize (wrap_usize (Z.of_nat num_bytes + Z.of_nat n) - 1) / Z.of_nat n).
(** The loop over the candidates, smallest first: how many bytes of each. *)
Fixpoint eviction_shares (num_bytes : nat) (candidates : list (nat * nat)) : result (list (nat * nat)) :=
  match candidates with
  | [] => Ok []
  | (node, size) :: rest =>
      let n := length candidates in
      let share := eviction_share num_bytes n in
      size ← (if 1 <? n then Ok (Nat.min (size / 2) share)
              else if share =? num_bytes then Ok share else Panic);
      if size <=? num_bytes then shares ← eviction_shares (num_bytes - size) rest; Ok ((node, size) :: shares) else Panic
  end.
Definition eviction_nodes (node : option nat) (num_bytes : nat) (sizes : list (nat * nat)) : result (list (nat * nat)) :=
  match node with
  | Some node => Ok [(node, num_bytes)]
  | None => shares ← eviction_shares num_bytes (reverse (eviction_candidates sizes)); Ok (reverse shares)
  end.
