(* ===== verification/WaitingProps.v ===== *)
(** * WaitingProps: every replay that missed is redone exactly once

    The bookkeeping of a domain about replays that missed: a count per redo of the
    holes it waits for, and per hole the redos that wait for it.  The invariant
    [waiting_ok] ties the two together; the effect of the operations is stated with
    the relation [waits].  A hole is asked for when the first redo waits for it
    ([replay_misses_asked_once]); a redo is asked for again exactly once, when its
    last hole is filled ([redo_asked_again_once]). *)
From S2P Require Import Prelude Intervals BTreeMap IntervalTree Result Records Keys KeyedState Batches.
From S2P Require Import Timestamp Effects Payload Hashing ReplayPaths Domain.

(** ** Counting entries of a hash map *)
Section counting.
Context `{Hashed K} {A : Type} (P : A → bool).
Implicit Types (m : list (K * A)) (k : K).

Definition entries_with m : nat := length (filter (λ ka, P ka.2 = true) m).
Definition value_is (o : option A) : nat := match o with Some a => if P a then 1 else 0 | None => 0 end.

Lemma entries_with_cons k a m : entries_with ((k, a) :: m) = value_is (Some a) + entries_with m.
Proof. unfold entries_with. rewrite filter_cons. simpl. destruct (P a); by case_decide. Qed.

Lemma entries_with_update f m k :
  entries_with (am_update f m k) + value_is (am_get m k) = entries_with m + value_is (Some (f (am_get m k))).
Proof.
  induction m as [|[k' a] m IH].
  - change (am_update f [] k) with [(k, f None)]. change (am_get [] k) with (@None A). rewrite entries_with_cons.
    change (entries_with []) with 0. cbn [value_is]. lia.
  - cbn [am_update am_get]. destruct (same_key k' k); rewrite !entries_with_cons; lia.
Qed.

Lemma entries_with_remove m k :
  am_wf m → entries_with (am_remove m k) + value_is (am_get m k) = entries_with m.
Proof.
  induction m as [|[k' a] m IH]; intros Hwf; [done|]. apply am_wf_cons in Hwf as [Hn Hwf].
  unfold am_remove. rewrite filter_cons. cbn [fst am_get]. rewrite entries_with_cons.
  destruct (decide (same_key k' k = false)) as [E|E].
  - rewrite E, entries_with_cons. specialize (IH Hwf). unfold am_remove in IH. lia.
  - apply not_false_is_true in E. rewrite E. specialize (IH Hwf). unfold am_remove in IH.
    rewrite (am_get_same m _ _ E) in Hn. rewrite Hn in IH. simpl in *. lia.
Qed.

Lemma entries_with_zero m : am_wf m → entries_with m = 0 ↔ ∀ k, value_is (am_get m k) = 0.
Proof.
  induction m as [|[k' a] m IH]; intros Hwf; [by split|]. apply am_wf_cons in Hwf as [Hn Hwf].
  rewrite entries_with_cons. cbn [am_get]. split.
  - intros Hz k. destruct (same_key k' k); [lia|]. apply IH; [done|lia].
  - intros Hz. pose proof (Hz k') as Ha. rewrite same_key_refl in Ha. rewrite Ha. apply IH; [done|]. intros k.
    specialize (Hz k). destruct (same_key k' k) eqn:E; [|done]. by rewrite <-(am_get_same m _ _ E), Hn.
Qed.
End counting.

Section waiting.
Context `{DfVal V} {En : Type}.
#[local] Abbreviation Key := (KeyComparison V).
Implicit Types (w : Waiting V) (r redo : Redo V) (h hole : Hole V) (keys : list Key).

(** ** The relation and the invariant *)
Definition waits w h r : bool := match am_get (w_redos w) h with Some set => as_mem set r | None => false end.
Definition outstanding w h : bool := match am_get (w_redos w) h with Some _ => true | None => false end.
Definition hole_count w r : nat := entries_with (λ set, as_mem set r) (w_redos w).

Record waiting_ok w : Prop := {
  wo_redos : am_wf (w_redos w);
  wo_holes : am_wf (w_holes w);
  wo_sets : ∀ h set, am_get (w_redos w) h = Some set → set ≠ [] ∧ as_wf set;
  wo_count : ∀ r, am_get (w_holes w) r = match hole_count w r with 0 => None | n => Some n end;
}.

Lemma waiting_default_ok : waiting_ok waiting_default.
Proof. split; [apply am_wf_nil|apply am_wf_nil|done|done]. Qed.

Lemma hole_count_zero w r : waiting_ok w → hole_count w r = 0 ↔ ∀ h, waits w h r = false.
Proof.
  intros Hw. unfold hole_count. rewrite entries_with_zero by apply Hw. apply forall_proper. intros h.
  unfold waits, value_is. destruct (am_get (w_redos w) h) as [set|]; [|done]. by destruct (as_mem set r).
Qed.

Lemma outstanding_waits w h : waiting_ok w → outstanding w h = true ↔ ∃ r, waits w h r = true.
Proof.
  intros Hw. unfold outstanding, waits. destruct (am_get (w_redos w) h) as [set|] eqn:E; [|naive_solver].
  split; [|done]. intros _. destruct (wo_sets _ Hw _ _ E) as [Hne _]. destruct set as [|r set]; [done|]. exists r.
  unfold as_mem. cbn [existsb]. by rewrite same_key_refl.
Qed.

Lemma as_mem_redo set r1 r2 : same_key r1 r2 = true → as_mem set r1 = as_mem set r2.
Proof. apply as_mem_same. Qed.
Lemma hole_count_same w r1 r2 : same_key r1 r2 = true → hole_count w r1 = hole_count w r2.
Proof.
  intros Hr. unfold hole_count, entries_with. f_equal. apply filter_ext_elem. intros x _. by rewrite (as_mem_same _ _ _ Hr).
Qed.

(** ** A redo starts waiting *)
Lemma await_hole_ok w redo hole :
  waiting_ok w →
  waiting_ok (await_hole w redo hole).1 ∧ (await_hole w redo hole).2 = negb (outstanding w hole) ∧
  ∀ h r, waits (await_hole w redo hole).1 h r = waits w h r || (same_key hole h && same_key redo r).
Proof.
  intros Hw. unfold await_hole, outstanding.
  assert (∀ f, as_mem (f (am_get (w_redos w) hole)) redo = true → waits w hole redo = false →
    (∀ r, as_mem (f (am_get (w_redos w) hole)) r = waits w hole r || same_key redo r) →
    f (am_get (w_redos w) hole) ≠ [] → as_wf (f (am_get (w_redos w) hole)) →
    let w' := {| w_holes := am_update (λ n, default 0 n + 1) (w_holes w) redo; w_redos := am_update f (w_redos w) hole |} in
    waiting_ok w' ∧ ∀ h r, waits w' h r = waits w h r || (same_key hole h && same_key redo r)) as Hnew.
  { intros f Hin Hno Hmem Hne Hwf w'.
    assert (∀ h r, waits w' h r = waits w h r || (same_key hole h && same_key redo r)) as Hwaits.
    { intros h r. unfold waits at 1. cbn [w' w_redos]. rewrite am_get_update. destruct (same_key hole h) eqn:Eh.
      - rewrite Hmem. unfold waits. by rewrite (am_get_same _ _ _ Eh).
      - by rewrite orb_false_r. }
    split; [|done]. split; cbn [w' w_redos w_holes].
    - apply am_wf_update, Hw.
    - apply am_wf_update, Hw.
    - intros h set. rewrite am_get_update. destruct (same_key hole h); [by intros [= <-]|]. apply Hw.
    - intros r. pose proof (entries_with_update (λ set, as_mem set r) f (w_redos w) hole) as Hc.
      assert (value_is (λ set, as_mem set r) (am_get (w_redos w) hole) = if waits w hole r then 1 else 0) as Hold.
      { unfold waits, value_is. by destruct (am_get (w_redos w) hole). }
      rewrite Hold in Hc. cbn [value_is] in Hc. rewrite Hmem in Hc. rewrite am_get_update.
      change (entries_with (λ set, as_mem set r) (w_redos w)) with (hole_count w r) in Hc.
      change (entries_with (λ set, as_mem set r) (am_update f (w_redos w) hole)) with (hole_count w' r) in Hc.
      destruct (same_key redo r) eqn:Er.
      + assert (waits w hole r = false) as Hr.
        { rewrite <-Hno. unfold waits. destruct (am_get (w_redos w) hole); [|done]. symmetry. by apply as_mem_same. }
        rewrite Hr in Hc. simpl in Hc. assert (hole_count w' r = S (hole_count w r)) as -> by lia.
        rewrite (wo_count _ Hw), (hole_count_same w _ _ Er). destruct (hole_count w r); simpl; f_equal; lia.
      + rewrite orb_false_r in Hc. assert (hole_count w' r = hole_count w r) as -> by lia. apply Hw. }
  destruct (am_get (w_redos w) hole) as [set|] eqn:E.
  - destruct (wo_sets _ Hw _ _ E) as [Hne Hswf]. assert (waits w hole redo = as_mem set redo) as Hws by (unfold waits; by rewrite E).
    destruct (as_mem set redo) eqn:Em.
    + split_and!; [done|done|]. intros h r. destruct (same_key hole h) eqn:Eh; [|by rewrite orb_false_r].
      destruct (same_key redo r) eqn:Er; [|by rewrite orb_false_r]. cbn [fst andb]. rewrite orb_true_r. unfold waits.
      rewrite <-(am_get_same _ _ _ Eh), E. by rewrite <-(as_mem_same _ _ _ Er).
    + destruct (Hnew (λ o, as_insert (default [] o) redo)) as [H1 H2]; cbn [default from_option id].
      * by rewrite as_mem_insert, same_key_refl, orb_true_r.
      * done.
      * intros r. rewrite as_mem_insert. unfold waits. by rewrite E.
      * unfold as_insert. rewrite Em. by destruct set.
      * by apply as_wf_insert.
      * done.
  - destruct (Hnew (λ _, [redo])) as [H1 H2].
    + unfold as_mem. cbn [existsb]. by rewrite same_key_refl.
    + unfold waits. by rewrite E.
    + intros r. unfold waits. rewrite E. unfold as_mem. cbn [existsb]. by rewrite orb_false_r.
    + done.
    + apply NoDup_singleton.
    + done.
Qed.

(** ** A hole is filled *)
Lemma as_wf_cons r set : as_wf (r :: set) ↔ as_mem set r = false ∧ as_wf set.
Proof.
  unfold as_wf. rewrite fmap_cons, NoDup_cons, <-as_mem_true. by rewrite not_true_iff_false.
Qed.

(** The counts after the redos of a set were told. *)
Definition counted (o : option nat) : option nat := match o with Some (S (S n)) => Some (S n) | _ => None end.

Lemma redo_filled_all set holes ready :
  as_wf set → am_wf holes → (∀ r, as_mem set r = true → ∃ n, am_get holes r = Some (S n)) →
  ∃ holes' more, result_foldl redo_filled (holes, ready) set = Ok (holes', ready ++ more) ∧ am_wf holes' ∧
    (∀ r, am_get holes' r = if as_mem set r then counted (am_get holes r) else am_get holes r) ∧
    as_wf more ∧ ∀ r, as_mem more r = as_mem set r && bool_decide (am_get holes r = Some 1).
Proof.
  revert holes ready. induction set as [|r0 set IH]; intros holes ready Hset Hwf Hpos.
  { exists holes, []. rewrite app_nil_r. split_and!; [done|done|done|constructor|done]. }
  apply as_wf_cons in Hset as [Hnew Hset]. cbn [result_foldl].
  destruct (Hpos r0) as [n Hn]; [unfold as_mem; cbn [existsb]; by rewrite same_key_refl|].
  assert (redo_filled (holes, ready) r0 = match n with 0 => Ok (am_remove holes r0, ready ++ [r0])
    | S n' => Ok (am_update (λ _, S n') holes r0, ready) end) as Hstep.
  { unfold redo_filled. cbn [fst snd]. rewrite Hn. by destruct n. }
  rewrite Hstep. clear Hstep.
  assert (∀ r, same_key r0 r = true → as_mem set r = false) as Hsame.
  { intros r Hr. by rewrite <-(as_mem_same _ _ _ Hr). }
  assert (∀ r, as_mem set r = true → same_key r0 r = false) as Hother.
  { intros r Hr. destruct (same_key r0 r) eqn:E; [|done]. rewrite (Hsame _ E) in Hr. done. }
  destruct n as [|n].
  - destruct (IH (am_remove holes r0) (ready ++ [r0])) as (holes' & more & Hf & Hwf' & Hget & Hmwf & Hmore); [done|by apply am_wf_remove| |].
    { intros r Hr. rewrite am_get_remove, (Hother r Hr). apply Hpos. unfold as_mem in *. cbn [existsb]. by rewrite Hr, orb_true_r. }
    exists holes', (r0 :: more). cbn [result_bind mbind]. rewrite Hf, <-app_assoc. split; [done|]. split; [done|].
    assert (∀ r, am_get holes' r = if as_mem (r0 :: set) r then counted (am_get holes r) else am_get holes r) as Hall.
    { intros r. rewrite Hget, am_get_remove. unfold as_mem. cbn [existsb]. fold (as_mem set r).
      destruct (same_key r0 r) eqn:E; [|done]. rewrite (Hsame _ E). cbn [orb]. by rewrite <-(am_get_same _ _ _ E), Hn. }
    split; [done|]. split.
    + apply as_wf_cons. split; [|done]. rewrite Hmore, Hnew. done.
    + intros r. unfold as_mem at 1. cbn [existsb]. fold (as_mem more r). rewrite Hmore, am_get_remove.
      unfold as_mem at 2. cbn [existsb]. fold (as_mem set r). destruct (same_key r0 r) eqn:E; [|done].
      rewrite (Hsame _ E), <-(am_get_same _ _ _ E), Hn. cbn [orb andb]. by rewrite bool_decide_true.
  - destruct (IH (am_update (λ _, S n) holes r0) ready) as (holes' & more & Hf & Hwf' & Hget & Hmwf & Hmore); [done|by apply am_wf_update| |].
    { intros r Hr. rewrite am_get_update, (Hother r Hr). apply Hpos. unfold as_mem in *. cbn [existsb]. by rewrite Hr, orb_true_r. }
    exists holes', more. cbn [result_bind mbind]. rewrite Hf. split; [done|]. split; [done|]. split.
    { intros r. rewrite Hget, am_get_update. unfold as_mem at 2. cbn [existsb]. fold (as_mem set r).
      destruct (same_key r0 r) eqn:E; [|done]. rewrite (Hsame _ E). cbn [orb]. by rewrite <-(am_get_same _ _ _ E), Hn. }
    split; [done|]. intros r. rewrite Hmore, am_get_update. unfold as_mem at 2. cbn [existsb]. fold (as_mem set r).
    destruct (same_key r0 r) eqn:E; [|done]. rewrite (Hsame _ E), <-(am_get_same _ _ _ E), Hn. cbn [orb andb].
    by rewrite bool_decide_false.
Qed.

Lemma fill_hole_ok w hole :
  waiting_ok w → outstanding w hole = true →
  ∃ w' ready, fill_hole w hole = Ok (w', ready) ∧ waiting_ok w' ∧
    (∀ h r, waits w' h r = waits w h r && negb (same_key hole h)) ∧
    as_wf ready ∧ ∀ r, as_mem ready r = waits w hole r && (hole_count w' r =? 0).
Proof.
  intros Hw Hout. unfold outstanding in Hout. unfold fill_hole.
  destruct (am_get (w_redos w) hole) as [set|] eqn:E; [|done]. destruct (wo_sets _ Hw _ _ E) as [Hne Hset].
  assert (∀ r, waits w hole r = as_mem set r) as Hws by (intros r; unfold waits; by rewrite E).
  set (w0 := {| w_holes := w_holes w; w_redos := am_remove (w_redos w) hole |}).
  assert (∀ r, hole_count w r = hole_count w0 r + (if as_mem set r then 1 else 0)) as Hcount.
  { intros r. pose proof (entries_with_remove (λ set, as_mem set r) (w_redos w) hole (wo_redos _ Hw)) as Hc.
    rewrite E in Hc. cbn [value_is] in Hc. unfold hole_count. cbn [w0 w_redos]. lia. }
  destruct (redo_filled_all set (w_holes w) []) as (holes & ready & Hf & Hwf & Hget & Hrwf & Hready); [done|apply Hw| |].
  { intros r Hr. rewrite (wo_count _ Hw), Hcount, Hr, Nat.add_1_r. by eexists. }
  rewrite Hf. cbn [mbind result_bind app]. eexists _, ready. split; [done|].
  set (w' := {| w_holes := holes; w_redos := am_remove (w_redos w) hole |}).
  assert (∀ r, hole_count w' r = hole_count w0 r) as Hc0 by done.
  assert (∀ r, am_get holes r = match hole_count w' r with 0 => None | n => Some n end) as Hnew.
  { intros r. rewrite Hget, (wo_count _ Hw), Hcount, Hc0. destruct (as_mem set r).
    - rewrite Nat.add_1_r. simpl. by destruct (hole_count w0 r).
    - by rewrite Nat.add_0_r. }
  split; [|split; [|split; [done|]]].
  - split; cbn [w' w_redos w_holes]; [apply am_wf_remove, Hw|done| |done].
    intros h s0. rewrite am_get_remove. destruct (same_key hole h); [done|]. apply Hw.
  - intros h r. unfold waits at 1. cbn [w' w_redos]. rewrite am_get_remove. destruct (same_key hole h); [by rewrite andb_false_r|].
    by rewrite andb_true_r.
  - intros r. rewrite Hready, Hws. destruct (as_mem set r) eqn:Er; [|done]. cbn [andb].
    rewrite (wo_count _ Hw), Hcount, Er, Hc0, Nat.add_1_r. by destruct (hole_count w0 r).
Qed.

(** *** Several holes at once, and the redos that are asked for again *)
Definition redo_group r : nat * bool * nat * nat := (rd_tag r, rd_unishard r, rd_requesting_shard r, rd_requesting_replica r).
(** How often a redo is asked for. *)
Definition asked_again (sets : list ((nat * bool * nat * nat) * list Key)) r : nat :=
  length (filter (λ k, same_key k (rd_replay_key r) = true) (default [] (am_get sets (redo_group r)))).

Lemma group_redo_asked sets r0 r :
  asked_again (group_redo sets r0) r = asked_again sets r + (if same_key r0 r then 1 else 0).
Proof.
  unfold asked_again, group_redo. fold (redo_group r0). rewrite am_get_update.
  destruct (same_key (redo_group r0) (redo_group r)) eqn:Eg.
  - rewrite <-(am_get_same sets _ _ Eg). cbn [default from_option id]. rewrite filter_app, length_app. f_equal.
    rewrite filter_cons, filter_nil.
    assert (same_key r0 r = same_key (rd_replay_key r0) (rd_replay_key r)) as ->.
    { apply same_key_true in Eg. unfold redo_group in Eg. simpl in Eg. injection Eg as E1 E2 E3 E4.
      unfold same_key. simpl. apply bool_decide_ext. rewrite E1, E2, E3, E4. split; congruence. }
    destruct (same_key (rd_replay_key r0) (rd_replay_key r)); by case_decide.
  - assert (same_key r0 r = false) as ->; [|by rewrite Nat.add_0_r]. apply same_key_false in Eg. apply same_key_false. intros Hc. apply Eg.
    simpl in *. unfold redo_group. simpl. congruence.
Qed.

Lemma group_redos_asked sets ready r :
  as_wf ready → asked_again (foldl group_redo sets ready) r = asked_again sets r + (if as_mem ready r then 1 else 0).
Proof.
  revert sets. induction ready as [|r0 ready IH]; intros sets Hwf; [by rewrite Nat.add_0_r|]. apply as_wf_cons in Hwf as [Hnew Hwf].
  cbn [foldl]. rewrite IH, group_redo_asked by done. unfold as_mem at 2. cbn [existsb]. fold (as_mem ready r).
  destruct (same_key r0 r) eqn:E; [|cbn [orb]; lia]. rewrite <-(as_mem_same _ _ _ E), Hnew. cbn [orb]. lia.
Qed.

Definition filled_by (target : nat) (cols : list nat) keys h : bool := existsb (λ k, same_key (hole_at target cols k) h) keys.

Lemma hole_at_same target cols k1 k2 : same_key (hole_at target cols k1) (hole_at target cols k2) = same_key k1 k2.
Proof. unfold same_key. simpl. apply bool_decide_ext. split; congruence. Qed.

Lemma fill_keys_ok target cols keys w sets :
  waiting_ok w → as_wf keys → (∀ k, k ∈ keys → outstanding w (hole_at target cols k) = true) →
  ∃ w' sets', result_foldl (fill_keys target cols) (w, sets) keys = Ok (w', sets') ∧ waiting_ok w' ∧
    (∀ h r, waits w' h r = waits w h r && negb (filled_by target cols keys h)) ∧
    ∀ r, asked_again sets' r = asked_again sets r +
      (if existsb (λ k, waits w (hole_at target cols k) r) keys && (hole_count w' r =? 0) then 1 else 0).
Proof.
  revert w sets. induction keys as [|k0 keys IH]; intros w sets Hw Hkeys Hout.
  { exists w, sets. split_and!; [done|done| |].
    - intros h r. by rewrite andb_true_r.
    - intros r. by rewrite Nat.add_0_r. }
  assert (as_mem keys k0 = false ∧ as_wf keys) as [Hnew Hwf].
  { unfold as_wf in Hkeys. rewrite fmap_cons, NoDup_cons, <-as_mem_true, not_true_iff_false in Hkeys. done. }
  destruct (fill_hole_ok w (hole_at target cols k0) Hw) as (w1 & ready & Hf & Hw1 & Hwaits1 & Hrwf & Hready);
    [apply Hout, elem_of_here|].
  assert (∀ k, k ∈ keys → same_key (hole_at target cols k0) (hole_at target cols k) = false) as Hdiff.
  { intros k Hk. rewrite hole_at_same. destruct (same_key k0 k) eqn:E; [|done].
    rewrite (as_mem_same keys _ _ E) in Hnew. unfold as_mem in Hnew.
    assert (existsb (λ k', same_key k' k) keys = true); [|congruence]. apply existsb_exists. exists k.
    split; [by apply list_elem_of_In|apply same_key_refl]. }
  destruct (IH w1 (foldl group_redo sets ready)) as (w' & sets' & Hfold & Hw' & Hwaits' & Hasked); [done|done| |].
  { intros k Hk. apply outstanding_waits; [done|]. destruct (proj1 (outstanding_waits w (hole_at target cols k) Hw)) as [r Hr].
    - apply Hout. by apply elem_of_cons; right.
    - exists r. by rewrite Hwaits1, Hr, (Hdiff k Hk). }
  exists w', sets'. cbn [result_foldl].
  assert (fill_keys target cols (w, sets) k0 = Ok (w1, foldl group_redo sets ready)) as ->
    by (unfold fill_keys; cbn [fst snd]; by rewrite Hf).
  split; [done|]. split; [done|]. split.
  { intros h r. rewrite Hwaits', Hwaits1, <-andb_assoc. f_equal. unfold filled_by. cbn [existsb]. by rewrite negb_orb. }
  intros r. rewrite Hasked, group_redos_asked by done. rewrite Hready. cbn [existsb].
  assert (existsb (λ k, waits w1 (hole_at target cols k) r) keys = existsb (λ k, waits w (hole_at target cols k) r) keys) as ->.
  { apply eq_true_iff_eq. rewrite !existsb_exists.
    split; intros (k & Hk & Hr); exists k; (split; [done|]); rewrite Hwaits1, (Hdiff k) in * by (by apply list_elem_of_In);
      by rewrite ?andb_true_r in *. }
  destruct (hole_count w1 r) as [|c1] eqn:E1.
  - assert (hole_count w' r = 0) as ->.
    { apply hole_count_zero; [done|]. intros h. rewrite Hwaits'. by rewrite (proj1 (hole_count_zero w1 r Hw1) E1). }
    assert (existsb (λ k, waits w (hole_at target cols k) r) keys = false) as ->.
    { apply not_true_iff_false. rewrite existsb_exists. intros (k & Hk & Hr).
      pose proof (proj1 (hole_count_zero w1 r Hw1) E1 (hole_at target cols k)) as Hz.
      rewrite Hwaits1, Hr, (Hdiff k) in Hz by (by apply list_elem_of_In). done. }
    destruct (waits w (hole_at target cols k0) r); simpl; lia.
  - rewrite andb_false_r. destruct (hole_count w' r) as [|c'] eqn:E'; [|rewrite !andb_false_r; lia].
    assert (existsb (λ k, waits w (hole_at target cols k) r) keys = true) as ->; [|rewrite orb_true_r; simpl; lia].
    apply not_false_is_true. intros Hno. assert (hole_count w1 r = 0); [|lia]. apply hole_count_zero; [done|]. intros h.
    destruct (waits w1 h r) eqn:Eh; [|done]. exfalso.
    pose proof (proj1 (hole_count_zero w' r Hw') E' h) as Hz. rewrite Hwaits', Eh in Hz. simpl in Hz. apply negb_false_iff in Hz.
    unfold filled_by in Hz. apply existsb_exists in Hz as (k & Hk & Hkh).
    assert (existsb (λ k, waits w (hole_at target cols k) r) keys = true); [|congruence]. apply existsb_exists. exists k.
    split; [done|]. rewrite Hwaits1 in Eh. apply andb_true_iff in Eh as [Eh _].
    unfold waits in *. by rewrite (am_get_same _ _ _ Hkh).
Qed.

(** Nothing waits exactly when both maps are empty, so the assertions hold. *)
Lemma waiting_empty w : waiting_ok w → w_holes w = [] ↔ w_redos w = [].
Proof.
  intros Hw. split; intros He.
  - destruct (w_redos w) as [|[h set] rest] eqn:E; [done|]. exfalso.
    assert (am_get (w_redos w) h = Some set) as Hg by (rewrite E; cbn [am_get]; by rewrite same_key_refl).
    destruct (wo_sets _ Hw _ _ Hg) as [Hne _]. destruct set as [|r set]; [done|].
    pose proof (wo_count _ Hw r) as Hc. rewrite He in Hc. simpl in Hc.
    assert (hole_count w r = 0) as Hz by (by destruct (hole_count w r)).
    pose proof (proj1 (hole_count_zero w r Hw) Hz h) as Hf. unfold waits in Hf. rewrite Hg in Hf.
    unfold as_mem in Hf. cbn [existsb] in Hf. by rewrite same_key_refl in Hf.
  - destruct (w_holes w) as [|[r n] rest] eqn:E; [done|]. exfalso.
    pose proof (wo_count _ Hw r) as Hc. rewrite E in Hc. cbn [am_get] in Hc. rewrite same_key_refl in Hc.
    unfold hole_count in Hc. rewrite He in Hc. done.
Qed.

(** ** The whole operations *)
Lemma push_all_delayed {B} (f : B → Packet V) (l : list B) (d : Domain V En) :
  eff_iter (λ x, modify (push_delayed (f x))) l d = (set_delayed_for_self (d_delayed_for_self d ++ (f <$> l)) d, Ok ()).
Proof.
  rewrite (eff_iter_ok _ (λ d x, push_delayed (f x) d)) by done. f_equal. revert d.
  induction l as [|x l IH]; intros d; cbn [foldl fmap list_fmap]; [rewrite app_nil_r; by destruct d|].
  rewrite IH. unfold push_delayed, set_delayed_for_self. simpl. by rewrite <-app_assoc.
Qed.

Definition waiting_at (d : Domain V En) (node : nat) : Waiting V := default waiting_default (d_waiting d !! node).

(** C11: A redo is asked for again exactly once, when its last hole is filled: a replay of
    some awaited keys makes exactly the redos wait no more for the holes it fills,
    and asks, in packets to the domain itself, exactly once for each redo that was
    waiting for one of them and waits for no other.  No assertion fails, and the
    counts stay those of the holes. *)
Theorem redo_asked_again_once (d : Domain V En) (tag dst target : nat) w path ix keys :
  d_waiting d !! dst = Some w → waiting_ok w →
  rp_get (d_replay_paths d) tag = Some path → rp_target_index path = Some ix → as_wf keys →
  (∀ k, k ∈ keys → outstanding w (hole_at target (columns ix) k) = true) →
  ∃ d' sets, finish_waiting tag dst target (Some keys) d = (d', Ok ()) ∧
    d_delayed_for_self d' = d_delayed_for_self d ++ (group_packet <$> sets) ∧
    (∀ r, asked_again sets r =
       if existsb (λ k, waits w (hole_at target (columns ix) k) r) keys && (hole_count (waiting_at d' dst) r =? 0) then 1 else 0) ∧
    waiting_ok (waiting_at d' dst) ∧
    (∀ h r, waits (waiting_at d' dst) h r = waits w h r && negb (filled_by target (columns ix) keys h)) ∧
    ∀ node, node ≠ dst → d_waiting d' !! node = d_waiting d !! node.
Proof.
  intros Hd Hw Hpath Hix Hkeys Hout.
  destruct (fill_keys_ok target (columns ix) keys w [] Hw Hkeys Hout) as (w' & sets & Hfold & Hw' & Hwaits & Hasked).
  assert (∀ r, asked_again [] r = 0) as Hnil by done.
  set (d1 := set_delayed_for_self (d_delayed_for_self d ++ (group_packet <$> sets)) (set_waiting (delete dst (d_waiting d)) d)).
  set (d2 := set_waiting (<[dst := w']> (d_waiting d1)) d1).
  assert (finish_waiting tag dst target (Some keys) d = (match w_holes w' with [] => d1 | _ => d2 end, Ok ())) as Hfin.
  { unfold finish_waiting. remember (eff_iter (λ s, modify (push_delayed (group_packet s)))) as pushes eqn:Epushes.
    unfold mbind, eff_bind, get, modify, lift. rewrite Hd, Hpath. cbn [expect]. rewrite Hix. cbn [expect].
    rewrite Hfold, Epushes, push_all_delayed. fold d1. pose proof (waiting_empty w' Hw') as [He1 He2].
    destruct (w_holes w') as [|x holes]; [by rewrite He1|]. destruct (w_redos w'); [by specialize (He2 eq_refl)|]. done. }
  assert (∀ e : Waiting V, w_holes e = [] → w_redos e = [] → e = waiting_default) as Hdef.
  { intros [] H1 H2. simpl in *. by subst. }
  assert (waiting_at (match w_holes w' with [] => d1 | _ => d2 end) dst = w') as Hat.
  { unfold waiting_at. destruct (w_holes w') as [|x holes] eqn:E.
    - cbn [d1 set_delayed_for_self set_waiting d_waiting]. rewrite lookup_delete_eq. cbn [default from_option].
      symmetry. apply Hdef; [done|]. by apply waiting_empty.
    - cbn [d2 set_waiting d_waiting]. by rewrite lookup_insert_eq. }
  eexists _, sets. split; [exact Hfin|]. rewrite Hat. split; [by destruct (w_holes w')|].
  split; [intros r; by rewrite Hasked, Hnil|]. split; [done|]. split; [done|].
  intros node Hne. destruct (w_holes w').
  - cbn [d1 set_delayed_for_self set_waiting d_waiting]. by rewrite lookup_delete_ne.
  - cbn [d2 d1 set_delayed_for_self set_waiting d_waiting]. by rewrite lookup_insert_ne, lookup_delete_ne by done.
Qed.

(** *** Misses *)
Definition redo_for (tag : nat) (unishard : bool) (shard replica : nat) (k : Key) : Redo V :=
  {| rd_tag := tag; rd_replay_key := k; rd_unishard := unishard;
     rd_requesting_shard := shard; rd_requesting_replica := replica |}.
Definition key_count keys (k : Key) : nat := length (filter (λ k', same_key k' k = true) keys).

Lemma key_count_push keys k0 k : key_count (keys ++ [k0]) k = key_count keys k + (if same_key k0 k then 1 else 0).
Proof.
  unfold key_count. rewrite filter_app, length_app, filter_cons, filter_nil. f_equal. by destruct (same_key k0 k); case_decide.
Qed.

(** The keys to ask for: nothing yet, or some at one place. *)
Definition needed_at (place : nat * list nat) (o : option (list Key)) : Needed :=
  match o with Some ks => [(place, ks)] | None => [] end.

Lemma await_column_miss_one redo w place o k :
  await_column_miss redo (w, needed_at place o) {| cm_node := place.1; cm_column_indices := place.2; cm_missed_keys := [k] |} =
  ((await_hole w redo (hole_at place.1 place.2 k)).1,
   needed_at place (Some (default [] o ++ if (await_hole w redo (hole_at place.1 place.2 k)).2 then [k] else []))).
Proof.
  destruct place as [node cols]. unfold await_column_miss. cbn [foldl cm_missed_keys cm_node cm_column_indices fst snd].
  unfold hole_at. destruct (await_hole w redo _) as [w' ask]. cbn [fst snd].
  assert (∀ (f : option (list Key) → list Key) ks, am_update f [((node, cols), ks)] (node, cols) = [((node, cols), f (Some ks))]) as Hup.
  { intros f ks. cbn [am_update]. by rewrite same_key_refl. }
  destruct o as [ks|]; unfold needed_at;
    [rewrite Hup|change (am_update (default []) [] (node, cols)) with [((node, cols), @nil Key)]];
    destruct ask; rewrite ?Hup; cbn [default from_option id]; rewrite ?app_nil_r; done.
Qed.

Lemma await_outstanding w redo hole h :
  waiting_ok w → outstanding (await_hole w redo hole).1 h = outstanding w h || same_key hole h.
Proof.
  intros Hw. destruct (await_hole_ok w redo hole Hw) as (Hw1 & _ & Hwaits). apply eq_true_iff_eq.
  rewrite orb_true_iff, !outstanding_waits by done. split.
  - intros (r & Hr). rewrite Hwaits, orb_true_iff, andb_true_iff in Hr. naive_solver.
  - intros [(r & Hr)|Hh]; [exists r|exists redo]; rewrite Hwaits, orb_true_iff, andb_true_iff; [by left|].
    right. split; [done|apply same_key_refl].
Qed.
Lemma outstanding_same w h1 h2 : same_key h1 h2 = true → outstanding w h1 = outstanding w h2.
Proof. intros Hh. unfold outstanding. by rewrite (am_get_same _ _ _ Hh). Qed.

Lemma await_all_ok (mk : Key → Redo V) (place : nat * list nat) (missed : list (Key * Key)) w o :
  waiting_ok w →
  let res := foldl (λ acc rm, await_column_miss (mk rm.1) acc
                 {| cm_node := place.1; cm_column_indices := place.2; cm_missed_keys := [rm.2] |}) (w, needed_at place o) missed in
  waiting_ok res.1 ∧
  (∀ h r, waits res.1 h r = waits w h r || existsb (λ rm, same_key (hole_at place.1 place.2 rm.2) h && same_key (mk rm.1) r) missed) ∧
  ∃ o', res.2 = needed_at place o' ∧ (is_Some o ∨ missed ≠ [] → is_Some o') ∧
    ∀ k, key_count (default [] o') k = key_count (default [] o) k +
      (if negb (outstanding w (hole_at place.1 place.2 k)) && existsb (λ rm, same_key rm.2 k) missed then 1 else 0).
Proof.
  revert w o. induction missed as [|[rk k0] missed IH]; intros w o Hw res.
  { unfold res. cbn [foldl]. split_and!; [done| |].
    - intros h r. by rewrite orb_false_r.
    - exists o. split; [done|]. split; [naive_solver|]. intros k. by rewrite andb_false_r, Nat.add_0_r. }
  unfold res. cbn [foldl fst snd]. rewrite await_column_miss_one. clear res.
  destruct (await_hole_ok w (mk rk) (hole_at place.1 place.2 k0) Hw) as (Hw1 & Hask & Hwaits1).
  pose proof (λ h, await_outstanding w (mk rk) (hole_at place.1 place.2 k0) h Hw) as Hout1.
  rewrite Hask. destruct (await_hole w (mk rk) (hole_at place.1 place.2 k0)) as [w1 ask]. cbn [fst snd] in *. clear Hask.
  set (o1 := default [] o ++ _).
  destruct (IH w1 (Some o1) Hw1) as (Hw' & Hwaits' & o' & Ho' & Hsome & Hcount). cbn [default from_option id] in Hcount.
  split; [done|]. split.
  { intros h r. rewrite Hwaits', Hwaits1, <-orb_assoc. done. }
  exists o'. split; [done|]. split; [intros _; apply Hsome; left; by eexists|].
  intros k. rewrite Hcount, Hout1, hole_at_same. cbn [existsb snd].
  assert (key_count o1 k = key_count (default [] o) k +
    (if negb (outstanding w (hole_at place.1 place.2 k0)) && same_key k0 k then 1 else 0)) as ->.
  { unfold o1. destruct (outstanding w (hole_at place.1 place.2 k0)); cbn [negb andb]; [by rewrite app_nil_r, Nat.add_0_r|].
    apply key_count_push. }
  destruct (same_key k0 k) eqn:E.
  - assert (outstanding w (hole_at place.1 place.2 k0) = outstanding w (hole_at place.1 place.2 k)) as ->.
    { apply outstanding_same. by rewrite hole_at_same. }
    rewrite orb_true_r. cbn [negb andb orb]. rewrite !andb_true_r. lia.
  - rewrite orb_false_r, andb_false_r. cbn [orb]. lia.
Qed.

(** The loop over the misses of columns that are not generated. *)
Lemma misses_loop upq part miss_in cols missed unishard shard replica needed_for w o (d : Domain V En) :
  cols ≠ [] →
  eff_foldl (λ acc rm,
      _ ← lift match cols with [] => Panic | _ => Ok () end;
      misses ← upstream_misses upq part false needed_for rm.1
                 {| cm_node := miss_in; cm_column_indices := cols; cm_missed_keys := [rm.2] |};
      let redo := {| rd_tag := needed_for; rd_replay_key := rm.1; rd_unishard := unishard;
                     rd_requesting_shard := shard; rd_requesting_replica := replica |} in
      mret (foldl (await_column_miss redo) acc misses)) (w, o) missed d =
  (d, Ok (foldl (λ acc rm, await_column_miss (redo_for needed_for unishard shard replica rm.1) acc
       {| cm_node := miss_in; cm_column_indices := cols; cm_missed_keys := [rm.2] |}) (w, o) missed)).
Proof.
  intros Hcols. revert w o. induction missed as [|rm missed IH]; intros w o; [done|].
  destruct cols as [|c cols]; [done|]. cbn [eff_foldl foldl]. cbn [foldl] in IH.
  destruct (await_column_miss (redo_for needed_for unishard shard replica rm.1) (w, o)
      {| cm_node := miss_in; cm_column_indices := c :: cols; cm_missed_keys := [rm.2] |}) as [w1 o1] eqn:E.
  rewrite <-IH. unfold mbind, eff_bind, lift, upstream_misses, mret, eff_ret. cbn [foldl].
  unfold redo_for in E. by rewrite E.
Qed.

(** C12: A hole is asked for once: when a replay misses in columns that are not generated
    and that exactly one path, a local one, fills, its redos wait for the holes of their keys, and the domain asks itself for exactly
    those keys that nobody was waiting for yet, each once. *)
Theorem replay_misses_asked_once shard_hash upq part (d : Domain V En) miss_in cols missed unishard shard replica needed_for tag path :
  waiting_ok (waiting_at d miss_in) → columns_are_generated (d_replay_paths d) miss_in cols = false →
  cols ≠ [] → missed ≠ [] →
  (∀ t, tags_for_index (d_replay_paths d) miss_in miss_in {| index_type := t; columns := cols |} = Some [tag]) →
  rp_get (d_replay_paths d) tag = Some path → trigger_is_local (rp_trigger path) = true →
  ∃ d' ks, on_replay_misses shard_hash upq part miss_in cols missed unishard shard replica needed_for d = (d', Ok ()) ∧
    waiting_ok (waiting_at d' miss_in) ∧
    (∀ h r, waits (waiting_at d' miss_in) h r = waits (waiting_at d miss_in) h r ||
       existsb (λ rm, same_key (hole_at miss_in cols rm.2) h && same_key (redo_for needed_for unishard shard replica rm.1) r) missed) ∧
    d_delayed_for_self d' = d_delayed_for_self d ++ [request_packet d tag ks true] ∧
    ∀ k, key_count ks k =
      if negb (outstanding (waiting_at d miss_in) (hole_at miss_in cols k)) && existsb (λ rm, same_key rm.2 k) missed then 1 else 0.
Proof.
  intros Hw Hgen Hcols Hmissed Htags Hpath Hlocal. unfold waiting_at in Hw.
  destruct (await_all_ok (redo_for needed_for unishard shard replica) (miss_in, cols) missed _ None Hw)
    as (Hw' & Hwaits & o & Ho & Hsome & Hcount). cbn [fst snd default from_option id needed_at] in *.
  destruct Hsome as [ks ->]; [by right|]. cbn [default from_option id needed_at] in *.
  set (res := foldl _ _ missed) in *. destruct res as [w' needed] eqn:Eres. cbn [fst snd] in *. subst needed.
  set (d1 := set_waiting (<[miss_in := w']> (delete miss_in (d_waiting d))) d).
  exists (push_delayed (request_packet d tag ks true) d1), ks.
  assert (waiting_at (push_delayed (request_packet d tag ks true) d1) miss_in = w') as Hat.
  { unfold waiting_at. cbn [push_delayed set_delayed_for_self d1 set_waiting d_waiting]. by rewrite lookup_insert_eq. }
  rewrite Hat. split; [|split_and!; [done|done|done|]; intros k; rewrite Hcount; done].
  unfold on_replay_misses. rewrite (bind_ok _ _ d d d) by done.
  rewrite (bind_ok _ _ d (set_waiting (delete miss_in (d_waiting d)) d) ()) by done.
  rewrite Hgen. erewrite bind_ok by (apply misses_loop; done). fold res in Eres. unfold res in Eres. rewrite Eres.
  rewrite (bind_ok _ _ _ d1 ()) by done. erewrite eff_iter_cons; [reflexivity|]. cbn [fst snd].
  unfold find_tags_and_replay. rewrite (bind_ok _ _ d1 d1 d1) by done. cbn [d1 set_waiting d_replay_paths].
  rewrite Htags. cbn [default from_option id]. fold d1. erewrite eff_iter_cons; [reflexivity|].
  rewrite (bind_ok _ _ d1 d1 d1) by done. rewrite (bind_ok _ _ d1 d1 path).
  2: { unfold lift. cbn [d1 set_waiting d_replay_paths]. by rewrite Hpath. }
  rewrite Hlocal. done.
Qed.
End waiting.

(** ** A domain with one local path, of tag 7, into an index of node 1 *)
Definition sample_paths : ReplayPaths :=
  match replay_paths_insert replay_paths_default sample_spec with Ok ps => ps | _ => replay_paths_default end.
Definition sample_domain (waiting : gmap nat (Waiting SampleVal)) : Domain SampleVal () :=
  {| d_shard := None; d_replica := 0; d_mode := Forwarding; d_waiting := waiting; d_reader_triggered := ∅;
     d_remapped_keys := []; d_replay_paths := sample_paths; d_not_ready := ∅; d_delayed_for_self := [];
     d_replay_completed := false; d_sent := []; d_timed_purges := []; d_ingress_inject := ∅; d_env := () |}.
Definition sample_key : KeyComparison SampleVal := KEqual [SInt 1; SInt 2].
(** Two replays, of the keys 5 and 6, miss in the same hole. *)
Definition sample_missed : list (KeyComparison SampleVal * KeyComparison SampleVal) :=
  [(KEqual [SInt 5], sample_key); (KEqual [SInt 6], sample_key)].
Definition sample_redo (z : Z) : Redo SampleVal := redo_for 9 true 0 0 (KEqual [SInt z]).
Definition sample_waiting : Waiting SampleVal :=
  (await_hole (await_hole waiting_default (sample_redo 5) (hole_at 1 [0; 2] sample_key)).1 (sample_redo 6)
     (hole_at 1 [0; 2] sample_key)).1.

Lemma sample_waiting_ok : waiting_ok sample_waiting.
Proof. apply await_hole_ok, await_hole_ok, waiting_default_ok. Qed.

Lemma replay_misses_asked_once_witness :
  ∃ d' ks, on_replay_misses (λ _, None) (λ _, Panic) (λ _, false) 1 [0; 2] sample_missed true 0 0 9 (sample_domain ∅) = (d', Ok ()) ∧
    waiting_ok (waiting_at d' 1) ∧ waits (waiting_at d' 1) (hole_at 1 [0; 2] sample_key) (sample_redo 6) = true ∧
    d_delayed_for_self d' = [PRequestPartialReplay 7 ks true 0 0] ∧ key_count ks sample_key = 1.
Proof.
  destruct (replay_misses_asked_once (λ _, None) (λ _, Panic) (λ _, false) (sample_domain ∅) 1 [0; 2] sample_missed true 0 0 9 7
    {| rp_source := Some 0; rp_target_index := Some sample_btree; rp_path := rs_path sample_spec; rp_notify_done := false;
       rp_partial_unicast_sharder := None; rp_trigger := TriggerLocal sample_btree |}) as (d' & ks & H1 & H2 & H3 & H4 & H5).
  - apply waiting_default_ok.
  - reflexivity.
  - discriminate.
  - discriminate.
  - by intros [].
  - reflexivity.
  - reflexivity.
  - exists d', ks. split; [exact H1|]. split; [exact H2|]. split.
    + rewrite H3. vm_compute. reflexivity.
    + split; [exact H4|]. rewrite H5. vm_compute. reflexivity.
Defined.

Lemma redo_asked_again_once_witness :
  ∃ d' sets, finish_waiting 7 1 1 (Some [sample_key]) (sample_domain {[1 := sample_waiting]}) = (d', Ok ()) ∧
    d_delayed_for_self d' = group_packet <$> sets ∧
    asked_again sets (sample_redo 5) = 1 ∧ asked_again sets (sample_redo 6) = 1 ∧ waiting_ok (waiting_at d' 1).
Proof.
  destruct (redo_asked_again_once (sample_domain {[1 := sample_waiting]}) 7 1 1 sample_waiting
    {| rp_source := Some 0; rp_target_index := Some sample_btree; rp_path := rs_path sample_spec; rp_notify_done := false;
       rp_partial_unicast_sharder := None; rp_trigger := TriggerLocal sample_btree |} sample_btree [sample_key])
    as (d' & sets & H1 & H2 & H3 & H4 & H5 & _).
  - reflexivity.
  - apply sample_waiting_ok.
  - reflexivity.
  - reflexivity.
  - apply NoDup_singleton.
  - intros k Hk. apply list_elem_of_singleton in Hk as ->. vm_compute. reflexivity.
  - exists d', sets. split; [exact H1|]. split; [exact H2|]. vm_compute in H1. injection H1 as <-.
    split; [rewrite H3; vm_compute; reflexivity|]. split; [rewrite H3; vm_compute; reflexivity|exact H4].
Defined.
