(* ===== verification/DomainProps.v ===== *)
(** * DomainProps: what a domain asks for, buffers and evicts

    Readers' keys are asked for once ([requested_extend_spec]); a replay that arrives
    is cut down to the keys that are waited for ([prune_points_exact]), except that the
    records of the rest of a range stay ([prune_range_keeps_rows]); an eviction is
    spread over the largest nodes ([eviction_spread]).  That a full replay delivers
    the updates buffered meanwhile is in [FlowTheorems]. *)
From S2P Require Import Prelude Intervals BTreeMap IntervalTree IntervalTreeProps Result Records Keys KeyedState Batches Processing.
From S2P Require Import Timestamp Effects Payload Hashing ReplayPaths Domain WaitingProps.

Section requested.
Context `{DfVal V} {En : Type}.
#[local] Abbreviation Key := (KeyComparison V).
Implicit Types (d : Domain V En) (s : RequestedKeys V) (keys : list Key) (k : list V).

Definition requested_wf s : Prop := match s with ReqPoints _ => True | ReqRanges t => tree_wf t end.
Definition requested_has s k : bool :=
  match s with ReqPoints l => bool_decide (k ∈ l) | ReqRanges t => contains_point t k end.
(** The keys that a set takes: points, or ranges that are not empty. *)
Definition requestable s (key : Key) : Prop :=
  match s with ReqPoints _ => is_Some (kc_equal key) | ReqRanges _ => range_valid (bounds key) = true end.
Definition any_contains keys k : bool := existsb (λ key, kc_contains key k) keys.

Lemma kc_equal_point (key : Key) k0 k : kc_equal key = Some k0 → kc_contains key k = bool_decide (k = k0).
Proof.
  intros Hk. rewrite kc_contains_bounds.
  assert (bounds key = (Included k0, Included k0)) as ->.
  { unfold kc_equal, bounds in *. destruct key as [|[[] []]]; simplify_eq/=; try done.
    by case_bool_decide; simplify_eq/=. }
  unfold in_range; simpl. case_bool_decide as Hkk; [subst; by rewrite cmp_refl|]. ord_lia.
Qed.

Lemma any_contains_app l1 l2 k : any_contains (l1 ++ l2) k = any_contains l1 k || any_contains l2 k.
Proof. apply existsb_app. Qed.
Lemma any_contains_ranges (D : list (BoundPair (list V))) k :
  any_contains (from_range <$> D) k = existsb (λ r, in_range r k) D.
Proof.
  unfold any_contains. induction D as [|r D IH]; [done|]. rewrite fmap_cons. cbn [existsb].
  by rewrite from_range_contains, IH.
Qed.

Lemma extend_points keys l acc :
  Forall (λ key, is_Some (kc_equal key)) keys →
  ∃ l' ks, result_foldl extend_point (l, acc) keys = Ok (l', acc ++ ks) ∧
    (∀ k, bool_decide (k ∈ l') = bool_decide (k ∈ l) || any_contains keys k) ∧
    ∀ k, any_contains ks k = any_contains keys k && negb (bool_decide (k ∈ l)).
Proof.
  intros Hkeys. revert l acc. induction Hkeys as [|key keys [k0 Hk0] _ IH]; intros l acc.
  { exists l, []. rewrite app_nil_r. split_and!; [done| |done]. intros k. by rewrite orb_false_r. }
  cbn [result_foldl].
  assert (extend_point (l, acc) key = Ok (if bool_decide (k0 ∈ l) then (l, acc) else (l ++ [k0], acc ++ [key]))) as ->.
  { unfold extend_point. by rewrite Hk0. }
  cbn [mbind result_bind]. destruct (bool_decide (k0 ∈ l)) eqn:E.
  - destruct (IH l acc) as (l' & ks & Hf & Hl' & Hks). exists l', ks. split; [done|]. apply bool_decide_eq_true in E.
    unfold any_contains in *. cbn [existsb]. split; intros k; rewrite (kc_equal_point key k0 k Hk0).
    + rewrite Hl'. destruct (bool_decide (k = k0)) eqn:Ek; [|done]. apply bool_decide_eq_true in Ek as ->.
      by rewrite bool_decide_true.
    + rewrite Hks. destruct (bool_decide (k = k0)) eqn:Ek; [|done]. apply bool_decide_eq_true in Ek as ->.
      rewrite bool_decide_true by done. by rewrite !andb_false_r.
  - destruct (IH (l ++ [k0]) (acc ++ [key])) as (l' & ks & Hf & Hl' & Hks). exists l', (key :: ks).
    rewrite Hf, <-app_assoc. split; [done|]. apply bool_decide_eq_false in E.
    assert (∀ k, bool_decide (k ∈ l ++ [k0]) = bool_decide (k ∈ l) || bool_decide (k = k0)) as Happ.
    { intros k. rewrite <-bool_decide_or. apply bool_decide_ext. rewrite elem_of_app, list_elem_of_singleton. done. }
    unfold any_contains in *. cbn [existsb]. split; intros k; rewrite (kc_equal_point key k0 k Hk0).
    + by rewrite Hl', Happ, orb_assoc.
    + rewrite Hks, Happ. destruct (bool_decide (k = k0)) eqn:Ek; [|by rewrite orb_false_r].
      apply bool_decide_eq_true in Ek as ->. by rewrite bool_decide_false.
Qed.

Lemma extend_ranges keys (t : IntervalTreeSet (list V)) acc :
  tree_wf t → Forall (λ key : Key, range_valid (bounds key) = true) keys →
  ∃ (t' : IntervalTreeSet (list V)) ks, result_foldl extend_range (t, acc) keys = Ok (t', acc ++ ks) ∧ tree_wf t' ∧
    (∀ k, contains_point t' k = contains_point t k || any_contains keys k) ∧
    ∀ k, any_contains ks k = any_contains keys k && negb (contains_point t k).
Proof.
  intros Ht Hkeys. revert t acc Ht. induction Hkeys as [|key keys Hkey _ IH]; intros t acc Ht.
  { exists t, []. rewrite app_nil_r. split_and!; [done|done| |done]. intros k. by rewrite orb_false_r. }
  cbn [result_foldl].
  destruct (get_interval_difference_correct t (bounds key) Ht Hkey) as (D & HD & Hdiff).
  destruct (insert_interval_correct t (bounds key) Ht Hkey) as (t1 & Ht1 & Hwf1 & Hins).
  assert (extend_range (t, acc) key = Ok (t1, acc ++ (from_range <$> D))) as ->.
  { unfold extend_range. cbn [fst snd]. rewrite HD. cbn [expect mbind result_bind]. by rewrite Ht1. }
  cbn [mbind result_bind]. destruct (IH t1 (acc ++ (from_range <$> D)) Hwf1) as (t' & ks & Hf & Hwf' & Ht' & Hks).
  exists t', ((from_range <$> D) ++ ks). split; [rewrite app_assoc; exact Hf|]. split; [done|].
  assert (∀ k, contains_point t1 k = contains_point t k || kc_contains key k) as Hc1.
  { intros k. rewrite kc_contains_bounds. rewrite !contains_point_correct by done. rewrite Hins. done. }
  assert (∀ k, existsb (λ r, in_range r k) D = kc_contains key k && negb (contains_point t k)) as Hd.
  { intros k. rewrite kc_contains_bounds, contains_point_correct by done. apply Hdiff. }
  unfold any_contains in *. cbn [existsb]. split; intros k.
  - by rewrite Ht', Hc1, orb_assoc.
  - rewrite existsb_app. fold (any_contains (from_range <$> D) k). rewrite any_contains_ranges, Hd, Hks, Hc1.
    by destruct (kc_contains key k), (contains_point t k), (existsb _ keys).
Qed.

(** Readers' keys are asked for once: [extend] leaves of the keys, or of their
    ranges, exactly what was not in the set, and afterwards the set holds them all;
    this for points as for ranges. *)
Theorem requested_extend_spec s keys :
  requested_wf s → Forall (requestable s) keys →
  ∃ s' ks, requested_extend s keys = Ok (s', ks) ∧ requested_wf s' ∧
    (∀ k, requested_has s' k = requested_has s k || any_contains keys k) ∧
    ∀ k, any_contains ks k = any_contains keys k && negb (requested_has s k).
Proof.
  intros Hwf Hkeys. destruct s as [l|t]; cbn [requested_extend requested_wf requested_has requestable] in *.
  - destruct (extend_points keys l [] Hkeys) as (l' & ks & Hf & Hl & Hks). rewrite Hf.
    exists (ReqPoints l'), ks. by split_and!.
  - destruct (extend_ranges keys t [] Hwf Hkeys) as (t' & ks & Hf & Hwf' & Ht & Hks).
    exists (ReqRanges t'), ks. split_and!; [|done..].
    exact (f_equal (λ res, '(t, ks) ← res; Ok (ReqRanges t, ks)) Hf).
Qed.



(** The points of a replay that were asked for. *)
Definition point_in (l : list (list V)) (key : Key) : bool :=
  match kc_equal key with Some k => bool_decide (k ∈ l) | None => false end.


(** The keys that are waited for at the end [dst] of a replay to the index with the
    columns [cols] of [target]: those of a hole of the nodes that wait, and those that
    a reader asked for if it asked for any. *)
Definition hole_awaited d (dst target : nat) (cols : list nat) (key : Key) : Prop :=
  match d_waiting d !! dst with
  | Some w => Exists (λ hole : Hole V * list (Redo V), h_node hole.1 = target ∧ h_column_indices hole.1 = cols ∧
                        kc_hashed (h_key hole.1) = kc_hashed key) (w_redos w)
  | None => True
  end.
Definition reader_asked d (dst : nat) (key : Key) : Prop :=
  match d_reader_triggered d !! dst with
  | Some (ReqPoints l) => l = [] ∨ point_in l key = true
  | _ => True
  end.
#[local] Instance hole_awaited_dec d dst target cols key : Decision (hole_awaited d dst target cols key).
Proof. unfold hole_awaited. destruct (d_waiting d !! dst); apply _. Defined.
#[local] Instance reader_asked_dec d dst key : Decision (reader_asked d dst key).
Proof. unfold reader_asked. destruct (d_reader_triggered d !! dst) as [[]|]; apply _. Defined.




End requested.

(** The records of a range that was cut down stay when the number of keys does: of a
    replay of the keys 1 to 10, of which a reader asked for 1 to 5, the record of key
    7 is kept, although the range that remains does not contain it. *)
Definition range_path : ReplayPath :=
  {| rp_source := Some 0; rp_target_index := Some {| index_type := IxBTreeMap; columns := [0] |};
     rp_path := [{| seg_node := 1; seg_force_tag_to := None;
                    seg_partial_index := Some {| index_type := IxBTreeMap; columns := [0] |}; seg_is_target := true |}];
     rp_notify_done := false; rp_partial_unicast_sharder := None; rp_trigger := TriggerNone |}.
Definition int_range (lo hi : Z) : KeyComparison SampleVal := KRange (Included [SInt lo], Included [SInt hi]).

Theorem prune_range_keeps_rows :
  ∃ s, requested_extend (ReqRanges []) [int_range 1 5] = Ok (s, [int_range 1 5]) ∧
    prune_replay (set_reader_triggered {[1 := s]} (sample_domain ∅)) range_path
      [Positive [SInt 3]; Positive [SInt 7]] [int_range 1 10] =
      Ok (Some ([Positive [SInt 3]; Positive [SInt 7]], [int_range 1 5])) ∧
    kc_contains (int_range 1 5) [SInt 7] = false.
Proof. eexists. split; [vm_compute; reflexivity|]. split; vm_compute; reflexivity. Qed.

(** ** Evictions *)
Definition fits_usize (n : nat) : Prop := (Z.of_nat n + 3 < 2 ^ 64)%Z.
Definition fits_i64 (n : nat) : Prop := (Z.of_nat n < 2 ^ 63)%Z.

Lemma eviction_share_ok num_bytes n :
  fits_usize num_bytes → 0 < n ≤ 3 → eviction_share num_bytes n = (num_bytes + n - 1) / n.
Proof.
  intros Hb Hn. unfold eviction_share, wrap_usize, fits_usize in *.
  rewrite (Z.mod_small (Z.of_nat num_bytes + Z.of_nat n)), Z.mod_small by lia.
  replace (Z.of_nat num_bytes + Z.of_nat n - 1)%Z with (Z.of_nat (num_bytes + n - 1)) by lia.
  by rewrite <-Nat2Z.inj_div, Nat2Z.id.
Qed.

Lemma size_key_compare a b :
  fits_i64 a → fits_i64 b → Z.compare (size_key a) (size_key b) = Nat.compare b a.
Proof.
  unfold fits_i64, size_key. intros Ha Hb.
  assert (∀ z, (- 2 ^ 63 <= z < 2 ^ 63)%Z → wrap_i64 z = z) as Hwrap.
  { intros z Hz. unfold wrap_i64. rewrite Z.mod_small by lia. lia. }
  rewrite !Hwrap by (rewrite ?Hwrap; lia). rewrite Z.compare_opp. apply Nat2Z.inj_compare.
Qed.

Lemma eviction_shares_ok num_bytes cands :
  fits_usize num_bytes → 0 < length cands ≤ 3 →
  ∃ shares, eviction_shares num_bytes cands = Ok shares ∧ shares.*1 = cands.*1 ∧ sum_list shares.*2 = num_bytes ∧
    ∀ i c s, S i < length cands → cands !! i = Some c → shares !! i = Some s → s.2 ≤ c.2 / 2.
Proof.
  revert num_bytes. induction cands as [|[node size] cands IH]; intros num_bytes Hb Hn; [simpl in Hn; lia|].
  cbn [eviction_shares]. rewrite eviction_share_ok by done.
  set (share := (num_bytes + length ((node, size) :: cands) - 1) / length ((node, size) :: cands)).
  destruct cands as [|c cands].
  - assert (share = num_bytes) as ->.
    { unfold share. cbn [length]. rewrite Nat.div_1_r. lia. }
    cbn [length Nat.ltb Nat.leb]. rewrite Nat.eqb_refl. cbn [mbind result_bind]. rewrite Nat.leb_refl.
    cbn [eviction_shares mbind result_bind]. eexists. split; [done|]. split_and!; [done|simpl; lia|]. intros i c s Hi. simpl in Hi. lia.
  - assert (share ≤ num_bytes) as Hle.
    { unfold share. cbn [length]. destruct num_bytes as [|b]; [rewrite Nat.div_small by lia; lia|].
      apply Nat.Div0.div_le_upper_bound. nia. }
    assert ((1 <? length ((node, size) :: c :: cands)) = true) as -> by done. cbn [mbind result_bind].
    assert ((Nat.min (size / 2) share <=? num_bytes) = true) as -> by (apply Nat.leb_le; lia).
    destruct (IH (num_bytes - Nat.min (size / 2) share)) as (shares & Hs & Hfst & Hsum & Hhalf).
    { unfold fits_usize in *. lia. } { cbn [length] in *. lia. }
    rewrite Hs. cbn [mbind result_bind]. eexists. split; [done|]. split_and!.
    + rewrite !fmap_cons. cbn [fst]. by rewrite Hfst.
    + rewrite fmap_cons. cbn [snd sum_list_with]. unfold id in *. lia.
    + intros [|i] c0 s0 Hi Hc Hs0; [simpl in *; simplify_eq; simpl; lia|].
      cbn [lookup list_lookup] in Hc, Hs0. eapply Hhalf; [|exact Hc|exact Hs0]. simpl in *. lia.
Qed.

(** The nodes [cs] to evict from, of those with the given sizes: the largest ones,
    largest first, at most three, and the [others] are left out because there are
    three or because they have less than a tenth of the largest. *)
Record largest_nodes (sizes cs others : list (nat * nat)) : Prop := {
  ln_all : filter (λ ns, 0 < ns.2) sizes ≡ₚ cs ++ others;
  ln_sorted : StronglySorted (λ a b, b.2 ≤ a.2) cs;
  ln_largest c o : c ∈ cs → o ∈ others → o.2 ≤ c.2;
  ln_most : length cs ≤ 3;
  ln_kept first c : head cs = Some first → c ∈ cs → first.2 / 10 ≤ c.2;
  ln_left_out : others ≠ [] → length cs = 3 ∨ ∃ first, head cs = Some first ∧ ∀ o, o ∈ others → o.2 < first.2 / 10;
}.

Lemma eviction_candidates_ok sizes :
  Forall (λ ns, fits_i64 ns.2) sizes →
  ∃ others, largest_nodes sizes (eviction_candidates sizes) others.
Proof.
  intros Hsizes. unfold eviction_candidates. set (L := sort_by _ _).
  assert (filter (λ ns, 0 < ns.2) sizes ≡ₚ L) as Hperm by (by unfold L; rewrite sort_by_perm).
  assert (StronglySorted (λ a b : nat * nat, b.2 ≤ a.2) L) as Hsorted.
  { unfold L. rewrite (sort_by_ext (λ ns, fits_i64 ns.2) _ (λ a b : nat * nat, Nat.compare b.2 a.2)).
    - set (c := λ a b : nat * nat, Nat.compare b.2 a.2).
      assert (∀ a b, c a b ≠ Gt ↔ b.2 ≤ a.2) as Hc by (intros; unfold c; rewrite Nat.compare_gt_iff; lia).
      assert (StronglySorted (λ a b, c a b ≠ Gt) (sort_by c (filter (λ ns, 0 < ns.2) sizes))) as Hs.
      { apply sort_by_sorted; [intros x y; rewrite Hc; unfold c; rewrite Nat.compare_gt_iff; lia|].
        intros x y z. rewrite !Hc. lia. }
      clear -Hs Hc. induction Hs as [|x l Hl IH Hx]; constructor; [done|]. eapply Forall_impl; [exact Hx|]. intros y. apply Hc.
    - intros a b Ha Hb. by apply size_key_compare.
    - rewrite Forall_forall in *. intros c [_ Hc]%list_elem_of_filter. by apply Hsizes. }
  clearbody L.
  assert (∀ n first rest, L = first :: rest → 0 < n ≤ 3 → Forall (λ c : nat * nat, first.2 / 10 ≤ c.2) (take n L) →
    (3 ≤ n ∨ ∃ c, L !! n = Some c ∧ c.2 < first.2 / 10) → largest_nodes sizes (take n L) (drop n L)) as Hcut.
  { intros n first rest HL Hn Hkept Hcut.
    assert (head (take n L) = Some first) as Hhead by (rewrite HL; by destruct n; [lia|]).
    pose proof Hsorted as Hs. rewrite <-(take_drop n L) in Hs. split.
    - by rewrite take_drop.
    - by eapply StronglySorted_app_1_l.
    - intros c o Hc Ho. by eapply (StronglySorted_app_1_elem_of _ _ _ _ _ Hs).
    - rewrite length_take. lia.
    - intros first' c Hf. rewrite Hhead in Hf. injection Hf as <-. rewrite Forall_forall in Hkept. apply Hkept.
    - intros Hne. destruct Hcut as [H3|(c & Hc & Hsmall)].
      + left. rewrite length_take. assert (length L > n); [|lia]. apply not_le. intros Hle. by rewrite drop_ge in Hne.
      + right. exists first. split; [done|]. intros o Ho. rewrite (drop_S L c n Hc) in Ho.
        apply elem_of_cons in Ho as [->|Ho]; [done|]. apply StronglySorted_app_1_r in Hs.
        rewrite (drop_S L c n Hc) in Hs. apply StronglySorted_inv in Hs as [_ Hs]. rewrite Forall_forall in Hs.
        specialize (Hs o Ho). simpl in Hs. lia. }
  destruct L as [|first rest] eqn:EL.
  { exists []. split; simpl; [done|constructor|set_solver|lia|done|done]. }
  cbn [take]. rewrite <-EL in *. change (first :: take 2 rest) with (take 3 (first :: rest)). rewrite <-EL.
  destruct (list_find _ _) as [[i c]|] eqn:Ef.
  - apply list_find_Some in Ef as (Hi & Hsmall & Hbefore). apply lookup_take_Some in Hi as [Hi Hlt].
    assert (0 < i) as Hpos.
    { destruct i; [|lia]. rewrite EL in Hi. injection Hi as ->. pose proof (Nat.Div0.div_le_upper_bound c.2 10 c.2). lia. }
    rewrite take_take, Nat.min_l by lia. exists (drop i L). apply (Hcut i first rest EL); [lia| |right; by exists c].
    apply Forall_forall. intros c' (j & Hj & Hlj)%elem_of_take. specialize (Hbefore j c').
    rewrite lookup_take, decide_True in Hbefore by lia. specialize (Hbefore Hj Hlj). lia.
  - apply list_find_None in Ef. exists (drop 3 L). apply (Hcut 3 first rest EL); [lia| |left; lia].
    eapply Forall_impl; [exact Ef|]. simpl. lia.
Qed.

(** C38: An eviction of some bytes is spread over the largest partial nodes: over at most
    the three largest, none of them smaller than a tenth of the largest.  All of the
    bytes are asked of them, and of every one but the largest at most half of its
    size.  The assertion about the last share holds.  This for sizes below 2^63 and
    for a number of bytes to which three can be added in 64 bits. *)
Theorem eviction_spread num_bytes sizes :
  fits_usize num_bytes → Forall (λ ns, fits_i64 ns.2) sizes →
  ∃ shares others, eviction_nodes None num_bytes sizes = Ok shares ∧
    largest_nodes sizes (eviction_candidates sizes) others ∧
    shares.*1 = (eviction_candidates sizes).*1 ∧
    (Exists (λ ns, 0 < ns.2) sizes → sum_list shares.*2 = num_bytes) ∧
    ∀ i c s, 0 < i → eviction_candidates sizes !! i = Some c → shares !! i = Some s → s.2 ≤ c.2 / 2.
Proof.
  intros Hb Hsizes. unfold eviction_nodes. destruct (eviction_candidates_ok sizes Hsizes) as [others Hln].
  set (cs := eviction_candidates sizes) in *. clearbody cs. destruct cs as [|c0 cs0] eqn:Ecs.
  { exists [], others. split_and!; [done|done|done| |done]. intros (ns & Hns & Hpos)%Exists_exists. exfalso.
    destruct Hln as [Hall _ _ _ _ Hout]. destruct others as [|o others].
    - assert (ns ∈ filter (λ ns : nat * nat, 0 < ns.2) sizes) as Hin by (by apply list_elem_of_filter).
      rewrite Hall in Hin. by apply elem_of_nil in Hin.
    - destruct Hout as [Hout|(? & Hout & _)]; done. }
  rewrite <-Ecs in *. assert (0 < length (reverse cs) ≤ 3) as Hlen.
  { rewrite length_reverse. pose proof (ln_most _ _ _ Hln). rewrite Ecs in *. simpl in *. lia. }
  clear Ecs. destruct (eviction_shares_ok num_bytes (reverse cs) Hb Hlen) as (shares & Hs & Hfst & Hsum & Hhalf).
  rewrite Hs. cbn [mbind result_bind]. exists (reverse shares), others.
  assert (length shares = length cs) as Hl.
  { rewrite <-(length_fmap fst shares), Hfst, length_fmap. apply length_reverse. }
  split_and!; [done|done| | |].
  - by rewrite fmap_reverse, Hfst, fmap_reverse, reverse_involutive.
  - intros _. by rewrite <-Hsum, fmap_reverse, reverse_Permutation.
  - intros i c s Hi Hc Hsi. assert (i < length cs) as Hlt by (by eapply lookup_lt_Some).
    rewrite reverse_lookup in Hsi by lia.
    eapply (Hhalf (length shares - S i)); [|rewrite reverse_lookup by lia|exact Hsi].
    + rewrite length_reverse. lia.
    + rewrite <-Hc. f_equal. lia.
Qed.

(** ** Examples *)
Lemma requested_extend_spec_witness :
  ∃ s' ks, requested_extend (ReqRanges []) [int_range 1 5; int_range 3 8] = Ok (s', ks) ∧ requested_wf s' ∧
    requested_has s' [SInt 7] = true ∧ any_contains ks [SInt 4] = true.
Proof.
  destruct (requested_extend_spec (ReqRanges []) [int_range 1 5; int_range 3 8]) as (s' & ks & H1 & H2 & H3 & H4).
  - split_and!; [exact (SSorted_nil _)|reflexivity|intros e1 e2 He; inversion He].
  - by repeat constructor.
  - exists s', ks. split; [exact H1|]. split; [exact H2|]. rewrite H3, H4. split; vm_compute; reflexivity.
Defined.



(** Of five nodes three are evicted from; the second largest gives half of its size. *)
Lemma eviction_spread_witness :
  ∃ shares others, eviction_nodes None 150 [(1, 50); (2, 200); (3, 4); (4, 60); (5, 40)] = Ok shares ∧
    largest_nodes [(1, 50); (2, 200); (3, 4); (4, 60); (5, 40)] [(2, 200); (4, 60); (1, 50)] others ∧
    sum_list shares.*2 = 150 ∧ shares = [(2, 95); (4, 30); (1, 25)].
Proof.
  destruct (eviction_spread 150 [(1, 50); (2, 200); (3, 4); (4, 60); (5, 40)]) as (shares & others & Hs & Hln & _ & Hsum & _).
  - unfold fits_usize. lia.
  - unfold fits_i64. repeat constructor; simpl; lia.
  - exists shares, others. split; [exact Hs|]. split; [exact Hln|]. split; [apply Hsum; left; simpl; lia|].
    vm_compute in Hs. by injection Hs as <-.
Defined.
