(* ===== verification/OpPaginate.v ===== *)
(** * OpPaginate: the paginate operator

    Models [readyset-dataflow/src/ops/paginate.rs].  For every group the operator
    keeps all the rows in its own state, each with the number of its page as one more
    column: the rows of the group in the reverse of the operator's order, [limit] to
    a page.  A batch is sorted by group and processed record by record against the
    rows of the group; at the end of the group the pages are numbered again.

    As in [OpTopK], rows of the heap that compare as equal keep the order of
    insertion. *)
From S2P Require Import Prelude Intervals Result Records Keys Processing Batches OpTopK.

Record Paginate := {
  pg_src : nat;
  pg_us : nat;
  pg_page_number_col : option nat;
  pg_group_by : list nat;
  pg_order : Order;
  pg_limit : nat;
}.

Definition paginate_new (src us : nat) (order : Order) (group_by : list nat) (limit : nat) : Paginate :=
  {| pg_src := src; pg_us := us; pg_page_number_col := None; pg_group_by := group_by; pg_order := order; pg_limit := limit |}.
(** [on_connected]: the page number follows the columns of the parent. *)
Definition paginate_on_connected (p : Paginate) (parent_cols : nat) : Paginate :=
  {| pg_src := pg_src p; pg_us := pg_us p; pg_page_number_col := Some parent_cols; pg_group_by := pg_group_by p;
     pg_order := pg_order p; pg_limit := pg_limit p |}.
Definition page_number_column (p : Paginate) : result nat := expect (pg_page_number_col p).

Section paginate.
Context `{DfVal V} (page : nat → V).
Implicit Types (r : list V) (rc : Record V) (rs : list (Record V)) (p : Paginate).

Definition paginate_group p r : result (list V) :=
  match row_cols (pg_group_by p) r with Ok g => Ok g | _ => Err InvalidRecordLength end.

(** The loop of [post_group]: [num] is the current page, [size] the rows it has. *)
Fixpoint number_rows (col limit num size : nat) (rows : list (list V)) : list (Record V) :=
  match rows with
  | [] => []
  | row :: rows' =>
      match row !! col with
      | Some page_number =>
          if decide (page_number = page num) then [] else [Negative row; Positive (<[col := page num]> row)]
      | None => [Positive (row ++ [page num])]
      end ++
      (if limit <=? S size then number_rows col limit (S num) 0 rows' else number_rows col limit num (S size) rows')
  end.
Definition paginate_post_group p (current : list (list V)) : result (list (Record V)) :=
  _ ← order_check (pg_order p) current;
  match current with
  | [] => Ok []
  | _ =>
      col ← page_number_column p;
      Ok (number_rows col (pg_limit p) 0 0 (sort_by (λ a b, order_cmp (pg_order p) b a) current))
  end.

(** What the loop of [on_input] carries from record to record. *)
Record PaginateState := {
  ps_out : list (Record V);
  ps_key : list V;
  ps_missed : bool;
  ps_current : list (list V);
  ps_misses : list (Miss V);
  ps_lookups : list (Lookup V);
}.
Definition paginate_state_init : PaginateState :=
  {| ps_out := []; ps_key := []; ps_missed := false; ps_current := []; ps_misses := []; ps_lookups := [] |}.

(** [post_group] takes the rows of the group. *)
Definition paginate_end p (s : PaginateState) : result PaginateState :=
  out ← paginate_post_group p (ps_current s);
  Ok {| ps_out := ps_out s ++ out; ps_key := ps_key s; ps_missed := ps_missed s; ps_current := [];
        ps_misses := ps_misses s; ps_lookups := ps_lookups s |}.

Context (own_lookup : list V → result (option (list (list V)))).

(** Beginning the group of a record with another key. *)
Definition paginate_begin p (replay : ReplayContext V) (s : PaginateState) (key : list V) : result PaginateState :=
  s ← match ps_key s with [] => Ok s | _ => paginate_end p s end;
  own ← own_lookup key;
  match own with
  | Some rows =>
      lookups ← (if rc_is_partial replay then
                   match key with
                   | [] => Panic
                   | _ => Ok [{| lookup_on := pg_us p; lookup_cols := pg_group_by p; lookup_key := KEqual key |}]
                   end
                 else Ok []);
      Ok {| ps_out := ps_out s; ps_key := key; ps_missed := false; ps_current := ps_current s ++ rows;
            ps_misses := ps_misses s; ps_lookups := ps_lookups s ++ lookups |}
  | None =>
      Ok {| ps_out := ps_out s; ps_key := key; ps_missed := true; ps_current := ps_current s;
            ps_misses := ps_misses s; ps_lookups := ps_lookups s |}
  end.

(** [retain] with the [found] flag: the first row that is [r] but for its page goes. *)
Fixpoint remove_paged (col : nat) (l : list (list V)) r : result (option (list V) * list (list V)) :=
  match l with
  | [] => Ok (None, [])
  | row :: l' =>
      if length row <? col then Panic
      else if decide (take col row = r) then Ok (Some row, l')
      else '(found, l'') ← remove_paged col l' r; Ok (found, row :: l'')
  end.

(** One record against the current group. *)
Definition paginate_apply p (s : PaginateState) rc : result PaginateState :=
  match rc with
  | Positive r =>
      Ok {| ps_out := ps_out s; ps_key := ps_key s; ps_missed := ps_missed s; ps_current := ps_current s ++ [r];
            ps_misses := ps_misses s; ps_lookups := ps_lookups s |}
  | Negative r =>
      match ps_current s with
      | [] => Ok s
      | _ =>
          col ← page_number_column p;
          '(found, current) ← remove_paged col (ps_current s) r;
          Ok {| ps_out := ps_out s ++ match found with Some row => [Negative row] | None => [] end;
                ps_key := ps_key s; ps_missed := ps_missed s; ps_current := current;
                ps_misses := ps_misses s; ps_lookups := ps_lookups s |}
      end
  end.

Definition paginate_record p (replay : ReplayContext V) (s : PaginateState) rc : result PaginateState :=
  key ← paginate_group p (rec rc);
  s ← (if decide (ps_key s = key) then Ok s else paginate_begin p replay s key);
  if ps_missed s then
    m ← build_miss (pg_us p) (pg_group_by p) (MlkRecordColumns (pg_group_by p)) replay None (rec rc);
    Ok {| ps_out := ps_out s; ps_key := ps_key s; ps_missed := ps_missed s; ps_current := ps_current s;
          ps_misses := ps_misses s ++ [m]; ps_lookups := ps_lookups s |}
  else paginate_apply p s rc.

(** The batch is sorted by group, or by an empty one if that fails, and by the
    order within a group. *)
Definition paginate_sort_key p rc : list V := match paginate_group p (rec rc) with Ok k => k | _ => [] end.
Definition paginate_cmp p (a b : Record V) : comparison :=
  then_cmp (cmp (paginate_sort_key p a) (paginate_sort_key p b)) (order_cmp (pg_order p) (rec a) (rec b)).

(** The rows of a group are compared with each other if there are several. *)
Definition paginate_sort_check p rs : result unit :=
  if forallb (λ rc, (length (filter (λ rc', paginate_sort_key p rc' = paginate_sort_key p rc) rs) <=? 1) ||
                    order_fits (pg_order p) (rec rc)) rs
  then Ok tt else Panic.

Definition paginate_on_input p (replay : ReplayContext V) rs : result (ProcessingResult V) :=
  match rs with
  | [] => Ok pr_empty
  | _ =>
      _ ← paginate_sort_check p rs;
      s ← result_foldl (paginate_record p replay) paginate_state_init (sort_by (paginate_cmp p) rs);
      s ← match ps_current s with [] => Ok s | _ => paginate_end p s end;
      Ok {| pr_results := ps_out s; pr_lookups := ps_lookups s; pr_misses := ps_misses s |}
  end.

(** [column_source]. *)
Definition paginate_column_source p (cols : list nat) : result ColumnSource :=
  col ← page_number_column p;
  if decide (col ∈ cols) then
    if length cols =? 1 then Ok (CsFullReplay [pg_src p])
    else match filter (λ c, c ≠ col) cols with
         | [] => Panic
         | columns => Ok (CsGenerated [(pg_us p, columns)])
         end
  else match cols with [] => Panic | _ => Ok (CsExactCopy (pg_src p) cols) end.

(** [handle_upquery]: a miss of a page is one of its group. *)
Definition without_column (i : nat) (k : list V) : result (list V) :=
  match k with
  | [_] => Panic
  | _ => if i <? length k then Ok (delete i k) else Panic
  end.
Definition map_bound (f : list V → result (list V)) (b : Bound (list V)) : result (Bound (list V)) :=
  match b with
  | Included k => k ← f k; Ok (Included k)
  | Excluded k => k ← f k; Ok (Excluded k)
  | Unbounded => Ok Unbounded
  end.
Definition map_endpoints (f : list V → result (list V)) (k : KeyComparison V) : result (KeyComparison V) :=
  match k with
  | KEqual k => k ← f k; Ok (KEqual k)
  | KRange (l, u) => l ← map_bound f l; u ← map_bound f u; Ok (KRange (l, u))
  end.
Definition paginate_handle_upquery p (columns : list nat) (keys : list (KeyComparison V)) :
    result (list (nat * list nat * list (KeyComparison V))) :=
  col ← page_number_column p;
  '(i, _) ← expect (list_find (λ c, c = col) columns);
  match pg_group_by p with
  | [] => Panic
  | group_by => keys ← result_mapM (map_endpoints (without_column i)) keys; Ok [(pg_us p, group_by, keys)]
  end.
End paginate.
Arguments PaginateState : clear implicits.
