(* ===== verification/OpPaginateProps.v ===== *)
(** * OpPaginateProps: correctness of the paginate operator

    What it means for some rows to be the pages of a group ([pages_of]), and the
    theorem that a batch takes the pages of the old rows to the pages of the new rows
    of every group ([paginate_maintains]), when it does not both add and remove a
    row; [paginate_cancelled_row] shows what happens otherwise. *)
From S2P Require Import Prelude Result Records Keys Processing Batches OpTopK OpTopKProps OpPaginate.

Section props.
Context `{DfVal V} (page : nat → V) (p : Paginate) (w : nat).
Context (Hcol : pg_page_number_col p = Some w).
Implicit Types (r x y row : list V) (rc : Record V) (rs : list (Record V)) (P T C l : list (list V)).
Abbreviation o := (pg_order p).

(** The page of the row at a position. *)
Definition page_of (i : nat) : nat := i `div` (1 `max` pg_limit p).
(** A row as it was before it was given a page. *)
Definition base_row row : list V := take w row.
Definition numbered (i : nat) l : list (list V) := imap (λ j r, r ++ [page (page_of (i + j))]) l.
(** [T] are the rows [P] of a group with their pages. *)
Definition pages_of P T : Prop :=
  ∃ l, l ≡ₚ P ∧ StronglySorted (λ a b, ole o b a) l ∧ T ≡ₚ numbered 0 l.

(** Rows of the state and rows of the parent. *)
Definition old_paged row : Prop := length row = S w.
Definition new_row row : Prop := length row = w.
#[local] Instance old_paged_dec row : Decision (old_paged row) := decide (length row = S w).

(** *** Numbering *)
Lemma next_page i num size :
  i = num * (1 `max` pg_limit p) + size → size < 1 `max` pg_limit p →
  page_of i = num ∧ S i = (if pg_limit p <=? S size then S num else num) * (1 `max` pg_limit p) +
    (if pg_limit p <=? S size then 0 else S size) ∧ (if pg_limit p <=? S size then 0 else S size) < 1 `max` pg_limit p.
Proof.
  intros -> Hs. unfold page_of. split.
  - rewrite Nat.div_add_l by lia. rewrite (Nat.div_small size) by done. lia.
  - destruct (Nat.leb_spec (pg_limit p) (S size)); lia.
Qed.

(** Every row is replaced by one with the page of its position. *)
Lemma number_rows_wt C num size i x :
  i = num * (1 `max` pg_limit p) + size → size < 1 `max` pg_limit p →
  Forall (λ row, old_paged row ∨ new_row row) C →
  wt x (number_rows page w (pg_limit p) num size C) =
  (occ x (numbered i (base_row <$> C)) - occ x (filter old_paged C))%Z.
Proof.
  intros Hi Hs HC. revert num size i Hi Hs. induction HC as [|row C Hrow HC IH]; intros num size i Hi Hs; [done|].
  destruct (next_page i num size Hi Hs) as (Hp & Hi' & Hs').
  cbn [number_rows]. rewrite wt_app, fmap_cons, filter_cons. unfold numbered. rewrite imap_cons. cbn [occ].
  rewrite Nat.add_0_r, Hp.
  assert (wt x (if pg_limit p <=? S size then number_rows page w (pg_limit p) (S num) 0 C
                else number_rows page w (pg_limit p) num (S size) C) =
    (occ x (numbered (S i) (base_row <$> C)) - occ x (filter old_paged C))%Z) as ->.
  { revert Hi' Hs'. destruct (pg_limit p <=? S size); intros; by apply IH. }
  assert (imap ((λ j r, r ++ [page (page_of (i + j))]) ∘ S) (base_row <$> C) = numbered (S i) (base_row <$> C)) as ->.
  { unfold numbered. apply imap_ext. intros j r _. simpl. by rewrite Nat.add_succ_r. }
  destruct Hrow as [Hold|Hnew].
  - rewrite (decide_True (P := old_paged row)) by done. unfold old_paged in Hold.
    destruct (lookup_lt_is_Some_2 row w) as [v Hv]; [lia|]. rewrite Hv.
    assert (take w row ++ [v] = row) as Hrow.
    { rewrite <-(take_S_r row w v Hv). apply take_ge. lia. }
    case_decide as Hpage; cbn [occ wt].
    + subst v. repeat case_decide; try lia; exfalso; unfold base_row in *; congruence.
    + assert (<[w := page num]> row = take w row ++ [page num]) as ->.
      { rewrite <-Hrow at 1. rewrite insert_app_r_alt by (rewrite length_take; lia).
        rewrite length_take, Nat.min_l, Nat.sub_diag by lia. done. }
      unfold sgn. simpl. repeat case_decide; try lia; exfalso; unfold base_row in *; congruence.
  - rewrite (decide_False (P := old_paged row)) by (unfold old_paged, new_row in *; lia). unfold new_row in Hnew.
    rewrite lookup_ge_None_2 by lia. cbn [wt]. unfold sgn. simpl. unfold base_row.
    rewrite (take_ge row) by lia. case_decide; lia.
Qed.
Lemma number_rows_negs C num size x :
  Forall (λ row, old_paged row ∨ new_row row) C →
  (negs x (number_rows page w (pg_limit p) num size C) <= occ x (filter old_paged C))%Z.
Proof.
  intros HC. revert num size. induction HC as [|row C Hrow HC IH]; intros num size; [done|].
  cbn [number_rows]. rewrite negs_app, filter_cons.
  assert (negs x (if (pg_limit p <=? S size)%nat then number_rows page w (pg_limit p) (S num) 0 C
                else number_rows page w (pg_limit p) num (S size) C) <= occ x (filter old_paged C))%Z as Hle.
  { destruct (pg_limit p <=? S size); apply IH. }
  destruct (row !! w) as [v|] eqn:Hv.
  - rewrite (decide_True (P := old_paged row)).
    + case_decide; cbn [negs occ]; [case_decide; lia|]. case_decide; lia.
    + destruct Hrow as [|Hn]; [done|]. apply lookup_lt_Some in Hv. unfold new_row in Hn. lia.
  - rewrite (decide_False (P := old_paged row)); [cbn [negs]; lia|]. apply lookup_ge_None in Hv. unfold old_paged. lia.
Qed.

(** *** Ending a group *)
Context (Hord : Forall (λ ct : nat * OrderType, ct.1 < w) o).

Lemma base_row_lookup row (c : nat) : c < w → base_row row !! c = row !! c.
Proof. intros Hc. by apply lookup_take_lt. Qed.
Lemma order_cmp_base a b : order_cmp o (base_row a) (base_row b) = order_cmp o a b.
Proof.
  induction Hord as [|[c ty] o' Hc Ho IH]; [done|]. cbn [order_cmp]. simpl in Hc.
  by rewrite !base_row_lookup, IH.
Qed.
Lemma order_fits_wide row : w ≤ length row → order_fits o row = true.
Proof.
  intros Hw. unfold order_fits. apply forallb_forall. intros ct Hct%list_elem_of_In. rewrite Forall_forall in Hord.
  apply Nat.ltb_lt. specialize (Hord ct Hct). lia.
Qed.
Lemma order_check_wide C : Forall (λ row, w ≤ length row) C → order_check o C = Ok tt.
Proof.
  intros HC. unfold order_check. rewrite (proj2 (forallb_forall _ _)); [by rewrite orb_true_r|].
  intros x Hx%list_elem_of_In. rewrite Forall_forall in HC. by apply order_fits_wide, HC.
Qed.

Definition paged C : Prop := Forall (λ row, old_paged row ∨ new_row row) C.
Lemma paged_wide C : paged C → Forall (λ row, w ≤ length row) C.
Proof. intros HC. eapply Forall_impl; [exact HC|]. unfold old_paged, new_row. simpl. lia. Qed.

Lemma post_group_pages C :
  paged C → ∃ out T, paginate_post_group page p C = Ok out ∧ pages_of (base_row <$> C) T ∧
    ∀ x, wt x out = (occ x T - occ x (filter old_paged C))%Z ∧ (negs x out <= occ x (filter old_paged C))%Z.
Proof using Hcol Hord.
  intros HC. unfold paginate_post_group. rewrite order_check_wide by (by apply paged_wide). cbn [mbind result_bind].
  set (C' := sort_by (λ a b, order_cmp o b a) C). assert (C' ≡ₚ C) as Hperm by apply sort_by_perm.
  assert (StronglySorted (λ a b, ole o b a) C') as Hs.
  { apply sort_by_sorted; [intros a b Hab; by apply ole_flip in Hab|]. intros a b c Hab Hbc. by apply (ole_trans o c b a). }
  exists (match C with [] => [] | _ => number_rows page w (pg_limit p) 0 0 C' end), (numbered 0 (base_row <$> C')).
  split_and!.
  - unfold page_number_column. rewrite Hcol. by destruct C.
  - exists (base_row <$> C'). split_and!; [by rewrite Hperm| |done].
    clear Hperm. induction Hs as [|a l Hs IH Ha]; [constructor|]. rewrite fmap_cons. constructor; [done|].
    apply Forall_fmap. eapply Forall_impl; [exact Ha|]. intros b. unfold ole. simpl. by rewrite order_cmp_base.
  - intros x. rewrite <-(occ_perm x (filter old_paged C') (filter old_paged C)) by (by rewrite Hperm).
    assert (Forall (λ row, old_paged row ∨ new_row row) C') as HC' by (unfold paged in HC; by rewrite Hperm).
    rewrite <-(number_rows_wt C' 0 0 0) by (lia || done). pose proof (number_rows_negs C' 0 0 x HC').
    by destruct C.
Qed.

(** *** The records of a group *)
Lemma remove_paged_spec C r :
  Forall (λ row, w ≤ length row) C → r ∈ base_row <$> C →
  ∃ row C', remove_paged w C r = Ok (Some row, C') ∧ C ≡ₚ row :: C' ∧ base_row row = r.
Proof.
  induction 1 as [|row C Hrow HC IH]; [by intros ?%elem_of_nil|]. rewrite fmap_cons, elem_of_cons. intros Hr.
  cbn [remove_paged]. rewrite (proj2 (Nat.ltb_ge _ _)) by done. case_decide as Htake; [by exists row, C|].
  destruct Hr as [->|Hr]; [done|]. destruct (IH Hr) as (row' & C' & -> & HC' & Hb). exists row', (row :: C').
  split_and!; [done| |done]. rewrite HC'. apply Permutation_swap.
Qed.

(** The current rows [C] and what was sent, [out], in a group whose pages were [T]
    and whose rows are [P] by now; rows that are new are among [news]. *)
Record group_now T (news : list V → Prop) (out0 : list (Record V)) P C (out : list (Record V)) : Prop := {
  gn_paged : paged C;
  gn_rows : base_row <$> C ≡ₚ P;
  gn_new row : row ∈ C → new_row row → news row;
  gn_out x : wt x out = (wt x out0 + occ x (filter old_paged C) - occ x T)%Z;
  gn_negs x : (negs x out + occ x (filter old_paged C) <= negs x out0 + occ x T)%Z;
}.

Lemma group_now_step T (news : list V → Prop) out0 P s rc rs P' :
  group_now T news out0 P (ps_current s) (ps_out s) → length (rec rc) = w →
  batch_ok P (rc :: rs) P' → match rc with Positive r => news r | Negative r => ¬ news r end →
  ∃ s' P1, paginate_apply p s rc = Ok s' ∧ batch_ok P1 rs P' ∧ group_now T news out0 P1 (ps_current s') (ps_out s') ∧
    ps_key s' = ps_key s ∧ ps_missed s' = ps_missed s ∧ ps_misses s' = ps_misses s.
Proof using Hcol.
  intros [Hpg Hrows Hnew Hout Hnegs] Hlen Hb%batch_ok_cons Hn. destruct rc as [r|r]; simpl in Hlen.
  - eexists _, (r :: P). split_and!; [reflexivity|done| |done..]. constructor; simpl.
    + unfold paged. apply Forall_app. split; [done|]. constructor; [by right|done].
    + rewrite fmap_app, Hrows. unfold base_row. simpl. rewrite take_ge by lia. by rewrite (comm (++)).
    + intros row [Hr| ->%list_elem_of_singleton]%elem_of_app; [by apply Hnew|done].
    + intros x. rewrite Hout, filter_app, filter_cons_False, filter_nil, app_nil_r by (unfold old_paged; lia). done.
    + intros x. rewrite filter_app, filter_cons_False, filter_nil, app_nil_r by (unfold old_paged; lia). apply Hnegs.
  - destruct Hb as (P1 & HP & Hb).
    destruct (remove_paged_spec (ps_current s) r) as (row & C' & Heq & HC & Hrow); [by apply paged_wide| |].
    { rewrite Hrows, HP. apply elem_of_here. }
    unfold paginate_apply. destruct (ps_current s) as [|c0 cs] eqn:Ecs; [by apply Permutation_nil_l in HC|]. rewrite <-Ecs in *.
    unfold page_number_column. rewrite Hcol. cbn [expect mbind result_bind]. rewrite Heq. cbn [mbind result_bind].
    assert (paged (row :: C')) as [Hrow' HC']%Forall_cons by (unfold paged; by rewrite <-HC).
    assert (old_paged row) as Hold.
    { destruct Hrow' as [|Hnr]; [done|]. exfalso. apply Hn. rewrite <-Hrow. unfold base_row, new_row in *.
      rewrite take_ge by lia. apply Hnew; [rewrite HC; apply elem_of_here|done]. }
    assert (filter old_paged (ps_current s) ≡ₚ row :: filter old_paged C') as Hfilter
      by (rewrite HC; by rewrite filter_cons_True).
    eexists _, P1. split_and!; [reflexivity|done| |done..]. constructor; simpl.
    + done.
    + apply (Permutation_cons_inv (a := r)). rewrite <-HP, <-Hrows, HC, fmap_cons, Hrow. done.
    + intros row' Hr. apply Hnew. rewrite HC. by apply elem_of_further.
    + intros x. rewrite wt_app, Hout, (occ_perm x _ _ Hfilter). simpl. unfold sgn. simpl. case_decide; lia.
    + intros x. specialize (Hnegs x). rewrite (occ_perm x _ _ Hfilter) in Hnegs. rewrite negs_app. simpl in *.
      case_decide; lia.
Qed.

Context (own_lookup : list V → result (option (list (list V)))) (replay : ReplayContext V).
Context (Hgb : Forall (λ c, c < w) (pg_group_by p)) (Hgne : pg_group_by p ≠ []).
#[local] Abbreviation record := (paginate_record page own_lookup p replay).

Definition group_of r : list V := cols_at (pg_group_by p) r.
Lemma paginate_group_ok r : length r = w → paginate_group p r = Ok (group_of r).
Proof using Hgb. intros Hr. unfold paginate_group. by rewrite row_cols_at by (by rewrite Hr). Qed.

(** Records of a group that add the rows [news] and remove others. *)
Definition of_group (news : list V → Prop) (g : list V) rs : Prop :=
  Forall (λ rc, length (rec rc) = w ∧ group_of (rec rc) = g ∧
                match rc with Positive r => news r | Negative r => ¬ news r end) rs.

Lemma group_run g news T out0 rs P P' s :
  of_group news g rs → ps_key s = g → ps_missed s = false → group_now T news out0 P (ps_current s) (ps_out s) →
  batch_ok P rs P' →
  ∃ s', result_foldl record s rs = Ok s' ∧ group_now T news out0 P' (ps_current s') (ps_out s') ∧
    ps_key s' = g ∧ ps_misses s' = ps_misses s.
Proof using Hcol Hgb.
  intros Hg. revert P s. induction Hg as [|rc rs (Hlen & Hgr & Hn) Hg IH]; intros P s Hkey Hmiss Hnow Hb.
  - exists s. split_and!; [done| |done..]. apply batch_ok_nil in Hb. destruct Hnow. constructor; try done. by etrans.
  - destruct (group_now_step T news out0 P s rc rs P') as (s1 & P1 & Ha & Hb1 & Hnow1 & Hk1 & Hm1 & Hms1); [done..|].
    destruct (IH P1 s1) as (s' & Hs' & Hnow' & Hk' & Hms'); [congruence|congruence|done|done|].
    exists s'. split_and!; [|done|done|congruence]. cbn [result_foldl]. unfold paginate_record.
    rewrite paginate_group_ok by done. cbn [mbind result_bind]. rewrite decide_True by congruence.
    cbn [mbind result_bind]. by rewrite Hmiss, Ha.
Qed.

Lemma numbered_rows i l :
  Forall (λ r, length r = w) l → Forall old_paged (numbered i l) ∧ base_row <$> numbered i l = l.
Proof.
  intros Hl. revert i. induction Hl as [|r l Hr Hl IH]; intros i; [done|]. unfold numbered. rewrite imap_cons.
  assert (imap ((λ j r, r ++ [page (page_of (i + j))]) ∘ S) l = numbered (S i) l) as ->.
  { apply imap_ext. intros j r' _. simpl. by rewrite Nat.add_succ_r. }
  destruct (IH (S i)) as [IH1 IH2]. split.
  - constructor; [|done]. unfold old_paged. rewrite length_app. simpl. lia.
  - rewrite fmap_cons, IH2. f_equal. unfold base_row. by apply take_app_length'.
Qed.

(** At the end of a group. *)
Definition group_ended s s2 : Prop := paginate_end page p s = Ok s2 ∧ (ps_key s = [] → ps_current s = []).

(** Beginning another one. *)
Lemma group_start g rc rs s s2 rows :
  group_ended s s2 → ps_key s ≠ g → g ≠ [] → length (rec rc) = w → group_of (rec rc) = g →
  own_lookup g = Ok (Some rows) →
  ∃ s1, result_foldl record s (rc :: rs) = result_foldl record s1 (rc :: rs) ∧ ps_out s1 = ps_out s2 ∧ ps_key s1 = g ∧
    ps_missed s1 = false ∧ ps_current s1 = rows ∧ ps_misses s1 = ps_misses s2.
Proof using Hgb.
  intros [Hend Hnil] Hk Hg Hlen Hgr Hown.
  assert (∃ s1, paginate_begin page own_lookup p replay s g = Ok s1 ∧ ps_out s1 = ps_out s2 ∧ ps_key s1 = g ∧
    ps_missed s1 = false ∧ ps_current s1 = rows ∧ ps_misses s1 = ps_misses s2) as (s1 & Hbegin & Ho1 & Hk1 & Hm1 & Hrest).
  { assert (∃ s0, (match ps_key s with [] => Ok s | _ => paginate_end page p s end) = Ok s0 ∧ ps_out s0 = ps_out s2 ∧
      ps_current s0 = [] ∧ ps_misses s0 = ps_misses s2) as (s0 & Hs0 & Ho & Hc & Hm).
    { unfold paginate_end in Hend. destruct (paginate_post_group page p (ps_current s)) as [out| |] eqn:Ep; try done.
      simpl in Hend. injection Hend as <-. destruct (ps_key s) as [|v k] eqn:Ek.
      - exists s. simpl. rewrite (Hnil eq_refl) in *. injection Ep as <-. by rewrite app_nil_r.
      - unfold paginate_end. rewrite Ep. simpl. by eexists. }
    unfold paginate_begin. rewrite Hs0. cbn [mbind result_bind]. rewrite Hown. cbn [mbind result_bind].
    destruct g as [|v g]; [done|]. destruct (rc_is_partial replay); cbn [mbind result_bind]; eexists; (split; [reflexivity|]);
      simpl; by rewrite Hc. }
  assert (record s rc = record s1 rc) as Hrec.
  { unfold paginate_record. rewrite paginate_group_ok by done. cbn [mbind result_bind]. rewrite Hgr.
    rewrite (decide_False (P := ps_key s = g)), (decide_True (P := ps_key s1 = g)) by done. by rewrite Hbegin. }
  exists s1. destruct Hrest. split_and!; try done. cbn [result_foldl]. by rewrite Hrec.
Qed.

(** All the groups of a batch. *)
Lemma groups_run (gs : list (list V * list (Record V))) (G G' Tg : list V → list (list V)) news s s2 :
  NoDup gs.*1 → [] ∉ gs.*1 → ps_key s ∉ gs.*1 → group_ended s s2 →
  (∀ g recs, (g, recs) ∈ gs →
     recs ≠ [] ∧ of_group news g recs ∧ batch_ok (G g) recs (G' g) ∧ Forall (λ r, length r = w) (G g) ∧
     pages_of (G g) (Tg g) ∧ ∃ rows, own_lookup g = Ok (Some rows) ∧ rows ≡ₚ Tg g) →
  ∃ s' s2' Tn, result_foldl record s (concat gs.*2) = Ok s' ∧ group_ended s' s2' ∧ ps_misses s2' = ps_misses s2 ∧
    (∀ g, g ∈ gs.*1 → pages_of (G' g) (Tn g)) ∧
    ∀ x, wt x (ps_out s2') = (wt x (ps_out s2) + net_change x Tg Tn gs.*1)%Z ∧
         (negs x (ps_out s2') <= negs x (ps_out s2) + occ_over x Tg gs.*1)%Z.
Proof using Hcol Hord Hgb.
  revert s s2. induction gs as [|[g recs] gs IH]; intros s s2 Hnd Hnil Hkey Hend Hgs.
  { exists s, s2, Tg. split_and!; try done; [by intros ? ?%elem_of_nil|]. intros x. simpl. lia. }
  change (((g, recs) :: gs).*1) with (g :: gs.*1) in *. change (((g, recs) :: gs).*2) with (recs :: gs.*2) in *.
  cbn [concat]. apply NoDup_cons in Hnd as [Hni Hnd].
  apply not_elem_of_cons in Hnil as [Hg Hnil]. apply not_elem_of_cons in Hkey as [Hkg Hkey].
  destruct (Hgs g recs (elem_of_here _ _)) as (Hne & Hof & Hb & Hw & (l & Hl & Hls & HT) & rows & Hown & Hrows).
  destruct recs as [|rc recs]; [done|]. pose proof Hof as [(Hlen & Hgr & _) _]%Forall_cons.
  destruct (group_start g rc recs s s2 rows) as (s1 & Hfold & Ho1 & Hk1 & Hm1 & Hc1 & Hms1); [done..|].
  assert (Forall (λ r, length r = w) l) as Hlw by (by rewrite Hl). destruct (numbered_rows 0 l Hlw) as [Hnp Hnb].
  assert (Forall old_paged rows) as Hro by (by rewrite Hrows, HT).
  destruct (group_run g news (Tg g) (ps_out s2) (rc :: recs) (G g) (G' g) s1) as (s1' & Hrun & Hnow & Hk1' & Hms1'); try done.
  { rewrite Hc1, Ho1. constructor.
    - unfold paged. eapply Forall_impl; [exact Hro|]. by left.
    - by rewrite Hrows, HT, Hnb, Hl.
    - intros row Hr Hn. rewrite Forall_forall in Hro. specialize (Hro row Hr). unfold old_paged, new_row in *. lia.
    - intros x. rewrite filter_all by done. rewrite (occ_perm x _ _ Hrows). lia.
    - intros x. rewrite filter_all by done. rewrite (occ_perm x _ _ Hrows). lia. }
  destruct (post_group_pages (ps_current s1')) as (out & Tn & Hpost & HTn & Hwt); [apply Hnow|].
  destruct (IH s1' {| ps_out := ps_out s1' ++ out; ps_key := ps_key s1'; ps_missed := ps_missed s1'; ps_current := [];
    ps_misses := ps_misses s1'; ps_lookups := ps_lookups s1' |}) as (s' & s2' & Tn' & Hs' & Hend' & Hms' & HTn' & Hwt'); try done.
  { by rewrite Hk1'. }
  { split; [|by intros Hz; rewrite Hk1' in Hz; subst g]. unfold paginate_end. by rewrite Hpost. }
  { intros g' recs' Hin. apply Hgs. by apply elem_of_further. }
  exists s', s2', (λ k, if decide (k = g) then Tn else Tn' k). split_and!.
  - rewrite result_foldl_app, Hfold, Hrun. done.
  - done.
  - by rewrite Hms', <-Hms1, <-Hms1'.
  - intros k [->|Hk]%elem_of_cons.
    + rewrite decide_True by done. destruct HTn as (l' & Hl' & Hs'' & HT'). exists l'. split_and!; [|done..].
      rewrite Hl'. apply Hnow.
    + rewrite decide_False by (by intros ->). by apply HTn'.
  - intros x. destruct (Hwt' x) as [Hw1 Hn1]. destruct (Hwt x) as [Hw2 Hn2]. cbn [ps_out] in Hw1, Hn1.
    rewrite wt_app, Hw2, (gn_out _ _ _ _ _ _ Hnow x) in Hw1. rewrite negs_app in Hn1.
    pose proof (gn_negs _ _ _ _ _ _ Hnow x). cbn [net_change occ_over foldr].
    fold (net_change x Tg (λ k, if decide (k = g) then Tn else Tn' k) gs.*1). fold (occ_over x Tg gs.*1).
    rewrite decide_True by done. rewrite <-(net_change_ext_new x Tg Tn'); [lia|].
    intros k Hk. by rewrite decide_False by (by intros ->).
Qed.

(** ** A batch *)
Definition rows_in (g : list V) l : list (list V) := filter (λ r, group_of r = g) l.
(** The state [T] holds the pages of every group of the rows [P]. *)
Definition pages_ok P T : Prop := ∀ g, pages_of (rows_in g P) (rows_in g T).
(** A batch that does not both add and remove a row. *)
Definition no_cancel rs : Prop := ∀ r, Positive r ∈ rs → Negative r ∉ rs.

Lemma pages_group g P T x : Forall (λ r, length r = w) P → pages_of (rows_in g P) T → x ∈ T → group_of x = g.
Proof using Hgb.
  intros HP (l & Hl & _ & HT) Hx. rewrite HT in Hx. unfold numbered in Hx.
  apply elem_of_lookup_imap in Hx as (j & r & -> & Hr). apply list_elem_of_lookup_2 in Hr. rewrite Hl in Hr.
  apply list_elem_of_filter in Hr as [<- Hr]. rewrite Forall_forall in HP. specialize (HP r Hr).
  unfold group_of, cols_at. clear -Hgb HP. induction Hgb as [|c cs Hc Hcs IH]; [done|]. csimpl.
  rewrite lookup_app_l by lia. destruct (r !! c); [f_equal|]; exact (IH Hcs).
Qed.

(** Under [no_cancel] the order of the records does not matter. *)
Lemma no_cancel_wt rs x : no_cancel rs → wt x rs = (- negs x rs)%Z ∨ negs x rs = 0%Z.
Proof.
  intros Hc. destruct (decide (negs x rs = 0%Z)) as [|Hn]; [by right|]. left.
  assert (Negative x ∈ rs) as Hin.
  { clear Hc. induction rs as [|[r|r] rs IH]; simpl in Hn; [done|by apply elem_of_further, IH|].
    case_decide as Hr; [subst r; apply elem_of_here|by apply elem_of_further, IH]. }
  assert (Positive x ∉ rs) as Hp by (intros Hp; by apply (Hc x)). clear Hc Hn Hin.
  induction rs as [|[r|r] rs IH]; [done|..]; apply not_elem_of_cons in Hp as [Hr Hp]; simpl; rewrite (IH Hp);
    unfold sgn; simpl; [rewrite decide_False by congruence; lia|case_decide; lia].
Qed.
Lemma batch_ok_perm P rs rs' P' : rs ≡ₚ rs' → no_cancel rs → batch_ok P rs P' → batch_ok P rs' P'.
Proof.
  intros Hp Hc Hb. apply batch_ok_negs; [|intros x; rewrite <-(wt_perm x _ _ Hp); apply Hb].
  assert (no_cancel rs') as Hc' by (intros r; rewrite <-Hp; apply Hc).
  intros x. destruct (no_cancel_wt rs' x Hc') as [Hw| ->]; [|apply occ_nonneg].
  rewrite <-(wt_perm x _ _ Hp) in Hw. destruct Hb as [_ Ha]. specialize (Ha x). pose proof (occ_nonneg x P'). lia.
Qed.

Lemma sort_key_ok rc : length (rec rc) = w → paginate_sort_key p rc = group_of (rec rc).
Proof using Hgb. intros Hl. unfold paginate_sort_key. by rewrite paginate_group_ok. Qed.

(** The batch sorted, as groups. *)
Lemma paginate_groups rs :
  Forall (λ rc, length (rec rc) = w) rs →
  ∃ gs, sort_by (paginate_cmp p) rs = concat gs.*2 ∧ NoDup gs.*1 ∧ (∀ rc, rc ∈ rs → group_of (rec rc) ∈ gs.*1) ∧
    ∀ g recs, (g, recs) ∈ gs → recs ≠ [] ∧ recs ≡ₚ filter (λ rc, group_of (rec rc) = g) rs.
Proof using Hgb Hgne.
  intros Hrs. set (srt := sort_by (paginate_cmp p) rs). assert (srt ≡ₚ rs) as Hp by apply sort_by_perm.
  set (kl := (λ rc, (group_of (rec rc), rc)) <$> srt).
  assert (sorted_keys kl) as Hs.
  { unfold sorted_keys, kl. assert (StronglySorted (λ a b, paginate_cmp p a b ≠ Gt) srt) as Hs.
    { apply sort_by_sorted.
      - intros a b. unfold paginate_cmp. rewrite (cmp_antisym (paginate_sort_key p a)), (order_cmp_antisym _ (rec a)).
        destruct (cmp _ _), (order_cmp _ _ _); simpl; done.
      - intros a b c. unfold paginate_cmp. intros Hab Hbc.
        destruct (cmp (paginate_sort_key p a) (paginate_sort_key p b)) eqn:E1;
          destruct (cmp (paginate_sort_key p b) (paginate_sort_key p c)) eqn:E2; simpl in *; try done;
          destruct (cmp (paginate_sort_key p a) (paginate_sort_key p c)) eqn:E3; simpl; try done;
          try (by apply (ole_trans o _ (rec b))); ord_lia. }
    assert (Forall (λ rc, length (rec rc) = w) srt) as Hw by (by rewrite Hp). clear -Hs Hw Hgb.
    induction Hs as [|a l Hs IH Ha]; [constructor|]. apply Forall_cons in Hw as [Hwa Hw]. rewrite fmap_cons.
    constructor; [by apply IH|]. apply Forall_fmap. rewrite Forall_forall in Ha, Hw |- *. intros b Hb. simpl.
    specialize (Ha b Hb). unfold paginate_cmp in Ha. rewrite !sort_key_ok in Ha by auto.
    by destruct (cmp (group_of (rec a)) (group_of (rec b))). }
  destruct (group_adjacent_sorted kl Hs) as [Hlt Hg].
  assert (∀ k, (filter (λ kr : list V * Record V, kr.1 = k) kl).*2 = filter (λ rc, group_of (rec rc) = k) srt) as Hf.
  { intros k. unfold kl. clear. induction srt as [|rc l IH]; [done|]. rewrite fmap_cons, !filter_cons. simpl.
    case_decide; [rewrite fmap_cons; by f_equal|done]. }
  exists (group_adjacent kl). split_and!.
  - rewrite group_adjacent_concat. unfold kl. rewrite <-list_fmap_compose. symmetry. apply list_fmap_id.
  - by apply sorted_lt_NoDup.
  - intros rc Hrc. rewrite <-Hp in Hrc.
    assert (rc ∈ concat (group_adjacent kl).*2) as Hin.
    { rewrite group_adjacent_concat. unfold kl. rewrite <-list_fmap_compose. apply list_elem_of_fmap. by exists rc. }
    apply list_elem_of_In, in_concat in Hin as (recs & Hr2 & Hr1). apply list_elem_of_In in Hr1, Hr2.
    apply list_elem_of_fmap in Hr2 as ([g recs'] & -> & Hin). simpl in Hr1. rewrite (Hg _ _ Hin), Hf in Hr1.
    apply list_elem_of_filter in Hr1 as [-> _]. apply list_elem_of_fmap. by exists (g, recs').
  - intros g recs Hin. split; [intros ->; by eapply group_adjacent_nonempty|]. by rewrite (Hg _ _ Hin), Hf, Hp.
Qed.

Lemma groups_named g (recs : list (Record V)) rs :
  Forall (λ rc, length (rec rc) = w) rs → recs ≠ [] → recs ≡ₚ filter (λ rc, group_of (rec rc) = g) rs → g ≠ [].
Proof using Hgb Hgne.
  intros Hrs Hne Hr Hg. destruct recs as [|rc recs]; [done|].
  assert (rc ∈ filter (λ rc, group_of (rec rc) = g) rs) as [Hrc Hrc']%list_elem_of_filter by (rewrite <-Hr; apply elem_of_here).
  rewrite Forall_forall in Hrs. apply (f_equal length) in Hrc. unfold group_of in Hrc.
  rewrite cols_at_length in Hrc; [subst g; by destruct (pg_group_by p)|]. by rewrite (Hrs _ Hrc').
Qed.

Lemma sort_check_ok rs : Forall (λ rc, length (rec rc) = w) rs → paginate_sort_check p rs = Ok tt.
Proof using Hord.
  intros Hrs. unfold paginate_sort_check. rewrite (proj2 (forallb_forall _ _)); [done|]. intros rc Hrc%list_elem_of_In.
  rewrite Forall_forall in Hrs. by rewrite order_fits_wide, orb_true_r by (by rewrite Hrs).
Qed.

(** The pages of the groups [ks] replaced by [Tn]. *)
Lemma pages_state P rs P' T ks (Tn : list V → list (list V)) out :
  Forall (λ r, length r = w) P' → batch_ok P rs P' → pages_ok P T → NoDup ks →
  (∀ rc, rc ∈ rs → group_of (rec rc) ∈ ks) → (∀ g, g ∈ ks → pages_of (rows_in g P') (Tn g)) →
  (∀ x, wt x out = (0 + net_change x (λ g, rows_in g T) Tn ks)%Z ∧
        (negs x out <= 0 + occ_over x (λ g, rows_in g T) ks)%Z) →
  ∃ T', batch_ok T out T' ∧ pages_ok P' T'.
Proof using Hgb.
  intros HP' Hb Hok Hnd Hin HTn Hwt. set (T' := filter (λ r, group_of r ∉ ks) T ++ (ks ≫= Tn)). exists T'.
  assert (∀ k x, k ∈ ks → x ∈ Tn k → group_of x = k) as Htn.
  { intros k x Hk. by apply (pages_group k P'), HTn. }
  assert (∀ x, occ x T' = if decide (group_of x ∈ ks) then occ x (Tn (group_of x)) else occ x T) as HT'.
  { intros x. unfold T'. rewrite occ_app, occ_filter.
    assert (occ x (ks ≫= Tn) = occ_over x Tn ks) as ->.
    { clear. induction ks as [|k ks IH]; [done|]. rewrite bind_cons, occ_app, IH. done. }
    rewrite (occ_over_at x Tn ks (group_of x)); [|done|].
    - pose proof (occ_nonneg x T). repeat case_decide; try done; lia.
    - intros k Hk Hne Hx. by apply Hne; symmetry; apply (Htn k). }
  split.
  - apply batch_ok_negs; intros x; destruct (Hwt x) as [Hw Hn].
    + rewrite (occ_over_at x _ ks (group_of x)) in Hn; [|done|].
      * unfold rows_in in Hn. rewrite occ_filter in Hn. pose proof (occ_nonneg x T). repeat case_decide; try done; lia.
      * intros k Hk Hne [Hx _]%list_elem_of_filter. congruence.
    + rewrite HT', Hw, (net_change_at x _ _ ks (group_of x)); [|done|].
      * unfold rows_in. rewrite occ_filter. repeat case_decide; try done; lia.
      * intros k Hk Hne. split; [intros [Hx _]%list_elem_of_filter; congruence|].
        intros Hx. by apply Hne; symmetry; apply (Htn k).
  - intros g. assert (rows_in g T' ≡ₚ if decide (g ∈ ks) then Tn g else rows_in g T) as HTg.
    { apply same_rows_perm. intros x. unfold rows_in at 1. rewrite occ_filter, HT'. case_decide as Hx.
      - subst g. case_decide; [done|]. unfold rows_in. by rewrite occ_filter, decide_True.
      - symmetry. apply occ_zero. case_decide; [intros Hx'; by apply Hx, (Htn g)|by intros [? _]%list_elem_of_filter]. }
    case_decide as Hg; [destruct (HTn g Hg) as (l & Hl & Hs & HTl)|destruct (Hok g) as (l & Hl & Hs & HTl)];
      exists l; (split_and!; [|done|by rewrite HTg]); [done|].
    rewrite Hl. apply batch_ok_nil. replace [] with (filter (λ rc, group_of (rec rc) = g) rs).
    + exact (batch_ok_filter (λ r, group_of r = g) _ _ _ Hb).
    + apply filter_none, Forall_forall. intros rc Hrc <-. by apply Hg, Hin.
Qed.

(** C29: A batch that does not both add and remove a row takes the pages of every group to
    the pages of its new rows: the rows in the reverse of the operator's order, every
    page but the last with [limit] of them.  The records that are emitted retract only
    rows of the state. *)
Theorem paginate_maintains P rs P' T :
  Forall (λ r, length r = w) P → Forall (λ rc, length (rec rc) = w) rs → no_cancel rs →
  batch_ok P rs P' → pages_ok P T → (∀ g, ∃ rows, own_lookup g = Ok (Some rows) ∧ rows ≡ₚ rows_in g T) →
  ∃ out T', paginate_on_input page own_lookup p replay rs = Ok out ∧ pr_misses out = [] ∧
    batch_ok T (pr_results out) T' ∧ pages_ok P' T'.
Proof using Hcol Hord Hgb Hgne.
  intros HP Hrs Hnc Hb Hok Hown.
  assert (Forall (λ r, length r = w) P') as HP' by (eapply batch_ok_forall; [exact HP|exact Hrs|exact Hb]).
  destruct (paginate_groups rs Hrs) as (gs & Hsrt & Hnd & Hin & Hgs).
  destruct (groups_run gs (λ g, rows_in g P) (λ g, rows_in g P') (λ g, rows_in g T) (λ r, Positive r ∈ rs)
    paginate_state_init paginate_state_init) as (s' & s2 & Tn & Hrun & [Hend Hnil] & Hms & HTn & Hwt); try done.
  { intros ([g recs] & Heq & Hg)%list_elem_of_fmap. destruct (Hgs _ _ Hg). by eapply (groups_named g recs rs). }
  { intros ([g recs] & Heq & Hg)%list_elem_of_fmap. destruct (Hgs _ _ Hg). by eapply (groups_named g recs rs). }
  { intros g recs Hg. destruct (Hgs _ _ Hg) as [Hne Hr]. split_and!; [done|..].
    - apply Forall_forall. intros rc Hrc. rewrite Hr in Hrc. apply list_elem_of_filter in Hrc as [Hk Hrc].
      rewrite Forall_forall in Hrs. split_and!; [by apply Hrs|done|]. destruct rc as [r|r]; [done|].
      intros Hpos. by apply (Hnc r).
    - eapply batch_ok_perm; [symmetry; exact Hr| |].
      + intros r [_ Hpos]%list_elem_of_filter [_ Hneg]%list_elem_of_filter. by apply (Hnc r).
      + exact (batch_ok_filter (λ r, group_of r = g) _ _ _ Hb).
    - by apply Forall_filter_keep.
    - apply Hok.
    - destruct (Hown g) as (rows & Hr1 & Hr2). by exists rows. }
  destruct (pages_state P rs P' T gs.*1 Tn (ps_out s2)) as (T' & HbT & HT'); try done.
  exists {| pr_results := ps_out s2; pr_lookups := ps_lookups s2; pr_misses := ps_misses s2 |}, T'. split_and!; try done.
  unfold paginate_on_input. destruct rs as [|rc rs].
  { assert (gs = []) as ->.
    { destruct gs as [|[g recs] gs]; [done|]. destruct (Hgs g recs (elem_of_here _ _)) as [Hne Hr]. by apply Permutation_nil_r in Hr. }
    simpl in Hrun. injection Hrun as <-. unfold paginate_end in Hend. simpl in Hend. by injection Hend as <-. }
  rewrite sort_check_ok by done. cbn [mbind result_bind]. rewrite Hsrt, Hrun. cbn [mbind result_bind].
  destruct (ps_current s') as [|c cs] eqn:Ec; [|by rewrite Hend].
  unfold paginate_end in Hend. rewrite Ec in Hend. injection Hend as <-. simpl. by rewrite app_nil_r.
Qed.
End props.

(** ** Instances *)
(** Pages of two rows, grouped by column 0 and ordered by column 1. *)
Definition sample_paginate : Paginate := paginate_on_connected (paginate_new 0 1 [(1, OrderDescending)] [0] 2) 2.
Definition sample_page (n : nat) : SampleVal := SInt (Z.of_nat n).
Definition sample_paged : list (list SampleVal) :=
  [[SInt 1; SInt 10; SInt 0]; [SInt 1; SInt 20; SInt 0]; [SInt 1; SInt 30; SInt 1]].

Lemma paginate_maintains_witness :
  ∃ out T', paginate_on_input sample_page (λ g, Ok (Some (rows_in sample_paginate g sample_paged))) sample_paginate RcNone
      [Positive [SInt 1; SInt 15]; Negative [SInt 1; SInt 10]] = Ok out ∧ pr_misses out = [] ∧
    batch_ok sample_paged (pr_results out) T' ∧
    pages_ok sample_page sample_paginate [[SInt 1; SInt 20]; [SInt 1; SInt 30]; [SInt 1; SInt 15]] T'.
Proof.
  apply (paginate_maintains sample_page sample_paginate 2 eq_refl) with
    (P := [[SInt 1; SInt 10]; [SInt 1; SInt 20]; [SInt 1; SInt 30]]).
  - repeat constructor.
  - repeat constructor.
  - done.
  - repeat constructor.
  - repeat constructor.
  - intros r [[= ->]|[[=]|?%elem_of_nil]%elem_of_cons]%elem_of_cons; [|done]. set_solver.
  - split.
    + intros r n. destruct n as [|[|[|n]]]; simpl; unfold sgn; simpl; repeat case_decide; lia.
    + intros r. simpl. unfold sgn. simpl. repeat case_decide; lia.
  - intros g. unfold rows_in, group_of. destruct (decide (g = [SInt 1])) as [->|Hg].
    + exists [[SInt 1; SInt 10]; [SInt 1; SInt 20]; [SInt 1; SInt 30]]. split_and!; [done| |done]. repeat (constructor; try done).
    + exists []. rewrite !filter_none by (repeat constructor; intros Heq; by apply Hg). split_and!; [done|constructor|done].
  - intros g. by eexists.
Defined.

(** A row that is added and removed in one batch is retracted without having been
    emitted, and without a page. *)
Theorem paginate_cancelled_row :
  let batch := [Positive [SInt 1; SInt 15]; Negative [SInt 1; SInt 15]] in
  paginate_on_input sample_page (λ _, Ok (Some [])) sample_paginate RcNone batch =
    Ok {| pr_results := [Negative [SInt 1; SInt 15]]; pr_lookups := []; pr_misses := [] |}.
Proof. reflexivity. Qed.
