(* ===== verification/OpLatest.v ===== *)
(** * OpLatest: the latest operator

    Models [readyset-dataflow/src/ops/latest.rs]: the operator keeps in its own state,
    for every value of its key column, the record that arrived last, and retracts the
    one before it.  [latest_maintains] shows that it does for a batch with one record
    per key; [latest_same_key] shows what happens otherwise.

    The state holds at most one row of a key, which only debug builds check. *)
From S2P Require Import Prelude Intervals Result Records Keys Processing Batches.

Record Latest := { lt_src : nat; lt_us : nat; lt_key : nat }.

Section latest.
Context `{DfVal V} (own_lookup : list V → result (option (list (list V)))).
Implicit Types (r x : list V) (rc : Record V) (rs : list (Record V)) (l : Latest) (T : list (list V)).

(** Retractions are dropped. *)
Definition latest_record l (replay : ReplayContext V) (acc : ProcessingResult V) rc : result (ProcessingResult V) :=
  match rc with
  | Negative _ => Ok acc
  | Positive r =>
      k ← expect (r !! lt_key l);
      own ← own_lookup [k];
      match own with
      | Some rows =>
          Ok (pr_append acc
            {| pr_results := match rows with row :: _ => [Negative row] | [] => [] end ++ [Positive r];
               pr_lookups := if rc_is_partial replay
                 then [{| lookup_on := lt_us l; lookup_cols := [lt_key l]; lookup_key := KEqual [k] |}] else [];
               pr_misses := [] |})
      | None =>
          m ← build_miss (lt_us l) [lt_key l] (MlkRecordColumns [lt_key l]) replay None r;
          Ok (pr_append acc {| pr_results := []; pr_lookups := []; pr_misses := [m] |})
      end
  end.
Definition latest_on_input l (replay : ReplayContext V) rs : result (ProcessingResult V) :=
  result_foldl (latest_record l replay) pr_empty rs.
Definition latest_column_source l (cols : list nat) : result ColumnSource :=
  match cols with [] => Panic | _ => Ok (CsExactCopy (lt_src l) cols) end.

(** ** The last record of every key *)
Definition rows_at l (k : V) T : list (list V) := filter (λ r, r !! lt_key l = Some k) T.
Definition latest_ok l (last : V → option (list V)) T : Prop := ∀ k, rows_at l k T ≡ₚ option_list (last k).
(** The keys of the records that are added. *)
Definition added l rs : list V := omap (λ rc, if is_positive rc then rec rc !! lt_key l else None) rs.
(** What the records make of it. *)
Definition last_after l (last : V → option (list V)) rs : V → option (list V) :=
  foldl (λ last rc k, if is_positive rc then if decide (rec rc !! lt_key l = Some k) then Some (rec rc) else last k
                      else last k) last rs.

Lemma latest_step l (last : V → option (list V)) T r k :
  latest_ok l last T → r !! lt_key l = Some k →
  ∃ T', batch_ok T (match last k with Some row => [Negative row] | None => [] end ++ [Positive r]) T' ∧
    latest_ok l (λ k', if decide (r !! lt_key l = Some k') then Some r else last k') T'.
Proof.
  intros Hok Hk. destruct (last k) as [o|] eqn:Ho.
  - assert (o ∈ rows_at l k T) as [Hok' Hin]%list_elem_of_filter by (rewrite Hok, Ho; apply elem_of_here).
    apply elem_of_Permutation in Hin as [T0 HT]. exists (r :: T0). split.
    + apply batch_ok_negs; intros x; simpl; unfold sgn; simpl; rewrite (occ_perm x _ _ HT); simpl;
        pose proof (occ_nonneg x T0); repeat case_decide; lia.
    + intros k'. unfold rows_at. rewrite filter_cons. specialize (Hok k'). unfold rows_at in Hok.
      rewrite HT, filter_cons in Hok. destruct (decide (r !! lt_key l = Some k')) as [Hk'|Hk'].
      * assert (k' = k) as -> by congruence. rewrite decide_True in Hok by done. rewrite Ho in Hok. simpl in *.
        apply Permutation_cons_inv in Hok. by rewrite Hok.
      * by rewrite decide_False in Hok by congruence.
  - exists (r :: T). split.
    + apply batch_ok_negs; intros x; simpl; unfold sgn; simpl; [apply occ_nonneg|]. case_decide; lia.
    + intros k'. unfold rows_at. rewrite filter_cons. specialize (Hok k'). unfold rows_at in Hok.
      destruct (decide (r !! lt_key l = Some k')) as [Hk'|Hk']; [|done].
      assert (k' = k) as -> by congruence. rewrite Ho in Hok. simpl in *. by rewrite Hok.
Qed.

Lemma latest_run l replay rs acc (last0 last : V → option (list V)) T0 T :
  Forall (λ rc, lt_key l < length (rec rc)) rs → NoDup (added l rs) →
  (∀ k, k ∈ added l rs → ∃ rows, own_lookup [k] = Ok (Some rows) ∧ rows ≡ₚ option_list (last k)) →
  pr_misses acc = [] → batch_ok T0 (pr_results acc) T → latest_ok l last T →
  ∃ out T', result_foldl (latest_record l replay) acc rs = Ok out ∧ pr_misses out = [] ∧
    batch_ok T0 (pr_results out) T' ∧ latest_ok l (last_after l last rs) T'.
Proof.
  intros Hrs. revert acc last T. induction Hrs as [|rc rs Hrc Hrs IH]; intros acc last T Hnd Hown Hm Hb Hok.
  { exists acc, T. by split_and!. }
  cbn [result_foldl]. destruct rc as [r|r]; cbn [rec] in Hrc; [|by apply (IH acc last T)].
  destruct (lookup_lt_is_Some_2 r _ Hrc) as [k Hk]. unfold added in Hnd, Hown. csimpl in Hnd. csimpl in Hown.
  rewrite Hk in Hnd, Hown. apply NoDup_cons in Hnd as [Hni Hnd].
  destruct (Hown k (elem_of_here _ _)) as (rows & Hrows & Hp).
  destruct (latest_step l last T r k Hok Hk) as (T1 & Hb1 & Hok1).
  unfold latest_record at 2. rewrite Hk. cbn [expect mbind result_bind]. rewrite Hrows. cbn [mbind result_bind].
  apply (IH _ _ T1); [done| |by cbn; rewrite Hm| |done].
  - intros k' Hk'. cbn [rec is_positive]. rewrite decide_False by (rewrite Hk; by intros [= ->]). apply Hown. by apply elem_of_further.
  - cbn. eapply batch_ok_app; [exact Hb|]. destruct (last k) as [o|]; simpl in Hp.
    + by apply Permutation_singleton_r in Hp as ->.
    + by apply Permutation_nil_r in Hp as ->.
Qed.

(** A batch with at most one record to add for every key: the state that has the last
    record of every key gets the last record of every key, and only rows of it are
    retracted. *)
Theorem latest_maintains l replay rs (last : V → option (list V)) T :
  Forall (λ rc, lt_key l < length (rec rc)) rs → NoDup (added l rs) → latest_ok l last T →
  (∀ k, ∃ rows, own_lookup [k] = Ok (Some rows) ∧ rows ≡ₚ rows_at l k T) →
  ∃ out T', latest_on_input l replay rs = Ok out ∧ pr_misses out = [] ∧
    batch_ok T (pr_results out) T' ∧ latest_ok l (last_after l last rs) T'.
Proof.
  intros Hrs Hnd Hok Hown. apply (latest_run l replay rs pr_empty last last T T); try done.
  - intros k _. destruct (Hown k) as (rows & Hr & Hp). exists rows. split; [done|]. by rewrite Hp, Hok.
  - apply batch_ok_negs; intros x; simpl; [apply occ_nonneg|lia].
Qed.
End latest.

(** ** Instances *)
Definition sample_latest : Latest := {| lt_src := 0; lt_us := 1; lt_key := 0 |}.
Definition sample_last : list (list SampleVal) := [[SInt 1; SInt 10]; [SInt 2; SInt 20]].

Lemma latest_maintains_witness :
  ∃ out T', latest_on_input (λ k, Ok (Some (filter (λ r, take 1 r = k) sample_last))) sample_latest RcNone
      [Positive [SInt 1; SInt 11]; Negative [SInt 1; SInt 10]; Positive [SInt 3; SInt 30]] = Ok out ∧ pr_misses out = [] ∧
    batch_ok sample_last (pr_results out) T' ∧
    latest_ok sample_latest (last_after sample_latest (λ k, head (rows_at sample_latest k sample_last))
      [Positive [SInt 1; SInt 11]; Negative [SInt 1; SInt 10]; Positive [SInt 3; SInt 30]]) T'.
Proof.
  apply latest_maintains.
  - repeat (constructor; simpl; try lia).
  - apply (bool_decide_eq_true_1 _). reflexivity.
  - intros k. unfold rows_at, sample_last. rewrite !filter_cons, filter_nil. simpl. repeat case_decide; simplify_eq; done.
  - intros k. eexists. split; [reflexivity|]. unfold rows_at, sample_last. rewrite !filter_cons, !filter_nil. simpl.
    repeat case_decide; simplify_eq; done.
Defined.

(** Two records of one key in a batch both retract the record before them: it is
    retracted twice, and both of them stay. *)
Theorem latest_same_key :
  ∃ out, latest_on_input (λ k, Ok (Some (filter (λ r, take 1 r = k) sample_last))) sample_latest RcNone
      [Positive [SInt 1; SInt 11]; Positive [SInt 1; SInt 12]] = Ok out ∧
    wt [SInt 1; SInt 10] (pr_results out) = (-2)%Z ∧
    wt [SInt 1; SInt 11] (pr_results out) = 1%Z ∧ wt [SInt 1; SInt 12] (pr_results out) = 1%Z.
Proof. eexists. split; [reflexivity|]. by vm_compute. Qed.
