(* ===== verification/NodeProcess.v ===== *)
(** * NodeProcess: a packet at a node

    Models [readyset-dataflow/src/node/process.rs]: what every kind of node does with
    a packet, an eviction or a timestamp, and the unique misses of a result; the nodes
    themselves are those of [node/mod.rs] and [node/ntype.rs].

    A node works on the state of its domain through three interfaces: [NodeState] is
    the state of a node ([MaterializedNodeState]), [ReaderState] the state of a reader
    ([backlog::WriteHandle]) and [Ingredient] the operators.  After an error the
    environment is what it was when the call that failed began. *)
From stdpp Require Import gmap.
From S2P Require Import Prelude Intervals BTreeMap IntervalTree PartialMap Result Records Keys Processing Batches.
From S2P Require Import Crates KeyedState SingleState Replication MemoryState Base Timestamp Effects Payload.
From S2P Require Import OpGrouped PacketFilter Sharder Egress Hashing ReplayPaths.

(** ** What nodes are made of *)
(** The state of a node; [st_snapshot_mode] is that of persistent state, which also
    looks up many keys at once ([st_lookup_multi] is [None] for other state), and
    [st_evict_bytes] is given the random numbers that it draws. *)
Class NodeState (V S : Type) `{DfVal V} := {
  st_is_partial : S → bool;
  st_lookup : S → list nat → PointKey V → result (LookupResult V);
  st_lookup_weak : S → list nat → PointKey V → result (option (list (list V)));
  st_lookup_range : S → list nat → RangeKey V → result (RangeLookupResult V);
  st_lookup_multi : S → option (list nat → list (PointKey V) → result (list (list (list V))));
  st_process_records : S → list (Record V) → option nat → option ReplicationOffset → result (list (Record V) * S);
  st_mark_filled : S → KeyComparison V → nat → result S;
  st_mark_hole : S → KeyComparison V → nat → result S;
  st_evict_keys : S → nat → list (KeyComparison V) → result (option Index * S);
  st_evict_bytes : S → nat → list nat → result (option (Index * list (list V)) * S);
  st_base_db : S → BaseDb V;
  st_snapshot_mode : S → bool;
  st_set_snapshot_mode : S → bool → S;
}.

(** In-memory state is never in snapshot mode.  The first random number chooses the
    index to evict from; the sizes of rows decide after how many keys it stops. *)
#[export] Instance memory_node_state `{DfVal V} `{!HashBag (list V) Rows} `{!IndexMap (list V) Rows IM} :
    NodeState V (MemoryState V Rows IM ReplicationOffset) :=
  {| st_is_partial := ms_is_partial;
     st_lookup := ms_lookup;
     st_lookup_weak := ms_lookup_weak;
     st_lookup_range := ms_lookup_range;
     st_lookup_multi := λ _, None;
     st_process_records := ms_process_records;
     st_mark_filled := ms_mark_filled;
     st_mark_hole := ms_mark_hole;
     st_evict_keys := ms_evict_keys;
     st_evict_bytes := λ ms _ seeds,
       match seeds with
       | i :: seeds =>
           s ← expect (ms_state ms !! i);
           '(keys, ms') ← ms_evict_random ms i seeds;
           Ok (match keys with [] => None | _ => Some (ss_index s, keys) end, ms')
       | [] => Panic
       end;
     st_base_db := λ ms, {| db_lookup := ms_lookup ms; db_cloned_records := ms_cloned_records ms |};
     st_snapshot_mode := λ _, false;
     st_set_snapshot_mode := λ ms _, ms |}.

(** The state of a reader; [rs_contains] says whether [contains] is [Ok(true)]. *)
Class ReaderState (V W : Type) `{DfVal V} := {
  rs_process : W → Packet V → bool → result (W * Packet V);
  rs_contains : W → KeyComparison V → result bool;
  rs_interval_difference : W → KeyComparison V → result (option (list (KeyComparison V)));
  rs_mark_filled : W → KeyComparison V → result W;
  rs_mark_hole : W → KeyComparison V → result W;
  rs_swap : W → result W;
  rs_notify_readers : W → result W;
  rs_notify_readers_of_eviction : W → result W;
  rs_set_timestamp : W → Timestamp → result W;
  rs_evict_bytes : W → nat → result W;
}.

(** [RawProcessingResult]. *)
Inductive RawProcessingResult (V : Type) :=
  | RawRegular (r : ProcessingResult V)
  | RawFullReplay (rows : list (Record V)) (last : bool)
  | RawCapturedFull
  | RawReplayPiece (rows : list (Record V)) (keys captured : list (KeyComparison V)).
Arguments RawRegular {V}.
Arguments RawFullReplay {V}.
Arguments RawCapturedFull {V}.
Arguments RawReplayPiece {V}.

(** [IngredientLookupResult]: [None] is a miss; every row may be an error. *)
Definition IngredientLookupResult (V : Type) : Type := option (list (result (list V))).
(** [Ingredient::lookup], with the nodes and their state: the rows of a parent. *)
Definition Lookups (V : Type) : Type := nat → list nat → PointKey V → LookupMode → result (IngredientLookupResult V).

(** The operators; [S] is the state that they keep.  The nodes of a [ColumnSource]
    are global here. *)
Class Ingredient (V S Op : Type) `{DfVal V} := {
  on_input_raw : Op → nat → list (Record V) → ReplayContext V → gmap nat S → Lookups V →
    result (RawProcessingResult V * Op);
  ig_query_through : Op → Lookups V → list nat → PointKey V → LookupMode → result (IngredientLookupResult V);
  on_eviction : Op → nat → nat → list (KeyComparison V) → Op;
  ig_column_source : Op → list nat → result ColumnSource;
  ig_handle_upquery : Op → ColumnMiss V → result (list (ColumnMiss V));
  ig_can_query_through : Op → bool;
  ig_is_join : Op → bool;
  ig_is_shard_merger : Op → bool;
}.

Record ReaderNode := { rn_materialized : bool; rn_index_type : option IndexType }.

Inductive NodeType (V Op : Type) :=
  | NtIngress
  | NtBase (b : Base V)
  | NtInternal (op : Op)
  | NtEgress (e : option (Egress V))
  | NtSharder (s : Sharder V)
  | NtReader (r : ReaderNode)
  | NtSource
  | NtDropped.
Arguments NtIngress {V Op}.
Arguments NtBase {V Op}.
Arguments NtInternal {V Op}.
Arguments NtEgress {V Op}.
Arguments NtSharder {V Op}.
Arguments NtReader {V Op}.
Arguments NtSource {V Op}.
Arguments NtDropped {V Op}.

(** [Ty] is the type of a column. *)
Record Node (V Op Ty : Type) := {
  n_local : nat;
  n_global : nat;
  n_columns : list Ty;
  n_parents : list nat;
  n_children : list nat;
  n_inner : NodeType V Op;
  n_taken : bool;
  n_purge : bool;
  n_timestamps : gmap nat Timestamp;
}.
Arguments n_local {V Op Ty}.
Arguments n_global {V Op Ty}.
Arguments n_columns {V Op Ty}.
Arguments n_parents {V Op Ty}.
Arguments n_children {V Op Ty}.
Arguments n_inner {V Op Ty}.
Arguments n_taken {V Op Ty}.
Arguments n_purge {V Op Ty}.
Arguments n_timestamps {V Op Ty}.

(** What a domain hands to a node: its nodes, their state, and what was sent. *)
Record Env (V S W Op Ty : Type) := {
  env_nodes : gmap nat (Node V Op Ty);
  env_state : gmap nat S;
  env_readers : gmap nat W;
  env_sent : sends V;
}.
Arguments env_nodes {V S W Op Ty}.
Arguments env_state {V S W Op Ty}.
Arguments env_readers {V S W Op Ty}.
Arguments env_sent {V S W Op Ty}.

(** [NodeProcessingResult]. *)
Record NodeProcessingResult (V : Type) := {
  np_misses : list (Miss V);
  np_lookups : list (Lookup V);
  np_captured : list (KeyComparison V);
}.
Arguments np_misses {V}.
Arguments np_lookups {V}.
Arguments np_captured {V}.
Definition np_default {V} : NodeProcessingResult V := {| np_misses := []; np_lookups := []; np_captured := [] |}.

(** ** Unique misses *)
Section misses.
Context `{DfVal V}.
Implicit Types (m : Miss V).

(** Derived [==]. *)
Definition miss_lookup_key_eq (a b : MissLookupKey (V:=V)) : bool :=
  match a, b with
  | MlkRecordColumns c, MlkRecordColumns d => bool_decide (c = d)
  | MlkKey k, MlkKey l => kc_eq k l
  | _, _ => false
  end.
Definition miss_replay_key_eq (a b : option (MissReplayKey (V:=V))) : bool :=
  match a, b with
  | None, None => true
  | Some (MrkRecordColumns c), Some (MrkRecordColumns d) => bool_decide (c = d)
  | Some (MrkRange r), Some (MrkRange s) => bool_decide (r = s)
  | _, _ => false
  end.

(** [MissSet]: the miss it was made from stands for its first four fields. *)
Record MissSet := { mset_of : Miss V; mset_set : list (list V * Miss V) }.
Definition miss_set_from m : MissSet := {| mset_of := m; mset_set := [(miss_record m, m)] |}.
Definition same_lookup m m' : bool :=
  bool_decide (miss_on m = miss_on m') && bool_decide (miss_lookup_idx m = miss_lookup_idx m') &&
  miss_lookup_key_eq (miss_lookup_key m) (miss_lookup_key m') &&
  miss_replay_key_eq (miss_replay_key m) (miss_replay_key m').
(** [HashMap::insert]: a record that is there already keeps its place. *)
Fixpoint set_record (l : list (list V * Miss V)) (r : list V) m : list (list V * Miss V) :=
  match l with
  | [] => [(r, m)]
  | (r', m') :: l' => if bool_decide (r' = r) then (r', m) :: l' else (r', m') :: set_record l' r m
  end.
Definition miss_set_add (s : MissSet) m : MissSet * bool :=
  if same_lookup m (mset_of s)
  then ({| mset_of := mset_of s; mset_set := set_record (mset_set s) (miss_record m) m |}, true)
  else (s, false).

(** [misses.filter(|miss| !set.add(miss)).collect()]. *)
Fixpoint filter_into (s : MissSet) (misses : list (Miss V)) : MissSet * list (Miss V) :=
  match misses with
  | [] => (s, [])
  | m :: misses' =>
      let '(s1, added) := miss_set_add s m in
      let '(s2, rest) := filter_into s1 misses' in
      (s2, if (added : bool) then rest else m :: rest)
  end.
(** The passes over the misses that are left; every pass takes at least one. *)
Fixpoint miss_sets (fuel : nat) (misses : list (Miss V)) : list MissSet :=
  match fuel, misses with
  | _, [] | O, _ => []
  | S fuel', first :: misses' =>
      let '(s, filtered) := filter_into (miss_set_from first) misses' in s :: miss_sets fuel' filtered
  end.
Definition unique_misses (misses : list (Miss V)) : list (Miss V) :=
  miss_sets (length misses) misses ≫= λ s, (mset_set s).*2.
End misses.

(** ** Nodes *)
Section nodes.
Context `{DfNum V} {K : Type} `{Countable K} (kind_of : V → K) {Ty : Type} (coerce : Ty → V → result V).
Context (shard_hash : V → option N) {S W Op : Type}.
Context `{!NodeState V S} `{!ReaderState V W} `{!Ingredient V S Op}.
#[local] Abbreviation Key := (KeyComparison V).
#[local] Abbreviation Node := (Node V Op Ty).
#[local] Abbreviation Env := (Env V S W Op Ty).
Implicit Types (n : Node) (e : Env) (m : Packet V) (keys : list Key).

Definition is_dropped n : bool := match n_inner n with NtDropped => true | _ => false end.
Definition is_reader n : bool := match n_inner n with NtReader _ => true | _ => false end.
Definition is_internal n : bool := match n_inner n with NtInternal _ => true | _ => false end.
Definition is_sender n : bool := match n_inner n with NtEgress _ | NtSharder _ => true | _ => false end.
Definition is_base n : bool := match n_inner n with NtBase _ => true | _ => false end.
Definition is_shard_merger n : bool := match n_inner n with NtInternal op => ig_is_shard_merger op | _ => false end.
Definition can_query_through n : bool := match n_inner n with NtInternal op => ig_can_query_through op | _ => false end.

(** [resolve]: the columns of the parents that a column is a copy of. *)
Definition resolve n (i : nat) : result (option (list (nat * nat))) :=
  match n_inner n with
  | NtInternal op =>
      src ← ig_column_source op [i];
      match src with
      | CsExactCopy node cols => c ← expect (head cols); Ok (Some [(node, c)])
      | CsUnion refs => l ← result_mapM (λ r, c ← expect (head r.2); Ok (r.1, c)) refs; Ok (Some l)
      | _ => Ok None
      end
  | _ => Panic
  end.
Definition parent_columns n (column : nat) : result (list (nat * option nat)) :=
  match n_inner n with
  | NtInternal op =>
      src ← ig_column_source op [column];
      Ok match src with
         | CsExactCopy node cols => [(node, head cols)]
         | CsGenerated refs => (λ r, (r.1, None)) <$> refs
         | CsFullReplay nodes => (λ x, (x, None)) <$> nodes
         | CsUnion refs => (λ r, (r.1, head r.2)) <$> refs
         end
  | _ => Panic
  end.

(** [Node::handle_upquery]. *)
Definition node_handle_upquery n (miss : ColumnMiss V) : result (list (ColumnMiss V)) :=
  if n_taken n then Err NodeAlreadyTaken
  else match n_inner n with NtInternal op => ig_handle_upquery op miss | _ => Err NonInternalNode end.
(** [Node::is_join]. *)
Definition is_join n : result bool :=
  match n_inner n with NtInternal op => Ok (ig_is_join op) | _ => Err NonInternalNode end.

(** Assignments to parts of the environment. *)
Definition set_inner n (x : NodeType V Op) : Node :=
  {| n_local := n_local n; n_global := n_global n; n_columns := n_columns n; n_parents := n_parents n;
     n_children := n_children n; n_inner := x; n_taken := n_taken n; n_purge := n_purge n; n_timestamps := n_timestamps n |}.
Definition set_timestamps n (x : gmap nat Timestamp) : Node :=
  {| n_local := n_local n; n_global := n_global n; n_columns := n_columns n; n_parents := n_parents n;
     n_children := n_children n; n_inner := n_inner n; n_taken := n_taken n; n_purge := n_purge n; n_timestamps := x |}.
Definition put_node (i : nat) n e : Env :=
  {| env_nodes := <[i := n]> (env_nodes e); env_state := env_state e; env_readers := env_readers e; env_sent := env_sent e |}.
Definition put_state (i : nat) (s : S) e : Env :=
  {| env_nodes := env_nodes e; env_state := <[i := s]> (env_state e); env_readers := env_readers e; env_sent := env_sent e |}.
Definition put_reader (i : nat) (w : W) e : Env :=
  {| env_nodes := env_nodes e; env_state := env_state e; env_readers := <[i := w]> (env_readers e); env_sent := env_sent e |}.
Definition put_sent (x : sends V) e : Env :=
  {| env_nodes := env_nodes e; env_state := env_state e; env_readers := env_readers e; env_sent := x |}.

Definition get_node (i : nat) : eff Env Node := e ← get; lift (expect (env_nodes e !! i)).

(** Changes of the state of a node, or of a reader, if there is one. *)
Definition on_state (i : nat) (f : S → result S) : eff Env () :=
  e ← get;
  match env_state e !! i with
  | Some s => s' ← lift (f s); modify (put_state i s')
  | None => mret ()
  end.
Definition on_reader (i : nat) (f : W → result W) : eff Env () :=
  e ← get;
  match env_readers e !! i with
  | Some w => w' ← lift (f w); modify (put_reader i w')
  | None => mret ()
  end.

(** Calls of the nodes that send packets. *)
Definition run_egress (i : nat) n (g : Egress V) (f : eff (Egress V * sends V) ()) : eff Env () := λ e,
  let '((g', out), r) := f (g, env_sent e) in (put_sent out (put_node i (set_inner n (NtEgress (Some g'))) e), r).
Definition run_sharder (i : nat) n (g : Sharder V) (f : eff (Sharder V * sends V) ()) : eff Env () := λ e,
  let '((g', out), r) := f (g, env_sent e) in (put_sent out (put_node i (set_inner n (NtSharder g')) e), r).

Definition materialize (rs : list (Record V)) (offset : option ReplicationOffset) (partial : option nat) (addr : nat) :
    eff Env (list (Record V)) :=
  e ← get;
  match env_state e !! addr with
  | Some s => x ← lift (st_process_records s rs partial offset); _ ← modify (put_state addr x.2); mret x.1
  | None => mret rs
  end.

(** ** [process] *)
(** Ingress nodes store what they receive. *)
Definition process_ingress (addr : nat) m : eff Env (Packet V) :=
  data ← lift (packet_data m);
  data' ← materialize data None (packet_tag m) addr;
  lift (Payload.set_data data' m).

(** A base node turns the operations of an input packet into records. *)
Definition process_base (addr : nat) n (b : Base V) (keyed_by : option (list nat)) m : eff Env (Packet V) :=
  match m with
  | PInput inner _ =>
      ops ← lift match pd_data inner with PayloadInput ops => Ok ops | PayloadTimestamp _ => Panic end;
      e ← get;
      let db := env_state e !! addr in
      w ← lift (process_ops kind_of coerce b (n_columns n) ops (st_base_db <$> db) (default false (st_snapshot_mode <$> db)));
      _ ← match bw_set_snapshot_mode w with
          | Some EnterSnapshotMode => on_state addr (λ s, Ok (st_set_snapshot_mode s true))
          | _ => mret ()
          end;
      rs ← match keyed_by with
           | None => materialize (bw_records w) (bw_replication_offset w) None addr
           | Some _ => mret (bw_records w)
           end;
      _ ← match bw_set_snapshot_mode w with
          | Some FinishSnapshotMode => on_state addr (λ s, Ok (st_set_snapshot_mode s false))
          | _ => mret ()
          end;
      mret (PMessage {| link_src := pd_dst inner; link_dst := pd_dst inner |} rs (pd_trace inner))
  | _ => lift Panic
  end.

(** What an egress node leaves of a packet: nothing, unless it is one of a replay
    path to none of its targets. *)
Definition egress_leaves (g : Egress V) m : option (Packet V) :=
  match replay_target g m with
  | Ok (Some to) => if existsb (λ tx, bool_decide (etx_node tx = to)) (eg_txs g) then None else Some m
  | _ => None
  end.

(** The records and the context that an operator is given. *)
Definition replay_context (keyed_by : option (list nat)) m : result (list (Record V) * ReplayContext V) :=
  match m with
  | PReplayPiece _ tag data (RpPartial for_keys shard replica unishard) =>
      match keyed_by with
      | Some cols => Ok (data, RcPartial cols for_keys shard replica tag unishard)
      | None => Err Internal
      end
  | PReplayPiece _ _ data (RpRegular last) => Ok (data, RcFull last)
  | PMessage _ data _ => Ok (data, RcNone)
  | _ => Panic
  end.

(** The packet with what the operator returned; [None] if it was captured. *)
Definition with_result m (res : RawProcessingResult V) : result (option (Packet V * NodeProcessingResult V)) :=
  match res with
  | RawRegular r =>
      m' ← Payload.set_data (pr_results r) m;
      Ok (Some (m', {| np_misses := pr_misses r; np_lookups := pr_lookups r; np_captured := [] |}))
  | RawCapturedFull => Ok None
  | RawReplayPiece rows keys captured =>
      match m with
      | PReplayPiece link tag _ (RpPartial _ shard replica unishard) =>
          Ok (Some (PReplayPiece link tag rows (RpPartial keys shard replica unishard),
                    {| np_misses := []; np_lookups := []; np_captured := captured |}))
      | _ => Panic
      end
  | RawFullReplay rows last =>
      match m with
      | PReplayPiece link tag _ (RpRegular _) => Ok (Some (PReplayPiece link tag rows (RpRegular last), np_default))
      | _ => Panic
      end
  end.

(** A partial replay that has passed a shard merger comes from all shards. *)
Definition past_merger (merger : bool) m : Packet V :=
  match m with
  | PReplayPiece link tag data (RpPartial keys shard replica unishard) =>
      PReplayPiece link tag data (RpPartial keys shard replica (if merger then false else unishard))
  | _ => m
  end.
Definition partial_tag m : option nat :=
  match m with PReplayPiece _ tag _ (RpPartial _ _ _ _) => Some tag | _ => None end.

(** [reroute_miss]: a miss in a node that is queried through is one in the parent
    that its columns come from.  The fuel is the number of nodes. *)
Definition reroute_column (nodes : gmap nat Node) (self : Node) n (acc : option nat * list nat) (col : nat) :
    result (option nat * list nat) :=
  parents ← resolve n col;
  parents ← expect parents;
  match parents with
  | [(parent_global, parent_col)] =>
      match acc.1 with
      | Some p => if p =? parent_global then Ok (acc.1, acc.2 ++ [parent_col]) else Err Internal
      | None =>
          if n_global self =? parent_global then Err Internal
          else Ok (Some parent_global, acc.2 ++ [parent_col])
      end
  | _ => Err Internal
  end.
Definition find_global (nodes : gmap nat Node) (g : nat) : option nat :=
  n_local ∘ snd <$> head (filter (λ p : nat * Node, n_global p.2 = g) (map_to_list nodes)).
Fixpoint reroute_miss (fuel : nat) (nodes : gmap nat Node) (self : Node) (miss : Miss V) : result (Miss V) :=
  n ← expect (nodes !! miss_on miss);
  if is_internal n && can_query_through n then
    match fuel with
    | O => Panic
    | Datatypes.S fuel' =>
        '(parent, cols) ← result_foldl (reroute_column nodes self n) (None, []) (miss_lookup_idx miss);
        parent ← expect parent;
        on ← expect (find_global nodes parent);
        reroute_miss fuel' nodes self
          {| miss_on := on; miss_lookup_idx := cols; miss_lookup_key := miss_lookup_key miss;
             miss_replay_key := miss_replay_key miss; miss_record := miss_record miss |}
    end
  else Ok miss.

(** [Ingredient::lookup]: a parent without state is queried through.  The fuel is
    the number of nodes. *)
Fixpoint ingredient_lookup (fuel : nat) (nodes : gmap nat Node) (states : gmap nat S) : Lookups V := λ parent cols key mode,
  match states !! parent with
  | Some s =>
      if match mode with LmWeak => st_is_partial s | LmStrict => false end then
        rs ← st_lookup_weak s cols key;
        Ok match rs with Some ((_ :: _) as rs) => Some (Ok <$> rs) | _ => None end
      else
        rs ← st_lookup s cols key;
        Ok match rs with LrSome rs => Some (Ok <$> rs) | LrMissing => None end
  | None =>
      match nodes !! parent, fuel with
      | None, _ | _, O => Panic
      | Some n, Datatypes.S fuel' =>
          match n_inner n with
          | NtInternal op => ig_query_through op (ingredient_lookup fuel' nodes states) cols key mode
          | _ => Err IndexNotFound
          end
      end
  end.

(** An operator: its results are stored, and its misses sent to where they are. *)
Definition process_internal (addr : nat) n (op : Op) (keyed_by : option (list nat)) m :
    eff Env (option (Packet V) * NodeProcessingResult V) :=
  from ← lift (packet_src m);
  '(data, replay) ← lift (replay_context keyed_by m);
  e ← get;
  '(res, op') ← lift (on_input_raw op from data replay (env_state e)
                        (ingredient_lookup (size (env_nodes e)) (env_nodes e) (env_state e)));
  _ ← modify (put_node addr (set_inner n (NtInternal op')));
  res ← lift (with_result m res);
  match res with
  | None => mret (None, np_default)
  | Some (m, np) =>
      let m := past_merger (ig_is_shard_merger op') m in
      data ← lift (packet_data m);
      data ← materialize data None (partial_tag m) addr;
      m ← lift (Payload.set_data data m);
      e ← get;
      misses ← lift (result_mapM (λ miss, if miss_on miss =? addr then Ok miss
                                          else reroute_miss (size (env_nodes e)) (env_nodes e) n miss) (np_misses np));
      mret (Some m, {| np_misses := misses; np_lookups := np_lookups np; np_captured := np_captured np |})
  end.

(** [Node::process].  [unicast] is the sharder that a replay path of a single shard
    ends at. *)
Definition node_process (shard : option nat) (replica addr : nat) (keyed_by : option (list nat))
    (replay_path : option ReplayPath) (swap_reader : bool) m : eff Env (option (Packet V) * NodeProcessingResult V) :=
  n ← get_node addr;
  match n_inner n with
  | NtIngress => m ← process_ingress addr m; mret (Some m, np_default)
  | NtBase b => m ← process_base addr n b keyed_by m; mret (Some m, np_default)
  | NtReader _ =>
      e ← get;
      match env_readers e !! addr with
      | Some w =>
          x ← lift (rs_process w m swap_reader); _ ← modify (put_reader addr x.1); mret (Some x.2, np_default)
      | None => mret (Some m, np_default)
      end
  | NtEgress None => fail Internal
  | NtEgress (Some g) =>
      _ ← run_egress addr n g (egress_process m keyed_by (default 0 shard) replica);
      mret (egress_leaves g m, np_default)
  | NtSharder g =>
      let last := rp ← replay_path; ni ← rp_partial_unicast_sharder rp; Some (ni =? n_global n) in
      _ ← run_sharder addr n g (sharder_process shard_hash m addr (bool_decide (is_Some shard)) last replica);
      mret (None, np_default)
  | NtInternal op => process_internal addr n op keyed_by m
  | NtDropped => mret (None, np_default)
  | NtSource => fail Internal
  end.

(** [process_eviction]. *)
Definition node_process_eviction (shard : option nat) (replica addr from : nat) (key_columns : list nat) keys (tag : nat) :
    eff Env () :=
  n ← get_node addr;
  match n_inner n with
  | NtBase _ | NtIngress | NtDropped => mret ()
  | NtEgress (Some g) =>
      run_egress addr n g
        (egress_process (PEvictKeys {| link_src := addr; link_dst := addr |} tag keys) None (default 0 shard) replica)
  | NtSharder g =>
      run_sharder addr n g (sharder_process_eviction shard_hash key_columns tag keys addr (bool_decide (is_Some shard)) replica)
  | NtInternal op => modify (put_node addr (set_inner n (NtInternal (on_eviction op from tag keys))))
  | NtReader _ =>
      on_reader addr (λ w, w ← result_foldl rs_mark_hole w keys; w ← rs_swap w; rs_notify_readers_of_eviction w)
  | NtEgress None | NtSource => fail Internal
  end.

(** ** [process_timestamp] *)
(** The timestamps of the parents; [None] if one is missing. *)
Definition parent_timestamps n : option (list Timestamp) := mapM (λ p, n_timestamps n !! p) (n_parents n).
Definition node_timestamp n (src : nat) : result Timestamp :=
  match n_parents n with
  | [] => expect (n_timestamps n !! src)
  | _ => match parent_timestamps n with Some ts => Ok (ts_min ts) | None => Ok ts_default end
  end.
Definition record_timestamp n (src : nat) (t : Timestamp) : Node :=
  set_timestamps n (<[src := match n_timestamps n !! src with Some old => ts_join old t | None => t end]> (n_timestamps n)).

Definition node_process_timestamp (shard : option nat) (replica addr : nat) m : eff Env (option (Packet V)) :=
  src_node ← lift (packet_src m);
  match m with
  | PTimestamp link src timestamp =>
      n ← get_node addr;
      t ← lift match pd_data timestamp with PayloadTimestamp t => Ok t | PayloadInput _ => Panic end;
      let n := record_timestamp n src_node t in
      _ ← modify (put_node addr n);
      t ← lift (node_timestamp n src_node);
      if is_reader n then
        _ ← on_reader addr (λ w, w ← rs_set_timestamp w t; rs_swap w);
        mret None
      else
        let p := PTimestamp (Some (default {| link_src := src_node; link_dst := src_node |} link)) src
                   {| pd_dst := pd_dst timestamp; pd_data := PayloadTimestamp t; pd_trace := None |} in
        match n_inner n with
        | NtEgress (Some g) => _ ← run_egress addr n g (egress_process p None (default 0 shard) replica); mret None
        | _ => mret (Some p)
        end
  | _ => fail Internal
  end.
End nodes.
