(* ===== verification/Operators.v ===== *)
(** * Operators: the operators as ingredients of the dataflow

    Models [NodeOperator] of [readyset-dataflow/src/ops/mod.rs]: one type for all the
    operators, whose methods are those of the operator it is.  It implements the
    interface [Ingredient] that nodes use.  The operators look rows up in their own
    state and, through [Ingredient::lookup], in their parents.

    Operators know other nodes by their local addresses; [global] is the global address
    of a node, which an [IndexPair] holds as well. *)
From stdpp Require Import gmap.
From S2P Require Import Prelude Intervals BTreeMap IntervalTree PartialMap Result Records OpLinear Keys Processing Batches.
From S2P Require Import OpUnion OpUnionReplay OpGrouped OpAggregate OpTopK OpJoin OpPaginate OpLatest.
From S2P Require Import Crates KeyedState SingleState Replication MemoryState Base Timestamp Effects Payload.
From S2P Require Import PacketFilter Sharder Egress Hashing ReplayPaths NodeProcess.

Section operators.
Context `{DfArith V} {S : Type} `{!NodeState V S}.
(** The hashes of groups and rows, page numbers as values, and global addresses. *)
Context (group_hash row_hash : list V → Z) (page : nat → V) (global : nat → nat).
Implicit Types (rs : list (Record V)) (states : gmap nat S) (lookups : Lookups V).

(** An operator that has parents and state of its own knows where they are: [src] and
    [us].  Grouped operators also have what their operation keeps. *)
Inductive NodeOperator :=
  | NoAggregation (src us : nat) (a : Aggregator) (m : gmap Z (AverageDataPair V))
  | NoExtremum (src us : nat) (e : ExtremumOperator)
  | NoConcat (src us : nat) (c : GroupConcat) (m : list (list V * LastState V))
  | NoJoin (j : Join V)
  | NoLatest (l : Latest)
  | NoPaginate (p : Paginate)
  | NoProject (src : nat) (p : Project V)
  | NoUnion (src : nat) (u : Union V)
  | NoIdentity (src : nat)
  | NoFilter (src : nat) (f : Filter V)
  | NoTopK (t : TopK).
Implicit Types (op : NodeOperator).

(** ** Lookups *)
(** Into state, with the values of a key; [None] is a hole. *)
Definition own_rows_at (s : S) (cols : list nat) (k : list V) : result (option (list (list V))) :=
  pk ← point_key_from k; res ← st_lookup s cols pk;
  Ok match res with LrSome rows => Some rows | LrMissing => None end.
(** Into a parent; the rows are collected. *)
Definition parent_rows lookups (parent : nat) (cols : list nat) (mode : LookupMode) (k : list V) :
    result (option (list (list V))) :=
  pk ← point_key_from k; res ← lookups parent cols pk mode;
  match res with None => Ok None | Some rows => rows ← result_mapM id rows; Ok (Some rows) end.
Definition own_state states (us : nat) : result S :=
  match states !! us with Some s => Ok s | None => Err Internal end.

(** ** [on_input] *)
Definition grouped_input {St D} (g : GroupedOp V St D) (src us : nat) (st : St) rs (replay : ReplayContext V) states lookups :
    result (ProcessingResult V * St) :=
  match rs with
  | [] => Ok (pr_empty, st)
  | _ =>
      _ ← sorted_groups g rs;
      s ← own_state states us;
      grouped_on_input g src us (own_rows_at s (out_key g)) (parent_rows lookups src (grouped_group_by g) LmStrict) replay st rs
  end.
Definition topk_input (t : TopK) rs (replay : ReplayContext V) states lookups : result (ProcessingResult V) :=
  match rs with
  | [] => Ok pr_empty
  | _ =>
      s ← own_state states (tk_us t);
      topk_on_input (own_rows_at s (tk_group_by t)) (parent_rows lookups (tk_src t) (tk_group_by t) LmStrict) t replay rs
  end.
Definition paginate_input (p : Paginate) rs (replay : ReplayContext V) states : result (ProcessingResult V) :=
  match rs with
  | [] => Ok pr_empty
  | _ =>
      _ ← paginate_sort_check p rs;
      s ← own_state states (pg_us p);
      paginate_on_input page (own_rows_at s (pg_group_by p)) p replay rs
  end.
Definition join_input (j : Join V) (from : nat) rs (replay : ReplayContext V) lookups : result (ProcessingResult V * Join V) :=
  join_on_input j from rs replay (λ side cols k mode,
    parent_rows lookups (match side with SideLeft => jn_left j | SideRight => jn_right j end) cols mode k).
Definition latest_input (l : Latest) rs (replay : ReplayContext V) states : result (ProcessingResult V) :=
  s ← own_state states (lt_us l); latest_on_input (own_rows_at s [lt_key l]) l replay rs.

(** [on_input_raw] of a union. *)
Definition union_raw (r : RawResult V) : RawProcessingResult V :=
  match r with
  | Regular rows => RawRegular {| pr_results := rows; pr_lookups := []; pr_misses := [] |}
  | CapturedFull => RawCapturedFull
  | FullReplay rows last => RawFullReplay rows last
  | ReplayPiece rows keys captured => RawReplayPiece rows keys captured
  end.
Definition union_input (u : Union V) (from : nat) rs (replay : ReplayContext V) : result (RawProcessingResult V * Union V) :=
  '(r, u') ← match replay with
             | RcNone => union_raw_update row_hash u from rs
             | RcFull last => union_raw_full row_hash u from rs last
             | RcPartial cols keys shard replica tag unishard =>
                 union_raw_partial row_hash u from rs cols keys shard replica unishard tag
             end;
  Ok (union_raw r, u').

(** The default [on_input_raw]. *)
Definition regular (rows : list (Record V)) : RawProcessingResult V :=
  RawRegular {| pr_results := rows; pr_lookups := []; pr_misses := [] |}.
Definition op_on_input_raw op (from : nat) rs (replay : ReplayContext V) states lookups :
    result (RawProcessingResult V * NodeOperator) :=
  match op with
  | NoAggregation src us a m =>
      '(r, m') ← grouped_input (aggregator_op group_hash a) src us m rs replay states lookups;
      Ok (RawRegular r, NoAggregation src us a m')
  | NoExtremum src us e =>
      '(r, _) ← grouped_input (extremum_op e) src us () rs replay states lookups;
      Ok (RawRegular r, op)
  | NoConcat src us c m =>
      '(r, m') ← grouped_input (concat_op c) src us m rs replay states lookups;
      Ok (RawRegular r, NoConcat src us c m')
  | NoJoin j => '(r, j') ← join_input j from rs replay lookups; Ok (RawRegular r, NoJoin j')
  | NoLatest l => r ← latest_input l rs replay states; Ok (RawRegular r, op)
  | NoPaginate p => r ← paginate_input p rs replay states; Ok (RawRegular r, op)
  | NoProject _ p => rows ← project_on_input p rs; Ok (regular rows, op)
  | NoUnion src u => '(r, u') ← union_input u from rs replay; Ok (r, NoUnion src u')
  | NoIdentity _ => rows ← identity_on_input rs; Ok (regular rows, op)
  | NoFilter _ f => rows ← filter_on_input f rs; Ok (regular rows, op)
  | NoTopK t => r ← topk_input t rs replay states lookups; Ok (RawRegular r, op)
  end.

(** ** The other methods *)
Definition op_on_eviction op (from tag : nat) (keys : list (KeyComparison V)) : NodeOperator :=
  match op with NoUnion src u => NoUnion src (union_on_eviction u from tag keys) | _ => op end.

(** An exact copy of columns of a parent, of which there is at least one. *)
Definition exact_copy (src : nat) (cols : list nat) : result ColumnSource :=
  match cols with [] => Panic | _ => Ok (CsExactCopy src cols) end.
Definition local_column_source op (cols : list nat) : result ColumnSource :=
  match op with
  | NoAggregation src _ a _ => grouped_column_source (aggregator_op group_hash a) src cols
  | NoExtremum src _ e => grouped_column_source (extremum_op e) src cols
  | NoConcat src _ c _ => grouped_column_source (concat_op c) src cols
  | NoJoin j => join_column_source j cols
  | NoLatest l => latest_column_source l cols
  | NoPaginate p => paginate_column_source p cols
  | NoProject src p => match project_column_source p cols with Some cs => exact_copy src cs | None => Ok (CsFullReplay [src]) end
  | NoUnion src u =>
      match un_emit (u_core u) with
      | EmitAll => exact_copy src cols
      | EmitProject emit_l _ => refs ← union_column_source emit_l cols; Ok (CsUnion refs)
      end
  | NoIdentity src | NoFilter src _ => exact_copy src cols
  | NoTopK t => exact_copy (tk_src t) cols
  end.
Definition to_global (s : ColumnSource) : ColumnSource :=
  match s with
  | CsExactCopy n cols => CsExactCopy (global n) cols
  | CsUnion refs => CsUnion ((λ r, (global r.1, r.2)) <$> refs)
  | CsGenerated refs => CsGenerated ((λ r, (global r.1, r.2)) <$> refs)
  | CsFullReplay nodes => CsFullReplay (global <$> nodes)
  end.
Definition op_column_source op (cols : list nat) : result ColumnSource :=
  src ← local_column_source op cols; Ok (to_global src).

Definition op_handle_upquery op (miss : ColumnMiss V) : result (list (ColumnMiss V)) :=
  match op with
  | NoJoin j =>
      '((left_cols, left_keys), (right_cols, right_keys)) ← join_handle_upquery j (cm_column_indices miss) (cm_missed_keys miss);
      Ok [{| cm_node := jn_left j; cm_column_indices := left_cols; cm_missed_keys := left_keys |};
          {| cm_node := jn_right j; cm_column_indices := right_cols; cm_missed_keys := right_keys |}]
  | NoPaginate p =>
      misses ← paginate_handle_upquery p (cm_column_indices miss) (cm_missed_keys miss);
      Ok ((λ m : nat * list nat * list (KeyComparison V), {| cm_node := m.1.1; cm_column_indices := m.1.2; cm_missed_keys := m.2 |}) <$> (misses : list _))
  | _ => Ok []
  end.

Definition op_can_query_through op : bool :=
  match op with
  | NoFilter _ _ => true
  | NoProject _ p => match proj_expressions p, proj_additional p with None, None => true | _, _ => false end
  | _ => false
  end.
Definition op_query_through op lookups (cols : list nat) (key : PointKey V) (mode : LookupMode) :
    result (IngredientLookupResult V) :=
  match op with
  | NoFilter src f => res ← lookups src cols key mode; Ok (filter_query_through f res)
  | NoProject src p =>
      match project_in_cols p cols with
      | Ok in_cols => res ← lookups src in_cols key mode; Ok (project_query_through p cols (λ _, res))
      | _ => Ok (project_query_through p cols (λ _, None))
      end
  | _ => Err Internal
  end.
Definition op_is_join op : bool := match op with NoJoin _ => true | _ => false end.
Definition op_is_shard_merger op : bool :=
  match op with NoUnion _ u => match un_emit (u_core u) with EmitAll => true | _ => false end | _ => false end.

Definition node_operator_ingredient : Ingredient V S NodeOperator :=
  {| on_input_raw := op_on_input_raw;
     ig_query_through := op_query_through;
     on_eviction := op_on_eviction;
     ig_column_source := op_column_source;
     ig_handle_upquery := op_handle_upquery;
     ig_can_query_through := op_can_query_through;
     ig_is_join := op_is_join;
     ig_is_shard_merger := op_is_shard_merger |}.
End operators.
Arguments NodeOperator : clear implicits.
