(* ===== verification/DomainFlow.v ===== *)
(** * DomainFlow: evictions and updates through a domain

    Models [handle_eviction] of [readyset-dataflow/src/domain/mod.rs]: keys that are
    evicted from a node are evicted along every replay path that was filled from them,
    in this domain and, through egress nodes and sharders, in others.

    From here on a domain runs on its own fields and on the environment of its nodes,
    [Dom]; [on_env] runs what nodes do inside a domain.

    Models [dispatch] and [handle_timestamp] of [readyset-dataflow/src/domain/mod.rs]:
    a packet is processed by its node and passed on to the children of the node. *)
From stdpp Require Import gmap.
From S2P Require Import Prelude Intervals BTreeMap IntervalTree PartialMap Result Records Keys Processing Batches.
From S2P Require Import Crates KeyedState SingleState Replication MemoryState Base Timestamp Effects Payload.
From S2P Require Import OpGrouped PacketFilter Sharder Egress Hashing ReplayPaths Domain NodeProcess.

(** A domain with its nodes. *)
Definition Dom (V S W Op Ty : Type) : Type := Domain V (Env V S W Op Ty).

Section evict.
Context `{DfNum V} {Ty : Type} (shard_hash : V → option N) {S W Op : Type}.
Context `{!NodeState V S} `{!ReaderState V W} `{!Ingredient V S Op}.
#[local] Abbreviation Key := (KeyComparison V).
#[local] Abbreviation Env := (Env V S W Op Ty).
#[local] Abbreviation Dom := (Dom V S W Op Ty).
Implicit Types (keys : list Key) (d : Dom).

Definition on_env {A} (f : eff Env A) : eff Dom A := λ d,
  let '(e, r) := f (d_env d) in (set_env e d, r).
Definition dom_node (i : nat) : eff Dom (Node V Op Ty) := on_env (get_node i).

(** [walk_path]: every node of the path is told. *)
Fixpoint walk_from (shard : option nat) (replica from : nat) (path : list ReplayPathSegment) keys (tag : nat) : eff Env () :=
  match path with
  | [] => mret ()
  | seg :: path' =>
      ix ← lift (expect (seg_partial_index seg));
      _ ← node_process_eviction shard_hash shard replica (seg_node seg) from (columns ix) keys tag;
      walk_from shard replica (seg_node seg) path' keys tag
  end.
Definition walk_path (shard : option nat) (replica : nat) (path : list ReplayPathSegment) keys (tag : nat) : eff Env () :=
  first ← lift (expect (head path)); walk_from shard replica (seg_node first) path keys tag.

(** [evict_keys] of the state of a node that must have some: whether it knows the tag. *)
Definition evict_state (i tag : nat) keys : eff Env bool :=
  e ← get;
  s ← lift (expect (env_state e !! i));
  x ← lift (st_evict_keys s tag keys);
  _ ← modify (put_state i x.2);
  mret (bool_decide (is_Some x.1)).

(** [trigger_downstream_evictions].  Paths lead from nodes to their descendants, the
    fuel is the longest chain of them. *)
Fixpoint trigger_downstream_evictions (fuel : nat) (index : Index) keys (node : nat) : eff Dom () :=
  match fuel with
  | O => lift Panic
  | Datatypes.S fuel' =>
      d ← get;
      x ← lift (downstream_dependent_paths (d_replay_paths d) node index keys (d_remapped_keys d));
      _ ← modify (set_remapped_keys x.2);
      eff_iter (λ tpk : nat * ReplayPath * list Key,
        let '(tag, path, keys) := tpk in
        _ ← on_env (walk_path (d_shard d) (d_replica d) (rp_path path) keys tag);
        match rp_trigger path with
        | TriggerLocal _ =>
            dest ← lift (last_segment path);
            n ← dom_node (seg_node dest);
            d' ← get;
            if is_reader n || negb (bool_decide (is_Some (env_state (d_env d') !! seg_node dest))) then mret ()
            else
              known ← on_env (evict_state (seg_node dest) tag keys);
              if (known : bool) then
                ix ← lift (expect (seg_partial_index dest));
                trigger_downstream_evictions fuel' ix keys (seg_node dest)
              else mret ()
        | TriggerStart _ =>
            src ← lift (expect (rp_source path));
            _ ← on_env (evict_state src tag keys);
            mret ()
        | _ => mret ()
        end) x.1
  end.

(** The arm for [Packet::Evict]: some bytes of one node.  [seeds] are the random
    numbers that the state draws. *)
Definition evict_node (fuel : nat) (seeds : nat → list nat) (nb : nat * nat) : eff Dom () :=
  let '(node, num_bytes) := nb in
  n ← dom_node node;
  if is_dropped n then mret ()
  else
    d ← get;
    match env_readers (d_env d) !! node with
    | Some w =>
        w ← lift (rs_evict_bytes w num_bytes);
        w ← lift (rs_swap w);
        w ← lift (rs_notify_readers_of_eviction w);
        on_env (modify (put_reader node w))
    | None =>
        s ← lift (expect (env_state (d_env d) !! node));
        x ← lift (st_evict_bytes s num_bytes (seeds node));
        _ ← on_env (modify (put_state node x.2));
        match x.1 with
        | None => mret ()
        | Some (index, evicted) =>
            keys ← lift (result_mapM (λ k : list V, match k with [] => Err Internal | _ => Ok (KEqual k) end) evicted);
            match keys with
            | [] => mret ()
            | _ => trigger_downstream_evictions fuel index keys node
            end
        end
    end.

(** The arm for [Packet::EvictKeys]. *)
Definition evict_keys_at (fuel dst : nat) keys (tag : nat) : eff Dom () :=
  d ← get;
  match rp_get (d_replay_paths d) tag with
  | None => mret ()
  | Some rp =>
      i ← lift (match list_find (λ s, seg_node s = dst) (rp_path rp) with Some (i, _) => Ok i | None => Err NoSuchNode end);
      _ ← on_env (walk_path (d_shard d) (d_replica d) (drop i (rp_path rp)) keys tag);
      match rp_trigger rp with
      | TriggerEnd _ _ | TriggerLocal _ =>
          seg ← lift (last_segment rp);
          n ← dom_node (seg_node seg);
          if is_reader n || is_dropped n then mret ()
          else
            index ← lift (match seg_partial_index seg with Some ix => Ok ix | None => Err Internal end);
            known ← on_env (evict_state (seg_node seg) tag keys);
            if (known : bool) then trigger_downstream_evictions fuel index keys (seg_node seg) else mret ()
      | _ => mret ()
      end
  end.

(** [handle_eviction]; [sizes] are the sizes of the partial state of the nodes. *)
Definition handle_eviction (fuel : nat) (sizes : list (nat * nat)) (seeds : nat → list nat) (m : Packet V) : eff Dom () :=
  match m with
  | PEvict node num_bytes =>
      nodes ← lift (eviction_nodes node num_bytes sizes);
      eff_iter (evict_node fuel seeds) nodes
  | PEvictKeys link tag keys => evict_keys_at fuel (link_dst link) keys tag
  | _ => fail Internal
  end.
End evict.

(** * Updates *)
Section flow.
Context `{DfNum V} {K : Type} `{Countable K} (kind_of : V → K) {Ty : Type} (coerce : Ty → V → result V).
Context (shard_hash : V → option N) {S W Op : Type}.
Context `{!NodeState V S} `{!ReaderState V W} `{!Ingredient V S Op}.
#[local] Abbreviation Key := (KeyComparison V).
#[local] Abbreviation Dom := (Dom V S W Op Ty).
#[local] Abbreviation node_process := (node_process kind_of coerce shard_hash).
#[local] Abbreviation handle_eviction := (handle_eviction shard_hash).
Implicit Types (keys : list Key) (d : Dom) (n : Node V Op Ty) (m : Packet V).

(** The keys to evict from the paths through a join whose lookup missed: for every
    path, the keys of the records that missed. *)
Definition join_evictions (deps : list (nat * list nat)) (misses : list (Miss V)) : result (list (nat * list Key)) :=
  result_foldl (λ acc (miss : Miss V),
    result_foldl (λ acc (dep : nat * list nat),
      k ← row_cols dep.2 (miss_record miss);
      match k with
      | [] => Panic
      | _ => Ok (am_update (λ ks, as_insert (K:=Key) (default [] ks) (KEqual k)) acc dep.1)
      end) acc deps) [] misses.

Definition evict_missed (fuel src me : nat) n (misses : list (Miss V)) : eff Dom () :=
  join ← lift (if is_internal n then is_join n else Ok false);
  match misses with
  | [] => mret ()
  | _ =>
      if (join : bool) then
        d ← get;
        from ← lift (match env_nodes (d_env d) !! src with Some p => Ok (n_global p) | None => Err NoSuchNode end);
        deps ← lift (paths_through (d_replay_paths d) (parent_columns n) (n_local n) from);
        evictions ← lift (join_evictions deps misses);
        eff_iter (λ tk : nat * list Key,
          handle_eviction fuel [] (λ _, []) (PEvictKeys {| link_src := src; link_dst := me |} tk.1 tk.2)) evictions
      else mret ()
  end.

(** The packet for a child; a shard merger is told the shard that it came from. *)
Definition for_child (me : nat) (childi : nat) (child : Node V Op Ty) m : result (Packet V) :=
  match m with
  | PMessage link data trace =>
      Ok (PMessage {| link_src := if is_shard_merger child then link_src link else me; link_dst := childi |} data trace)
  | PTimestamp (Some link) src timestamp =>
      Ok (PTimestamp (Some {| link_src := if is_shard_merger child then link_src link else me; link_dst := childi |}) src timestamp)
  | _ => Panic
  end.

(** The fuel is the depth of the graph below the node. *)
Fixpoint dispatch (fuel : nat) m : eff Dom () :=
  match fuel with
  | O => lift Panic
  | Datatypes.S fuel' =>
      d ← get;
      go ← dispatch_gate (λ i, bool_decide (is_Some (env_nodes (d_env d) !! i))) m;
      if negb go then mret ()
      else
        src ← lift (packet_src m);
        me ← lift (packet_dst m);
        '(m, np) ← on_env (node_process (d_shard d) (d_replica d) me None None true m);
        _ ← lift (match np_captured np with [] => Ok () | _ => Panic end);
        match m with
        | None => mret ()
        | Some m =>
            n ← dom_node me;
            _ ← evict_missed fuel' src me n (np_misses np);
            match m with
            | PMessage _ [] _ => mret ()
            | PMessage _ _ _ =>
                eff_iter (λ childi,
                  child ← dom_node childi;
                  m' ← lift (for_child me childi child m);
                  dispatch fuel' m') (n_children n)
            | _ => fail Internal
            end
        end
  end.

(** [handle_timestamp]; [handle_packet] is how the domain handles a packet. *)
Definition handle_timestamp (handle_packet : Packet V → eff Dom ()) m : eff Dom () :=
  me ← lift (packet_dst m);
  d ← get;
  _ ← lift (match env_nodes (d_env d) !! me with Some _ => Ok () | None => Err NoSuchNode end);
  message ← on_env (node_process_timestamp (d_shard d) (d_replica d) me m);
  match message with
  | None => mret ()
  | Some message =>
      n ← dom_node me;
      eff_iter (λ childi,
        p ← lift (clone_data message);
        child ← dom_node childi;
        p ← lift (for_child me childi child p);
        handle_packet p) (n_children n)
  end.
End flow.
