(* ===== verification/DomainReplay.v ===== *)
(** * DomainReplay: replays through a domain

    Models [handle_replay], [seed_all], the lookups of a replay, the requests of
    readers, timed purges and the loop over the packets a domain sends to itself
    ([handle], [handle_packet]) of [readyset-dataflow/src/domain/mod.rs]. *)
From stdpp Require Import gmap.
From S2P Require Import Prelude Intervals BTreeMap IntervalTree PartialMap Result Records Keys Processing Batches.
From S2P Require Import Crates KeyedState SingleState Replication MemoryState Base Timestamp Effects Payload.
From S2P Require Import OpGrouped PacketFilter Sharder Egress Hashing ReplayPaths Domain NodeProcess DomainFlow.

(** ** Replays that have to be asked for *)
Record ReplayDescriptor (V : Type) := {
  rdesc_idx : nat;
  rdesc_tag : nat;
  rdesc_replay_key : KeyComparison V;
  rdesc_lookup_key : KeyComparison V;
  rdesc_lookup_columns : list nat;
  rdesc_unishard : bool;
  rdesc_requesting_shard : nat;
  rdesc_requesting_replica : nat;
}.
Arguments rdesc_idx {V}.
Arguments rdesc_tag {V}.
Arguments rdesc_replay_key {V}.
Arguments rdesc_lookup_key {V}.
Arguments rdesc_lookup_columns {V}.
Arguments rdesc_unishard {V}.
Arguments rdesc_requesting_shard {V}.
Arguments rdesc_requesting_replica {V}.

Section descriptors.
Context `{DfVal V}.
#[local] Abbreviation Key := (KeyComparison V).

Definition from_miss (miss : Miss V) (tag : nat) (unishard : bool) (shard replica : nat) : result (ReplayDescriptor V) :=
  rk ← miss_replay_key_of miss;
  rk ← expect rk;
  lk ← miss_lookup_key_of miss;
  Ok {| rdesc_idx := miss_on miss; rdesc_tag := tag; rdesc_replay_key := rk; rdesc_lookup_key := lk;
        rdesc_lookup_columns := miss_lookup_idx miss; rdesc_unishard := unishard;
        rdesc_requesting_shard := shard; rdesc_requesting_replica := replica |}.

Definition can_combine (a b : ReplayDescriptor V) : bool :=
  (rdesc_tag a =? rdesc_tag b) && (rdesc_idx a =? rdesc_idx b) &&
  bool_decide (rdesc_lookup_columns a = rdesc_lookup_columns b) &&
  Bool.eqb (rdesc_unishard a) (rdesc_unishard b) &&
  (rdesc_requesting_shard a =? rdesc_requesting_shard b) &&
  Bool.eqb (kc_is_range (rdesc_replay_key a)) (kc_is_range (rdesc_replay_key b)).

(** The loop that drains what can be combined with the first: the groups, each with
    the pairs of replay and lookup keys, without duplicates. *)
Fixpoint replay_groups (fuel : nat) (need : list (ReplayDescriptor V)) : list (ReplayDescriptor V * list (Key * Key)) :=
  match fuel, need with
  | _, [] | O, _ => []
  | Datatypes.S fuel', next :: _ =>
      let same := filter (λ r, can_combine next r = true) need in
      let rest := filter (λ r, can_combine next r = false) need in
      (next, foldl (as_insert (K:=Key * Key)) [] ((λ r, (rdesc_replay_key r, rdesc_lookup_key r)) <$> same))
        :: replay_groups fuel' rest
  end.
End descriptors.

(** ** One segment of a replay path *)
Section replay.
Context `{DfNum V} {K : Type} `{Countable K} (kind_of : V → K) {Ty : Type} (coerce : Ty → V → result V).
Context (shard_hash : V → option N) {S W Op : Type}.
Context `{!NodeState V S} `{!ReaderState V W} `{!Ingredient V S Op}.
#[local] Abbreviation Key := (KeyComparison V).
#[local] Abbreviation Env := (Env V S W Op Ty).
#[local] Abbreviation Dom := (Dom V S W Op Ty).
#[local] Abbreviation node_process := (node_process kind_of coerce shard_hash).
Implicit Types (keys : list Key) (d : Dom) (n : Node V Op Ty) (m : Packet V) (seg : ReplayPathSegment).

(** The macro [replay_context!] for [for_keys], and an assignment to it. *)
Definition replay_keys m : result (option (list Key)) :=
  match m with
  | PReplayPiece _ _ _ (RpPartial keys _ _ _) => Ok (Some keys)
  | PReplayPiece _ _ _ (RpRegular _) => Ok None
  | _ => Err Internal
  end.
Definition set_replay_keys keys m : Packet V :=
  match m with
  | PReplayPiece link tag data (RpPartial _ shard replica unishard) => PReplayPiece link tag data (RpPartial keys shard replica unishard)
  | _ => m
  end.
Definition force_tag seg m : result (Packet V) :=
  match seg_force_tag_to seg, m with
  | Some tag, PReplayPiece link _ data context => Ok (PReplayPiece link tag data context)
  | _, _ => Ok m
  end.

(** Changes of the state of the node that a replay fills, or of the reader if it has no
    other state. *)
Definition on_target (node : nat) (f : S → result S) (g : W → result W) : eff Env () :=
  e ← get;
  match env_state e !! node with
  | Some s => s' ← lift (f s); modify (put_state node s')
  | None => on_reader node g
  end.
Definition mark_target_filled (node tag : nat) keys : eff Env () :=
  on_target node (λ s, result_foldl (λ s k, st_mark_filled s k tag) s keys) (λ w, result_foldl rs_mark_filled w keys).
Definition mark_target_holes (node tag : nat) keys : eff Env () :=
  on_target node (λ s, result_foldl (λ s k, st_mark_hole s k tag) s keys) (λ w, result_foldl rs_mark_hole w keys).

(** A replay of remapped keys arrives at the node with the generated columns: the keys
    of the redos that wait for nothing else are about to be filled. *)
Definition mark_remapped_filled (path : ReplayPath) (node : nat) keys : eff Dom () :=
  d ← get;
  match env_state (d_env d) !! node, d_waiting d !! node with
  | Some _, Some w =>
      eff_iter (λ key,
        target ← lift (expect (target_node path));
        ix ← lift (expect (rp_target_index path));
        match am_get (w_redos w) (hole_at target (columns ix) key) with
        | Some redos =>
            eff_iter (λ redo,
              match am_get (w_holes w) redo with
              | Some 1 => on_env (on_state node (λ s, st_mark_filled s (rd_replay_key redo) (rd_tag redo)))
              | _ => mret ()
              end) redos
        | None => mret ()
        end) keys
  | _, _ => mret ()
  end.

Definition before_processing (path : ReplayPath) (tag : nat) seg (backfill : option (list Key)) : eff Dom () :=
  d ← get;
  let node := seg_node seg in
  let generated := match seg_partial_index seg with
                   | Some ix => bool_decide (is_Some (tags_for_generated_columns (d_replay_paths d) node (columns ix)))
                   | None => false end in
  match backfill with
  | Some keys =>
      if seg_is_target seg then on_env (mark_target_filled node tag keys)
      else if generated then mark_remapped_filled path node keys
      else mret ()
  | None => mret ()
  end.

(** [missed_on]: a set. *)
Definition missed_keys (backfill : option (list Key)) (misses : list (Miss V)) : result (list Key) :=
  match backfill with
  | Some _ =>
      ks ← result_mapM (λ miss, rk ← miss_replay_key_of miss; expect rk) misses;
      Ok (foldl (as_insert (K:=Key)) [] ks)
  | None => Ok []
  end.

(** What happens to the target after the packet was processed: the keys that missed
    or were captured are holes again; a reader publishes what it was given. *)
Definition after_processing (tag : nat) seg n keys (misses : list (Miss V)) (missed captured : list Key) : eff Dom () :=
  let node := seg_node seg in
  _ ← match misses with
      | _ :: _ => on_env (mark_target_holes node tag missed)
      | [] =>
          if is_reader n then
            _ ← on_env (on_reader node (λ w, w ← rs_swap w; rs_notify_readers w));
            d ← get;
            match d_reader_triggered d !! node with
            | Some prev =>
                prev ← lift (result_foldl requested_remove prev keys);
                modify (set_reader_triggered (<[node := prev]> (d_reader_triggered d)))
            | None => mret ()
            end
          else mret ()
      end;
  match captured with
  | [] => mret ()
  | _ => on_env (mark_target_holes node tag captured)
  end.

(** Nodes beyond the materialization frontier do not keep the keys that a replay used.
    The nodes that a lookup really goes to: the closest ancestors with state. *)
Fixpoint lookup_nodes (fuel : nat) (e : Env) (tmp pns : list nat) : result (list nat) :=
  match tmp with
  | [] => Ok pns
  | pn :: tmp' =>
      match fuel with
      | O => Panic
      | Datatypes.S fuel' =>
          n ← expect (env_nodes e !! pn);
          if bool_decide (is_Some (env_state e !! pn)) then lookup_nodes fuel' e tmp' (if n_purge n then pns ++ [pn] else pns)
          else if negb (can_query_through n) then Err Internal
          else lookup_nodes fuel' e (reverse (n_parents n) ++ tmp') pns
      end
  end.
Definition tag_match (paths : ReplayPaths) (lk : Lookup V) (pn tag : nat) : result bool :=
  rp ← expect (rp_get paths tag);
  ix ← expect (rp_target_index rp);
  Ok (bool_decide (target_node rp = Some pn) && bool_decide (columns ix = lookup_cols lk) &&
      supports_key (index_type ix) (lookup_key lk)).
Definition lookup_tags (paths : ReplayPaths) (lk : Lookup V) (pn : nat) : result (list nat) :=
  tags ← result_mapM (λ t, match tags_for_index paths pn pn {| index_type := t; columns := lookup_cols lk |} with
                           | Some [tag] => Ok [tag]
                           | Some _ => Err Internal
                           | None => Ok []
                           end) (all_for_key (lookup_key lk));
  Ok (concat tags).
Definition purge_lookup (paths : ReplayPaths) (lk : Lookup V) (evict_tags : list nat) (pn : nat) : eff Env (list nat) :=
  tags ← lift (retainM (tag_match paths lk pn) evict_tags);
  e ← get;
  s ← lift (expect (env_state e !! pn));
  _ ← lift (if st_is_partial s then Ok () else Panic);
  tags ← lift (match tags with [] => lookup_tags paths lk pn | _ => Ok tags end);
  match tags with
  | [] => fail Internal
  | _ =>
      s ← lift (result_foldl (λ s tag, st_mark_hole s (lookup_key lk) tag) s tags);
      _ ← modify (put_state pn s);
      mret tags
  end.
(** The fuel for the ancestors of a lookup is an argument of the loop. *)
Definition purge_lookups (fuel : nat) (paths : ReplayPaths) (node : nat) (lookups : list (Lookup V)) : eff Env () :=
  _ ← eff_foldl (λ acc lk,
        let '(evict_tags, pns_for, pns) := acc in
        if lookup_on lk =? node then mret acc
        else
          e ← get;
          pns ← lift (if bool_decide (pns_for = Some (lookup_on lk)) then Ok pns else lookup_nodes fuel e [lookup_on lk] []);
          tags ← eff_foldl (purge_lookup paths lk) evict_tags pns;
          mret (tags, Some (lookup_on lk), pns)) ([], None, []) lookups;
  mret ().
(** The source of the replay, at the end of the path. *)
Definition purge_source (path : ReplayPath) (tag : nat) keys : eff Env () :=
  match rp_source path with
  | None => mret ()
  | Some src =>
      n ← get_node src;
      if n_purge n then
        e ← get;
        s ← lift (match env_state e !! src with Some s => Ok s | None => Err Internal end);
        s ← lift (result_foldl (λ s k, st_mark_hole s k tag) s keys);
        modify (put_state src s)
      else mret ()
  end.

(** ** The path *)
(** How the loop over the segments goes on: the replay ends here ([break 'outer]), the
    loop ends here, or the packet goes to the next segment. *)
Inductive ReplayFlow :=
  | FlowEnd
  | FlowBreak (m : Packet V)
  | FlowNext (m : Packet V).

(** What the loop has collected: the number of keys of a partial replay, and the
    replays that it needs. *)
Record ReplayLoop := { rl_finished_partial : nat; rl_need : list (ReplayDescriptor V) }.

(** Misses of a partial replay: they are to be asked for, their keys leave the replay,
    and so do the records of these keys. *)
Definition drop_missed (tag : nat) seg m keys (misses : list (Miss V)) (missed : list Key) :
    result (Packet V * list Key * list (ReplayDescriptor V)) :=
  match m with
  | PReplayPiece link t data (RpPartial fk shard replica unishard) =>
      need ← result_mapM (λ miss, from_miss miss tag unishard shard replica) misses;
      ix ← expect (seg_partial_index seg);
      data ← retainM (λ r : Record V,
               hit ← anyM (λ k, row ← result_mapM (λ c, expect (rec r !! c)) (columns ix); Ok (kc_contains k row)) missed;
               Ok (negb hit)) data;
      Ok (PReplayPiece link t data (RpPartial fk shard replica unishard),
          filter (λ k, as_mem missed k = false) keys, need)
  | _ => Err Internal
  end.

(** The keys of the packet that the node left are the keys of the replay. *)
Definition kept_keys m (backfill : option (list Key)) : option (list Key) :=
  match m with
  | PReplayPiece _ _ _ (RpPartial for_keys _ _ _) => (λ keys, filter (λ k, as_mem for_keys k = true) keys) <$> backfill
  | _ => backfill
  end.

(** The link to the next segment; shard mergers are told where a packet came from. *)
Definition link_next (e : Env) seg (next : option ReplayPathSegment) m : result (Packet V) :=
  match next with
  | None => Ok m
  | Some next =>
      n ← expect (env_nodes e !! seg_node next);
      match m with
      | PReplayPiece link tag data context =>
          Ok (PReplayPiece {| link_src := if is_shard_merger n then link_src link else seg_node seg;
                              link_dst := seg_node next |} tag data context)
      | _ => Panic
      end
  end.

(** [counts]: whether the keys are counted at this path's destination. *)
Definition replay_segment (fuel : nat) (path : ReplayPath) (tag : nat) (counts : bool) seg (next : option ReplayPathSegment)
    (acc : ReplayLoop) m : eff Dom (ReplayLoop * ReplayFlow) :=
  m ← lift (force_tag seg m);
  backfill ← lift (replay_keys m);
  let is_target := bool_decide (is_Some backfill) && seg_is_target seg in
  _ ← before_processing path tag seg backfill;
  d ← get;
  '(m, np) ← on_env (node_process (d_shard d) (d_replica d) (seg_node seg) (columns <$> seg_partial_index seg) (Some path) false m);
  n ← dom_node (seg_node seg);
  let misses := unique_misses (np_misses np) in
  missed ← lift (missed_keys backfill misses);
  _ ← (if is_target then after_processing tag seg n (default [] backfill) misses missed (np_captured np) else mret ());
  match m with
  | None => lift (match misses with [] => Ok (acc, FlowEnd) | _ => Panic end)
  | Some m =>
      let finished := match backfill with
                      | Some keys => if (rl_finished_partial acc =? 0) && counts then length keys else rl_finished_partial acc
                      | None => rl_finished_partial acc
                      end in
      let backfill := kept_keys m backfill in
      '(m, backfill, need) ← lift match backfill, misses with
                                  | Some keys, _ :: _ =>
                                      '(m, keys, need) ← drop_missed tag seg m keys misses missed; Ok (m, Some keys, need)
                                  | _, _ => Ok (m, backfill, [])
                                  end;
      let acc := {| rl_finished_partial := finished; rl_need := rl_need acc ++ need |} in
      match backfill with
      | Some [] => mret (acc, FlowEnd)
      | _ =>
          _ ← match backfill with
              | Some keys =>
                  _ ← match next with None => on_env (purge_source path tag keys) | Some _ => mret () end;
                  d ← get;
                  on_env (purge_lookups fuel (d_replay_paths d) (seg_node seg) (np_lookups np))
              | None => mret ()
              end;
          match m with
          | PReplayPiece _ _ [] (RpRegular false) => mret (acc, FlowBreak m)
          | _ =>
              d ← get;
              m ← lift (link_next (d_env d) seg next m);
              mret (acc, FlowNext match backfill with Some keys => set_replay_keys keys m | None => m end)
          end
      end
  end.

Fixpoint replay_path_loop (fuel : nat) (path : ReplayPath) (tag : nat) (counts : bool) (segs : list ReplayPathSegment)
    (acc : ReplayLoop) m : eff Dom (ReplayLoop * option (Packet V)) :=
  match segs with
  | [] => mret (acc, Some m)
  | seg :: segs' =>
      '(acc, flow) ← replay_segment fuel path tag counts seg (head segs') acc m;
      match flow with
      | FlowEnd => mret (acc, None)
      | FlowBreak m => mret (acc, Some m)
      | FlowNext m => replay_path_loop fuel path tag counts segs' acc m
      end
  end.

(** ** [handle_replay] *)
(** [finished_partial_replay]: it only counts requests, for a log message. *)
Definition finished_partial_replay (paths : ReplayPaths) (tag : nat) : result () :=
  path ← expect (rp_get paths tag);
  match rp_trigger path with
  | TriggerEnd _ _ =>
      last ← last_segment path;
      match target_node path with
      | Some target =>
          ix ← expect (seg_partial_index last);
          _ ← result_mapM (λ t, expect (rp_get paths t)) (default [] (tags_for_index paths (seg_node last) target ix));
          Ok ()
      | None => Err Internal
      end
  | TriggerLocal _ => Ok ()
  | _ => Err Internal
  end.

(** What is left to do when the packet has come to the end of the path: the replay
    is finished ([finish_waiting]), with its keys if it is a partial one. *)
Definition replay_end (now : Z) (path : ReplayPath) (tag dst : nat) (dst_is_reader dst_is_sender : bool) (finished_partial : nat) m :
    eff Dom (option (nat * option (list Key))) :=
  match m with
  | PReplayPiece _ _ _ (RpRegular last) =>
      if last && rp_notify_done path then target ← lift (expect (target_node path)); mret (Some (target, None))
      else mret None
  | PReplayPiece _ _ _ (RpPartial for_keys _ _ _) =>
      if dst_is_reader then
        d ← get;
        n ← lift (match env_nodes (d_env d) !! dst with Some n => Ok n | None => Err NoSuchNode end);
        _ ← (if n_purge n
             then modify (set_timed_purges (d_timed_purges d ++ [{| tp_time := (now + 50)%Z; tp_view := dst; tp_keys := for_keys |}]))
             else mret ());
        if finished_partial =? 0 then lift Panic else mret None
      else if dst_is_sender then mret None
      else if (finished_partial =? 0) && negb (bool_decide (length for_keys = 0)) then lift Panic
      else target ← lift (expect (target_node path)); mret (Some (target, Some for_keys))
  | _ => fail Internal
  end.

(** [handle_upquery] of a node, and whether a node has partial state. *)
Definition upquery (d : Dom) (miss : ColumnMiss V) : result (list (ColumnMiss V)) :=
  n ← expect (env_nodes (d_env d) !! cm_node miss); node_handle_upquery n miss.
Definition has_partial_state (d : Dom) (i : nat) : bool :=
  match env_state (d_env d) !! i with Some s => st_is_partial s | None => false end.
Definition ask_for_misses (g : ReplayDescriptor V * list (Key * Key)) : eff Dom () :=
  d ← get;
  on_replay_misses shard_hash (upquery d) (has_partial_state d) (rdesc_idx g.1) (rdesc_lookup_columns g.1) g.2
    (rdesc_unishard g.1) (rdesc_requesting_shard g.1) (rdesc_requesting_replica g.1) (rdesc_tag g.1).

(** The packet without the keys that nobody waits for, if the path ends here. *)
Definition prune_packet (path : ReplayPath) m : eff Dom (option (Packet V)) :=
  match m with
  | PReplayPiece link tag data (RpPartial keys shard replica unishard) =>
      if existsb seg_is_target (rp_path path) then
        d ← get;
        x ← lift (prune_replay d path data keys);
        mret ((λ dk, PReplayPiece link tag dk.1 (RpPartial dk.2 shard replica unishard)) <$> x)
      else mret (Some m)
  | PReplayPiece _ _ _ (RpRegular _) => mret (Some m)
  | _ => fail Internal
  end.

Definition is_materialized_reader n : bool := match n_inner n with NtReader r => rn_materialized r | _ => false end.

(** [now] is the time, [fuel] that of the lookups. *)
Definition handle_replay (now : Z) (fuel : nat) m : eff Dom () :=
  tag ← lift (match packet_tag m with Some tag => Ok tag | None => Err Internal end);
  d ← get;
  path ← lift (expect (rp_get (d_replay_paths d) tag));
  last ← lift (last_segment path);
  n ← dom_node (seg_node last);
  if is_dropped n then mret ()
  else
    _ ← start_buffering path;
    let dst := seg_node last in
    let dst_is_reader := is_materialized_reader n in
    let dst_is_sender := is_sender n in
    m ← prune_packet path m;
    match m with
    | None => mret ()
    | Some m =>
        '(acc, m) ← replay_path_loop fuel path tag (dst_is_reader || negb dst_is_sender) (rp_path path)
                      {| rl_finished_partial := 0; rl_need := [] |} m;
        finished ← match m with
                   | Some m => replay_end now path tag dst dst_is_reader dst_is_sender (rl_finished_partial acc) m
                   | None => mret None
                   end;
        d ← get;
        _ ← lift (if rl_finished_partial acc =? 0 then Ok () else finished_partial_replay (d_replay_paths d) tag);
        _ ← eff_iter ask_for_misses (replay_groups (length (rl_need acc)) (rl_need acc));
        match finished with
        | Some (target, for_keys) => finish_waiting tag dst target for_keys
        | None => mret ()
        end
    end.

(** ** [seed_all] *)
Definition seed_row d (source : nat) (row : list V) : result (Record V) :=
  match d_ingress_inject d !! source with
  | Some (_, defaults) => Ok (Positive (row ++ defaults))
  | None =>
      match env_nodes (d_env d) !! source with
      | None => Err NoSuchNode
      | Some n => Ok (Positive match n_inner n with NtBase b => fix_row b row | _ => row end)
      end
  end.

(** The bounds of a key are not empty ([Vec1]). *)
Definition bound_nonempty (b : Bound (list V)) : bool :=
  match b with Included [] | Excluded [] => false | _ => true end.
Definition range_nonempty (r : BoundPair (list V)) : bool := bound_nonempty r.1 && bound_nonempty r.2.

(** [StateLookupResult]: the rows of the keys that were found, these keys, and for
    those that were not the pairs of the key and the part of it that missed. *)
Record StateLookupResult := {
  sl_records : list (list (list V));
  sl_found_keys : list Key;
  sl_replay_keys : list (Key * Key);
}.
Definition do_lookup_multi (s : S) (multi : list nat → list (PointKey V) → result (list (list (list V)))) (cols : list nat) keys :
    result (list (list (list V))) :=
  ranges ← result_mapM (λ k : Key, match k with
             | KEqual _ => Ok []
             | KRange range =>
                 rk ← range_key_from range; res ← st_lookup_range s cols rk;
                 match res with RlrSome rows => Ok [rows] | RlrMissing _ => Panic end
             end) keys;
  points ← result_mapM point_key_from (omap (λ k : Key, match k with KEqual v => Some v | KRange _ => None end) keys);
  records ← multi cols points;
  Ok (records ++ concat ranges).
Definition lookup_iter_one (s : S) (cols : list nat) (acc : StateLookupResult) (key : Key) : result StateLookupResult :=
  match key with
  | KEqual k =>
      pk ← point_key_from k; res ← st_lookup s cols pk;
      Ok match res with
         | LrSome rows => {| sl_records := sl_records acc ++ [rows]; sl_found_keys := sl_found_keys acc ++ [key];
                             sl_replay_keys := sl_replay_keys acc |}
         | LrMissing => {| sl_records := sl_records acc; sl_found_keys := sl_found_keys acc;
                           sl_replay_keys := as_insert (K:=Key * Key) (sl_replay_keys acc) (key, key) |}
         end
  | KRange range =>
      rk ← range_key_from range; res ← st_lookup_range s cols rk;
      match res with
      | RlrSome rows => Ok {| sl_records := sl_records acc ++ [rows]; sl_found_keys := sl_found_keys acc ++ [key];
                              sl_replay_keys := sl_replay_keys acc |}
      | RlrMissing ms =>
          ks ← result_mapM (λ r : BoundPair (list V), if range_nonempty r then Ok (KRange r : Key) else Panic) ms;
          Ok {| sl_records := sl_records acc; sl_found_keys := sl_found_keys acc;
                sl_replay_keys := foldl (as_insert (K:=Key * Key)) (sl_replay_keys acc) (pair key <$> ks) |}
      end
  end.
Definition do_lookup_iter (s : S) (cols : list nat) keys : result StateLookupResult :=
  result_foldl (lookup_iter_one s cols) {| sl_records := []; sl_found_keys := []; sl_replay_keys := [] |} keys.
Definition do_lookup (s : S) (cols : list nat) keys : result StateLookupResult :=
  match st_lookup_multi s with
  | Some multi =>
      records ← do_lookup_multi s multi cols keys;
      Ok {| sl_records := records; sl_found_keys := keys; sl_replay_keys := [] |}
  | None => do_lookup_iter s cols keys
  end.

Definition seed_all (now : Z) (fuel tag requesting_shard requesting_replica : nat) keys (single_shard : bool) : eff Dom () :=
  d ← get;
  path ← lift (expect (rp_get (d_replay_paths d) tag));
  '(src, index) ← lift match rp_source path, rp_trigger path with
                       | Some source, (TriggerStart ix | TriggerLocal ix) => Ok (source, ix)
                       | _, _ => Err Internal
                       end;
  s ← lift (match env_state (d_env d) !! src with Some s => Ok s | None => Err Internal end);
  found ← lift (do_lookup s (columns index) keys);
  records ← lift (result_mapM (seed_row d src) (concat (sl_records found)));
  first ← lift (expect (head (rp_path path)));
  _ ← match sl_replay_keys found with
      | [] => mret ()
      | missed => on_replay_misses shard_hash (upquery d) (has_partial_state d) src (columns index) missed single_shard
                    requesting_shard requesting_replica tag
      end;
  match sl_found_keys found with
  | [] => mret ()
  | for_keys =>
      handle_replay now fuel
        (PReplayPiece {| link_src := src; link_dst := seg_node first |} tag records
           (RpPartial for_keys requesting_shard requesting_replica single_shard))
  end.

(** ** [handle] *)
(** The keys of a reader's request that are still missing. *)
Definition still_missing (w : W) (key : Key) : result (list Key) :=
  match key with
  | KEqual _ => b ← rs_contains w key; Ok (if (b : bool) then [] else [key])
  | KRange _ => o ← rs_interval_difference w key; Ok (default [] o)
  end.
Definition request_reader_replay (node : nat) (cols : list nat) keys : eff Dom () :=
  d ← get;
  n ← lift (match env_nodes (d_env d) !! node with Some n => Ok n | None => Err NoSuchNode end);
  r ← lift (match n_inner n with NtReader r => Ok r | _ => Err InvalidNodeType end);
  w ← lift (match env_readers (d_env d) !! node with Some w => Ok w | None => Err Internal end);
  w ← lift (rs_swap w);
  _ ← on_env (modify (put_reader node w));
  missing ← lift (result_mapM (still_missing w) keys);
  t ← lift (match rn_index_type r with Some t => Ok t | None => Err Internal end);
  x ← lift (requested_extend (default (requested_new t) (d_reader_triggered d !! node)) (concat missing));
  _ ← modify (λ d, set_reader_triggered (<[node := x.1]> (d_reader_triggered d)) d);
  match x.2 with
  | [] => mret ()
  | keys => find_tags_and_replay shard_hash keys cols node node
  end.

(** [handle]: [handle_packet] is what timestamps go to, [fuel] bounds the depth of the
    graph, and [sizes] and [seeds] are as for evictions. *)
Definition handle (handle_packet : Packet V → eff Dom ()) (now : Z) (fuel : nat) (sizes : list (nat * nat)) (seeds : nat → list nat)
    m : eff Dom () :=
  match m with
  | PMessage _ _ _ | PInput _ _ => dispatch kind_of coerce shard_hash fuel m
  | PReplayPiece _ _ _ _ => handle_replay now fuel m
  | PEvict _ _ | PEvictKeys _ _ _ => handle_eviction shard_hash fuel sizes seeds m
  | PTimestamp _ _ _ => handle_timestamp handle_packet m
  | PRequestReaderReplay node cols keys => request_reader_replay node cols keys
  | PRequestPartialReplay tag keys unishard shard replica =>
      seed_all now fuel tag shard replica (foldl (as_insert (K:=Key)) [] keys) unishard
  | PFinish tag node => finish_replay (dispatch kind_of coerce shard_hash fuel) tag node
  | PSpin => mret ()
  end.

(** [handle_packet]: the packet, then the packets the domain has sent to itself.  The
    fuel bounds the number of these. *)
Fixpoint handle_packets (rounds : nat) (now : Z) (fuel : nat) (sizes : list (nat * nat)) (seeds : nat → list nat) m : eff Dom () :=
  match rounds with
  | O => lift Panic
  | Datatypes.S rounds' =>
      let again := handle_packets rounds' now fuel sizes seeds in
      _ ← handle again now fuel sizes seeds m;
      d ← get;
      match d_delayed_for_self d with
      | [] => mret ()
      | next :: rest => _ ← modify (set_delayed_for_self rest); again next
      end
  end.

(** ** Timed purges *)
Fixpoint timed_purges_loop (now : Z) (purges : list (TimedPurge V)) (swap : list nat) : eff Dom (list nat) :=
  match purges with
  | [] => _ ← modify (set_timed_purges []); mret swap
  | tp :: purges' =>
      if (tp_time tp <=? now)%Z then
        _ ← dom_node (tp_view tp);
        d ← get;
        _ ← on_env (on_reader (tp_view tp) (λ w, result_foldl rs_mark_hole w (tp_keys tp)));
        timed_purges_loop now purges'
          (if bool_decide (is_Some (env_readers (d_env d) !! tp_view tp)) then swap ++ [tp_view tp] else swap)
      else _ ← modify (set_timed_purges (tp :: purges')); mret swap
  end.
Definition handle_timed_purges (now : Z) : eff Dom () :=
  d ← get;
  swap ← timed_purges_loop now (d_timed_purges d) [];
  on_env (eff_iter (λ node, on_reader node rs_swap) (remove_dups swap)).
End replay.
