(* ===== verification/NodeProcessProps.v ===== *)
(** * NodeProcessProps: the misses of a node

    The misses of a result are reported once per lookup and record
    ([unique_misses_spec]), not once per missing key ([unique_misses_by_record]). *)
From stdpp Require Import gmap.
From S2P Require Import Prelude Intervals BTreeMap IntervalTree PartialMap Result Records Keys Processing Batches.
From S2P Require Import Crates KeyedState SingleState Replication MemoryState Base Timestamp Effects Payload.
From S2P Require Import OpGrouped PacketFilter Sharder Egress Hashing ReplayPaths NodeProcess.

(** ** Unique misses *)
Section misses.
Context `{DfVal V}.
Implicit Types (m : Miss V) (l : list (Miss V)).

(** What [same_lookup] compares. *)
Definition lookup_class m :
    nat * list nat * (list nat + (list V + BoundPair (list V))) * option (list nat + BoundPair (list V)) :=
  (miss_on m, miss_lookup_idx m,
   match miss_lookup_key m with MlkRecordColumns c => inl c | MlkKey k => inr (kc_hashed k) end,
   match miss_replay_key m with
   | None => None | Some (MrkRecordColumns c) => Some (inl c) | Some (MrkRange r) => Some (inr r) end).

Lemma same_lookup_class m m' : same_lookup m m' = bool_decide (lookup_class m = lookup_class m').
Proof.
  unfold same_lookup, lookup_class, miss_lookup_key_eq, miss_replay_key_eq.
  destruct m as [on idx lk rk r], m' as [on' idx' lk' rk' r']; simpl.
  apply eq_true_iff_eq. rewrite bool_decide_eq_true, !andb_true_iff.
  destruct lk as [c|k], lk' as [c'|k'], rk as [[d|b]|], rk' as [[d'|b']|];
    rewrite ?kc_eq_hashed, ?bool_decide_eq_true;
    (split; [intros; destruct_and?; simplify_eq; congruence|intros; simplify_eq; split_and?; done]).
Qed.
Lemma same_lookup_true m m' : same_lookup m m' = true ↔ lookup_class m = lookup_class m'.
Proof. rewrite same_lookup_class. apply bool_decide_eq_true. Qed.

(** A set of misses: one per record, of the class the set is for. *)
Definition set_ok (s : MissSet (V:=V)) : Prop :=
  NoDup (mset_set s).*1 ∧ Forall (λ rm, miss_record rm.2 = rm.1 ∧ lookup_class rm.2 = lookup_class (mset_of s)) (mset_set s).

Lemma set_record_keys (x : list (list V * Miss V)) r m r' :
  r' ∈ (set_record x r m).*1 ↔ r' ∈ x.*1 ∨ r' = r.
Proof.
  induction x as [|[r1 m1] x IH]; simpl; [set_solver|].
  case_bool_decide; subst; simpl; rewrite ?elem_of_cons, ?IH; naive_solver.
Qed.
Lemma set_record_nodup (x : list (list V * Miss V)) r m : NoDup x.*1 → NoDup (set_record x r m).*1.
Proof.
  induction x as [|[r1 m1] x IH]; simpl; [intros; apply NoDup_singleton|].
  rewrite NoDup_cons. intros [Hn Hx]. case_bool_decide; simpl; rewrite NoDup_cons; [done|].
  rewrite set_record_keys. naive_solver.
Qed.
Lemma set_record_forall (P : list V * Miss V → Prop) x r m :
  Forall P x → (∀ m', P (r, m') → P (r, m)) → P (r, m) → Forall P (set_record x r m).
Proof.
  intros Hx Hp Hm. induction Hx as [|[r1 m1] x Hr Hx IH]; simpl; [by constructor|].
  case_bool_decide; subst; constructor; eauto.
Qed.

Lemma set_add_ok (s : MissSet (V:=V)) m : set_ok s → set_ok (miss_set_add s m).1.
Proof.
  unfold miss_set_add. destruct (same_lookup m (mset_of s)) eqn:Hm; [|done].
  intros [Hn Hf]. apply same_lookup_true in Hm. split; simpl; [by apply set_record_nodup|].
  by apply set_record_forall.
Qed.

(** A pass: what stays is what is not of the class of the set; what was there is kept
    or replaced by a miss with the same record. *)
Lemma filter_into_spec s l s' rest :
  filter_into s l = (s', rest) → set_ok s →
  set_ok s' ∧ mset_of s' = mset_of s ∧ rest = filter (λ m, same_lookup m (mset_of s) = false) l ∧
  (∀ r, r ∈ (mset_set s').*1 ↔ r ∈ (mset_set s).*1 ∨ ∃ m, m ∈ l ∧ same_lookup m (mset_of s) = true ∧ miss_record m = r) ∧
  (∀ m, m ∈ (mset_set s').*2 → m ∈ (mset_set s).*2 ∨ m ∈ l).
Proof.
  revert s rest. induction l as [|m l IH]; simpl; intros s rest.
  { intros [= <- <-] Hs. split_and!; try done; naive_solver set_solver. }
  destruct (miss_set_add s m) as [s1 added] eqn:Ha. destruct (filter_into s1 l) as [s2 rest1] eqn:Hf.
  intros [= <- <-] Hs. pose proof (set_add_ok s m Hs) as Hs1. rewrite Ha in Hs1.
  destruct (IH _ _ Hf Hs1) as (Hs2 & Hof & -> & Hr & Hm).
  assert (mset_of s1 = mset_of s ∧ added = same_lookup m (mset_of s) ∧
    (∀ r, r ∈ (mset_set s1).*1 ↔ r ∈ (mset_set s).*1 ∨ (same_lookup m (mset_of s) = true ∧ miss_record m = r)) ∧
    (∀ x, x ∈ (mset_set s1).*2 → x ∈ (mset_set s).*2 ∨ x = m)) as (Hof1 & -> & Hr1 & Hm1).
  { unfold miss_set_add in Ha. destruct (same_lookup m (mset_of s)) eqn:Hsame; simplify_eq; simpl; [|naive_solver].
    split_and!; [done..| |].
    - intros r. rewrite set_record_keys. naive_solver.
    - clear. induction (mset_set s) as [|[r1 m1] x IHx]; simpl; [set_solver|].
      case_bool_decide; simpl; set_solver. }
  rewrite Hof, Hof1 in *. split_and!; try done.
  - rewrite filter_cons. by destruct (same_lookup m (mset_of s)).
  - intros r. rewrite Hr, Hr1. split; [|set_solver].
    intros [[?|[??]]|(m' & ? & ? & ?)]; [by left|..]; right; eexists; (split_and!; [|done..]); set_solver.
  - intros x Hx. destruct (Hm x Hx) as [Hx'|]; [|set_solver]. destruct (Hm1 x Hx'); set_solver.
Qed.

(** What tells two misses apart. *)
Definition miss_id m := (lookup_class m, miss_record m).

Lemma miss_sets_spec fuel l :
  length l ≤ fuel →
  let us := miss_sets fuel l ≫= λ s, (mset_set s).*2 in
  (∀ m, m ∈ us → m ∈ l) ∧ (∀ u, u ∈ miss_id <$> us ↔ u ∈ miss_id <$> l) ∧ NoDup (miss_id <$> us).
Proof.
  revert l. induction fuel as [|fuel IH]; intros [|m l] Hl; cbn [length] in *; try lia.
  1,2: split_and!; [done..|constructor].
  destruct (filter_into (miss_set_from m) l) as [s rest] eqn:Hf.
  assert (set_ok (miss_set_from m)) as H0 by (split; simpl; [apply NoDup_singleton|repeat constructor]).
  destruct (filter_into_spec _ _ _ _ Hf H0) as ([Hn Hok] & Hof & -> & Hr & Hm).
  change (mset_of (miss_set_from m)) with m in *. change (mset_set (miss_set_from m)) with [(miss_record m, m)] in *.
  destruct (IH (filter (λ x, same_lookup x m = false) l)) as (Hsub & Hid & Hnd).
  { pose proof (length_filter (λ x, same_lookup x m = false) l). lia. }
  set (us := miss_sets fuel _ ≫= _) in *.
  change (miss_sets (Datatypes.S fuel) (m :: l)) with
    (let '(s, filtered) := filter_into (miss_set_from m) l in s :: miss_sets fuel filtered).
  rewrite Hf, bind_cons. fold us.
  assert (∀ u, u ∈ miss_id <$> (mset_set s).*2 ↔ u.1 = lookup_class m ∧ u.2 ∈ (mset_set s).*1) as Hset.
  { intros [c r]. rewrite list_elem_of_fmap. simpl. split.
    - intros (x & [= -> ->] & ([r' x'] & -> & Hx)%list_elem_of_fmap). rewrite Forall_forall in Hok.
      destruct (Hok _ Hx) as [Hrec Hc]. simpl in *. rewrite Hc, Hof, Hrec. split; [done|].
      apply list_elem_of_fmap. by exists (r', x').
    - intros [-> ([r' x] & -> & Hx)%list_elem_of_fmap]. rewrite Forall_forall in Hok.
      destruct (Hok _ Hx) as [Hrec Hc]. simpl in *. exists x. unfold miss_id. rewrite Hc, Hof, Hrec. split; [done|].
      apply list_elem_of_fmap. by exists (r', x). }
  cbv zeta. split_and!.
  - intros x [Hx|Hx]%elem_of_app; [|apply Hsub, list_elem_of_filter in Hx; set_solver].
    destruct (Hm x Hx); set_solver.
  - intros [c r]. rewrite fmap_app, elem_of_app, Hset, Hid, Hr, !list_elem_of_fmap. simpl.
    setoid_rewrite list_elem_of_filter. setoid_rewrite same_lookup_true. split.
    + intros [[-> [Hx|(x & Hx & Hc & <-)]]|(x & Hx & _ & ?)].
      * destruct Hx as (x & -> & ->%list_elem_of_singleton). exists m. split; [done|set_solver].
      * exists x. unfold miss_id. rewrite Hc. split; [done|set_solver].
      * exists x. split; [done|set_solver].
    + intros (x & [= -> ->] & [->|Hx]%elem_of_cons); [left; split; [done|]; left; eexists; split; [|by apply list_elem_of_singleton]; done|].
      destruct (same_lookup x m) eqn:Hs.
      * apply same_lookup_true in Hs. left. split; [done|]. right. by exists x.
      * right. by exists x.
  - rewrite fmap_app. apply NoDup_app. split_and!; [|..|done].
    + assert (miss_id <$> (mset_set s).*2 = (λ r, (lookup_class m, r)) <$> (mset_set s).*1) as ->.
      { rewrite <-Hof. clear -Hok. induction Hok as [|[r x] y [Hrec Hc] Hy IHy]; [done|]. simpl in Hrec, Hc.
        rewrite !fmap_cons, IHy. f_equal. unfold miss_id. simpl. by rewrite Hc, Hrec. }
      apply NoDup_fmap_2; [|done]. by intros ?? [=].
    + intros u Hu Hu'. apply Hset in Hu as [Hc _]. apply Hid, list_elem_of_fmap in Hu' as (x & -> & [Hx _]%list_elem_of_filter).
      rewrite same_lookup_class in Hx. by rewrite bool_decide_true in Hx.
Qed.

(** [unique_misses] returns misses of the result, for every miss one with the same
    lookup and the same record, and no two such misses. *)
Lemma unique_misses_spec l :
  (∀ m, m ∈ unique_misses l → m ∈ l) ∧
  (∀ m, m ∈ l → ∃ m', m' ∈ unique_misses l ∧ same_lookup m m' = true ∧ miss_record m' = miss_record m) ∧
  (∀ i j m m', unique_misses l !! i = Some m → unique_misses l !! j = Some m' →
     same_lookup m m' = true → miss_record m = miss_record m' → i = j).
Proof.
  destruct (miss_sets_spec (length l) l (le_n _)) as (Hsub & Hid & Hnd). split_and!; [done|..].
  - intros m Hm. assert (miss_id m ∈ miss_id <$> unique_misses l) as (m' & Heq & Hm')%list_elem_of_fmap.
    { apply Hid, list_elem_of_fmap. by exists m. }
    exists m'. split_and!; [done|apply same_lookup_true; exact (f_equal fst Heq)|exact (eq_sym (f_equal snd Heq))].
  - intros i j m m' Hi Hj Hs Hr. apply same_lookup_true in Hs. eapply NoDup_lookup; [exact Hnd|..].
    + rewrite list_lookup_fmap. unfold unique_misses in Hi. by rewrite Hi.
    + rewrite list_lookup_fmap. unfold unique_misses in Hj. rewrite Hj. simpl. unfold miss_id. by rewrite Hs, Hr.
Qed.

(** Misses are told apart by their whole records: of two misses of the same lookup
    whose records differ only in columns that were not looked up by, both are
    returned. *)
Theorem unique_misses_by_record l m m' cols :
  m ∈ l → m' ∈ l → same_lookup m m' = true → miss_lookup_key m = MlkRecordColumns cols →
  cols_at cols (miss_record m) = cols_at cols (miss_record m') → miss_record m ≠ miss_record m' →
  ∃ u u', u ∈ unique_misses l ∧ u' ∈ unique_misses l ∧ u ≠ u' ∧ same_lookup u u' = true ∧
    cols_at cols (miss_record u) = cols_at cols (miss_record u').
Proof.
  intros Hm Hm' Hs _ Hcols Hne. destruct (unique_misses_spec l) as (_ & Hall & _).
  destruct (Hall m Hm) as (u & Hu & Hsu & Hru). destruct (Hall m' Hm') as (u' & Hu' & Hsu' & Hru').
  exists u, u'. split_and!; [done|done|congruence| |by rewrite Hru, Hru'].
  apply same_lookup_true in Hs, Hsu, Hsu'. apply same_lookup_true. congruence.
Qed.
End misses.
