(* ===== verification/DomainFlowProps.v ===== *)
(** * DomainFlowProps: an update reaches every node below

    The composition of the parts of a domain.  The state of a node, a reader and an
    operator are known by what they promise ([NodeStateLaws], [ReaderLaws],
    [maintains]); a node and its descendants are in sync with the rows of its parent
    ([in_sync]) when every state holds the rows that its operator makes of the rows
    of the node above.  [dispatch] of a batch takes all of them from being in sync
    with the old rows to being in sync with the new ones ([dispatch_sync], the lemma
    behind the theorem of [FlowTheorems]). *)
From stdpp Require Import gmap.
From S2P Require Import Prelude Intervals BTreeMap IntervalTree PartialMap Result Records Keys Processing Batches.
From S2P Require Import Crates KeyedState SingleState SingleStateProps Replication MemoryState MemoryStateProps MemoryLookup Base.
From S2P Require Import Timestamp Effects Payload OpGrouped PacketFilter Sharder Egress Hashing ReplayPaths Domain.
From S2P Require Import NodeProcess DomainFlow.

(** ** What the parts promise *)
(** State that is not partial holds all the rows of its node, and finds those with a
    key in the columns of an index. *)
Class NodeStateLaws (V S : Type) `{DfVal V} `{!NodeState V S} := {
  st_holds : S → list (list V) → Prop;
  st_fits : S → list V → Prop;
  st_indexed : S → list nat → Prop;
  st_holds_perm s R R' : R ≡ₚ R' → st_holds s R → st_holds s R';
  st_update s rs R R' offset :
    st_holds s R → Forall (λ rc, st_fits s (rec rc)) rs → batch_ok R rs R' →
    ∃ s', st_process_records s rs None offset = Ok (rs, s') ∧ st_holds s' R' ∧
      (∀ r, st_fits s r → st_fits s' r) ∧ ∀ cols, st_indexed s cols → st_indexed s' cols;
  st_lookup_rows s R cols key :
    st_holds s R → Forall (st_fits s) R → st_indexed s cols →
    point_key_from (pk_elems key) = Ok key → length (pk_elems key) = length cols →
    ∃ rows, st_lookup s cols key = Ok (LrSome rows) ∧ rows ≡ₚ filter (λ r, cols_at cols r = pk_elems key) R;
}.

(** A reader serves the rows of its node. *)
Class ReaderLaws (V W : Type) `{DfVal V} `{!ReaderState V W} := {
  rs_holds : W → list (list V) → Prop;
  rs_fits : W → list V → Prop;
  rs_holds_perm w R R' : R ≡ₚ R' → rs_holds w R → rs_holds w R';
  rs_update w rs R R' link tr :
    rs_holds w R → Forall (λ rc, rs_fits w (rec rc)) rs → Forall (rs_fits w) R' → batch_ok R rs R' →
    ∃ w', rs_process w (PMessage link rs tr) true = Ok (w', PMessage link [] tr) ∧ rs_holds w' R' ∧
      ∀ r, rs_fits w r → rs_fits w' r;
}.

(** In-memory state with full indexes. *)
#[export] Program Instance memory_state_laws `{DfVal V} `{!HashBag (list V) Rows} `{!IndexMap (list V) Rows IM} :
    NodeStateLaws V (MemoryState V Rows IM ReplicationOffset) :=
  {| st_holds := λ ms R, ms_ok ms R ∧ ms_is_partial ms = false;
     st_fits := row_fits;
     st_indexed := λ ms cols, Forall (λ st, NoDup (ss_columns st)) (ms_state ms) ∧ cols ∈ ss_columns <$> ms_state ms |}.
Next Obligation. intros V ? Rows ? IM ? ms R R' HR [Hok Hp]. split; [by eapply ms_ok_perm|done]. Qed.
Next Obligation.
  intros V ? Rows ? IM ? ms rs R R' offset [Hok Hp] Hf Hb.
  destruct (process_records_ok ms rs offset R R' Hok Hf Hb) as (ms' & Heq & Hok' & Hs). rewrite Hp in Heq.
  exists ms'. split; [done|]. split; [split; [done|]|split].
  - by rewrite (same_indexes_partial ms ms' Hs).
  - intros r. by apply same_indexes_fits.
  - intros cols. assert (ss_columns <$> ms_state ms' = ss_columns <$> ms_state ms) as Hc.
    { destruct Hs as [Hs _]. clear -Hs. induction Hs as [|s s' l l' Hs Hl IH]; [done|].
      rewrite !fmap_cons, IH. f_equal. by apply same_index_columns. }
    by rewrite <-!(Forall_fmap ss_columns NoDup), Hc.
Qed.
Next Obligation.
  intros V ? Rows ? IM ? ms R cols key [Hok Hp] Hf [Hnd Hin] Hk Hl.
  destruct (ms_lookup_ok ms cols key R Hok Hf Hnd) as (res & Heq & Hres); [|done..|].
  { apply list_elem_of_fmap in Hin as (s & -> & Hs). by exists s. }
  destruct res as [rows|]; [by exists rows|]. exfalso.
  apply list_elem_of_fmap in Hin as (s & -> & Hs). specialize (Hres s Hs eq_refl).
  assert (ss_partial s = false) as Hps.
  { unfold ms_is_partial in Hp. destruct (ss_partial s) eqn:E; [|done]. rewrite <-not_true_iff_false in Hp.
    exfalso. apply Hp, existsb_exists. exists s. by rewrite <-list_elem_of_In. }
  unfold ss_filled in Hres. by rewrite Hps, orb_true_r in Hres.
Qed.

Section compose.
Context `{DfNum V} {K : Type} `{Countable K} (kind_of : V → K) {Ty : Type} (coerce : Ty → V → result V).
Context (shard_hash : V → option N) {S W Op : Type}.
Context `{!NodeState V S} `{!ReaderState V W} `{!Ingredient V S Op} `{!NodeStateLaws V S} `{!ReaderLaws V W}.
#[local] Abbreviation Env := (Env V S W Op Ty).
#[local] Abbreviation Node := (Node V Op Ty).
#[local] Abbreviation rows := (list (list V)).
Implicit Types (e : Env) (n : Node) (R : rows) (rs : list (Record V)) (P : list V → Prop).

(** State that can be looked up in by some columns, if there are any. *)
Definition indexed (o : option S) (ixs : list (list nat)) : Prop :=
  match ixs with [] => True | _ => ∃ s, o = Some s ∧ Forall (st_indexed s) ixs end.
(** State, if there is one, with the rows [R], of the form [P]. *)
Definition state_holds (o : option S) P R : Prop := ∀ s, o = Some s → st_holds s R ∧ ∀ r, P r → st_fits s r.

(** An operator at a node maintains its view: for a batch that takes the rows of the
    parent from [R] to [R'], it returns one that takes its own rows from [T] to
    [T'], without misses.  [I] says how the rows of the operator, and what it keeps
    itself, relate to the rows of the parent; [P] and [Q] are the rows that occur;
    [own] and [par] are the indexes that the operator needs of its own state and of
    that of the parent.  The rows and records of the parent must be few enough to be
    counted in 64 bits; there are at most [fan] times as many of the operator. *)
Definition maintains (self from : nat) P (Q : list V → Prop) (own par : list (list nat)) (fan : nat)
    (I : Op → rows → rows → Prop) : Prop :=
  (∀ op R R' T T', R ≡ₚ R' → T ≡ₚ T' → I op R T → I op R' T') ∧
  ∀ op R R' rs T (states : gmap nat S) fuel (nodes : gmap nat Node),
    I op R T → batch_ok R rs R' → Forall P R → Forall P R' → Forall (λ rc, P (rec rc)) rs → Forall Q T →
    state_holds (states !! from) P R' → indexed (states !! from) par →
    state_holds (states !! self) Q T → indexed (states !! self) own →
    (Z.of_nat (length R + length rs) < 2 ^ 63)%Z →
    ∃ out op' T', on_input_raw op from rs RcNone states (ingredient_lookup fuel nodes states) = Ok (RawRegular out, op') ∧
      pr_misses out = [] ∧ batch_ok T (pr_results out) T' ∧ I op' R' T' ∧ Forall Q T' ∧
      Forall (λ rc, Q (rec rc)) (pr_results out) ∧ ig_is_shard_merger op' = ig_is_shard_merger op ∧
      length T + length (pr_results out) ≤ fan * (length R + length rs).

(** What the node of an operator computes: the form of its rows, how they and what the
    operator keeps relate to the rows of the parent, the indexes that it needs, and
    how many rows and records it has for one of the parent. *)
Record View := {
  vw_rows : list V → Prop;
  vw_rel : Op → rows → rows → Prop;
  vw_own : list (list nat);
  vw_par : list (list nat);
  vw_fan : nat;
}.
Context (views : nat → View).

(** A node alone: its rows [T], of the form [Q], for the rows [R] of its parent. *)
Definition local_sync e (i from : nat) n P R (Q : list V → Prop) (T : rows) (fan : nat) : Prop :=
  Forall Q T ∧ state_holds (env_state e !! i) Q T ∧
  match n_inner n with
  | NtIngress => T ≡ₚ R ∧ 1 ≤ fan ∧ ∀ r, P r → Q r
  | NtInternal op => ig_is_shard_merger op = false ∧
                       maintains i from P Q (vw_own (views i)) (vw_par (views i)) fan (vw_rel (views i)) ∧ vw_rel (views i) op R T ∧
                       indexed (env_state e !! i) (vw_own (views i)) ∧ indexed (env_state e !! from) (vw_par (views i))
  | NtReader _ => n_children n = [] ∧ T = [] ∧ ∃ w, env_readers e !! i = Some w ∧ rs_holds w R ∧ ∀ r, P r → rs_fits w r
  | _ => False
  end.

(** A node and its descendants, for at most [N] rows and records of the parent. *)
Fixpoint in_sync (depth : nat) e (i from : nat) P R (N : nat) : Prop :=
  match depth with
  | O => False
  | Datatypes.S depth' =>
      ∃ n T, env_nodes e !! i = Some n ∧ local_sync e i from n P R (vw_rows (views i)) T (vw_fan (views i)) ∧
        (Z.of_nat N < 2 ^ 63)%Z ∧ Forall (λ c, in_sync depth' e c i (vw_rows (views i)) T (vw_fan (views i) * N)) (n_children n)
  end.
Fixpoint subtree (depth : nat) (nodes : gmap nat Node) (i : nat) : list nat :=
  match depth with
  | O => []
  | Datatypes.S depth' =>
      i :: match nodes !! i with Some n => n_children n ≫= subtree depth' nodes | None => [] end
  end.

(** ** Changes elsewhere *)
Definition agree_at e e' (i : nat) : Prop :=
  env_nodes e' !! i = env_nodes e !! i ∧ env_state e' !! i = env_state e !! i ∧ env_readers e' !! i = env_readers e !! i.
(** The indexes of a node are still there. *)
Definition keeps_indexes e e' (i : nat) : Prop := ∀ ixs, indexed (env_state e !! i) ixs → indexed (env_state e' !! i) ixs.
(** The same graph. *)
Definition same_graph (nodes nodes' : gmap nat Node) : Prop := ∀ j, n_children <$> nodes' !! j = n_children <$> nodes !! j.

Lemma agree_indexes e e' i : agree_at e e' i → keeps_indexes e e' i.
Proof. intros (_ & Hs & _) ixs. by rewrite Hs. Qed.
Lemma local_sync_agree e e' i from n P R Q T fan :
  agree_at e e' i → keeps_indexes e e' from → local_sync e i from n P R Q T fan → local_sync e' i from n P R Q T fan.
Proof.
  intros (_ & Hs & Hr) Hk (HT & Hst & Hn). unfold local_sync. rewrite Hs, Hr. split_and!; [done..|].
  destruct (n_inner n); try done. destruct Hn as (Hm & HI & HIop & Ho & Hp). split_and!; auto.
Qed.

Lemma subtree_graph depth nodes nodes' i : same_graph nodes nodes' → subtree depth nodes' i = subtree depth nodes i.
Proof.
  intros Hg. revert i. induction depth as [|depth IH]; intros i; simpl; [done|]. f_equal.
  specialize (Hg i). destruct (nodes !! i) as [n|], (nodes' !! i) as [n'|]; simplify_eq/=; [|done].
  rewrite Hg. apply list_bind_ext; [done|]. done.
Qed.

Lemma in_sync_agree depth e e' i from P R N :
  (∀ j, j ∈ subtree depth (env_nodes e) i → agree_at e e' j) → keeps_indexes e e' from →
  in_sync depth e i from P R N → in_sync depth e' i from P R N.
Proof.
  revert i from P R N. induction depth as [|depth IH]; intros i from P R N Ha Hk; [done|].
  intros (n & T & Hn & Hl & HN & Hc). cbn [subtree] in Ha. rewrite Hn in Ha.
  exists n, T. split_and!.
  - destruct (Ha i) as [-> _]; [apply elem_of_here|done].
  - eapply local_sync_agree; [|done|done]. apply Ha, elem_of_here.
  - done.
  - rewrite Forall_forall in Hc |- *. intros c Hin. apply IH; [|apply agree_indexes, Ha, elem_of_here|by apply Hc].
    intros j Hj. apply Ha, elem_of_further. apply list_elem_of_bind. by exists c.
Qed.

(** Rows in another order. *)
Lemma local_sync_perm e i from n P R R' Q T fan :
  R ≡ₚ R' → local_sync e i from n P R Q T fan → local_sync e i from n P R' Q T fan.
Proof.
  intros HR (HT & Hs & Hn). split_and!; [done..|]. destruct (n_inner n); try done.
  - by rewrite <-HR.
  - destruct Hn as (Hm & HI & HIop & Ho & Hp). split_and!; [done|done| |done..].
    by eapply HI.
  - destruct Hn as (Hc & HT0 & w & Hw & Hh & Hf). split_and!; [done..|]. exists w. split_and!; [done| |done].
    by eapply rs_holds_perm.
Qed.
Lemma in_sync_perm depth e i from P R R' N : R ≡ₚ R' → in_sync depth e i from P R N → in_sync depth e i from P R' N.
Proof.
  intros HR. destruct depth as [|depth]; [done|]. intros (n & T & Hn & Hl & HN & Hc).
  exists n, T. split_and!; [done| |done..]. by eapply local_sync_perm.
Qed.

(** ** One node *)
(** [e'] is [e] with other contents at node [i], with node [n'] there. *)
Definition changed_at e e' (i : nat) n' : Prop :=
  env_nodes e' = <[i := n']> (env_nodes e) ∧ (∀ j, j ≠ i → env_state e' !! j = env_state e !! j) ∧
  (∀ j, j ≠ i → env_readers e' !! j = env_readers e !! j) ∧ env_sent e' = env_sent e ∧ keeps_indexes e e' i.

Lemma changed_agree e e' i n' j : changed_at e e' i n' → j ≠ i → agree_at e e' j.
Proof. intros (Hn & Hs & Hr & _) Hj. split_and!; [by rewrite Hn, lookup_insert_ne|by apply Hs|by apply Hr]. Qed.
Lemma changed_graph e e' i n n' :
  env_nodes e !! i = Some n → n_children n' = n_children n → changed_at e e' i n' → same_graph (env_nodes e) (env_nodes e').
Proof.
  intros Hn Hc (-> & _) j. destruct (decide (j = i)) as [->|]; [|by rewrite lookup_insert_ne].
  by rewrite lookup_insert_eq, Hn; simpl; rewrite Hc.
Qed.

Lemma materialize_ok e i Q T T' rs :
  state_holds (env_state e !! i) Q T → batch_ok T rs T' → Forall (λ rc, Q (rec rc)) rs →
  ∃ e', materialize rs None None i e = (e', Ok rs) ∧
    env_nodes e' = env_nodes e ∧ env_readers e' = env_readers e ∧ env_sent e' = env_sent e ∧
    (∀ j, j ≠ i → env_state e' !! j = env_state e !! j) ∧ state_holds (env_state e' !! i) Q T' ∧ keeps_indexes e e' i.
Proof.
  intros Hs Hb Hrs. unfold materialize, mbind, eff_bind, get. destruct (env_state e !! i) as [s|] eqn:Es.
  - destruct (Hs s eq_refl) as [Hh Hf].
    destruct (st_update s rs T T' None Hh) as (s' & Heq & Hh' & Hf' & Hx'); [|done|].
    { eapply Forall_impl; [exact Hrs|]. simpl. auto. }
    unfold lift. rewrite Heq. eexists. split; [reflexivity|]. simpl. split_and!; try done.
    + intros j Hj. by rewrite lookup_insert_ne.
    + intros s1. rewrite lookup_insert_eq. intros [= <-]. split; [done|]. auto.
    + intros ixs. rewrite Es. simpl. rewrite lookup_insert_eq. destruct ixs as [|ix ixs]; [done|].
      intros (s0 & [= <-] & Hix). exists s'. split; [done|]. eapply Forall_impl; [exact Hix|]. auto.
  - exists e. split; [done|]. rewrite Es. split_and!; [done..|by intros ixs].
Qed.

(** What processing an update does to a node in sync. *)
Definition processed e (i from : nat) n P R R' (Q : list V → Prop) (T : rows) (fan : nat) link rs tr (shard : option nat) (replica : nat) : Prop :=
  ∃ e' n' np out T',
    node_process kind_of coerce shard_hash shard replica i None None true (PMessage link rs tr) e =
      (e', Ok (Some (PMessage link out tr), np)) ∧
    np_misses np = [] ∧ np_captured np = [] ∧ changed_at e e' i n' ∧ n_children n' = n_children n ∧
    batch_ok T out T' ∧ Forall Q T' ∧ Forall (λ rc, Q (rec rc)) out ∧ local_sync e' i from n' P R' Q T' fan ∧
    length T + length out ≤ fan * (length R + length rs).

Lemma process_internal_sync e i n op P R R' Q T fan link rs tr :
  env_nodes e !! i = Some n → n_inner n = NtInternal op → local_sync e i (link_src link) n P R Q T fan →
  batch_ok R rs R' → Forall P R → Forall P R' → Forall (λ rc, P (rec rc)) rs →
  state_holds (env_state e !! link_src link) P R' → link_src link ≠ i → (Z.of_nat (length R + length rs) < 2 ^ 63)%Z →
  ∃ e' np op' out T',
    process_internal i n op None (PMessage link rs tr) e = (e', Ok (Some (PMessage link out tr), np)) ∧
    np_misses np = [] ∧ np_captured np = [] ∧ changed_at e e' i (set_inner n (NtInternal op')) ∧
    batch_ok T out T' ∧ Forall Q T' ∧ Forall (λ rc, Q (rec rc)) out ∧
    local_sync e' i (link_src link) (set_inner n (NtInternal op')) P R' Q T' fan ∧
    length T + length out ≤ fan * (length R + length rs).
Proof.
  intros Hn Hin (HT & Hst & Hloc) Hb HP HP' Hrs Hpar Hne Hsz. rewrite Hin in Hloc.
  destruct Hloc as (Hm & HI & HIop & Ho & Hp).
  pose proof HI as [HIp HIs].
  destruct (HIs op R R' rs T (env_state e) (size (env_nodes e)) (env_nodes e)) as (out & op' & T' & Hon & Hmis & Hbo & HIop' & HQ & HQo & Hm' & Hlen); try done.
  set (e1 := put_node i (set_inner n (NtInternal op')) e).
  destruct (materialize_ok e1 i Q T T' (pr_results out)) as (e' & Hmat & Hn' & Hr' & Hsent & Hoth & Hown & Hix); [done..|].
  exists e', {| np_misses := []; np_lookups := pr_lookups out; np_captured := [] |}, op', (pr_results out), T'.
  split_and!; try done.
  - unfold process_internal, mbind, eff_bind, lift, get, modify. cbn [packet_src replay_context].
    rewrite Hon. cbn [with_result Payload.set_data mbind result_bind]. fold e1. cbn [past_merger packet_data].
    rewrite Hmis. unfold materialize, mbind, eff_bind, get, lift, modify in Hmat. cbn [partial_tag].
    unfold materialize, mbind, eff_bind, get, lift, modify. rewrite Hmat. cbn [Payload.set_data np_misses result_mapM].
    done.
  - split_and!; [by rewrite Hn'|done|by rewrite Hr'|by rewrite Hsent|done].
  - unfold local_sync. cbn [set_inner n_inner]. split_and!; [done..|by rewrite Hm'|done|done|by apply Hix|]. by rewrite Hoth.
Qed.

Lemma get_node_ok e i n : env_nodes e !! i = Some n → get_node i e = (e, Ok n).
Proof. intros Hn. unfold get_node, mbind, eff_bind, get, lift. by rewrite Hn. Qed.

Lemma process_sync e i n P R R' Q T fan link rs tr shard replica :
  env_nodes e !! i = Some n → local_sync e i (link_src link) n P R Q T fan →
  batch_ok R rs R' → Forall P R → Forall P R' → Forall (λ rc, P (rec rc)) rs →
  state_holds (env_state e !! link_src link) P R' → link_src link ≠ i → (Z.of_nat (length R + length rs) < 2 ^ 63)%Z →
  processed e i (link_src link) n P R R' Q T fan link rs tr shard replica.
Proof.
  intros Hn Hl Hb HP HP' Hrs Hpar Hne Hsz. unfold processed, node_process.
  rewrite (bind_ok _ _ _ _ _ (get_node_ok e i n Hn)).
  destruct (n_inner n) as [|b|op|g|g|r| |] eqn:Hin; try (exfalso; destruct Hl as (_ & _ & Hl); by rewrite Hin in Hl).
  - destruct Hl as (HT & Hst & Hl). rewrite Hin in Hl. destruct Hl as (HTR & Hfan & HPQ).
    assert (batch_ok T rs R') as HbT.
    { destruct Hb as [Hb1 Hb2]. split; intros x; [intros k|]; rewrite (occ_perm _ _ _ HTR); [apply Hb1|apply Hb2]. }
    destruct (materialize_ok e i Q T R' rs) as (e' & Hmat & Hn' & Hr' & Hsent & Hoth & Hown & Hix); [done|done| |].
    { eapply Forall_impl; [exact Hrs|]. simpl. auto. }
    exists e', n, np_default, rs, R'. split_and!; try done.
    + unfold process_ingress, mbind, eff_bind, lift. cbn [packet_data packet_tag]. rewrite Hmat. done.
    + split_and!; [by rewrite Hn', insert_id|done|by rewrite Hr'|done|done].
    + eapply Forall_impl; [exact HP'|]. auto.
    + eapply Forall_impl; [exact Hrs|]. simpl. auto.
    + unfold local_sync. rewrite Hin. split_and!; [|done..]. eapply Forall_impl; [exact HP'|]. auto.
    + rewrite (Permutation_length HTR). nia.
  - destruct (process_internal_sync e i n op P R R' Q T fan link rs tr)
      as (e' & np & op' & out & T' & Heq & ? & ? & ? & ? & ? & ? & ? & ?); [done..|].
    exists e', (set_inner n (NtInternal op')), np, out, T'. by split_and!.
  - destruct Hl as (HT & Hst & Hl). rewrite Hin in Hl. destruct Hl as (Hc & -> & w & Ew & Hh & Hf).
    destruct (rs_update w rs R R' link tr Hh) as (w' & Heq & Hh' & Hf'); [| |done|].
    { eapply Forall_impl; [exact Hrs|]. simpl. auto. }
    { eapply Forall_impl; [exact HP'|]. auto. }
    exists (put_reader i w' e), n, np_default, [], []. split_and!; try done.
    + unfold mbind, eff_bind, modify, get, lift. rewrite Ew, Heq. done.
    + split_and!; [by cbn; rewrite insert_id|done| |done|by intros ixs]. intros j Hj. simpl. by rewrite lookup_insert_ne.
    + split; intros x; [intros [|k]|]; simpl; unfold occ; simpl; done.
    + unfold local_sync. rewrite Hin. split_and!; [done..|]. exists w'. simpl. rewrite lookup_insert_eq. auto.
    + simpl. lia.
Qed.

(** ** The children *)
Lemma on_env_run {A} (f : eff Env A) (d : Dom V S W Op Ty) e' r : f (d_env d) = (e', r) → on_env f d = (set_env e' d, r).
Proof. intros Hf. unfold on_env. by rewrite Hf. Qed.
Lemma set_env_same (d : Dom V S W Op Ty) : set_env (d_env d) d = d.
Proof. by destruct d. Qed.

#[local] Abbreviation dispatch := (dispatch kind_of coerce shard_hash).
#[local] Abbreviation Dom := (Dom V S W Op Ty).
Implicit Types (d : Dom).

(** What [dispatch] does below a node, from the rows [R] of the parent to [R']. *)
Definition dispatched (depth : nat) d (i from : nat) P R R' (N : nat) : Prop := ∀ e link rs tr,
  d_env d = e → link_src link = from → link_dst link = i →
  d_mode d = Forwarding → (∀ j, j ∈ subtree depth (env_nodes e) i → j ∉ d_not_ready d) →
  NoDup (from :: subtree depth (env_nodes e) i) →
  in_sync depth e i from P R N → batch_ok R rs R' → Forall P R → Forall P R' → Forall (λ rc, P (rec rc)) rs →
  length R + length rs ≤ N → state_holds (env_state e !! from) P R' →
  ∃ e', dispatch depth (PMessage link rs tr) d = (set_env e' d, Ok ()) ∧ in_sync depth e' i from P R' N ∧
    same_graph (env_nodes e) (env_nodes e') ∧ (∀ j, j ∉ subtree depth (env_nodes e) i → agree_at e e' j) ∧
    env_sent e' = env_sent e.

Lemma in_sync_not_merger depth e i from P R N :
  in_sync depth e i from P R N → ∃ n, env_nodes e !! i = Some n ∧ is_shard_merger n = false.
Proof.
  destruct depth; [done|]. intros (n & T & Hn & (_ & _ & Hl) & _). exists n. split; [done|].
  unfold is_shard_merger. destruct (n_inner n); try done. by destruct Hl.
Qed.

Lemma subtree_head depth nodes i : depth ≠ 0 → i ∈ subtree depth nodes i.
Proof. destruct depth; [done|]. intros _. apply elem_of_here. Qed.

Lemma children_sync depth d i Q T T' N link out tr cs :
  (∀ d c, dispatched depth d c i Q T T' N) →
  d_mode d = Forwarding → (∀ j, j ∈ cs ≫= subtree depth (env_nodes (d_env d)) → j ∉ d_not_ready d) →
  NoDup (i :: (cs ≫= subtree depth (env_nodes (d_env d)))) →
  Forall (λ c, in_sync depth (d_env d) c i Q T N) cs → length T + length out ≤ N →
  batch_ok T out T' → Forall Q T → Forall Q T' → Forall (λ rc, Q (rec rc)) out →
  state_holds (env_state (d_env d) !! i) Q T' →
  ∃ e', eff_iter (λ childi, child ← dom_node childi; m' ← lift (for_child i childi child (PMessage link out tr));
                            dispatch depth m') cs d = (set_env e' d, Ok ()) ∧
    Forall (λ c, in_sync depth e' c i Q T' N) cs ∧ same_graph (env_nodes (d_env d)) (env_nodes e') ∧
    (∀ j, j ∉ cs ≫= subtree depth (env_nodes (d_env d)) → agree_at (d_env d) e' j) ∧ env_sent e' = env_sent (d_env d).
Proof.
  intros IH Hmode Hready Hnd Hc HN Hb HQ HQ' Hout. revert d Hmode Hready Hnd Hc.
  induction cs as [|c cs IHcs]; intros d Hmode Hready Hnd Hc Hst.
  { exists (d_env d). split_and!; try done. cbn. by rewrite set_env_same. }
  rewrite Forall_cons in Hc. destruct Hc as [Hc Hcs]. rewrite bind_cons in Hready, Hnd.
  apply NoDup_cons in Hnd as [Hi Hnd]. pose proof Hnd as (Hndc & Hdisj & Hndcs)%NoDup_app.
  destruct (in_sync_not_merger _ _ _ _ _ _ _ Hc) as (child & Hchild & Hm).
  destruct (IH d c (d_env d) {| link_src := i; link_dst := c |} out tr) as (e1 & Hd1 & Hs1 & Hg1 & Ha1 & Hsent1); try done.
  { intros j Hj. apply Hready, elem_of_app. by left. }
  { apply NoDup_cons. split; [|done]. intros Hj. apply Hi, elem_of_app. by left. }
  assert (∀ j, subtree depth (env_nodes e1) j = subtree depth (env_nodes (d_env d)) j) as Hsub
    by (intros j; by apply subtree_graph).
  destruct (IHcs (set_env e1 d)) as (e' & Hd' & Hs' & Hg' & Ha' & Hsent'); cbn [set_env d_env d_mode d_not_ready]; [done|..].
  { intros j. rewrite (list_bind_ext _ (subtree depth (env_nodes (d_env d))) cs cs); [|done|done].
    intros Hj. apply Hready, elem_of_app. by right. }
  { rewrite (list_bind_ext _ (subtree depth (env_nodes (d_env d))) cs cs); [|done|done].
    apply NoDup_cons. split; [|done]. intros Hj. apply Hi, elem_of_app. by right. }
  { rewrite Forall_forall in Hcs |- *. intros c' Hc'. eapply in_sync_agree; [| |by apply Hcs].
    { intros j Hj. apply Ha1. intros Hj'. eapply Hdisj; [exact Hj'|]. apply list_elem_of_bind. by exists c'. }
    apply agree_indexes, Ha1. intros Hj. apply Hi, elem_of_app. by left. }
  { intros s. destruct (Ha1 i) as (_ & -> & _); [|by apply Hst]. intros Hj. apply Hi, elem_of_app. by left. }
  exists e'. cbn [set_env d_env] in *.
  assert (∀ j, j ∈ cs ≫= subtree depth (env_nodes e1) ↔ j ∈ cs ≫= subtree depth (env_nodes (d_env d))) as Hsubs.
  { intros j. rewrite (list_bind_ext _ (subtree depth (env_nodes (d_env d))) cs cs); done. }
  split_and!.
  - etrans; [apply (eff_iter_cons _ _ _ _ (set_env e1 d))|exact Hd'].
    unfold dom_node. rewrite (bind_ok _ _ d d child).
    + unfold mbind, eff_bind, lift. cbn [for_child]. rewrite Hm. done.
    + rewrite (on_env_run _ _ (d_env d) (Ok child)); [by rewrite set_env_same|by apply get_node_ok].
  - constructor; [|done]. eapply in_sync_agree; [| |exact Hs1].
    + intros j. rewrite Hsub. intros Hj. apply Ha'. rewrite Hsubs. by apply Hdisj.
    + apply agree_indexes, Ha'. rewrite Hsubs. intros Hj. apply Hi, elem_of_app. by right.
  - intros j. by rewrite Hg', Hg1.
  - intros j Hj. rewrite bind_cons, not_elem_of_app in Hj. destruct Hj as [Hj1 Hj2]. destruct (Ha1 j Hj1) as (? & ? & ?).
    destruct (Ha' j) as (? & ? & ?); [by rewrite Hsubs|]. split_and!; congruence.
  - congruence.
Qed.

Lemma dispatch_gate_forward (has_node : nat → bool) d link rs tr :
  d_mode d = Forwarding → has_node (link_dst link) = true → link_dst link ∉ d_not_ready d →
  dispatch_gate has_node (PMessage link rs tr) d = (d, Ok true).
Proof.
  intros Hmode Hhas Hready. unfold dispatch_gate, mbind, eff_bind, lift, get. cbn [packet_src packet_dst].
  rewrite Hhas. cbn [negb]. rewrite Hmode. cbn. by rewrite bool_decide_false.
Qed.

Lemma evict_missed_none fuel src me n d : evict_missed shard_hash fuel src me n [] d = (d, Ok ()).
Proof. unfold evict_missed, mbind, eff_bind, lift, is_internal, is_join. by destruct (n_inner n). Qed.

Lemma dispatch_sync depth d i from P R R' N : dispatched depth d i from P R R' N.
Proof.
  revert d i from P R R' N. induction depth as [|depth IH]; intros d i from P R R' N e link rs tr <- Hsrc Hdst Hmode Hready Hnd Hsync
    Hb HP HP' Hrs HN Hpar; [done|].
  destruct Hsync as (n & T & Hn & Hl & Hsz & Hc). set (Q := vw_rows (views i)) in *. set (fan := vw_fan (views i)) in *. cbn [subtree] in Hready, Hnd |- *. rewrite Hn in Hready, Hnd |- *.
  subst from. pose proof (proj1 Hl) as HQ.
  assert (link_src link ≠ i) as Hne.
  { apply NoDup_cons in Hnd as [Hnot _]. intros Heq. apply Hnot. rewrite Heq. apply elem_of_here. }
  destruct (process_sync (d_env d) i n P R R' Q T fan link rs tr (d_shard d) (d_replica d))
    as (e1 & n1 & np & out & T' & Hproc & Hmiss & Hcap & Hch & Hcs & Hbo & HQ' & Hout & Hl1 & Hlen); [done..|lia|].
  pose proof (changed_graph _ _ _ _ _ Hn Hcs Hch) as Hg1.
  assert (∀ j, subtree depth (env_nodes e1) j = subtree depth (env_nodes (d_env d)) j) as Hsub
    by (intros j; by apply subtree_graph).
  assert (n_children n ≫= subtree depth (env_nodes e1) = n_children n ≫= subtree depth (env_nodes (d_env d))) as Hsubs
    by (by apply list_bind_ext).
  apply NoDup_cons in Hnd as [Hfrom Hnd]. pose proof Hnd as [Hi Hndc]%NoDup_cons.
  assert (env_nodes e1 !! i = Some n1) as Hn1 by (destruct Hch as (-> & _); by rewrite lookup_insert_eq).
  destruct (children_sync depth (set_env e1 d) i Q T T' (fan * N) link out tr (n_children n)) as (e' & Hd' & Hs' & Hg' & Ha' & Hsent');
    cbn [set_env d_env d_mode d_not_ready]; try done.
  { rewrite Hsubs. intros j Hj. apply Hready. by apply elem_of_further. }
  { by rewrite Hsubs. }
  { rewrite Forall_forall in Hc |- *. intros c Hin. eapply in_sync_agree; [|apply Hch|by apply Hc].
    intros j Hj. eapply changed_agree; [done|]. intros ->. apply Hi, list_elem_of_bind. by exists c. }
  { nia. }
  { apply Hl1. }
  cbn [set_env d_env] in *. rewrite Hsubs in Ha'.
  assert (∃ e2, dispatch (Datatypes.S depth) (PMessage link rs tr) d = (set_env e2 d, Ok ()) ∧
    Forall (λ c, in_sync depth e2 c i Q T' (fan * N)) (n_children n) ∧ same_graph (env_nodes e1) (env_nodes e2) ∧
    (∀ j, j ∉ n_children n ≫= subtree depth (env_nodes (d_env d)) → agree_at e1 e2 j) ∧ env_sent e2 = env_sent e1)
    as (e2 & Hd2 & Hs2 & Hg2 & Ha2 & Hsent2).
  { cbn [DomainFlow.dispatch]. unfold mbind at 1, eff_bind at 1, get at 1.
    rewrite (bind_ok _ _ d d true).
    2:{ apply dispatch_gate_forward; [done|..]; rewrite Hdst; [|apply Hready, elem_of_here].
        apply bool_decide_eq_true_2. by exists n. }
    cbn [negb packet_src packet_dst]. unfold mbind at 1 2, eff_bind at 1 2, lift at 1 2.
    rewrite Hdst. rewrite (bind_ok _ _ _ _ _ (on_env_run _ d _ _ Hproc)). cbv beta iota.
    rewrite Hcap. unfold mbind at 1, eff_bind at 1, lift at 1. cbv beta iota.
    rewrite (bind_ok _ _ (set_env e1 d) (set_env e1 d) n1) by (apply (on_env_run _ (set_env e1 d)); by apply get_node_ok).
    rewrite Hmiss, (bind_ok _ _ _ _ _ (evict_missed_none _ _ _ _ _)).
    destruct out as [|rc out].
    - exists e1. split_and!; try done. rewrite Forall_forall in Hc |- *. intros c Hin.
      eapply in_sync_perm; [exact (batch_ok_nil _ _ Hbo)|]. eapply in_sync_agree; [|apply Hch|by apply Hc].
      intros j Hj. eapply changed_agree; [done|]. intros ->. apply Hi, list_elem_of_bind. by exists c.
    - exists e'. rewrite Hcs. split_and!; [exact Hd'|done..]. }
  exists e2. split_and!; [done|..].
  - exists n1, T'. destruct (Ha2 i Hi) as (Hni & Hsi & Hri). split_and!; [by rewrite Hni| |done|by rewrite Hcs].
    eapply local_sync_agree; [done| |exact Hl1]. apply agree_indexes, Ha2.
    intros Hj. apply Hfrom, elem_of_further, Hj.
  - intros j. by rewrite Hg2, Hg1.
  - intros j Hj. rewrite not_elem_of_cons in Hj. destruct Hj as [Hj1 Hj2].
    destruct (changed_agree _ _ _ _ j Hch Hj1) as (? & ? & ?). destruct (Ha2 j Hj2) as (? & ? & ?). split_and!; congruence.
  - destruct Hch as (_ & _ & _ & Hsent & _). congruence.
Qed.
End compose.
