(* ===== verification/NodeLaws.v ===== *)
(** * NodeLaws: the parts of nodes keep what they promise

    The interfaces that nodes are proved against in [DomainFlowProps], discharged: the
    write handle of a partial reader ([handle_laws]), the operators that keep nothing
    ([linear_maintains]) and the grouped operators ([grouped_node_maintains]). *)
From stdpp Require Import gmap.
From S2P Require Import Prelude Intervals BTreeMap IntervalTree PartialMap Result Records OpLinear Keys Processing Batches.
From S2P Require Import OpUnion OpUnionReplay OpGrouped OpGroupedProps OpAggregate OpTopK OpJoin OpPaginate OpLatest.
From S2P Require Import Crates KeyedState SingleState Replication MemoryState Base Timestamp Effects Payload.
From S2P Require Import InsertionOrder Eviction ReaderMap ReaderMapProps ReaderMapContents Backlog Reader ReaderProps.
From S2P Require Import PacketFilter Sharder Egress Hashing ReplayPaths Domain NodeProcess Operators NodeProcessProps.
From S2P Require Import DomainFlow DomainFlowProps.

(** ** Readers *)
Section reader.
Context `{DfVal V} `{Ord K} `{!ReaderKey V K} `{!ReaderKeyLaws V K} {HM W : Type} `{!HashMap K (list (list V)) HM}.
#[local] Abbreviation RInner := (Inner K (list V) HM Z Timestamp PreInsertion).
#[local] Abbreviation ROp := (Operation K (list V) Z Timestamp).
Context `{!LeftRight RInner ROp W}.
Context (row_size : list V → Z) (key_size : list V → Z) (base_value_size : Z).
(** Which keys [evict_bytes] evicts is up to the strategy, see [reader_evict_bytes]. *)
Context (evict : WriteHandle W → nat → result (WriteHandle W)).
Implicit Types (w : WriteHandle W).

Definition handle_state : ReaderState V (WriteHandle W) :=
  {| rs_process := reader_process (K:=K) (HM:=HM) row_size;
     rs_contains := λ w key, res ← wh_contains (K:=K) (HM:=HM) w key; Ok match res with inl b => b | inr _ => false end;
     rs_interval_difference := interval_difference (K:=K) (HM:=HM);
     rs_mark_filled := mark_filled (K:=K) (HM:=HM) key_size base_value_size;
     rs_mark_hole := mark_hole (K:=K) (HM:=HM) row_size key_size base_value_size;
     rs_swap := swap (K:=K) (HM:=HM);
     rs_notify_readers := notify_readers;
     rs_notify_readers_of_eviction := notify_readers_of_eviction;
     rs_set_timestamp := λ w t, Ok (wh_set_timestamp (V:=V) (K:=K) (HM:=HM) w t);
     rs_evict_bytes := evict |}.
#[local] Existing Instance handle_state.

#[local] Abbreviation pending := (lr_pending (T:=RInner) (Op:=ROp)).
#[local] Abbreviation visible_order := (visible_order (K:=K) (A:=list V) (HM:=HM) (M:=Z) (T:=Timestamp) (I:=PreInsertion)).

(** A published partial reader that caches the rows of its node. *)
Definition handle_holds w (R : list (list V)) : Prop :=
  ∃ pre, reader_ok (K:=K) (HM:=HM) (columns (wh_index w)) pre w ∧ pending (wh_handle w) = [] ∧
    cached (K:=K) (HM:=HM) (columns (wh_index w)) w R.
Definition handle_fits w (r : list V) : Prop :=
  ∀ pre, visible_order (wh_handle w) = Some pre → row_ok (columns (wh_index w)) pre r.

#[export] Program Instance handle_laws : @ReaderLaws V (WriteHandle W) _ handle_state :=
  {| rs_holds := handle_holds; rs_fits := handle_fits |}.
Next Obligation.
  intros w R R' HR (pre & Hok & Hp & Hc). exists pre. split_and!; [done..|]. intros kk rows Hv. by rewrite (Hc kk rows Hv), HR.
Qed.
Next Obligation.
  intros w rs R R' link tr (pre & Hok & Hp & Hc) Hrs HR' Hb.
  destruct (reader_update_ok row_size (columns (wh_index w)) pre w R R' link rs tr) as (w' & Heq & Hok' & Hs & Hp' & Hc' & _); [done..| |].
  { eapply Forall_impl; [exact Hrs|]. simpl. intros rc Hf. apply Hf, Hok. }
  destruct Hs as (_ & Hix & _). exists w'. split; [done|]. unfold handle_holds, handle_fits. rewrite Hix. split; [by exists pre|].
  intros r Hf pre' Hpre'. rewrite (ok_order _ _ _ Hok') in Hpre'. injection Hpre' as <-. apply Hf, Hok.
Qed.

End reader.

(** ** Operators *)
Section operators.
Context `{DfArith V} {S Ty : Type} `{!NodeState V S} `{!NodeStateLaws V S}.
Context (group_hash row_hash : list V → Z) (page : nat → V) (global : nat → nat).
#[local] Instance op_ingredient : Ingredient V S (NodeOperator V) := node_operator_ingredient group_hash row_hash page global.
#[local] Abbreviation maintains := (maintains (V:=V) (Ty:=Ty) (S:=S) (Op:=NodeOperator V)).
Implicit Types (op : NodeOperator V) (R T : list (list V)) (P Q : list V → Prop) (g : list V → list (list V)).

(** An operator that keeps nothing maps every row on its own. *)
Lemma linear_maintains op self from P Q g fan :
  (∀ rs states lookups, Forall (λ rc, P (rec rc)) rs →
     op_on_input_raw group_hash row_hash page op from rs RcNone states lookups = Ok (regular (Records.lift g rs), op)) →
  (∀ r, P r → Forall Q (g r) ∧ length (g r) ≤ fan) →
  maintains self from P Q [] [] fan (λ op' R T, op' = op ∧ T ≡ₚ R ≫= g).
Proof.
  intros Hin Hg. split.
  { intros op' R R' T T' HR HT [-> HI]. by rewrite <-HT, HI, HR. }
  intros op' R R' rs T states fuel nodes [-> HT] Hb HP HP' Hrs HQ _ _ _ _ _.
  assert (∀ l, Forall P l → Forall Q (l ≫= g) ∧ length (l ≫= g) ≤ fan * length l) as Hl.
  { induction 1 as [|r l Hr Hl [IH1 IH2]]; [split; [constructor|simpl; lia]|]. destruct (Hg r Hr). rewrite bind_cons. split.
    - by apply Forall_app.
    - rewrite length_app. cbn [length]. lia. }
  assert (Forall (λ rc, Q (rec rc)) (Records.lift g rs) ∧ length (Records.lift g rs) ≤ fan * length rs) as [Hout Hlen].
  { clear -Hrs Hg. unfold Records.lift. induction Hrs as [|rc rs Hr Hrs [IH1 IH2]]; [split; [constructor|simpl; lia]|].
    destruct (Hg _ Hr) as [HQ Hn]. rewrite bind_cons. split.
    - apply Forall_app. split; [|done]. apply Forall_fmap. eapply Forall_impl; [exact HQ|]. intros r. by destruct rc.
    - rewrite length_app, length_fmap. cbn [length]. lia. }
  eexists _, op, (R' ≫= g). split; [by apply Hin|]. split_and!; try done.
  - exact (batch_ok_lift g R rs R' T HT Hb).
  - by apply Hl.
  - cbn [pr_results]. rewrite (Permutation_length HT). destruct (Hl R HP). lia.
Qed.

Lemma identity_maintains src self from P :
  maintains self from P P [] [] 1 (λ op' R T, op' = NoIdentity src ∧ T ≡ₚ R ≫= λ r, [r]).
Proof.
  apply linear_maintains; [|intros r Hr; split; [by constructor|done]].
  intros rs states lookups _. cbn. do 3 f_equal. unfold regular. do 2 f_equal. unfold Records.lift.
  induction rs as [|rc rs IH]; [done|]. rewrite bind_cons, <-IH. by destruct rc.
Qed.
Lemma filter_node_maintains src (f : Filter V) self from P :
  (∀ r, P r → is_ok (filter_expression f r) = true) →
  maintains self from P P [] [] 1 (λ op' R T, op' = NoFilter src f ∧ T ≡ₚ R ≫= filter_sem f).
Proof.
  intros Hok. apply linear_maintains.
  - intros rs states lookups Hrs. cbn. rewrite filter_on_input_ok; [done|]. eapply Forall_impl; [exact Hrs|]. intros rc. apply Hok.
  - intros r Hr. unfold filter_sem. destruct (filter_expression f r) as [v| |]; [|split; [constructor|simpl; lia]..].
    destruct (filter_is_truthy f v); (split; [repeat constructor; done|simpl; lia]).
Qed.
Lemma project_node_maintains src (p : Project V) self from P Q :
  (∀ r, P r → project_fits p r) → (∀ r, P r → Forall Q (project_sem p r)) →
  maintains self from P Q [] [] 1 (λ op' R T, op' = NoProject src p ∧ T ≡ₚ R ≫= project_sem p).
Proof.
  intros Hfit HQ. apply linear_maintains.
  - intros rs states lookups Hrs. cbn. rewrite project_on_input_ok; [done|]. eapply Forall_impl; [exact Hrs|]. intros rc. apply Hfit.
  - intros r Hr. split; [by apply HQ|]. unfold project_sem. destruct (project_row p r); simpl; lia.
Qed.

(** *** Grouped operators *)
(** The operator at node [self], with what its operation keeps. *)
Section grouped_node.
Context {St D : Type} (g : GroupedOp V St D) `{!GroupedLaws g} (mk : St → NodeOperator V) (src self : nat).
Context (Hmk : ∀ st rs states lookups, op_on_input_raw group_hash row_hash page (mk st) src rs RcNone states lookups =
  ('(r, st') ← grouped_input g src self st rs RcNone states lookups; Ok (RawRegular r, mk st'))).
Context (Hmerger : ∀ st, op_is_shard_merger (mk st) = false) (Hgroup : go_group_by g ≠ []) (Hempty : go_emit_empty g = false).
#[local] Abbreviation n := (length (go_group_by g)).

Definition out_row_ok (r : list V) : Prop := length r = n + 2.
Definition grouped_view op R T : Prop :=
  ∃ st C, op = mk st ∧ grouped_ok g R C T ∧ gl_inv st (rows_of g R) C.

(** There are at most as many rows as in the parent: one for each of its groups. *)
Lemma grouped_ok_length R C T : Forall out_row_ok T → grouped_ok g R C T → length T ≤ length R.
Proof using Hempty.
  intros HT Hok. rewrite <-(length_fmap (take n) T), <-(length_fmap (cols_at (go_group_by g)) R).
  apply submseteq_length, NoDup_submseteq.
  - assert (∀ x, length (filter (λ r, take n r = x) T) ≤ 1) as Hone.
    { intros x. destruct (Hok x) as [_ Ho]. unfold own_rows in Ho. rewrite Ho. unfold out_row. destruct (C x); simpl; lia. }
    clear -Hone. induction T as [|r T IH]; csimpl; [constructor|]. constructor.
    + intros Hin. apply list_elem_of_fmap in Hin as (r' & Heq & Hin). specialize (Hone (take n r)).
      rewrite filter_cons_True in Hone by done. simpl in Hone.
      assert (r' ∈ filter (λ r0, take n r0 = take n r) T) as Hf by (by apply list_elem_of_filter).
      destruct (filter _ T); [by apply elem_of_nil in Hf|simpl in Hone; lia].
    + apply IH. intros x. specialize (Hone x). rewrite filter_cons in Hone. case_decide; simpl in Hone; lia.
  - intros x Hx. apply list_elem_of_fmap in Hx as (r & -> & Hr). destruct (Hok (take n r)) as [Hv Ho].
    assert (r ∈ own_rows g T (take n r)) as Hin by (by apply list_elem_of_filter).
    rewrite Ho in Hin. unfold out_row, value_ok in *. destruct (C (take n r)) as [v|]; [|by apply elem_of_nil in Hin].
    destruct Hv as [_ Hne]. destruct (rows_of g R (take n r)) as [|r' rows] eqn:Er.
    { rewrite Hempty in Hne. by specialize (Hne eq_refl). }
    assert (r' ∈ rows_of g R (take n r)) as Hr' by (rewrite Er; apply elem_of_here).
    unfold rows_of in Hr'. apply list_elem_of_filter in Hr' as [<- Hr']. by apply list_elem_of_fmap_2.
Qed.

Lemma grouped_ok_perm R R' C T T' : R ≡ₚ R' → T ≡ₚ T' → grouped_ok g R C T → grouped_ok g R' C T'.
Proof.
  intros HR HT Hok k. destruct (Hok k) as [Hv Ho].
  assert (rows_of g R k ≡ₚ rows_of g R' k) as Hp by (unfold rows_of; by rewrite HR).
  split.
  - unfold value_ok in *. destruct (C k) as [v|].
    + destruct Hv as [Ha He]. split; [by eapply gl_agg_perm|]. intros Hnil. apply He. rewrite Hnil in Hp. by apply Permutation_nil_r.
    + rewrite Hv in Hp. symmetry. by apply Permutation_nil_l.
  - apply perm_short.
    + unfold own_rows in *. rewrite <-HT, Ho. unfold out_row. by rewrite (Permutation_length Hp).
    + unfold out_row. destruct (C k); simpl; lia.
Qed.

Lemma grouped_own_lookup (s : S) R C T k :
  grouped_ok g R C T → Forall out_row_ok T → st_holds s T → Forall (st_fits s) T → st_indexed s (out_key g) →
  length k = n → own_rows_at s (out_key g) k = Ok (Some (own_rows g T k)).
Proof using Hgroup.
  intros Hok HT Hs Hf Hix Hk. unfold own_rows_at, point_key_from. destruct k as [|v k]; [destruct (go_group_by g); [done|discriminate Hk]|].
  set (key := v :: k) in *. cbn [mbind result_bind].
  destruct (st_lookup_rows s T (out_key g) {| pk_variant := variant_of_len (length key); pk_elems := key |}) as (rows & -> & Hp);
    [done..|by unfold out_key; rewrite length_seq|].
  cbn [mbind result_bind pk_elems] in *. do 2 f_equal. destruct (Hok key) as [_ Ho]. apply perm_short; [|rewrite Ho; unfold out_row; destruct (C key); simpl; lia].
  rewrite Hp. unfold own_rows. erewrite filter_ext_elem; [reflexivity|]. intros r Hr. cbv beta. rewrite Forall_forall in HT. specialize (HT r Hr).
  unfold out_key, grouped_group_by. rewrite cols_at_seq by (unfold out_row_ok in HT; lia). by rewrite drop_0.
Qed.

Lemma grouped_parent_lookup fuel (nodes : gmap nat (Node V (NodeOperator V) Ty)) states (s : S) R k :
  states !! src = Some s → st_holds s R → Forall (st_fits s) R → st_indexed s (go_group_by g) → length k = n →
  ∃ rows, parent_rows (ingredient_lookup fuel nodes states) src (grouped_group_by g) LmStrict k = Ok (Some rows) ∧
    same_rows rows (rows_of g R k).
Proof using Hgroup.
  intros Hsrc Hs Hf Hix Hk. unfold parent_rows, point_key_from. destruct k as [|v k]; [destruct (go_group_by g); [done|discriminate Hk]|].
  set (key := v :: k) in *. cbn [mbind result_bind].
  destruct (st_lookup_rows s R (go_group_by g) {| pk_variant := variant_of_len (length key); pk_elems := key |}) as (rows & Heq & Hp);
    [done..|].
  exists rows. assert (ingredient_lookup fuel nodes states src (grouped_group_by g) {| pk_variant := variant_of_len (length key); pk_elems := key |} LmStrict
    = Ok (Some (Ok <$> rows))) as ->.
  { destruct fuel; cbn [ingredient_lookup]; rewrite Hsrc; unfold grouped_group_by; by rewrite Heq. }
  cbn [mbind result_bind]. split; [|by apply same_rows_perm].
  assert (result_mapM id (Ok <$> rows) = Ok rows) as ->; [|done]. clear. induction rows as [|r rows IH]; csimpl; [done|]. by rewrite IH.
Qed.

Lemma grouped_node_maintains :
  maintains self src (gl_row_ok (op:=g)) out_row_ok [out_key g] [go_group_by g] 2 grouped_view.
Proof using Hmk Hmerger Hgroup Hempty.
  split.
  { intros op R R' T T' HR HT (st & C & -> & Hok & Hinv). exists st, C. split; [done|]. split; [by eapply grouped_ok_perm|].
    eapply gl_inv_ext; [|exact Hinv]. intros k. unfold rows_of. by rewrite HR. }
  intros op R R' rs T states fuel nodes (st & C & -> & Hok & Hinv) Hb HP HP' Hrs HQ Hpar Hixp Hown Hixo Hsz.
  destruct Hixp as (sp & Hsp & [Hixp _]%Forall_cons). destruct Hixo as (so & Hso & [Hixo _]%Forall_cons).
  destruct (Hpar _ Hsp) as [Hhp Hfp]. destruct (Hown _ Hso) as [Hho Hfo].
  destruct (grouped_on_input_ok g src self (own_rows_at so (out_key g))
    (parent_rows (ingredient_lookup fuel nodes states) src (grouped_group_by g) LmStrict) R rs R' T C st)
    as (out & st' & C' & Hout & Hm & Hinv' & Hneg & HT & Hlen & Hshape); try done.
  { intros k Hk. eapply grouped_own_lookup; try done. by eapply Forall_impl. }
  { intros k Hk. eapply grouped_parent_lookup; try done. by eapply Forall_impl. }
  destruct (batch_ok_exists T (pr_results out) Hneg) as [T' Hbo].
  pose proof (grouped_ok_length R C T HQ Hok).
  exists out, (mk st'), T'. split_and!; try done.
  - cbn [on_input_raw op_ingredient node_operator_ingredient]. rewrite Hmk. unfold grouped_input. destruct rs as [|rc rs].
    { cbn in Hout. injection Hout as <- <-. done. }
    rewrite (sorted_groups_ok g) by done. cbn [mbind result_bind]. unfold own_state. rewrite Hso. cbn [mbind result_bind]. by rewrite Hout.
  - exists st', C'. split; [done|]. split; [|done]. apply HT, Hbo.
  - by eapply batch_ok_forall.
  - cbn. by rewrite !Hmerger.
  - lia.
Qed.
End grouped_node.
End operators.
