(* ===== verification/FlowTheorems.v ===== *)
(** * FlowTheorems: a domain keeps its views

    The theorem about [dispatch] that composes the parts of a domain
    ([dispatch_maintains]); that a full replay delivers the messages buffered for its
    node, and those that arrive meanwhile, and ends ([full_replay_completes]); and a
    domain to which both apply: an ingress node with state, a COUNT below it and a
    reader of the counts, each as the system builds them. *)
From stdpp Require Import gmap strings.
From S2P Require Import Prelude Intervals BTreeMap IntervalTree PartialMap Result Records OpLinear Keys Processing Batches.
From S2P Require Import OpUnion OpUnionReplay OpGrouped OpGroupedProps OpAggregate OpAggregateProps OpTopK OpJoin OpPaginate OpLatest.
From S2P Require Import Crates KeyedState SingleState SingleStateProps Replication MemoryState MemoryStateProps Base Timestamp Effects Payload.
From S2P Require Import InsertionOrder Eviction ReaderMap ReaderMapProps ReaderMapContents Backlog Reader ReaderProps ReaderTheorems.
From S2P Require Import PacketFilter Sharder Egress Hashing ReplayPaths Domain NodeProcess Operators NodeProcessProps.
From S2P Require Import DomainFlow DomainFlowProps NodeLaws.

Section flow.
Context `{DfNum V} {K : Type} `{Countable K} (kind_of : V → K) {Ty : Type} (coerce : Ty → V → result V).
Context (shard_hash : V → option N) {S W Op : Type}.
Context `{!NodeState V S} `{!ReaderState V W} `{!Ingredient V S Op} `{!NodeStateLaws V S} `{!ReaderLaws V W}.
Context (views : nat → View (V:=V) (Op:=Op)).
Implicit Types (d : Dom V S W Op Ty) (R : list (list V)) (P : list V → Prop).
#[local] Abbreviation in_sync := (in_sync views).

(** C1: In a domain whose nodes below [link] are in sync with the rows [R] of the sender,
    a batch that takes [R] to [R'] leaves every one of them in sync with [R']: each
    state holds the rows that its operator's view makes of the rows of the node
    above, and each reader the rows it has to serve.  [dispatch] succeeds, and changes
    nothing of the domain but the nodes below.  This for a domain that forwards
    updates, ready nodes below that form a tree of ingress nodes, operators with one
    parent and readers, states that are not partial, and operators that maintain
    their views without missing in a lookup ([maintains], which [NodeLaws] proves). *)
Theorem dispatch_maintains depth d link rs tr P R R' N :
  d_mode d = Forwarding →
  (∀ j, j ∈ subtree depth (env_nodes (d_env d)) (link_dst link) → j ∉ d_not_ready d) →
  NoDup (link_src link :: subtree depth (env_nodes (d_env d)) (link_dst link)) →
  in_sync depth (d_env d) (link_dst link) (link_src link) P R N → batch_ok R rs R' →
  Forall P R → Forall (λ rc, P (rec rc)) rs → length R + length rs ≤ N →
  state_holds (env_state (d_env d) !! link_src link) P R' →
  ∃ e', dispatch kind_of coerce shard_hash depth (PMessage link rs tr) d = (set_env e' d, Ok ()) ∧
    in_sync depth e' (link_dst link) (link_src link) P R' N ∧ env_sent e' = env_sent (d_env d) ∧
    ∀ j, j ∉ subtree depth (env_nodes (d_env d)) (link_dst link) → agree_at (d_env d) e' j.
Proof.
  intros Hmode Hready Hnd Hsync Hb HP Hrs HN Hst.
  destruct (dispatch_sync kind_of coerce shard_hash views depth d (link_dst link) (link_src link) P R R' N (d_env d) link rs tr)
    as (e' & Hd & Hs & _ & Ha & Hsent); try done; [by eapply batch_ok_forall|].
  by exists e'.
Qed.

(** ** Full replays *)
(** What happens while the node at [link] is replayed to: before every pass over the
    backlog some messages [arrivals] arrive; the pass is the packet that the domain
    has sent to itself, if it has. *)
Section full_replay.
Context (depth tag : nat) (link : Link) (P : list V → Prop) (N : nat) (path : ReplayPath).
#[local] Abbreviation Dom := (Dom V S W Op Ty).
#[local] Abbreviation node := (link_dst link).
#[local] Abbreviation src := (link_src link).
#[local] Abbreviation dispatch := (dispatch kind_of coerce shard_hash depth).
Implicit Types (ms : list (Packet V)).

Definition finish_round (arrivals : list (Packet V)) : eff Dom () :=
  _ ← eff_iter dispatch arrivals;
  d ← get;
  match d_delayed_for_self d with
  | PFinish tag node :: rest => _ ← modify (set_delayed_for_self rest); finish_replay dispatch tag node
  | _ => mret ()
  end.
Fixpoint replay_rounds (n : nat) (arrivals : list (list (Packet V))) : eff Dom () :=
  match n with
  | O => mret ()
  | Datatypes.S n => _ ← finish_round (default [] (head arrivals)); replay_rounds n (tail arrivals)
  end.

(** Messages to the node, one after the other, that take the rows of the sender from
    [R] to [R']. *)
Inductive follows : list (list V) → list (Packet V) → list (list V) → Prop :=
  | follows_nil R : follows R [] R
  | follows_cons R R1 R' rs tr ms :
      batch_ok R rs R1 → Forall (λ rc, P (rec rc)) rs → length R + length rs ≤ N →
      follows R1 ms R' → follows R (PMessage link rs tr :: ms) R'.

Lemma follows_app R ms1 ms2 R' : follows R (ms1 ++ ms2) R' → ∃ R1, follows R ms1 R1 ∧ follows R1 ms2 R'.
Proof.
  revert R. induction ms1 as [|m ms1 IH]; intros R Hf; [exists R; split; [constructor|done]|].
  simpl in Hf. inversion Hf as [|? R1 ? rs tr ? Hb HP HN Hf']; subst. destruct (IH R1 Hf') as (R2 & H1 & H2).
  exists R2. split; [by econstructor|done].
Qed.

(** The nodes below [link] are ready and in sync with [R]; the sender keeps no state in
    this domain, and the replay is one whose end is reported. *)
Definition synced d R : Prop :=
  (∀ j, j ∈ subtree depth (env_nodes (d_env d)) node → j ∉ d_not_ready d) ∧
  NoDup (src :: subtree depth (env_nodes (d_env d)) node) ∧
  in_sync depth (d_env d) node src P R N ∧ Forall P R ∧ env_state (d_env d) !! src = None ∧
  rp_get (d_replay_paths d) tag = Some path ∧ rp_notify_done path = true.

(** A message is processed when the domain forwards, buffered when it replays. *)
Lemma message_forwarded d R R1 rs tr :
  d_mode d = Forwarding → synced d R → batch_ok R rs R1 → Forall (λ rc, P (rec rc)) rs → length R + length rs ≤ N →
  ∃ e', dispatch (PMessage link rs tr) d = (set_env e' d, Ok ()) ∧ synced (set_env e' d) R1.
Proof.
  intros Hmode (Hready & Hnd & Hsync & HP & Hst & Hpath & Hdone) Hb Hrs HN.
  assert (Forall P R1) as HP1 by (by eapply batch_ok_forall).
  destruct (dispatch_sync kind_of coerce shard_hash views depth d node src P R R1 N (d_env d) link rs tr)
    as (e' & Hd & Hs & Hg & Ha & _); try done; [by intros s; rewrite Hst|].
  exists e'. split; [done|]. unfold synced. cbn [set_env d_env d_not_ready d_replay_paths].
  rewrite (subtree_graph _ _ _ _ Hg). split_and!; try done.
  destruct (Ha src) as (_ & -> & _); [|done]. by apply NoDup_cons in Hnd as [? _].
Qed.

Lemma message_buffered d R rs tr buffered passes :
  d_mode d = Replaying node buffered passes → synced d R →
  dispatch (PMessage link rs tr) d = (set_mode (Replaying node (buffered ++ [PMessage link rs tr]) passes) d, Ok ()).
Proof.
  intros Hmode (_ & _ & Hsync & _). destruct depth as [|depth']; [done|]. destruct Hsync as (n & T & Hn & _).
  cbn [DomainFlow.dispatch]. unfold dispatch_gate, mbind, eff_bind, get, lift, modify. cbn [packet_src packet_dst].
  rewrite bool_decide_true by (by exists n). cbn [negb]. rewrite Hmode, Nat.eqb_refl. done.
Qed.

Lemma messages_buffered ms d R R1 R2 buffered passes :
  d_mode d = Replaying node buffered passes → synced d R → follows R1 ms R2 →
  eff_iter dispatch ms d = (set_mode (Replaying node (buffered ++ ms) passes) d, Ok ()).
Proof.
  intros Hmode Hs Hms. revert d buffered Hmode Hs. induction Hms as [|? ? ? rs tr ms _ _ _ _ IH]; intros d buffered Hmode Hs.
  - rewrite app_nil_r, <-Hmode. by destruct d.
  - rewrite (eff_iter_cons _ _ _ _ _ (message_buffered d R rs tr buffered passes Hmode Hs)).
    rewrite (IH (set_mode _ d) (buffered ++ [PMessage link rs tr])) by done. by rewrite <-app_assoc.
Qed.

(** A part of the backlog is processed. *)
Lemma drain_synced handle handled j ms d R R1 :
  follows R (take j ms) R1 → handle = handled + j → 0 < j ≤ length ms → synced d R →
  ∃ e', drain_backlog dispatch handle handled ms d = (set_env e' (set_mode Forwarding d), Ok (drop j ms)) ∧
    synced (set_env e' d) R1.
Proof.
  revert handled j d R. induction ms as [|m ms IH]; intros handled j d R Hf Hh Hj Hs; [simpl in Hj; lia|].
  destruct j as [|j]; [lia|]. simpl in Hf, Hj. inversion Hf as [|? R0 ? rs tr ? Hb HP HN Hf']; subst.
  destruct (message_forwarded (set_mode Forwarding d) R R0 rs tr) as (e1 & Hd1 & Hs1); [done..|].
  assert (drain_backlog dispatch (handled + Datatypes.S j) handled (PMessage link rs tr :: ms) d =
    (if Datatypes.S handled =? handled + Datatypes.S j then mret ms
     else drain_backlog dispatch (handled + Datatypes.S j) (Datatypes.S handled) ms) (set_env e1 (set_mode Forwarding d))) as ->.
  { cbn [drain_backlog]. unfold mbind, eff_bind, modify. by rewrite Hd1. }
  destruct (Nat.eqb_spec (Datatypes.S handled) (handled + Datatypes.S j)) as [He|He].
  - assert (j = 0) as -> by lia. exists e1. rewrite take_0 in Hf'. inversion Hf'; subst. done.
  - destruct (IH (Datatypes.S handled) j (set_env e1 (set_mode Forwarding d)) R0) as (e' & Hd' & Hs'); [done|lia|lia|done|].
    exists e'. split; [exact Hd'|exact Hs'].
Qed.

(** Where a full replay stands: the nodes are in sync with some rows, and the backlog,
    followed by the messages that are still to arrive, takes these to [R'].  As long
    as it is not finished, another pass is queued. *)
Definition replay_stands d (backlog todo : list (Packet V)) (R' : list (list V)) : Prop :=
  ∃ R, synced d R ∧ follows R (backlog ++ todo) R' ∧
    ((∃ passes, d_mode d = Replaying node backlog passes ∧ d_delayed_for_self d = [PFinish tag node]) ∨
     backlog = [] ∧ d_mode d = Forwarding ∧ d_replay_completed d = true ∧ d_delayed_for_self d = []).

Lemma backlog_share_bounds n : 0 < n → 0 < backlog_share n ≤ n.
Proof.
  intros Hn. unfold backlog_share. destruct (Nat.ltb_spec 100 n); [|lia].
  pose proof (Nat.Div0.div_le_upper_bound n 2 n). pose proof (Nat.div_le_lower_bound n 2 1). lia.
Qed.

(** One pass over the backlog. *)
Lemma pass_stands d ms passes R todo R' :
  synced d R → follows R (ms ++ todo) R' → d_mode d = Replaying node ms passes → d_delayed_for_self d = [] →
  ∃ d', finish_replay dispatch tag node d = (d', Ok ()) ∧ replay_stands d' (drop (backlog_share (length ms)) ms) todo R' ∧
    (d_mode d' = Forwarding ∨ drop (backlog_share (length ms)) ms ≠ []).
Proof.
  intros Hs Hf Hmode Hdel. set (j := backlog_share (length ms)).
  rewrite <-(take_drop j ms), <-app_assoc in Hf. apply follows_app in Hf as (R1 & Hf1 & Hf2).
  assert (∃ e', drain_backlog dispatch j 0 ms (set_mode Forwarding d) = (set_env e' (set_mode Forwarding d), Ok (drop j ms)) ∧
    synced (set_env e' d) R1) as (e' & Hdrain & Hs1).
  { destruct ms as [|m ms].
    - exists (d_env d). rewrite take_nil in Hf1. inversion Hf1; subst. split; [by destruct d|]. by rewrite set_env_same.
    - apply (drain_synced j 0 j (m :: ms) (set_mode Forwarding d) R R1); [done|done|apply backlog_share_bounds; simpl; lia|done]. }
  assert (finish_replay dispatch tag node d =
    match drop j ms with
    | [] => (set_replay_completed true (set_mode Forwarding (set_env e' d)), Ok ())
    | rest => (push_delayed (PFinish tag node) (set_mode (Replaying node rest (passes + 1)) (set_env e' d)), Ok ())
    end) as ->.
  { destruct Hs as (_ & _ & _ & _ & _ & Hpath & Hdone). unfold finish_replay, mbind, eff_bind, get, modify, lift.
    rewrite Hmode, Nat.eqb_refl. cbn [negb]. fold j. rewrite Hdrain. destruct (drop j ms); [|done].
    cbn [set_env set_mode d_replay_paths]. rewrite Hpath. cbn [expect]. by rewrite Hdone. }
  destruct (drop j ms) as [|m rest]; (eexists; split; [reflexivity|]; split; [exists R1|]).
  - split; [exact Hs1|]. split; [done|]. by right.
  - by left.
  - split; [exact Hs1|]. split; [done|]. left. eexists. split; [done|].
    cbn [push_delayed set_delayed_for_self d_delayed_for_self set_mode set_env]. by rewrite Hdel.
  - by right.
Qed.

Lemma messages_forwarded ms d R R1 :
  follows R ms R1 → synced d R → d_mode d = Forwarding →
  ∃ e', eff_iter dispatch ms d = (set_env e' d, Ok ()) ∧ synced (set_env e' d) R1.
Proof.
  intros Hf. revert d. induction Hf as [R|R R1 R' rs tr ms Hb HP HN Hf IH]; intros d Hs Hmode.
  - exists (d_env d). cbn. rewrite set_env_same. done.
  - destruct (message_forwarded d R R1 rs tr) as (e1 & Hd1 & Hs1); [done..|].
    rewrite (eff_iter_cons _ _ _ _ _ Hd1). destruct (IH (set_env e1 d) Hs1 Hmode) as (e' & Hd' & Hs').
    exists e'. split; [exact Hd'|exact Hs'].
Qed.

(** One round: it never makes the backlog longer than by what arrived, and a pass over
    a backlog makes it shorter or ends the replay. *)
Lemma round_stands d backlog arrivals todo R' :
  replay_stands d backlog (arrivals ++ todo) R' →
  ∃ d' backlog', finish_round arrivals d = (d', Ok ()) ∧ replay_stands d' backlog' todo R' ∧
    (d_mode d' = Forwarding ∨ d_mode d ≠ Forwarding ∧ length backlog' < length (backlog ++ arrivals)).
Proof.
  intros (R & Hs & Hf & Hmode). unfold finish_round. rewrite app_assoc in Hf.
  destruct Hmode as [(passes & Hmode & Hdel)|(-> & Hmode & Hcomp & Hdel)].
  - pose proof Hf as (Ra & (Rb & _ & Harr)%follows_app & _)%follows_app.
    rewrite (bind_ok _ _ _ _ _ (messages_buffered arrivals d R Rb Ra backlog passes Hmode Hs Harr)).
    set (d1 := set_mode (Replaying node (backlog ++ arrivals) passes) d).
    rewrite (bind_ok _ _ d1 d1 d1) by done.
    change (d_delayed_for_self d1) with (d_delayed_for_self d). rewrite Hdel.
    destruct (pass_stands (set_delayed_for_self [] d1) (backlog ++ arrivals) passes R todo R') as (d' & Hfin & Hst & Hdec); [done..|].
    exists d'. eexists. split; [exact Hfin|]. split; [exact Hst|]. destruct Hdec as [|Hne]; [by left|]. right.
    split; [by rewrite Hmode|]. rewrite length_drop. pose proof (backlog_share_bounds (length (backlog ++ arrivals))) as Hsh.
    destruct (backlog ++ arrivals) as [|m ms]; [by rewrite drop_nil in Hne|]. simpl in *. lia.
  - apply follows_app in Hf as (R1 & Hf1 & Hf2).
    destruct (messages_forwarded arrivals d R R1 Hf1 Hs Hmode) as (e' & Hd' & Hs').
    rewrite (bind_ok _ _ _ _ _ Hd'), (bind_ok _ _ (set_env e' d) (set_env e' d) (set_env e' d)) by done.
    change (d_delayed_for_self (set_env e' d)) with (d_delayed_for_self d). rewrite Hdel.
    exists (set_env e' d), []. split; [done|]. split; [|by left]. exists R1. split; [done|]. split; [done|]. right. by split_and!.
Qed.

Lemma rounds_stand n arrivals d backlog R' :
  replay_stands d backlog (concat arrivals) R' →
  length arrivals + length backlog + length (concat arrivals) < n ∨ d_mode d = Forwarding ∧ length arrivals ≤ n →
  ∃ d', replay_rounds n arrivals d = (d', Ok ()) ∧ replay_stands d' [] [] R' ∧ d_mode d' = Forwarding.
Proof.
  revert arrivals d backlog. induction n as [|n IH]; intros arrivals d backlog Hst Hn.
  { destruct Hn as [|[Hmode Hn]]; [lia|]. destruct arrivals; [|simpl in Hn; lia]. exists d. split; [done|].
    split; [|done]. destruct Hst as (R & Hs & Hf & [(? & Hm & _)|(-> & Hrest)]); [congruence|].
    exists R. split; [done|]. split; [done|]. by right. }
  cbn [replay_rounds].
  assert (concat arrivals = default [] (head arrivals) ++ concat (tail arrivals)) as Hcat by (by destruct arrivals).
  rewrite Hcat in Hst. destruct (round_stands d backlog _ _ R' Hst) as (d1 & backlog1 & Hr & Hst1 & Hdec).
  rewrite (bind_ok _ _ _ _ _ Hr). apply (IH (tail arrivals) d1 backlog1 Hst1).
  destruct Hdec as [Hm|[Hne Hlt]].
  - right. split; [done|]. destruct arrivals; simpl in *; lia.
  - destruct Hn as [Hn|[Hm _]]; [|done]. left. rewrite Hcat, !length_app in *. destruct arrivals; simpl in *; lia.
Qed.

(** C13: A full replay ends.  While node [link_dst link] is replayed to, the messages
    [backlog] were buffered for it, and before each of the following passes more
    messages [arrivals] come from the sender; altogether they take the rows of the
    sender from [R] to [R'], and the nodes below are in sync with [R].  After as many
    rounds as there are messages and groups of arrivals, and one more, all of them
    have been delivered, in order: the nodes are in sync with [R'], the domain
    forwards updates again, and the replay is reported as completed. *)
Theorem full_replay_completes d R R' backlog passes arrivals n :
  d_mode d = Replaying node backlog passes → d_delayed_for_self d = [PFinish tag node] →
  synced d R → follows R (backlog ++ concat arrivals) R' →
  length arrivals + length backlog + length (concat arrivals) < n →
  ∃ d', replay_rounds n arrivals d = (d', Ok ()) ∧ d_mode d' = Forwarding ∧ d_replay_completed d' = true ∧
    d_delayed_for_self d' = [] ∧ in_sync depth (d_env d') node src P R' N.
Proof.
  intros Hmode Hdel Hs Hf Hn.
  destruct (rounds_stand n arrivals d backlog R') as (d' & Hr & (R1 & Hs1 & Hf1 & Hend) & Hfw); [|by left|].
  { exists R. split; [done|]. split; [done|]. left. by exists passes. }
  inversion Hf1; subst. destruct Hend as [(? & ? & _)|(_ & _ & Hcomp & Hq)]; [congruence|].
  exists d'. split_and!; [done..|]. apply Hs1.
Qed.
End full_replay.
End flow.

(** ** Counting rows *)
#[export] Instance agg_countable : Countable AggVal.
Proof.
  refine (inj_countable'
    (λ v, match v with ANone => inl () | AInt z => inr (inl z) | AText s => inr (inr (inl s)) | AMax => inr (inr (inr ())) end)
    (λ x : unit + (Z + (string + unit)), match x with inl _ => ANone | inr (inl z) => AInt z
                                         | inr (inr (inl s)) => AText s | inr (inr (inr _)) => AMax end) _).
  by intros [].
Defined.

Abbreviation CRow := (list AggVal).
Abbreviation CState := (MemoryState AggVal (list CRow) (gmap CRow (list CRow)) ReplicationOffset).
Abbreviation CMap := (gmap AggVal (list CRow)).
Abbreviation CHandle := (Copies (Inner AggVal CRow CMap Z Timestamp PreInsertion) (Operation AggVal CRow Z Timestamp)).

Definition c_size (r : CRow) : Z := Z.of_nat (length r).
#[local] Instance c_reader_state : ReaderState AggVal (WriteHandle CHandle) :=
  handle_state (K:=AggVal) (HM:=CMap) c_size c_size 8 (λ w _, Ok w).
#[local] Instance c_ingredient : Ingredient AggVal CState (NodeOperator AggVal) :=
  node_operator_ingredient (λ _, 0%Z) (λ _, 0%Z) (λ n, AInt (Z.of_nat n)) id.

(** Indexed by column 0: the rows, the counts and the reader. *)
Definition c_index : Index := {| index_type := IxHashMap; columns := [0] |}.
Definition c_state : result CState := ms_add_key ms_default c_index None.
Definition c_order : PreInsertion := {| pi_order_by := None; pi_group_by := None |}.
(** A new reader, for which key 1 has been replayed: there are no rows yet. *)
Definition c_new_reader : result (WriteHandle CHandle) :=
  w ← new_inner (K:=AggVal) (HM:=CMap) c_index 3 true c_order 1; swap (K:=AggVal) (HM:=CMap) w.
Definition c_reader : result (WriteHandle CHandle) :=
  w ← c_new_reader;
  reader_fill (K:=AggVal) (HM:=CMap) c_size c_size 8 w [KEqual [AInt 1]]
    (PReplayPiece {| link_src := 2; link_dst := 3 |} 7 (Positive <$> []) (RpPartial [KEqual [AInt 1]] 0 0 false)).

Definition c_node (i : nat) (parents children : list nat) (inner : NodeType AggVal (NodeOperator AggVal)) :
    Node AggVal (NodeOperator AggVal) () :=
  {| n_local := i; n_global := i; n_columns := [(); ()]; n_parents := parents; n_children := children; n_inner := inner;
     n_taken := false; n_purge := false; n_timestamps := ∅ |}.
Definition c_env (s : CState) (w : WriteHandle CHandle) : Env AggVal CState (WriteHandle CHandle) (NodeOperator AggVal) () :=
  {| env_nodes := {[1 := c_node 1 [] [2] NtIngress;
                    2 := c_node 2 [1] [3] (NtInternal (NoAggregation 1 2 sample_count ∅));
                    3 := c_node 3 [2] [] (NtReader {| rn_materialized := true; rn_index_type := Some IxHashMap |})]};
     env_state := {[1 := s; 2 := s]}; env_readers := {[3 := w]}; env_sent := [] |}.
Definition c_dom (s : CState) (w : WriteHandle CHandle) : Dom AggVal CState (WriteHandle CHandle) (NodeOperator AggVal) () :=
  {| d_shard := None; d_replica := 0; d_mode := Forwarding; d_waiting := ∅; d_reader_triggered := ∅;
     d_remapped_keys := []; d_replay_paths := replay_paths_default; d_not_ready := ∅; d_delayed_for_self := [];
     d_replay_completed := false; d_sent := []; d_timed_purges := []; d_ingress_inject := ∅; d_env := c_env s w |}.

Definition c_view : View (V:=AggVal) (Op:=NodeOperator AggVal) :=
  {| vw_rows := out_row_ok sample_count_op; vw_rel := grouped_view sample_count_op (λ m, NoAggregation 1 2 sample_count m);
     vw_own := [[0]]; vw_par := [[0]]; vw_fan := 2 |}.
Definition c_views (i : nat) : View (V:=AggVal) (Op:=NodeOperator AggVal) :=
  if i =? 2 then c_view
  else {| vw_rows := agg_row_ok sample_count; vw_rel _ _ _ := False; vw_own := []; vw_par := []; vw_fan := 1 |}.

Lemma c_state_ok : ∃ s, c_state = Ok s ∧ st_holds s [] ∧ (∀ r : CRow, r ≠ [] → st_fits s r) ∧ st_indexed s [0].
Proof.
  destruct (add_key_ok (V:=AggVal) (Rows:=list CRow) (IM:=gmap CRow (list CRow)) (O:=ReplicationOffset) ms_default c_index None [])
    as (s & Hs & Hok & _); [split_and!; constructor|simpl; lia|constructor|done|].
  exists s. split; [done|]. cbn in Hs. injection Hs as <-. split; [by split|]. split.
  - intros r Hr. split; [|constructor]. repeat constructor. simpl. destruct r; [done|simpl; lia].
  - split; [apply Forall_singleton, NoDup_singleton|apply elem_of_here].
Qed.

Lemma c_reader_ok : ∃ w, c_reader = Ok w ∧ rs_holds w [] ∧ ∀ r : CRow, r ≠ [] → rs_fits w r.
Proof.
  destruct (is_ok_inv c_reader) as [w E2]; [vm_compute; reflexivity|]. exists w. split; [done|].
  destruct (is_ok_inv c_new_reader) as [w1 E1]; [vm_compute; reflexivity|]. unfold c_reader in E2. rewrite E1 in E2.
  cbn [mbind result_bind] in E2. unfold c_new_reader in E1.
  destruct (is_ok_inv (new_inner (K:=AggVal) (HM:=CMap) (W:=CHandle) c_index 3 true c_order 1)) as [w0 E0]; [vm_compute; reflexivity|].
  rewrite E0 in E1. cbn [mbind result_bind] in E1.
  destruct (reader_new_inv (K:=AggVal) (HM:=CMap) c_index 3 c_order 1 w0 w1 []) as ((Hok1 & Hp1 & Hc1 & _) & Hix1 & _); [done..|].
  cbn [fst snd] in Hok1, Hp1, Hc1.
  destruct (reader_fill_ok c_size c_size 8 (columns c_index) c_order w1 w [] [KEqual [AInt 1]] {| link_src := 2; link_dst := 3 |} 7 []
    (RpPartial [KEqual [AInt 1]] 0 0 false)) as (Hok & Hs & Hp & Hc & _); try done; [by repeat constructor|].
  assert (wh_index w = c_index) as Hix by (destruct Hs as (_ & -> & _); done). split.
  - exists c_order. by rewrite Hix.
  - intros r Hr pre Hpre. rewrite (ok_order _ _ _ Hok) in Hpre. injection Hpre as <-. rewrite Hix.
    split; [|done]. repeat constructor. destruct r; [done|simpl; lia].
Qed.

Lemma c_view_maintains : maintains (Ty:=()) (S:=CState) 2 1 (agg_row_ok sample_count) (out_row_ok sample_count_op)
  [[0]] [[0]] 2 (grouped_view sample_count_op (λ m, NoAggregation 1 2 sample_count m)).
Proof.
  exact (grouped_node_maintains (λ _, 0%Z) (λ _, 0%Z) (λ n, AInt (Z.of_nat n)) id sample_count_op (λ m, NoAggregation 1 2 sample_count m) 1 2
    (λ _ _ _ _, eq_refl) (λ _, eq_refl) ltac:(done) eq_refl).
Qed.

(** The nodes are in sync with no rows. *)
Lemma c_sync : ∃ s w, c_state = Ok s ∧ c_reader = Ok w ∧ in_sync c_views 3 (c_env s w) 1 0 (agg_row_ok sample_count) [] 20.
Proof.
  destruct c_state_ok as (s & Hs & Hh & Hf & Hix). destruct c_reader_ok as (w & Hw & Hr & Hrf).
  assert (∀ r : CRow, agg_row_ok sample_count r → r ≠ []) as Hne by (intros [|v r] [_ Hlt]; [simpl in Hlt; lia|done]).
  assert (∀ r : CRow, out_row_ok sample_count_op r → r ≠ []) as Hne' by (by intros [|v r] Hlt).
  exists s, w. split; [done|]. split; [done|]. eexists _, []. split; [reflexivity|]. split.
  { split; [constructor|]. split; [intros s' [= <-]; auto|]. cbn. split_and!; [done|lia|]. done. }
  split; [done|]. apply Forall_singleton. eexists _, []. split; [reflexivity|]. split.
  { split; [constructor|]. split; [intros s' [= <-]; auto|]. cbn. split_and!; [done|exact c_view_maintains| | |].
    - exists ∅, (λ _, None). split; [done|]. split; [|done]. by intros g.
    - exists s. split; [done|]. by constructor.
    - exists s. split; [done|]. by constructor. }
  split; [done|]. apply Forall_singleton. eexists _, []. split; [reflexivity|]. split.
  { split; [constructor|]. split; [by intros s'|]. cbn. split_and!; [done..|]. exists w. split_and!; [done..|]. intros r Hr0. by apply Hrf, Hne'. }
  split; [done|]. constructor.
Qed.

(** What the reader finds for a key; nothing where it has a hole. *)
Definition c_found (e : Env AggVal CState (WriteHandle CHandle) (NodeOperator AggVal) ()) (k : AggVal) : option (list CRow) :=
  w ← env_readers e !! 3;
  visible (K:=AggVal) (A:=CRow) (HM:=CMap) (M:=Z) (T:=Timestamp) (I:=PreInsertion) (wh_handle w) k.
Definition c_link : Link := {| link_src := 0; link_dst := 1 |}.
(** What the reader has for the keys 1 and 2 after a batch: for key 1 the count of the
    values that are not null and that of the rows, for key 2 a hole. *)
Definition c_dispatched : result (option (list CRow) * option (list CRow)) :=
  s ← c_state; w ← c_reader;
  match dispatch (λ _, 0) (λ (_ : ()) v, Ok v) (λ _, None) 3 (PMessage c_link (Positive <$> sample_P') None) (c_dom s w) with
  | (d, Ok _) => Ok (c_found (d_env d) (AInt 1), c_found (d_env d) (AInt 2))
  | _ => Panic
  end.

Lemma dispatch_maintains_witness : ∃ s w e', c_state = Ok s ∧ c_reader = Ok w ∧
  dispatch (λ _, 0) (λ (_ : ()) v, Ok v) (λ _, None) 3 (PMessage c_link (Positive <$> sample_P') None) (c_dom s w) =
    (set_env e' (c_dom s w), Ok ()) ∧
  in_sync c_views 3 e' 1 0 (agg_row_ok sample_count) sample_P' 20 ∧
  c_found e' (AInt 1) = Some [[AInt 1; AInt 1; AInt 2]] ∧ c_found e' (AInt 2) = None.
Proof.
  destruct c_sync as (s & w & Hs & Hw & Hsync).
  destruct (dispatch_maintains (λ _ : AggVal, 0) (λ (_ : ()) v, Ok v) (λ _, None) c_views 3 (c_dom s w) c_link
    (Positive <$> sample_P') None (agg_row_ok sample_count) [] sample_P' 20) as (e' & Hd & Hin & _).
  - done.
  - intros j _. apply not_elem_of_empty.
  - vm_compute. repeat constructor; set_solver.
  - exact Hsync.
  - apply batch_ok_all.
  - constructor.
  - repeat constructor; simpl; lia.
  - simpl. lia.
  - by intros s'.
  - exists s, w, e'. split_and!; [done..| |].
    all: assert (c_dispatched = Ok (Some [[AInt 1; AInt 1; AInt 2]], None)) as Hrun by (vm_compute; reflexivity).
    all: unfold c_dispatched in Hrun; rewrite Hs, Hw in Hrun; cbn [mbind result_bind] in Hrun; rewrite Hd in Hrun; by injection Hrun.
Defined.

(** A replay into node 1, with two messages buffered; a third one arrives. *)
Definition c_msg (rows : list CRow) : Packet AggVal := PMessage c_link (Positive <$> rows) None.
Definition c_path : ReplayPath :=
  {| rp_source := None; rp_target_index := None; rp_path := []; rp_notify_done := true;
     rp_partial_unicast_sharder := None; rp_trigger := TriggerNone |}.
Definition c_replaying (s : CState) (w : WriteHandle CHandle) : Dom AggVal CState (WriteHandle CHandle) (NodeOperator AggVal) () :=
  {| d_shard := None; d_replica := 0; d_mode := Replaying 1 [c_msg [[AInt 1; AInt 5]]; c_msg [[AInt 2; AInt 7]]] 0;
     d_waiting := ∅; d_reader_triggered := ∅; d_remapped_keys := [];
     d_replay_paths := {| by_tag := [(3, c_path)]; by_dst := []; generated_columns := [] |};
     d_not_ready := ∅; d_delayed_for_self := [PFinish 3 1]; d_replay_completed := false; d_sent := [];
     d_timed_purges := []; d_ingress_inject := ∅; d_env := c_env s w |}.

Lemma full_replay_completes_witness : ∃ s w d', c_state = Ok s ∧ c_reader = Ok w ∧
  replay_rounds (λ _, 0) (λ (_ : ()) v, Ok v) (λ _, None) 3 5 [[c_msg [[AInt 1; ANone]]]] (c_replaying s w) = (d', Ok ()) ∧
  d_mode d' = Forwarding ∧ d_replay_completed d' = true ∧ in_sync c_views 3 (d_env d') 1 0 (agg_row_ok sample_count) sample_P' 20.
Proof.
  destruct c_sync as (s & w & Hs & Hw & Hsync).
  destruct (full_replay_completes (λ _ : AggVal, 0) (λ (_ : ()) v, Ok v) (λ _, None) c_views 3 3 c_link (agg_row_ok sample_count) 20 c_path
    (c_replaying s w) [] sample_P' [c_msg [[AInt 1; AInt 5]]; c_msg [[AInt 2; AInt 7]]] 0 [[c_msg [[AInt 1; ANone]]]] 5)
    as (d' & Hd & Hmode & Hcomp & _ & Hin).
  - reflexivity.
  - reflexivity.
  - split_and!; [intros j _; apply not_elem_of_empty| |exact Hsync|constructor|reflexivity|reflexivity|reflexivity].
    vm_compute. repeat constructor; set_solver.
  - apply (follows_cons _ _ _ [] [[AInt 1; AInt 5]]); [apply batch_ok_all|repeat constructor; simpl; lia|simpl; lia|].
    apply (follows_cons _ _ _ _ [[AInt 1; AInt 5]; [AInt 2; AInt 7]]);
      [apply (batch_ok_positive [[AInt 1; AInt 5]])|repeat constructor; simpl; lia|simpl; lia|].
    apply (follows_cons _ _ _ _ sample_P');
      [apply (batch_ok_positive [[AInt 1; AInt 5]; [AInt 2; AInt 7]])|repeat constructor; simpl; lia|simpl; lia|constructor].
  - simpl. lia.
  - by exists s, w, d'.
Defined.
