(* ===== verification/Results.v ===== *)
(** * Results: the rows that answer a query

    Models [readyset-client/src/view/results.rs], the iterators that make the rows of
    a response from what a reader returned for every key, and the operations after a
    lookup of [dataflow-expression/src/post_lookup.rs]: order, limit, offset, filter,
    aggregates over the keys, and the default row.

    The iterators are those of the [streaming_iterator] crate: [advance] moves to the
    next row, [get] returns the current one.  Loops have fuel: at least the number of
    rows that are left is enough ([ResultsProps]). *)
From stdpp Require Import strings.
From S2P Require Import Prelude Result Records OpLinear OpGrouped OpAggregate OpTopK InsertionOrder Tournament.

(** ** Operations after a lookup *)
Inductive PostLookupAggregateFunction :=
  | PlSum | PlProduct | PlGroupConcat (separator : string) | PlMax | PlMin.
Record PostLookupAggregate := { pla_column : nat; pla_function : PostLookupAggregateFunction }.
Record PostLookupAggregates := { pla_group_by : list nat; pla_aggregates : list PostLookupAggregate }.
Record PostLookup (V : Type) := {
  pl_order_by : option (Order);
  pl_limit : option Z;
  pl_returned_cols : option (list nat);
  pl_default_row : option (list V);
  pl_aggregates : option PostLookupAggregates;
}.
Arguments pl_order_by {V}.
Arguments pl_limit {V}.
Arguments pl_returned_cols {V}.
Arguments pl_default_row {V}.
Arguments pl_aggregates {V}.

Definition usize_max : Z := (2 ^ 64 - 1)%Z.

Section results.
Context `{DfArith V}.
(** Multiplication of values, and [DfValue::is_truthy] in a [Filter]. *)
Context (dfv_mul : V → V → result V).
#[local] Abbreviation row := (list V).
Implicit Types (r : row) (data : list (list row)) (f : option (Filter V)).

(** [PostLookupAggregateFunction::apply]; [cmp::max] returns the second of two values
    that are equal, [cmp::min] the first. *)
Definition function_apply (fn : PostLookupAggregateFunction) (val1 val2 : V) : result V :=
  match fn with
  | PlSum => dfv_add val1 val2
  | PlProduct => dfv_mul val1 val2
  | PlGroupConcat separator =>
      match dfv_as_text val1, dfv_as_text val2 with
      | Some s1, Some s2 => Ok (dfv_text (s1 +:+ separator +:+ s2))
      | _, _ => Err DfValueConversionError
      end
  | PlMax => Ok (match cmp val1 val2 with Gt => val1 | _ => val2 end)
  | PlMin => Ok (match cmp val1 val2 with Gt => val2 | _ => val1 end)
  end.

(** [ReaderProcessing::new]: the rows of a reader are inserted in the order that the
    iterators need. *)
Definition reader_processing_new (order_by : option (Order)) (limit : option Z)
    (returned_cols : option (list nat)) (default_row : option row) (aggregates : option PostLookupAggregates) :
    result (PreInsertion * PostLookup V) :=
  if match returned_cols with
     | Some cols => existsb (λ iv : nat * nat, negb (iv.1 =? iv.2)) (imap (λ i v, (i, v)) cols)
     | None => false
     end
  then Err Internal
  else Ok ({| pi_order_by := order_by; pi_group_by := pla_group_by <$> aggregates |},
           {| pl_order_by := order_by; pl_limit := limit; pl_returned_cols := returned_cols;
              pl_default_row := default_row; pl_aggregates := aggregates |}).

(** ** Iterators over sets of rows *)
(** The loop over empty sets: from set [set], whose rest is [rest]. *)
Fixpoint skip_sets (rest : list (list row)) (set row : nat) : nat * nat :=
  match rest with
  | [] => (set, row)
  | results :: rest' => match results !! row with None => skip_sets rest' (S set) 0 | Some _ => (set, row) end
  end.

Record MultiKeyIterator := { mk_data : list (list row); mk_set : nat; mk_row : option nat }.
Definition multi_key_new data : MultiKeyIterator := {| mk_data := data; mk_set := 0; mk_row := None |}.
Definition multi_key_advance (m : MultiKeyIterator) : MultiKeyIterator :=
  let row := match mk_row m with Some row => S row | None => 0 end in
  let '(set, row) := skip_sets (drop (mk_set m) (mk_data m)) (mk_set m) row in
  {| mk_data := mk_data m; mk_set := set; mk_row := Some row |}.
Definition multi_key_get (m : MultiKeyIterator) : option row :=
  row ← mk_row m; s ← mk_data m !! mk_set m; s !! row.

(** Results from a server, with the number of cache misses. *)
Record Results := { res_results : list row; res_stats : option nat }.
Record OwnedResultIterator := { ow_data : list Results; ow_set : nat; ow_row : option nat }.
Definition owned_advance (o : OwnedResultIterator) : OwnedResultIterator :=
  let row := match ow_row o with Some row => S row | None => 0 end in
  let '(set, row) := skip_sets (res_results <$> drop (ow_set o) (ow_data o)) (ow_set o) row in
  {| ow_data := ow_data o; ow_set := set; ow_row := Some row |}.
Definition owned_get (o : OwnedResultIterator) : option row :=
  row ← ow_row o; s ← ow_data o !! ow_set o; res_results s !! row.

Record SingleKeyIterator := { sk_data : list row; sk_row : option nat }.
Definition single_key_new (data : list row) : SingleKeyIterator := {| sk_data := data; sk_row := None |}.
Definition single_key_advance (s : SingleKeyIterator) : SingleKeyIterator :=
  {| sk_data := sk_data s; sk_row := Some match sk_row s with None => 0 | Some row => S row end |}.
Definition single_key_get (s : SingleKeyIterator) : option row := row ← sk_row s; sk_data s !! row.

(** ** Merging *)
(** [RowComparator::cmp] compares rows as [Order::cmp] does: by every column in turn. *)
Record MergeIterator := {
  mg_order : Order;
  mg_inner : StreamingTournament (T:=SingleKeyIterator);
}.
Definition merge_new data (order_by : Order) : MergeIterator :=
  {| mg_order := order_by; mg_inner := from_iters single_key_advance single_key_get (single_key_new <$> data) |}.
Definition merge_advance (m : MergeIterator) : result MergeIterator :=
  t ← tournament_advance single_key_advance single_key_get (order_cmp (mg_order m)) (mg_inner m);
  Ok {| mg_order := mg_order m; mg_inner := t |}.
Definition merge_get (m : MergeIterator) : result (option row) := tournament_get single_key_get (mg_inner m).

(** The assertion of a debug build that every set is sorted.  Two rows or more are
    all compared, there or while they are merged, so a row without one of the columns
    panics. *)
Fixpoint is_sorted_by (c : row → row → comparison) (l : list row) : bool :=
  match l with
  | a :: (b :: _) as l' => is_le (c a b) && is_sorted_by c l'
  | _ => true
  end.
Definition assert_sorted (order_by : Order) data : result () :=
  _ ← order_check order_by (concat data);
  if forallb (is_sorted_by (order_cmp order_by)) data then Ok () else Panic.

(** ** Aggregates *)
(** Whether a row passes a filter; an error of the expression is a row that does not. *)
Definition passes (flt : Filter V) r : result bool :=
  match filter_expression flt r with Ok v => Ok (filter_is_truthy flt v) | Err _ => Ok false | Panic => Panic end.

Record AggregateIterator (I : Type) := {
  ai_inner : I;
  ai_aggregate : PostLookupAggregates;
  ai_out_row : option row;
  ai_filter : option (Filter V);
}.
#[local] Arguments ai_inner {I}.
#[local] Arguments ai_aggregate {I}.
#[local] Arguments ai_out_row {I}.
#[local] Arguments ai_filter {I}.

Section aggregate.
Context {I : Type} (advance : I → result I) (get : I → result (option row)).

Fixpoint skip_rows (fuel : nat) (flt : Filter V) (inner : I) : result I :=
  match fuel with
  | O => Panic
  | S fuel' =>
      o ← get inner;
      match o with
      | None => Ok inner
      | Some r => pass ← passes flt r; if (pass : bool) then Ok inner else inner' ← advance inner; skip_rows fuel' flt inner'
      end
  end.
(** [AggregateIterator::advance_filtered]. *)
Definition agg_advance_filtered (fuel : nat) f (inner : I) : result I :=
  inner ← advance inner; match f with None => Ok inner | Some flt => skip_rows fuel flt inner end.

(** A row of the same group is combined with what there is of the group. *)
Definition combine (aggregates : list PostLookupAggregate) (aggregate_row r : row) : result row :=
  result_foldl (λ acc agg,
    let col := pla_column agg in
    x ← expect (acc !! col); y ← expect (r !! col);
    match function_apply (pla_function agg) x y with Ok v => Ok (<[col := v]> acc) | _ => Panic end) aggregate_row aggregates.
Definition other_group (group_by : list nat) (aggregate_row r : row) : bool :=
  existsb (λ i, negb (bool_decide (aggregate_row !! i = r !! i))) group_by.
Fixpoint collect_group (fuel : nat) (aggregate : PostLookupAggregates) f (inner : I) (aggregate_row : row) : result (I * row) :=
  match fuel with
  | O => Panic
  | S fuel' =>
      o ← get inner;
      match o with
      | None => Ok (inner, aggregate_row)
      | Some r =>
          if other_group (pla_group_by aggregate) aggregate_row r then Ok (inner, aggregate_row)
          else
            aggregate_row' ← combine (pla_aggregates aggregate) aggregate_row r;
            inner' ← agg_advance_filtered fuel' f inner;
            collect_group fuel' aggregate f inner' aggregate_row'
      end
  end.
Definition agg_advance (fuel : nat) (a : AggregateIterator I) : result (AggregateIterator I) :=
  inner ← match ai_out_row a with None => agg_advance_filtered fuel (ai_filter a) (ai_inner a) | Some _ => Ok (ai_inner a) end;
  o ← get inner;
  match o with
  | None => Ok {| ai_inner := inner; ai_aggregate := ai_aggregate a; ai_out_row := None; ai_filter := ai_filter a |}
  | Some r =>
      inner ← agg_advance_filtered fuel (ai_filter a) inner;
      '(inner, aggregate_row) ← collect_group fuel (ai_aggregate a) (ai_filter a) inner r;
      Ok {| ai_inner := inner; ai_aggregate := ai_aggregate a; ai_out_row := Some aggregate_row; ai_filter := ai_filter a |}
  end.
End aggregate.

(** ** [ResultIteratorInner] *)
Inductive ResultIteratorInner :=
  | OwnedResults (o : OwnedResultIterator)
  | MultiKey (m : MultiKeyIterator)
  | MultiKeyMerge (m : MergeIterator)
  | MultiKeyAggregateMerge (a : AggregateIterator ResultIteratorInner).
Definition inner_get (it : ResultIteratorInner) : result (option row) :=
  match it with
  | OwnedResults o => Ok (owned_get o)
  | MultiKey m => Ok (multi_key_get m)
  | MultiKeyMerge m => merge_get m
  | MultiKeyAggregateMerge a => Ok (ai_out_row a)
  end.
Fixpoint inner_advance (fuel : nat) (it : ResultIteratorInner) : result ResultIteratorInner :=
  match fuel with
  | O => Panic
  | S fuel' =>
      match it with
      | OwnedResults o => Ok (OwnedResults (owned_advance o))
      | MultiKey m => Ok (MultiKey (multi_key_advance m))
      | MultiKeyMerge m => m' ← merge_advance m; Ok (MultiKeyMerge m')
      | MultiKeyAggregateMerge a => a' ← agg_advance (inner_advance fuel') inner_get fuel' a; Ok (MultiKeyAggregateMerge a')
      end
  end.

(** ** [ResultIterator] *)
Record ResultIterator := {
  ri_inner : ResultIteratorInner;
  ri_limit : option Z;
  ri_offset : option nat;
  ri_default_row : option row;
  ri_non_empty : bool;
  ri_filter : option (Filter V);
  ri_cols : Z;
}.
Implicit Types (ri : ResultIterator) (inner : ResultIteratorInner).

(** [ResultIterator::advance_filtered]. *)
Fixpoint ri_advance_filtered (fuel : nat) f inner : result ResultIteratorInner :=
  match fuel with
  | O => Panic
  | S fuel' =>
      inner ← inner_advance fuel' inner;
      match f with
      | None => Ok inner
      | Some flt =>
          o ← inner_get inner;
          match o with
          | None => Ok inner
          | Some r => pass ← passes flt r; if (pass : bool) then Ok inner else ri_advance_filtered fuel' f inner
          end
      end
  end.
Fixpoint skip_offset (fuel : nat) f (offset : nat) inner : result ResultIteratorInner :=
  match offset with
  | O => Ok inner
  | S offset' =>
      inner ← ri_advance_filtered fuel f inner;
      o ← inner_get inner;
      match o with None => Ok inner | Some _ => skip_offset fuel f offset' inner end
  end.

Definition ri_advance (fuel : nat) ri : result ResultIterator :=
  inner ← match ri_offset ri with Some offset => skip_offset fuel (ri_filter ri) offset (ri_inner ri) | None => Ok (ri_inner ri) end;
  let limit := (λ l, ((l - 1) mod 2 ^ 64)%Z) <$> ri_limit ri in
  inner ← ri_advance_filtered fuel (ri_filter ri) inner;
  Ok {| ri_inner := inner; ri_limit := limit; ri_offset := None;
        ri_default_row := if ri_non_empty ri then None else ri_default_row ri;
        ri_non_empty := true; ri_filter := ri_filter ri; ri_cols := ri_cols ri |}.
Definition truncate (cols : Z) r : row := if (Z.of_nat (length r) <=? cols)%Z then r else take (Z.to_nat cols) r.
Definition ri_get ri : result (option row) :=
  if bool_decide (ri_limit ri = Some usize_max) then Ok None
  else o ← inner_get (ri_inner ri);
       Ok (truncate (ri_cols ri) <$> match o with Some r => Some r | None => ri_default_row ri end).

(** [into_vec]: until [get] returns [None]. *)
Fixpoint into_vec (fuel : nat) ri : result (list row) :=
  match fuel with
  | O => Panic
  | S fuel' =>
      ri ← ri_advance fuel' ri;
      o ← ri_get ri;
      match o with None => Ok [] | Some r => rest ← into_vec fuel' ri; Ok (r :: rest) end
  end.

Definition ri_owned (data : list Results) : ResultIterator :=
  {| ri_inner := OwnedResults {| ow_data := data; ow_set := 0; ow_row := None |};
     ri_limit := None; ri_offset := None; ri_default_row := None; ri_non_empty := false; ri_filter := None; ri_cols := usize_max |}.

Definition aggregate_iter (inner : ResultIteratorInner) (aggregates : PostLookupAggregates) f : ResultIteratorInner :=
  MultiKeyAggregateMerge {| ai_inner := inner; ai_aggregate := aggregates; ai_out_row := None; ai_filter := f |}.
Definition ascending (group_by : list nat) : Order := (λ col, (col, OrderAscending)) <$> group_by.

(** [results.drain(offset..)] removes the rows from [offset] on. *)
Definition drain_from (offset : nat) (l : list row) : result (list row) :=
  if offset <=? length l then Ok (take offset l) else Panic.

(** [ResultIterator::new]. *)
Definition ri_new (fuel : nat) data (pl : PostLookup V) (adapter_limit : option Z) (offset : option nat) f :
    result ResultIterator :=
  let limit := match adapter_limit with Some l => Some l | None => pl_limit pl end in
  let cols := match pl_returned_cols pl with Some cols => Z.of_nat (length cols) | None => usize_max end in
  let iter inner flt := {| ri_inner := inner; ri_limit := limit; ri_offset := offset; ri_default_row := pl_default_row pl;
                           ri_non_empty := false; ri_filter := flt; ri_cols := cols |} in
  match pl_order_by pl, pl_aggregates pl with
  | None, None => Ok (iter (MultiKey (multi_key_new data)) f)
  | Some order_by, None =>
      _ ← assert_sorted order_by data; Ok (iter (MultiKeyMerge (merge_new data order_by)) f)
  | None, Some aggregates =>
      match pla_group_by aggregates with
      | [] => Ok (iter (aggregate_iter (MultiKey (multi_key_new data)) aggregates f) None)
      | group_by =>
          _ ← assert_sorted (ascending group_by) data;
          Ok (iter (aggregate_iter (MultiKeyMerge (merge_new data (ascending group_by))) aggregates f) None)
      end
  | Some order_by, Some aggregates =>
      let group_by := ascending (pla_group_by aggregates) in
      _ ← assert_sorted group_by data;
      results ← into_vec fuel
        {| ri_inner := aggregate_iter (MultiKeyMerge (merge_new data group_by)) aggregates f; ri_limit := limit; ri_offset := None;
           ri_default_row := pl_default_row pl; ri_non_empty := false; ri_filter := None; ri_cols := usize_max |};
      _ ← order_check order_by results;
      let results := sort_by (order_cmp order_by) results in
      results ← match offset with Some offset => drain_from offset results | None => Ok results end;
      Ok (ri_owned [{| res_results := results; res_stats := None |}])
  end.

(** [total_stats]: the cache misses of all the results. *)
Definition total_stats ri : option nat :=
  match ri_inner ri with
  | OwnedResults o =>
      foldl (λ total cur, match cur with Some misses => Some (misses + default 0 total) | None => total end)
        None (res_stats <$> ow_data o)
  | _ => None
  end.
End results.
Arguments ai_inner {V I}.
Arguments ai_aggregate {V I}.
Arguments ai_out_row {V I}.
Arguments ai_filter {V I}.
