(* ===== verification/ResultsProps.v ===== *)
(** * ResultsProps: what the rows of a response are

    Every iterator of [Results] runs through a list of rows ([plain_step], [agg_step]);
    so [into_vec] returns what the order, the filter, the offset, the limit and the
    aggregates say ([results_answer], [results_aggregate]), except with an order and
    aggregates together ([order_after_limit], [offset_keeps_head]). *)
From stdpp Require Import strings.
From S2P Require Import Prelude Result Records OpLinear Batches OpGrouped OpAggregate OpTopK OpTopKProps InsertionOrder.
From S2P Require Import Tournament TournamentProps OpGroupedProps OpAggregateProps Results.

Section results_props.
Context `{DfArith V} (dfv_mul : V → V → result V).
#[local] Abbreviation row := (list V).
#[local] Abbreviation inner_advance := (inner_advance dfv_mul).
Implicit Types (r : row) (data : list (list row)) (l : list row) (f : option (Filter V)) (it : ResultIteratorInner (V:=V)).

(** ** Sets of rows *)
(** The rows left in the sets [rest], of the first from [row] on. *)
Definition left_of (rest : list (list row)) (row : nat) : list (list V) :=
  match rest with [] => [] | s :: rest' => drop row s ++ concat rest' end.

Lemma skip_sets_spec rest set row set' row' :
  skip_sets rest set row = (set', row') →
  ∃ k, set' = set + k ∧ head (left_of rest row) = (rest !! k ≫= λ s, s !! row') ∧
    tail (left_of rest row) = left_of (drop k rest) (S row').
Proof.
  revert set row. induction rest as [|s rest IH]; intros set row; cbn [skip_sets].
  { intros [= <- <-]. exists 0. split; [lia|]. done. }
  destruct (s !! row) as [r|] eqn:E.
  - intros [= <- <-]. exists 0. split; [lia|]. cbn [left_of drop lookup list_lookup mbind option_bind].
    rewrite (drop_S s r row E). simpl. by rewrite E.
  - intros (k & -> & Hh & Ht)%IH. exists (S k). split; [lia|]. cbn [left_of drop lookup list_lookup].
    apply lookup_ge_None in E. rewrite drop_ge by done. cbn [app].
    assert (concat rest = left_of rest 0) as -> by (by destruct rest). done.
Qed.

(** ** The iterators without aggregates *)
Definition next_row (row : option nat) : nat := match row with Some row => S row | None => 0 end.
#[export] Instance single_key_streaming :
  StreamingIterator (single_key_advance (V:=V)) single_key_get (λ s, drop (next_row (sk_row s)) (sk_data s)).
Proof.
  split; intros [d o]; unfold single_key_get, single_key_advance; cbn [sk_data sk_row mbind option_bind].
  - change (match o with None => 0 | Some row => S row end) with (next_row o). by rewrite head_lookup, lookup_drop, Nat.add_0_r.
  - change (match o with None => 0 | Some row => S row end) with (next_row o). cbn [next_row].
    generalize (next_row o) as n. intros n. clear o. revert n. induction d as [|x d IH]; intros [|n]; simpl; [done..|]. apply IH.
Qed.

Definition merges (m : MergeIterator (V:=V)) l : Prop :=
  yields single_key_advance single_key_get (λ s, drop (next_row (sk_row s)) (sk_data s)) (order_cmp (mg_order m)) (mg_inner m) l.
(** The rows that an iterator without aggregates has left. *)
Definition plain it l : Prop :=
  match it with
  | OwnedResults o => l = left_of (res_results <$> drop (ow_set o) (ow_data o)) (next_row (ow_row o))
  | MultiKey m => l = left_of (drop (mk_set m) (mk_data m)) (next_row (mk_row m))
  | MultiKeyMerge m => merges m l
  | MultiKeyAggregateMerge _ => False
  end.

Lemma order_cmp_trans (o : Order) (x y z : row) : order_cmp o x y ≠ Gt → order_cmp o y z ≠ Gt → order_cmp o x z ≠ Gt.
Proof. intros. by eapply order_cmp_le_lt. Qed.

Lemma plain_step it l :
  plain it l → ∃ it', (∀ fuel, inner_advance (S fuel) it = Ok it') ∧ inner_get it' = Ok (head l) ∧ plain it' (tail l).
Proof.
  destruct it as [o|m|m|a]; cbn [plain]; [| | |done].
  - intros ->. unfold next_row. set (row := match ow_row o with Some row => S row | None => 0 end).
    eexists. split; [done|]. cbn [inner_get plain]. unfold owned_advance, owned_get. fold row.
    destruct (skip_sets _ (ow_set o) row) as [set' row'] eqn:E. cbn [ow_row ow_set ow_data mbind option_bind].
    destruct (skip_sets_spec _ _ _ _ _ E) as (k & -> & -> & ->). split.
    + rewrite list_lookup_fmap, lookup_drop. by destruct (ow_data o !! (ow_set o + k)).
    + by rewrite <-fmap_drop, drop_drop.
  - intros ->. unfold next_row. set (row := match mk_row m with Some row => S row | None => 0 end).
    eexists. split; [done|]. cbn [inner_get plain]. unfold multi_key_advance, multi_key_get. fold row.
    destruct (skip_sets _ (mk_set m) row) as [set' row'] eqn:E. cbn [mk_row mk_set mk_data mbind option_bind].
    destruct (skip_sets_spec _ _ _ _ _ E) as (k & -> & -> & ->). split.
    + by rewrite lookup_drop.
    + by rewrite drop_drop.
  - intros (t & Ht & Hg & Hy)%yields_step; [|apply _|intros; apply order_cmp_antisym|apply order_cmp_trans].
    exists (MultiKeyMerge {| mg_order := mg_order m; mg_inner := t |}). split_and!; [|done|done].
    intros fuel. cbn [Results.inner_advance]. unfold merge_advance. by rewrite Ht.
Qed.

Lemma multi_key_plain data : plain (MultiKey (multi_key_new data)) (concat data).
Proof. by destruct data. Qed.
Lemma merge_plain data order_by :
  Forall (StronglySorted (ole order_by)) data →
  ∃ l, plain (MultiKeyMerge (merge_new data order_by)) l ∧ l ≡ₚ concat data ∧ StronglySorted (ole order_by) l.
Proof.
  intros Hs. destruct (from_iters_yields single_key_advance single_key_get (λ s, drop (next_row (sk_row s)) (sk_data s))
    (order_cmp order_by)) with (iters := single_key_new <$> data) as (l & Hy & Hp & Hl).
  - intros; apply order_cmp_antisym.
  - apply order_cmp_trans.
  - apply Forall_fmap. eapply Forall_impl; [exact Hs|]. done.
  - exists l. split_and!; [done| |done]. rewrite Hp, <-list_fmap_compose.
    assert ((λ s, drop (next_row (sk_row s)) (sk_data s)) ∘ single_key_new <$> data = data) as -> by exact (list_fmap_id data). done.
Qed.

(** ** Filters *)
(** Whether a row is kept; nothing panics on the rows [l]. *)
Definition kept f r : bool := match f with None => true | Some flt => match passes flt r with Ok b => b | _ => false end end.
Definition keep f l : list row := filter (λ r, kept f r = true) l.
Definition no_panic f l : Prop := ∀ flt, f = Some flt → Forall (λ r, passes flt r ≠ Panic) l.
Lemma no_panic_tail f l : no_panic f l → no_panic f (tail l).
Proof. intros Hf flt Hs. specialize (Hf flt Hs). by inversion Hf. Qed.
Lemma no_panic_cons flt r l : no_panic (Some flt) (r :: l) → passes flt r = Ok (kept (Some flt) r).
Proof.
  intros Hf. specialize (Hf flt eq_refl). apply Forall_cons in Hf as [Hr _]. unfold kept. unfold passes in *.
  by destruct (filter_expression flt r).
Qed.
Lemma keep_cons f r l : keep f (r :: l) = if kept f r then r :: keep f l else keep f l.
Proof. unfold keep. rewrite filter_cons. by destruct (kept f r). Qed.
Lemma keep_none l : keep None l = l.
Proof. unfold keep. induction l as [|r l IH]; [done|]. by rewrite filter_cons_True, IH. Qed.

(** ** Aggregates *)
(** The iterator is at the first of the rows [K], and the filter keeps the rest of
    them of those that are left, at most [n]. *)
Definition at_row f it (K : list row) (n : nat) : Prop :=
  ∃ l, inner_get it = Ok (head K) ∧ plain it l ∧ keep f l = tail K ∧ no_panic f l ∧ length l ≤ n ∧ (K = [] → l = []).
(** The number of rows to come, with the current one. *)
Definition to_come (K : list row) (n : nat) : nat := match K with [] => 0 | _ => S n end.

Lemma skip_rows_ok fuel F flt it l :
  plain it (tail l) → inner_get it = Ok (head l) → no_panic (Some flt) l → length l < fuel →
  ∃ it', skip_rows (inner_advance (S F)) inner_get fuel flt it = Ok it' ∧ at_row (Some flt) it' (keep (Some flt) l) (pred (length l)).
Proof.
  revert it l. induction fuel as [|fuel IH]; intros it l Hp Hg Hnp Hl; [lia|]. cbn [skip_rows]. rewrite Hg. cbn [mbind result_bind].
  destruct l as [|r l]; cbn [head tail] in *.
  { exists it. split; [done|]. exists []. split_and!; [exact Hg|done|done|done|simpl; lia|done]. }
  rewrite (no_panic_cons flt r l Hnp). cbn [mbind result_bind]. rewrite keep_cons. destruct (kept (Some flt) r) eqn:Ek.
  - exists it. split; [done|]. exists l. split_and!; [done..|by apply (no_panic_tail _ (r :: l))|simpl; lia|done].
  - destruct (plain_step it l Hp) as (it' & Ha & Hg' & Hp'). rewrite Ha. cbn [mbind result_bind].
    destruct (IH it' l) as (it'' & Heq & l' & ? & ? & ? & ? & ? & ?); [done|done|by apply (no_panic_tail _ (r :: l))|simpl in Hl; lia|].
    exists it''. split; [done|]. exists l'. split_and!; [done..|simpl; lia|done].
Qed.
Lemma agg_filtered_ok fuel F f it l :
  plain it l → no_panic f l → length l < fuel →
  ∃ it', agg_advance_filtered (inner_advance (S F)) inner_get fuel f it = Ok it' ∧ at_row f it' (keep f l) (pred (length l)).
Proof.
  intros Hp Hnp Hl. unfold agg_advance_filtered. destruct (plain_step it l Hp) as (it' & Ha & Hg & Hp'). rewrite Ha.
  cbn [mbind result_bind]. destruct f as [flt|]; [by apply skip_rows_ok|].
  exists it'. split; [done|]. exists (tail l). rewrite !keep_none. split_and!; [done..| |]; destruct l; simpl; (lia || done).
Qed.

(** The rows of a group combined, and the rows after the group; the rows of all groups. *)
Fixpoint take_group (agg : PostLookupAggregates) r (l : list row) : result (row * list row) :=
  match l with
  | [] => Ok (r, [])
  | r' :: l' => if other_group (pla_group_by agg) r r' then Ok (r, l)
                else r'' ← combine dfv_mul (pla_aggregates agg) r r'; take_group agg r'' l'
  end.
Inductive agg_rows (agg : PostLookupAggregates) : list row → list row → Prop :=
  | agg_rows_nil : agg_rows agg [] []
  | agg_rows_cons r l acc l' outs : take_group agg r l = Ok (acc, l') → agg_rows agg l' outs → agg_rows agg (r :: l) (acc :: outs).

Lemma collect_group_ok fuel F agg f it K n acc out K' :
  at_row f it K n → to_come K n < fuel → take_group agg acc K = Ok (out, K') →
  ∃ it' n', collect_group dfv_mul (inner_advance (S F)) inner_get fuel agg f it acc = Ok (it', out) ∧ at_row f it' K' n' ∧ to_come K' n' ≤ to_come K n.
Proof.
  revert it K n acc. induction fuel as [|fuel IH]; intros it K n acc Hat Hn Ht; [lia|].
  pose proof Hat as (l & Hg & Hp & Hk & Hnp & Hl & _). cbn [collect_group]. rewrite Hg. cbn [mbind result_bind].
  destruct K as [|r K]; cbn [head take_group] in *; [injection Ht as <- <-; by exists it, n|].
  destruct (other_group _ acc r); [injection Ht as <- <-; by exists it, n|].
  destruct (combine dfv_mul (pla_aggregates agg) acc r) as [acc'| |]; [|done..]. cbn [mbind result_bind] in *.
  cbn [to_come tail] in *. destruct (agg_filtered_ok fuel F f it l) as (it' & -> & Hat'); [done..|lia|]. cbn [mbind result_bind].
  assert (to_come K (pred (length l)) ≤ n) as Hlt.
  { destruct K as [|r' K]; simpl; [lia|]. destruct l; [done|simpl in *; lia]. }
  rewrite Hk in Hat'. destruct (IH it' K (pred (length l)) acc') as (it'' & n' & ? & ? & ?); [done|lia|done|].
  exists it'', n'. split_and!; [done..|lia].
Qed.

(** ** All the iterators *)
(** The rows that an iterator returns, from at most [n] rows. *)
Definition source it (outs : list row) (n : nat) : Prop :=
  match it with
  | MultiKeyAggregateMerge a =>
      match ai_out_row a with
      | None => ∃ l, plain (ai_inner a) l ∧ no_panic (ai_filter a) l ∧ agg_rows (ai_aggregate a) (keep (ai_filter a) l) outs ∧ length l ≤ n
      | Some _ => ∃ K m, at_row (ai_filter a) (ai_inner a) K m ∧ agg_rows (ai_aggregate a) K outs ∧ to_come K m ≤ n
      end
  | _ => plain it outs ∧ length outs ≤ n
  end.

Lemma agg_next F fuel agg f it K m outs :
  at_row f it K m → agg_rows agg K outs → to_come K m < fuel →
  match K with
  | [] => outs = [] ∧ plain it []
  | r :: _ => ∃ it1 it2 acc K' m', agg_advance_filtered (inner_advance (S F)) inner_get fuel f it = Ok it1 ∧
      collect_group dfv_mul (inner_advance (S F)) inner_get fuel agg f it1 r = Ok (it2, acc) ∧
      head outs = Some acc ∧ at_row f it2 K' m' ∧ agg_rows agg K' (tail outs) ∧ to_come K' m' < to_come K m
  end.
Proof.
  intros (l & Hg & Hp & Hk & Hnp & Hl & Hnil) Hagg Hfuel. destruct Hagg as [|r K1 acc K' outs Ht Hagg].
  { split; [done|]. by rewrite (Hnil eq_refl) in Hp. }
  cbn [to_come tail] in *. destruct (agg_filtered_ok fuel F f it l) as (it1 & Ha & Hat); [done..|lia|]. rewrite Hk in Hat.
  assert (to_come K1 (pred (length l)) ≤ m) as Hlt.
  { destruct K1 as [|r' K1]; simpl; [lia|]. destruct l; [done|simpl in *; lia]. }
  destruct (collect_group_ok fuel F agg f it1 K1 (pred (length l)) r acc K') as (it2 & m' & ? & ? & ?); [done|lia|done|].
  exists it1, it2, acc, K', m'. split_and!; [done..|lia].
Qed.

Lemma source_step it outs n fuel :
  source it outs n → n + 3 ≤ fuel →
  ∃ it' n', inner_advance fuel it = Ok it' ∧ inner_get it' = Ok (head outs) ∧ source it' (tail outs) n' ∧ n' ≤ n ∧ (outs ≠ [] → n' < n).
Proof.
  intros Hs Hfuel. destruct fuel as [|[|fuel]]; [lia|lia|].
  assert (plain it outs → length outs ≤ n → ∃ it' n', inner_advance (S (S fuel)) it = Ok it' ∧ inner_get it' = Ok (head outs) ∧
    (plain it' (tail outs) ∧ length (tail outs) ≤ n') ∧ n' ≤ n ∧ (outs ≠ [] → n' < n)) as Hplain.
  { intros Hp Hl. destruct (plain_step it outs Hp) as (it' & Ha & Hg & Hp'). exists it', (length (tail outs)). rewrite Ha.
    split_and!; try done; destruct outs; simpl in *; (lia || done). }
  destruct it as [o|m|m|a].
  1-3: destruct Hs as [Hp Hl]; destruct (Hplain Hp Hl) as (it' & n' & Ha & Hg & [Hp' Hl'] & Hn); exists it', n'; split_and!; try done;
    try (by destruct it'); by apply Hn.
  clear Hplain. cbn [source] in Hs.
  change (inner_advance (S (S fuel)) (MultiKeyAggregateMerge a)) with
    (a' ← agg_advance dfv_mul (inner_advance (S fuel)) inner_get (S fuel) a; Ok (MultiKeyAggregateMerge a')).
  unfold agg_advance. destruct a as [inner agg out f]. cbn [ai_inner ai_aggregate ai_out_row ai_filter] in Hs |- *.
  assert (∃ inner1 K m, (match out with None => agg_advance_filtered (inner_advance (S fuel)) inner_get (S fuel) f inner | Some _ => Ok inner end) = Ok inner1 ∧
    at_row f inner1 K m ∧ agg_rows agg K outs ∧ to_come K m ≤ n) as (inner1 & K & m & -> & Hat & Hagg & Hm).
  { destruct out as [r|]; [destruct Hs as (K & m & ? & ? & ?); by exists inner, K, m|].
    destruct Hs as (l & Hp & Hnp & Hagg & Hl). destruct (agg_filtered_ok (S fuel) fuel f inner l) as (it' & ? & ?); [done..|lia|].
    exists it', (keep f l), (pred (length l)). split_and!; [done..|].
    destruct l as [|r l]; [done|]. destruct (keep f (r :: l)); simpl in *; lia. }
  cbn [mbind result_bind]. destruct Hat as (l & Hg & Hat). rewrite Hg. cbn [mbind result_bind].
  pose proof (agg_next fuel (S fuel) agg f inner1 K m outs (ex_intro _ l (conj Hg Hat)) Hagg ltac:(lia)) as Hnext.
  destruct K as [|r K]; cbn [head].
  - destruct Hnext as [-> Hp]. eexists _, 0. split; [reflexivity|]. cbn. split_and!; [done| |lia|done].
    exists []. split_and!; [done| |constructor|done]. intros flt _. constructor.
  - destruct Hnext as (it1 & it2 & acc & K' & m' & -> & Hc & Hh & Hat' & Hagg' & Hlt). cbn [mbind result_bind].
    rewrite Hc. cbn [mbind result_bind].
    eexists _, (to_come K' m'). split; [reflexivity|]. cbn. split_and!; [by rewrite Hh| |lia|lia]. by exists K', m'.
Qed.

(** ** The response *)
Definition filtered f it (L : list row) (n : nat) : Prop := ∃ l, source it l n ∧ keep f l = L ∧ no_panic f l.
#[local] Abbreviation ri_advance_filtered := (ri_advance_filtered dfv_mul).
#[local] Abbreviation skip_offset := (skip_offset dfv_mul).
#[local] Abbreviation into_vec := (into_vec dfv_mul).

Lemma filtered_step fuel f it L n :
  filtered f it L n → n + 4 ≤ fuel →
  ∃ it' n', ri_advance_filtered fuel f it = Ok it' ∧ inner_get it' = Ok (head L) ∧ filtered f it' (tail L) n' ∧ n' ≤ n ∧ (L ≠ [] → n' < n).
Proof.
  revert it L n. induction fuel as [|fuel IH]; intros it L n (l & Hs & <- & Hnp) Hfuel; [lia|]. cbn [Results.ri_advance_filtered].
  destruct (source_step it l n fuel) as (it' & n' & -> & Hg & Hs' & Hn & Hlt); [done|lia|]. cbn [mbind result_bind].
  pose proof (no_panic_tail _ _ Hnp) as Hnp'. destruct f as [flt|].
  2:{ exists it', n'. rewrite keep_none. split_and!; try done. exists (tail l). by rewrite keep_none. }
  rewrite Hg. cbn [mbind result_bind]. destruct l as [|r l]; cbn [head tail] in *.
  { exists it', n'. split_and!; try done. by exists []. }
  rewrite (no_panic_cons flt r l Hnp). cbn [mbind result_bind]. rewrite keep_cons. specialize (Hlt ltac:(done)).
  destruct (kept (Some flt) r).
  - exists it', n'. split_and!; try done. by exists l.
  - destruct (IH it' (keep (Some flt) l) n') as (it'' & n'' & ? & ? & ? & ? & ?); [by exists l|lia|].
    exists it'', n''. split_and!; try done; lia.
Qed.

Lemma skip_offset_ok offset fuel f it L n :
  filtered f it L n → n + 4 ≤ fuel → ∃ it' n', skip_offset fuel f offset it = Ok it' ∧ filtered f it' (drop offset L) n' ∧ n' ≤ n.
Proof.
  revert it L n. induction offset as [|offset IH]; intros it L n Hf Hfuel; cbn [Results.skip_offset]; [by exists it, n|].
  destruct (filtered_step fuel f it L n) as (it' & n' & -> & Hg & Hf' & Hn & _); [done..|]. cbn [mbind result_bind]. rewrite Hg.
  cbn [mbind result_bind]. destruct L as [|r L]; cbn [head tail drop] in *; [by exists it', n'|].
  destruct (IH it' L n') as (it'' & n'' & ? & ? & ?); [done|lia|]. exists it'', n''. split_and!; try done. lia.
Qed.

Definition limit_ok (limit : option Z) : Prop := ∀ m : Z, limit = Some m → (0 <= m <= usize_max)%Z.
Definition limit_take (limit : option Z) (l : list row) : list row := match limit with Some n => take (Z.to_nat n) l | None => l end.
Lemma limit_step limit (r : row) l :
  limit_ok limit →
  let limit' := (λ m : Z, ((m - 1) mod 2 ^ 64)%Z) <$> limit in
  if bool_decide (limit' = Some usize_max) then limit_take limit (r :: l) = []
  else limit_ok limit' ∧ limit_take limit (r :: l) = r :: limit_take limit' l.
Proof.
  intros Hok. destruct limit as [n|]; cbn [fmap option_fmap option_map]; [|by rewrite bool_decide_false].
  specialize (Hok n eq_refl). unfold usize_max in *. destruct (decide (n = 0%Z)) as [->|Hn]; [by rewrite bool_decide_true|].
  rewrite (Z.mod_small (n - 1)) by lia. rewrite bool_decide_false by (intros [=]; lia). split.
  - intros m [= <-]. unfold usize_max. lia.
  - simpl. replace (Z.to_nat n) with (S (Z.to_nat (n - 1))) by lia. done.
Qed.
Lemma limit_take_nil limit : limit_take limit [] = [].
Proof. destruct limit; [apply take_nil|done]. Qed.

(** After the first row, or without a row to return instead of none. *)
Lemma into_vec_rest fuel ri L n :
  ri_offset ri = None → (ri_non_empty ri = true ∨ ri_default_row ri = None) → limit_ok (ri_limit ri) →
  filtered (ri_filter ri) (ri_inner ri) L n → n + 6 ≤ fuel →
  into_vec fuel ri = Ok (truncate (ri_cols ri) <$> limit_take (ri_limit ri) L).
Proof.
  revert fuel ri n. induction L as [|r L IH]; intros fuel ri n Ho Hd Hlim Hf Hfuel; (destruct fuel as [|fuel]; [lia|]);
    cbn [Results.into_vec]; unfold ri_advance; rewrite Ho; cbn [mbind result_bind];
    destruct (filtered_step fuel (ri_filter ri) (ri_inner ri) _ n Hf) as (it' & n' & -> & Hg & Hf' & Hn & Hlt); try lia;
    cbn [mbind result_bind]; unfold ri_get; cbn [ri_limit ri_inner ri_default_row ri_cols].
  - rewrite limit_take_nil. case_bool_decide; [done|]. rewrite Hg. cbn [mbind result_bind head].
    assert ((if ri_non_empty ri then None else ri_default_row ri) = None) as -> by (destruct Hd as [-> | ->]; [done|by destruct (ri_non_empty ri)]).
    done.
  - pose proof (limit_step (ri_limit ri) r L Hlim) as Hst. cbv zeta in Hst. case_bool_decide; [by rewrite Hst|].
    destruct Hst as [Hlim' ->]. rewrite Hg. cbn [mbind result_bind head fmap option_fmap option_map]. specialize (Hlt ltac:(done)).
    rewrite (IH fuel _ n'); [done|done|by left|done|done|lia].
Qed.

(** What a response shows of some rows: the default row if there are none. *)
Definition or_default (default_row : option row) (rows : list row) : list row :=
  match rows with [] => option_list default_row | _ => rows end.
Definition response (limit : option Z) (offset : option nat) (default_row : option row) (l : list row) : list row :=
  limit_take limit (or_default default_row (drop (default 0 offset) l)).

Lemma into_vec_ok fuel inner limit offset default_row f cols L n :
  filtered f inner L n → limit_ok limit → n + 8 ≤ fuel →
  into_vec fuel {| ri_inner := inner; ri_limit := limit; ri_offset := offset; ri_default_row := default_row;
                   ri_non_empty := false; ri_filter := f; ri_cols := cols |} =
    Ok (truncate cols <$> response limit offset default_row L).
Proof.
  intros Hf Hlim Hfuel. destruct fuel as [|fuel]; [lia|]. cbn [Results.into_vec]. unfold ri_advance. cbn [ri_offset ri_filter ri_inner ri_limit].
  assert (∃ it1 n1, (match offset with Some o => skip_offset fuel f o inner | None => Ok inner end) = Ok it1 ∧
    filtered f it1 (drop (default 0 offset) L) n1 ∧ n1 ≤ n) as (it1 & n1 & -> & Hf1 & Hn1).
  { destruct offset as [o|]; [|by exists inner, n]. apply skip_offset_ok; [done|lia]. }
  cbn [mbind result_bind]. unfold response. set (rows := drop (default 0 offset) L) in *.
  destruct (filtered_step fuel f it1 rows n1 Hf1) as (it2 & n2 & -> & Hg & Hf2 & Hn2 & _); [lia|].
  cbn [mbind result_bind]. unfold ri_get. cbn [ri_limit ri_inner ri_default_row ri_cols ri_non_empty].
  assert (match head rows with Some r => Some r | None => default_row end = head (or_default default_row rows) ∧
    limit_take None (tail rows) = tail (or_default default_row rows)) as [Hhead Htail].
  { destruct rows; [by destruct default_row|done]. }
  set (shown := or_default default_row rows) in *.
  rewrite Hg. cbn [mbind result_bind]. rewrite Hhead. destruct shown as [|r shown]; cbn [head tail limit_take] in *.
  { rewrite limit_take_nil. by case_bool_decide. }
  pose proof (limit_step limit r shown Hlim) as Hst. cbv zeta in Hst. case_bool_decide; [by rewrite Hst|]. destruct Hst as [Hlim' ->].
  cbn [fmap option_fmap option_map]. subst shown.
  rewrite (into_vec_rest fuel _ (tail rows) n2); [done|done|by left|done|done|lia].
Qed.

(** *** Groups *)
Section groups.
Context (agg : PostLookupAggregates).
#[local] Abbreviation gb := (pla_group_by agg).
Definition wide r : Prop := Forall (λ c, c < length r) gb.
Context (Hcols : Forall (λ a, pla_column a ∉ gb) (pla_aggregates agg)).

Lemma same_group a r : wide a → wide r → other_group gb a r = negb (bool_decide (cols_at gb a = cols_at gb r)).
Proof.
  unfold wide, other_group. clear Hcols. generalize gb. intros cols. induction cols as [|c cols IH]; intros Ha Hr; [done|].
  apply Forall_cons in Ha as [Hca Ha]. apply Forall_cons in Hr as [Hcr Hr]. cbn [existsb]. rewrite IH by done. unfold cols_at. csimpl.
  destruct (lookup_lt_is_Some_2 a c Hca) as [x ->]. destruct (lookup_lt_is_Some_2 r c Hcr) as [y ->].
  repeat case_bool_decide; simpl; (done || congruence).
Qed.
Lemma combine_keeps a r acc : combine dfv_mul (pla_aggregates agg) a r = Ok acc → cols_at gb acc = cols_at gb a ∧ length acc = length a.
Proof using Hcols.
  unfold combine. generalize (pla_aggregates agg), Hcols. intros ags Hags. revert a.
  induction Hags as [|ag ags Hag _ IH]; intros a; cbn [result_foldl]; [by intros [= ->]|].
  destruct (a !! pla_column ag) as [x|]; cbn [expect mbind result_bind]; [|done].
  destruct (r !! pla_column ag) as [y|]; cbn [expect mbind result_bind]; [|done].
  destruct (function_apply dfv_mul (pla_function ag) x y) as [v| |]; cbn [mbind result_bind]; [|done..].
  intros [-> ->]%IH. rewrite length_insert. split; [|done]. apply cols_at_ext. intros c Hc.
  apply list_lookup_insert_ne. by intros <-.
Qed.

Definition fold_group (g : list row) : result row :=
  match g with [] => Panic | r :: g => result_foldl (combine dfv_mul (pla_aggregates agg)) r g end.
Definition keyed_rows (l : list row) : list (row * row) := (λ r, (cols_at gb r, r)) <$> l.

Lemma take_group_fold g k acc out l :
  wide acc → Forall wide (g ++ l) → cols_at gb acc = k → Forall (λ r, cols_at gb r = k) g → (∀ r, head l = Some r → cols_at gb r ≠ k) →
  result_foldl (combine dfv_mul (pla_aggregates agg)) acc g = Ok out → take_group agg acc (g ++ l) = Ok (out, l).
Proof using Hcols.
  revert acc. induction g as [|r g IH]; intros acc Ha Hw Hk Hg Hl; cbn [result_foldl app].
  - intros [= <-]. destruct l as [|r l]; [done|]. cbn [take_group]. apply Forall_cons in Hw as [Hr _].
    rewrite same_group by done. rewrite bool_decide_false; [done|]. rewrite Hk. intros Heq. by apply (Hl r).
  - apply Forall_cons in Hw as [Hr Hw]. apply Forall_cons in Hg as [Hkr Hg]. cbn [take_group].
    rewrite same_group by done. rewrite bool_decide_true by congruence. cbn [negb].
    destruct (combine dfv_mul (pla_aggregates agg) acc r) as [acc'| |] eqn:Ec; cbn [mbind result_bind]; [|done..].
    apply combine_keeps in Ec as [Hc Hlen]. apply IH; [|done|congruence|done|done]. unfold wide. by rewrite Hlen.
Qed.
Lemma groups_agg_rows K outs :
  Forall wide K → result_mapM fold_group (group_adjacent (keyed_rows K)).*2 = Ok outs → agg_rows agg K outs.
Proof using Hcols.
  remember (length K) as n eqn:Hn. revert K outs Hn. induction (lt_wf n) as [n _ IH]. intros K outs -> Hw.
  destruct (group_adjacent (keyed_rows K)) as [|[k g] gs] eqn:E.
  { intros [= <-]. destruct K as [|r K]; [constructor|]. cbn in E. destruct (group_adjacent _) as [|[? ?] ?]; [done|]. by case_decide. }
  destruct (group_adjacent_split _ _ _ _ E) as (kl & HK & -> & Hh).
  destruct g as [|r g].
  { exfalso. eapply (group_adjacent_nonempty (keyed_rows K) k). rewrite E. apply elem_of_here. }
  assert (∃ K', K = (r :: g) ++ K' ∧ kl = keyed_rows K' ∧ Forall (λ r, cols_at gb r = k) (r :: g)) as (K' & -> & -> & Hg).
  { clear -HK. revert HK. generalize (r :: g) as g0. intros g0. revert K. induction g0 as [|r0 g0 IH]; intros K HK.
    - exists K. by split_and!.
    - destruct K as [|r1 K]; [done|]. injection HK as Hk -> HK. destruct (IH K HK) as (K' & -> & -> & Hg).
      exists K'. split_and!; [done..|by constructor]. }
  csimpl. destruct (result_foldl _ r g) as [acc| |] eqn:Ef; cbn [mbind result_bind]; [|done..].
  destruct (result_mapM fold_group _) as [outs'| |] eqn:Em; cbn [mbind result_bind]; [|done..]. intros [= <-].
  pose proof Hw as [Hr Hw']%Forall_cons. apply Forall_cons in Hg as [Hk Hg].
  econstructor; [eapply (take_group_fold g k); [done..| |exact Ef]|].
  - intros r' Hr'. destruct K' as [|r1 K']; [done|]. injection Hr' as ->. by apply (Hh (cols_at gb r', r')).
  - eapply IH; [|done| |exact Em]; [rewrite length_app; simpl; lia|]. by apply Forall_app in Hw' as [_ ?].
Qed.
End groups.

(** *** Theorems *)
Definition effective_limit (pl : PostLookup V) (adapter_limit : option Z) : option Z :=
  match adapter_limit with Some m => Some m | None => pl_limit pl end.
Definition response_cols (pl : PostLookup V) : Z :=
  match pl_returned_cols pl with Some cols => Z.of_nat (length cols) | None => usize_max end.
(** The sets of rows as a reader keeps them. *)
Definition sets_sorted (o : Order) data : Prop :=
  Forall (λ r, order_fits o r = true) (concat data) ∧ Forall (StronglySorted (ole o)) data.

Lemma assert_sorted_ok o data : sets_sorted o data → assert_sorted o data = Ok ().
Proof.
  intros [Hf Hs]. unfold assert_sorted, order_check. rewrite (proj2 (forallb_forall (order_fits o) _)).
  2:{ intros x Hx%list_elem_of_In. rewrite Forall_forall in Hf. by apply Hf. }
  rewrite orb_true_r. cbn [mbind result_bind]. rewrite (proj2 (forallb_forall _ _)); [done|]. intros l Hl%list_elem_of_In.
  rewrite Forall_forall in Hs. specialize (Hs l Hl). clear -Hs. induction Hs as [|a l Hs IH Ha]; [done|].
  cbn [is_sorted_by]. destruct l as [|b l]; [done|]. apply Forall_cons in Ha as [Ha _]. unfold ole in Ha.
  rewrite IH. by destruct (order_cmp o a b).
Qed.
Lemma filtered_all f it l n : source it l n → no_panic f l → filtered f it (keep f l) n.
Proof. intros Hs Hn. by exists l. Qed.
Lemma no_panic_perm f l l' : l ≡ₚ l' → no_panic f l' → no_panic f l.
Proof. intros Hp Hn flt Hf. rewrite Hp. by apply Hn. Qed.

Lemma results_answer_ok fuel data (pl : PostLookup V) adapter_limit offset f :
  pl_aggregates pl = None → no_panic f (concat data) → limit_ok (effective_limit pl adapter_limit) →
  (∀ o, pl_order_by pl = Some o → sets_sorted o data) → length (concat data) + 8 ≤ fuel →
  ∃ ri l, ri_new dfv_mul fuel data pl adapter_limit offset f = Ok ri ∧
    match pl_order_by pl with Some o => l ≡ₚ concat data ∧ StronglySorted (ole o) l | None => l = concat data end ∧
    into_vec fuel ri = Ok (truncate (response_cols pl) <$>
      response (effective_limit pl adapter_limit) offset (pl_default_row pl) (keep f l)).
Proof.
  intros Hagg Hnp Hlim Hsort Hfuel. unfold ri_new. rewrite Hagg. destruct (pl_order_by pl) as [o|].
  - rewrite assert_sorted_ok by (by apply Hsort). cbn [mbind result_bind].
    destruct (merge_plain data o) as (l & Hpl & Hp & Hs); [by apply Hsort|]. eexists _, l. split; [reflexivity|]. split; [done|].
    eapply (into_vec_ok _ _ _ _ _ _ _ _ (length l)); [|done|by rewrite Hp]. apply filtered_all; [by split|]. by eapply no_panic_perm.
  - eexists _, (concat data). split; [reflexivity|]. split; [done|].
    eapply (into_vec_ok _ _ _ _ _ _ _ _ (length (concat data))); [|done|done]. apply filtered_all; [|done].
    split; [apply multi_key_plain|done].
Qed.

(** C15: Without aggregates a response holds the rows of the sets in the order asked for,
    those that the filter keeps: from the offset on, and not more than the limit, or the
    default row if there are none. *)
Theorem results_answer fuel data (pl : PostLookup V) adapter_limit offset f :
  pl_aggregates pl = None → no_panic f (concat data) → limit_ok (effective_limit pl adapter_limit) →
  (∀ o, pl_order_by pl = Some o → sets_sorted o data) → length (concat data) + 8 ≤ fuel →
  ∃ ri l, ri_new dfv_mul fuel data pl adapter_limit offset f = Ok ri ∧
    match pl_order_by pl with Some o => l ≡ₚ concat data ∧ StronglySorted (ole o) l | None => l = concat data end ∧
    into_vec fuel ri = Ok (truncate (response_cols pl) <$>
      response (effective_limit pl adapter_limit) offset (pl_default_row pl) (keep f l)).
Proof. apply results_answer_ok. Qed.

Lemma ascending_cmp cols (a b : row) :
  Forall (λ c, c < length a) cols → Forall (λ c, c < length b) cols →
  order_cmp (ascending cols) a b = cmp (cols_at cols a) (cols_at cols b).
Proof.
  intros Ha. induction Ha as [|c cols Hc Ha IH]; intros Hb; [done|]. apply Forall_cons in Hb as [Hcb Hb].
  destruct (lookup_lt_is_Some_2 a c Hc) as [x Hx]. destruct (lookup_lt_is_Some_2 b c Hcb) as [y Hy].
  unfold ascending, cols_at. csimpl. rewrite Hx, Hy. cbn [default]. fold (ascending cols). rewrite IH by done. done.
Qed.

(** *** Aggregates *)
Lemma sets_wide agg data : sets_sorted (ascending (pla_group_by agg)) data → Forall (wide agg) (concat data).
Proof.
  intros [Hf _]. eapply Forall_impl; [exact Hf|]. intros r Hr.
  unfold order_fits, ascending in Hr. rewrite forallb_forall in Hr. apply Forall_forall. intros c Hc.
  specialize (Hr (c, OrderAscending)). apply Nat.ltb_lt, Hr, list_elem_of_In, list_elem_of_fmap. by exists c.
Qed.

(** The groups of the rows that a filter keeps. *)
Definition groups_of agg f l : list (row * list row) := group_adjacent (keyed_rows agg (keep f l)).
Lemma sorted_groups agg f l :
  Forall (wide agg) l → StronglySorted (ole (ascending (pla_group_by agg))) l →
  StronglySorted (λ a b, cmp a b = Lt) (groups_of agg f l).*1 ∧
  ∀ k g, (k, g) ∈ groups_of agg f l → g = filter (λ r, cols_at (pla_group_by agg) r = k) (keep f l).
Proof.
  intros Hw0 Hs. assert (Forall (wide agg) (keep f l)) as Hw by (by apply Forall_filter_keep).
  assert (sorted_keys (keyed_rows agg (keep f l))) as Hsk.
  { assert (StronglySorted (ole (ascending (pla_group_by agg))) (keep f l)) as Hsf.
    { clear -Hs. unfold keep. induction Hs as [|r l Hs IH Hr]; [constructor|]. rewrite filter_cons. case_decide; [|done].
      constructor; [done|]. by apply Forall_filter_keep. }
    clear -Hsf Hw. unfold sorted_keys, keyed_rows. induction Hsf as [|r l' Hs IH Hr]; [constructor|].
    apply Forall_cons in Hw as [Hwr Hw]. csimpl. constructor; [by apply IH|]. apply Forall_fmap, Forall_forall. intros r' Hr'. simpl.
    rewrite Forall_forall in Hr. specialize (Hr r' Hr'). unfold ole in Hr. rewrite ascending_cmp in Hr; [done|done|].
    rewrite Forall_forall in Hw. by apply Hw. }
  destruct (group_adjacent_sorted _ Hsk) as [Hkeys Hgs]. split; [done|].
  intros k g Hin. rewrite (Hgs k g Hin). unfold keyed_rows. clear. induction (keep f l) as [|r l' IH]; [done|].
  csimpl. rewrite !filter_cons. csimpl. rewrite <-IH. by case_decide.
Qed.
(** The rows of the iterator that aggregates. *)
Lemma aggregate_filtered agg f inner l outs :
  Forall (λ a, pla_column a ∉ pla_group_by agg) (pla_aggregates agg) → plain inner l → no_panic f l → Forall (wide agg) l →
  result_mapM (fold_group agg) (groups_of agg f l).*2 = Ok outs →
  filtered None (aggregate_iter inner agg f) outs (length l).
Proof.
  intros Hcols Hpl Hnp Hw Houts. rewrite <-(keep_none outs). apply filtered_all; [|by intros flt [=]].
  cbn [aggregate_iter source ai_out_row ai_inner ai_filter ai_aggregate]. exists l. split_and!; [done|done| |done].
  apply groups_agg_rows; [done|by apply Forall_filter_keep|done].
Qed.

(** C16: With aggregates and no order there is one row for each group of the rows that the
    filter keeps, in the order of the groups, or one row for all of them if the query has
    no GROUP BY: the rows of the group, combined by the aggregate functions, from the
    offset on and up to the limit.  (If one of the functions fails on a value the
    response panics.) *)
Theorem results_aggregate fuel data (pl : PostLookup V) agg adapter_limit offset f :
  pl_order_by pl = None → pl_aggregates pl = Some agg →
  Forall (λ a, pla_column a ∉ pla_group_by agg) (pla_aggregates agg) →
  no_panic f (concat data) → limit_ok (effective_limit pl adapter_limit) →
  sets_sorted (ascending (pla_group_by agg)) data → length (concat data) + 8 ≤ fuel →
  ∃ ri l, ri_new dfv_mul fuel data pl adapter_limit offset f = Ok ri ∧ l ≡ₚ concat data ∧
    StronglySorted (λ a b, cmp a b = Lt) (groups_of agg f l).*1 ∧
    (∀ k g, (k, g) ∈ groups_of agg f l → g = filter (λ r, cols_at (pla_group_by agg) r = k) (keep f l)) ∧
    ∀ outs, result_mapM (fold_group agg) (groups_of agg f l).*2 = Ok outs →
      into_vec fuel ri = Ok (truncate (response_cols pl) <$>
        response (effective_limit pl adapter_limit) offset (pl_default_row pl) outs).
Proof.
  intros Ho Hagg Hcols Hnp Hlim Hsort Hfuel. pose proof (sets_wide agg data Hsort) as Hw.
  assert (∃ inner l, plain inner l ∧ l ≡ₚ concat data ∧ StronglySorted (ole (ascending (pla_group_by agg))) l ∧
    ri_new dfv_mul fuel data pl adapter_limit offset f = Ok {| ri_inner := aggregate_iter inner agg f;
      ri_limit := effective_limit pl adapter_limit; ri_offset := offset; ri_default_row := pl_default_row pl;
      ri_non_empty := false; ri_filter := None; ri_cols := response_cols pl |}) as (inner & l & Hpl & Hp & Hs & Hri).
  { unfold ri_new. rewrite Ho, Hagg. destruct (pla_group_by agg) as [|c gb] eqn:Egb.
    - exists (MultiKey (multi_key_new data)), (concat data). split_and!; [apply multi_key_plain|done| |done].
      clear. induction (concat data); constructor; [done|]. by apply Forall_true.
    - rewrite <-Egb in *. rewrite assert_sorted_ok by done. cbn [mbind result_bind].
      destruct (merge_plain data (ascending (pla_group_by agg))) as (l & Hpl & Hp & Hs); [apply Hsort|].
      exists (MultiKeyMerge (merge_new data (ascending (pla_group_by agg)))), l. by split_and!. }
  exists {| ri_inner := aggregate_iter inner agg f;
      ri_limit := effective_limit pl adapter_limit; ri_offset := offset; ri_default_row := pl_default_row pl;
      ri_non_empty := false; ri_filter := None; ri_cols := response_cols pl |}, l.
  rewrite <-Hp in Hw. destruct (sorted_groups agg f l Hw Hs) as [Hkeys Hgs]. split_and!; [done..|].
  intros outs Houts. apply (into_vec_ok _ _ _ _ _ _ _ _ (length l)); [|done|by rewrite Hp].
  apply aggregate_filtered; [done|done|by eapply no_panic_perm|done|done].
Qed.

Lemma truncate_twice c r : truncate c (truncate c r) = truncate c r.
Proof.
  unfold truncate. destruct (Z.leb_spec (Z.of_nat (length r)) c) as [Hle|Hgt]; [by rewrite (proj2 (Z.leb_le _ _))|].
  rewrite length_take. destruct (Z.leb_spec (Z.of_nat (Nat.min (Z.to_nat c) (length r))) c); [done|].
  by rewrite take_take, Nat.min_id.
Qed.
Lemma groups_fewer agg f l : length (groups_of agg f l) ≤ length l.
Proof.
  assert (∀ kl : list (row * row), length (group_adjacent kl) ≤ length kl) as Hg.
  { induction kl as [|[k x] kl IH]; [done|]. cbn [group_adjacent]. destruct (group_adjacent kl) as [|[k' g] gs]; simpl in *; [lia|].
    case_decide; simpl; lia. }
  unfold groups_of. etrans; [apply Hg|]. unfold keyed_rows, keep. rewrite length_fmap. apply length_filter.
Qed.
Lemma owned_vec fuel results :
  length results + 8 ≤ fuel →
  into_vec fuel (ri_owned [{| res_results := results; res_stats := None |}]) = Ok (truncate usize_max <$> results).
Proof.
  intros Hfuel. unfold ri_owned.
  rewrite (into_vec_ok _ _ None None None None usize_max results (length results)); [|rewrite <-(keep_none results) at 2|done|done].
  - unfold response. cbn [limit_take default drop]. by destruct results.
  - apply filtered_all; [|by intros flt [=]]. split; [|done]. cbn. by rewrite app_nil_r.
Qed.

(** C39: With aggregates and an order the response is made in another order than the query
    asks for.  The limit is applied to the groups, in the order of the groups, and only
    these are sorted; of the sorted rows those before the offset are returned, and an
    offset beyond them panics; the columns are not cut to those that were asked for. *)
Theorem order_after_limit fuel data (pl : PostLookup V) order_by agg adapter_limit offset f :
  pl_order_by pl = Some order_by → pl_aggregates pl = Some agg →
  Forall (λ a, pla_column a ∉ pla_group_by agg) (pla_aggregates agg) →
  no_panic f (concat data) → limit_ok (effective_limit pl adapter_limit) →
  sets_sorted (ascending (pla_group_by agg)) data → length (concat data) + 9 ≤ fuel →
  ∃ l, l ≡ₚ concat data ∧
    StronglySorted (λ a b, cmp a b = Lt) (groups_of agg f l).*1 ∧
    (∀ k g, (k, g) ∈ groups_of agg f l → g = filter (λ r, cols_at (pla_group_by agg) r = k) (keep f l)) ∧
    ∀ outs, result_mapM (fold_group agg) (groups_of agg f l).*2 = Ok outs →
      let first := truncate usize_max <$> response (effective_limit pl adapter_limit) None (pl_default_row pl) outs in
      Forall (λ r, order_fits order_by r = true) first →
      (ri ← ri_new dfv_mul fuel data pl adapter_limit offset f; into_vec fuel ri) =
        match offset with
        | None => Ok (sort_by (order_cmp order_by) first)
        | Some n => if n <=? length first then Ok (take n (sort_by (order_cmp order_by) first)) else Panic
        end.
Proof.
  intros Ho Hagg Hcols Hnp Hlim Hsort Hfuel. pose proof (sets_wide agg data Hsort) as Hw.
  destruct (merge_plain data (ascending (pla_group_by agg))) as (l & Hpl & Hp & Hs); [apply Hsort|].
  rewrite <-Hp in Hw. destruct (sorted_groups agg f l Hw Hs) as [Hkeys Hgs]. exists l. split_and!; [done..|].
  intros outs Houts first Hfits. unfold ri_new. rewrite Ho, Hagg, assert_sorted_ok by done. cbn [mbind result_bind].
  rewrite (into_vec_ok fuel _ (effective_limit pl adapter_limit) None (pl_default_row pl) None usize_max outs (length l));
    [|apply aggregate_filtered; [done|done|by eapply no_panic_perm|done|done]|done|rewrite Hp; lia].
  cbn [mbind result_bind]. fold first.
  assert (order_check order_by first = Ok ()) as ->.
  { unfold order_check. rewrite (proj2 (forallb_forall (order_fits order_by) _)); [by rewrite orb_true_r|].
    intros x Hx%list_elem_of_In. rewrite Forall_forall in Hfits. by apply Hfits. }
  cbn [mbind result_bind]. set (sorted := sort_by (order_cmp order_by) first).
  assert (sorted ≡ₚ first) as Hsp by apply sort_by_perm.
  assert (length sorted ≤ S (length l)) as Hlen.
  { rewrite Hsp. unfold first. rewrite length_fmap. unfold response. change (drop (default 0 None) outs) with outs.
    apply result_mapM_inv, Forall2_length in Houts. rewrite length_fmap in Houts. pose proof (groups_fewer agg f l).
    assert (length (or_default (pl_default_row pl) outs) ≤ S (length l)) as Hd.
    { destruct outs; simpl in *; [|lia]. destruct (pl_default_row pl); simpl; lia. }
    destruct (effective_limit pl adapter_limit); cbn [limit_take]; [rewrite length_take; lia|done]. }
  assert (∀ n, take n (truncate usize_max <$> sorted) = take n sorted) as Htr.
  { intros n. f_equal. assert (Forall (λ r, truncate usize_max r = r) sorted) as Hf.
    { rewrite Hsp. apply Forall_fmap, Forall_true. intros r. apply truncate_twice. }
    clear -Hf. induction Hf as [|r rs Hr _ IH]; [done|]. by rewrite fmap_cons, Hr, IH. }
  destruct offset as [n|]; cbn [mbind result_bind].
  - assert (length sorted = length first) as Hsl by (by rewrite Hsp). unfold drain_from. rewrite Hsl.
    destruct (Nat.leb_spec n (length first)); [|done]. cbn [mbind result_bind].
    rewrite owned_vec by (rewrite length_take; rewrite Hp in Hlen; lia). by rewrite fmap_take, Htr.
  - rewrite owned_vec by (rewrite Hp in Hlen; lia). specialize (Htr (length sorted)). rewrite !take_ge in Htr; [by rewrite Htr|lia|].
    by rewrite length_fmap.
Qed.
End results_props.

(** ** Evaluation *)
Definition agg_mul : AggVal → AggVal → result AggVal := agg_arith (λ x y, i64_checked (x * y)).
Definition sums : PostLookupAggregates :=
  {| pla_group_by := [0]; pla_aggregates := [{| pla_column := 1; pla_function := PlSum |}] |}.
Definition lookup_with (order_by : option Order) (limit : option Z) (aggregates : option PostLookupAggregates) : PostLookup AggVal :=
  {| pl_order_by := order_by; pl_limit := limit; pl_returned_cols := None; pl_default_row := None; pl_aggregates := aggregates |}.
(** The counts of two keys, each of one group. *)
Definition two_keys : list (list (list AggVal)) := [[[AInt 1; AInt 5]]; [[AInt 2; AInt 9]]].
Definition by_sum : Order := [(1, OrderDescending)].

(** The first row in the descending order of sums is the second group's, but a limit of
    one row leaves the first group. *)
Lemma order_after_limit_witness :
  (ri ← ri_new agg_mul 20 two_keys (lookup_with (Some by_sum) (Some 1%Z) (Some sums)) None None None; into_vec agg_mul 20 ri)
    = Ok [[AInt 1; AInt 5]].
Proof.
  destruct (order_after_limit agg_mul 20 two_keys (lookup_with (Some by_sum) (Some 1%Z) (Some sums)) by_sum sums None None None)
    as (l & Hl & Hs & _ & Hv).
  - done.
  - done.
  - constructor; [|constructor]. simpl. set_solver.
  - by intros flt.
  - intros m [= <-]. unfold usize_max. lia.
  - split; repeat constructor; vm_compute; congruence.
  - simpl. lia.
  - apply Permutation_sym, Permutation_length_2_inv in Hl as [->| ->].
    + exact (Hv [[AInt 1; AInt 5]; [AInt 2; AInt 9]] eq_refl ltac:(by repeat constructor)).
    + inversion_clear Hs as [|? ? _ Hlt]. inversion_clear Hlt as [|? ? Hc]. vm_compute in Hc. congruence.
Defined.

(** There the offset removes the rows after it instead of those before: the response
    with offset 1 is the row that it should skip, and a larger offset than there are
    rows panics. *)
Theorem offset_keeps_head :
  (ri ← ri_new agg_mul 20 two_keys (lookup_with (Some by_sum) None (Some sums)) None (Some 1) None; into_vec agg_mul 20 ri)
    = Ok [[AInt 2; AInt 9]] ∧
  ri_new agg_mul 20 two_keys (lookup_with (Some by_sum) None (Some sums)) None (Some 3) None = Panic.
Proof. split; vm_compute; reflexivity. Qed.

(** The second of the rows of two keys in the order of their values. *)
Definition by_value : Order := [(1, OrderAscending)].
Definition two_values : list (list (list AggVal)) := [[[AInt 1; AInt 5]]; [[AInt 2; AInt 4]]].
Lemma results_answer_witness : ∃ ri,
  ri_new agg_mul 20 two_values (lookup_with (Some by_value) (Some 2%Z) None) None (Some 1) None = Ok ri ∧
  into_vec agg_mul 20 ri = Ok [[AInt 1; AInt 5]].
Proof.
  destruct (results_answer agg_mul 20 two_values (lookup_with (Some by_value) (Some 2%Z) None) None (Some 1) None)
    as (ri & l & Hri & Hl & Hv).
  - done.
  - by intros flt.
  - intros m [= <-]. unfold usize_max. lia.
  - intros o [= <-]. split; repeat constructor; vm_compute; congruence.
  - simpl. lia.
  - exists ri. split; [exact Hri|]. destruct Hl as [Hl Hs].
    apply Permutation_sym, Permutation_length_2_inv in Hl as [->| ->]; [|exact Hv].
    inversion_clear Hs as [|? ? _ Hlt]. inversion_clear Hlt as [|? ? Hc]. vm_compute in Hc. congruence.
Defined.

Definition one_group : list (list (list AggVal)) := [[[AInt 1; AInt 5]]; [[AInt 1; AInt 4]]].
Lemma results_aggregate_witness : ∃ ri,
  ri_new agg_mul 20 one_group (lookup_with None None (Some sums)) None None None = Ok ri ∧
  into_vec agg_mul 20 ri = Ok [[AInt 1; AInt 9]].
Proof.
  destruct (results_aggregate agg_mul 20 one_group (lookup_with None None (Some sums)) sums
    None None None) as (ri & l & Hri & Hl & _ & _ & Hv).
  - done.
  - done.
  - constructor; [|constructor]. simpl. set_solver.
  - by intros flt.
  - by intros m.
  - split; repeat constructor; vm_compute; congruence.
  - simpl. lia.
  - exists ri. split; [exact Hri|].
    apply Permutation_sym, Permutation_length_2_inv in Hl as [->| ->]; exact (Hv [[AInt 1; AInt 9]] eq_refl).
Defined.
