(* ===== verification/ReadQuery.v ===== *)
(** * ReadQuery: serving reads

    Models the request handler of [readyset-server/src/worker/readers.rs] and the read
    handle of a reader, [SingleReadHandle] of [readyset-dataflow/src/backlog/mod.rs]: a
    query is answered from the reader if it holds all the keys, and is recent enough;
    otherwise replays are triggered for the keys that are missing, and the query waits
    ([BlockingRead]) to be checked again.

    Serialized responses are their rows: the encoding is that of the bincode library.
    The time that has passed is an argument of [check]. *)
From stdpp Require Import gmap.
From S2P Require Import Prelude Intervals BTreeMap IntervalTree PartialMap Result Records OpLinear Keys Crates KeyedState Timestamp Effects.
From S2P Require Import OpGrouped OpAggregate OpTopK InsertionOrder Eviction ReaderMap ReaderMapProps Backlog Tournament Results.

Section read_query.
Context `{DfArith V} `{Ord K} `{!ReaderKey V K} {HM W : Type} `{!HashMap K (list (list V)) HM}.
#[local] Abbreviation RInner := (Inner K (list V) HM Z Timestamp PreInsertion).
#[local] Abbreviation ROp := (Operation K (list V) Z Timestamp).
Context `{!LeftRight RInner ROp W}.
Context (dfv_mul : V → V → result V).
#[local] Abbreviation Key := (KeyComparison V).

(** ** [SingleReadHandle] *)
(** Whether misses can be replayed, the epochs that were sent and not received yet, and
    whether the write handle is gone. *)
Record SingleReadHandle := {
  rh_handle : W;
  rh_trigger : bool;
  rh_post_lookup : PostLookup V;
  rh_receiver : list nat;
  rh_eviction_epoch : nat;
  rh_was_dropped : bool;
}.
Implicit Types (r : SingleReadHandle) (keys : list Key).

(** [Clone]: the receiver is subscribed anew. *)
Definition rh_clone r : SingleReadHandle :=
  {| rh_handle := rh_handle r; rh_trigger := rh_trigger r; rh_post_lookup := rh_post_lookup r; rh_receiver := [];
     rh_eviction_epoch := rh_eviction_epoch r; rh_was_dropped := rh_was_dropped r |}.
Definition rh_get_multi r keys : result (list (list (list V)) + LookupError V) :=
  read_get_multi (K:=K) (HM:=HM) (rh_trigger r) (rh_handle r) keys.
Definition rh_timestamp r : option Timestamp :=
  match handle_timestamp (K:=K) (A:=list V) (HM:=HM) (M:=Z) (T:=Timestamp) (I:=PreInsertion) (rh_handle r) with
  | inl t => Some t | inr _ => None end.
(** [eviction_epoch]: the last epoch received, and the handle after it is. *)
Definition rh_receive r : nat * SingleReadHandle :=
  let epoch := default (rh_eviction_epoch r) (last (rh_receiver r)) in
  (epoch, {| rh_handle := rh_handle r; rh_trigger := rh_trigger r; rh_post_lookup := rh_post_lookup r; rh_receiver := [];
             rh_eviction_epoch := epoch; rh_was_dropped := rh_was_dropped r |}).

(** ** Queries and replies *)
Record ViewQuery := {
  vq_key_comparisons : list Key;
  vq_block : bool;
  vq_filter : option (Filter V);
  vq_limit : option Z;
  vq_offset : option nat;
  vq_timestamp : option Timestamp;
}.
Inductive ServerReadReplyBatch :=
  | Serialized (rows : list (list V))
  | Unserialized (ri : ResultIterator (V:=V)).
(** The statistics of the results of a lookup are the defaults here. *)
Inductive LookupResult := NonBlockingMiss | LookupResults (batches : list ServerReadReplyBatch).
(** [ReadReply::Normal], with its tag. *)
Record Reply := { rp_tag : nat; rp_result : LookupResult + ReadySetError }.

Record BlockingRead := {
  br_tag : nat;
  br_target : nat;
  br_key_comparisons : list Key;
  br_limit : option Z;
  br_offset : option nat;
  br_filter : option (Filter V);
  br_warned : bool;
  br_timestamp : option Timestamp;
  br_raw_result : bool;
  br_notified : bool;
  br_eviction_epoch : nat;
}.

(** The handler: its cached read handles, the queue of reads that wait, if there is
    still someone to take them, and the replays that were triggered. *)
Record ReadRequestHandler := {
  rq_readers_cache : gmap nat SingleReadHandle;
  rq_wait : option (list BlockingRead);
  rq_triggered : list (nat * list Key);
}.
Definition set_cache (c : gmap nat SingleReadHandle) (h : ReadRequestHandler) : ReadRequestHandler :=
  {| rq_readers_cache := c; rq_wait := rq_wait h; rq_triggered := rq_triggered h |}.
Definition set_wait (q : option (list BlockingRead)) (h : ReadRequestHandler) : ReadRequestHandler :=
  {| rq_readers_cache := rq_readers_cache h; rq_wait := q; rq_triggered := rq_triggered h |}.
Definition log_trigger (target : nat) keys (h : ReadRequestHandler) : ReadRequestHandler :=
  {| rq_readers_cache := rq_readers_cache h; rq_wait := rq_wait h; rq_triggered := rq_triggered h ++ [(target, keys)] |}.

(** [SingleReadHandle::trigger]; the answer of the trigger is an argument. *)
Definition rh_trigger_keys (accepted : list Key → bool) (target : nat) r keys : eff ReadRequestHandler bool :=
  if rh_trigger r then _ ← modify (log_trigger target keys); mret (accepted keys) else lift Panic.

(** [get_reader_from_cache]. *)
Definition get_reader_from_cache (global_readers : gmap nat SingleReadHandle) (target : nat) :
    eff ReadRequestHandler SingleReadHandle :=
  h ← get;
  match rq_readers_cache h !! target with
  | Some r => if rh_was_dropped r then
                match global_readers !! target with
                | None => _ ← modify (set_cache (delete target (rq_readers_cache h))); fail ReaderNotFound
                | Some r => _ ← modify (set_cache (<[target := rh_clone r]> (rq_readers_cache h))); mret (rh_clone r)
                end
              else mret r
  | None => match global_readers !! target with
            | None => fail ReaderNotFound
            | Some r => _ ← modify (set_cache (<[target := rh_clone r]> (rq_readers_cache h))); mret (rh_clone r)
            end
  end.

Definition has_sufficient_timestamp r (timestamp : option Timestamp) : bool :=
  match timestamp with
  | None => true
  | Some t => match rh_timestamp r with None => false | Some dataflow => satisfies dataflow t end
  end.

(** [ServerReadReplyBatch::serialize] runs the iterator to its end. *)
Definition reply_batch (fuel : nat) (raw_result : bool) (ri : ResultIterator (V:=V)) : result ServerReadReplyBatch :=
  if raw_result then Ok (Unserialized ri) else rows ← into_vec dfv_mul fuel ri; Ok (Serialized rows).
Definition reply_results (fuel tag : nat) (raw_result : bool) (hit : list (list (list V))) r
    (limit : option Z) (offset : option nat) (filter : option (Filter V)) : result Reply :=
  ri ← ri_new dfv_mul fuel hit (rh_post_lookup r) limit offset filter;
  batch ← reply_batch fuel raw_result ri;
  Ok {| rp_tag := tag; rp_result := inl (LookupResults [batch]) |}.

(** ** [handle_normal_read_query] *)
(** The result is [None] if the query waits. *)
Definition handle_normal_read_query (fuel : nat) (accepted : list Key → bool) (global_readers : gmap nat SingleReadHandle)
    (tag target : nat) (q : ViewQuery) (raw_result : bool) : eff ReadRequestHandler (option Reply) :=
  let reply_error e := Some {| rp_tag := tag; rp_result := inr e |} in
  h ← get;
  match get_reader_from_cache global_readers target h with
  | (h', Panic) => λ _, (h', Panic)
  | (h', Err e) => λ _, (h', Ok (reply_error e))
  | (h', Ok r) =>
      _ ← modify (λ _, h');
      let consistency_miss := negb (has_sufficient_timestamp r (vq_timestamp q)) in
      let miss keys_to_replay (notified : bool) : eff ReadRequestHandler (option Reply) :=
        _ ← match keys_to_replay with [] => mret true | _ => rh_trigger_keys accepted target r keys_to_replay end;
        if vq_block q then
          let '(epoch, r') := rh_receive r in
          _ ← modify (λ h, set_cache (<[target := r']> (rq_readers_cache h)) h);
          h ← get;
          match rq_wait h with
          | None => fail ServerShuttingDown
          | Some wait =>
              _ ← modify (set_wait (Some (wait ++
                [{| br_tag := tag; br_target := target; br_key_comparisons := vq_key_comparisons q; br_limit := vq_limit q;
                    br_offset := vq_offset q; br_filter := vq_filter q; br_warned := false; br_timestamp := vq_timestamp q;
                    br_raw_result := raw_result; br_notified := notified; br_eviction_epoch := epoch |}])));
              mret None
          end
        else mret (Some {| rp_tag := tag; rp_result := inl NonBlockingMiss |}) in
      res ← lift (rh_get_multi r (vq_key_comparisons q));
      match res with
      | inr LNotReady => mret (reply_error ViewNotYetAvailable)
      | inr LDestroyed => mret (reply_error ViewDestroyed)
      | inr (LError e) => mret (reply_error e)
      | inr (LMiss misses) => miss misses (negb consistency_miss)
      | inl hit =>
          if consistency_miss then miss [] false
          else reply ← lift (reply_results fuel tag raw_result hit r (vq_limit q) (vq_offset q) (vq_filter q)); mret (Some reply)
      end
  end.

(** ** [BlockingRead::check] *)
Inductive Poll := Pending | Ready (reply : Reply + ReadySetError).
(** The read afterwards, and what polling it returns.  [elapsed_warning] and
    [elapsed_timeout] tell whether the time until a warning and the timeout of the query
    have passed. *)
Definition check (fuel : nat) (accepted : list Key → bool) (global_readers : gmap nat SingleReadHandle)
    (elapsed_warning elapsed_timeout : bool) (b : BlockingRead) : eff ReadRequestHandler (BlockingRead * Poll) :=
  h ← get;
  let target := br_target b in
  r ← match rq_readers_cache h !! target with
      | Some r => mret r
      | None => match global_readers !! target with
                | None => lift Panic
                | Some r => _ ← modify (set_cache (<[target := rh_clone r]> (rq_readers_cache h))); mret (rh_clone r)
                end
      end;
  let consistency_miss := negb (has_sufficient_timestamp r (br_timestamp b)) in
  let waiting still_waiting : eff ReadRequestHandler (BlockingRead * Poll) :=
    let '(cur_epoch, r') := rh_receive r in
    _ ← modify (λ h, set_cache (<[target := r']> (rq_readers_cache h)) h);
    let evicted := br_eviction_epoch b <? cur_epoch in
    let b' := {| br_tag := br_tag b; br_target := target; br_key_comparisons := br_key_comparisons b; br_limit := br_limit b;
                 br_offset := br_offset b; br_filter := br_filter b; br_warned := br_warned b || elapsed_warning;
                 br_timestamp := br_timestamp b; br_raw_result := br_raw_result b; br_notified := br_notified b;
                 br_eviction_epoch := if evicted then cur_epoch else br_eviction_epoch b |} in
    sent ← (if evicted then rh_trigger_keys accepted target r still_waiting else mret true);
    if negb (sent : bool) then mret (b', Ready (inr ServerShuttingDown))
    else mret (b', if elapsed_timeout then Ready (inr UpqueryTimeout) else Pending) in
  res ← lift (rh_get_multi r (br_key_comparisons b));
  match res with
  | inr (LMiss misses) => waiting misses
  | inr _ => mret (b, Ready (inr ServerShuttingDown))
  | inl hit =>
      if consistency_miss then waiting []
      else reply ← lift (reply_results fuel (br_tag b) (br_raw_result b) hit r (br_limit b) (br_offset b) (br_filter b));
           mret ({| br_tag := br_tag b; br_target := target; br_key_comparisons := br_key_comparisons b; br_limit := br_limit b;
                    br_offset := br_offset b; br_filter := None; br_warned := br_warned b; br_timestamp := br_timestamp b;
                    br_raw_result := br_raw_result b; br_notified := br_notified b; br_eviction_epoch := br_eviction_epoch b |},
                 Ready (inl reply))
  end.
End read_query.
