(* ===== verification/ReadQueryProps.v ===== *)
(** * ReadQueryProps: queries are answered from the view

    The read path as a whole ([query_answers_view]): a query of a partial reader is
    answered with the rows of the view that its keys ask for, in the order and within
    the limits of the query, or asks for a replay of exactly the keys that are missing. *)
From stdpp Require Import gmap.
From S2P Require Import Prelude Intervals BTreeMap IntervalTree PartialMap Result Records OpLinear Keys Crates Processing Batches.
From S2P Require Import KeyedState OpGrouped OpAggregate OpTopK OpTopKProps InsertionOrder Eviction Timestamp Effects Payload.
From S2P Require Import ReaderMap ReaderMapProps ReaderMapContents Backlog Reader ReaderProps ReaderLookup ReaderTheorems.
From S2P Require Import Tournament Results ResultsProps ReadQuery OpAggregateProps NodeLaws FlowTheorems.

Section query.
Context `{DfArith V} `{Ord K} `{!ReaderKey V K} `{!ReaderKeyLaws V K} {HM W : Type} `{!HashMap K (list (list V)) HM}.
#[local] Abbreviation RInner := (Inner K (list V) HM Z Timestamp PreInsertion).
#[local] Abbreviation ROp := (Operation K (list V) Z Timestamp).
Context `{!LeftRight RInner ROp W}.
Context (row_size : list V → Z) (key_size : list V → Z) (base_value_size : Z) (dfv_mul : V → V → result V).
Implicit Types (w : WriteHandle W) (R rows : list (list V)) (keys : list (KeyComparison V)) (kk : K).
#[local] Abbreviation enter := (lr_enter (T:=RInner) (Op:=ROp)).
#[local] Abbreviation visible := (visible (K:=K) (A:=list V) (HM:=HM) (M:=Z) (T:=Timestamp) (I:=PreInsertion)).
#[local] Abbreviation reader_ok := (reader_ok (K:=K) (HM:=HM)).
#[local] Abbreviation lookup_one := (lookup_one (K:=K) (HM:=HM)).
#[local] Abbreviation lookup_keys := (lookup_keys (K:=K) (HM:=HM)).

(** ** Hits are sorted *)
(** A set of rows that a lookup returns is empty or the rows of a key. *)
Definition shown w rows : Prop := rows = [] ∨ ∃ kk, visible (wh_handle w) kk = Some rows.
Lemma lookup_one_shown cols pre w key hs :
  reader_ok cols pre w → askable (length cols) (index_type (wh_index w)) key →
  lookup_one (enter (wh_handle w)) key = Ok (inl hs) → Forall (shown w) hs.
Proof.
  intros Hw Hkey. unfold Backlog.lookup_one. destruct key as [k|[lo hi]].
  - destruct (has_null k); [intros [= <-]; constructor; [by left|constructor]|].
    destruct (rk_first k) as [kk| |]; [|done..]. cbn [mbind result_bind].
    destruct (data_get (in_data (enter (wh_handle w))) kk) as [v|] eqn:E; [|done]. intros [= <-].
    constructor; [right; by exists kk|constructor].
  - destruct (is_reversed_range (KRange (lo, hi))) eqn:Er; [intros [= <-]; constructor; [by left|constructor]|].
    destruct Hkey as [[Hs He] [?|[Hty Hv]]]; [congruence|].
    destruct (range_mapM_sized (length cols) (lo, hi) (ok_width _ _ _ Hw) Hs He) as (r' & Hf & _ & _ & Hin & Hrv).
    rewrite Hf. cbn [mbind result_bind]. rewrite Hv in Hrv.
    pose proof (ok_type _ _ _ Hw) as Hvt. rewrite Hty in Hvt. unfold ReaderMapContents.visible_type in Hvt.
    destruct (ok_handle _ _ _ Hw) as (_ & (Hd & _) & _). unfold shown, ReaderMapContents.visible.
    destruct (in_data (enter (wh_handle w))) as [m|m] eqn:Ed; [|done]. destruct Hd as [Hpm Hpe]. cbn [data_range data_get].
    destruct (pm_range_correct m r' Hpm Hrv) as [(l & -> & Hl & Hget)|(D & -> & HD & Hmiss)]; [|done].
    intros [= <-]. apply Forall_forall. intros rows Hrows. apply list_elem_of_fmap in Hrows as ([kk rows'] & -> & Hin').
    right. exists kk. apply (bm_get_elem l kk rows' Hl) in Hin'. destruct (Hget kk) as [Hg1 Hg2].
    destruct (in_range r' kk); [|congruence]. rewrite Hg2 by done. by rewrite Hin'.
Qed.
Lemma lookup_keys_shown cols pre w keys :
  reader_ok cols pre w → Forall (askable (length cols) (index_type (wh_index w))) keys → ∀ prev hits misses hs ms,
  lookup_keys (enter (wh_handle w)) prev keys hits misses = Ok (hs, ms) → Forall (shown w) hits → Forall (shown w) hs.
Proof.
  intros Hw Hkeys. induction Hkeys as [|key keys Hkey _ IH]; intros prev hits misses hs ms; cbn [Backlog.lookup_keys].
  { by intros [= <- <-]. }
  destruct (existsb (kc_eq key) prev); [apply IH|]. destruct (lookup_one _ key) as [[hs0|ms0]| |] eqn:E; cbn [mbind result_bind]; [| |done..].
  - intros Hl Hh. eapply IH; [exact Hl|]. apply Forall_app. split; [done|]. by eapply lookup_one_shown.
  - apply IH.
Qed.

Lemma shown_sorted cols pre w rows :
  reader_ok cols pre w → shown w rows → StronglySorted (ole (pi_cols pre)) rows ∧ Forall (λ r, order_fits (pi_cols pre) r = true) rows.
Proof.
  intros Hw [->|[kk Hkk]]; [split; constructor|]. destruct (ok_handle _ _ _ Hw) as (_ & (_ & Hwf) & _).
  destruct (Hwf kk rows Hkk) as [Hs Hf]. pose proof (ok_order _ _ _ Hw) as Ho. unfold ReaderMapContents.visible_order in Ho.
  rewrite Ho in Hs, Hf. cbn [inner_cmp inner_fits] in Hs, Hf. split; [|exact Hf].
  clear -Hs. induction Hs as [|r rows Hs IH Hr]; constructor; [done|]. eapply Forall_impl; [exact Hr|]. intros r' Hle.
  intros E. apply Hle. change (pi_cmp pre r r' = Gt). unfold pi_cmp. by rewrite E.
Qed.
Lemma hits_sorted cols pre w keys hits :
  reader_ok cols pre w → Forall (askable (length cols) (index_type (wh_index w))) keys →
  handle_get_multi (K:=K) (HM:=HM) (wh_handle w) keys = Ok (inl hits) → sets_sorted (pi_cols pre) hits.
Proof.
  intros Hw Hkeys. unfold Backlog.handle_get_multi, ReaderMap.enter. rewrite (ok_ready _ _ _ Hw).
  destruct (lookup_keys _ _ _ _ _) as [[hs ms]| |] eqn:El; [|done..]. cbn [mbind result_bind].
  pose proof (lookup_keys_shown cols pre w keys Hw Hkeys _ _ _ _ _ El (Forall_nil_2 _)) as Hs.
  destruct ms; [|done]. intros [= <-]. split.
  - apply Forall_concat. eapply Forall_impl; [exact Hs|]. intros rows Hr. by apply (shown_sorted cols pre w).
  - eapply Forall_impl; [exact Hs|]. intros rows Hr. by apply (shown_sorted cols pre w).
Qed.

(** ** Replies *)
#[local] Abbreviation Handle := (SingleReadHandle (V:=V) (W:=W)).
#[local] Abbreviation Handler := (ReadRequestHandler (V:=V) (W:=W)).
Implicit Types (r : Handle) (h : Handler) (q : ViewQuery (V:=V)).
#[local] Abbreviation reader_inv := (reader_inv (K:=K) (HM:=HM)).
#[local] Abbreviation rh_get_multi := (rh_get_multi (K:=K) (HM:=HM)).
#[local] Abbreviation has_sufficient_timestamp := (has_sufficient_timestamp (K:=K) (HM:=HM)).
#[local] Abbreviation handle_normal_read_query := (handle_normal_read_query (K:=K) (HM:=HM) dfv_mul).
#[local] Abbreviation check := (check (K:=K) (HM:=HM) dfv_mul).
#[local] Abbreviation covered := (covered (K:=K)).
#[local] Abbreviation asked := (asked (K:=K)).

(** A read handle of the reader [w] of a view [R], whose queries have no aggregates. *)
Record serves cols pre w R r : Prop := {
  sv_inv : reader_inv cols pre (w, R);
  sv_handle : rh_handle r = wh_handle w;
  sv_trigger : rh_trigger r = true;
  sv_processing : ∃ order_by limit returned_cols default_row,
    reader_processing_new order_by limit returned_cols default_row None = Ok (pre, rh_post_lookup r);
}.
(** What a query may ask of a view. *)
Record query_ok cols R r fuel (n : nat) (ty : IndexType) q : Prop := {
  qo_keys : Forall (askable n ty) (vq_key_comparisons q);
  qo_filter : no_panic (vq_filter q) R;
  qo_limit : limit_ok (effective_limit (rh_post_lookup r) (vq_limit q));
  qo_fuel : length (concat (answer cols R <$> distinct [] (vq_key_comparisons q))) + 8 ≤ fuel;
}.
(** The rows of a reply, which are serialized, or come from an iterator if the query is
    for raw results. *)
Definition batch_rows (fuel : nat) (raw : bool) (batch : ServerReadReplyBatch (V:=V)) : result (list (list V)) :=
  match batch, raw with
  | Serialized rows, false => Ok rows
  | Unserialized ri, true => into_vec dfv_mul fuel ri
  | _, _ => Err Internal
  end.
(** The reply with the rows [l] of the view, filtered and cut. *)
Definition answered r fuel tag raw q (l : list (list V)) (reply : Reply (V:=V)) : Prop :=
  ∃ batch, reply = {| rp_tag := tag; rp_result := inl (LookupResults [batch]) |} ∧
    batch_rows fuel raw batch = Ok (truncate (response_cols (rh_post_lookup r)) <$>
      response (effective_limit (rh_post_lookup r) (vq_limit q)) (vq_offset q) (pl_default_row (rh_post_lookup r)) (keep (vq_filter q) l)).
(** The rows that a query asks for, in the order of the view. *)
Definition rows_of cols R r keys (l : list (list V)) : Prop :=
  l ≡ₚ concat (answer cols R <$> distinct [] keys) ∧
  match pl_order_by (rh_post_lookup r) with Some o => StronglySorted (ole o) l | None => True end.

Lemma no_panic_answers f cols R keys l : no_panic f R → l ≡ₚ concat (answer cols R <$> keys) → no_panic f l.
Proof.
  intros Hnp Hl flt Hf. rewrite Hl. apply Forall_concat, Forall_fmap, Forall_true. intros key. cbn. by apply Forall_filter_keep, Hnp.
Qed.

Lemma get_multi_answers cols pre w R r fuel q tag raw :
  serves cols pre w R r → query_ok cols R r fuel (length cols) (index_type (wh_index w)) q →
  ∃ res, rh_get_multi r (vq_key_comparisons q) = Ok res ∧ handle_get_multi (K:=K) (HM:=HM) (wh_handle w) (vq_key_comparisons q) = Ok res ∧
    match res with
    | inl hits => (∀ kk, asked (distinct [] (vq_key_comparisons q)) kk = true → visible (wh_handle w) kk ≠ None) ∧
        ∃ l reply, rows_of cols R r (vq_key_comparisons q) l ∧ answered r fuel tag raw q l reply ∧
          reply_results dfv_mul fuel tag raw hits r (vq_limit q) (vq_offset q) (vq_filter q) = Ok reply
    | inr (LMiss ms) => ms ≠ [] ∧
        ∀ kk, covered ms kk = true ↔ asked (distinct [] (vq_key_comparisons q)) kk = true ∧ visible (wh_handle w) kk = None
    | inr _ => False
    end.
Proof.
  intros [(Hw & Hp & Hc & HR) Hh Ht (ob & lim & rc & dr & Hpr)] [Hk Hf Hl Hfu]. cbn [fst snd] in *.
  destruct (get_multi_ok cols pre w R _ Hw Hc HR Hk) as (res & Hres & Hspec). exists res.
  unfold ReadQuery.rh_get_multi, Backlog.read_get_multi. rewrite Hh, Ht, Hres. cbn [mbind result_bind]. split_and!; [|done|].
  { destruct res as [|[]]; done. }
  destruct res as [hits|[| | |ms]]; [|done..]. destruct Hspec as [Hhits Hvis]. split; [done|].
  assert (pl_aggregates (rh_post_lookup r) = None ∧ (∀ o, pl_order_by (rh_post_lookup r) = Some o → pi_cols pre = o)) as [Hagg Ho].
  { unfold reader_processing_new in Hpr. destruct (match rc with Some _ => _ | None => _ end); [done|].
    injection Hpr as <- <-. split; [done|]. cbn. by intros o ->. }
  destruct (results_answer_ok dfv_mul fuel hits (rh_post_lookup r) (vq_limit q) (vq_offset q) (vq_filter q))
    as (ri & l & Hri & Hsorted & Hvec); [done|by eapply no_panic_answers|done| |by rewrite Hhits|].
  { intros o Hpo. rewrite <-(Ho o Hpo). by eapply hits_sorted. }
  exists l. unfold reply_results. rewrite Hri. cbn [mbind result_bind]. unfold reply_batch. eexists. split_and!.
  - unfold rows_of. destruct (pl_order_by _); [destruct Hsorted as [Hpl ?]; split; [by rewrite Hpl|done]|by subst l].
  - exists (if raw then Unserialized ri else Serialized (truncate (response_cols (rh_post_lookup r)) <$>
      response (effective_limit (rh_post_lookup r) (vq_limit q)) (vq_offset q) (pl_default_row (rh_post_lookup r)) (keep (vq_filter q) l))).
    split; [reflexivity|]. by destruct raw.
  - destruct raw; [done|]. by rewrite Hvec.
Qed.

(** The read that waits for the keys of a query. *)
Definition waiting_read r tag target raw notified q : BlockingRead (V:=V) :=
  {| br_tag := tag; br_target := target; br_key_comparisons := vq_key_comparisons q; br_limit := vq_limit q;
     br_offset := vq_offset q; br_filter := vq_filter q; br_warned := false; br_timestamp := vq_timestamp q;
     br_raw_result := raw; br_notified := notified; br_eviction_epoch := (rh_receive r).1 |}.
(** The handler after a replay of the keys [ms] was asked for, if there are any, and once
    a read waits. *)
Definition asked_for target ms h : Handler := match ms with [] => h | _ => log_trigger target ms h end.
Definition blocked r target (wait : list (BlockingRead (V:=V))) (b : BlockingRead (V:=V)) h : Handler :=
  set_wait (Some (wait ++ [b])) (set_cache (<[target := (rh_receive r).2]> (rq_readers_cache h)) h).

Lemma query_answers cols pre w R r fuel accepted readers tag target q raw h h1 wait :
  serves cols pre w R r → query_ok cols R r fuel (length cols) (index_type (wh_index w)) q →
  get_reader_from_cache readers target h = (h1, Ok r) → rq_wait h1 = Some wait →
  let recent := has_sufficient_timestamp r (vq_timestamp q) in
  (∃ l reply, (∀ kk, asked (distinct [] (vq_key_comparisons q)) kk = true → visible (wh_handle w) kk ≠ None) ∧ recent = true ∧
     rows_of cols R r (vq_key_comparisons q) l ∧ answered r fuel tag raw q l reply ∧
     handle_normal_read_query fuel accepted readers tag target q raw h = (h1, Ok (Some reply))) ∨
  ∃ ms, (recent = true → handle_get_multi (K:=K) (HM:=HM) (wh_handle w) (vq_key_comparisons q) = Ok (inr (LMiss ms))) ∧
    (recent = true → ms ≠ []) ∧
    (∀ kk, covered ms kk = true ↔ asked (distinct [] (vq_key_comparisons q)) kk = true ∧ visible (wh_handle w) kk = None) ∧
    handle_normal_read_query fuel accepted readers tag target q raw h =
      if vq_block q then (blocked r target wait (waiting_read r tag target raw recent q) (asked_for target ms h1), Ok None)
      else (asked_for target ms h1, Ok (Some {| rp_tag := tag; rp_result := inl NonBlockingMiss |})).
Proof.
  intros Hs Hq Hc Hwait recent. destruct (get_multi_answers cols pre w R r fuel q tag raw Hs Hq) as (res & Hget & Hhandle & Hres).
  assert (∀ ms, rq_wait (asked_for target ms h1) = Some wait) as Hwait' by (by intros []).
  assert (∀ ms (notified : bool),
    (_ ← (match ms with [] => mret true | _ => rh_trigger_keys accepted target r ms end : eff Handler bool);
     if vq_block q then
       let '(epoch, r') := rh_receive r in
       _ ← modify (λ h : Handler, set_cache (<[target := r']> (rq_readers_cache h)) h);
       h ← get;
       match rq_wait h with
       | None => fail ServerShuttingDown
       | Some wait =>
           _ ← modify (set_wait (Some (wait ++
             [{| br_tag := tag; br_target := target; br_key_comparisons := vq_key_comparisons q; br_limit := vq_limit q;
                 br_offset := vq_offset q; br_filter := vq_filter q; br_warned := false; br_timestamp := vq_timestamp q;
                 br_raw_result := raw; br_notified := notified; br_eviction_epoch := epoch |}])));
           mret None
       end
     else mret (Some {| rp_tag := tag; rp_result := inl NonBlockingMiss |}) : eff Handler (option (Reply (V:=V)))) h1 =
    if vq_block q then (blocked r target wait (waiting_read r tag target raw notified q) (asked_for target ms h1), Ok None)
    else (asked_for target ms h1, Ok (Some {| rp_tag := tag; rp_result := inl NonBlockingMiss |}))) as Hmiss.
  { intros ms notified. rewrite (bind_ok _ _ h1 (asked_for target ms h1) (match ms with [] => true | _ => accepted ms end)).
    2: { destruct ms; [done|]. unfold rh_trigger_keys. by rewrite (sv_trigger _ _ _ _ _ Hs). }
    destruct (vq_block q); [|done]. unfold rh_receive, mbind, eff_bind, modify, get. cbn. rewrite Hwait'. done. }
  unfold ReadQuery.handle_normal_read_query. rewrite (bind_ok _ _ h h h) by done. rewrite Hc.
  rewrite (bind_ok _ _ h h1 ()) by done. cbv zeta. fold recent.
  rewrite (bind_ok _ _ h1 h1 res) by (unfold lift; by rewrite Hget).
  destruct res as [hits|[| | |ms]]; try done.
  - destruct Hres as (Hvis & l & reply & Hl & Hans & Hrep). destruct recent; cbn [negb].
    + left. exists l, reply. split_and!; [done..|]. by rewrite (bind_ok _ _ h1 h1 reply) by (unfold lift; by rewrite Hrep).
    + right. exists []. split_and!; [done..| |apply (Hmiss [] false)]. intros kk. split; [done|]. intros [Hk Hn]. by destruct (Hvis kk Hk).
  - right. destruct Hres as [Hne Hcov]. exists ms. split_and!; [done..|]. rewrite (Hmiss ms (negb (negb recent))). by rewrite negb_involutive.
Qed.

(** C2: Queries are answered from the view.  In every state that updates, replays and
    evictions lead a partial reader to, a query without aggregates is answered at once
    with exactly the rows of the view that its keys ask for, filtered, sorted and cut as
    it says, if none of the keys is a hole and the reader is as recent as the query
    demands.  Otherwise the handler asks for a replay of exactly those of the keys that
    are holes, if there are any, and the query waits if it blocks and is told so if it
    does not.  The handle of the reader may be cached or not, the rows may be asked for
    serialized or raw. *)
Theorem query_answers_view index n pre receivers w0 w1 R0 w R r fuel accepted readers tag target q raw h h1 wait
    order_by limit returned_cols default_row :
  rk_width (K:=K) (length (columns index)) → new_inner (K:=K) (HM:=HM) index n true pre receivers = Ok w0 →
  swap (K:=K) (HM:=HM) w0 = Ok w1 →
  Forall (row_ok (columns index) pre) R0 →
  rtc (reader_step (K:=K) (HM:=HM) row_size key_size base_value_size (columns index) pre) (w1, R0) (w, R) →
  reader_processing_new order_by limit returned_cols default_row None = Ok (pre, rh_post_lookup r) →
  get_reader_from_cache readers target h = (h1, Ok r) → rh_handle r = wh_handle w → rh_trigger r = true →
  rq_wait h1 = Some wait → query_ok (columns index) R r fuel (length (columns index)) (index_type index) q →
  let recent := has_sufficient_timestamp r (vq_timestamp q) in
  (∃ l reply, (∀ kk, asked (distinct [] (vq_key_comparisons q)) kk = true → visible (wh_handle w) kk ≠ None) ∧ recent = true ∧
     rows_of (columns index) R r (vq_key_comparisons q) l ∧ answered r fuel tag raw q l reply ∧
     handle_normal_read_query fuel accepted readers tag target q raw h = (h1, Ok (Some reply))) ∨
  ∃ ms, (recent = true → ms ≠ []) ∧
    (∀ kk, covered ms kk = true ↔ asked (distinct [] (vq_key_comparisons q)) kk = true ∧ visible (wh_handle w) kk = None) ∧
    handle_normal_read_query fuel accepted readers tag target q raw h =
      if vq_block q then (blocked r target wait (waiting_read r tag target raw recent q) (asked_for target ms h1), Ok None)
      else (asked_for target ms h1, Ok (Some {| rp_tag := tag; rp_result := inl NonBlockingMiss |})).
Proof.
  intros Hwd Hnew Hswap HR0 Hsteps Hproc Hcache Hh Ht Hwait Hq.
  destruct (reader_new_inv index n pre receivers w0 w1 R0) as (Hinv & Hix & _); [done..|].
  destruct (reader_steps_inv _ _ _ _ _ _ _ Hsteps Hinv) as (Hinv' & _ & Hix' & _). cbn [fst snd] in Hix, Hix'.
  destruct (query_answers (columns index) pre w R r fuel accepted readers tag target q raw h h1 wait) as [?|(ms & _ & ?)]; try done.
  - split; try done. by eexists _, _, _, _.
  - by rewrite Hix', Hix.
  - by left.
  - right. by exists ms.
Qed.

(** ** Reads that wait *)
(** The handler once its reader was swapped. *)
Definition see w target r h : Handler :=
  set_cache (<[target := {| rh_handle := wh_handle w; rh_trigger := rh_trigger r; rh_post_lookup := rh_post_lookup r;
    rh_receiver := rh_receiver r; rh_eviction_epoch := rh_eviction_epoch r; rh_was_dropped := rh_was_dropped r |}]>
    (rq_readers_cache h)) h.

Lemma check_hit fuel accepted readers warn timeout b h r hits reply :
  rq_readers_cache h !! br_target b = Some r → rh_get_multi r (br_key_comparisons b) = Ok (inl hits) →
  has_sufficient_timestamp r (br_timestamp b) = true →
  reply_results dfv_mul fuel (br_tag b) (br_raw_result b) hits r (br_limit b) (br_offset b) (br_filter b) = Ok reply →
  check fuel accepted readers warn timeout b h =
    (h, Ok ({| br_tag := br_tag b; br_target := br_target b; br_key_comparisons := br_key_comparisons b; br_limit := br_limit b;
               br_offset := br_offset b; br_filter := None; br_warned := br_warned b; br_timestamp := br_timestamp b;
               br_raw_result := br_raw_result b; br_notified := br_notified b; br_eviction_epoch := br_eviction_epoch b |},
            Ready (inl reply))).
Proof.
  intros Hc Hget Hts Hrep. unfold ReadQuery.check, mbind, eff_bind, get. cbn. rewrite Hc. cbn. unfold lift. rewrite Hget, Hts. cbn.
  by rewrite Hrep.
Qed.

(** C7: A query that has to wait completes.  Of a partial reader with a hash index, a
    blocking query of single keys, without aggregates and without a timestamp, some of
    whose keys are missing, asks for a replay of the missing keys and waits.  The replay
    of the rows that the view has under these succeeds, and afterwards polling the read
    answers it with the rows of the view, and asks for no other replay. *)
Theorem blocked_query_completes cols pre w R r fuel accepted readers tag target q raw h h1 wait link rtag ctx warn timeout :
  serves cols pre w R r → query_ok cols R r fuel (length cols) IxHashMap q → index_type (wh_index w) = IxHashMap →
  Forall (λ key, kc_is_equal key = true) (vq_key_comparisons q) → wh_receivers w ≠ 0 →
  get_reader_from_cache readers target h = (h1, Ok r) → rq_wait h1 = Some wait → vq_timestamp q = None →
  vq_block q = true → (∃ kk, asked (distinct [] (vq_key_comparisons q)) kk = true ∧ visible (wh_handle w) kk = None) →
  ∃ ms b h', handle_normal_read_query fuel accepted readers tag target q raw h = (h', Ok None) ∧
    rq_wait h' = Some (wait ++ [b]) ∧ rq_triggered h' = rq_triggered h1 ++ [(target, ms)] ∧
    (∀ kk, covered ms kk = true ↔ asked (distinct [] (vq_key_comparisons q)) kk = true ∧ visible (wh_handle w) kk = None) ∧
    ∀ rows, rows ≡ₚ filter (λ row, existsb (λ key, kc_contains key (cols_at cols row)) ms = true) R →
      ∃ w' l b' reply, reader_fill (K:=K) (HM:=HM) row_size key_size base_value_size w ms (PReplayPiece link rtag (Positive <$> rows) ctx) = Ok w' ∧
        rows_of cols R r (vq_key_comparisons q) l ∧ answered r fuel tag raw q l reply ∧
        let h'' := see w' target (rh_receive r).2 h' in
        check fuel accepted readers warn timeout b h'' = (h'', Ok (b', Ready (inl reply))).
Proof.
  intros Hs Hq Hty Heq Hrecv Hcache Hwait Hts Hb (kk & Hask & Hhole).
  destruct (query_answers cols pre w R r fuel accepted readers tag target q raw h h1 wait) as [(l & reply & Hvis & _)|(ms & Hms & Hne & Hcov & Hres)];
    try done; [by rewrite Hty|by destruct (Hvis kk)|]. rewrite Hts in Hms, Hne, Hres. specialize (Hms eq_refl). specialize (Hne eq_refl).
  rewrite Hb in Hres. eexists ms, (waiting_read r tag target raw true q), _. split_and!; [exact Hres|done|by destruct ms|done|]. intros rows Hrows.
  destruct (reader_upquery_ok row_size key_size base_value_size cols pre w R (vq_key_comparisons q) ms link rtag rows ctx)
    as (w' & hits & Hfill & Hinv' & Hget' & _); try done; [apply Hs| |].
  { apply Forall_and. split; [|done]. eapply Forall_impl; [apply Hq|]. by intros key [? _]. }
  set (r' := {| rh_handle := wh_handle w'; rh_trigger := rh_trigger r; rh_post_lookup := rh_post_lookup r; rh_receiver := [];
                rh_eviction_epoch := (rh_receive r).1; rh_was_dropped := rh_was_dropped r |} : Handle).
  destruct (get_multi_answers cols pre w' R r' fuel q tag raw) as (res & Hget & Hhandle & Hspec).
  { destruct Hs. by split. }
  { destruct Hq as [Hk ? ? ?]. split; try done. eapply Forall_impl; [apply Forall_and; exact (conj Hk Heq)|]. by intros [k|] [[? _] ?]. }
  rewrite Hget' in Hhandle. injection Hhandle as <-. destruct Hspec as (_ & l & reply & Hl & Hans & Hrep).
  eexists w', l, _, reply. split_and!; [done|done|done|].
  apply (check_hit _ _ _ _ _ _ _ r' hits); [|done|by cbn; rewrite Hts|exact Hrep]. apply lookup_insert_eq.
Qed.
End query.

(** ** A view of three rows *)
Definition q_order : PreInsertion := {| pi_order_by := Some [(1, OrderDescending)]; pi_group_by := None |}.
Definition q_lookup : PostLookup AggVal :=
  {| pl_order_by := Some [(1, OrderDescending)]; pl_limit := Some 2%Z; pl_returned_cols := None; pl_default_row := None; pl_aggregates := None |}.
Definition q_view : list CRow := [[AInt 1; AInt 10]; [AInt 1; AInt 11]; [AInt 2; AInt 20]].
Definition q_reader : result (WriteHandle CHandle) :=
  w ← new_inner (K:=AggVal) (HM:=CMap) c_index 2 true q_order 1; swap (K:=AggVal) (HM:=CMap) w.
Definition q_link : Link := {| link_src := 0; link_dst := 1 |}.
(** The reader after the replay of key 1. *)
Definition q_filled : result (WriteHandle CHandle) :=
  w ← q_reader;
  reader_fill (K:=AggVal) (HM:=CMap) c_size c_size 8 w [KEqual [AInt 1]]
    (PReplayPiece q_link 7 (Positive <$> [[AInt 1; AInt 10]; [AInt 1; AInt 11]]) (RpPartial [KEqual [AInt 1]] 0 0 false)).
Definition q_query (keys : list (KeyComparison AggVal)) : ViewQuery (V:=AggVal) :=
  {| vq_key_comparisons := keys; vq_block := true; vq_filter := None; vq_limit := None; vq_offset := None; vq_timestamp := None |}.
Definition q_handle (w : WriteHandle CHandle) : SingleReadHandle (V:=AggVal) (W:=CHandle) :=
  {| rh_handle := wh_handle w; rh_trigger := true; rh_post_lookup := q_lookup; rh_receiver := []; rh_eviction_epoch := 0; rh_was_dropped := false |}.
Definition q_handler (w : WriteHandle CHandle) : ReadRequestHandler (V:=AggVal) (W:=CHandle) :=
  {| rq_readers_cache := {[5 := q_handle w]}; rq_wait := Some []; rq_triggered := [] |}.

Lemma q_reader_steps : ∃ w0 w1 w, new_inner (K:=AggVal) (HM:=CMap) c_index 2 true q_order 1 = Ok w0 ∧
  swap (K:=AggVal) (HM:=CMap) w0 = Ok w1 ∧ q_filled = Ok w ∧ Forall (row_ok (columns c_index) q_order) q_view ∧
  rtc (reader_step (K:=AggVal) (HM:=CMap) c_size c_size 8 (columns c_index) q_order) (w1, q_view) (w, q_view).
Proof.
  destruct (is_ok_inv q_reader) as [w1 E1]; [vm_compute; reflexivity|].
  destruct (is_ok_inv q_filled) as [w E2]; [vm_compute; reflexivity|]. pose proof E2 as E3.
  unfold q_filled in E2. rewrite E1 in E2. cbn [mbind result_bind] in E2. unfold q_reader in E1.
  destruct (is_ok_inv (new_inner (K:=AggVal) (HM:=CMap) (W:=CHandle) c_index 2 true q_order 1)) as [w0 E0]; [vm_compute; reflexivity|].
  rewrite E0 in E1. cbn [mbind result_bind] in E1. exists w0, w1, w. split_and!; [done..| |].
  { repeat constructor. }
  apply rtc_once. eapply step_fill; [| |exact E2]; [by repeat constructor|reflexivity].
Qed.
Lemma q_query_ok w ks : length (concat (answer [0] q_view <$> distinct [] ((λ k, KEqual [k]) <$> ks))) ≤ 12 →
  query_ok (columns c_index) q_view (q_handle w) 20 1 IxHashMap (q_query ((λ k, KEqual [k]) <$> ks)).
Proof. intros Hl. split; [by apply Forall_fmap, Forall_true|done|by intros m [= <-]|cbn in *; lia]. Qed.
(** What the query of key 1 returns, and whether key 2 is missing. *)
Lemma q_returns : match q_filled with
  | Ok w => snd (handle_normal_read_query (K:=AggVal) (HM:=CMap) agg_mul 20 (λ _, true) ∅ 9 5 (q_query [KEqual [AInt 1]]) false (q_handler w)) =
              Ok (Some {| rp_tag := 9; rp_result := inl (LookupResults [Serialized [[AInt 1; AInt 11]; [AInt 1; AInt 10]]]) |}) ∧
            visible (K:=AggVal) (A:=CRow) (HM:=CMap) (M:=Z) (T:=Timestamp) (I:=PreInsertion) (wh_handle w) (AInt 2) = None ∧
            wh_receivers w = 1 ∧ index_type (wh_index w) = IxHashMap
  | _ => False end.
Proof. vm_compute. done. Qed.

Lemma query_answers_view_witness : ∃ w l reply, q_filled = Ok w ∧
  handle_normal_read_query (K:=AggVal) (HM:=CMap) agg_mul 20 (λ _, true) ∅ 9 5 (q_query [KEqual [AInt 1]]) false (q_handler w) =
    (q_handler w, Ok (Some reply)) ∧
  answered agg_mul (q_handle w) 20 9 false (q_query [KEqual [AInt 1]]) l reply ∧ rows_of [0] q_view (q_handle w) [KEqual [AInt 1]] l.
Proof.
  destruct q_reader_steps as (w0 & w1 & w & Hnew & Hswap & Hf & HR & Hsteps).
  destruct (query_answers_view (K:=AggVal) (HM:=CMap) c_size c_size 8 agg_mul c_index 2 q_order 1 w0 w1 q_view w q_view (q_handle w)
    20 (λ _, true) ∅ 9 5 (q_query [KEqual [AInt 1]]) false (q_handler w) (q_handler w) [] (Some [(1, OrderDescending)]) (Some 2%Z) None None)
    as [(l & reply & _ & _ & Hl & Hans & Heq)|(ms & _ & _ & Heq)]; try done.
  - apply (q_query_ok w [AInt 1]). vm_compute. lia.
  - by exists w, l, reply.
  - pose proof q_returns as Hret. rewrite Hf, Heq in Hret. by destruct Hret.
Defined.

(** A query of the keys 1 and 2 waits for key 2; once its row was replayed the query is
    answered. *)
Lemma blocked_query_completes_witness : ∃ w w' ms b b' h' l reply, q_filled = Ok w ∧
  let q := q_query [KEqual [AInt 1]; KEqual [AInt 2]] in
  handle_normal_read_query (K:=AggVal) (HM:=CMap) agg_mul 20 (λ _, true) ∅ 9 5 q false (q_handler w) = (h', Ok None) ∧
  rq_wait h' = Some [b] ∧ rq_triggered h' = [(5, ms)] ∧
  reader_fill (K:=AggVal) (HM:=CMap) c_size c_size 8 w ms
    (PReplayPiece q_link 7 (Positive <$> filter (λ row, existsb (λ key, kc_contains key (cols_at [0] row)) ms = true) q_view)
       (RpPartial [KEqual [AInt 2]] 0 0 false)) = Ok w' ∧
  rows_of [0] q_view (q_handle w) [KEqual [AInt 1]; KEqual [AInt 2]] l ∧ answered agg_mul (q_handle w) 20 9 false q l reply ∧
  snd (check (K:=AggVal) (HM:=CMap) agg_mul 20 (λ _, true) ∅ false false b (see w' 5 (q_handle w) h')) = Ok (b', Ready (inl reply)).
Proof.
  destruct q_reader_steps as (w0 & w1 & w & Hnew & Hswap & Hf & HR & Hsteps).
  pose proof q_returns as Hret. rewrite Hf in Hret. destruct Hret as (_ & Hhole & Hrecv & Hty).
  destruct (reader_new_inv (K:=AggVal) (HM:=CMap) c_index 2 q_order 1 w0 w1 q_view) as (Hinv & _); [done..|].
  destruct (reader_steps_inv _ _ _ _ _ _ _ Hsteps Hinv) as (Hinv' & _).
  destruct (blocked_query_completes (K:=AggVal) (HM:=CMap) c_size c_size 8 agg_mul (columns c_index) q_order w q_view (q_handle w)
    20 (λ _, true) ∅ 9 5 (q_query [KEqual [AInt 1]; KEqual [AInt 2]]) false (q_handler w) (q_handler w) [] q_link 7
    (RpPartial [KEqual [AInt 2]] 0 0 false) false false)
    as (ms & b & h' & Hq & Hw & Ht & _ & Hdone); try done.
  - split; try done. by eexists (Some [(1, OrderDescending)]), (Some 2%Z), None, None.
  - apply (q_query_ok w [AInt 1; AInt 2]). vm_compute. lia.
  - by repeat constructor.
  - by rewrite Hrecv.
  - by exists (AInt 2).
  - destruct (Hdone _ (Permutation_refl _)) as (w' & l & b' & reply & Hfill & Hl & Hans & Hcheck).
    exists w, w', ms, b, b', h', l, reply. cbv zeta in *. split_and!; [done|done|done|done|exact Hfill|exact Hl|exact Hans|].
    exact (f_equal snd Hcheck).
Defined.
