(* ===== verification/Values.v ===== *)
(** * Values: the values of SQL

    Models [DfValue] of [readyset-data/src/lib.rs]: equality, order, hashing, truth,
    smallest and largest values and arithmetic; [Collation] of [collation.rs]; and the
    packed representation of [TimestampTz] of [timestamp.rs].

    Floats are their bits; the conversions and operations of IEEE 754 that the code uses
    are written out for both widths ([Fmt]).  Strings are lists of characters, whose order
    is that of their UTF-8 encodings.  The tables of Unicode, the crate [rust_decimal] and
    the date-times of [chrono] are classes with what is documented of them. *)
From S2P Require Import Prelude Result Records OpGrouped MySqlTime.
Local Open Scope Z_scope.

(** ** Floats *)
(** The widths of the fraction and the exponent. *)
Record Fmt := { mw : Z; ew : Z }.
Definition f32 : Fmt := {| mw := 23; ew := 8 |}.
Definition f64 : Fmt := {| mw := 52; ew := 11 |}.
Section fmt.
Context (f : Fmt).
(** The exponent of the unit of subnormal numbers, and the bits of infinity. *)
Definition unit_exp : Z := 2 - 2 ^ (ew f - 1) - mw f.
Definition inf_bits : Z := (2 ^ ew f - 1) * 2 ^ mw f.
Definition sign_bit : Z := 2 ^ (ew f + mw f).
Definition float_wf (b : Z) : Prop := 0 ≤ b < 2 * sign_bit.
Definition is_negative (b : Z) : bool := sign_bit <=? b.
Definition magnitude_bits (b : Z) : Z := b mod sign_bit.
Definition is_finite (b : Z) : bool := magnitude_bits b <? inf_bits.
Definition is_nan (b : Z) : bool := inf_bits <? magnitude_bits b.
Definition with_sign (s : bool) (m : Z) : Z := if s then sign_bit + m else m.
(** A finite number is [m * 2 ^ e]. *)
Definition significand (b : Z) : Z :=
  let m := magnitude_bits b in
  if m <? 2 ^ mw f then m else 2 ^ mw f + m mod 2 ^ mw f.
Definition exponent (b : Z) : Z := Z.max 0 (magnitude_bits b / 2 ^ mw f - 1) + unit_exp.

Definition half_even (m d : Z) : Z :=
  let q := m / d in
  match (2 * (m mod d) ?= d) with
  | Lt => q
  | Gt => q + 1
  | Eq => if Z.even q then q else q + 1
  end.
(** The float nearest to [m * 2 ^ e]; a carry out of the significand goes into the
    exponent, and out of the exponent to infinity. *)
Definition encode (s : bool) (m e : Z) : Z :=
  with_sign s
    (if m =? 0 then 0
     else let u := Z.max (Z.log2 m + e - mw f) unit_exp in
          let q := if u <=? e then m * 2 ^ (e - u) else half_even m (2 ^ (u - e)) in
          Z.min inf_bits ((u - unit_exp) * 2 ^ mw f + q)).
Definition of_int (z : Z) : Z := encode (z <? 0) (Z.abs z) 0.

(** [total_cmp]: the bits as a signed integer, whose other bits are flipped if it is
    negative. *)
Definition as_signed (b : Z) : Z := if is_negative b then b - 2 * sign_bit else b.
Definition total_key (b : Z) : Z :=
  let left := as_signed b in
  Z.lxor left (Z.shiftr (Z.shiftr left (ew f + mw f) mod (2 * sign_bit)) 1).
Definition total_cmp (a b : Z) : comparison := total_key a ?= total_key b.

(** The operations, on finite numbers: [None] if the result is not finite. *)
Inductive ArithOp := OpAdd | OpSub | OpMul | OpDiv.
Definition signed_significand (b : Z) : Z := if is_negative b then - significand b else significand b.
Definition float_add (a b : Z) : Z :=
  let e := Z.min (exponent a) (exponent b) in
  let m := signed_significand a * 2 ^ (exponent a - e) + signed_significand b * 2 ^ (exponent b - e) in
  if m =? 0 then with_sign (is_negative a && is_negative b) 0 else encode (m <? 0) (Z.abs m) e.
Definition float_neg (b : Z) : Z := with_sign (negb (is_negative b)) (magnitude_bits b).
Definition float_mul (a b : Z) : Z :=
  encode (xorb (is_negative a) (is_negative b)) (significand a * significand b) (exponent a + exponent b).
(** The quotient has more bits than the significand, and a last one that tells whether
    there is a remainder. *)
Definition float_div (a b : Z) : Z :=
  let shift := Z.max 0 (Z.log2 (significand b) - Z.log2 (significand a) + mw f + 3) in
  let n := significand a * 2 ^ shift in
  encode (xorb (is_negative a) (is_negative b))
    (2 * (n / significand b) + (if n mod significand b =? 0 then 0 else 1)) (exponent a - exponent b - shift - 1).
Definition float_arith (op : ArithOp) (a b : Z) : option Z :=
  if negb (is_finite a && is_finite b) then
    (** infinity divides finite numbers to zero *)
    match op with
    | OpDiv => if is_finite a && negb (is_nan b) then Some (with_sign (xorb (is_negative a) (is_negative b)) 0) else None
    | _ => None
    end
  else
    r ← match op with
        | OpAdd => Some (float_add a b)
        | OpSub => Some (float_add a (float_neg b))
        | OpMul => Some (float_mul a b)
        | OpDiv => if significand b =? 0 then None else Some (float_div a b)
        end;
    if is_finite r then Some r else None.
End fmt.

(** [as]: a conversion of a float keeps a NaN, with the top of its payload, quiet. *)
Definition float_convert (from to : Fmt) (b : Z) : Z :=
  if is_nan from b then
    with_sign to (is_negative from b)
      (inf_bits to + Z.lor (2 ^ (mw to - 1)) (Z.shiftr (magnitude_bits from b mod 2 ^ mw from) (mw from - mw to)))
  else if is_finite from b then encode to (is_negative from b) (significand from b) (exponent from b)
  else with_sign to (is_negative from b) (inf_bits to).
Definition f32_as_f64 : Z → Z := float_convert f32 f64.
Definition f64_as_f32 : Z → Z := float_convert f64 f32.

(** ** Strings *)
(** The tables of Unicode that the standard library uses. *)
Class Unicode := {
  to_lower : Z → list Z;
  is_cased : Z → bool;
  is_case_ignorable : Z → bool;
}.
Inductive Collation := Utf8 | Citext.
#[export] Instance Collation_eq_dec : EqDecision Collation.
Proof. solve_decision. Defined.

Definition utf8_len (c : Z) : nat :=
  if c <? 128 then 1 else if c <? 2048 then 2 else if c <? 65536 then 3 else 4.
Definition str_len (s : list Z) : nat := sum_list (utf8_len <$> s).
Definition TINYTEXT_WIDTH : nat := 14.

Section strings.
Context `{Unicode}.
(** [str::to_lowercase]: a capital sigma (931) at the end of a word is 962, and 963
    elsewhere. *)
Fixpoint ignorable_then_cased (s : list Z) : bool :=
  match s with
  | [] => false
  | c :: s' => if is_case_ignorable c then ignorable_then_cased s' else is_cased c
  end.
Fixpoint lowercase_from (before s : list Z) : list Z :=
  match s with
  | [] => []
  | c :: s' =>
      (if c =? 931 then [if ignorable_then_cased before && negb (ignorable_then_cased s') then 962 else 963] else to_lower c)
      ++ lowercase_from (c :: before) s'
  end.
Definition to_lowercase (s : list Z) : list Z := lowercase_from [] s.

Definition normalize (c : Collation) (s : list Z) : list Z :=
  match c with Utf8 => s | Citext => to_lowercase s end.
Definition compare_strs (c : Collation) (s1 s2 : list Z) : comparison :=
  match c with Utf8 => cmp s1 s2 | Citext => cmp (to_lower <$> s1) (to_lower <$> s2) end.
End strings.

(** ** [TimestampTz] *)
(** The third byte: [extra[2]]; the first two are the low bytes of the offset. *)
Definition TIMEZONE_FLAG : Z := 64.
Definition DATE_FLAG : Z := 32.
Definition SUBSECOND_DIGITS_BITS : Z := 28.
Definition NEGATIVE_FLAG : Z := 2.
Definition TOP_OFFSET_BIT : Z := 1.
Definition not_u8 (x : Z) : Z := Z.lxor 255 x.
Record TimestampTz (T : Type) := { extra0 : Z; extra1 : Z; extra2 : Z; datetime : T }.
Arguments extra0 {T}.
Arguments extra1 {T}.
Arguments extra2 {T}.
Arguments datetime {T}.
Section timestamp.
Context {T : Type}.
Implicit Types (ts : TimestampTz T).
Definition set_extra2 (x : Z) ts : TimestampTz T :=
  {| extra0 := extra0 ts; extra1 := extra1 ts; extra2 := x; datetime := datetime ts |}.
Definition has_negative_offset ts : bool := negb (Z.land (extra2 ts) 2 =? 0).
Definition has_timezone ts : bool := negb (Z.land (extra2 ts) TIMEZONE_FLAG =? 0).
Definition has_date_only ts : bool := negb (Z.land (extra2 ts) DATE_FLAG =? 0).
Definition set_date_only ts : TimestampTz T := set_extra2 (Z.lor (extra2 ts) DATE_FLAG) ts.
Definition get_offset ts : Z :=
  let offset := extra0 ts + 256 * extra1 ts + 65536 * Z.land (extra2 ts) TOP_OFFSET_BIT in
  if has_negative_offset ts then - offset else offset.
Definition set_offset (offset : Z) ts : result (TimestampTz T) :=
  if (-86400 <? offset) && (offset <? 86400) then
    let sign := if offset <? 0 then 1 else 0 in
    let o := Z.abs offset in
    let x := Z.lor (Z.land (Z.shiftr o 16 mod 256) TOP_OFFSET_BIT) (Z.land (extra2 ts) (not_u8 TOP_OFFSET_BIT)) in
    let x := Z.land x (not_u8 NEGATIVE_FLAG) in
    let x := Z.lor x (Z.land (Z.shiftl sign 1) NEGATIVE_FLAG) in
    let x := Z.lor x TIMEZONE_FLAG in
    Ok {| extra0 := o mod 256; extra1 := Z.shiftr o 8 mod 256; extra2 := x; datetime := datetime ts |}
  else Panic.
Definition subsecond_digits ts : Z := Z.shiftr (Z.land (extra2 ts) SUBSECOND_DIGITS_BITS) 2.
Definition set_subsecond_digits (count : Z) ts : TimestampTz T :=
  set_extra2 (Z.lor (Z.land (Z.shiftl count 2 mod 256) SUBSECOND_DIGITS_BITS) (Z.land (extra2 ts) (not_u8 SUBSECOND_DIGITS_BITS))) ts.
(** [From<NaiveDateTime>], and [From<DateTime<FixedOffset>>] of a time in UTC and an offset. *)
Definition from_naive (dt : T) : TimestampTz T := {| extra0 := 0; extra1 := 0; extra2 := 0; datetime := dt |}.
Definition from_offset (dt : T) (offset : Z) : result (TimestampTz T) := set_offset offset (from_naive dt).
End timestamp.

(** ** [DfValue] *)
(** What the code uses of the crate [rust_decimal]: a decimal is a number of units of
    10^-28; it compares as that number, and equal ones have equal hashes. *)
Class DecimalOps (D : Type) := {
  dec_units : D → Z;
  dec_hash : D → list Z;
  dec_of_int : Z → D;
  dec_of_f32 : Z → option D;
  dec_of_f64 : Z → option D;
  dec_of_f32_retain : Z → option D;
  dec_of_f64_retain : Z → option D;
  dec_to_f32 : D → option Z;
  dec_to_f64 : D → option Z;
  dec_checked : ArithOp → D → D → option D;
  dec_min : D;
  dec_max : D;
  dec_hash_units d1 d2 : dec_units d1 = dec_units d2 → dec_hash d1 = dec_hash d2;
}.
(** The date-times of [chrono]: instants, which compare as such. *)
Class DateTimeOps (T : Type) := {
  instant : T → Z;
  dt_min : T;
  dt_max : T;
}.

Inductive DfValue (D T : Type) :=
  | VNone
  | VInt (i : Z)
  | VUnsignedInt (u : Z)
  | VFloat (b : Z)
  | VDouble (b : Z)
  | VText (s : list Z) (c : Collation)
  | VTinyText (s : list Z) (c : Collation)
  | VTimestampTz (ts : TimestampTz T)
  | VTime (t : MySqlTime)
  | VByteArray (b : list Z)
  | VNumeric (d : D)
  | VBitVector (bits : list bool)
  | VArray (lower_bounds : list Z) (shape : list nat) (contents : list (DfValue D T))
  | VPassThrough (ty : Z) (data : list Z)
  | VMax.
Arguments VNone {D T}.
Arguments VInt {D T}.
Arguments VUnsignedInt {D T}.
Arguments VFloat {D T}.
Arguments VDouble {D T}.
Arguments VText {D T}.
Arguments VTinyText {D T}.
Arguments VTimestampTz {D T}.
Arguments VTime {D T}.
Arguments VByteArray {D T}.
Arguments VNumeric {D T}.
Arguments VBitVector {D T}.
Arguments VArray {D T}.
Arguments VPassThrough {D T}.
Arguments VMax {D T}.

(** What a value feeds to a hasher: a word of 64 bits (a signed integer and an unsigned
    one of the same bits alike), a string, or what another type does. *)
Inductive HashWrite :=
  | HU64 (z : Z) | HStr (s : list Z) | HInstant (z : Z) | HTime (positive : bool) (fields : list Z)
  | HBytes (b : list Z) | HDecimal (h : list Z) | HBits (bits : list bool) | HShape (lower_bounds : list Z) (shape : list nat)
  | HPassThrough (ty : Z) (data : list Z).

Section values.
Context `{!Unicode} `{!DecimalOps D} `{!DateTimeOps T} `{Duration Du}.
(** The parsers of timestamps and times. *)
Context (parse_timestamp : list Z → option (TimestampTz T)) (parse_time : list Z → option MySqlTime).
#[local] Abbreviation V := (DfValue D T).
#[local] Abbreviation time_eq := (time_eq (D:=Du)).
#[local] Abbreviation time_cmp := (time_cmp (D:=Du)).
Implicit Types (v w : V).

(** The order of the variants. *)
Definition kind v : nat :=
  match v with
  | VNone => 0 | VInt _ => 1 | VUnsignedInt _ => 2 | VFloat _ => 3 | VDouble _ => 4 | VText _ _ => 5 | VTinyText _ _ => 6
  | VTimestampTz _ => 7 | VTime _ => 8 | VByteArray _ => 9 | VNumeric _ => 10 | VBitVector _ => 11 | VArray _ _ _ => 12
  | VPassThrough _ _ => 13 | VMax => 14
  end.
Definition from_str_and_collation (s : list Z) (c : Collation) : V :=
  if (str_len s <=? TINYTEXT_WIDTH)%nat then VTinyText s c else VText s c.
Definition as_int v : option Z := match v with VInt i | VUnsignedInt i => Some i | _ => None end.
Definition as_str_and_collation v : option (list Z * Collation) :=
  match v with VText s c | VTinyText s c => Some (s, c) | _ => None end.
Definition transform_for_serialized_key v : V :=
  match as_str_and_collation v with
  | Some (s, Citext) => from_str_and_collation (normalize Citext s) Utf8
  | _ => v
  end.

Definition ts_eq (a b : TimestampTz T) : bool := instant (datetime a) =? instant (datetime b).
Definition ts_cmp (a b : TimestampTz T) : comparison := instant (datetime a) ?= instant (datetime b).

(** [PartialEq].  The cases of a string and a time, and of a float and a decimal. *)
Definition str_eq_timestamp (s : list Z) (ts : TimestampTz T) : bool :=
  match parse_timestamp s with Some other => ts_eq other ts | None => false end.
Definition str_eq_time (s : list Z) (t : MySqlTime) : bool :=
  match parse_time s with Some other => time_eq t other | None => false end.
Definition float_eq_dec (b : Z) (df : option Z) : bool := match df with Some b' => b =? b' | None => false end.
Fixpoint df_eq v w : bool :=
  match v, w with
  | (VText a c | VTinyText a c), (VText b _ | VTinyText b _) => match compare_strs c a b with Eq => true | _ => false end
  | (VText a _ | VTinyText a _), VTimestampTz ts | VTimestampTz ts, (VText a _ | VTinyText a _) => str_eq_timestamp a ts
  | (VText a _ | VTinyText a _), VTime t | VTime t, (VText a _ | VTinyText a _) => str_eq_time a t
  | (VInt a | VUnsignedInt a), (VInt b | VUnsignedInt b) => a =? b
  | VFloat a, VFloat b | VDouble a, VDouble b => a =? b
  | VFloat a, VNumeric d | VNumeric d, VFloat a => float_eq_dec a (dec_to_f32 d)
  | VDouble a, VFloat b | VFloat b, VDouble a => a =? f32_as_f64 b
  | VDouble a, VNumeric d | VNumeric d, VDouble a => float_eq_dec a (dec_to_f64 d)
  | VNumeric a, VNumeric b => dec_units a =? dec_units b
  | VTimestampTz a, VTimestampTz b => ts_eq a b
  | VTime a, VTime b => time_eq a b
  | VByteArray a, VByteArray b => bool_decide (a = b)
  | VBitVector a, VBitVector b => bool_decide (a = b)
  | VArray l s a, VArray l' s' b =>
      bool_decide (l = l') && bool_decide (s = s') &&
      (fix list_eq (xs ys : list V) : bool :=
         match xs, ys with [], [] => true | x :: xs', y :: ys' => df_eq x y && list_eq xs' ys' | _, _ => false end) a b
  | VNone, VNone | VMax, VMax => true
  | _, _ => false
  end.

(** [Ord]. *)
Definition str_cmp_timestamp (s : list Z) (ts : TimestampTz T) : comparison :=
  match parse_timestamp s with Some other => ts_cmp other ts | None => Gt end.
Definition str_cmp_time (s : list Z) (t : MySqlTime) : comparison :=
  match parse_time s with Some other => time_cmp other t | None => Gt end.
(** A float of the format [f] and a decimal, with the float as a decimal if it is one. *)
Definition float_cmp_dec (f : Fmt) (b : Z) (da : option D) (d : D) (df : option Z) : comparison :=
  match da with
  | Some da => dec_units da ?= dec_units d
  | None => match df with Some b' => total_cmp f b b' | None => Gt end
  end.
Definition bit (b : bool) : Z := if b then 1 else 0.
Fixpoint df_cmp v w : comparison :=
  match v, w with
  | (VText a c | VTinyText a c), (VText b _ | VTinyText b _) => compare_strs c a b
  | (VText a _ | VTinyText a _), VTimestampTz ts => str_cmp_timestamp a ts
  | (VText a _ | VTinyText a _), VTime t => str_cmp_time a t
  | VTimestampTz ts, (VText a _ | VTinyText a _) => CompOpp (str_cmp_timestamp a ts)
  | VTime t, (VText a _ | VTinyText a _) => CompOpp (str_cmp_time a t)
  | (VInt a | VUnsignedInt a), (VInt b | VUnsignedInt b) => a ?= b
  | VFloat a, VFloat b => total_cmp f32 a b
  | VDouble a, VDouble b => total_cmp f64 a b
  | VNumeric a, VNumeric b => dec_units a ?= dec_units b
  | VFloat a, VDouble b => total_cmp f32 a (f64_as_f32 b)
  | VDouble a, VFloat b => CompOpp (total_cmp f32 b (f64_as_f32 a))
  | VFloat a, VNumeric d => float_cmp_dec f32 a (dec_of_f32_retain a) d (dec_to_f32 d)
  | VDouble a, VNumeric d => float_cmp_dec f64 a (dec_of_f64_retain a) d (dec_to_f64 d)
  | VNumeric d, VFloat a => CompOpp (float_cmp_dec f32 a (dec_of_f32_retain a) d (dec_to_f32 d))
  | VNumeric d, VDouble a => CompOpp (float_cmp_dec f64 a (dec_of_f64_retain a) d (dec_to_f64 d))
  | VTimestampTz a, VTimestampTz b => ts_cmp a b
  | VTime a, VTime b => time_cmp a b
  | (VInt a | VUnsignedInt a), VFloat b => total_cmp f32 (of_int f32 a) b
  | (VInt a | VUnsignedInt a), VDouble b => total_cmp f64 (of_int f64 a) b
  | (VInt a | VUnsignedInt a), VNumeric b => dec_units (dec_of_int a) ?= dec_units b
  | VFloat a, (VInt b | VUnsignedInt b) => total_cmp f32 a (of_int f32 b)
  | VDouble a, (VInt b | VUnsignedInt b) => total_cmp f64 a (of_int f64 b)
  | VNumeric b, (VInt a | VUnsignedInt a) => CompOpp (dec_units (dec_of_int a) ?= dec_units b)
  | VByteArray a, VByteArray b => cmp a b
  | VBitVector a, VBitVector b => cmp (bit <$> a) (bit <$> b)
  | VArray l s a, VArray l' s' b =>
      then_cmp (cmp s s') (then_cmp (cmp l l')
        ((fix list_cmp (xs ys : list V) : comparison :=
            match xs, ys with
            | [], [] => Eq | [], _ => Lt | _, [] => Gt
            | x :: xs', y :: ys' => then_cmp (df_cmp x y) (list_cmp xs' ys')
            end) a b))
  | _, _ => Nat.compare (kind v) (kind w)
  end.

(** [Hash]. *)
Fixpoint df_hash v : list HashWrite :=
  match v with
  | VNone => []
  | VMax => [HU64 1]
  | VInt n | VUnsignedInt n => [HU64 (n mod 2 ^ 64)]
  | VFloat b => [HU64 (f32_as_f64 b)]
  | VDouble b => [HU64 b]
  | VText s c | VTinyText s c => [HStr (normalize c s)]
  | VTimestampTz ts => [HInstant (instant (datetime ts))]
  | VTime t => [HTime (MySqlTime.is_positive t) [hour (D:=Du) t; minutes (D:=Du) t; seconds (D:=Du) t; microseconds (D:=Du) t]]
  | VByteArray b => [HBytes b]
  | VNumeric d => [HDecimal (dec_hash d)]
  | VBitVector bits => [HBits bits]
  | VArray l s vs =>
      HShape l s :: (fix list_hash (vs : list V) : list HashWrite := match vs with [] => [] | v :: vs' => df_hash v ++ list_hash vs' end) vs
  | VPassThrough ty data => [HPassThrough ty data]
  end.

(** [is_truthy]: timestamps are compared with a date of month 0, which cannot be made. *)
Definition is_truthy v : result bool :=
  match v with
  | VNone | VMax => Ok false
  | VInt x | VUnsignedInt x => Ok (negb (x =? 0))
  | VFloat b => Ok (negb (magnitude_bits f32 b =? 0))
  | VDouble b => Ok (negb (magnitude_bits f64 b =? 0))
  | VText s _ | VTinyText s _ => Ok (negb (bool_decide (s = [])))
  | VTimestampTz _ => Panic
  | VTime t => zero ← from_microseconds (D:=Du) 0; Ok (negb (time_eq t zero))
  | VByteArray b => Ok (negb (bool_decide (b = [])))
  | VNumeric d => Ok (negb (dec_units d =? 0))
  | VBitVector bits => Ok (negb (bool_decide (bits = [])))
  | VArray _ _ _ | VPassThrough _ _ => Ok true
  end.

Definition MAX_SECONDS_DATETIME_OFFSET : Z := 85940.
Definition i64_min : Z := - 2 ^ 63.
Definition i64_max : Z := 2 ^ 63 - 1.
Definition u64_max : Z := 2 ^ 64 - 1.
(** [MAX] of a float; [MIN] is its negation. *)
Definition float_max (f : Fmt) : Z := inf_bits f - 1.
Definition float_min (f : Fmt) : Z := with_sign f true (float_max f).
Definition df_min_value v : result V :=
  match v with
  | VNone | VMax => Ok VNone
  | VText _ _ | VTinyText _ _ => Ok (VTinyText [] Utf8)
  | VTimestampTz _ => ts ← from_offset dt_min MAX_SECONDS_DATETIME_OFFSET; Ok (VTimestampTz ts)
  | VFloat _ => Ok (VFloat (float_min f32))
  | VDouble _ => Ok (VDouble (float_min f64))
  | VInt _ => Ok (VInt i64_min)
  | VUnsignedInt _ => Ok (VUnsignedInt 0)
  | VTime _ => t ← MySqlTime.min_value (D:=Du); Ok (VTime t)
  | VByteArray _ => Ok (VByteArray [])
  | VNumeric _ => Ok (VNumeric dec_min)
  | VBitVector _ => Ok (VBitVector [])
  | VArray _ _ _ => Ok (VArray [1] [0%nat] [])
  | VPassThrough ty _ => Ok (VPassThrough ty [])
  end.
Definition df_max_value v : result V :=
  match v with
  | VNone => Ok VNone
  | VTimestampTz _ => ts ← from_offset dt_max MAX_SECONDS_DATETIME_OFFSET; Ok (VTimestampTz ts)
  | VFloat _ => Ok (VFloat (float_max f32))
  | VDouble _ => Ok (VDouble (float_min f64))
  | VInt _ => Ok (VInt i64_max)
  | VUnsignedInt _ => Ok (VUnsignedInt u64_max)
  | VTime _ => t ← MySqlTime.max_value (D:=Du); Ok (VTime t)
  | VNumeric _ => Ok (VNumeric dec_max)
  | VTinyText _ _ | VText _ _ | VByteArray _ | VBitVector _ | VArray _ _ _ | VPassThrough _ _ | VMax => Ok VMax
  end.

(** ** Arithmetic *)
(** [TryFrom<&DfValue>] for [f32], [f64] and [Decimal], and into a value for [i128] and
    the floats. *)
Definition conv {A} (o : option A) : result A := match o with Some a => Ok a | None => Err DfValueConversionError end.
Definition to_f32 v : result Z :=
  match v with
  | VFloat b => Ok b
  | VDouble b => Ok (f64_as_f32 b)
  | VNumeric d => conv (dec_to_f32 d)
  | VUnsignedInt i | VInt i => Ok (of_int f32 i)
  | _ => Err DfValueConversionError
  end.
Definition to_f64 v : result Z :=
  match v with
  | VFloat b => Ok (f32_as_f64 b)
  | VDouble b => Ok b
  | VNumeric d => conv (dec_to_f64 d)
  | VUnsignedInt i | VInt i => Ok (of_int f64 i)
  | _ => Err DfValueConversionError
  end.
Definition to_decimal v : result D :=
  match v with
  | VInt i | VUnsignedInt i => Ok (dec_of_int i)
  | VFloat b => conv (dec_of_f32 b)
  | VDouble b => conv (dec_of_f64 b)
  | VNumeric d => Ok d
  | _ => Err DfValueConversionError
  end.
Definition fits (lo hi z : Z) : bool := (lo <=? z) && (z <=? hi).
Definition try_from_i128 (i : Z) : result V :=
  if fits i64_min i64_max i then Ok (VInt i) else if fits 0 u64_max i then Ok (VUnsignedInt i) else Err DfValueConversionError.
(** [checked_add], [checked_sub], [checked_mul] and [checked_div] of integers of a range. *)
Definition checked (lo hi : Z) (op : ArithOp) (a b : Z) : option Z :=
  r ← match op with
      | OpAdd => Some (a + b)
      | OpSub => Some (a - b)
      | OpMul => Some (a * b)
      | OpDiv => if b =? 0 then None else Some (Z.quot a b)
      end;
  if fits lo hi r then Some r else None.
Definition or_null {A} (f : A → V) (o : option A) : V := match o with Some a => f a | None => VNone end.
Definition arithmetic_operation (op : ArithOp) v w : result V :=
  match v, w with
  | VNone, _ | _, VNone => Ok VNone
  | VInt a, VInt b => Ok (or_null VInt (checked i64_min i64_max op a b))
  | VUnsignedInt a, VUnsignedInt b => Ok (or_null VUnsignedInt (checked 0 u64_max op a b))
  | VUnsignedInt a, VInt b | VInt a, VUnsignedInt b =>
      match checked (- 2 ^ 127) (2 ^ 127 - 1) op a b with Some i => try_from_i128 i | None => Ok VNone end
  | (VInt _ | VUnsignedInt _), VFloat _ | VFloat _, (VInt _ | VUnsignedInt _ | VFloat _ | VDouble _ | VNumeric _) =>
      a ← to_f32 v; b ← to_f32 w; r ← conv (float_arith f32 op a b); Ok (VFloat r)
  | (VInt _ | VUnsignedInt _), VDouble _ | VDouble _, (VInt _ | VUnsignedInt _ | VDouble _ | VFloat _ | VNumeric _) =>
      a ← to_f64 v; b ← to_f64 w; r ← conv (float_arith f64 op a b); Ok (VDouble r)
  | (VInt _ | VUnsignedInt _), VNumeric _ | VNumeric _, (VInt _ | VUnsignedInt _ | VNumeric _ | VFloat _ | VDouble _) =>
      a ← to_decimal v; b ← to_decimal w; Ok (or_null VNumeric (dec_checked op a b))
  | _, _ => Err InvalidQuery
  end.
End values.
