(* ===== verification/ValuesProps.v ===== *)
(** * ValuesProps: the order of SQL values

    What dataflow relies on of its values ([DfVal]): equality, order and hashing fit
    together on the values of columns whose numbers are of one type and whose strings
    and times are of one type ([values_ordered]); a timestamp keeps its parts
    ([timestamp_parts]); a float survives widening ([f32_roundtrip]).  Across types the
    order is not transitive ([int_double_intransitive]), and values of types that are
    only passed through are not even equal to themselves ([pass_through_unequal]). *)
From stdpp Require Import gmap.
From S2P Require Import Prelude Result Records OpGrouped MySqlTime Values.
Local Open Scope Z_scope.

(** ** Total order of floats *)
Section total_cmp.
Context (f : Fmt) (Hmw : 0 < mw f) (Hew : 1 < ew f).
#[local] Abbreviation w := (ew f + mw f).

Lemma sign_bit_pos : 0 < sign_bit f.
Proof using Hmw Hew. unfold sign_bit. apply Z.pow_pos_nonneg; lia. Qed.
Lemma as_signed_range b : float_wf f b → - sign_bit f ≤ as_signed f b < sign_bit f.
Proof using. unfold float_wf, as_signed, is_negative. intros Hb. destruct (Z.leb_spec (sign_bit f) b); lia. Qed.
Lemma total_key_pos b : float_wf f b → 0 ≤ as_signed f b → total_key f b = as_signed f b.
Proof using Hmw Hew.
  intros Hb Hp. apply as_signed_range in Hb. unfold total_key. rewrite (Z.shiftr_div_pow2 _ w) by lia.
  rewrite Z.div_small by (unfold sign_bit in Hb; lia). apply Z.lxor_0_r.
Qed.
Lemma total_key_neg b : float_wf f b → as_signed f b < 0 → total_key f b = Z.lxor (as_signed f b) (Z.ones w).
Proof using Hmw Hew.
  intros Hb Hn. apply as_signed_range in Hb. pose proof sign_bit_pos. unfold total_key. f_equal.
  rewrite (Z.shiftr_div_pow2 _ w) by lia. fold (sign_bit f).
  replace (as_signed f b / sign_bit f) with (-1) by (apply Z.div_unique with (as_signed f b + sign_bit f); lia).
  replace (-1 mod (2 * sign_bit f)) with (2 * sign_bit f - 1) by (apply Z.mod_unique with (-1); lia).
  rewrite Z.shiftr_div_pow2 by lia. rewrite Z.ones_equiv. unfold sign_bit. change (2 ^ 1) with 2.
  symmetry. apply Z.div_unique with 1; lia.
Qed.
Lemma total_key_inj a b : float_wf f a → float_wf f b → total_key f a = total_key f b → a = b.
Proof using Hmw Hew.
  intros Ha Hb Hk. assert (as_signed f a = as_signed f b) as Hs.
  { destruct (Z.lt_ge_cases (as_signed f a) 0) as [Na|Pa], (Z.lt_ge_cases (as_signed f b) 0) as [Nb|Pb].
    - rewrite !total_key_neg in Hk by done. apply (f_equal (λ z, Z.lxor z (Z.ones w))) in Hk.
      by rewrite !Z.lxor_assoc, Z.lxor_nilpotent, !Z.lxor_0_r in Hk.
    - rewrite total_key_neg, total_key_pos in Hk by done. assert (¬ 0 ≤ Z.lxor (as_signed f a) (Z.ones w)); [|lia].
      rewrite Z.lxor_nonneg. assert (0 ≤ Z.ones w) by (rewrite Z.ones_equiv; pose proof sign_bit_pos; unfold sign_bit in *; lia). lia.
    - rewrite total_key_pos, total_key_neg in Hk by done. assert (¬ 0 ≤ Z.lxor (as_signed f b) (Z.ones w)); [|lia].
      rewrite Z.lxor_nonneg. assert (0 ≤ Z.ones w) by (rewrite Z.ones_equiv; pose proof sign_bit_pos; unfold sign_bit in *; lia). lia.
    - by rewrite !total_key_pos in Hk. }
  unfold float_wf, as_signed, is_negative in *. destruct (Z.leb_spec (sign_bit f) a), (Z.leb_spec (sign_bit f) b); lia.
Qed.
End total_cmp.

(** ** Keys *)
Lemma cmp_singletons (a b : list Z) : cmp ((λ c, [c]) <$> a) ((λ c, [c]) <$> b) = cmp a b.
Proof.
  revert b. induction a as [|x a IH]; intros [|y b]; [done..|]. csimpl.
  change (then_cmp (then_cmp (x ?= y) Eq) (cmp ((λ c, [c]) <$> a) ((λ c, [c]) <$> b)) = then_cmp (x ?= y) (cmp a b)).
  rewrite IH. by destruct (x ?= y).
Qed.
Lemma cmp_pair (k : Z) (a b : list Z) : cmp [[k]; a] [[k]; b] = cmp a b.
Proof.
  change (then_cmp (then_cmp (k ?= k) Eq) (then_cmp (cmp a b) Eq) = cmp a b). rewrite Z.compare_refl. by destruct (cmp a b).
Qed.
Lemma cmp_tag (k : Z) (a b : list (list Z)) : cmp ([k] :: a) ([k] :: b) = cmp a b.
Proof. change (then_cmp (then_cmp (k ?= k) Eq) (cmp a b) = cmp a b). by rewrite Z.compare_refl. Qed.
Lemma cmp_one (a b : Z) : cmp [a] [b] = (a ?= b).
Proof. change (then_cmp (a ?= b) Eq = (a ?= b)). by destruct (a ?= b). Qed.

Section order.
Context `{!Unicode} `{!DecimalOps D} `{!DateTimeOps T} `{Duration Du}.
Context (parse_timestamp : list Z → option (TimestampTz T)) (parse_time : list Z → option MySqlTime).
#[local] Abbreviation V := (DfValue D T).
#[local] Abbreviation df_eq := (df_eq (Du:=Du) parse_timestamp parse_time).
#[local] Abbreviation df_cmp := (df_cmp (Du:=Du) parse_timestamp parse_time).
#[local] Abbreviation df_hash := (df_hash (Du:=Du)).
Implicit Types (u v w : V).

(** The types of numbers, and of strings and times, that values are compared across. *)
Inductive NumClass := NcInt | NcFloat | NcDouble | NcNumeric.
Inductive TextClass := TcText (c : Collation) | TcTimestamp | TcTime.
(** Values of columns with one type of each; of any type without a class. *)
Definition typed (n : NumClass) (t : TextClass) v : Prop :=
  match v with
  | VNone | VMax | VByteArray _ | VBitVector _ => True
  | VInt _ | VUnsignedInt _ => n = NcInt
  | VFloat b => n = NcFloat ∧ float_wf f32 b
  | VDouble b => n = NcDouble ∧ float_wf f64 b
  | VNumeric _ => n = NcNumeric
  | VText _ c | VTinyText _ c => t = TcText c
  | VTimestampTz _ => t = TcTimestamp
  | VTime _ => t = TcTime
  | VArray _ _ _ | VPassThrough _ _ => False
  end.

Definition time_key (t : MySqlTime) : list Z :=
  [bit (MySqlTime.is_positive t); hour (D:=Du) t; minutes (D:=Du) t; seconds (D:=Du) t; microseconds (D:=Du) t].
(** What a value compares as. *)
Definition value_key v : list (list Z) :=
  match v with
  | VNone => [[0]]
  | VInt i | VUnsignedInt i => [[1]; [i]]
  | VFloat b => [[3]; [total_key f32 b]]
  | VDouble b => [[4]; [total_key f64 b]]
  | VText s c | VTinyText s c => [5] :: match c with Utf8 => (λ c, [c]) <$> s | Citext => to_lower <$> s end
  | VTimestampTz ts => [[7]; [instant (datetime ts)]]
  | VTime t => [[8]; time_key t]
  | VByteArray b => [[9]; b]
  | VNumeric d => [[10]; [dec_units d]]
  | VBitVector bits => [[11]; bit <$> bits]
  | VArray _ _ _ | VPassThrough _ _ => []
  | VMax => [[14]]
  end.

Lemma time_cmp_key a b : time_cmp (D:=Du) a b = cmp (time_key a) (time_key b).
Proof.
  unfold MySqlTime.time_cmp, time_key.
  set (a1 := hour a). set (b1 := hour b). set (a2 := minutes a). set (b2 := minutes b). set (a3 := seconds a).
  set (b3 := seconds b). set (a4 := microseconds a). set (b4 := microseconds b).
  change (then_cmp (bool_cmp (MySqlTime.is_positive a) (MySqlTime.is_positive b))
    (then_cmp (a1 ?= b1) (then_cmp (a2 ?= b2) (then_cmp (a3 ?= b3) (a4 ?= b4)))) =
    then_cmp (bit (MySqlTime.is_positive a) ?= bit (MySqlTime.is_positive b))
    (then_cmp (a1 ?= b1) (then_cmp (a2 ?= b2) (then_cmp (a3 ?= b3) (then_cmp (a4 ?= b4) Eq))))).
  by destruct (MySqlTime.is_positive a), (MySqlTime.is_positive b), (a1 ?= b1), (a2 ?= b2), (a3 ?= b3), (a4 ?= b4).
Qed.

(** Values of different types of a class are excluded. *)
Ltac typed_cases := intros Hv Hw; destruct_and?; simplify_eq; try done.
Lemma df_cmp_key n t v w : typed n t v → typed n t w → df_cmp v w = cmp (value_key v) (value_key w).
Proof.
  destruct v, w; cbn [typed Values.df_cmp value_key]; typed_cases; rewrite ?cmp_pair, ?cmp_one; try done.
  all: try by apply time_cmp_key.
  all: rewrite cmp_tag; match goal with c : Collation |- _ => destruct c end; [by rewrite cmp_singletons|done].
Qed.

Lemma cmp_is_eq {A} `{Ord A} (x y : A) : match cmp x y with Eq => true | _ => false end = true ↔ x = y.
Proof. rewrite <-cmp_eq_iff. by destruct (cmp x y). Qed.
Lemma time_eq_key a b : time_eq (D:=Du) a b = true ↔ time_key a = time_key b.
Proof.
  unfold MySqlTime.time_eq, time_key. rewrite !andb_true_iff, bool_decide_eq_true, !Z.eqb_eq. split.
  - intros ((((-> & ->) & ->) & ->) & ->). done.
  - intros [= Hp -> -> -> ->]. split_and!; try done. by destruct (MySqlTime.is_positive a), (MySqlTime.is_positive b).
Qed.
#[local] Instance bit_inj : Inj (=) (=) bit.
Proof. by intros [] []. Qed.
#[local] Instance single_inj : Inj (=) (=) (λ c : Z, [c]).
Proof. by intros a b [= ->]. Qed.

Lemma df_eq_key n t v w : typed n t v → typed n t w → df_eq v w = true ↔ value_key v = value_key w.
Proof.
  destruct v, w; cbn [typed Values.df_eq value_key]; typed_cases; unfold ts_eq;
    rewrite ?Z.eqb_eq, ?bool_decide_eq_true, ?time_eq_key.
  all: try (match goal with c : Collation |- _ => destruct c end; cbn [compare_strs]; rewrite cmp_is_eq).
  all: split; [by intros ->|first [congruence|intros Hk; simplify_eq; try done]].
  - by apply (total_key_inj f32).
  - by apply (total_key_inj f64).
Qed.

Lemma df_hash_key n t v w : t ≠ TcText Citext → typed n t v → typed n t w → value_key v = value_key w → df_hash v = df_hash w.
Proof.
  intros Ht. destruct v, w; cbn [typed Values.df_hash value_key]; typed_cases.
  all: try (intros Hk; simplify_eq; done).
  all: try (match goal with c : Collation |- _ => destruct c; [|done] end; intros Hk; simplify_eq; done).
  - intros [= Hk]. by rewrite (total_key_inj f32 ltac:(done) ltac:(done) b b0).
  - intros [= Hk]. by rewrite (total_key_inj f64 ltac:(done) ltac:(done) b b0).
  - congruence.
  - intros [= Hp -> -> -> ->]. by destruct (MySqlTime.is_positive t0), (MySqlTime.is_positive t1).
  - intros [= Hk]. by rewrite (dec_hash_units d d0).
Qed.

(** C21: Equality, order and hashing fit together on the values of columns whose numbers are of
    one type and whose strings and times are of one type, arrays and pass-through values
    apart ([typed]): the order is total, its equality is [==], NULL is the least value and
    [Max] the greatest; and equal values have equal hashes unless the strings are compared
    without case. *)
Theorem values_ordered n t u v w : typed n t u → typed n t v → typed n t w →
  (df_eq u v = true ↔ df_cmp u v = Eq) ∧ df_cmp v u = CompOpp (df_cmp u v) ∧
  (df_cmp u v ≠ Gt → df_cmp v w ≠ Gt → df_cmp u w ≠ Gt) ∧
  df_cmp VNone u ≠ Gt ∧ df_cmp u VMax ≠ Gt ∧
  (t ≠ TcText Citext → df_eq u v = true → df_hash u = df_hash v).
Proof.
  intros Hu Hv Hw. rewrite (df_eq_key n t u v), !(df_cmp_key n t) by done. split_and!.
  - symmetry. apply cmp_eq_iff.
  - apply cmp_antisym.
  - intros. ord_lia.
  - by destruct u.
  - by destruct u.
  - intros Ht. by apply (df_hash_key n t).
Qed.

(** ** Values of the dataflow *)
(** Integers, strings in their shorter representation, bytes and bits: different values
    differ. *)
Definition canonical v : bool :=
  match v with
  | VNone | VMax | VInt _ | VByteArray _ | VBitVector _ => true
  | VText s Utf8 => negb (str_len s <=? TINYTEXT_WIDTH)%nat
  | VTinyText s Utf8 => (str_len s <=? TINYTEXT_WIDTH)%nat
  | _ => false
  end.
Lemma canonical_typed v : canonical v = true → typed NcInt (TcText Utf8) v.
Proof. by destruct v as [| | | | |s []|s []| | | | | | | |]. Qed.
Lemma canonical_key v w : canonical v = true → canonical w = true → value_key v = value_key w → v = w.
Proof.
  destruct v as [| | | | |s []|s []| | | | | | | |], w as [| | | | |s' []|s' []| | | | | | | |]; cbn [canonical value_key]; try done.
  all: intros Hv Hw Hk; simplify_eq; try done.
  all: by rewrite ?Hv, ?Hw in *.
Qed.

(** The interface that states, operators and readers are proved against. *)
Definition CVal : Type := { v : V | canonical v = true }.
#[local] Instance canonical_pi v : ProofIrrel (canonical v = true).
Proof. apply _. Qed.
#[refine] Instance cval_ord : Ord CVal := {| cmp a b := df_cmp (`a) (`b) |}.
Proof.
  - intros [v Hv] [w Hw]. cbn. rewrite (df_cmp_key NcInt (TcText Utf8)) by (by apply canonical_typed). rewrite cmp_eq_iff. split.
    + intros Hk. apply (sig_eq_pi _). by apply canonical_key.
    + intros [= ->]. done.
  - intros [v Hv] [w Hw]. cbn. rewrite !(df_cmp_key NcInt (TcText Utf8)) by (by apply canonical_typed). apply cmp_antisym.
  - intros [u Hu] [v Hv] [w Hw]. cbn. rewrite !(df_cmp_key NcInt (TcText Utf8)) by (by apply canonical_typed). apply cmp_lt_trans.
Defined.
#[refine] Instance cval_val : DfVal CVal := {| dfv_none := exist _ VNone _ |}.
Proof. done. Defined.
#[refine] Instance cval_num : DfNum CVal := {| dfv_int z := exist _ (VInt z) _; dfv_as_int x := as_int (`x) |}.
Proof. all: done. Defined.
End order.

(** ** The parts of a timestamp *)
Lemma byte_forall (P : Z → bool) : forallb P (seqZ 0 256) = true → ∀ x, 0 ≤ x < 256 → P x = true.
Proof. intros HP x Hx. rewrite forallb_forall in HP. apply HP, list_elem_of_In, elem_of_seqZ. lia. Qed.

(** The bits of the third byte: the top of the offset, its sign, the digits of a second,
    whether there is only a date, and whether there is an offset. *)
Definition top_bit (x : Z) : Z := Z.land x TOP_OFFSET_BIT.
Definition neg_bit (x : Z) : bool := negb (Z.land x 2 =? 0).
Definition digit_bits (x : Z) : Z := Z.shiftr (Z.land x SUBSECOND_DIGITS_BITS) 2.
Definition date_bit (x : Z) : bool := negb (Z.land x DATE_FLAG =? 0).
Definition zone_bit (x : Z) : bool := negb (Z.land x TIMEZONE_FLAG =? 0).
Definition bits_are (x : Z) (top : Z) (neg : bool) (digits : Z) (date zone : bool) : bool :=
  (0 <=? x) && (x <? 256) && (top_bit x =? top) && eqb (neg_bit x) neg && (digit_bits x =? digits) && eqb (date_bit x) date && eqb (zone_bit x) zone.

Definition offset_byte (x top : Z) (neg : bool) : Z :=
  Z.lor (Z.lor (Z.land (Z.lor (Z.land top TOP_OFFSET_BIT) (Z.land x (not_u8 TOP_OFFSET_BIT))) (not_u8 NEGATIVE_FLAG))
    (Z.land (Z.shiftl (if neg then 1 else 0) 1) NEGATIVE_FLAG)) TIMEZONE_FLAG.
Definition digits_byte (x count : Z) : Z :=
  Z.lor (Z.land (Z.shiftl count 2 mod 256) SUBSECOND_DIGITS_BITS) (Z.land x (not_u8 SUBSECOND_DIGITS_BITS)).

Lemma offset_byte_bits x top (neg : bool) : 0 ≤ x < 256 → top = 0 ∨ top = 1 →
  bits_are (offset_byte x top neg) top neg (digit_bits x) (date_bit x) true = true.
Proof.
  intros Hx Ht. revert x Hx. destruct Ht as [->| ->], neg; apply byte_forall; vm_compute; reflexivity.
Qed.
Lemma digits_byte_bits x count : 0 ≤ x < 256 → 0 ≤ count < 8 →
  bits_are (digits_byte x count) (top_bit x) (neg_bit x) count (date_bit x) (zone_bit x) = true.
Proof.
  intros Hx Hc. assert (count ∈ seqZ 0 8) as Hin by (apply elem_of_seqZ; lia). revert x Hx.
  vm_compute in Hin. repeat (apply elem_of_cons in Hin as [->|Hin]; [apply byte_forall; vm_compute; reflexivity|]).
  by apply elem_of_nil in Hin.
Qed.
Lemma date_byte_bits x : 0 ≤ x < 256 → bits_are (Z.lor x DATE_FLAG) (top_bit x) (neg_bit x) (digit_bits x) true (zone_bit x) = true.
Proof. revert x. apply byte_forall. vm_compute. reflexivity. Qed.
Lemma bits_are_inv x top neg digits date zone : bits_are x top neg digits date zone = true →
  0 ≤ x < 256 ∧ top_bit x = top ∧ neg_bit x = neg ∧ digit_bits x = digits ∧ date_bit x = date ∧ zone_bit x = zone.
Proof.
  unfold bits_are. rewrite !andb_true_iff, !Z.eqb_eq, !eqb_true_iff, Z.leb_le, Z.ltb_lt. tauto.
Qed.

(** The parts of a timestamp are stored side by side: setting the offset from UTC, the
    digits of a second or the mark of a date keeps the others, and the offset and the
    digits are read back as they were set. *)
Theorem timestamp_parts {T} (ts : TimestampTz T) offset count :
  0 ≤ extra2 ts < 256 → -86400 < offset < 86400 → 0 ≤ count < 8 →
  ∃ ts', set_offset offset ts = Ok ts' ∧ get_offset ts' = offset ∧ has_timezone ts' = true ∧
    has_date_only ts' = has_date_only ts ∧ subsecond_digits ts' = subsecond_digits ts ∧ datetime ts' = datetime ts ∧
    let ts2 := set_subsecond_digits count ts' in
    subsecond_digits ts2 = count ∧ get_offset ts2 = offset ∧ has_timezone ts2 = true ∧ has_date_only ts2 = has_date_only ts ∧
    let ts3 := set_date_only ts2 in
    has_date_only ts3 = true ∧ subsecond_digits ts3 = count ∧ get_offset ts3 = offset ∧ has_timezone ts3 = true.
Proof.
  intros Hx Ho Hc. unfold set_offset. rewrite (proj2 (Z.ltb_lt _ _) (proj1 Ho)), (proj2 (Z.ltb_lt _ _) (proj2 Ho)). cbn [andb].
  set (o := Z.abs offset). assert (0 ≤ o < 86400) as Ho' by lia.
  eexists. split; [reflexivity|].
  assert (Z.shiftr o 16 mod 256 = 0 ∨ Z.shiftr o 16 mod 256 = 1) as Htop.
  { rewrite Z.shiftr_div_pow2 by lia. change (2 ^ 16) with 65536. Z.to_euclidean_division_equations; lia. }
  pose proof (offset_byte_bits _ _ (offset <? 0) Hx Htop) as H1. set (x1 := offset_byte _ _ _) in H1.
  apply bits_are_inv in H1 as (Hx1 & T1 & N1 & D1 & Da1 & Z1).
  pose proof (digits_byte_bits x1 count Hx1 Hc) as H2. set (x2 := digits_byte _ _) in H2.
  apply bits_are_inv in H2 as (Hx2 & T2 & N2 & D2 & Da2 & Z2).
  pose proof (date_byte_bits x2 Hx2) as H3. apply bits_are_inv in H3 as (Hx3 & T3 & N3 & D3 & Da3 & Z3).
  assert (∀ x, top_bit x = top_bit x1 → neg_bit x = neg_bit x1 →
    get_offset {| extra0 := o mod 256; extra1 := Z.shiftr o 8 mod 256; extra2 := x; datetime := datetime ts |} = offset) as Hoff.
  { intros x Ht Hn. unfold get_offset, has_negative_offset. cbn [extra0 extra1 extra2].
    change (negb (Z.land x 2 =? 0)) with (neg_bit x). change (Z.land x TOP_OFFSET_BIT) with (top_bit x).
    rewrite Hn, Ht, T1, N1, !Z.shiftr_div_pow2 by lia. change (2 ^ 16) with 65536. change (2 ^ 8) with 256.
    assert (o mod 256 + 256 * (o / 256 mod 256) + 65536 * (o / 65536 mod 256) = o) as ->
      by (Z.to_euclidean_division_equations; lia).
    subst o. destruct (Z.ltb_spec offset 0); lia. }
  split_and!; [by apply Hoff|exact Z1|exact Da1|exact D1|done|exact D2|by apply Hoff|exact (eq_trans Z2 Z1)|exact (eq_trans Da2 Da1)
    |exact Da3|exact (eq_trans D3 D2)|apply Hoff; [exact (eq_trans T3 T2)|exact (eq_trans N3 N2)]|exact (eq_trans Z3 (eq_trans Z2 Z1))].
Qed.

(** ** Widening of floats *)
Section decode.
Context (f : Fmt) (Hmw : 0 < mw f) (Hew : 1 < ew f).

Lemma pow_mw_pos : 0 < 2 ^ mw f.
Proof using Hmw. apply Z.pow_pos_nonneg; lia. Qed.
Lemma inf_bits_lt : 0 < inf_bits f < sign_bit f.
Proof using Hmw Hew.
  unfold inf_bits, sign_bit. rewrite Z.pow_add_r by lia. pose proof pow_mw_pos.
  assert (2 ≤ 2 ^ ew f) by (change 2 with (2 ^ 1) at 1; apply Z.pow_le_mono_r; lia). nia.
Qed.
(** A float is its sign and its magnitude. *)
Lemma with_sign_magnitude b : float_wf f b → b = with_sign f (is_negative f b) (magnitude_bits f b).
Proof using Hmw Hew.
  unfold float_wf, with_sign, is_negative, magnitude_bits. intros Hb. destruct (Z.leb_spec (sign_bit f) b).
  - rewrite <-(Z.mod_unique b (sign_bit f) 1 (b - sign_bit f)); lia.
  - rewrite Z.mod_small; lia.
Qed.
Lemma sign_of s M : 0 ≤ M < sign_bit f → is_negative f (with_sign f s M) = s ∧ magnitude_bits f (with_sign f s M) = M.
Proof using Hmw Hew.
  unfold with_sign, is_negative, magnitude_bits. intros HM. destruct s.
  - split; [apply Z.leb_le; lia|]. symmetry. apply (Z.mod_unique _ _ 1); lia.
  - split; [apply Z.leb_gt; lia|]. apply Z.mod_small; lia.
Qed.
(** The magnitude of a finite float, from its significand and its exponent. *)
Lemma magnitude_decode b : float_wf f b →
  0 ≤ significand f b < 2 * 2 ^ mw f ∧ unit_exp f ≤ exponent f b ∧ (2 ^ mw f ≤ significand f b ∨ exponent f b = unit_exp f) ∧
  magnitude_bits f b = (exponent f b - unit_exp f) * 2 ^ mw f + significand f b.
Proof using Hmw Hew.
  intros Hb. pose proof (sign_bit_pos f Hmw Hew) as Hs. pose proof pow_mw_pos as Hp. unfold significand, exponent.
  assert (0 ≤ magnitude_bits f b) as Hm by (unfold magnitude_bits; apply Z.mod_pos_bound; lia).
  set (M := magnitude_bits f b) in *. clearbody M. destruct (Z.ltb_spec M (2 ^ mw f)) as [Hlt|Hge].
  - rewrite Z.div_small by lia. split_and!; lia.
  - assert (1 ≤ M / 2 ^ mw f) by (apply Z.div_le_lower_bound; lia). pose proof (Z.mod_pos_bound M _ Hp).
    pose proof (Z.div_mod M (2 ^ mw f)). split_and!; try lia. rewrite Z.max_r by lia. nia.
Qed.
Lemma decode_normal M e m : 2 ^ mw f ≤ m < 2 * 2 ^ mw f → unit_exp f ≤ e → M = (e - unit_exp f) * 2 ^ mw f + m → M < sign_bit f → ∀ s,
  significand f (with_sign f s M) = m ∧ exponent f (with_sign f s M) = e.
Proof using Hmw Hew.
  intros Hm He HM Hlt s. pose proof pow_mw_pos as Hp. assert (0 ≤ M) by nia. unfold significand, exponent.
  rewrite (proj2 (sign_of s M ltac:(lia))).
  assert (M / 2 ^ mw f = e - unit_exp f + 1) as -> by (symmetry; apply (Z.div_unique _ _ _ (m - 2 ^ mw f)); lia).
  assert (M mod 2 ^ mw f = m - 2 ^ mw f) as -> by (symmetry; apply (Z.mod_unique _ _ (e - unit_exp f + 1)); lia).
  destruct (Z.ltb_spec M (2 ^ mw f)); [nia|]. lia.
Qed.
End decode.

(** The float of the wider format that a finite one is converted to. *)
Lemma widen b : float_wf f32 b → is_finite f32 b = true → 0 < significand f32 b →
  let m := significand f32 b in let e := exponent f32 b in let k := Z.log2 m in
  let M := (k + e - 52 + 1074) * 2 ^ 52 + m * 2 ^ (52 - k) in
  f32_as_f64 b = with_sign f64 (is_negative f32 b) M ∧ 0 ≤ M < inf_bits f64 ∧ 0 ≤ k ≤ 23 ∧ 2 ^ 52 ≤ m * 2 ^ (52 - k) < 2 * 2 ^ 52.
Proof.
  intros Hb Hfin Hpos m e k M. destruct (magnitude_decode f32 ltac:(done) ltac:(done) b Hb) as (Hm & He & _ & Hmag).
  fold m in Hm, Hmag, Hpos. fold e in He, Hmag. change (unit_exp f32) with (-149) in *. change (2 ^ mw f32) with 8388608 in *.
  unfold is_finite in Hfin. apply Z.ltb_lt in Hfin. change (inf_bits f32) with 2139095040 in Hfin.
  assert (0 ≤ k ≤ 23) as Hk.
  { split; [apply Z.log2_nonneg|]. subst k. apply Z.lt_succ_r, Z.log2_lt_pow2; [lia|]. change (2 ^ Z.succ 23) with 16777216. lia. }
  pose proof (Z.log2_spec m Hpos) as Hlog. fold k in Hlog.
  assert (2 ^ 52 ≤ m * 2 ^ (52 - k) < 2 ^ 53) as Hq.
  { replace (2 ^ 52) with (2 ^ k * 2 ^ (52 - k)) by (rewrite <-Z.pow_add_r by lia; f_equal; lia).
    replace (2 ^ 53) with (2 ^ Z.succ k * 2 ^ (52 - k)) by (rewrite <-Z.pow_add_r by lia; f_equal; lia).
    assert (0 < 2 ^ (52 - k)) by (apply Z.pow_pos_nonneg; lia). nia. }
  assert (e ≤ 105) as He2 by lia.
  assert (0 ≤ M < inf_bits f64) as HM by (subst M; change (inf_bits f64) with (2047 * 2 ^ 52); lia).
  split; [|split_and!; lia]. unfold f32_as_f64, float_convert.
  assert (is_nan f32 b = false) as -> by (apply Z.ltb_ge; change (inf_bits f32) with 2139095040; lia).
  assert (is_finite f32 b = true) as -> by (apply Z.ltb_lt; change (inf_bits f32) with 2139095040; lia).
  unfold encode. fold m e k. rewrite (proj2 (Z.eqb_neq m 0)) by lia. change (mw f64) with 52. change (unit_exp f64) with (-1074).
  rewrite Z.max_l, (proj2 (Z.leb_le _ e)) by lia. replace (e - (k + e - 52)) with (52 - k) by lia.
  f_equal. replace (k + e - 52 - -1074) with (k + e - 52 + 1074) by lia. fold M. lia.
Qed.

(** A float of 32 bits survives the conversion to 64 bits and back. *)
Theorem f32_roundtrip b : float_wf f32 b → is_nan f32 b = false → f64_as_f32 (f32_as_f64 b) = b.
Proof.
  intros Hb Hnan. pose proof (with_sign_magnitude f32 ltac:(done) ltac:(done) b Hb) as Hsign.
  destruct (magnitude_decode f32 ltac:(done) ltac:(done) b Hb) as (Hm & He & Hnorm & Hmag).
  destruct (is_finite f32 b) eqn:Hfin.
  2:{ unfold f32_as_f64, float_convert. rewrite Hnan, Hfin. apply Z.ltb_ge in Hfin, Hnan.
      assert (magnitude_bits f32 b = inf_bits f32) as HM by lia. rewrite HM in Hsign. rewrite Hsign at 2. by destruct (is_negative f32 b). }
  destruct (Z.eq_dec (significand f32 b) 0) as [Hz|Hnz].
  { assert (magnitude_bits f32 b = 0) as HM by (destruct Hnorm as [?|He0]; [change (2 ^ mw f32) with 8388608 in *; lia|rewrite He0 in Hmag; lia]).
    unfold f32_as_f64, float_convert. rewrite Hnan, Hfin. rewrite Hz, HM in *. rewrite Hsign at 2. by destruct (is_negative f32 b). }
  destruct (widen b Hb Hfin ltac:(lia)) as (-> & HM & Hk & Hq). set (m := significand f32 b) in *. set (e := exponent f32 b) in *.
  apply Z.ltb_lt in Hfin.
  set (k := Z.log2 m) in *. set (M := (k + e - 52 + 1074) * 2 ^ 52 + m * 2 ^ (52 - k)) in *.
  set (q := m * 2 ^ (52 - k)) in *. change (unit_exp f32) with (-149) in *. change (2 ^ mw f32) with 8388608 in *.
  destruct (sign_of f64 ltac:(done) ltac:(done) (is_negative f32 b) M) as [Hs64 HM64].
  { pose proof (inf_bits_lt f64 ltac:(done) ltac:(done)). lia. }
  destruct (decode_normal f64 ltac:(done) ltac:(done) M (k + e - 52) q) with (s := is_negative f32 b) as [Hsig Hexp].
  { done. } { change (unit_exp f64) with (-1074). lia. } { change (unit_exp f64) with (-1074). change (mw f64) with 52. unfold M. lia. }
  { pose proof (inf_bits_lt f64 ltac:(done) ltac:(done)). lia. }
  unfold f64_as_f32, float_convert, is_nan, is_finite. rewrite HM64, Hs64, Hsig, Hexp.
  rewrite (proj2 (Z.ltb_ge _ _)), (proj2 (Z.ltb_lt M _)) by lia. unfold encode.
  rewrite (proj2 (Z.eqb_neq q 0)) by lia. rewrite (Z.log2_unique q 52) by lia. change (mw f32) with 23. change (unit_exp f32) with (-149).
  assert (Z.max (52 + (k + e - 52) - 23) (-149) = e) as ->.
  { destruct Hnorm as [Hn| ->]; [|lia]. assert (23 ≤ k); [|lia]. change 23 with (Z.log2 8388608). by apply Z.log2_le_mono. }
  rewrite (proj2 (Z.leb_gt _ _)) by lia. replace (e - (k + e - 52)) with (52 - k) by lia.
  assert (0 < 2 ^ (52 - k)) as Hd by (apply Z.pow_pos_nonneg; lia).
  assert (half_even q (2 ^ (52 - k)) = m) as ->.
  { unfold half_even, q. rewrite Z.div_mul, Z.mod_mul by lia. change (2 * 0) with 0. by rewrite (proj2 (Z.compare_lt_iff 0 _)). }
  change (2 ^ 23) with 8388608. rewrite <-Hmag, Z.min_r by lia. done.
Qed.

(** ** Where the laws fail *)
Section laws_fail.
Context `{!Unicode} `{!DecimalOps D} `{!DateTimeOps T} `{Duration Du}.
Context (parse_timestamp : list Z → option (TimestampTz T)) (parse_time : list Z → option MySqlTime).
#[local] Abbreviation df_eq := (df_eq (D:=D) (T:=T) (Du:=Du) parse_timestamp parse_time).
#[local] Abbreviation df_cmp := (df_cmp (D:=D) (T:=T) (Du:=Du) parse_timestamp parse_time).
#[local] Abbreviation df_hash := (df_hash (D:=D) (T:=T) (Du:=Du)).

(** A value of a type that is only passed through is not equal to itself, and compares
    as equal to all others of such types: no row with one is found again. *)
Theorem pass_through_unequal ty data ty' data' :
  df_eq (VPassThrough ty data) (VPassThrough ty data) = false ∧
  df_cmp (VPassThrough ty data) (VPassThrough ty' data') = Eq.
Proof. done. Qed.

(** Integers are rounded when they are compared with doubles: two different integers
    compare as equal to the same double, which is equal to neither. *)
Theorem int_double_intransitive :
  let d := VDouble (of_int f64 (2 ^ 53)) in
  df_cmp (VInt (2 ^ 53 + 1)) d = Eq ∧ df_cmp d (VInt (2 ^ 53)) = Eq ∧ df_cmp (VInt (2 ^ 53 + 1)) (VInt (2 ^ 53)) = Gt ∧
  df_eq d (VInt (2 ^ 53)) = false.
Proof. done. Qed.

(** The largest value of doubles is their smallest one. *)
Theorem max_double_is_min b b' :
  df_max_value (Du:=Du) (VDouble b : DfValue D T) = df_min_value (Du:=Du) (VDouble b') ∧
  ∃ m, df_max_value (Du:=Du) (VDouble b : DfValue D T) = Ok m ∧ df_cmp m (VDouble 0) = Lt.
Proof. split; [done|]. by eexists. Qed.

(** Strings that compare as equal without case may have different hashes and different
    keys on disk, when one ends in a capital sigma: case is folded by character for
    the comparison, but by word for these. *)
Theorem citext_sigma_hash :
  to_lower 913 = [945] → to_lower 931 = [963] → to_lower 945 = [945] → to_lower 963 = [963] →
  is_cased 913 = true → is_case_ignorable 913 = false →
  let upper := VTinyText [913; 931] Citext in let lower := VTinyText [945; 963] Citext in
  df_eq upper lower = true ∧ df_hash upper ≠ df_hash lower ∧
  transform_for_serialized_key (D:=D) (T:=T) upper ≠ transform_for_serialized_key lower.
Proof.
  intros H1 H2 H3 H4 H5 H6. cbn -[Z.eqb]. unfold to_lowercase.
  cbn -[Z.eqb cmp from_str_and_collation]. rewrite H1, H2, H3, H4, H5, H6. cbn. split_and!; done.
Qed.
End laws_fail.

(** ** Samples *)
Definition ascii_greek : Unicode :=
  {| to_lower c := if (65 <=? c) && (c <=? 90) || (913 <=? c) && (c <=? 937) then [c + 32] else [c];
     is_cased c := (65 <=? c) && (c <=? 90) || (97 <=? c) && (c <=? 122) || (913 <=? c) && (c <=? 969);
     is_case_ignorable _ := false |}.
(** Decimals as their numbers of units, not converted to floats. *)
Definition units_decimal : DecimalOps Z.
Proof.
  refine {| dec_units d := d; dec_hash d := [d]; dec_of_int z := z * 10 ^ 28; dec_of_f32 _ := None; dec_of_f64 _ := None;
    dec_of_f32_retain _ := None; dec_of_f64_retain _ := None; dec_to_f32 _ := None; dec_to_f64 _ := None;
    dec_checked op a b := match op with OpAdd => Some (a + b) | OpSub => Some (a - b) | _ => None end;
    dec_min := - 10 ^ 56; dec_max := 10 ^ 56 |}. by intros ?? ->.
Defined.
Definition z_datetime : DateTimeOps Z := {| instant z := z; dt_min := 0; dt_max := 10 ^ 20 |}.
Definition no_timestamp (s : list Z) : option (TimestampTz Z) := None.
Definition no_time (s : list Z) : option MySqlTime := None.

(** A string in its two representations. *)
Definition short_ab : DfValue Z Z := VTinyText [97; 98] Utf8.
Definition long_ab : DfValue Z Z := VText [97; 98] Utf8.
Lemma values_ordered_witness :
  df_cmp (H:=ascii_greek) (DecimalOps0:=units_decimal) (DateTimeOps0:=z_datetime) (Du:=Z) no_timestamp no_time short_ab VMax ≠ Gt ∧
  df_eq (H:=ascii_greek) (DecimalOps0:=units_decimal) (DateTimeOps0:=z_datetime) (Du:=Z) no_timestamp no_time short_ab long_ab = true ∧
  Values.df_hash (H:=ascii_greek) (DecimalOps0:=units_decimal) (DateTimeOps0:=z_datetime) (Du:=Z) short_ab =
    Values.df_hash (H:=ascii_greek) (DecimalOps0:=units_decimal) (DateTimeOps0:=z_datetime) (Du:=Z) long_ab.
Proof.
  destruct (values_ordered (H:=ascii_greek) (DecimalOps0:=units_decimal) (DateTimeOps0:=z_datetime) no_timestamp no_time NcInt (TcText Utf8)
    short_ab long_ab (VInt 3)) as (_ & _ & _ & _ & Hmax & Hhash); [done..|].
  split_and!; [exact Hmax|vm_compute; reflexivity|]. apply Hhash; [done|vm_compute; reflexivity].
Defined.
Lemma timestamp_parts_witness : ∃ ts, set_offset (-3600) (from_naive 17) = Ok ts ∧ get_offset ts = -3600.
Proof.
  destruct (timestamp_parts (from_naive 17) (-3600) 6) as (ts & Hs & Ho & _); [done..|]. by exists ts.
Defined.
Lemma f32_roundtrip_witness : f64_as_f32 (f32_as_f64 (of_int f32 3)) = of_int f32 3.
Proof. apply (f32_roundtrip (of_int f32 3)); done. Defined.
Lemma citext_sigma_hash_witness :
  df_eq (H:=ascii_greek) (DecimalOps0:=units_decimal) (DateTimeOps0:=z_datetime) (Du:=Z) no_timestamp no_time
    (VTinyText [913; 931] Citext) (VTinyText [945; 963] Citext) = true.
Proof.
  apply (citext_sigma_hash (H:=ascii_greek) (DecimalOps0:=units_decimal) (DateTimeOps0:=z_datetime) no_timestamp no_time); done.
Defined.
