(* ===== verification/Expressions.v ===== *)
(** * Expressions: evaluation of SQL expressions

    Models [Expr::eval] of [dataflow-expression/src/eval.rs] with the operators on
    values, the builtin functions on strings and for NULLs of [eval/builtins.rs], the
    LIKE patterns of [like.rs] and the indices from either end of [utils.rs].

    The conversions between types ([coerce_to]), the operators on JSON and the other
    builtin functions are arguments of the evaluation; the crate [regex] is a class with
    what is documented of the patterns that LIKE is translated to. *)
From S2P Require Import Prelude Result Records OpGrouped MySqlTime Values ValuesProps.
Local Open Scope Z_scope.

(** ** LIKE *)
Inductive CaseSensitivityMode := CaseSensitive | CaseInsensitive.

Definition PERCENT : Z := 37.
Definition UNDERSCORE : Z := 95.
Definition BACKSLASH : Z := 92.
Definition DOT : Z := 46.
Definition STAR : Z := 42.
Definition CARET : Z := 94.
Definition DOLLAR : Z := 36.
Definition NEWLINE : Z := 10.
(** [%_] and [{}.*+?|()\[\]\\$^] *)
Definition is_wildcard (c : Z) : bool := (c =? PERCENT) || (c =? UNDERSCORE).
Definition is_special (c : Z) : bool :=
  existsb (Z.eqb c) [123; 125; DOT; STAR; 43; 63; 124; 40; 41; 91; 93; DOLLAR; CARET; BACKSLASH].

(** [LikeTokenReplacer::replace_append], of one match. *)
Definition replace_append (caps : list Z) : list Z :=
  match caps with
  | [c] => if c =? PERCENT then [DOT; STAR]
           else if c =? UNDERSCORE then [DOT]
           else if is_special c then [BACKSLASH; c] else [c]
  | [b; c] => if (b =? BACKSLASH) && is_wildcard c then [c] else [b; c]
  | s => s
  end.
(** [TOKEN.replace_all]: the matches from the left, of [(\\?[%_])] first, and the
    characters between them as they are. *)
Fixpoint replace_all (s : list Z) : list Z :=
  match s with
  | [] => []
  | c :: s1 =>
      let one := if is_wildcard c || is_special c then replace_append [c] else [c] in
      match s1 with
      | c' :: s2 => if (c =? BACKSLASH) && is_wildcard c' then replace_append [c; c'] ++ replace_all s2 else one ++ replace_all s1
      | [] => one
      end
  end.
Definition ignore_case : list Z := [40; 63; 105; 41].
Definition like_regex (pat : list Z) (mode : CaseSensitivityMode) : list Z :=
  (match mode with CaseInsensitive => ignore_case | CaseSensitive => [] end) ++ [CARET] ++ replace_all pat ++ [DOLLAR].

(** What is documented of regular expressions made of characters, of [.] and of [.*]:
    [.] matches all characters but the end of a line. *)
Inductive Atom := AChar (c : Z) | AOne | AMany.
Definition atom_syntax (a : Atom) : list Z :=
  match a with
  | AChar c => if is_special c then [BACKSLASH; c] else [c]
  | AOne => [DOT]
  | AMany => [DOT; STAR]
  end.
Definition dot (c : Z) : bool := negb (c =? NEWLINE).
Fixpoint atoms_match (same : Z → Z → bool) (p : list Atom) (s : list Z) : bool :=
  match p with
  | [] => match s with [] => true | _ => false end
  | AChar c :: p' => match s with d :: s' => same c d && atoms_match same p' s' | [] => false end
  | AOne :: p' => match s with d :: s' => dot d && atoms_match same p' s' | [] => false end
  | AMany :: p' =>
      (fix many s := atoms_match same p' s || match s with d :: s' => dot d && many s' | [] => false end) s
  end.
Definition same_char (same_case : Z → Z → bool) (mode : CaseSensitivityMode) : Z → Z → bool :=
  match mode with CaseSensitive => Z.eqb | CaseInsensitive => same_case end.
(** A regular expression compiles unless it is too long. *)
Class RegexOps (R : Type) := {
  regex_new : list Z → option R;
  is_match : R → list Z → bool;
  same_case : Z → Z → bool;
  size_limit : nat;
  regex_doc mode p : (length p ≤ size_limit)%nat → ∃ r,
    regex_new ((match mode with CaseInsensitive => ignore_case | CaseSensitive => [] end)
      ++ [CARET] ++ concat (atom_syntax <$> p) ++ [DOLLAR]) = Some r ∧
    ∀ s, is_match r s = atoms_match (same_char same_case mode) p s;
}.
(** [LikePattern::new] and [matches]. *)
Definition like_to_regex `{RegexOps R} (pat : list Z) (mode : CaseSensitivityMode) : result R :=
  expect (regex_new (like_regex pat mode)).
Definition like_matches `{RegexOps R} (pat : list Z) (mode : CaseSensitivityMode) (s : list Z) : result bool :=
  re ← like_to_regex pat mode; Ok (is_match re s).

(** ** Types and expressions *)
Inductive SqlEngine := MySQL | PostgreSQL.
Record PgEnumMetadata := { enum_name : list Z; enum_schema : list Z; enum_oid : Z; enum_array_oid : Z }.
Inductive DfType :=
  | Unknown | Array (t : DfType) | Bool | TInt | UnsignedInt | BigInt | UnsignedBigInt | TinyInt | UnsignedTinyInt
  | SmallInt | UnsignedSmallInt | Float | Double | Numeric (prec scale : Z) | Text (c : Collation)
  | Char (n : Z) (c : Collation) (dialect : SqlEngine) | VarChar (n : Z) (c : Collation) | Blob | Binary (n : Z)
  | VarBinary (n : Z) | Bit (n : Z) | VarBit (n : option Z) | Date | DateTime (subsecond_digits : Z)
  | Time (subsecond_digits : Z) | Timestamp (subsecond_digits : Z) | TyTimestampTz (subsecond_digits : Z) | MacAddr | Inet
  | Uuid | Enum (variants : list (list Z)) (metadata : option PgEnumMetadata) | Json | Jsonb.
Definition DEFAULT_TEXT : DfType := Text Utf8.
Definition is_unknown (t : DfType) : bool := match t with Unknown => true | _ => false end.
Fixpoint innermost_array_type (t : DfType) : DfType := match t with Array t' => innermost_array_type t' | _ => t end.

Inductive BinaryOperator :=
  | And | Or | Like | NotLike | ILike | NotILike | Equal | NotEqual | Greater | GreaterOrEqual | Less | LessOrEqual
  | Is | IsNot | Add | Subtract | Multiply | Divide | JsonExists | JsonAnyExists | JsonAllExists | JsonConcat
  | JsonPathExtract | JsonPathExtractUnquote | JsonKeyExtract | JsonKeyExtractText | JsonKeyPathExtract
  | JsonKeyPathExtractText | JsonContains | JsonContainedIn | JsonSubtract | JsonSubtractPath.

(** The builtin functions, of arguments of any type; [Other] are those that are not
    modelled. *)
Inductive BuiltinFunction (B E : Type) :=
  | IfNull (arg1 arg2 : E)
  | Coalesce (arg1 : E) (rest_args : list E)
  | Concat (arg1 : E) (rest_args : list E)
  | Substring (string : E) (from len : option E)
  | SplitPart (string delimiter field : E)
  | Greatest (arg1 : E) (args : list E) (compare_as : DfType)
  | Least (arg1 : E) (args : list E) (compare_as : DfType)
  | ArrayToString (array delimiter : E) (null_string : option E)
  | Other (name : B) (args : list E).
Arguments IfNull {B E}.
Arguments Coalesce {B E}.
Arguments Concat {B E}.
Arguments Substring {B E}.
Arguments SplitPart {B E}.
Arguments Greatest {B E}.
Arguments Least {B E}.
Arguments ArrayToString {B E}.
Arguments Other {B E}.
Definition builtin_map {B E E'} (f : E → E') (b : BuiltinFunction B E) : BuiltinFunction B E' :=
  match b with
  | IfNull x y => IfNull (f x) (f y)
  | Coalesce x l => Coalesce (f x) (map f l)
  | Concat x l => Concat (f x) (map f l)
  | Substring x y z => Substring (f x) (option_map f y) (option_map f z)
  | SplitPart x y z => SplitPart (f x) (f y) (f z)
  | Greatest x l t => Greatest (f x) (map f l) t
  | Least x l t => Least (f x) (map f l) t
  | ArrayToString x y z => ArrayToString (f x) (f y) (option_map f z)
  | Other n l => Other n (map f l)
  end.

(** Every expression has its type; a branch of CASE is its condition and its body.  The
    SQL type that a cast was written with is not used by the evaluation, and left out. *)
Inductive Expr (B V : Type) :=
  | EColumn (index : nat) (ty : DfType)
  | ELiteral (val : V) (ty : DfType)
  | EOp (op : BinaryOperator) (left right : Expr B V) (ty : DfType)
  | EOpAny (op : BinaryOperator) (left right : Expr B V) (ty : DfType)
  | EOpAll (op : BinaryOperator) (left right : Expr B V) (ty : DfType)
  | ECast (expr : Expr B V) (ty : DfType)
  | ECall (func : BuiltinFunction B (Expr B V)) (ty : DfType)
  | ECaseWhen (branches : list (Expr B V * Expr B V)) (else_expr : Expr B V) (ty : DfType)
  | EArray (elements : list (Expr B V)) (shape : list nat) (ty : DfType).
Arguments EColumn {B V}.
Arguments ELiteral {B V}.
Arguments EOp {B V}.
Arguments EOpAny {B V}.
Arguments EOpAll {B V}.
Arguments ECast {B V}.
Arguments ECall {B V}.
Arguments ECaseWhen {B V}.
Arguments EArray {B V}.
Definition expr_ty {B V} (e : Expr B V) : DfType :=
  match e with
  | EColumn _ ty | ELiteral _ ty | EOp _ _ _ ty | EOpAny _ _ _ ty | EOpAll _ _ _ ty | ECast _ ty | ECall _ ty
  | ECaseWhen _ _ ty | EArray _ _ ty => ty
  end.

(** ** Strings *)
(** [str::split]: at the matches from the left that do not overlap; an empty delimiter
    matches between all characters and at both ends. *)
Definition is_prefix (p s : list Z) : bool := bool_decide (take (length p) s = p).
Fixpoint split_from (delim : list Z) (skip : nat) (cur s : list Z) : list (list Z) :=
  match s with
  | [] => [reverse cur]
  | c :: s' =>
      match skip with
      | S k => split_from delim k cur s'
      | O => if is_prefix delim s then reverse cur :: split_from delim (length delim - 1) [] s'
             else split_from delim 0 (c :: cur) s'
      end
  end.
Definition str_split (delim s : list Z) : list (list Z) :=
  match delim with
  | [] => [] :: ((λ c, [c]) <$> s) ++ [[]]
  | _ => split_from delim 0 [] s
  end.

(** ** Indices from either end *)
Definition usize_wrap (z : Z) : Z := z mod 2 ^ 64.
Definition index_to_bidirectional {A} (slice : list A) (index : Z) : Z :=
  if index <? 0 then usize_wrap (Z.of_nat (length slice) + usize_wrap index) else index.
Definition slice_get {A} (slice : list A) (i : Z) : option A :=
  if i <? Z.of_nat (length slice) then slice !! Z.to_nat i else None.
Definition index_bidirectional {A} (slice : list A) (index : Z) : option A :=
  slice_get slice (index_to_bidirectional slice index).
Definition insert_bidirectional {A} (vec : list A) (index : Z) (element : A) (insert_after : bool) : list A :=
  let negative_index := index <? 0 in
  let i := index_to_bidirectional vec index in
  let i := if insert_after then usize_wrap (i + 1) else i in
  let i := if Z.of_nat (length vec) <? i then (if negative_index then 0 else Z.of_nat (length vec)) else i in
  take (Z.to_nat i) vec ++ element :: drop (Z.to_nat i) vec.
Definition remove_bidirectional {A} (vec : list A) (index : Z) : option A * list A :=
  let i := index_to_bidirectional vec index in
  if i <? Z.of_nat (length vec) then (vec !! Z.to_nat i, delete (Z.to_nat i) vec) else (None, vec).

(** ** Evaluation *)
Section eval.
Context `{!Unicode} `{!DecimalOps D} `{!DateTimeOps T} `{Duration Du} `{!RegexOps R} {B : Type}.
Context (parse_timestamp : list Z → option (TimestampTz T)) (parse_time : list Z → option MySqlTime).
#[local] Abbreviation V := (DfValue D T).
#[local] Abbreviation Arg := (result V * DfType)%type.
(** [coerce_to], the operators on JSON, and the builtin functions that are not modelled. *)
Context (coerce_to : V → DfType → DfType → result V) (json_op : BinaryOperator → V → V → result V)
  (other_builtin : B → DfType → list Arg → result V).
#[local] Abbreviation df_eq := (df_eq (Du:=Du) parse_timestamp parse_time).
#[local] Abbreviation df_cmp := (df_cmp (Du:=Du) parse_timestamp parse_time).
#[local] Abbreviation is_truthy := (is_truthy (Du:=Du)).
Implicit Types (v w : V) (ty : DfType).

Definition df_bool (b : bool) : V := VUnsignedInt (bit b).
Definition df_str (s : list Z) : V := from_str_and_collation s Utf8.
Definition is_none v : bool := match v with VNone => true | _ => false end.
Definition as_str v : option (list Z) := fst <$> as_str_and_collation v.
Definition to_str v : result (list Z) := conv (as_str v).
Definition to_i64 v : result Z := i ← conv (as_int v); if fits i64_min i64_max i then Ok i else Err DfValueConversionError.
Definition as_array v : result (list V) := match v with VArray _ _ vs => Ok vs | _ => Err DfValueConversionError end.
(** [non_null!] and [try_cast_or_none!]: the rest of the function is [k]. *)
Definition non_null (m : result V) (k : V → result V) : result V :=
  v ← m; match v with VNone => Ok VNone | _ => k v end.
Definition try_cast_or_none v to_ty from_ty (k : V → result V) : result V :=
  match coerce_to v to_ty from_ty with Ok v' => k v' | Err _ => Ok VNone | Panic => Panic end.

Definition eval_like (mode : CaseSensitivityMode) (negated : bool) left left_ty right right_ty : result V :=
  match coerce_to left DEFAULT_TEXT left_ty, coerce_to right DEFAULT_TEXT right_ty with
  | Panic, _ | _, Panic => Panic
  | Ok l, Ok r =>
      match as_str l, as_str r with
      | Some s, Some pat => m ← like_matches pat mode s; Ok (df_bool (if negated then negb m else m))
      | _, _ => Ok VNone
      end
  | _, _ => Ok (df_bool (negb negated))
  end.
Definition eval_binary_op (op : BinaryOperator) left left_ty right right_ty : result V :=
  let both (k : V → V → result V) := non_null (Ok left) (λ l, non_null (Ok right) (k l)) in
  let compare (p : comparison → bool) := both (λ l r, Ok (df_bool (p (df_cmp l r)))) in
  match op with
  | Add => both (arithmetic_operation OpAdd)
  | Subtract => both (arithmetic_operation OpSub)
  | Multiply => both (arithmetic_operation OpMul)
  | Divide => both (arithmetic_operation OpDiv)
  | And => non_null (Ok left) (λ l, b ← is_truthy l;
      if (b : bool) then non_null (Ok right) (λ r, b' ← is_truthy r; Ok (df_bool b')) else Ok (df_bool false))
  | Or => non_null (Ok left) (λ l, b ← is_truthy l;
      if (b : bool) then Ok (df_bool true) else non_null (Ok right) (λ r, b' ← is_truthy r; Ok (df_bool b')))
  | Equal => both (λ l r, r' ← coerce_to r left_ty right_ty; Ok (df_bool (df_eq l r')))
  | NotEqual => both (λ l r, r' ← coerce_to r left_ty right_ty; Ok (df_bool (negb (df_eq l r'))))
  | Greater => compare is_gt
  | GreaterOrEqual => compare is_ge
  | Less => compare is_lt
  | LessOrEqual => compare is_le
  | Is => Ok (df_bool (df_eq left right))
  | IsNot => Ok (df_bool (negb (df_eq left right)))
  | Like => eval_like CaseSensitive false left left_ty right right_ty
  | NotLike => eval_like CaseSensitive true left left_ty right right_ty
  | ILike => eval_like CaseInsensitive false left left_ty right right_ty
  | NotILike => eval_like CaseInsensitive true left left_ty right right_ty
  | JsonPathExtract | JsonPathExtractUnquote => Err Unsupported
  | _ => json_op op left right
  end.

(** The builtin functions, of their arguments' results and types. *)
Fixpoint concat_args ty (s : list Z) (args : list Arg) : result V :=
  match args with
  | [] => Ok (df_str s)
  | (m, arg_ty) :: args' =>
      non_null m (λ v, v' ← coerce_to v ty arg_ty; s' ← to_str v'; concat_args ty (s ++ s') args')
  end.
(** The negation of the smallest number wraps, as in a build without overflow checks. *)
Definition substring (s : list Z) (from len : Z) : V :=
  let rest start := df_str (take (Z.to_nat len) (drop (Z.to_nat start) s)) in
  if len <=? 0 then df_str []
  else match from ?= 0 with
       | Eq => df_str []
       | Lt => let reverse_from := usize_wrap (- from) in
               if Z.of_nat (str_len s) <? reverse_from then df_str [] else rest (Z.of_nat (str_len s) - reverse_from)
       | Gt => rest (from - 1)
       end.
(** An optional argument, a number. *)
Definition int_arg (a : option Arg) (dflt : Z) (k : Z → result V) : result V :=
  match a with
  | Some (m, arg_ty) => non_null m (λ v, v' ← coerce_to v BigInt arg_ty; i ← to_i64 v'; k i)
  | None => k dflt
  end.
Definition split_part (s delim : list Z) (field : Z) : result V :=
  let parts := str_split delim s in
  match field ?= 0 with
  | Lt => let rfield := usize_wrap (- field) in
          if Z.of_nat (length parts) <=? rfield then Ok (df_str [])
          else Ok (df_str (default [] (parts !! Z.to_nat (Z.of_nat (length parts) - rfield))))
  | Eq => Err InvalidQuery
  | Gt => Ok (df_str (default [] (parts !! Z.to_nat (field - 1))))
  end.
Fixpoint best_arg (compare : comparison → bool) compare_as (args : list Arg) (res : V) (res_ty : DfType) (res_compare : V)
    (k : V → DfType → result V) : result V :=
  match args with
  | [] => k res res_ty
  | (m, arg_ty) :: args' =>
      non_null m (λ v, try_cast_or_none v compare_as arg_ty (λ val_compare,
        if compare (df_cmp val_compare res_compare) then best_arg compare compare_as args' v arg_ty val_compare k
        else best_arg compare compare_as args' res res_ty res_compare k))
  end.
Definition greatest_or_least (compare : comparison → bool) compare_as ty (arg1 : Arg) (args : list Arg) : result V :=
  non_null arg1.1 (λ res, try_cast_or_none res compare_as arg1.2 (λ res_compare,
    best_arg compare compare_as args res arg1.2 res_compare (λ res res_ty, try_cast_or_none res ty res_ty Ok))).
Fixpoint join_values (delimiter : list Z) (null_string : option (list Z)) elem_type (first : bool) (res : list Z) (vs : list V) : result (list Z) :=
  match vs with
  | [] => Ok res
  | v :: vs' =>
      let res := if first then res else res ++ delimiter in
      s ← (if is_none v then Ok (default [] null_string) else v' ← coerce_to v DEFAULT_TEXT elem_type; to_str v');
      join_values delimiter null_string elem_type false (res ++ s) vs'
  end.
Definition array_to_string (array delimiter : Arg) (null_string : option Arg) : result V :=
  let elem_type := match array.2 with Array t => t | _ => Unknown end in
  non_null array.1 (λ a, a' ← coerce_to a (Array elem_type) array.2; values ← as_array a';
    d ← delimiter.1; delimiter ← to_str d;
    null_string ← match null_string with
                  | None => Ok None
                  | Some (m, _) => ns ← m; if is_none ns then Ok None else s ← to_str ns; Ok (Some s)
                  end;
    res ← join_values delimiter null_string elem_type true []
      (match null_string with None => filter (λ v, is_none v = false) values | Some _ => values end);
    Ok (df_str res)).

Definition builtin_eval (f : BuiltinFunction B Arg) ty : result V :=
  match f with
  | IfNull arg1 arg2 => v1 ← arg1.1; v2 ← arg2.1; Ok (if is_none v1 then v2 else v1)
  | Coalesce arg1 rest_args =>
      v1 ← arg1.1; rest ← result_mapM fst rest_args;
      Ok (if is_none v1 then default VNone (List.find (λ v, negb (is_none v)) rest) else v1)
  | Concat (m, arg_ty) rest_args => non_null m (λ v, v' ← coerce_to v ty arg_ty; s ← to_str v'; concat_args ty s rest_args)
  | Substring (m, arg_ty) from len =>
      non_null m (λ v, v' ← coerce_to v ty arg_ty; s ← to_str v';
        int_arg from 1 (λ from, int_arg len (Z.of_nat (str_len s) + 1) (λ len, Ok (substring s from len))))
  | SplitPart string delimiter field =>
      non_null string.1 (λ s, s' ← coerce_to s DEFAULT_TEXT string.2;
        non_null delimiter.1 (λ d, d' ← coerce_to d DEFAULT_TEXT delimiter.2;
          non_null field.1 (λ f, f' ← coerce_to f TInt field.2; i ← to_i64 f';
            s ← to_str s'; delim ← to_str d'; split_part s delim i)))
  | Greatest arg1 args compare_as => greatest_or_least is_gt compare_as ty arg1 args
  | Least arg1 args compare_as => greatest_or_least is_lt compare_as ty arg1 args
  | ArrayToString array delimiter null_string => array_to_string array delimiter null_string
  | Other name args => other_builtin name ty args
  end.

(** The loops of ANY and ALL: up to the member that is [stop]. *)
Fixpoint eval_members (stop : bool) (f : V → result V) (members : list V) : result V :=
  match members with
  | [] => Ok (df_bool (negb stop))
  | m :: ms => v ← f m; b ← is_truthy v; if eqb b stop then Ok (df_bool stop) else eval_members stop f ms
  end.
Definition eval_op_members (stop : bool) (op : BinaryOperator) (left right : Arg) : result V :=
  left_val ← left.1;
  non_null right.1 (λ r, r' ← (if is_unknown right.2 then coerce_to r (Array left.2) right.2 else Ok r);
    members ← as_array r';
    eval_members stop (λ m, eval_binary_op op left_val left.2 m (innermost_array_type right.2)) members).
Fixpoint eval_branches (branches : list (result V * result V)) (else_expr : result V) : result V :=
  match branches with
  | [] => else_expr
  | (condition, body) :: bs => c ← condition; b ← is_truthy c; if (b : bool) then body else eval_branches bs else_expr
  end.

Fixpoint eval (record : list V) (e : Expr B V) : result V :=
  match e with
  | EColumn index _ => match record !! index with Some v => Ok v | None => Err ProjectExprInvalidColumnIndex end
  | ELiteral val _ => Ok val
  | EOp op l r _ => left_val ← eval record l; right_val ← eval record r; eval_binary_op op left_val (expr_ty l) right_val (expr_ty r)
  | EOpAny op l r _ => eval_op_members true op (eval record l, expr_ty l) (eval record r, expr_ty r)
  | EOpAll op l r _ => eval_op_members false op (eval record l, expr_ty l) (eval record r, expr_ty r)
  | ECast expr ty => res ← eval record expr; coerce_to res ty (expr_ty expr)
  | ECall func ty => builtin_eval (builtin_map (λ a, (eval record a, expr_ty a)) func) ty
  | ECaseWhen branches else_expr _ =>
      eval_branches (map (λ b : Expr B V * Expr B V, let (c, body) := b in (eval record c, eval record body)) branches) (eval record else_expr)
  | EArray elements shape _ =>
      vs ← result_mapM id (map (eval record) elements);
      if (foldr Nat.mul 1 shape =? length vs)%nat then Ok (VArray (replicate (length shape) 1) shape vs) else Err InvalidQuery
  end.
End eval.

(** ** LIKE patterns, as documented *)
(** [%] is any string, [_] any character, and a backslash before one of them makes it
    literal; other characters are literal. *)
Inductive LikeSpec (same : Z → Z → bool) : list Z → list Z → Prop :=
  | like_end : LikeSpec same [] []
  | like_any p s1 s2 : LikeSpec same p s2 → LikeSpec same (PERCENT :: p) (s1 ++ s2)
  | like_one p d s : LikeSpec same p s → LikeSpec same (UNDERSCORE :: p) (d :: s)
  | like_escape c p d s : is_wildcard c = true → same c d = true → LikeSpec same p s → LikeSpec same (BACKSLASH :: c :: p) (d :: s)
  | like_char c p d s : is_wildcard c = false → (∀ c' p', c = BACKSLASH → p = c' :: p' → is_wildcard c' = false) →
      same c d = true → LikeSpec same p s → LikeSpec same (c :: p) (d :: s).
(** The regular expression of a pattern. *)
Definition atom_of (c : Z) : Atom := if c =? PERCENT then AMany else if c =? UNDERSCORE then AOne else AChar c.
Fixpoint like_atoms (s : list Z) : list Atom :=
  match s with
  | [] => []
  | c :: s1 =>
      match s1 with
      | c' :: s2 => if (c =? BACKSLASH) && is_wildcard c' then AChar c' :: like_atoms s2 else atom_of c :: like_atoms s1
      | [] => [atom_of c]
      end
  end.
Lemma wildcard_not_special c : is_wildcard c = true → is_special c = false.
Proof. unfold is_wildcard. rewrite orb_true_iff, !Z.eqb_eq. by intros [->| ->]. Qed.
Lemma replace_one c : (if is_wildcard c || is_special c then replace_append [c] else [c]) = atom_syntax (atom_of c).
Proof.
  unfold replace_append, atom_of, is_wildcard. destruct (c =? PERCENT) eqn:H1; [done|].
  destruct (c =? UNDERSCORE) eqn:H2; [done|]. cbn [orb atom_syntax]. by destruct (is_special c).
Qed.
Lemma replace_escape c : is_wildcard c = true → replace_append [BACKSLASH; c] = atom_syntax (AChar c).
Proof. intros Hc. cbn [replace_append atom_syntax andb Z.eqb BACKSLASH Pos.eqb]. by rewrite Hc, (wildcard_not_special c Hc). Qed.
(** Patterns are taken apart by one character, or by an escape of two. *)
Lemma pattern_ind (P : list Z → Prop) : P [] →
  (∀ c p, is_wildcard c = true → P p → P (BACKSLASH :: c :: p)) →
  (∀ c p, (∀ c' p', c = BACKSLASH → p = c' :: p' → is_wildcard c' = false) → P p → P (c :: p)) → ∀ p, P p.
Proof.
  intros Hn He Hc p. induction p as [p IH] using (induction_ltof1 _ length). unfold ltof in IH.
  destruct p as [|c p]; [done|]. destruct (decide (c = BACKSLASH)) as [->|Hb].
  - destruct p as [|c' p]; [apply Hc; [done|]; apply IH; simpl; lia|]. destruct (is_wildcard c') eqn:Hw.
    + apply He; [done|]. apply IH. simpl. lia.
    + apply Hc; [intros ?? _ [= <- _]; done|]. apply IH. simpl. lia.
  - apply Hc; [done|]. apply IH. simpl. lia.
Qed.
(** The two functions on patterns take them apart so. *)
Lemma like_atoms_escape c p : is_wildcard c = true → like_atoms (BACKSLASH :: c :: p) = AChar c :: like_atoms p.
Proof. intros Hc. cbn [like_atoms]. by rewrite Hc. Qed.
Lemma like_atoms_char c p : (∀ c' p', c = BACKSLASH → p = c' :: p' → is_wildcard c' = false) →
  like_atoms (c :: p) = atom_of c :: like_atoms p.
Proof.
  intros Hc. destruct p as [|c' p]; [done|]. cbn [like_atoms]. destruct (c =? BACKSLASH) eqn:Hb; [|done].
  apply Z.eqb_eq in Hb. by rewrite (Hc c' p).
Qed.
Lemma replace_all_char c p : (∀ c' p', c = BACKSLASH → p = c' :: p' → is_wildcard c' = false) →
  replace_all (c :: p) = atom_syntax (atom_of c) ++ replace_all p.
Proof.
  intros Hc. rewrite <-replace_one. destruct p as [|c' p]; [cbn; by rewrite app_nil_r|]. cbn [replace_all].
  destruct (c =? BACKSLASH) eqn:Hb; [|done]. apply Z.eqb_eq in Hb. by rewrite (Hc c' p).
Qed.
Lemma replace_all_atoms p : replace_all p = concat (atom_syntax <$> like_atoms p).
Proof.
  induction p as [|c p Hc IH|c p Hc IH] using pattern_ind; [done|..].
  - rewrite like_atoms_escape by done. cbn [replace_all]. rewrite Hc. cbn [andb Z.eqb BACKSLASH Pos.eqb].
    rewrite replace_escape by done. csimpl. by rewrite IH.
  - rewrite like_atoms_char, replace_all_char by done. csimpl. by rewrite IH.
Qed.
Lemma like_atoms_length p : (length (like_atoms p) ≤ length p)%nat.
Proof.
  induction p as [|c p Hc IH|c p Hc IH] using pattern_ind; [done|..].
  - rewrite like_atoms_escape by done. simpl. lia.
  - rewrite like_atoms_char by done. simpl. lia.
Qed.

Lemma many_match same p s : atoms_match same (AMany :: p) s = true ↔
  ∃ s1 s2, s = s1 ++ s2 ∧ Forall (λ c, dot c = true) s1 ∧ atoms_match same p s2 = true.
Proof.
  induction s as [|d s IH].
  - cbn. rewrite orb_false_r. split; [by exists [], []|]. by intros ([] & [] & ? & _ & ?).
  - change (atoms_match same (AMany :: p) (d :: s)) with (atoms_match same p (d :: s) || dot d && atoms_match same (AMany :: p) s).
    rewrite orb_true_iff, andb_true_iff, IH. split.
    + intros [Hm|(Hd & s1 & s2 & -> & Hs & Hm)]; [by exists [], (d :: s)|]. exists (d :: s1), s2. auto.
    + intros ([|d' s1] & s2 & Heq & Hs & Hm); simplify_eq/=; [by left|]. right. apply Forall_cons in Hs as [Hd Hs]. split; [done|]. by exists s1, s2.
Qed.
Lemma atom_of_plain c : is_wildcard c = false → atom_of c = AChar c.
Proof. unfold is_wildcard, atom_of. intros [-> ->]%orb_false_iff. done. Qed.
Lemma like_atoms_sound same p s : atoms_match same (like_atoms p) s = true → LikeSpec same p s.
Proof.
  revert s. induction p as [|c p Hc IH|c p Hc IH] using pattern_ind; intros s.
  - destruct s; [constructor|done].
  - rewrite like_atoms_escape by done. destruct s as [|d s]; [done|]. cbn. intros [Hd Hm]%andb_true_iff. apply like_escape; auto.
  - rewrite like_atoms_char by done. destruct (is_wildcard c) eqn:Hw.
    + apply orb_true_iff in Hw as [->%Z.eqb_eq| ->%Z.eqb_eq].
      * intros (s1 & s2 & -> & _ & Hm)%many_match. apply like_any. auto.
      * destruct s as [|d s]; [done|]. cbn. intros [_ Hm]%andb_true_iff. apply like_one. auto.
    + rewrite (atom_of_plain c Hw). destruct s as [|d s]; [done|]. cbn. intros [Hd Hm]%andb_true_iff. apply like_char; auto.
Qed.
Lemma like_atoms_complete same p s : Forall (λ c, dot c = true) s → LikeSpec same p s → atoms_match same (like_atoms p) s = true.
Proof.
  intros Hs Hl. induction Hl as [|p s1 s2 Hl IH|p d s Hl IH|c p d s Hc Hd Hl IH|c p d s Hc Hb Hd Hl IH]; [done|..].
  - apply Forall_app in Hs as [Hs1 Hs2]. rewrite like_atoms_char by done. apply many_match. exists s1, s2. auto.
  - apply Forall_cons in Hs as [Hd Hs]. rewrite like_atoms_char by done. cbn. by rewrite Hd, IH.
  - apply Forall_cons in Hs as [Hd' Hs]. rewrite like_atoms_escape by done. cbn. by rewrite Hd, IH.
  - apply Forall_cons in Hs as [Hd' Hs]. rewrite like_atoms_char, (atom_of_plain c) by done. cbn. by rewrite Hd, IH.
Qed.

(** C22: A LIKE pattern of any characters compiles, unless it is too long; it matches only
    strings that the documented rules match, and all of those that have no newline. *)
Theorem like_matches_spec `{RegexOps R} (pat : list Z) (mode : CaseSensitivityMode) (s : list Z) :
  (length pat ≤ size_limit)%nat → ∃ b, like_matches pat mode s = Ok b ∧
  (b = true → LikeSpec (same_char same_case mode) pat s) ∧
  (NEWLINE ∉ s → LikeSpec (same_char same_case mode) pat s → b = true).
Proof.
  intros Hlen. destruct (regex_doc mode (like_atoms pat)) as (r & Hr & Hm); [pose proof (like_atoms_length pat); lia|].
  exists (is_match r s). unfold like_matches, like_to_regex, like_regex. rewrite replace_all_atoms, Hr. split; [done|].
  rewrite Hm. split; [apply like_atoms_sound|]. intros Hn. apply like_atoms_complete. apply Forall_forall. intros c Hc.
  unfold dot. destruct (Z.eqb_spec c NEWLINE) as [->|]; done.
Qed.

(** [%] does not match the end of a line, although it stands for any string. *)
Theorem like_newline_unmatched `{RegexOps R} : (1 ≤ size_limit)%nat →
  like_matches [PERCENT] CaseSensitive [NEWLINE] = Ok false ∧ LikeSpec Z.eqb [PERCENT] [NEWLINE].
Proof.
  intros Hlen. destruct (regex_doc CaseSensitive [AMany]) as (r & Hr & Hm); [done|]. split.
  - unfold like_matches, like_to_regex, like_regex. cbn -[regex_new]. cbn -[regex_new] in Hr. rewrite Hr. cbn. by rewrite Hm.
  - change [NEWLINE] with ([NEWLINE] ++ [] : list Z). apply like_any, like_end.
Qed.

(** ** Strings *)
Fixpoint join (delim : list Z) (parts : list (list Z)) : list Z :=
  match parts with [] => [] | [p] => p | p :: ps => p ++ delim ++ join delim ps end.
Lemma join_cons delim p ps : ps ≠ [] → join delim (p :: ps) = p ++ delim ++ join delim ps.
Proof. by destruct ps. Qed.
Lemma split_from_nonnil delim skip cur s : split_from delim skip cur s ≠ [].
Proof. revert skip cur. induction s as [|c s IH]; intros [|k] cur; simpl; [done..| |auto]. destruct (is_prefix _ _); auto. Qed.
Lemma split_from_join delim skip cur s : delim ≠ [] → (skip = 0%nat ∨ cur = []) →
  (skip ≤ length s)%nat → join delim (split_from delim skip cur s) = reverse cur ++ drop skip s.
Proof.
  intros Hd. revert skip cur. induction s as [|c s IH]; intros skip cur Hsk Hlen.
  - simpl in Hlen. replace skip with 0%nat by lia. simpl. by rewrite app_nil_r.
  - destruct skip as [|k]; cbn [split_from].
    2:{ destruct Hsk as [| ->]; [done|]. simpl in Hlen. rewrite IH; [done|by right|lia]. }
    destruct (is_prefix delim (c :: s)) eqn:Hp.
    + apply bool_decide_eq_true in Hp. rewrite join_cons by apply split_from_nonnil.
      assert (length delim ≤ S (length s))%nat as Hle by (rewrite <-Hp, length_take; simpl; lia).
      destruct delim as [|d delim]; [done|]. simpl in Hle. rewrite IH; [|by right|simpl; lia].
      f_equal. rewrite drop_0, <-(take_drop (length (d :: delim)) (c :: s)), Hp. f_equal. simpl. by rewrite Nat.sub_0_r.
    + rewrite IH; [|by left|lia]. by rewrite reverse_cons, <-app_assoc.
Qed.
Lemma str_split_join delim s : join delim (str_split delim s) = s.
Proof.
  destruct delim as [|d delim].
  - cbn [str_split]. rewrite join_cons by (by destruct s). rewrite !app_nil_l. induction s as [|c s IH]; [done|].
    rewrite fmap_cons, <-app_comm_cons, join_cons by (by destruct s). by rewrite IH.
  - cbn [str_split]. by rewrite split_from_join; [|done|left|lia].
Qed.

Section split_part.
Context {D T : Type}.
#[local] Abbreviation split_part := (split_part (D:=D) (T:=T)).
(** C31: The parts of a string put the string together again.  They are counted from the
    start, or from the end with a negative number; but the first one is not found from
    the end. *)
Theorem split_part_spec s delim : let parts := str_split delim s in let n := Z.of_nat (length parts) in
  n < 2 ^ 63 → join delim parts = s ∧
  (∀ i part, parts !! i = Some part → split_part s delim (Z.of_nat i + 1) = Ok (df_str part)) ∧
  (∀ i part, parts !! i = Some part → (0 < i)%nat → split_part s delim (Z.of_nat i - n) = Ok (df_str part)) ∧
  split_part s delim (- n) = Ok (df_str []).
Proof.
  intros parts n Hn. assert (0 < n) as Hpos.
  { subst n parts. assert (str_split delim s ≠ []) by (destruct delim; [done|apply split_from_nonnil]).
    destruct (str_split delim s); [done|]. simpl. lia. }
  unfold Expressions.split_part. fold parts. fold n. split_and!; [apply str_split_join|..].
  - intros i part Hi. rewrite (proj2 (Z.compare_gt_iff _ _)) by lia.
    replace (Z.to_nat (Z.of_nat i + 1 - 1)) with i by lia. by rewrite Hi.
  - intros i part Hi H0. pose proof (lookup_lt_Some _ _ _ Hi) as Hlt. rewrite (proj2 (Z.compare_lt_iff _ _)) by lia.
    unfold usize_wrap. rewrite Z.mod_small by lia. rewrite (proj2 (Z.leb_gt _ _)) by lia.
    replace (Z.to_nat (n - - (Z.of_nat i - n))) with i by lia. by rewrite Hi.
  - rewrite (proj2 (Z.compare_lt_iff _ _)) by lia. unfold usize_wrap. rewrite Z.mod_small by lia.
    rewrite (proj2 (Z.leb_le _ _)) by lia. done.
Qed.

(** The characters of a string from its end are found if each has one byte. *)
Theorem substring_from_end s n len : Forall (λ c, utf8_len c = 1%nat) s → (0 < n ≤ length s)%nat → 0 < len → Z.of_nat n < 2 ^ 63 →
  substring (D:=D) (T:=T) s (- Z.of_nat n) len = df_str (take (Z.to_nat len) (drop (length s - n) s)).
Proof.
  intros Hs Hn Hlen Hb. assert (str_len s = length s) as Hl.
  { clear -Hs. induction Hs as [|c s Hc Hs IH]; [done|]. unfold str_len in *. csimpl. by rewrite Hc, IH. }
  unfold substring. rewrite (proj2 (Z.leb_gt _ _)), (proj2 (Z.compare_lt_iff _ _)), Hl by lia.
  unfold usize_wrap. rewrite Z.opp_involutive, Z.mod_small by lia. rewrite (proj2 (Z.ltb_ge _ _)) by lia.
  by replace (Z.to_nat (Z.of_nat (length s) - Z.of_nat n)) with (length s - n)%nat by lia.
Qed.
(** With longer characters the bytes before the result are counted but characters are
    skipped: the last character of a string of two is lost. *)
Theorem substring_bytes_lost : substring (D:=D) (T:=T) [233; 97] (-1) 1 = df_str [].
Proof. done. Qed.
End split_part.

(** ** Indices from either end *)
#[local] Ltac at_index := match goal with |- take _ ?l ++ ?x :: _ = _ => apply (f_equal (λ k, take k l ++ x :: drop k l)); lia end.
(** A negative index counts from the end; an index out of bounds finds nothing, removes
    nothing, and inserts at the end that it is closer to. *)
Theorem bidirectional_spec {A} (l : list A) (i : Z) (x : A) (after : bool) :
  Z.of_nat (length l) < 2 ^ 63 → - 2 ^ 63 ≤ i < 2 ^ 63 →
  let n := Z.of_nat (length l) in let j := if i <? 0 then n + i else i in
  index_bidirectional l i = (if 0 <=? j then l !! Z.to_nat j else None) ∧
  remove_bidirectional l i =
    (if (0 <=? j) && (j <? n) then (l !! Z.to_nat j, delete (Z.to_nat j) l) else (None, l)) ∧
  insert_bidirectional l i x after =
    (let k := Z.to_nat (Z.max 0 (Z.min n (j + bit after))) in take k l ++ x :: drop k l).
Proof.
  intros Hn Hi n j. assert (0 ≤ n) by lia.
  assert (index_to_bidirectional l i = if 0 <=? j then j else 2 ^ 64 + j) as Hj.
  { unfold index_to_bidirectional, usize_wrap. fold n. subst j. destruct (Z.ltb_spec i 0) as [Hneg|].
    - rewrite <-(Z.mod_unique i (2 ^ 64) (-1) (i + 2 ^ 64)) by lia. destruct (Z.leb_spec 0 (n + i)).
      + symmetry. apply (Z.mod_unique _ _ 1); lia.
      + rewrite Z.mod_small; lia.
    - by rewrite (proj2 (Z.leb_le 0 i)) by lia. }
  unfold index_bidirectional, slice_get, remove_bidirectional, insert_bidirectional. rewrite Hj. fold n.
  assert (j < 2 ^ 63 ∧ - 2 ^ 63 ≤ j ∧ (i < 0 → j < n) ∧ (0 ≤ i → 0 ≤ j)) as (Hj1 & Hj2 & Hj3 & Hj4) by (subst j; destruct (Z.ltb_spec i 0); lia).
  destruct (Z.leb_spec 0 j) as [H0|H0]; cbn [andb]; split_and!.
  - destruct (Z.ltb_spec j n); [done|]. symmetry. apply lookup_ge_None_2. lia.
  - done.
  - destruct after; cbn [bit].
    + unfold usize_wrap. rewrite Z.mod_small by lia. destruct (Z.ltb_spec n (j + 1)); [destruct (Z.ltb_spec i 0)|]; at_index.
    + destruct (Z.ltb_spec n j); [destruct (Z.ltb_spec i 0)|]; at_index.
  - by rewrite (proj2 (Z.ltb_ge _ _)) by lia.
  - by rewrite (proj2 (Z.ltb_ge _ _)) by lia.
  - assert (i < 0) as Hneg by lia. rewrite (proj2 (Z.ltb_lt i 0) Hneg). destruct after; cbn [bit].
    + unfold usize_wrap. destruct (decide (j = -1)) as [->|].
      * change ((2 ^ 64 + -1 + 1) mod 2 ^ 64) with 0. destruct (Z.ltb_spec n 0); at_index.
      * rewrite Z.mod_small, (proj2 (Z.ltb_lt _ _)) by lia. at_index.
    + rewrite (proj2 (Z.ltb_lt _ _)) by lia. at_index.
Qed.

(** ** Evaluation *)
Definition builtin_args {B E} (f : BuiltinFunction B E) : list E :=
  match f with
  | IfNull x y => [x; y]
  | Coalesce x l | Concat x l | Greatest x l _ | Least x l _ => x :: l
  | Substring x y z => x :: option_list y ++ option_list z
  | SplitPart x y z => [x; y; z]
  | ArrayToString x y z => x :: y :: option_list z
  | Other _ l => l
  end.
Lemma builtin_map_ext {B E E'} (f g : E → E') (b : BuiltinFunction B E) :
  Forall (λ x, f x = g x) (builtin_args b) → builtin_map f b = builtin_map g b.
Proof.
  assert (∀ l, Forall (λ x, f x = g x) l → map f l = map g l) as Hl by (induction 1; simpl; congruence).
  destruct b as [| | |? [] []| | | |?? []|]; cbn; rewrite ?Forall_cons; intros; destruct_and?; f_equal; auto; congruence.
Qed.
(** The columns that an expression reads. *)
Fixpoint expr_columns {B V} (e : Expr B V) : list nat :=
  match e with
  | EColumn i _ => [i]
  | ELiteral _ _ => []
  | EOp _ l r _ | EOpAny _ l r _ | EOpAll _ l r _ => expr_columns l ++ expr_columns r
  | ECast e _ => expr_columns e
  | ECall f _ => concat (builtin_args (builtin_map expr_columns f))
  | ECaseWhen bs e _ => concat (map (λ b : Expr B V * Expr B V, let (c, body) := b in expr_columns c ++ expr_columns body) bs) ++ expr_columns e
  | EArray es _ _ => concat (map expr_columns es)
  end.
Lemma builtin_args_map {B E E'} (f : E → E') (b : BuiltinFunction B E) : builtin_args (builtin_map f b) = f <$> builtin_args b.
Proof. by destruct b as [| | |? [] []| | | |?? []|]. Qed.

Section expr_ind.
Context {B V : Type} (P : Expr B V → Prop).
Context (Hcolumn : ∀ i ty, P (EColumn i ty)) (Hliteral : ∀ v ty, P (ELiteral v ty))
  (Hop : ∀ op l r ty, P l → P r → P (EOp op l r ty)) (Hany : ∀ op l r ty, P l → P r → P (EOpAny op l r ty))
  (Hall : ∀ op l r ty, P l → P r → P (EOpAll op l r ty)) (Hcast : ∀ e ty, P e → P (ECast e ty))
  (Hcall : ∀ f ty, Forall P (builtin_args f) → P (ECall f ty))
  (Hcase : ∀ bs e ty, Forall (λ b, P b.1 ∧ P b.2) bs → P e → P (ECaseWhen bs e ty))
  (Harray : ∀ es shape ty, Forall P es → P (EArray es shape ty)).
#[local] Definition all_list {A} {Q : A → Prop} (H : ∀ x, Q x) : ∀ l, Forall Q l :=
  fix go l := match l with [] => @List.Forall_nil A Q | x :: l' => @List.Forall_cons A Q x l' (H x) (go l') end.
(** Induction on expressions, through the arguments of functions, the branches of CASE
    and the elements of arrays. *)
Fixpoint expr_nested_ind (e : Expr B V) : P e.
Proof using All.
  destruct e as [i ty|v ty|op l r ty|op l r ty|op l r ty|e ty|f ty|bs e ty|es shape ty].
  - apply Hcolumn.
  - apply Hliteral.
  - apply Hop; apply expr_nested_ind.
  - apply Hany; apply expr_nested_ind.
  - apply Hall; apply expr_nested_ind.
  - apply Hcast, expr_nested_ind.
  - apply Hcall. destruct f as [x y|x l|x l|x y z|x y z|x l t|x l t|x y z|n l]; cbn [builtin_args].
    all: repeat apply List.Forall_cons; try apply expr_nested_ind; try apply List.Forall_nil; try exact (all_list expr_nested_ind l).
    + destruct y as [y|], z as [z|]; cbn; repeat apply List.Forall_cons; try apply expr_nested_ind; apply List.Forall_nil.
    + destruct z as [z|]; cbn; repeat apply List.Forall_cons; try apply expr_nested_ind; apply List.Forall_nil.
  - apply Hcase; [|apply expr_nested_ind]. exact (all_list (λ b : Expr B V * Expr B V,
      match b return P b.1 ∧ P b.2 with (c, body) => conj (expr_nested_ind c) (expr_nested_ind body) end) bs).
  - apply Harray. exact (all_list expr_nested_ind es).
Qed.
End expr_ind.

Section eval_props.
Context `{!Unicode} `{!DecimalOps D} `{!DateTimeOps T} `{Duration Du} `{!RegexOps R} {B : Type}.
Context (parse_timestamp : list Z → option (TimestampTz T)) (parse_time : list Z → option MySqlTime).
#[local] Abbreviation V := (DfValue D T).
#[local] Abbreviation Arg := (result V * DfType)%type.
Context (coerce_to : V → DfType → DfType → result V) (json_op : BinaryOperator → V → V → result V)
  (other_builtin : B → DfType → list Arg → result V).
#[local] Abbreviation df_eq := (df_eq (Du:=Du) parse_timestamp parse_time).
#[local] Abbreviation df_cmp := (df_cmp (Du:=Du) parse_timestamp parse_time).
#[local] Abbreviation eval_binary_op := (eval_binary_op (Du:=Du) parse_timestamp parse_time coerce_to json_op).
#[local] Abbreviation greatest_or_least := (greatest_or_least (Du:=Du) parse_timestamp parse_time coerce_to).
#[local] Abbreviation builtin_eval := (builtin_eval (Du:=Du) parse_timestamp parse_time coerce_to other_builtin).
#[local] Abbreviation best_arg := (best_arg (Du:=Du) parse_timestamp parse_time coerce_to).
#[local] Abbreviation eval := (eval (Du:=Du) parse_timestamp parse_time coerce_to json_op other_builtin).
Implicit Types (v w : V) (ty : DfType).

Lemma concat_columns (es : list (Expr B V)) (P : nat → Prop) :
  Forall P (concat (expr_columns <$> es)) → Forall (λ e, Forall P (expr_columns e)) es.
Proof. induction es as [|e es IH]; csimpl; [done|]. rewrite Forall_app, Forall_cons. intros [? ?]. auto. Qed.

(** The value of an expression depends only on the columns that it reads. *)
Theorem eval_columns (e : Expr B V) r1 r2 : Forall (λ i, r1 !! i = r2 !! i) (expr_columns e) → eval r1 e = eval r2 e.
Proof.
  induction e as [i ty|v ty|op l r ty IHl IHr|op l r ty IHl IHr|op l r ty IHl IHr|e ty IH|f ty IH|bs e ty IHb IH|es shape ty IH]
    using expr_nested_ind; cbn [expr_columns Expressions.eval]; rewrite ?Forall_app; intros Hc; destruct_and?.
  - apply Forall_cons in Hc as [-> _]. done.
  - done.
  - by rewrite IHl, IHr.
  - by rewrite IHl, IHr.
  - by rewrite IHl, IHr.
  - by rewrite IH.
  - rewrite builtin_args_map in Hc. apply concat_columns in Hc. f_equal. apply builtin_map_ext.
    eapply Forall_impl; [apply Forall_and; split; [exact IH|exact Hc]|]. intros a [Ha Hca]. by rewrite Ha.
  - f_equal; [|by apply IH]. clear IH. induction IHb as [|[c body] bs [Hbc Hbb] _ IHbs]; [done|]. simpl in *.
    rewrite !Forall_app in *. destruct_and?. by rewrite Hbc, Hbb, IHbs.
  - change (map expr_columns es) with (expr_columns <$> es) in Hc. apply concat_columns in Hc.
    assert (map (eval r1) es = map (eval r2) es) as ->; [|done].
    induction IH as [|e es He _ IHes]; [done|]. apply Forall_cons in Hc as [? ?]. simpl. by rewrite He, IHes.
Qed.

(** Values of columns of one type are compared with the operators as the order says:
    one of [<], [=] and [>] holds, [>=] and [<=] are the opposites of [<] and [>], and
    comparing with NULL gives NULL. *)
Theorem comparisons_typed n t v w vty wty : typed n t v → typed n t w → coerce_to w vty wty = Ok w →
  let op o := eval_binary_op o v vty w wty in
  if is_none v || is_none w then ∀ o, o ∈ [Less; Equal; Greater; LessOrEqual; GreaterOrEqual; NotEqual] → op o = Ok VNone
  else ∃ lt eq gt : bool, op Less = Ok (df_bool lt) ∧ op Equal = Ok (df_bool eq) ∧ op Greater = Ok (df_bool gt) ∧
    op GreaterOrEqual = Ok (df_bool (negb lt)) ∧ op LessOrEqual = Ok (df_bool (negb gt)) ∧
    op NotEqual = Ok (df_bool (negb eq)) ∧ (bit lt + bit eq + bit gt = 1) ∧
    eval_binary_op Greater w wty v vty = Ok (df_bool lt).
Proof.
  intros Hv Hw Hc op. destruct (is_none v || is_none w) eqn:Hnone.
  - intros o Ho. subst op. cbn beta. rewrite !elem_of_cons, elem_of_nil in Ho.
    destruct_or? Ho; try done; subst o; destruct v; try done; destruct w; done.
  - apply orb_false_iff in Hnone as [Hnv Hnw].
    assert (∀ k, non_null (Ok v) k = k v ∧ non_null (Ok w) k = k w) as Hk by (intros k; by destruct v, w).
    assert (df_eq v w = is_eq (df_cmp v w)) as Heq.
    { apply eq_true_iff_eq. rewrite (df_eq_key parse_timestamp parse_time n t), (df_cmp_key parse_timestamp parse_time n t) by done.
      symmetry. apply cmp_is_eq. }
    assert (df_cmp w v = CompOpp (df_cmp v w)) as Hopp.
    { rewrite !(df_cmp_key parse_timestamp parse_time n t) by done. apply cmp_antisym. }
    subst op. cbn [Expressions.eval_binary_op]. cbn beta. rewrite !(proj1 (Hk _)), !(proj2 (Hk _)), !(proj1 (Hk _)), Hc, Hopp.
    cbn [mbind result_bind]. rewrite Heq. destruct (df_cmp v w); do 3 eexists; repeat split; reflexivity.
Qed.

(** AND and OR give NULL if their left side is NULL, whatever the right side is, but not
    the other way round: they do not commute. *)
Theorem or_null_asymmetric vty wty :
  eval_binary_op Or VNone vty (df_bool true) wty = Ok VNone ∧ eval_binary_op Or (df_bool true) wty VNone vty = Ok (df_bool true) ∧
  eval_binary_op And VNone vty (df_bool false) wty = Ok VNone ∧ eval_binary_op And (df_bool false) wty VNone vty = Ok (df_bool false).
Proof. done. Qed.

(** What cannot be converted to a string is LIKE every pattern. *)
Theorem like_untextual v vty w wty e w' : coerce_to v DEFAULT_TEXT vty = Err e → coerce_to w DEFAULT_TEXT wty = Ok w' →
  eval_binary_op Like v vty w wty = Ok (df_bool true) ∧ eval_binary_op NotLike v vty w wty = Ok (df_bool false).
Proof. intros Hv Hw. cbn [Expressions.eval_binary_op]. unfold eval_like. by rewrite Hv, Hw. Qed.

(** Values that a conversion to a type keeps. *)
Definition no_coercion (ty : DfType) (args : list (V * DfType)) : Prop := Forall (λ a, coerce_to a.1 ty a.2 = Ok a.1) args.
#[local] Abbreviation evaluated := (λ a : V * DfType, (Ok a.1, a.2)).
(** Where the loop of GREATEST ends. *)
Lemma best_arg_greatest n t compare_as args res res_ty k :
  typed n t res → Forall (λ a, typed n t a.1 ∧ is_none a.1 = false) args → no_coercion compare_as args →
  ∃ i a, ((res, res_ty) :: args) !! i = Some a ∧ best_arg is_gt compare_as (evaluated <$> args) res res_ty res k = k a.1 a.2 ∧
    Forall (λ b, df_cmp b.1 a.1 ≠ Gt) ((res, res_ty) :: args) ∧ Forall (λ b, df_cmp b.1 a.1 = Lt) (take i ((res, res_ty) :: args)).
Proof.
  revert res res_ty. induction args as [|[v vty] args IH]; intros res res_ty Hres Hargs Hco.
  { exists 0%nat, (res, res_ty). split_and!; [done..| |done]. apply Forall_singleton. cbn.
    rewrite (df_cmp_key parse_timestamp parse_time n t) by done. by rewrite (proj2 (cmp_eq_iff _ _) eq_refl). }
  apply Forall_cons in Hargs as [[Hv Hnv] Hargs]. apply Forall_cons in Hco as [Hcv Hco]. cbn [fst snd] in Hcv, Hv, Hnv.
  assert (∀ k, non_null (Ok v) k = k v) as Hnn by (intros k'; by destruct v).
  rewrite fmap_cons. cbn [Expressions.best_arg fst snd]. rewrite Hnn. unfold try_cast_or_none. rewrite Hcv.
  assert (∀ b, b ∈ args → typed n t b.1) as Hty by (intros b Hb; by apply (proj1 (Forall_forall _ _) Hargs)).
  pose proof (df_cmp_key parse_timestamp parse_time n t) as Hkey.
  destruct (df_cmp v res) eqn:Hc; rewrite Hkey in Hc by done.
  3:{ destruct (IH v vty) as (i & [a aty] & Hi & -> & Hle & Hlt); [done..|]. cbn [fst snd] in *.
      assert (typed n t a) as Ha.
      { apply list_elem_of_lookup_2, elem_of_cons in Hi as [[= -> _]|Hi]; [done|]. exact (Hty _ Hi). }
      assert (df_cmp res a = Lt) as Hra.
      { apply Forall_cons in Hle as [Hva _]. cbn in Hva. rewrite Hkey in Hva |- * by done. ord_lia. }
      exists (S i), (a, aty). split_and!; [done..| |].
      - apply Forall_cons. split; [cbn; by rewrite Hra|done].
      - cbn [take]. apply Forall_cons. auto. }
  all: destruct (IH res res_ty) as (i & [a aty] & Hi & -> & Hle & Hlt); [done..|]; cbn [fst snd] in *.
  all: assert (typed n t a) as Ha by
    (apply list_elem_of_lookup_2, elem_of_cons in Hi as [[= -> _]|Hi]; [done|exact (Hty _ Hi)]).
  all: apply Forall_cons in Hle as [Hra Hle]; cbn in Hra; rewrite Hkey in Hra by done.
  all: destruct i as [|i]; [exists 0%nat|exists (S (S i))]; exists (a, aty); split_and!; try done.
  all: try (apply Forall_cons; split; [cbn; by rewrite Hkey|]; apply Forall_cons; split; [cbn; rewrite Hkey by done; ord_lia|done]).
  all: cbn [take] in Hlt |- *; apply Forall_cons in Hlt as [Hlt1 Hlt]; cbn in Hlt1; rewrite Hkey in Hlt1 by done.
  all: apply Forall_cons; split; [cbn; by rewrite Hkey|]; apply Forall_cons; split; [cbn; rewrite Hkey by done; ord_lia|done].
Qed.

(** GREATEST of typed values that are not NULL is the first of those that no other
    exceeds. *)
Theorem greatest_is_max n t compare_as ty arg1 args :
  Forall (λ a, typed n t a.1 ∧ is_none a.1 = false) (arg1 :: args) → no_coercion compare_as (arg1 :: args) → no_coercion ty (arg1 :: args) →
  ∃ i a, (arg1 :: args) !! i = Some a ∧ builtin_eval (Greatest (evaluated arg1) (evaluated <$> args) compare_as) ty = Ok a.1 ∧
    Forall (λ b, df_cmp b.1 a.1 ≠ Gt) (arg1 :: args) ∧ Forall (λ b, df_cmp b.1 a.1 = Lt) (take i (arg1 :: args)).
Proof.
  destruct arg1 as [v vty]. intros [[Hv Hnv] Hargs]%Forall_cons [Hcv Hco]%Forall_cons Hty. cbn [fst snd] in *.
  destruct (best_arg_greatest n t compare_as args v vty (λ res res_ty, try_cast_or_none coerce_to res ty res_ty Ok)) as (i & a & Hi & Hb & Hle & Hlt); [done..|].
  exists i, a. split_and!; [done| |done..]. cbn [Expressions.builtin_eval]. unfold Expressions.greatest_or_least. cbn [fst snd].
  assert (∀ k, non_null (Ok v) k = k v) as -> by (intros k'; by destruct v).
  unfold try_cast_or_none at 1. rewrite Hcv, Hb. unfold try_cast_or_none.
  by rewrite (proj1 (Forall_lookup _ _) Hty _ _ Hi).
Qed.
End eval_props.

(** ** Samples *)
(** Regular expressions of characters, of [.] and of [.*], without a limit that matters. *)
Fixpoint parse_atoms (s : list Z) : option (list Atom) :=
  match s with
  | [] => None
  | c :: s1 =>
      if c =? DOLLAR then match s1 with [] => Some [] | _ => None end
      else match s1 with
           | [] => None
           | c' :: s2 =>
               if c =? DOT then if c' =? STAR then cons AMany <$> parse_atoms s2 else cons AOne <$> parse_atoms s1
               else if c =? BACKSLASH then cons (AChar c') <$> parse_atoms s2 else cons (AChar c) <$> parse_atoms s1
           end
  end.
Definition simple_regex_new (s : list Z) : option (CaseSensitivityMode * list Atom) :=
  match s with
  | c :: s' => if c =? CARET then pair CaseSensitive <$> parse_atoms s' else pair CaseInsensitive <$> parse_atoms (drop 4 s')
  | [] => None
  end.
Definition ascii_lower (c : Z) : Z := if (65 <=? c) && (c <=? 90) then c + 32 else c.
Lemma atoms_head p : ∃ c s, concat (atom_syntax <$> p) ++ [DOLLAR] = c :: s ∧ (c =? STAR) = false.
Proof.
  destruct p as [|[c| |] p]; [by eexists _, _..| |by eexists _, _|by eexists _, _]. csimpl. destruct (is_special c) eqn:Hc; [by eexists _, _|].
  eexists c, _. split; [done|]. apply Z.eqb_neq. by intros ->.
Qed.
Lemma parse_atoms_syntax p : parse_atoms (concat (atom_syntax <$> p) ++ [DOLLAR]) = Some p.
Proof.
  induction p as [|a p IH]; [done|]. rewrite fmap_cons. cbn [concat]. rewrite <-app_assoc.
  destruct (atoms_head p) as (h & s & Hh & Hs). rewrite Hh in IH |- *. destruct a as [c| |]; cbn [atom_syntax].
  - destruct (is_special c) eqn:Hc; cbn [app]; cbn [parse_atoms].
    + change (BACKSLASH =? DOLLAR) with false. change (BACKSLASH =? DOT) with false. change (BACKSLASH =? BACKSLASH) with true.
      change (option_fmap _ _ (cons (AChar c)) (parse_atoms (h :: s)) = Some (AChar c :: p)). by rewrite IH.
    + assert ((c =? DOLLAR) = false ∧ (c =? DOT) = false ∧ (c =? BACKSLASH) = false) as (-> & -> & ->).
      { split_and!; apply Z.eqb_neq; by intros ->. }
      change (option_fmap _ _ (cons (AChar c)) (parse_atoms (h :: s)) = Some (AChar c :: p)). by rewrite IH.
  - cbn [app parse_atoms]. change (DOT =? DOLLAR) with false. change (DOT =? DOT) with true. cbn beta iota. rewrite Hs.
    change (option_fmap _ _ (cons AOne) (parse_atoms (h :: s)) = Some (AOne :: p)). by rewrite IH.
  - cbn [app parse_atoms]. change (DOT =? DOLLAR) with false. change (DOT =? DOT) with true. change (STAR =? STAR) with true.
    cbn beta iota. change (option_fmap _ _ (cons AMany) (parse_atoms (h :: s)) = Some (AMany :: p)). by rewrite IH.
Qed.
Definition simple_regex : RegexOps (CaseSensitivityMode * list Atom).
Proof.
  refine {| regex_new := simple_regex_new; same_case a b := ascii_lower a =? ascii_lower b; size_limit := 1000;
    is_match r s := atoms_match (same_char (λ a b, ascii_lower a =? ascii_lower b) r.1) r.2 s |}.
  intros mode p _. exists (mode, p). split; [|done].
  destruct mode.
  - change (pair CaseSensitive <$> parse_atoms (concat (atom_syntax <$> p) ++ [DOLLAR]) = Some (CaseSensitive, p)). by rewrite parse_atoms_syntax.
  - change (pair CaseInsensitive <$> parse_atoms (concat (atom_syntax <$> p) ++ [DOLLAR]) = Some (CaseInsensitive, p)). by rewrite parse_atoms_syntax.
Defined.

(** Only strings are strings. *)
Definition text_only (v : DfValue Z Z) (to_ty from_ty : DfType) : result (DfValue Z Z) :=
  match to_ty, v with
  | Text _, (VText _ _ | VTinyText _ _ | VNone) => Ok v
  | Text _, _ => Err DfValueConversionError
  | _, _ => Ok v
  end.
Definition no_json (op : BinaryOperator) (v w : DfValue Z Z) : result (DfValue Z Z) := Err Unsupported.
Definition no_builtin (name : unit) (ty : DfType) (args : list (result (DfValue Z Z) * DfType)) : result (DfValue Z Z) := Err Unsupported.

(** ['A%\_'] matches ['a\b_'] without case. *)
Lemma like_matches_spec_witness : ∃ b, like_matches (H:=simple_regex) [65; 37; 92; 95] CaseInsensitive [97; 92; 98; 95] = Ok b ∧ b = true.
Proof.
  destruct (like_matches_spec (H:=simple_regex) [65; 37; 92; 95] CaseInsensitive [97; 92; 98; 95]) as (b & Hb & _ & Hcomplete); [simpl; lia|].
  exists b. split; [exact Hb|]. apply Hcomplete; [vm_compute; set_solver|]. apply like_atoms_sound. reflexivity.
Defined.
Lemma like_newline_unmatched_witness : like_matches (H:=simple_regex) [PERCENT] CaseSensitive [NEWLINE] = Ok false.
Proof. apply (like_newline_unmatched (H:=simple_regex)). simpl. lia. Defined.
Lemma split_part_spec_witness : split_part (D:=Z) (T:=Z) [97; 46; 98; 46; 99] [46] (-3) = Ok (df_str []).
Proof. apply (split_part_spec (D:=Z) (T:=Z) [97; 46; 98; 46; 99] [46]). reflexivity. Defined.
Lemma substring_from_end_witness : substring (D:=Z) (T:=Z) [97; 98; 99] (- Z.of_nat 2) 1 = df_str [98].
Proof. apply (substring_from_end (D:=Z) (T:=Z) [97; 98; 99] 2 1); [repeat constructor|simpl; lia|lia|simpl; lia]. Defined.
Lemma bidirectional_spec_witness : index_bidirectional [4; 5; 6] (-1) = Some 6.
Proof. apply (bidirectional_spec [4; 5; 6] (-1) 7 false); simpl; lia. Defined.
#[local] Abbreviation sample_eval := (eval (H:=ascii_greek) (DecimalOps0:=units_decimal) (DateTimeOps0:=z_datetime) (Du:=Z)
  (RegexOps0:=simple_regex) no_timestamp no_time text_only no_json no_builtin).
Lemma eval_columns_witness :
  let e := ECaseWhen [(EOp Less (EColumn 1 BigInt) (ELiteral (VInt 3) BigInt) Bool, EColumn 0 BigInt)] (ELiteral VNone BigInt) BigInt in
  sample_eval [VInt 7; VInt 2; VNone] e = sample_eval [VInt 7; VInt 2; VInt 9] e.
Proof.
  intros e. apply (eval_columns (H:=ascii_greek) (DecimalOps0:=units_decimal) (DateTimeOps0:=z_datetime) (Du:=Z)
    (RegexOps0:=simple_regex) no_timestamp no_time text_only no_json no_builtin e). repeat constructor.
Defined.
#[local] Abbreviation sample_op := (eval_binary_op (H:=ascii_greek) (DecimalOps0:=units_decimal) (DateTimeOps0:=z_datetime) (Du:=Z)
  (RegexOps0:=simple_regex) no_timestamp no_time text_only no_json).
Lemma comparisons_typed_witness : ∃ lt : bool, sample_op Less (VInt 2) BigInt (VUnsignedInt 3) BigInt = Ok (df_bool lt).
Proof.
  destruct (comparisons_typed (H:=ascii_greek) (DecimalOps0:=units_decimal) (DateTimeOps0:=z_datetime) (Du:=Z)
    (RegexOps0:=simple_regex) no_timestamp no_time text_only no_json NcInt TcTime (VInt 2) (VUnsignedInt 3) BigInt BigInt)
    as (lt & ? & ? & Hlt & _); [done..|]. by exists lt.
Defined.
Lemma like_untextual_witness : sample_op Like (VByteArray [1]) Blob (VTinyText [120] Utf8) DEFAULT_TEXT = Ok (df_bool true).
Proof.
  apply (like_untextual (H:=ascii_greek) (DecimalOps0:=units_decimal) (DateTimeOps0:=z_datetime) (Du:=Z)
    (RegexOps0:=simple_regex) no_timestamp no_time text_only no_json (VByteArray [1]) Blob (VTinyText [120] Utf8) DEFAULT_TEXT
    DfValueConversionError (VTinyText [120] Utf8)); reflexivity.
Defined.
Lemma greatest_is_max_witness : ∃ i a, [(VInt 2, BigInt); (VInt 5, BigInt); (VUnsignedInt 5, BigInt)] !! i = Some a ∧
  builtin_eval (H:=ascii_greek) (DecimalOps0:=units_decimal) (DateTimeOps0:=z_datetime) (Du:=Z) no_timestamp no_time text_only no_builtin
    (Greatest (Ok (VInt 2), BigInt) [(Ok (VInt 5), BigInt); (Ok (VUnsignedInt 5), BigInt)] BigInt) BigInt = Ok a.1.
Proof.
  destruct (greatest_is_max (H:=ascii_greek) (DecimalOps0:=units_decimal) (DateTimeOps0:=z_datetime) (Du:=Z) no_timestamp no_time
    text_only no_builtin NcInt TcTime BigInt BigInt (VInt 2, BigInt) [(VInt 5, BigInt); (VUnsignedInt 5, BigInt)])
    as (i & a & Hi & Hb & _); [by repeat constructor..|]. by exists i, a.
Defined.
